(* ===== verification/_CoqProject ===== *)
-Q . S2P
Prelude.v
StakedSet.v
OrphanSet.v
EvictionSet.v
Types.v
Eviction.v
Runtime.v
Worker.v
Driver.v
Watcher.v
Updater.v
Slot.v
Schedule.v
Managed.v
Sender.v
Commitment.v
Rooted.v
Blockhash.v
Retry.v
Scheduling.v
JetTypes.v
JetWorker.v
JetGateway.v
JetInv.v
JetSafe.v
JetSystem.v
JetLife.v
JetCarry.v
JetAttempts.v
JetDemo.v
JetGuarantees.v
JetWitnesses.v
JetUpdater.v
JetResponses.v
JetWatcher.v
Fanout.v
Forwarding.v
Geyser.v
Pipeline.v
Health.v
RpcRetry.v
Stake.v
TpuInfo.v
ClusterTpu.v
Payload.v
Text.v
Intake.v
Prom.v
Metrics.v
EndToEnd.v
Challenge.v
Lewis.v
Config.v
JetMain.v
Lite.v
Supervision.v
Construct.v
Identity.v
Admin.v
Features.v
Gateway.v
DriverInv.v
DriverSafe.v
DriverLoop.v
Connecting.v
System.v
Wiring.v
Conserve.v
Demo.v
Guarantees.v
Routing.v
Divergences.v
Witnesses.v
