(* ===== verification/Prelude.v ===== *)
(** * A verification of the Yellowstone TPU client and of the Jet proxy

    The repository holds a library, [crates/tpu-client], that sends Solana
    transactions over QUIC to the TPUs of the leaders, and a proxy, [apps/jet], that
    takes transactions over RPC, HTTP and gRPC, forwards them to leaders and resends
    them until they land. The definitions translate the Rust code; the theorems say
    what it guarantees.

    ** The parts, and where they are modelled

    The library ([crates/tpu-client/src]).
    - [Types]: transactions, responses, errors, configuration with its defaults, and
      the address lookup with overrides ([core.rs], [config.rs]).
    - [StakedSet], [OrphanSet], [EvictionSet], [Eviction]: the data structures of the
      driver and the stake-based eviction plans ([core.rs]).
    - [Runtime]: what the code uses of tokio (bounded channels as an interface with
      laws, one-permit notifications, task records) and the accounting of
      transactions in channels and responses.
    - [Worker], [Driver]: [QuicTxSenderWorker::run] and [TpuSenderDriver], one
      definition per method, the loop of [run] included.
    - [Connecting]: [ConnectingTask::run], one poll at a time ([core.rs]).
    - [Watcher], [Updater]: [RemotePeerAddrWatcher] and [TpuSenderIdentityUpdater],
      as step functions at the grain of their atomic sections.
    - [System]: the driver with the workers, connection attempts and tasklets it
      spawned, as a transition system. Everything the environment decides (QUIC
      outcomes, timers, the order of ready events) labels a step. [Wiring]: the
      connection each worker holds, over that system.
    - [Slot], [Schedule], [Managed], [Sender]: the slot tracker, the compact leader
      schedule, the background schedule with its predictor, and the fan-out sender
      ([slot.rs], [rpc/schedule.rs], [sender.rs], [yellowstone_grpc/]).
    - [RpcRetry], [Stake], [TpuInfo]: the retrying RPC sender, the stake map, and the
      TPU topology with its diffs ([rpc/]).
    - [Construct], [Supervision]: how the services of a Yellowstone sender are
      started, with the construction that fails or is dropped midway, how its clones
      keep them alive, and the overseer of their tasks ([yellowstone_grpc/sender.rs]).

    The proxy ([apps/jet/src]).
    - [Payload], [Text], [Intake]: payload formats, Rust string operations, and the
      RPC, HTTP and gRPC entries up to the scheduler's channel ([payload.rs],
      [transaction_handler.rs], [http_tx_handler.rs], [rpc.rs], [solana.rs],
      [grpc_jet.rs]).
    - [Commitment], [Geyser], [Rooted], [Pipeline], [Blockhash]: commitments and the
      reconnection backoff, the gRPC subscriber, the rooted-transaction state with
      its receiver loop, the composition of the two, and the block heights by
      blockhash ([util/mod.rs], [grpc_geyser.rs], [rooted_transaction_state.rs],
      [transactions.rs], [blockhash_queue.rs]).
    - [Retry], [Fanout]: the resending scheduler, the no-retry scheduler and the
      fan-out to leaders and extra peers ([transactions.rs]). [Scheduling] is what a
      scheduler promises to the fan-out, as a class with both schedulers as instances.
    - [ClusterTpu], [Stake]: leader and address lookups and stake limits
      ([cluster_tpu_info.rs], [stake.rs]).
    - [Challenge], [Gateway], [Features]: the identity challenge with its one-time
      tokens, the client of the jet-gateway, and the feature flags
      ([pubkey_challenger.rs], [grpc_jet.rs], [feature_flags.rs]).
    - [Identity], [Admin]: the admin RPC, the identity group and its members, and the
      commands of the proxy's binary, a client of that RPC ([rpc.rs], [identity.rs],
      [jet_gateway.rs], [bin/jet.rs]).
    - [Lewis]: the event reporting ([grpc_lewis.rs]).
    - [Health], [Prom], [Metrics]: the gauges that decide the health of the proxy, with
      the code that sets them, the admin server's answers, the labels added to the text
      of the metrics, and the tasks that publish them ([metrics.rs], [rpc.rs],
      [util/prom.rs], [bin/jet.rs]).
    - [JetTypes], [JetWorker], [JetGateway], [JetUpdater]: the proxy's own QUIC gateway
      ([quic_client/core.rs]), an older design than the library's driver: one
      connection per peer, evictions planned per peer, connections opened ahead for
      predicted leaders, and the future that awaits an identity update. [JetSystem]
      puts the gateway, its workers and detached tasks together as a transition
      system, as [System] does for the driver; [JetResponses] says that its steps only
      append responses; [JetWatcher] joins it to its address watcher.
    - [Forwarding]: the fan-out and the gateway joined by the channel of transactions
      and the stream of responses, as [run_jet] joins them. [EndToEnd] puts the entries
      and a scheduler in front: the whole path of a transaction ([bin/jet.rs]).
    - [Lite]: the lighter proxy, the entries in front of the library's [Sender]
      ([bin/lite-jet.rs]).
    - [Config], [JetMain]: the entries of the configuration with their defaults, what
      [run_jet] starts from them, and the shutdown of the process ([config.rs],
      [bin/jet.rs]).

    How they interact. In the library a producer puts a transaction in the driver's
    channel ([Sender]); the driver ([Driver]) queues it for its peer, connects if need
    be, and hands it to the peer's worker ([Worker]); eviction makes room for new
    connections; the watcher and the identity updater send it commands. In the proxy
    an entry ([Intake]) sends a request to the scheduler ([Retry]), which asks the
    block heights ([Blockhash]), watches the signature ([Rooted], fed by [Geyser]),
    and forwards ([Fanout]) to the leaders of [ClusterTpu] through the QUIC gateway
    ([JetGateway]). Components see each other
    through classes ([Mpsc], [ConnectionEvictionStrategy], [LeaderTpuInfoService],
    [BlockHeightService], [RootedTxReceiver], [UpcomingLeaderSchedule], ...): a
    client's theorems use the class, and the modules give the instances.

    ** How the code is represented

    Public keys, socket addresses, connections and signatures are opaque identifiers.
    Integers that can wrap are [N] with an explicit modulus (release builds do not
    check overflow); floats are binary64 through [SpecFloat]. [HashMap]s are [gmap]s,
    and an iteration over one goes through [HashIter], any permutation of its
    entries. [async] code is cut at its await points, and each [select!] branch is an
    event. Errors are sums or options, and a panic is a result of its own where the
    code can meet one. Records are updated with [r <| field := v |>].

    ** What the theorems show

    - Driver ([DriverInv], [DriverSafe], [DriverLoop], [System], [Wiring], [Conserve],
      [Guarantees], [Routing]): one inductive invariant over every reachable state and
      its consequences; no transaction is lost or duplicated (with the exceptions
      stated); the handlers do what they should on each branch; eviction plans are
      correct; an attempt ends as [System] lets it, by its timeout ([Connecting]). [Divergences] has runs where the code does not do what it means to.
    - Jet's gateway ([JetInv], [JetSafe], [JetLife], [JetCarry], [JetAttempts],
      [JetGuarantees]): the same questions for the older design. Transactions are
      conserved, its tables stay well formed, each peer moves through five phases,
      queued transactions have a carrier, attempts are bounded, and it panics only if
      leaders are predicted; two defects are proved of it. No peer it serves
      is forgotten by the address watcher, one case excepted ([JetWatcher]).
    - Background services ([Watcher], [Updater], [Slot], [Managed], [Stake],
      [TpuInfo], [ClusterTpu], [Blockhash], [Geyser], [Rooted]): whatever the
      interleaving, what readers see is determined by the history of inputs, through a
      reference definition that reads only that history.
    - Sending ([Sender], [Retry], [Fanout], [RpcRetry], [Lewis]): who is sent what,
      how often and in which order, and that loops end. [Forwarding] accounts for each
      copy from the send task to the response, and for each signature in flight;
      [EndToEnd] says, for either scheduler ([Scheduling]), that only accepted
      transactions are sent and how many copies at most; [Lite] that the lighter proxy
      sends what it accepted, in order.
    - Start and end ([Construct], [Supervision], [JetMain]): services run exactly while
      a sender exists, and a shutdown ends by the deadline that its first task set and
      leaves nothing running; the task that awaits SIGINT holds it up until then.
    - Entries and formats ([Payload], [Intake], [Schedule], [Challenge], [Gateway],
      [Prom]): round trips, all-or-nothing submissions, agreement with a reference
      reading.
    - [Health], [Metrics]: the health is a function of the last inputs, and is never
      good in relay-only mode; what is published is labelled, and of the last inputs.
    - Identity ([Identity], [Admin]): agreement of the members behind the barrier,
      completion of every update, and what the commands report of it.

    [Demo], [Witnesses], [JetDemo] and [JetWitnesses] run the theorems on concrete
    states.

    ** Fuel and bounds

    [spawn_connecting] calls itself at most once, so fuel 2 is exact
    ([spawn_connecting_fuel_exact]); the orphan eviction loop has as much fuel as
    there are orphans ([inv_try_evict_orphans]); the resend loop as much as the
    attempts queued ([Retry.resend_measure]); the worker's queue loop as much as the
    attempts its transactions have left ([queue_loop_terminates], and
    [gw_queue_loop] for jet's worker); a fan-out task one
    unit per destination. In each case a lemma says that the loop is over when the
    fuel is, so that no result depends on it. All other loops recur on their input.

    ** What is not modelled

    - TLS, QUIC, certificates, signatures, HTTP and gRPC frameworks, serde and the
      codecs: parameters, with laws where a theorem needs them.
    - The metrics of [apps/jet/src/quic_client/prom.rs], which nobody reads.
    - The bodies of the tasks that [JetMain] joins, but for the one of the signal: they
      are those of the other components, and may end at any poll.
    - The metrics nobody reads, the other binaries and the reading of YAML, which keep
      no state of their own; the memory model below the atomic accesses; lock poisoning, since no
      code that holds a lock panics. *)
From stdpp Require Export base gmap sets list sorting strings.
From Stdlib Require Export NArith ZArith.

(** ** Record update *)

(** [Settable R] rebuilds a record from its projections; [Setter] derives
    from it the update of one field. *)
Class Settable (R : Type) := rebuild : R → R.
Class Setter {R T : Type} (proj : R → T) := modify : (T → T) → R → R.
Arguments modify {R T} proj {_} _ _ : simpl never.

Ltac derive_setter :=
  lazymatch goal with
  | |- @Setter ?R ?T ?proj =>
      let f := fresh "f" in
      let r := fresh "r" in
      refine (fun (f : T → T) (r : R) => _);
      let whole := eval hnf in (@rebuild R _ r) in
      lazymatch eval pattern (proj r) in whole with
      | ?ctx _ => let body := eval cbv beta in (ctx (f (proj r))) in exact body
      end
  end.

#[export] Hint Extern 1 (Setter _) => derive_setter : typeclass_instances.

Declare Scope jet_scope.
Delimit Scope jet_scope with jet.
Notation "r <| proj := v |>" := (modify proj (λ _, v) r)
  (at level 1, left associativity, format "r  <|  proj  :=  v  |>") : jet_scope.
Notation "r <| proj ::= f |>" := (modify proj f r)
  (at level 1, left associativity, format "r  <|  proj  ::=  f  |>") : jet_scope.
#[global] Open Scope jet_scope.

(** [upd_simpl] pushes a projection through record updates. The equation for
    one update is checked on a variable, so that its cost does not depend on
    the record being updated. *)
Ltac head_is_const t := lazymatch t with ?f _ => head_is_const f | _ => is_const t end.

Ltac upd_eq p q s f k :=
  head_is_const p;
  first
    [ unify p q;
      let E := constr:(λ r, @eq_refl _ (f (p r)) : p (@modify _ _ q s f r) = f (p r)) in k E
    | let E := constr:(λ r, @eq_refl _ (p r) : p (@modify _ _ q s f r) = p r) in k E ].

Ltac upd_simpl :=
  repeat match goal with
  | |- context [?p (@modify ?R ?T ?q ?s ?f ?r)] =>
      upd_eq p q s f ltac:(fun E => rewrite (E r); cbv beta)
  end.

Ltac upd_simpl_in H :=
  repeat match type of H with
  | context [?p (@modify ?R ?T ?q ?s ?f ?r)] =>
      upd_eq p q s f ltac:(fun E => rewrite (E r) in H; cbv beta in H)
  end.

Ltac upd_simpl_all :=
  upd_simpl;
  repeat match goal with
  | H : context [@modify _ _ _ _ _ _] |- _ => progress (upd_simpl_in H)
  end.

(** ** Machine integers

    A [u64] is an [N] below [2^64]; [+] wraps, which is what a release build
    does (the workspace's release profile leaves overflow checks off). *)
Definition u64_modulus : N := 2 ^ 64.
Definition u64_max : N := u64_modulus - 1.
Definition u64_add (a b : N) : N := (a + b) `mod` u64_modulus.
Definition u64_saturating_add (a b : N) : N := N.min (a + b) u64_max.
Definition u64_saturating_sub (a b : N) : N := a - b.
Definition u64_sub (a b : N) : N := if (a <? b)%N then a + u64_modulus - b else a - b.
Definition u64_mul (a b : N) : N := (a * b) `mod` u64_modulus.
Definition u64_sum (l : list N) : N := foldr u64_add 0%N l.

Lemma u64_add_small a b : (a + b < u64_modulus)%N → u64_add a b = (a + b)%N.
Proof. apply N.mod_small. Qed.

Lemma u64_sub_small a b : (b ≤ a)%N → u64_sub a b = (a - b)%N.
Proof. intros H. unfold u64_sub. destruct (N.ltb_spec a b); [lia|done]. Qed.

Lemma u64_mul_small a b : (a * b < u64_modulus)%N → u64_mul a b = (a * b)%N.
Proof. apply N.mod_small. Qed.

Lemma u64_sum_wrap l : u64_sum l = (foldr N.add 0 l `mod` u64_modulus)%N.
Proof.
  induction l as [|a l IH]; [done|]. cbn [u64_sum foldr]. fold (u64_sum l).
  rewrite IH. unfold u64_add. by rewrite N.Div0.add_mod_idemp_r.
Qed.

Lemma u64_sum_perm l k : l ≡ₚ k → u64_sum l = u64_sum k.
Proof.
  intros Hp. rewrite !u64_sum_wrap. f_equal.
  induction Hp; cbn [foldr]; lia.
Qed.

(** ** Iteration orders

    Rust's [HashMap]/[HashSet] iterate in an unspecified order.  Every
    definition that iterates over one takes the order as a parameter: an
    arbitrary enumeration of the set, so that the theorems hold whatever the
    hasher does. *)
Class HashIter := {
  hash_iter : ∀ {K : Type} {E : EqDecision K} {C : Countable K}, gset K → list K;
  hash_iter_perm : ∀ {K : Type} {E : EqDecision K} {C : Countable K} (s : gset K),
    hash_iter s ≡ₚ elements s
}.

Definition elements_iter : HashIter :=
  {| hash_iter := λ K E C s, elements s; hash_iter_perm := λ K E C s, Permutation_refl _ |}.

Section HashIter.
Context `{HI : HashIter} {K : Type} `{Countable K}.

Lemma elem_of_hash_iter (s : gset K) x : x ∈ hash_iter s ↔ x ∈ s.
Proof. by rewrite hash_iter_perm, elem_of_elements. Qed.

Lemma NoDup_hash_iter (s : gset K) : NoDup (hash_iter s).
Proof. rewrite hash_iter_perm. apply NoDup_elements. Qed.

(** [HashMap::iter]: the bindings in the order of the keys. *)
Definition map_iter {A} (m : gmap K A) : list (K * A) :=
  omap (λ k, pair k <$> m !! k) (hash_iter (dom m)).

Lemma elem_of_map_iter {A} (m : gmap K A) k x : (k, x) ∈ map_iter m ↔ m !! k = Some x.
Proof.
  unfold map_iter. rewrite list_elem_of_omap. setoid_rewrite elem_of_hash_iter.
  setoid_rewrite elem_of_dom. split.
  - intros (k' & _ & Hk). destruct (m !! k') eqn:E; naive_solver.
  - intros Hk. exists k. rewrite Hk. eauto.
Qed.

Lemma NoDup_map_iter {A} (m : gmap K A) : NoDup (map_iter m).
Proof.
  unfold map_iter. pose proof (NoDup_hash_iter (dom m)) as Hnd.
  induction Hnd as [|k l Hk Hl IH]; cbn; [constructor|].
  destruct (m !! k) as [x|]; cbn; [|done]. constructor; [|done].
  rewrite list_elem_of_omap. intros (k' & Hk' & Heq).
  destruct (m !! k'); naive_solver.
Qed.

Lemma map_iter_perm {A} (m : gmap K A) : map_iter m ≡ₚ map_to_list m.
Proof.
  apply NoDup_Permutation; [apply NoDup_map_iter|apply NoDup_map_to_list|].
  intros [k x]. by rewrite elem_of_map_iter, elem_of_map_to_list.
Qed.
End HashIter.

(** ** [BTreeMap<u64, _>]: iteration by ascending key. *)
Section BTree.
Context {A : Type}.
Implicit Types m : gmap N A.

Definition btree_keys m : list N := merge_sort N.le (elements (dom m)).
Definition btree_first m : option N := head (btree_keys m).
Definition btree_iter m : list (N * A) := omap (λ k, pair k <$> m !! k) (btree_keys m).

Lemma btree_keys_perm m : btree_keys m ≡ₚ elements (dom m).
Proof. apply merge_sort_Permutation. Qed.

Lemma elem_of_btree_keys m k : k ∈ btree_keys m ↔ is_Some (m !! k).
Proof. by rewrite btree_keys_perm, elem_of_elements, elem_of_dom. Qed.

Lemma btree_keys_sorted m : StronglySorted N.le (btree_keys m).
Proof.
  apply Sorted_StronglySorted; [intros a b c; lia|].
  apply Sorted_merge_sort. intros a b; lia.
Qed.

Lemma btree_first_None m : btree_first m = None ↔ m = ∅.
Proof.
  unfold btree_first. split.
  - intros Hh. apply map_eq. intros k. rewrite lookup_empty.
    destruct (m !! k) eqn:E; [|done].
    assert (k ∈ btree_keys m) as Hk by (apply elem_of_btree_keys; eauto).
    destruct (btree_keys m); cbn in *; [by apply elem_of_nil in Hk|done].
  - intros ->. by vm_compute.
Qed.

Lemma btree_first_Some m k : btree_first m = Some k →
  is_Some (m !! k) ∧ ∀ k', is_Some (m !! k') → (k ≤ k')%N.
Proof.
  unfold btree_first. intros Hh. pose proof (btree_keys_sorted m) as Hs.
  setoid_rewrite <-elem_of_btree_keys.
  destruct (btree_keys m) as [|k0 l]; cbn in *; [done|]. simplify_eq.
  apply StronglySorted_inv in Hs as [_ Hall]. rewrite Forall_forall in Hall.
  split; [left|]. intros k' [->|Hk']%elem_of_cons; [done|by apply Hall].
Qed.

Lemma elem_of_btree_iter m k x : (k, x) ∈ btree_iter m ↔ m !! k = Some x.
Proof.
  unfold btree_iter. rewrite list_elem_of_omap. setoid_rewrite elem_of_btree_keys.
  split; [|intros Hk; exists k; rewrite Hk; eauto].
  intros (k' & _ & Hk). destruct (m !! k') eqn:E; naive_solver.
Qed.
End BTree.

(** ** Sums over a finite map *)
Section MapSum.
Context {K A : Type} `{EqDecision K, !Countable K}.
Implicit Types (m : gmap K A) (f : A → nat).

Definition map_sum f m : nat := map_fold (λ _ x acc, f x + acc) 0 m.

Lemma map_sum_empty f : map_sum f ∅ = 0.
Proof. apply map_fold_empty. Qed.

Lemma map_sum_insert_None f m k x :
  m !! k = None → map_sum f (<[k := x]> m) = f x + map_sum f m.
Proof. intros Hk. unfold map_sum. rewrite map_fold_insert_L; [done|lia|done]. Qed.

Lemma map_sum_delete f m k x :
  m !! k = Some x → map_sum f m = f x + map_sum f (delete k m).
Proof. intros Hk. unfold map_sum. rewrite (map_fold_delete_L _ _ k x m); [done|lia|done]. Qed.

Lemma map_sum_insert f m k x :
  map_sum f (<[k := x]> m) + from_option f 0 (m !! k) = f x + map_sum f m.
Proof.
  destruct (m !! k) as [y|] eqn:E; cbn.
  - rewrite (map_sum_delete f m k y E), <-insert_delete_eq.
    rewrite map_sum_insert_None by apply lookup_delete_eq. lia.
  - rewrite map_sum_insert_None by done. lia.
Qed.

Lemma map_sum_delete_opt f m k :
  map_sum f (delete k m) + from_option f 0 (m !! k) = map_sum f m.
Proof.
  destruct (m !! k) as [y|] eqn:E; cbn.
  - rewrite (map_sum_delete f m k y E). lia.
  - rewrite delete_id by done. lia.
Qed.
End MapSum.

(** ** Positions in a list ([Vec::remove] at a found position) *)
Lemma NoDup_delete {A} (l : list A) i : NoDup l → NoDup (delete i l).
Proof.
  intros Hl. revert i. induction Hl as [|x l Hx Hl IH]; intros [|i]; cbn; try done.
  - constructor.
  - constructor.
  - constructor; [|apply IH]. intros Hin. apply Hx.
    eapply elem_of_submseteq; [exact Hin|apply sublist_submseteq, sublist_delete].
Qed.

Lemma elem_of_delete_NoDup {A} (l : list A) i x y :
  NoDup l → l !! i = Some x → y ∈ delete i l ↔ y ∈ l ∧ y ≠ x.
Proof.
  intros Hl Hi. pose proof (delete_Permutation l i x Hi) as Hp.
  assert (NoDup (x :: delete i l)) as Hnd by (by rewrite <-Hp).
  apply NoDup_cons in Hnd as [Hx _]. rewrite Hp at 2. rewrite elem_of_cons. naive_solver.
Qed.

(** [Iterator::min_by_key]: the first element with the least key. *)
Definition min_by_key {A} (key : A → N) (l : list A) : option A :=
  foldl (λ best a, match best with
                   | None => Some a
                   | Some b => if (key a <? key b)%N then Some a else Some b
                   end) None l.

Lemma min_by_key_spec {A} (key : A → N) l a : min_by_key key l = Some a →
  a ∈ l ∧ ∀ b, b ∈ l → (key a ≤ key b)%N.
Proof.
  unfold min_by_key.
  set (step := λ (best : option A) a, _).
  enough (∀ l b, foldl step (Some b) l = Some a →
    (a = b ∨ a ∈ l) ∧ (key a ≤ key b)%N ∧ ∀ c, c ∈ l → (key a ≤ key c)%N) as Hgen.
  { destruct l as [|b l]; cbn; [done|]. intros Hl. apply Hgen in Hl as (Ha & Hb & Hl).
    split; [set_solver|]. intros c [->|Hc]%elem_of_cons; auto. }
  clear l. intros l. induction l as [|c l IH]; intros b; cbn.
  - intros [= ->]. split_and!; [by left|lia|]. intros c Hc. by apply elem_of_nil in Hc.
  - destruct (key c <? key b)%N eqn:E; intros Hl; apply IH in Hl as (Ha & Hb & Hc).
    + apply N.ltb_lt in E. split_and!; [set_solver|lia|].
      intros d [->|Hd]%elem_of_cons; auto.
    + apply N.ltb_ge in E. split_and!; [set_solver|lia|].
      intros d [->|Hd]%elem_of_cons; [lia|auto].
Qed.

Lemma min_by_key_None {A} (key : A → N) l : min_by_key key l = None ↔ l = [].
Proof.
  unfold min_by_key. split; [|by intros ->]. destruct l as [|b l]; [done|]. cbn. intros Hl.
  exfalso. revert b Hl. induction l as [|c l IH]; intros b; cbn; [done|].
  destruct (key c <? key b)%N; apply IH.
Qed.

(** ** Prefixes of sorted and filtered lists *)
Lemma StronglySorted_filter {A} (R : relation A) (P : A → Prop) `{∀ x, Decision (P x)} l :
  StronglySorted R l → StronglySorted R (filter P l).
Proof.
  induction 1 as [|a l Hl IH Hall]; [constructor|].
  rewrite filter_cons. case_decide; [|done]. constructor; [done|].
  rewrite Forall_forall in *. intros x [_ Hx]%list_elem_of_filter. auto.
Qed.

Lemma StronglySorted_take_drop {A} (R : relation A) n l x y :
  StronglySorted R l → x ∈ take n l → y ∈ drop n l → R x y.
Proof.
  revert n. induction l as [|a l IH]; intros [|n] Hs Hx Hy; cbn in *;
    try (by apply elem_of_nil in Hx).
  apply StronglySorted_inv in Hs as [Hs Hall]. rewrite Forall_forall in Hall.
  apply elem_of_cons in Hx as [->|Hx]; [|by eapply IH].
  apply Hall. rewrite <-(take_drop n l). apply elem_of_app. by right.
Qed.

Lemma elem_of_take_subset {A} n (l : list A) x : x ∈ take n l → x ∈ l.
Proof. intros Hx. rewrite <-(take_drop n l). apply elem_of_app. by left. Qed.

Lemma length_omap_is_Some {A B} (f : A → option B) l :
  Forall (λ x, is_Some (f x)) l → length (omap f l) = length l.
Proof. induction 1 as [|x l [y Hy] _ IH]; cbn; [done|]. rewrite Hy. cbn. by f_equal. Qed.

Lemma length_omap_le {A B} (f : A → option B) l : length (omap f l) ≤ length l.
Proof. induction l as [|x l IH]; cbn; [done|]. destruct (f x); cbn; lia. Qed.

(** A state that no step changes. *)
Lemma foldl_stuck {A B} (f : A → B → A) s l : (∀ e, f s e = s) → foldl f s l = s.
Proof. intros Hf. induction l as [|e l IH]; [done|]. cbn. by rewrite Hf. Qed.
