(* ===== verification/StakedSet.v ===== *)
(** [StakedSortedSet] of [crates/tpu-client/src/core.rs]: a set of peers (or
    addresses) indexed twice, by member and by stake. The two indexes are kept
    consistent ([wf]); [peer_stake_map] is the abstract value, and the stake
    index only serves the ascending iteration. *)
From S2P Require Import Prelude.

Module StakedSet.
Section StakedSet.
Context {V : Type} `{EqDecision V, !Countable V}.

Record StakedSortedSet := {
  peer_stake_map : gmap V N;
  sorted_map : gmap N (gset V)
}.

Definition empty : StakedSortedSet := {| peer_stake_map := ∅; sorted_map := ∅ |}.

(** The bucket of [stake], once [peer] has left it; an emptied bucket goes. *)
Definition bucket_remove (peer : V) (stake : N) (sm : gmap N (gset V)) : gmap N (gset V) :=
  match sm !! stake with
  | Some peers =>
      let peers := peers ∖ {[peer]} in
      if decide (peers = ∅) then delete stake sm else <[stake := peers]> sm
  | None => sm
  end.

Definition remove (peer : V) (s : StakedSortedSet) : bool * StakedSortedSet :=
  match peer_stake_map s !! peer with
  | Some old_stake =>
      (true, {| peer_stake_map := delete peer (peer_stake_map s);
                sorted_map := bucket_remove peer old_stake (sorted_map s) |})
  | None => (false, s)
  end.

Definition clear (s : StakedSortedSet) : StakedSortedSet := empty.

Definition insert (peer : V) (stake : N) (s : StakedSortedSet) : bool * StakedSortedSet :=
  let '(already_present, s) := remove peer s in
  (already_present,
   {| peer_stake_map := <[peer := stake]> (peer_stake_map s);
      sorted_map :=
        <[stake := {[peer]} ∪ default ∅ (sorted_map s !! stake)]> (sorted_map s) |}).

Definition get (peer : V) (s : StakedSortedSet) : option N := peer_stake_map s !! peer.

Definition iter `{HashIter} (s : StakedSortedSet) : list (N * V) :=
  '(stake, peers) ← btree_iter (sorted_map s); pair stake <$> hash_iter peers.

Definition is_empty (s : StakedSortedSet) : bool := bool_decide (peer_stake_map s = ∅).

(** The two indexes agree, and no bucket is empty. *)
Definition wf (s : StakedSortedSet) : Prop :=
  (∀ v k, peer_stake_map s !! v = Some k ↔ ∃ b, sorted_map s !! k = Some b ∧ v ∈ b) ∧
  (∀ k b, sorted_map s !! k = Some b → b ≠ ∅).

Lemma staked_empty_wf : wf empty.
Proof.
  split; cbn; [|set_solver]. intros v k. rewrite lookup_empty.
  split; [done|]. intros (b & Hb & _). by rewrite lookup_empty in Hb.
Qed.

Lemma lookup_bucket_remove peer stake sm k :
  bucket_remove peer stake sm !! k =
  if decide (k = stake)
  then b ← sm !! stake; if decide (b ∖ {[peer]} = ∅) then None else Some (b ∖ {[peer]})
  else sm !! k.
Proof.
  unfold bucket_remove. destruct (sm !! stake) as [b|] eqn:E; cbn;
    repeat case_decide; subst; simplify_map_eq; done.
Qed.

Lemma staked_remove_wf peer s : wf s → wf (remove peer s).2.
Proof.
  intros [Hidx Hne]. unfold remove.
  destruct (peer_stake_map s !! peer) as [old|] eqn:E; [|by split].
  split; cbn.
  - intros v k. rewrite lookup_bucket_remove, lookup_delete_Some, Hidx.
    case_decide; subst.
    + split.
      * intros (Hv & b & Hb & Hin). rewrite Hb. cbn.
        case_decide; [set_solver|]. eexists; split; [done|]. set_solver.
      * intros (b' & Hb' & Hin). destruct (sorted_map s !! old) eqn:Eo; cbn in Hb'; [|done].
        case_decide; simplify_eq. set_solver.
    + split; [naive_solver|]. intros (b & Hb & Hin). split; [|eauto].
      intros ->. assert (peer_stake_map s !! v = Some k) by (apply Hidx; eauto). congruence.
  - intros k b. rewrite lookup_bucket_remove. case_decide; [|by eauto].
    destruct (sorted_map s !! old); cbn; [|done]. case_decide; naive_solver.
Qed.

(** After a removal [peer] is in no bucket. *)
Lemma remove_fresh peer s k b :
  wf s → sorted_map (remove peer s).2 !! k = Some b → peer ∉ b.
Proof.
  intros Hwf Hb Hin. pose proof (staked_remove_wf peer s Hwf) as [Hidx _].
  assert (peer_stake_map (remove peer s).2 !! peer = Some k) as Hp by (apply Hidx; eauto).
  unfold remove in Hp. destruct (peer_stake_map s !! peer) eqn:E; cbn in Hp; [|congruence].
  by rewrite lookup_delete_eq in Hp.
Qed.

Lemma staked_insert_wf peer stake s : wf s → wf (insert peer stake s).2.
Proof.
  intros Hwf. pose proof (staked_remove_wf peer s Hwf) as [Hidx Hne].
  pose proof (remove_fresh peer s) as Hfr.
  unfold insert. destruct (remove peer s) as [pr s'] eqn:E; cbn in *.
  split; cbn.
  - intros v k. destruct (decide (v = peer)) as [->|Hv].
    + rewrite lookup_insert_eq. split.
      * intros [= ->]. rewrite lookup_insert_eq. eexists; split; [done|]. set_solver.
      * intros (b & Hb & Hin). destruct (decide (k = stake)) as [->|Hk]; [done|].
        rewrite lookup_insert_ne in Hb by done. by destruct (Hfr k b).
    + rewrite lookup_insert_ne, Hidx by done. destruct (decide (k = stake)) as [->|Hk].
      * rewrite lookup_insert_eq. split.
        -- intros (b & Hb & Hin). rewrite Hb. cbn. eexists; split; [done|]. set_solver.
        -- intros (b & [= <-] & Hin).
           destruct (sorted_map s' !! stake) as [b0|] eqn:E0; cbn in Hin; [|set_solver].
           exists b0. set_solver.
      * by rewrite lookup_insert_ne by done.
  - intros k b. destruct (decide (k = stake)) as [->|Hk].
    + rewrite lookup_insert_eq. intros [= <-]. set_solver.
    + rewrite lookup_insert_ne by done. eauto.
Qed.

(** The operations on the abstract value. *)
Lemma remove_abs peer s : peer_stake_map (remove peer s).2 = delete peer (peer_stake_map s).
Proof.
  unfold remove. destruct (peer_stake_map s !! peer) eqn:E; cbn; [done|].
  by rewrite delete_id.
Qed.

Lemma remove_found peer s : (remove peer s).1 = bool_decide (is_Some (peer_stake_map s !! peer)).
Proof.
  unfold remove. by destruct (peer_stake_map s !! peer).
Qed.

Lemma insert_found peer stake s : (insert peer stake s).1 = (remove peer s).1.
Proof. unfold insert. by destruct (remove peer s). Qed.

Lemma insert_abs peer stake s :
  peer_stake_map (insert peer stake s).2 = <[peer := stake]> (peer_stake_map s).
Proof.
  unfold insert. pose proof (remove_abs peer s) as Ha.
  destruct (remove peer s) as [pr s']; cbn in *. rewrite Ha. by rewrite insert_delete_eq.
Qed.

Section Iter.
Context `{HI : HashIter}.

Lemma elem_of_iter s k v :
  wf s → (k, v) ∈ iter s ↔ peer_stake_map s !! v = Some k.
Proof.
  intros [Hidx _]. unfold iter. rewrite list_elem_of_bind. rewrite Hidx. split.
  - intros ([k' b] & Hin & Hb). apply elem_of_btree_iter in Hb.
    apply list_elem_of_fmap in Hin as (v' & [= -> ->] & Hv').
    exists b. by rewrite elem_of_hash_iter in Hv'.
  - intros (b & Hb & Hin). exists (k, b). split.
    + apply list_elem_of_fmap. exists v. by rewrite elem_of_hash_iter.
    + by apply elem_of_btree_iter.
Qed.

Lemma iter_sorted s : StronglySorted (λ a b, (a.1 ≤ b.1)%N) (iter s).
Proof.
  unfold iter, btree_iter. generalize (btree_keys_sorted (sorted_map s)).
  generalize (btree_keys (sorted_map s)). intros l Hs.
  induction Hs as [|k l Hl IH Hall]; cbn; [constructor|].
  destruct (sorted_map s !! k) as [b|] eqn:E; cbn; [|done].
  assert (Forall (λ a : N * V, (k ≤ a.1)%N)
    ('(stake, peers) ← omap (λ k, pair k <$> sorted_map s !! k) l; pair stake <$> hash_iter peers))
    as Hge.
  { apply Forall_forall. intros [k' v] Hin. cbn.
    apply list_elem_of_bind in Hin as ([k2 b2] & Hin & Hk2).
    apply list_elem_of_fmap in Hin as (v' & [= -> ->] & _).
    apply list_elem_of_omap in Hk2 as (k3 & Hk3 & Heq).
    rewrite Forall_forall in Hall.
    destruct (sorted_map s !! k3); cbn in Heq; simplify_eq. by apply Hall. }
  induction (hash_iter b) as [|v vs IHv]; cbn; [done|].
  constructor; [done|]. apply Forall_app. split; [|done].
  apply Forall_forall. intros [k' v'] Hin.
  apply list_elem_of_fmap in Hin as (? & [= -> ->] & _). cbn. lia.
Qed.
End Iter.
End StakedSet.
Arguments StakedSortedSet V {_ _}.
End StakedSet.
