(* ===== verification/OrphanSet.v ===== *)
(** [OrphanConnectionSet] of [crates/tpu-client/src/core.rs]: the connections
    without a worker, by the instant they became idle, with a reverse index
    from address to (instant, version). [member] is the abstract content. *)
From S2P Require Import Prelude.

Module OrphanSet.

Record OrphanConnectionInfo := { remote_peer_addr : N; connection_version : N }.

#[export] Instance OrphanConnectionInfo_eq_dec : EqDecision OrphanConnectionInfo.
Proof. solve_decision. Defined.

Record OrphanConnectionSet := mk {
  prio_queue : gmap N (list OrphanConnectionInfo);
  prio_queue_rev_index : gmap N (list (N * N));
  curr_len : nat
}.
#[export] Instance OrphanConnectionSet_settable : Settable OrphanConnectionSet :=
  λ r, mk (prio_queue r) (prio_queue_rev_index r) (curr_len r).

Definition empty : OrphanConnectionSet := mk ∅ ∅ 0.

Definition clear (s : OrphanConnectionSet) : OrphanConnectionSet :=
  s <| prio_queue := ∅ |> <| prio_queue_rev_index := ∅ |> <| curr_len := 0 |>.

Definition insert (info : OrphanConnectionInfo) (now : N) (s : OrphanConnectionSet)
    : OrphanConnectionSet :=
  let addr := remote_peer_addr info in
  let push (vs : list (N * N)) :=
    s <| prio_queue_rev_index ::= <[addr := vs ++ [(now, connection_version info)]]> |>
      <| prio_queue ::= λ q, <[now := default [] (q !! now) ++ [info]]> q |>
      <| curr_len ::= S |> in
  match prio_queue_rev_index s !! addr with
  | Some version_set =>
      if existsb (λ tv, (tv.2 =? connection_version info)%N) version_set then s
      else push version_set
  | None => push []
  end.

(** Dropping an entry that became empty, as both indexes do. *)
Definition put_or_drop {A} (k : N) (l : list A) (m : gmap N (list A)) : gmap N (list A) :=
  match l with [] => delete k m | _ => <[k := l]> m end.

Definition remove (addr version : N) (s : OrphanConnectionSet)
    : option OrphanConnectionInfo * OrphanConnectionSet :=
  match prio_queue_rev_index s !! addr with
  | None => (None, s)
  | Some version_set =>
      match list_find (λ tv : N * N, tv.2 = version) version_set with
      | None => (None, s)
      | Some (pos, (inserted_at, _)) =>
          let s := s <| prio_queue_rev_index ::= put_or_drop addr (delete pos version_set) |> in
          match prio_queue s !! inserted_at with
          | None => (None, s)
          | Some infos =>
              match list_find (λ i, remote_peer_addr i = addr ∧ connection_version i = version) infos with
              | None => (None, s)
              | Some (info_pos, info) =>
                  (Some info,
                   s <| prio_queue ::= put_or_drop inserted_at (delete info_pos infos) |>
                     <| curr_len ::= pred |>)
              end
          end
      end
  end.

Definition oldest (s : OrphanConnectionSet) : option N := btree_first (prio_queue s).

(** [version_set.retain(|(ts, v)| v != version || ts != inserted_at)]. *)
Definition unindex (inserted_at : N) (idx : gmap N (list (N * N))) (info : OrphanConnectionInfo)
    : gmap N (list (N * N)) :=
  let addr := remote_peer_addr info in
  match idx !! addr with
  | Some version_set =>
      put_or_drop addr
        (filter (λ tv : N * N, tv.2 ≠ connection_version info ∨ tv.1 ≠ inserted_at) version_set) idx
  | None => idx
  end.

Definition pop (s : OrphanConnectionSet) : option (list OrphanConnectionInfo) * OrphanConnectionSet :=
  match oldest s with
  | None => (None, s)
  | Some inserted_at =>
      let infos := default [] (prio_queue s !! inserted_at) in
      (Some infos,
       s <| prio_queue ::= delete inserted_at |>
         <| prio_queue_rev_index ::= λ idx, foldl (unindex inserted_at) idx infos |>
         <| curr_len ::= λ n, n - length infos |>)
  end.

(** ** Abstract content and well-formedness *)
Definition member (s : OrphanConnectionSet) (addr version t : N) : Prop :=
  ∃ vs, prio_queue_rev_index s !! addr = Some vs ∧ (t, version) ∈ vs.

Definition queued (s : OrphanConnectionSet) (addr version t : N) : Prop :=
  ∃ q, prio_queue s !! t = Some q ∧
       {| remote_peer_addr := addr; connection_version := version |} ∈ q.

Record wf (s : OrphanConnectionSet) : Prop := {
  wf_index : ∀ a vs, prio_queue_rev_index s !! a = Some vs → vs ≠ [] ∧ NoDup vs.*2;
  wf_queue : ∀ t q, prio_queue s !! t = Some q → q ≠ [] ∧ NoDup q;
  wf_agree : ∀ a v t, member s a v t ↔ queued s a v t;
  wf_len : curr_len s = map_sum length (prio_queue s)
}.

Lemma lookup_put_or_drop {A} k (l : list A) m i :
  put_or_drop k l m !! i =
  if decide (i = k) then match l with [] => None | _ => Some l end else m !! i.
Proof. unfold put_or_drop. destruct l; case_decide; subst; by simplify_map_eq. Qed.

Lemma orphan_empty_wf : wf empty.
Proof.
  split; cbn; try (intros *; by rewrite lookup_empty).
  - intros a v t. split; intros (x & Hx & _); cbn in Hx; by rewrite lookup_empty in Hx.
  - by rewrite map_sum_empty.
Qed.

Lemma member_unique s a v t t' : wf s → member s a v t → member s a v t' → t = t'.
Proof.
  intros Hwf (vs & Hvs & Hin) (vs' & Hvs' & Hin'). simplify_eq.
  destruct (wf_index s Hwf a vs Hvs) as [_ Hnd]. clear Hvs.
  induction vs as [|[t0 v0] vs IH]; [by apply elem_of_nil in Hin|].
  cbn in Hnd. apply NoDup_cons in Hnd as [Hx Hnd].
  apply elem_of_cons in Hin as [|Hin]; apply elem_of_cons in Hin' as [|Hin']; simplify_eq; auto.
  - destruct Hx. apply list_elem_of_fmap. by exists (t', v0).
  - destruct Hx. apply list_elem_of_fmap. by exists (t, v0).
Qed.

(** ** [insert] *)
Lemma existsb_version version (vs : list (N * N)) :
  existsb (λ tv, (tv.2 =? version)%N) vs = true ↔ ∃ t, (t, version) ∈ vs.
Proof.
  rewrite existsb_exists. split.
  - intros ([t v] & Hin & Heq). apply N.eqb_eq in Heq. cbn in Heq. subst.
    exists t. by apply list_elem_of_In.
  - intros (t & Hin). exists (t, version). rewrite <-list_elem_of_In. split; [done|].
    by apply N.eqb_refl.
Qed.

Definition present (s : OrphanConnectionSet) (info : OrphanConnectionInfo) : Prop :=
  ∃ t, member s (remote_peer_addr info) (connection_version info) t.

Lemma insert_present info now s : present s info → insert info now s = s.
Proof.
  intros (t & vs & Hvs & Hin). unfold insert. rewrite Hvs.
  assert (existsb (λ tv, (tv.2 =? connection_version info)%N) vs = true) as ->; [|done].
  apply existsb_version. eauto.
Qed.

(** The state after an effective insertion. *)
Lemma insert_absent info now s : ¬ present s info →
  insert info now s =
  mk (<[now := default [] (prio_queue s !! now) ++ [info]]> (prio_queue s))
     (<[remote_peer_addr info :=
          default [] (prio_queue_rev_index s !! remote_peer_addr info)
            ++ [(now, connection_version info)]]> (prio_queue_rev_index s))
     (S (curr_len s)).
Proof.
  intros Hnp. unfold insert.
  destruct (prio_queue_rev_index s !! remote_peer_addr info) as [vs|] eqn:E; [|done].
  destruct (existsb _ vs) eqn:Ex; [|done].
  apply existsb_version in Ex as [t Ht]. destruct Hnp. exists t, vs. done.
Qed.

Lemma insert_member info now s a v t : wf s →
  member (insert info now s) a v t ↔
  member s a v t ∨
  (¬ present s info ∧ a = remote_peer_addr info ∧ v = connection_version info ∧ t = now).
Proof.
  intros Hwf. destruct info as [ia iv].
  destruct (decide (Exists (λ tv : N * N, tv.2 = iv) (default [] (prio_queue_rev_index s !! ia))))
    as [Hex|Hnex].
  - assert (present s {| remote_peer_addr := ia; connection_version := iv |}) as Hp.
    { apply Exists_exists in Hex as ([t0 v0] & Hin & <-). exists t0.
      unfold member. cbn in *. destruct (prio_queue_rev_index s !! ia); cbn in *; [eauto|].
      by apply elem_of_nil in Hin. }
    rewrite insert_present by done. naive_solver.
  - assert (¬ present s {| remote_peer_addr := ia; connection_version := iv |}) as Hnp.
    { intros (t0 & vs & Hvs & Hin). cbn in *. apply Hnex. rewrite Hvs. cbn.
      apply Exists_exists. by exists (t0, iv). }
    rewrite insert_absent by done. unfold member; cbn in *.
    destruct (decide (a = ia)) as [->|Ha].
    + setoid_rewrite lookup_insert_eq. split.
      * intros (vs & [= <-] & Hin). apply elem_of_app in Hin as [Hin|Hin].
        -- left. destruct (prio_queue_rev_index s !! ia); cbn in *; [eauto|].
           by apply elem_of_nil in Hin.
        -- apply list_elem_of_singleton in Hin. naive_solver.
      * intros [(vs & Hvs & Hin)|(_ & _ & -> & ->)]; (eexists; split; [done|]);
          apply elem_of_app.
        -- left. by rewrite Hvs.
        -- right. by apply list_elem_of_singleton.
    + setoid_rewrite lookup_insert_ne; [|done..]. naive_solver.
Qed.

Lemma insert_queued info now s a v t : ¬ present s info →
  queued (insert info now s) a v t ↔
  queued s a v t ∨ (a = remote_peer_addr info ∧ v = connection_version info ∧ t = now).
Proof.
  intros Hnp. rewrite insert_absent by done. destruct info as [ia iv]. unfold queued; cbn.
  destruct (decide (t = now)) as [->|Ht].
  - setoid_rewrite lookup_insert_eq. split.
    + intros (q & [= <-] & Hin). apply elem_of_app in Hin as [Hin|Hin].
      * left. destruct (prio_queue s !! now); cbn in *; [eauto|]. by apply elem_of_nil in Hin.
      * apply list_elem_of_singleton in Hin. naive_solver.
    + intros [(q & Hq & Hin)|(-> & -> & _)]; (eexists; split; [done|]); apply elem_of_app.
      * left. by rewrite Hq.
      * right. by apply list_elem_of_singleton.
  - setoid_rewrite lookup_insert_ne; [|done..]. naive_solver.
Qed.

Lemma orphan_insert_wf info now s : wf s → wf (insert info now s).
Proof.
  intros Hwf. destruct (decide (Exists (λ tv : N * N, tv.2 = connection_version info)
    (default [] (prio_queue_rev_index s !! remote_peer_addr info)))) as [Hex|Hnex].
  { rewrite insert_present; [done|].
    apply Exists_exists in Hex as ([t0 v0] & Hin & Heq). exists t0.
    unfold member. cbn in *. subst v0.
    destruct (prio_queue_rev_index s !! _); cbn in *; [eauto|]. by apply elem_of_nil in Hin. }
  assert (¬ present s info) as Hnp.
  { intros (t0 & vs & Hvs & Hin). apply Hnex. rewrite Hvs. apply Exists_exists. eexists; eauto. }
  split.
  - intros a vs. rewrite insert_absent by done. cbn.
    destruct (decide (a = remote_peer_addr info)) as [->|Ha].
    + rewrite lookup_insert_eq. intros [= <-]. split; [by intros [_ ?]%app_nil|].
      rewrite fmap_app, NoDup_app. change ([(now, connection_version info)].*2) with [connection_version info].
      split_and!; [| |apply NoDup_singleton].
      * destruct (prio_queue_rev_index s !! remote_peer_addr info) eqn:E; cbn; [|constructor].
        by apply (wf_index s Hwf) in E as [_ ?].
      * intros x Hx ->%list_elem_of_singleton. apply Hnex.
        apply list_elem_of_fmap in Hx as (tv & Htv & Hin). apply Exists_exists. by exists tv.
    + rewrite lookup_insert_ne by done. apply (wf_index s Hwf).
  - intros t q. rewrite insert_absent by done. cbn.
    destruct (decide (t = now)) as [->|Ht]; [|rewrite lookup_insert_ne by done; apply (wf_queue s Hwf)].
    rewrite lookup_insert_eq. intros [= <-]. split; [by intros [_ ?]%app_nil|].
    rewrite NoDup_app. split_and!; [| |apply NoDup_singleton].
    + destruct (prio_queue s !! now) eqn:E; cbn; [|constructor].
      by apply (wf_queue s Hwf) in E as [_ ?].
    + intros x Hx ->%list_elem_of_singleton. apply Hnp. exists now. apply (wf_agree s Hwf).
      destruct (prio_queue s !! now) eqn:E; cbn in Hx; [|by apply elem_of_nil in Hx].
      exists l. by destruct info.
  - intros a v t. rewrite insert_member, insert_queued, (wf_agree s Hwf) by done. naive_solver.
  - rewrite insert_absent by done. cbn. rewrite (wf_len s Hwf).
    pose proof (map_sum_insert length (prio_queue s) now
      (default [] (prio_queue s !! now) ++ [info])) as Hs.
    rewrite length_app in Hs. cbn in Hs.
    destruct (prio_queue s !! now); cbn in *; lia.
Qed.

(** ** [remove] *)
Lemma delete_snd (vs : list (N * N)) pos t v : NoDup vs.*2 → vs !! pos = Some (t, v) →
  ∀ t' v', (t', v') ∈ delete pos vs ↔ (t', v') ∈ vs ∧ v' ≠ v.
Proof.
  intros Hnd Hpos t' v'. assert (NoDup vs) as Hvs by (by apply NoDup_fmap_1 in Hnd).
  rewrite (elem_of_delete_NoDup vs pos (t, v)) by done. split; [|naive_solver].
  intros [Hin Hne]. split; [done|]. intros ->.
  apply list_elem_of_lookup in Hin as [j Hj].
  assert (j = pos) as ->; [|naive_solver].
  eapply (NoDup_lookup vs.*2); [done| |]; rewrite list_lookup_fmap.
  - by rewrite Hj.
  - by rewrite Hpos.
Qed.

(** In a well-formed set, [remove] finds the entry in both indexes or in none. *)
Lemma remove_spec addr version s : wf s →
  match remove addr version s with
  | (Some info, s') =>
      info = {| remote_peer_addr := addr; connection_version := version |} ∧
      ∃ t vs pos q qpos,
        member s addr version t ∧
        prio_queue_rev_index s !! addr = Some vs ∧ vs !! pos = Some (t, version) ∧
        prio_queue s !! t = Some q ∧ q !! qpos = Some info ∧
        s' = mk (put_or_drop t (delete qpos q) (prio_queue s))
                (put_or_drop addr (delete pos vs) (prio_queue_rev_index s)) (pred (curr_len s))
  | (None, s') => s' = s ∧ ∀ t, ¬ member s addr version t
  end.
Proof.
  intros Hwf. unfold remove.
  destruct (prio_queue_rev_index s !! addr) as [vs|] eqn:Evs.
  2:{ split; [done|]. intros t (vs & Hvs & _). congruence. }
  destruct (list_find _ vs) as [[pos [t v]]|] eqn:Ef.
  2:{ split; [done|]. intros t (vs' & Hvs & Hin). simplify_eq.
      apply list_find_None in Ef. rewrite Forall_forall in Ef. by apply (Ef (t, version)). }
  apply list_find_Some in Ef as (Hpos & Hv & _). cbn in Hv. subst v.
  assert (member s addr version t) as Hm.
  { exists vs. split; [done|]. by apply list_elem_of_lookup_2 in Hpos. }
  pose proof Hm as (q & Hq & Hin)%(wf_agree s Hwf). upd_simpl. rewrite Hq.
  destruct (list_find _ q) as [[qpos info]|] eqn:Eq.
  - apply list_find_Some in Eq as (Hqpos & [Ha Hi] & _). destruct info as [ia iv]; cbn in *. subst.
    split; [done|]. exists t, vs, pos, q, qpos. done.
  - apply list_find_None in Eq. rewrite Forall_forall in Eq. by destruct (Eq _ Hin).
Qed.

Lemma remove_member addr version s a v t : wf s →
  member (remove addr version s).2 a v t ↔ member s a v t ∧ ¬ (a = addr ∧ v = version).
Proof.
  intros Hwf. pose proof (remove_spec addr version s Hwf) as Hr.
  destruct (remove addr version s) as [[info|] s']; cbn.
  2:{ destruct Hr as [-> Hno]. split; [|naive_solver]. intros Hm; split; [done|].
      intros [-> ->]. by apply (Hno t). }
  destruct Hr as (-> & t0 & vs & pos & q & qpos & Hm & Hvs & Hpos & Hq & Hqpos & ->).
  pose proof (wf_index s Hwf addr vs Hvs) as [_ Hnd].
  unfold member; cbn. setoid_rewrite lookup_put_or_drop.
  destruct (decide (a = addr)) as [->|Ha]; [|naive_solver].
  split.
  - intros (vs' & Hvs' & Hin). assert (delete pos vs = vs') as <- by (destruct (delete pos vs); naive_solver).
    apply (delete_snd vs pos t0 version) in Hin; naive_solver.
  - intros [(vs' & Hvs' & Hin) Hne]. simplify_eq.
    assert ((t, v) ∈ delete pos vs) as Hd by (apply (delete_snd vs pos t0 version); naive_solver).
    destruct (delete pos vs); [by apply elem_of_nil in Hd|eauto].
Qed.

Lemma remove_queued addr version s a v t : wf s →
  queued (remove addr version s).2 a v t ↔ queued s a v t ∧ ¬ (a = addr ∧ v = version).
Proof.
  intros Hwf. pose proof (remove_spec addr version s Hwf) as Hr.
  destruct (remove addr version s) as [[info|] s']; cbn.
  2:{ destruct Hr as [-> Hno]. split; [|naive_solver]. intros Hm; split; [done|].
      intros [-> ->]. apply (Hno t). by apply (wf_agree s Hwf). }
  destruct Hr as (-> & t0 & vs & pos & q & qpos & Hm & Hvs & Hpos & Hq & Hqpos & ->).
  pose proof (wf_queue s Hwf t0 q Hq) as [_ Hnd].
  set (i0 := {| remote_peer_addr := addr; connection_version := version |}) in *.
  assert (∀ i, i ∈ delete qpos q ↔ i ∈ q ∧ i ≠ i0) as Hdel
    by (intros i; by apply elem_of_delete_NoDup).
  unfold queued at 1; cbn. setoid_rewrite lookup_put_or_drop.
  destruct (decide (t = t0)) as [->|Ht].
  - split.
    + intros (q' & Hq' & Hin). assert (delete qpos q = q') as <- by (destruct (delete qpos q); naive_solver).
      apply Hdel in Hin as [Hin Hne]. split; [by exists q|]. intros [-> ->]. by apply Hne.
    + intros [(q' & Hq' & Hin) Hne]. simplify_eq.
      assert ({| remote_peer_addr := a; connection_version := v |} ∈ delete qpos q) as Hd.
      { apply Hdel. split; [done|]. intros [= -> ->]. by apply Hne. }
      destruct (delete qpos q); [by apply elem_of_nil in Hd|eauto].
  - split; [|naive_solver]. intros (q' & Hq' & Hin). split; [by exists q'|]. intros [-> ->].
    apply Ht. eapply (member_unique s addr version); [done| |done].
    apply (wf_agree s Hwf). by exists q'.
Qed.

Lemma orphan_remove_wf addr version s : wf s → wf (remove addr version s).2.
Proof.
  intros Hwf. pose proof (remove_member addr version s) as Hmem.
  pose proof (remove_queued addr version s) as Hque.
  pose proof (remove_spec addr version s Hwf) as Hr.
  destruct (remove addr version s) as [[info|] s']; cbn in *; [|by destruct Hr as [-> _]].
  destruct Hr as (-> & t0 & vs & pos & q & qpos & Hm & Hvs & Hpos & Hq & Hqpos & Hs').
  pose proof (wf_index s Hwf addr vs Hvs) as [_ Hnd].
  pose proof (wf_queue s Hwf t0 q Hq) as [_ Hndq].
  split.
  - intros a vs'. subst s'; cbn. rewrite lookup_put_or_drop. case_decide; [|apply (wf_index s Hwf)].
    pose proof (sublist_delete vs pos) as Hsub.
    destruct (delete pos vs) as [|x vs''] eqn:Ed; [done|]. intros [= <-]. split; [done|].
    eapply sublist_NoDup; [exact Hnd|]. by apply fmap_sublist.
  - intros t q'. subst s'; cbn. rewrite lookup_put_or_drop. case_decide; [|apply (wf_queue s Hwf)].
    pose proof (NoDup_delete q qpos Hndq) as Hdel.
    destruct (delete qpos q); [done|]. intros [= <-]. done.
  - intros a v t. by rewrite Hmem, Hque, (wf_agree s Hwf).
  - subst s'; cbn. rewrite (wf_len s Hwf), (map_sum_delete length _ t0 q Hq).
    pose proof (delete_Permutation q qpos _ Hqpos) as Hlen%Permutation_length. cbn in Hlen.
    unfold put_or_drop. destruct (delete qpos q) as [|x l] eqn:Ed; cbn in *.
    + rewrite Hlen. cbn. lia.
    + rewrite <-insert_delete_eq, map_sum_insert_None by apply lookup_delete_eq.
      rewrite Hlen. cbn. lia.
Qed.

(** ** [pop] *)
Lemma lookup_unindex t idx info a :
  unindex t idx info !! a =
  if decide (a = remote_peer_addr info)
  then vs ← idx !! a;
       match filter (λ tv : N * N, tv.2 ≠ connection_version info ∨ tv.1 ≠ t) vs with
       | [] => None | vs' => Some vs' end
  else idx !! a.
Proof.
  unfold unindex. destruct (idx !! remote_peer_addr info) as [vs|] eqn:E.
  - rewrite lookup_put_or_drop. case_decide; [|done]. subst. rewrite E. cbn. by destruct (filter _ vs).
  - case_decide; [|done]. subst. by rewrite E.
Qed.

(** One step, then the whole loop: exactly the popped entries leave. *)
Lemma unindex_member t idx info a v t' :
  (∃ vs, unindex t idx info !! a = Some vs ∧ (t', v) ∈ vs) ↔
  (∃ vs, idx !! a = Some vs ∧ (t', v) ∈ vs) ∧
  ¬ (a = remote_peer_addr info ∧ v = connection_version info ∧ t' = t).
Proof.
  setoid_rewrite lookup_unindex. destruct (decide (a = remote_peer_addr info)) as [->|Ha];
    [|naive_solver].
  destruct (idx !! remote_peer_addr info) as [vs|]; cbn; [|naive_solver].
  set (vs' := filter _ vs).
  assert ((t', v) ∈ vs' ↔ (t', v) ∈ vs ∧ (v ≠ connection_version info ∨ t' ≠ t)) as Hf
    by (unfold vs'; rewrite list_elem_of_filter; cbn; tauto).
  split.
  - intros (vs0 & Hvs0 & Hin). assert (vs' = vs0) as <- by (destruct vs'; naive_solver).
    apply Hf in Hin as [Hin Hne]. split; [by exists vs|]. naive_solver.
  - intros [(vs0 & [= ->] & Hin) Hne].
    assert ((t', v) ∈ vs') as Hin'.
    { apply Hf. split; [done|]. destruct (decide (v = connection_version info)); [|by left].
      destruct (decide (t' = t)); [|by right]. naive_solver. }
    destruct vs'; [by apply elem_of_nil in Hin'|eauto].
Qed.

Lemma unindex_all_member t infos idx a v t' :
  (∃ vs, foldl (unindex t) idx infos !! a = Some vs ∧ (t', v) ∈ vs) ↔
  (∃ vs, idx !! a = Some vs ∧ (t', v) ∈ vs) ∧
  ¬ ({| remote_peer_addr := a; connection_version := v |} ∈ infos ∧ t' = t).
Proof.
  revert idx. induction infos as [|info infos IH]; intros idx; cbn.
  - rewrite elem_of_nil. naive_solver.
  - rewrite IH, unindex_member, elem_of_cons. destruct info as [ia iv]; cbn. naive_solver.
Qed.

Lemma unindex_all_index t infos idx :
  (∀ a vs, idx !! a = Some vs → vs ≠ [] ∧ NoDup vs.*2) →
  ∀ a vs, foldl (unindex t) idx infos !! a = Some vs → vs ≠ [] ∧ NoDup vs.*2.
Proof.
  revert idx. induction infos as [|info infos IH]; intros idx Hidx; cbn; [done|].
  apply IH. intros a vs. rewrite lookup_unindex. case_decide; [|apply Hidx].
  destruct (idx !! a) as [vs0|] eqn:E; cbn; [|done].
  apply Hidx in E as [_ Hnd].
  pose proof (sublist_filter (λ tv : N * N, tv.2 ≠ connection_version info ∨ tv.1 ≠ t) vs0) as Hsub.
  destruct (filter _ vs0) as [|x l] eqn:Ef; [done|]. intros [= <-]. split; [done|].
  eapply sublist_NoDup; [exact Hnd|]. by apply fmap_sublist.
Qed.

(** [pop] takes exactly the entries of the oldest instant. *)
Lemma pop_spec s : wf s →
  match pop s with
  | (None, s') => s' = s ∧ ∀ a v t, ¬ member s a v t
  | (Some infos, s') =>
      ∃ t, oldest s = Some t ∧ infos ≠ [] ∧ NoDup infos ∧
      (∀ a v, {| remote_peer_addr := a; connection_version := v |} ∈ infos ↔ member s a v t) ∧
      (∀ a v t', member s a v t' → (t ≤ t')%N) ∧
      (∀ a v t', member s' a v t' ↔ member s a v t' ∧ t' ≠ t) ∧
      curr_len s' + length infos = curr_len s ∧ wf s'
  end.
Proof.
  intros Hwf. unfold pop. destruct (oldest s) as [t|] eqn:Et; unfold oldest in Et.
  2:{ split; [done|]. intros a v t Hm. apply (wf_agree s Hwf) in Hm as (q & Hq & _).
      apply btree_first_None in Et. by rewrite Et, lookup_empty in Hq. }
  apply btree_first_Some in Et as [[q Hq] Hmin]. rewrite Hq. cbn [default from_option id].
  destruct (wf_queue s Hwf t q Hq) as [Hne Hnd].
  assert (∀ a v, {| remote_peer_addr := a; connection_version := v |} ∈ q ↔ member s a v t) as Hq'.
  { intros a v. rewrite (wf_agree s Hwf). unfold queued. rewrite Hq. naive_solver. }
  set (s' := _ <| curr_len ::= _ |>).
  assert (∀ a v t', member s' a v t' ↔ member s a v t' ∧ t' ≠ t) as Hmem.
  { intros a v t'. unfold member at 1, s'. upd_simpl. rewrite unindex_all_member.
    fold (member s a v t'). rewrite Hq'. naive_solver. }
  assert (∀ a v t', queued s' a v t' ↔ queued s a v t' ∧ t' ≠ t) as Hque.
  { intros a v t'. unfold queued, s'. upd_simpl. setoid_rewrite lookup_delete_Some. naive_solver. }
  assert (curr_len s' + length q = curr_len s) as Hlen.
  { unfold s'. upd_simpl. rewrite (wf_len s Hwf), (map_sum_delete length _ t q Hq). lia. }
  exists t. split_and!; try done.
  - intros a v t' (q' & Hq'' & _)%(wf_agree s Hwf). apply Hmin. eauto.
  - split.
    + unfold s'. upd_simpl. apply unindex_all_index, (wf_index s Hwf).
    + intros t' q'. unfold s'. upd_simpl. rewrite lookup_delete_Some. intros [_ ?].
      by apply (wf_queue s Hwf t').
    + intros a v t'. by rewrite Hmem, Hque, (wf_agree s Hwf).
    + pose proof (map_sum_delete length (prio_queue s) t q Hq) as Hs.
      rewrite (wf_len s Hwf) in Hlen. unfold s' in *. upd_simpl_all. lia.
Qed.

Lemma clear_empty s : clear s = empty.
Proof. done. Qed.

End OrphanSet.
