(* ===== verification/EvictionSet.v ===== *)
(** [ConnectionEvictionSet] of [crates/tpu-client/src/core.rs]: the pending
    evictions, with a per-address reference count and an address set derived
    from it. [wf] says that both are exactly what the set implies. *)
From S2P Require Import Prelude.

Module EvictionSet.

Record ConnectionEviction := Evict { remote_peer_addr : N; connection_version : N }.

#[export] Instance ConnectionEviction_eq_dec : EqDecision ConnectionEviction.
Proof. solve_decision. Defined.
#[export] Instance ConnectionEviction_countable : Countable ConnectionEviction.
Proof.
  refine (inj_countable' (λ e, (remote_peer_addr e, connection_version e))
    (λ p, Evict p.1 p.2) _); by intros [].
Defined.

Record ConnectionEvictionSet := mk {
  set : gset ConnectionEviction;
  socket_addr_set : gset N;
  socket_addr_refcount : gmap N nat
}.
#[export] Instance ConnectionEvictionSet_settable : Settable ConnectionEvictionSet :=
  λ r, mk (set r) (socket_addr_set r) (socket_addr_refcount r).

Definition empty : ConnectionEvictionSet := mk ∅ ∅ ∅.

Definition len (s : ConnectionEvictionSet) : nat := size (set s).
Definition is_empty (s : ConnectionEvictionSet) : bool := bool_decide (set s = ∅).

Definition clear (s : ConnectionEvictionSet) : ConnectionEvictionSet :=
  s <| set := ∅ |> <| socket_addr_set := ∅ |> <| socket_addr_refcount := ∅ |>.

Definition insert (e : ConnectionEviction) (s : ConnectionEvictionSet)
    : bool * ConnectionEvictionSet :=
  if decide (e ∈ set s) then (false, s) else
  let addr := remote_peer_addr e in
  (true,
   s <| set ::= union {[e]} |>
     <| socket_addr_set ::= union {[addr]} |>
     <| socket_addr_refcount ::= λ m,
          <[addr := match m !! addr with Some count => S count | None => 1 end]> m |>).

Definition remove (e : ConnectionEviction) (s : ConnectionEvictionSet)
    : bool * ConnectionEvictionSet :=
  if decide (e ∉ set s) then (false, s) else
  let addr := remote_peer_addr e in
  let s := s <| set ::= λ x, x ∖ {[e]} |> in
  match socket_addr_refcount s !! addr with
  | None => (true, s <| socket_addr_set ::= λ x, x ∖ {[addr]} |>)
  | Some entry =>
      let entry := entry - 1 in
      if decide (entry = 0)
      then (true, s <| socket_addr_refcount ::= delete addr |>
                    <| socket_addr_set ::= λ x, x ∖ {[addr]} |>)
      else (true, s <| socket_addr_refcount ::= <[addr := entry]> |>)
  end.

Definition contains (e : ConnectionEviction) (s : ConnectionEvictionSet) : bool :=
  bool_decide (e ∈ set s).
Definition contains_socket_addr (addr : N) (s : ConnectionEvictionSet) : bool :=
  bool_decide (addr ∈ socket_addr_set s).

(** ** Well-formedness: the derived indexes are exact *)
Definition at_addr (addr : N) (x : gset ConnectionEviction) : gset ConnectionEviction :=
  filter (λ e, remote_peer_addr e = addr) x.

Definition wf (s : ConnectionEvictionSet) : Prop :=
  ∀ addr, let n := size (at_addr addr (set s)) in
    socket_addr_refcount s !! addr = (if decide (n = 0) then None else Some n) ∧
    (addr ∈ socket_addr_set s ↔ n ≠ 0).

Lemma eviction_empty_wf : wf empty.
Proof.
  intros a. unfold at_addr, empty; cbn [set socket_addr_refcount socket_addr_set].
  rewrite lookup_empty.
  assert (filter (λ e, remote_peer_addr e = a) (∅ : gset ConnectionEviction) = ∅) as -> by set_solver.
  rewrite size_empty. split; [done|]. set_solver.
Qed.

Lemma at_addr_insert e x addr : e ∉ x →
  size (at_addr addr ({[e]} ∪ x)) =
  (if decide (remote_peer_addr e = addr) then 1 else 0) + size (at_addr addr x).
Proof.
  intros He. case_decide as Ha.
  - assert (at_addr addr ({[e]} ∪ x) = {[e]} ∪ at_addr addr x) as ->.
    { apply set_eq. intros y. unfold at_addr.
      rewrite elem_of_union, !elem_of_filter, elem_of_union, elem_of_singleton. naive_solver. }
    rewrite size_union, size_singleton; [done|].
    intros y Hy%elem_of_singleton Hf%elem_of_filter. naive_solver.
  - rewrite Nat.add_0_l. f_equal. apply set_eq. intros y. unfold at_addr.
    rewrite !elem_of_filter, elem_of_union, elem_of_singleton. naive_solver.
Qed.

Lemma at_addr_remove e x addr : e ∈ x →
  size (at_addr addr x) =
  (if decide (remote_peer_addr e = addr) then 1 else 0) + size (at_addr addr (x ∖ {[e]})).
Proof.
  intros He. rewrite <-at_addr_insert by set_solver. f_equal. f_equal.
  apply set_eq. intros y. destruct (decide (y = e)); set_solver.
Qed.

Lemma at_addr_nonempty e x : e ∈ x → size (at_addr (remote_peer_addr e) x) ≠ 0.
Proof.
  intros He Hz%size_empty_inv.
  assert (e ∈ at_addr (remote_peer_addr e) x) as Hin by (by apply elem_of_filter).
  rewrite Hz in Hin. by apply elem_of_empty in Hin.
Qed.

Lemma eviction_insert_wf e s : wf s → wf (insert e s).2.
Proof.
  intros Hwf. unfold insert. case_decide as He; [done|]. intros addr. cbn [snd].
  destruct (Hwf addr) as [Hr Hs]. upd_simpl. rewrite at_addr_insert by done.
  destruct (decide (remote_peer_addr e = addr)) as [<-|Hne].
  - rewrite lookup_insert_eq, Hr. split; [repeat case_decide; (done || lia || f_equal; lia)|].
    set_solver by lia.
  - rewrite lookup_insert_ne by done. split; [by rewrite Hr|]. set_solver.
Qed.

Lemma eviction_remove_wf e s : wf s → wf (remove e s).2.
Proof.
  intros Hwf. unfold remove. case_decide as He; [done|]. upd_simpl.
  rename He into Hin.
  assert (size (at_addr (remote_peer_addr e) (set s)) ≠ 0) as Hn0.
  { by apply at_addr_nonempty. }
  destruct (Hwf (remote_peer_addr e)) as [-> _]. rewrite decide_False by done.
  pose proof (at_addr_remove e (set s) (remote_peer_addr e) Hin) as Hsz.
  rewrite decide_True in Hsz by done.
  case_decide as Hlast; intros addr; destruct (Hwf addr) as [Hr Hs];
    pose proof (at_addr_remove e (set s) addr Hin) as Hsza; cbv zeta; cbn [snd]; upd_simpl.
  - destruct (decide (remote_peer_addr e = addr)) as [<-|Hne].
    + rewrite lookup_delete_eq, decide_True by lia. split; [done|].
      rewrite elem_of_difference, elem_of_singleton. intuition lia.
    + rewrite lookup_delete_ne, Hr by done. rewrite Hsza. split; [done|].
      rewrite elem_of_difference, Hs, Hsza. set_solver.
  - destruct (decide (remote_peer_addr e = addr)) as [<-|Hne].
    + rewrite lookup_insert_eq, decide_False by lia. split; [f_equal; lia|].
      rewrite Hs. lia.
    + rewrite lookup_insert_ne, Hr by done. rewrite Hsza. split; [done|]. by rewrite Hs, Hsza.
Qed.

Lemma insert_set e s : set (insert e s).2 = {[e]} ∪ set s.
Proof. unfold insert. case_decide; cbn; [set_solver|done]. Qed.

Lemma remove_set e s : set (remove e s).2 = set s ∖ {[e]}.
Proof.
  unfold remove. case_decide; cbn [snd]; [set_solver|]. upd_simpl.
  destruct (socket_addr_refcount s !! _); [case_decide|]; done.
Qed.

(** An address is in the derived set iff some eviction targets it. *)
Lemma contains_socket_addr_spec addr s : wf s →
  contains_socket_addr addr s = true ↔ ∃ version, Evict addr version ∈ set s.
Proof.
  intros Hwf. unfold contains_socket_addr. rewrite bool_decide_eq_true.
  destruct (Hwf addr) as [_ ->]. split.
  - intros Hn. destruct (set_choose_or_empty (at_addr addr (set s))) as [[[a v] Hin]|Hemp].
    + apply elem_of_filter in Hin as [Ha Hin]. cbn in Ha. subst. eauto.
    + apply size_empty_iff in Hemp. done.
  - intros [v Hv]. by apply (at_addr_nonempty (Evict addr v)).
Qed.

End EvictionSet.
