(* ===== verification/Types.v ===== *)
(** The data of the TPU client: transactions, responses, errors and the
    configuration ([core.rs], [config.rs] of [crates/tpu-client/src]), and the
    address-resolution service with its per-peer override. Public keys, socket
    addresses and signatures are opaque identifiers, as in the code, which only
    compares and hashes them. *)
From S2P Require Import Prelude.
From Stdlib Require Import Strings.Byte.

Abbreviation Pubkey := N (only parsing).
Abbreviation SocketAddr := N (only parsing).
Abbreviation Signature := N (only parsing).
(** Instants and durations, in nanoseconds. *)
Abbreviation Instant := N (only parsing).
Abbreviation Duration := N (only parsing).

Definition from_millis (ms : N) : Duration := (ms * 1000000)%N.
Definition from_secs (s : N) : Duration := (s * 1000000000)%N.

(** ** Sizes *)
Definition PACKET_DATA_SIZE : nat := 1232.
Definition V1_TRANSACTION_DATA_SIZE : nat := 4096.
Definition V1_TRANSACTION_PREFIX : byte := x81.

#[export] Instance byte_eq_dec : EqDecision byte := Byte.byte_eq_dec.

Definition transaction_data_size_limit (wire_transaction : list byte) : nat :=
  if decide (head wire_transaction = Some V1_TRANSACTION_PREFIX)
  then V1_TRANSACTION_DATA_SIZE else PACKET_DATA_SIZE.

Definition transaction_data_size_is_valid (wire_transaction : list byte) : bool :=
  bool_decide (length wire_transaction ≤ transaction_data_size_limit wire_transaction).

(** ** Timing constants *)
Definition QUIC_MAX_TIMEOUT : Duration := from_secs 10.
Definition DEFAULT_UNUSED_CONNECTION_TTL : Duration := from_secs 10.
Definition DEFAULT_LEADER_DURATION : Duration := from_millis 800.
Definition LEADER_PREDICTION_REFRESH_INTERVAL : Duration := from_millis 600.
Definition FOREVER : Duration := from_secs 31536000.

(** ** Configuration *)
Inductive TpuPortKind := Normal | Forwards.

Record TpuOverrideInfo := {
  remote_peer : Pubkey;
  quic_tpu : SocketAddr;
  quic_tpu_forward : SocketAddr
}.

Record TpuSenderConfig := {
  endpoint_port_range : N * N;
  max_idle_timeout : Duration;
  max_connection_attempts : nat;
  transaction_sender_worker_channel_capacity : nat;
  connecting_timeout : Duration;
  tpu_port : TpuPortKind;
  max_concurrent_connection : nat;
  max_local_port_binding_attempts : nat;
  num_endpoints : nat;
  max_send_attempt : nat;
  remote_peer_addr_watch_interval : Duration;
  send_timeout : Duration;
  leader_prediction_lookahead : option nat;
  send_fanout_slots : N;
  tpu_info_override : list TpuOverrideInfo;
  orphan_connection_ttl : Duration;
  unsafe_allow_arbitrary_txn_size : bool
}.

Definition DEFAULT_QUIC_DRIVER_ENDPOINT_COUNT : nat := 5.
Definition DEFAULT_CONNECTION_TIMEOUT : Duration := from_secs 4.
Definition DEFAULT_MAX_CONSECUTIVE_CONNECTION_ATTEMPT : nat := 3.
Definition DEFAULT_PER_PEER_TRANSACTION_QUEUE_SIZE : nat := 100 * 100.
Definition DEFAULT_MAX_CONCURRENT_CONNECTIONS : nat := 1024.
Definition DEFAULT_MAX_SEND_ATTEMPT : nat := 3.
Definition DEFAULT_LEADER_PREDICTION_LOOKAHEAD : nat := 4.
Definition DEFAULT_SEND_FANOUT_SLOTS : N := 12.
Definition MAX_SEND_FANOUT_SLOTS : N := 100.
Definition DEFAULT_MAX_LOCAL_BINDING_PORT_ATTEMPTS : nat := 3.
Definition DEFAULT_REMOTE_PEER_ADDR_WATCH_INTERVAL : Duration := from_secs 5.
Definition DEFAULT_TX_SEND_TIMEOUT : Duration := from_secs 2.

(** [VALIDATOR_PORT_RANGE] is a constant of another crate. *)
Definition default_config (VALIDATOR_PORT_RANGE : N * N) : TpuSenderConfig := {|
  endpoint_port_range := VALIDATOR_PORT_RANGE;
  max_idle_timeout := QUIC_MAX_TIMEOUT;
  max_connection_attempts := DEFAULT_MAX_CONSECUTIVE_CONNECTION_ATTEMPT;
  transaction_sender_worker_channel_capacity := DEFAULT_PER_PEER_TRANSACTION_QUEUE_SIZE;
  connecting_timeout := DEFAULT_CONNECTION_TIMEOUT;
  tpu_port := Forwards;
  max_concurrent_connection := DEFAULT_MAX_CONCURRENT_CONNECTIONS;
  max_local_port_binding_attempts := DEFAULT_MAX_LOCAL_BINDING_PORT_ATTEMPTS;
  num_endpoints := DEFAULT_QUIC_DRIVER_ENDPOINT_COUNT;
  max_send_attempt := DEFAULT_MAX_SEND_ATTEMPT;
  remote_peer_addr_watch_interval := DEFAULT_REMOTE_PEER_ADDR_WATCH_INTERVAL;
  send_timeout := DEFAULT_TX_SEND_TIMEOUT;
  leader_prediction_lookahead := Some DEFAULT_LEADER_PREDICTION_LOOKAHEAD;
  send_fanout_slots := DEFAULT_SEND_FANOUT_SLOTS;
  tpu_info_override := [];
  orphan_connection_ttl := DEFAULT_UNUSED_CONNECTION_TTL;
  unsafe_allow_arbitrary_txn_size := false
|}.

(** ** Transactions and responses *)
Module Txn.
Record TpuSenderTxn := { tx_sig : Signature; wire : list byte; remote_peer : Pubkey }.
End Txn.
Export Txn (TpuSenderTxn, tx_sig, wire).

(** [TpuSenderTxn::from_bytes] and [from_owned] build the same value. *)
Definition from_bytes (tx_sig : Signature) (remote_peer : Pubkey) (wire : list byte) : TpuSenderTxn :=
  {| Txn.tx_sig := tx_sig; Txn.wire := wire; Txn.remote_peer := remote_peer |}.

#[export] Instance TpuSenderTxn_eq_dec : EqDecision TpuSenderTxn.
Proof. solve_decision. Defined.

(** The QUIC library's errors, as far as the code tells them apart. *)
Inductive ConnectionError := VersionMismatch | TimedOut | OtherConnectionError.
Inductive ConnectError := EndpointStopping | OtherConnectError.
Inductive ConnectingError :=
  | CConnectError (e : ConnectError)
  | CConnectionError (e : ConnectionError)
  | CClientConfig.

Inductive SendTxError :=
  | SConnectionError (e : ConnectionError)
  | StreamStopped
  | StreamClosed
  | SZeroRttRejected.

Inductive TxDropReason :=
  | RateLimited | RemotePeerUnreachable | DropByDriver | RemotePeerBeingEvicted
  | InvalidPacketSize | DriverIdentityChanged.

#[export] Instance TxDropReason_eq_dec : EqDecision TxDropReason.
Proof. solve_decision. Defined.

Inductive TpuSenderResponse :=
  | TxSent (remote_peer_identity : Pubkey) (remote_peer_addr : SocketAddr) (tx_sig : Signature)
  | TxFailed (remote_peer_identity : Pubkey) (remote_peer_addr : SocketAddr) (tx_sig : Signature)
             (reason : SendTxError)
  | TxDrop (remote_peer_identity : Pubkey) (drop_reason : TxDropReason)
           (dropped_tx_vec : list (TpuSenderTxn * nat)).

(** ** Address resolution: [LeaderTpuInfoService] *)
Class LeaderTpuInfoService (T : Type) := {
  get_quic_tpu_socket_addr : T → Pubkey → option SocketAddr;
  get_quic_tpu_fwd_socket_addr : T → Pubkey → option SocketAddr
}.

(** The trait's default method. *)
Definition get_quic_dest_addr `{LeaderTpuInfoService T} (self : T) (leader : Pubkey)
    (kind : TpuPortKind) : option SocketAddr :=
  match kind with
  | Normal => get_quic_tpu_socket_addr self leader
  | Forwards => get_quic_tpu_fwd_socket_addr self leader
  end.

Record OverrideTpuInfoService (T : Type) := { override_vec : list TpuOverrideInfo; other : T }.
Arguments override_vec {T} _.
Arguments other {T} _.

Definition find_override {T} (self : OverrideTpuInfoService T) (leader : Pubkey)
    : option TpuOverrideInfo :=
  snd <$> list_find (λ info, remote_peer info = leader) (override_vec self).

#[export] Instance override_service `{LeaderTpuInfoService T}
    : LeaderTpuInfoService (OverrideTpuInfoService T) := {
  get_quic_tpu_socket_addr self leader :=
    match find_override self leader with
    | Some info => Some (quic_tpu info)
    | None => get_quic_tpu_socket_addr (other self) leader
    end;
  get_quic_tpu_fwd_socket_addr self leader :=
    match find_override self leader with
    | Some info => Some (quic_tpu_forward info)
    | None => get_quic_tpu_fwd_socket_addr (other self) leader
    end
}.

(** ** Active connections *)
Module Conn.
Record ActiveConnection := mk {
  remote_peer_addr : SocketAddr;
  conn : N;
  connection_version : N;
  multiplexed_remote_peer_identity_with_stake : gmap Pubkey N
}.
#[export] Instance ActiveConnection_settable : Settable ActiveConnection := λ r,
  mk (remote_peer_addr r) (conn r) (connection_version r)
     (multiplexed_remote_peer_identity_with_stake r).
End Conn.
Export (hints) Conn.
Export Conn (ActiveConnection, multiplexed_remote_peer_identity_with_stake).

(** The total stake of the peers sharing a connection. *)
Definition group_stake (group : gmap Pubkey N) : N := u64_sum (map_to_list group).*2.

Lemma group_stake_empty : group_stake ∅ = 0%N.
Proof. unfold group_stake. by rewrite map_to_list_empty. Qed.

(** The override wins over the wrapped service exactly for the listed peers. *)
Lemma find_override_None {T} (self : OverrideTpuInfoService T) leader :
  find_override self leader = None ↔ leader ∉ remote_peer <$> override_vec self.
Proof.
  unfold find_override. rewrite fmap_None, list_find_None, Forall_forall, list_elem_of_fmap.
  naive_solver.
Qed.
