(* ===== verification/Eviction.v ===== *)
(** Connection eviction of [crates/tpu-client/src/core.rs]: the strategy
    interface, the stake-based strategy, and the view of the address space it
    plans over. *)
From S2P Require Import Prelude Types StakedSet.
Import StakedSet.

Module Eviction.
Section Eviction.
Context `{HI : HashIter}.

Abbreviation StakeSortedPeerSet := (StakedSortedSet N).

(** ** [RemotePeerAddrMap] *)
Inductive ConnectionMap :=
  | Quinn (m : gmap N ActiveConnection)
  | Test (m : gmap N (gmap N N)).

Definition get_peer_stake_mapping (cm : ConnectionMap) (addr : N) : option (gmap N N) :=
  match cm with
  | Quinn m => multiplexed_remote_peer_identity_with_stake <$> m !! addr
  | Test m => m !! addr
  end.

Record RemotePeerAddrMap := {
  connection_map : ConnectionMap;
  staked_sorted_address_set : StakedSortedSet N
}.

Record MultiplexedPeerGroup := { socket_addr : N; group : gmap N N }.

Definition total_stake (g : MultiplexedPeerGroup) : N := group_stake (group g).

Definition get_connected_stake_at_addr (r : RemotePeerAddrMap) (addr : N) : option N :=
  group_stake <$> get_peer_stake_mapping (connection_map r) addr.

(** The groups by ascending stake of their address; an address without a
    connection is skipped. *)
Definition staked_sorted_remote_peer_groups (r : RemotePeerAddrMap) : list MultiplexedPeerGroup :=
  omap (λ sa : N * N,
          Build_MultiplexedPeerGroup sa.2 <$> get_peer_stake_mapping (connection_map r) sa.2)
       (iter (staked_sorted_address_set r)).

(** ** The strategy interface *)
Class ConnectionEvictionStrategy (S : Type) := {
  plan_eviction : S → N → StakeSortedPeerSet → gmap N N → gset N → nat → list N;
  plan_eviction_with_addr_map :
    S → N → StakeSortedPeerSet → gmap N N → gset N → nat → RemotePeerAddrMap → list N
}.

(** ** [StakeBasedEvictionStrategy] *)
Record StakeBasedEvictionStrategy := { peer_idle_eviction_grace_period : N }.

Definition default_strategy : StakeBasedEvictionStrategy :=
  {| peer_idle_eviction_grace_period := DEFAULT_LEADER_DURATION |}.

(** Never used, or idle for at least the grace period.  [N] subtraction is
    [saturating_duration_since]. *)
Definition idle (self : StakeBasedEvictionStrategy) (now : N) (usage_table : gmap N N) (peer : N)
    : bool :=
  match usage_table !! peer with
  | None => true
  | Some last_usage => (peer_idle_eviction_grace_period self <=? now - last_usage)%N
  end.

Definition stake_plan_eviction (self : StakeBasedEvictionStrategy) (now : N)
    (ss_identies : StakeSortedPeerSet) (usage_table : gmap N N) (already_evicting : gset N)
    (plan_ahead_size : nat) : list N :=
  if is_empty ss_identies then [] else
  let candidates := filter (λ sp : N * N, sp.2 ∉ already_evicting) (iter ss_identies) in
  let plan := (take plan_ahead_size (filter (λ sp : N * N, idle self now usage_table sp.2) candidates)).*2 in
  match plan with
  | [] => (take plan_ahead_size candidates).*2
  | _ => plan
  end.

Definition group_peers (g : MultiplexedPeerGroup) : list N := hash_iter (dom (group g)).

(** The two passes over the groups: idle groups first, then any group, none
    of whose peers is already being evicted. *)
Definition group_idle (self : StakeBasedEvictionStrategy) (now : N) (usage_table : gmap N N)
    (already_evicting : gset N) (g : MultiplexedPeerGroup) : bool :=
  forallb (λ peer, bool_decide (peer ∉ already_evicting) && idle self now usage_table peer)
    (group_peers g).
Definition group_free (already_evicting : gset N) (g : MultiplexedPeerGroup) : bool :=
  forallb (λ peer, bool_decide (peer ∉ already_evicting)) (group_peers g).

Definition stake_plan_eviction_with_addr_map (self : StakeBasedEvictionStrategy) (now : N)
    (_ss_identies : StakeSortedPeerSet) (usage_table : gmap N N) (already_evicting : gset N)
    (plan_ahead_size : nat) (r : RemotePeerAddrMap) : list N :=
  let groups := staked_sorted_remote_peer_groups r in
  let proposed_eviction :=
    take plan_ahead_size (filter (λ g, group_idle self now usage_table already_evicting g) groups)
      ≫= group_peers in
  match proposed_eviction with
  | [] => take plan_ahead_size (filter (λ g, group_free already_evicting g) groups) ≫= group_peers
  | _ => proposed_eviction
  end.

#[export] Instance stake_based : ConnectionEvictionStrategy StakeBasedEvictionStrategy := {
  plan_eviction := stake_plan_eviction;
  plan_eviction_with_addr_map := stake_plan_eviction_with_addr_map
}.

(** ** Lemmas *)
Implicit Types (self : StakeBasedEvictionStrategy) (ss : StakeSortedPeerSet).

Definition candidates ss (already_evicting : gset N) : list (N * N) :=
  filter (λ sp : N * N, sp.2 ∉ already_evicting) (iter ss).

Lemma elem_of_candidates ss ae k p : wf ss →
  (k, p) ∈ candidates ss ae ↔ peer_stake_map ss !! p = Some k ∧ p ∉ ae.
Proof.
  intros Hwf. unfold candidates. rewrite list_elem_of_filter, elem_of_iter by done.
  cbn. tauto.
Qed.

Lemma stake_plan_length self now ss ut ae n :
  length (stake_plan_eviction self now ss ut ae n) ≤ n.
Proof.
  unfold stake_plan_eviction. destruct (is_empty ss); cbn; [lia|].
  assert (∀ l : list (N * N), length (take n l).*2 ≤ n) as Hlen
    by (intros l; rewrite length_fmap, length_take; lia).
  match goal with |- length (match ?l with _ => _ end) ≤ _ => destruct l eqn:E end; [done|].
  rewrite <-E. done.
Qed.

(** The plan is a prefix, by ascending stake, of the idle candidates when
    there is one, of all the candidates otherwise. *)
Lemma stake_plan_shape self now ss ut ae n : wf ss →
  ∃ l, stake_plan_eviction self now ss ut ae n = (take n l).*2 ∧
    StronglySorted (λ a b, (a.1 ≤ b.1)%N) l ∧
    ((l = filter (λ sp : N * N, idle self now ut sp.2) (candidates ss ae)) ∨
     (l = candidates ss ae ∧ (n = 0 ∨ ∀ sp, sp ∈ candidates ss ae → idle self now ut sp.2 = false))).
Proof.
  intros Hwf. pose proof (iter_sorted ss) as Hs.
  apply (StronglySorted_filter _ (λ sp : N * N, sp.2 ∉ ae)) in Hs.
  fold (candidates ss ae) in Hs.
  assert (is_empty ss = true → candidates ss ae = []) as Hemp.
  { unfold is_empty. intros He%bool_decide_eq_true_1.
    destruct (candidates ss ae) as [|[k p] c] eqn:E; [done|].
    assert ((k, p) ∈ candidates ss ae) as Hin by (rewrite E; left).
    apply elem_of_candidates in Hin as [Hk _]; [|done]. by rewrite He, lookup_empty in Hk. }
  unfold stake_plan_eviction. fold (candidates ss ae).
  set (f := filter _ (candidates ss ae)).
  destruct (is_empty ss) eqn:Ee.
  { exists f. unfold f. rewrite (Hemp eq_refl). cbn. rewrite take_nil.
    split_and!; [done|constructor|by left]. }
  destruct ((take n f).*2) as [|x l] eqn:E; [|rewrite <-E].
  - exists (candidates ss ae). split_and!; [done..|]. right. split; [done|].
    apply fmap_nil_inv in E. destruct n as [|n]; [by left|]. right.
    intros sp Hsp. destruct f as [|y f'] eqn:Ef; [|done].
    destruct (idle self now ut sp.2) eqn:Ei; [|done]. exfalso.
    assert (sp ∈ f) as Hin.
    { unfold f. apply list_elem_of_filter. by rewrite Ei. }
    rewrite Ef in Hin. by apply elem_of_nil in Hin.
  - exists f. split_and!; [done|by apply StronglySorted_filter|by left].
Qed.

(** C8: The stake-based plan never exceeds the number asked for, names only peers with a
    known stake that are not already being evicted, takes idle peers first, and within a
    class never spares a peer with less stake than one it evicts. *)
Theorem stake_plan_eviction_correct self now ss ut ae n (Hwf : wf ss) :
  let plan := stake_plan_eviction self now ss ut ae n in
  length plan ≤ n ∧
  (∀ p, p ∈ plan → p ∉ ae ∧ is_Some (peer_stake_map ss !! p)) ∧
  ((∃ q, q ∉ ae ∧ is_Some (peer_stake_map ss !! q) ∧ idle self now ut q = true) →
     ∀ p, p ∈ plan → idle self now ut p = true) ∧
  (∀ p q kp kq, p ∈ plan → q ∉ plan → q ∉ ae →
     peer_stake_map ss !! p = Some kp → peer_stake_map ss !! q = Some kq →
     (idle self now ut q = true ∨ idle self now ut p = false) → (kp ≤ kq)%N).
Proof.
  intros plan. split; [apply stake_plan_length|].
  destruct (stake_plan_shape self now ss ut ae n Hwf) as (l & Hplan & Hs & Hl).
  unfold plan. clear plan. rewrite Hplan.
  assert (∀ k p, (k, p) ∈ l → peer_stake_map ss !! p = Some k ∧ p ∉ ae) as Hin.
  { intros k p Hk. apply elem_of_candidates; [done|].
    destruct Hl as [->|[-> _]]; [by apply list_elem_of_filter in Hk as [_ ?]|done]. }
  split_and!.
  - intros p ([k p'] & -> & Hp%elem_of_take_subset)%list_elem_of_fmap. cbn.
    apply Hin in Hp as [? ?]. eauto.
  - intros (q & Hq & [k Hk] & Hidle) p ([kp p'] & -> & Hp)%list_elem_of_fmap. cbn.
    destruct Hl as [->|[-> [->|Hno]]]; [|by cbn in Hp; apply elem_of_nil in Hp|].
    + apply elem_of_take_subset, list_elem_of_filter in Hp as [Hi _]. by apply Is_true_true.
    + assert ((k, q) ∈ candidates ss ae) as Hc by (by apply elem_of_candidates).
      apply Hno in Hc. cbn in Hc. congruence.
  - intros p q kp kq ([kp' p'] & -> & Hp)%list_elem_of_fmap Hq Hqae Hkp Hkq Hidle. cbn in *.
    assert ((kq, q) ∈ l) as Hql.
    { assert ((kq, q) ∈ candidates ss ae) as Hc by (by apply elem_of_candidates).
      destruct Hl as [->|[-> _]]; [|done]. apply list_elem_of_filter. split; [|done].
      cbn. apply Is_true_true. destruct Hidle as [|Hidle]; [done|].
      apply elem_of_take_subset, list_elem_of_filter in Hp as [Hi%Is_true_true _]. cbn in Hi. congruence. }
    rewrite <-(take_drop n l) in Hql. apply elem_of_app in Hql as [Hql|Hql].
    + destruct Hq. apply list_elem_of_fmap. by exists (kq, q).
    + pose proof (StronglySorted_take_drop _ n l _ _ Hs Hp Hql) as Hle. cbn in Hle.
      apply elem_of_take_subset, Hin in Hp as [Hp _]. naive_solver.
Qed.

Lemma elem_of_groups r g : g ∈ staked_sorted_remote_peer_groups r →
  get_peer_stake_mapping (connection_map r) (socket_addr g) = Some (group g).
Proof.
  unfold staked_sorted_remote_peer_groups. intros ([k a] & _ & Hg)%list_elem_of_omap.
  cbn in Hg. destruct (get_peer_stake_mapping _ a) eqn:E; naive_solver.
Qed.

Lemma elem_of_group_peers g p : p ∈ group_peers g ↔ is_Some (group g !! p).
Proof. unfold group_peers. by rewrite elem_of_hash_iter, elem_of_dom. Qed.

Lemma group_idle_spec self now ut ae g :
  group_idle self now ut ae g = true ↔
  ∀ p, is_Some (group g !! p) → p ∉ ae ∧ idle self now ut p = true.
Proof.
  unfold group_idle. rewrite forallb_forall. setoid_rewrite <-list_elem_of_In.
  setoid_rewrite elem_of_group_peers. setoid_rewrite andb_true_iff.
  by setoid_rewrite bool_decide_eq_true.
Qed.

Lemma group_free_spec ae g :
  group_free ae g = true ↔ ∀ p, is_Some (group g !! p) → p ∉ ae.
Proof.
  unfold group_free. rewrite forallb_forall. setoid_rewrite <-list_elem_of_In.
  setoid_rewrite elem_of_group_peers. by setoid_rewrite bool_decide_eq_true.
Qed.

(** The plan over multiplexed groups only takes whole groups: every planned peer is free,
    its group is in the plan entirely, and either the group is idle or every group in the
    plan has no member already being evicted. *)
Theorem group_plan_correct self now ss ut ae n r :
  let plan := stake_plan_eviction_with_addr_map self now ss ut ae n r in
  ∀ p, p ∈ plan →
    p ∉ ae ∧
    (∃ addr g, get_peer_stake_mapping (connection_map r) addr = Some g ∧ is_Some (g !! p) ∧
       (∀ p', is_Some (g !! p') → p' ∈ plan) ∧
       ((∀ p', is_Some (g !! p') → idle self now ut p' = true) ∨
        (∀ q, q ∈ plan → ∃ addr g, get_peer_stake_mapping (connection_map r) addr = Some g ∧
           is_Some (g !! q) ∧ ∀ p', is_Some (g !! p') → p' ∉ ae))).
Proof.
  cbv zeta. unfold stake_plan_eviction_with_addr_map.
  set (groups := staked_sorted_remote_peer_groups r).
  set (idles := take n _). set (frees := take n (filter (λ g, group_free _ g) _)).
  assert (∀ g, g ∈ frees → g ∈ groups ∧ ∀ p, is_Some (group g !! p) → p ∉ ae) as Hfree.
  { intros g [Hg%Is_true_true Hin]%elem_of_take_subset%list_elem_of_filter.
    by rewrite group_free_spec in Hg. }
  assert (∀ g, g ∈ idles → g ∈ groups ∧
    ∀ p, is_Some (group g !! p) → p ∉ ae ∧ idle self now ut p = true) as Hidle.
  { intros g [Hg%Is_true_true Hin]%elem_of_take_subset%list_elem_of_filter.
    by rewrite group_idle_spec in Hg. }
  destruct (idles ≫= group_peers) as [|x l] eqn:E; [|rewrite <-E]; clear E;
    intros p (g & Hp%elem_of_group_peers & Hg)%list_elem_of_bind.
  - destruct (Hfree g Hg) as [Hgr Hae]. split; [by apply Hae|].
    exists (socket_addr g), (group g). split_and!; [by apply elem_of_groups|done| |].
    + intros p' Hp'. apply list_elem_of_bind. exists g. by rewrite elem_of_group_peers.
    + right. intros q (g' & Hq%elem_of_group_peers & Hg')%list_elem_of_bind.
      destruct (Hfree g' Hg') as [Hgr' Hae'].
      exists (socket_addr g'), (group g'). split_and!; [by apply elem_of_groups|done|done].
  - destruct (Hidle g Hg) as [Hgr Hae]. split; [by apply Hae|].
    exists (socket_addr g), (group g). split_and!; [by apply elem_of_groups|done| |].
    + intros p' Hp'. apply list_elem_of_bind. exists g. by rewrite elem_of_group_peers.
    + left. intros p' Hp'. by apply Hae.
Qed.

(** A connection without peers is a group with no stake, so it sorts first: when the first
    [n] groups are empty the plan is empty, although other groups could be evicted. *)
Theorem empty_groups_hide_eviction self now ss ut ae n r
  (Hlen : n ≤ length (staked_sorted_remote_peer_groups r))
  (Hempty : ∀ g, g ∈ take n (staked_sorted_remote_peer_groups r) → group g = ∅) :
  stake_plan_eviction_with_addr_map self now ss ut ae n r = [].
Proof.
  unfold stake_plan_eviction_with_addr_map.
  set (groups := staked_sorted_remote_peer_groups r) in *.
  assert (∀ f : MultiplexedPeerGroup → bool, (∀ g, group g = ∅ → f g = true) →
    take n (filter (λ g, f g) groups) = take n groups) as Htake.
  { intros f Hf. clearbody groups. revert n Hlen Hempty.
    induction groups as [|g gs IH]; intros [|n] Hlen Hempty; try done.
    rewrite filter_cons, decide_True.
    - cbn [take]. f_equal. apply IH; [cbn in Hlen; lia|]. intros g' Hg'. apply Hempty. by right.
    - rewrite Hf; [done|]. apply Hempty. by left. }
  assert (take n groups ≫= group_peers = []) as Hnil.
  { assert (∀ l : list MultiplexedPeerGroup, (∀ g, g ∈ l → group g = ∅) → l ≫= group_peers = [])
      as Hgen; [|by apply Hgen].
    intros l. induction l as [|g l IH]; intros Hl; cbn; [done|].
    rewrite IH by (intros; apply Hl; by right).
    destruct (group_peers g) as [|p ps] eqn:Eg; [done|].
    assert (p ∈ group_peers g) as Hp%elem_of_group_peers by (rewrite Eg; left).
    rewrite (Hl g), lookup_empty in Hp by left. by destruct Hp. }
  rewrite (Htake (group_idle self now ut ae)).
  2:{ intros g Hg. apply group_idle_spec. intros p. rewrite Hg, lookup_empty. by intros [? ?]. }
  rewrite Hnil, (Htake (group_free ae)); [done|].
  intros g Hg. apply group_free_spec. intros p. rewrite Hg, lookup_empty. by intros [? ?].
Qed.
End Eviction.
End Eviction.
Export (hints) Eviction.
