(* ===== verification/Runtime.v ===== *)
(** What the driver and its workers use of the async runtime: bounded channels
    (an interface with the documented behaviour of [tokio::sync::mpsc] as laws,
    and one instance), one-permit notifications, spawned tasks, and the sink of
    [TpuSenderResponse]s. Also the accounting of transactions by signature that
    the conservation theorems use. *)
From S2P Require Import Prelude Types.

Inductive TrySendResult := SendOk | SendFull | SendClosed.

(** [mpsc::channel(capacity)] seen from both ends. [buffered] is what was sent
    and not yet received. *)
Class Mpsc (Ch A : Type) := {
  channel : nat → Ch;
  buffered : Ch → list A;
  capacity : Ch → nat;
  try_send : A → Ch → TrySendResult * Ch;
  try_recv : Ch → option A * Ch;
  close_rx : Ch → Ch;
  rx_closed : Ch → bool;

  buffered_channel n : buffered (channel n) = [];
  capacity_channel n : capacity (channel n) = n;
  rx_closed_channel n : rx_closed (channel n) = false;
  try_send_spec a c :
    match try_send a c with
    | (SendOk, c') =>
        buffered c' = buffered c ++ [a] ∧ length (buffered c) < capacity c ∧ rx_closed c = false
    | (SendFull, c') => c' = c ∧ capacity c ≤ length (buffered c) ∧ rx_closed c = false
    | (SendClosed, c') => c' = c ∧ rx_closed c = true
    end;
  try_send_meta a c :
    capacity (try_send a c).2 = capacity c ∧ rx_closed (try_send a c).2 = rx_closed c;
  try_recv_spec c :
    (try_recv c).1 = head (buffered c) ∧ buffered (try_recv c).2 = tail (buffered c);
  try_recv_meta c :
    capacity (try_recv c).2 = capacity c ∧ rx_closed (try_recv c).2 = rx_closed c;
  buffered_close c : buffered (close_rx c) = buffered c;
  close_rx_meta c : capacity (close_rx c) = capacity c ∧ rx_closed (close_rx c) = true
}.

(** The instance the witnesses run on. *)
Module ListChannel.
Record t (A : Type) := mk { queue : list A; cap : nat; closed : bool }.
Arguments mk {A}. Arguments queue {A}. Arguments cap {A}. Arguments closed {A}.

Definition send {A} (a : A) (c : t A) : TrySendResult * t A :=
  if closed c then (SendClosed, c)
  else if decide (length (queue c) < cap c)
       then (SendOk, mk (queue c ++ [a]) (cap c) (closed c)) else (SendFull, c).

#[export] Program Instance list_channel (A : Type) : Mpsc (t A) A := {
  channel n := mk [] n false;
  buffered := queue;
  capacity := cap;
  try_send := send;
  try_recv c := (head (queue c), mk (tail (queue c)) (cap c) (closed c));
  close_rx c := mk (queue c) (cap c) true;
  rx_closed := closed
}.
Solve Obligations with (try (intros; cbn; repeat split; done)).
Next Obligation.
  intros A a c. unfold send. destruct (closed c) eqn:E; [done|].
  case_decide; cbn; split_and!; try done; lia.
Qed.
Next Obligation. intros A a c. unfold send. destruct (closed c) eqn:E; [done|]. by case_decide. Qed.
End ListChannel.
Export (hints) ListChannel.

Section Mpsc.
Context `{Mpsc Ch A}.

(** [while let Ok(tx) = rx.try_recv()]: everything buffered, in order. The
    fuel is the number of buffered elements, which is exact
    ([recv_all_buffered]). *)
Fixpoint recv_fuel (fuel : nat) (c : Ch) : list A * Ch :=
  match fuel with
  | 0 => ([], c)
  | S fuel =>
      match try_recv c with
      | (None, c) => ([], c)
      | (Some a, c) => let '(l, c) := recv_fuel fuel c in (a :: l, c)
      end
  end.
Definition recv_all (c : Ch) : list A * Ch := recv_fuel (length (buffered c)) c.

Lemma recv_fuel_spec fuel c : length (buffered c) ≤ fuel →
  (recv_fuel fuel c).1 = buffered c ∧ buffered (recv_fuel fuel c).2 = [].
Proof.
  revert c. induction fuel as [|fuel IH]; intros c Hle; cbn.
  { destruct (buffered c); cbn in *; [done|lia]. }
  pose proof (try_recv_spec c) as [Hhd Htl]. destruct (try_recv c) as [o c'] eqn:E; cbn in *.
  destruct (buffered c) as [|a l] eqn:Eb; cbn in *; subst o; cbn.
  - by rewrite Htl.
  - destruct (IH c') as [H1 H2]; [rewrite Htl; lia|].
    destruct (recv_fuel fuel c') as [l' c'']; cbn in *. by rewrite H1, Htl.
Qed.

Lemma recv_all_buffered c : (recv_all c).1 = buffered c.
Proof. by apply recv_fuel_spec. Qed.

(** One more round finds the channel empty: the loop has ended. *)
Lemma recv_all_drained c : (try_recv (recv_all c).2).1 = None.
Proof.
  pose proof (try_recv_spec (recv_all c).2) as [-> _].
  unfold recv_all. by rewrite (proj2 (recv_fuel_spec _ c (le_n _))).
Qed.
End Mpsc.

(** ** Accounting by signature *)
Definition txn_is (sig : Signature) (tx : TpuSenderTxn) : nat :=
  if decide (tx_sig tx = sig) then 1 else 0.
Definition count_txns (sig : Signature) (l : list TpuSenderTxn) : nat :=
  foldr (λ tx n, txn_is sig tx + n) 0 l.
Definition count_queue (sig : Signature) (l : list (TpuSenderTxn * nat)) : nat :=
  foldr (λ p n, txn_is sig p.1 + n) 0 l.

Definition count_response (sig : Signature) (r : TpuSenderResponse) : nat :=
  match r with
  | TxSent _ _ s | TxFailed _ _ s _ => if decide (s = sig) then 1 else 0
  | TxDrop _ _ q => count_queue sig q
  end.
Definition count_responses (sig : Signature) (l : list TpuSenderResponse) : nat :=
  foldr (λ r n, count_response sig r + n) 0 l.

Lemma count_txns_app sig l k : count_txns sig (l ++ k) = count_txns sig l + count_txns sig k.
Proof. unfold count_txns. induction l; cbn; lia. Qed.
Lemma count_queue_app sig l k : count_queue sig (l ++ k) = count_queue sig l + count_queue sig k.
Proof. unfold count_queue. induction l; cbn; lia. Qed.
Lemma count_responses_app sig l k :
  count_responses sig (l ++ k) = count_responses sig l + count_responses sig k.
Proof. unfold count_responses. induction l; cbn; lia. Qed.
Lemma count_queue_attempt1 sig l : count_queue sig ((λ tx, (tx, 1)) <$> l) = count_txns sig l.
Proof. unfold count_queue, count_txns. induction l; cbn; lia. Qed.

Create Rewrite HintDb jet_count.
#[export] Hint Rewrite count_txns_app count_queue_app count_responses_app count_queue_attempt1
  : jet_count.

(** The transactions in queues by peer, and in channels. *)
Definition in_queues (sig : Signature) (m : gmap N (list (TpuSenderTxn * nat))) : nat :=
  map_sum (count_queue sig) m.
Definition in_channels `{Mpsc Ch TpuSenderTxn} (sig : Signature) (m : gmap N Ch) : nat :=
  map_sum (λ c, count_txns sig (buffered c)) m.

Lemma count_queue_default sig (o : option (list (TpuSenderTxn * nat))) :
  count_queue sig (default [] o) = from_option (count_queue sig) 0 o.
Proof. by destruct o. Qed.

Lemma in_queues_put sig q p l : in_queues sig (<[p := default [] (q !! p) ++ l]> q) =
  in_queues sig q + count_queue sig l.
Proof.
  unfold in_queues.
  pose proof (map_sum_insert (count_queue sig) q p (default [] (q !! p) ++ l)) as Hs.
  rewrite count_queue_app, count_queue_default in Hs. lia.
Qed.

Lemma in_queues_delete sig q p : in_queues sig (delete p q) + count_queue sig (default [] (q !! p)) =
  in_queues sig q.
Proof. unfold in_queues. rewrite count_queue_default. apply map_sum_delete_opt. Qed.
