(* ===== verification/Worker.v ===== *)
(** [QuicTxSenderWorker] of [crates/tpu-client/src/core.rs]: one worker per
    remote peer, sending queued transactions one at a time over a connection.
    The outcome of each QUIC send is the environment's choice ([oracle]); the
    response callback's calls are returned in order. *)
From S2P Require Import Prelude Types Runtime.

Module Worker.

Inductive TxSenderWorkerError := ConnectionLost (e : ConnectionError) | WZeroRttRejected.

Record QuicTxSenderWorker := mk {
  remote_peer : N;
  remote_peer_addr : N;
  connection : N;
  current_client_identity : N;
  incoming_rx : N;
  output_tx : bool;
  tx_queue : list (TpuSenderTxn * nat);
  cancel_notify : N;
  max_tx_attempt : nat;
  txn_sent : N
}.
#[export] Instance QuicTxSenderWorker_settable : Settable QuicTxSenderWorker := λ r,
  mk (remote_peer r) (remote_peer_addr r) (connection r) (current_client_identity r)
     (incoming_rx r) (output_tx r) (tx_queue r) (cancel_notify r) (max_tx_attempt r) (txn_sent r).

(** [rx] is the worker's channel, handed back to the driver. *)
Record TxSenderWorkerCompleted := {
  err : option TxSenderWorkerError;
  rx : N;
  pending_tx : list (TpuSenderTxn * nat);
  canceled : bool
}.

(** ** One transaction *)
Definition send_tx (result : option SendTxError) (w : QuicTxSenderWorker) : QuicTxSenderWorker :=
  match result with
  | None => w <| txn_sent ::= λ n, u64_saturating_add n 1 |>
  | Some _ => w
  end.

Definition worker_error (e : SendTxError) : option TxSenderWorkerError :=
  match e with
  | SConnectionError ce => Some (ConnectionLost ce)
  | StreamStopped | StreamClosed => None
  | SZeroRttRejected => Some WZeroRttRejected
  end.

Definition call_back (w : QuicTxSenderWorker) (r : TpuSenderResponse) : list TpuSenderResponse :=
  if output_tx w then [r] else [].

Definition process_tx (result : option SendTxError) (tx : TpuSenderTxn) (attempt : nat)
    (w : QuicTxSenderWorker)
    : option TxSenderWorkerError * QuicTxSenderWorker * list TpuSenderResponse :=
  let w := send_tx result w in
  match result with
  | None => (None, w, call_back w (TxSent (remote_peer w) (remote_peer_addr w) (tx_sig tx)))
  | Some e =>
      if decide (max_tx_attempt w ≤ attempt)
      then (worker_error e, w,
            call_back w (TxFailed (remote_peer w) (remote_peer_addr w) (tx_sig tx) e))
      else (worker_error e, w <| tx_queue ::= λ q, q ++ [(tx, attempt + 1)] |>, [])
  end.

(** ** The queue loop

    [while let Some((tx, attempt)) = self.tx_queue.pop_front()]. [oracle i] is
    the outcome of the [i]-th send.  [None]: out of fuel. *)
Fixpoint try_process_tx_in_queue (fuel : nat) (oracle : nat → option SendTxError) (i : nat)
    (w : QuicTxSenderWorker)
    : option (option TxSenderWorkerError * QuicTxSenderWorker * list TpuSenderResponse * nat) :=
  match fuel with
  | 0 => None
  | S fuel =>
      match tx_queue w with
      | [] => Some (None, w, [], i)
      | (tx, attempt) :: queue =>
          let '(e, w, rs) := process_tx (oracle i) tx attempt (w <| tx_queue := queue |>) in
          match e with
          | Some e => Some (Some e, w, rs, S i)
          | None =>
              '(e, w, rs', i) ← try_process_tx_in_queue fuel oracle (S i) w;
              Some (e, w, rs ++ rs', i)
          end
      end
  end.

(** The number of sends a queue can still cause. *)
Definition entry_weight (max_attempt : nat) (p : TpuSenderTxn * nat) : nat :=
  1 + (max_attempt - p.2).
Definition queue_weight (max_attempt : nat) (q : list (TpuSenderTxn * nat)) : nat :=
  foldr (λ p n, entry_weight max_attempt p + n) 0 q.
Definition queue_fuel (w : QuicTxSenderWorker) : nat :=
  S (queue_weight (max_tx_attempt w) (tx_queue w)).

(** ** The event loop *)
Definition MAX_IDLE_DURATION : N := from_secs 10.

Record Loop := mk_loop {
  worker : QuicTxSenderWorker;
  last_activity : N;
  burst_timer : N
}.
#[export] Instance Loop_settable : Settable Loop := λ r,
  mk_loop (worker r) (last_activity r) (burst_timer r).

Definition start (now : N) (w : QuicTxSenderWorker) : Loop :=
  mk_loop w now (now + MAX_IDLE_DURATION).

Inductive Event :=
  | Recv (tx : TpuSenderTxn) (now : N)
  | InletClosed
  | BurstTimer (now : N)
  | ConnectionClosed (e : ConnectionError)
  | Cancelled.

Definition complete (e : option TxSenderWorkerError) (c : bool) (w : QuicTxSenderWorker)
    : TxSenderWorkerCompleted :=
  {| err := e; rx := incoming_rx w; pending_tx := tx_queue w; canceled := c |}.

(** One branch of the [select!]; [inr] is a [break]. *)
Definition on_event (ev : Event) (l : Loop) : Loop + TxSenderWorkerCompleted :=
  match ev with
  | Recv tx now =>
      inl (l <| last_activity := now |>
             <| worker ::= λ w, w <| tx_queue ::= λ q, q ++ [(tx, 1)] |> |>)
  | InletClosed => inr (complete None false (worker l))
  | BurstTimer now =>
      if (MAX_IDLE_DURATION <=? now - last_activity l)%N
      then inr (complete None false (worker l))
      else inl (l <| burst_timer := (last_activity l + MAX_IDLE_DURATION)%N |>)
  | ConnectionClosed e => inr (complete (Some (ConnectionLost e)) false (worker l))
  | Cancelled => inr (complete None true (worker l))
  end.

(** One iteration of [run]: drain the queue, then wait for one event. *)
Definition iteration (oracle : nat → option SendTxError) (ev : Event) (l : Loop)
    : option ((Loop + TxSenderWorkerCompleted) * list TpuSenderResponse) :=
  '(e, w, rs, _) ← try_process_tx_in_queue (queue_fuel (worker l)) oracle 0 (worker l);
  Some (match e with
        | Some e => inr (complete (Some e) false w)
        | None => on_event ev (l <| worker := w |>)
        end, rs).

(** ** Lemmas *)
Section Lemmas.
Implicit Types w : QuicTxSenderWorker.

Lemma send_tx_frame result w :
  tx_queue (send_tx result w) = tx_queue w ∧
  max_tx_attempt (send_tx result w) = max_tx_attempt w ∧
  output_tx (send_tx result w) = output_tx w ∧
  incoming_rx (send_tx result w) = incoming_rx w.
Proof. by destruct result. Qed.

Lemma process_tx_frame result tx attempt w e w' rs :
  process_tx result tx attempt w = (e, w', rs) →
  max_tx_attempt w' = max_tx_attempt w ∧ output_tx w' = output_tx w ∧
  incoming_rx w' = incoming_rx w.
Proof.
  unfold process_tx. destruct result; [case_decide|]; intros [= <- <- <-]; done.
Qed.

(** The three outcomes: reported, requeued with one more attempt. *)
Lemma process_tx_queue result tx attempt w e w' rs :
  process_tx result tx attempt w = (e, w', rs) →
  (tx_queue w' = tx_queue w ∧
   ∃ r, rs = call_back w r ∧ count_response (tx_sig tx) r = 1 ∧
        ∀ sig, count_response sig r = txn_is sig tx) ∨
  (attempt < max_tx_attempt w ∧ tx_queue w' = tx_queue w ++ [(tx, attempt + 1)] ∧ rs = []).
Proof.
  unfold process_tx. destruct result as [e0|]; [case_decide as Hd|]; intros [= <- <- <-].
  - left. split; [done|]. eexists. split_and!; [done| |done]. cbn. by rewrite decide_True.
  - right. split_and!; [by apply Nat.nle_gt|done|done].
  - left. split; [done|]. eexists. split_and!; [done| |done]. cbn. by rewrite decide_True.
Qed.

Lemma queue_weight_app n q q' : queue_weight n (q ++ q') = queue_weight n q + queue_weight n q'.
Proof. unfold queue_weight. induction q as [|p q IH]; [done|]. cbn [app foldr]. lia. Qed.

Lemma process_tx_weight result tx attempt w e w' rs :
  process_tx result tx attempt w = (e, w', rs) →
  queue_weight (max_tx_attempt w) (tx_queue w') <
  queue_weight (max_tx_attempt w) ((tx, attempt) :: tx_queue w).
Proof.
  intros [[-> _]|(Hlt & -> & _)]%process_tx_queue.
  - unfold queue_weight, entry_weight. cbn [foldr]. lia.
  - rewrite queue_weight_app. unfold queue_weight, entry_weight. cbn [foldr snd]. lia.
Qed.
End Lemmas.

(** The worker's queue loop ends whatever the stream errors: a bound on the remaining
    attempts bounds the sends, and it leaves the queue empty unless it ends with a
    connection error. *)
Theorem queue_loop_terminates oracle w fuel (i : nat) (Hfuel : queue_fuel w ≤ fuel) :
  ∃ e w' rs j, try_process_tx_in_queue fuel oracle i w = Some (e, w', rs, j) ∧
    i ≤ j ≤ i + queue_weight (max_tx_attempt w) (tx_queue w) ∧
    (e = None → tx_queue w' = []).
Proof.
  revert w i Hfuel. induction fuel as [|fuel IH]; intros w i Hfuel; [unfold queue_fuel in Hfuel; lia|].
  cbn [try_process_tx_in_queue]. destruct (tx_queue w) as [|[tx attempt] queue] eqn:Eq.
  { exists None, w, [], i. cbn. split_and!; try done; lia. }
  destruct (process_tx (oracle i) tx attempt (w <| tx_queue := queue |>)) as [[e w1] rs] eqn:Ep.
  pose proof (process_tx_weight _ _ _ _ _ _ _ Ep) as Hw.
  pose proof (process_tx_frame _ _ _ _ _ _ _ Ep) as (Hm & _ & _). upd_simpl_all.
  destruct e as [e|].
  { exists (Some e), w1, rs, (S i). split_and!; try done; lia. }
  destruct (IH w1 (S i)) as (e & w' & rs' & j & -> & Hj & Hq).
  { unfold queue_fuel in *. rewrite Eq in Hfuel. rewrite Hm. lia. }
  exists e, w', (rs ++ rs'), j. cbn [mbind option_bind]. rewrite Hm in Hj. split_and!; try done; lia.
Qed.

(** During the worker's queue loop every transaction of the queue is still queued for
    another attempt or was answered by exactly one TxSent or TxFailed. *)
Theorem queue_loop_accounts oracle w fuel i e w' rs j sig
  (Hcb : output_tx w = true)
  (Hrun : try_process_tx_in_queue fuel oracle i w = Some (e, w', rs, j)) :
  count_queue sig (tx_queue w) = count_queue sig (tx_queue w') + count_responses sig rs.
Proof.
  revert w i e w' rs j Hcb Hrun. induction fuel as [|fuel IH]; intros w i e w' rs j Hcb; cbn; [done|].
  destruct (tx_queue w) as [|[tx attempt] queue] eqn:Eq.
  { intros [= <- <- <- <-]. by rewrite Eq. }
  destruct (process_tx (oracle i) tx attempt (w <| tx_queue := queue |>)) as [[e1 w1] rs1] eqn:Ep.
  pose proof (process_tx_frame _ _ _ _ _ _ _ Ep) as (_ & Ho & _).
  assert (count_queue sig ((tx, attempt) :: queue) =
          count_queue sig (tx_queue w1) + count_responses sig rs1) as Hstep.
  { apply process_tx_queue in Ep as [(-> & r & -> & _ & Hr)|(_ & -> & ->)]; upd_simpl_all.
    - unfold call_back, count_queue, count_responses. upd_simpl. rewrite Hcb. cbn [foldr fst].
      rewrite Hr. lia.
    - autorewrite with jet_count. unfold count_queue, count_responses. cbn [foldr fst]. lia. }
  rewrite Hstep. destruct e1 as [e1|]; [by intros [= <- <- <- <-]|].
  destruct (try_process_tx_in_queue fuel oracle (S i) w1) as [[[[e2 w2] rs2] j2]|] eqn:Er; cbn; [|done].
  intros [= <- <- <- <-]. rewrite (IH _ _ _ _ _ _ (eq_trans Ho Hcb) Er), count_responses_app. lia.
Qed.

End Worker.
Export (hints) Worker.
