(* ===== verification/Driver.v ===== *)
(** [TpuSenderDriver] of [crates/tpu-client/src/core.rs]: the state of the
    event-loop driver and its handlers, as functions on that state.  The
    services it consults are interfaces; spawned tasks, channels, notifications
    and callback calls are recorded in [rt].  [now] is the handler's reading of
    the clock. *)
From S2P Require Import Prelude Types StakedSet OrphanSet EvictionSet Eviction Runtime Worker.

Class ValidatorStakeInfoService (S : Type) := get_stake_info : S → N → option N.
(** Whether a response callback was given ([Option<CB>] of [TpuSenderDriver<CB>]). *)
Class ResponseOutlet := response_outlet : bool.
Class UpcomingLeaderPredictor (P : Type) := try_predict_next_n_leaders : P → nat → list N.

Inductive IgnorantLeaderPredictor := ignorant.
#[export] Instance ignorant_predictor : UpcomingLeaderPredictor IgnorantLeaderPredictor :=
  λ _ _, [].

(** [Result<(Id, T), JoinError>]: both sides carry the task id. *)
Inductive JoinResult (T : Type) := JoinOk (id : N) (res : T) | JoinErr (id : N).
Arguments JoinOk {T} _ _.
Arguments JoinErr {T} _.

Module Driver.

Record ConnectingMeta := {
  current_client_identity : N;
  multiplexed_remote_peer_identity_vec : list N;
  remote_peer_address : N;
  connection_attempt : nat
}.

Record ConnectingTask := {
  ct_remote_peer_identity : N;
  ct_remote_peer_addr : N;
  connection_timeout : N;
  wait_for_eviction : option N;
  endpoint : nat
}.

Record TxWorkerSenderHandle := {
  h_remote_peer_addr : N;
  h_connection_version : N;
  sender : N;
  h_cancel_notify : N
}.

Record WaitingEviction := { we_remote_peer_addr : N; notify : N }.

Inductive RemotePeerAddrWatcherCommand :=
  | RegisterWatch (peer addr : N)
  | DeregisterWatch (peer : N).

(** The task that sees the detached workers of an old identity to their end. *)
Record GracefulDrop := mk_gd {
  gd_worker_meta : gmap N N;
  gd_worker_set : gmap N Worker.QuicTxSenderWorker;
  gd_queues : gmap N (list (TpuSenderTxn * nat))
}.
#[export] Instance GracefulDrop_settable : Settable GracefulDrop := λ r,
  mk_gd (gd_worker_meta r) (gd_worker_set r) (gd_queues r).

Section Driver.
Context `{HI : HashIter} {RO : ResponseOutlet}.
Context {Ch : Type} `{MC : Mpsc Ch TpuSenderTxn}.

(** The runtime as the driver affects it: the name supply of tasks, channels
    and notifications, the channels, the notifications posted, the callback
    calls, the connections closed and the commands to the address watcher. *)
Record Runtime := mk_rt {
  next_id : N;
  channels : gmap N Ch;
  notified : gset N;
  responses : list TpuSenderResponse;
  closed_connections : list N;
  watcher_cmds : list RemotePeerAddrWatcherCommand
}.
#[export] Instance Runtime_settable : Settable Runtime := λ r,
  mk_rt (next_id r) (channels r) (notified r) (responses r) (closed_connections r)
        (watcher_cmds r).

Record TpuSenderDriver := mk_driver {
  tx_worker_handle_map : gmap N TxWorkerSenderHandle;
  active_staked_sorted_remote_peer : StakedSet.StakedSortedSet N;
  tx_worker_task_meta_map : gmap N N;
  tx_worker_set : gmap N Worker.QuicTxSenderWorker;
  tx_queues : gmap N (list (TpuSenderTxn * nat));
  connecting_tasks : gmap N ConnectingTask;
  connecting_meta : gmap N ConnectingMeta;
  connecting_remote_peers : gmap N N;
  connecting_remote_peers_addr : gmap N N;
  identity : N;
  tasklet : gmap N GracefulDrop;
  tasklet_meta : gset N;
  last_peer_activity : gmap N N;
  being_evicted_peers : gset N;
  connecting_blocked_by_eviction_list : list WaitingEviction;
  next_leader_prediction_deadline : N;
  connection_map : gmap N ActiveConnection;
  connection_version : N;
  endpoint_sequence : nat;
  pending_connection_eviction_set : EvictionSet.ConnectionEvictionSet;
  active_staked_sorted_remote_peer_addr : StakedSet.StakedSortedSet N;
  orphan_connection_set : OrphanSet.OrphanConnectionSet;
  rt : Runtime
}.
#[export] Instance TpuSenderDriver_settable : Settable TpuSenderDriver := λ d,
  mk_driver (tx_worker_handle_map d) (active_staked_sorted_remote_peer d)
    (tx_worker_task_meta_map d) (tx_worker_set d) (tx_queues d) (connecting_tasks d)
    (connecting_meta d) (connecting_remote_peers d) (connecting_remote_peers_addr d)
    (identity d) (tasklet d) (tasklet_meta d) (last_peer_activity d) (being_evicted_peers d)
    (connecting_blocked_by_eviction_list d) (next_leader_prediction_deadline d)
    (connection_map d) (connection_version d) (endpoint_sequence d)
    (pending_connection_eviction_set d) (active_staked_sorted_remote_peer_addr d)
    (orphan_connection_set d) (rt d).

Context `{SI : ValidatorStakeInfoService Stake} `{TI : LeaderTpuInfoService Tpu}.
Context `{ES : !Eviction.ConnectionEvictionStrategy Strategy} `{LP : UpcomingLeaderPredictor Pred}.

Record Env := {
  config : TpuSenderConfig;
  stake_info_map : Stake;
  leader_tpu_info_service : Tpu;
  eviction_strategy : Strategy;
  leader_predictor : Pred
}.
Implicit Types (env : Env) (d : TpuSenderDriver).

(** [TpuSenderDriverSpawner::spawn_on]: the driver as it is started. *)
Definition initial (identity now : N) : TpuSenderDriver :=
  mk_driver ∅ StakedSet.empty ∅ ∅ ∅ ∅ ∅ ∅ ∅ identity ∅ ∅ ∅ ∅ [] now ∅ 0%N 0 EvictionSet.empty
    StakedSet.empty OrphanSet.empty (mk_rt 0%N ∅ ∅ [] [] []).

(** ** The runtime's side of a handler *)
Definition fresh (d : TpuSenderDriver) : N * TpuSenderDriver :=
  (next_id (rt d), d <| rt ::= λ r, r <| next_id ::= N.succ |> |>).
Definition notify_one (n : N) (d : TpuSenderDriver) : TpuSenderDriver :=
  d <| rt ::= λ r, r <| notified ::= union {[n]} |> |>.
Definition watch (c : RemotePeerAddrWatcherCommand) (d : TpuSenderDriver) : TpuSenderDriver :=
  d <| rt ::= λ r, r <| watcher_cmds ::= λ l, l ++ [c] |> |>.
Definition close_connection (c : N) (d : TpuSenderDriver) : TpuSenderDriver :=
  d <| rt ::= λ r, r <| closed_connections ::= λ l, l ++ [c] |> |>.
Definition call_back (resp : TpuSenderResponse) (d : TpuSenderDriver) : TpuSenderDriver :=
  if response_outlet then d <| rt ::= λ r, r <| responses ::= λ l, l ++ [resp] |> |> else d.

Definition get_quic_dest_addr env (peer : N) : option N :=
  Types.get_quic_dest_addr (leader_tpu_info_service env) peer (tpu_port (config env)).

(** ** Queues *)
Definition drop_peer_queued_tx (peer : N) (reason : TxDropReason) (d : TpuSenderDriver)
    : TpuSenderDriver :=
  match tx_queues d !! peer with
  | None => d
  | Some queue => call_back (TxDrop peer reason queue) (d <| tx_queues ::= delete peer |>)
  end.

Definition drop_single_tx (peer : N) (tx : TpuSenderTxn) (attempt : nat)
    (reason : TxDropReason) (d : TpuSenderDriver) : TpuSenderDriver :=
  call_back (TxDrop peer reason [(tx, attempt)]) d.

Definition queue_tx_or_drop env (peer : N) (tx : TpuSenderTxn) (attempt : nat)
    (d : TpuSenderDriver) : bool * TpuSenderDriver :=
  let queued_len := from_option length 0 (tx_queues d !! peer) in
  if decide (transaction_sender_worker_channel_capacity (config env) ≤ queued_len)
  then (false, drop_single_tx peer tx attempt RateLimited d)
  else (true, d <| tx_queues ::= λ q, <[peer := default [] (q !! peer) ++ [(tx, attempt)]]> q |>).

Definition unreachable_peer (peer : N) (d : TpuSenderDriver) : TpuSenderDriver :=
  drop_peer_queued_tx peer RemotePeerUnreachable d.

Definition max_concurrent_connection env : nat := Types.max_concurrent_connection (config env).
Definition has_connection_capacity env (d : TpuSenderDriver) : bool :=
  bool_decide (size (connection_map d) < max_concurrent_connection env).

Definition next_connection_version (d : TpuSenderDriver) : N * TpuSenderDriver :=
  (connection_version d, d <| connection_version ::= λ v, u64_add v 1 |>).

Definition next_endpoint_idx env (d : TpuSenderDriver) : nat * TpuSenderDriver :=
  (endpoint_sequence d,
   d <| endpoint_sequence ::= λ i, (i + 1) `mod` num_endpoints (config env) |>).

(** ** Workers *)

(** The bookkeeping once the worker task is spawned: multiplexing, the two
    stake orders, the address watch, and the orphan set. *)
Definition register_worker env (peer addr version : N) (d : TpuSenderDriver) : TpuSenderDriver :=
  match connection_map d !! addr with
  | None => unreachable_peer peer d
  | Some active_conn =>
      let stake := default 0%N (get_stake_info (stake_info_map env) peer) in
      let active_conn :=
        active_conn <| multiplexed_remote_peer_identity_with_stake ::= <[peer := stake]> |> in
      let total := group_stake (multiplexed_remote_peer_identity_with_stake active_conn) in
      let d := d <| connection_map ::= <[addr := active_conn]> |>
                 <| active_staked_sorted_remote_peer_addr ::= λ s, (StakedSet.insert addr total s).2 |>
                 <| active_staked_sorted_remote_peer ::= λ s, (StakedSet.insert peer stake s).2 |> in
      let d := watch (RegisterWatch peer addr) d in
      d <| orphan_connection_set ::= λ s, (OrphanSet.remove addr version s).2 |>
  end.

(** The worker, its channel and its notification; the queued transactions
    move to the worker. Three names are drawn: channel, notification, task. *)
Definition new_worker env (peer addr : N) (active_conn : ActiveConnection) (d : TpuSenderDriver)
    : Worker.QuicTxSenderWorker := {|
  Worker.remote_peer := peer;
  Worker.remote_peer_addr := addr;
  Worker.connection := Conn.conn active_conn;
  Worker.current_client_identity := identity d;
  Worker.incoming_rx := next_id (rt d);
  Worker.output_tx := response_outlet;
  Worker.tx_queue := default [] (tx_queues d !! peer);
  Worker.cancel_notify := (next_id (rt d) + 1)%N;
  Worker.max_tx_attempt := max_send_attempt (config env);
  Worker.txn_sent := 0
|}.

Definition new_handle (addr : N) (active_conn : ActiveConnection) (d : TpuSenderDriver)
    : TxWorkerSenderHandle := {|
  h_remote_peer_addr := addr;
  h_connection_version := Conn.connection_version active_conn;
  sender := next_id (rt d);
  h_cancel_notify := (next_id (rt d) + 1)%N
|}.

Definition spawn_worker env (peer addr : N) (active_conn : ActiveConnection) (d : TpuSenderDriver)
    : TpuSenderDriver :=
  let chan := next_id (rt d) in
  let task := (chan + 2)%N in
  let w := new_worker env peer addr active_conn d in
  let handle := new_handle addr active_conn d in
  d <| rt ::= λ r, r <| next_id := (chan + 3)%N |>
         <| channels ::=
              <[chan := channel (transaction_sender_worker_channel_capacity (config env))]> |> |>
    <| tx_queues ::= delete peer |>
    <| tx_worker_set ::= <[task := w]> |>
    <| tx_worker_handle_map ::= <[peer := handle]> |>
    <| tx_worker_task_meta_map ::= <[task := peer]> |>.

Definition install_worker env (peer addr : N) (d : TpuSenderDriver) : TpuSenderDriver :=
  match tx_worker_handle_map d !! peer with
  | Some _ => d
  | None =>
      match connection_map d !! addr with
      | None => unreachable_peer peer d
      | Some active_conn =>
          register_worker env peer addr (Conn.connection_version active_conn)
            (spawn_worker env peer addr active_conn d)
      end
  end.

(** ** Connecting *)

(** No connection, no connecting task at [addr]: start one, behind an
    eviction when there is no room. *)
Definition wait_for_room env (addr : N) (d : TpuSenderDriver) : option N * TpuSenderDriver :=
  if has_connection_capacity env d then (None, d)
  else
    let '(n, d) := fresh d in
    (Some n, d <| connecting_blocked_by_eviction_list ::= λ l,
                    l ++ [{| we_remote_peer_addr := addr; notify := n |}] |>).

Definition spawn_task env (peer addr : N) (attempt : nat) (d : TpuSenderDriver)
    : TpuSenderDriver :=
  let '(wait, d) := wait_for_room env addr d in
  let '(endpoint_idx, d) := next_endpoint_idx env d in
  let meta := {|
    current_client_identity := identity d;
    multiplexed_remote_peer_identity_vec := [peer];
    remote_peer_address := addr;
    connection_attempt := attempt
  |} in
  let task := {|
    ct_remote_peer_identity := peer;
    ct_remote_peer_addr := addr;
    connection_timeout := connecting_timeout (config env);
    wait_for_eviction := wait;
    endpoint := endpoint_idx
  |} in
  let '(id, d) := fresh d in
  d <| connecting_tasks ::= <[id := task]> |>
    <| connecting_remote_peers ::= <[peer := id]> |>
    <| connecting_meta ::= <[id := meta]> |>
    <| connecting_remote_peers_addr ::= <[addr := id]> |>.

Definition push_peer (peer : N) (meta : ConnectingMeta) : ConnectingMeta := {|
  current_client_identity := current_client_identity meta;
  multiplexed_remote_peer_identity_vec := multiplexed_remote_peer_identity_vec meta ++ [peer];
  remote_peer_address := remote_peer_address meta;
  connection_attempt := connection_attempt meta
|}.

(** The code recurses once when a connecting task has lost its metadata; the
    second call no longer finds the address, so [fuel = 2] is exact. *)
Fixpoint spawn_connecting_fuel (fuel : nat) env (peer : N) (attempt : nat) (d : TpuSenderDriver)
    : TpuSenderDriver :=
  match fuel with
  | 0 => d
  | S fuel =>
      if decide (is_Some (connecting_remote_peers d !! peer)) then d else
      if decide (peer ∈ being_evicted_peers d) then d else
      if decide (is_Some (tx_worker_handle_map d !! peer)) then d else
      match get_quic_dest_addr env peer with
      | None => unreachable_peer peer d
      | Some addr =>
          if EvictionSet.contains_socket_addr addr (pending_connection_eviction_set d) then d else
          if decide (is_Some (connection_map d !! addr)) then install_worker env peer addr d else
          match connecting_remote_peers_addr d !! addr with
          | Some existing_task_id =>
              match connecting_meta d !! existing_task_id with
              | None =>
                  spawn_connecting_fuel fuel env peer attempt
                    (d <| connecting_remote_peers_addr ::= delete addr |>)
              | Some meta =>
                  d <| connecting_meta ::= <[existing_task_id := push_peer peer meta]> |>
                    <| connecting_remote_peers ::= <[peer := existing_task_id]> |>
              end
          | None => spawn_task env peer addr attempt d
          end
      end
  end.
Definition spawn_connecting := spawn_connecting_fuel 2.

(** ** Eviction *)
Definition unblock_eviction_waiting_connection (d : TpuSenderDriver) : TpuSenderDriver :=
  match connecting_blocked_by_eviction_list d with
  | [] => d
  | w :: l => notify_one (notify w) (d <| connecting_blocked_by_eviction_list := l |>)
  end.

Definition evict_multiplexed (dh : TpuSenderDriver * list N) (multiplexed_peer : N)
    : TpuSenderDriver * list N :=
  let '(d, handles) := dh in
  let d := d <| being_evicted_peers ::= union {[multiplexed_peer]} |> in
  match tx_worker_handle_map d !! multiplexed_peer with
  | Some h => (d, handles ++ [h_cancel_notify h])
  | None => (d, handles)
  end.

(** One peer of the eviction plan: its worker, and with it every worker on
    the same connection, unless the connection was re-established since. *)
Definition evict_peer (dh : TpuSenderDriver * list N) (peer : N) : TpuSenderDriver * list N :=
  let '(d, handles) := dh in
  match tx_worker_handle_map d !! peer with
  | None => dh
  | Some handle =>
      let d := d <| being_evicted_peers ::= union {[peer]} |> in
      let handles := handles ++ [h_cancel_notify handle] in
      match connection_map d !! h_remote_peer_addr handle with
      | None => (d, handles)
      | Some active_conn =>
          if decide (Conn.connection_version active_conn ≠ h_connection_version handle)
          then (d, handles)
          else
            let eviction := EvictionSet.Evict (Conn.remote_peer_addr active_conn)
                                              (Conn.connection_version active_conn) in
            let d := d <| pending_connection_eviction_set ::= λ s, (EvictionSet.insert eviction s).2 |> in
            foldl evict_multiplexed (d, handles)
              (hash_iter (dom (multiplexed_remote_peer_identity_with_stake active_conn)))
      end
  end.

Definition eviction_count_required (d : TpuSenderDriver) : nat :=
  length (connecting_blocked_by_eviction_list d)
  - EvictionSet.len (pending_connection_eviction_set d).

Definition make_eviction_plan env (now : N) (d : TpuSenderDriver) : list N :=
  let addr_map := {|
    Eviction.connection_map := Eviction.Quinn (connection_map d);
    Eviction.staked_sorted_address_set := active_staked_sorted_remote_peer_addr d
  |} in
  let eviction_plan :=
    Eviction.plan_eviction_with_addr_map (eviction_strategy env) now
      (active_staked_sorted_remote_peer d) (last_peer_activity d) (being_evicted_peers d)
      (eviction_count_required d) addr_map in
  if decide (eviction_plan = []) then
    if EvictionSet.is_empty (pending_connection_eviction_set d) then
      match min_by_key (λ c, group_stake (multiplexed_remote_peer_identity_with_stake c))
              (map_iter (connection_map d)).*2 with
      | Some c => hash_iter (dom (multiplexed_remote_peer_identity_with_stake c))
      | None => []
      end
    else []
  else eviction_plan.

Definition do_eviction_if_required env (now : N) (d : TpuSenderDriver) : TpuSenderDriver :=
  if decide (eviction_count_required d = 0) then d else
  let '(d, cancel_handles) := foldl evict_peer (d, []) (make_eviction_plan env now d) in
  foldl (λ d n, notify_one n d) d cancel_handles.

(** ** Connection results *)
Definition for_each_peer {A} (f : A → TpuSenderDriver → TpuSenderDriver) (l : list A)
    (d : TpuSenderDriver) : TpuSenderDriver := foldl (λ d p, f p d) d l.

(** A failed attempt below the limit: each peer reconnects where it is
    published now; a new address restarts the count. *)
Definition reattempt env (meta : ConnectingMeta) (peer : N) (d : TpuSenderDriver)
    : TpuSenderDriver :=
  match get_quic_dest_addr env peer with
  | None => unreachable_peer peer d
  | Some latest =>
      let attempt :=
        if decide (latest = remote_peer_address meta)
        then connection_attempt meta + 1 else 1 in
      spawn_connecting env peer attempt d
  end.

Definition forget_connecting (meta : ConnectingMeta) (id : N) (d : TpuSenderDriver)
    : TpuSenderDriver :=
  d <| connecting_meta ::= delete id |>
    <| connecting_remote_peers ::= λ m, foldl (λ m p, delete p m) m
         (multiplexed_remote_peer_identity_vec meta) |>
    <| connecting_remote_peers_addr ::= delete (remote_peer_address meta) |>.

(** [join_next_with_id] takes the finished task out of the set. *)
Definition handle_connecting_result env (result : JoinResult (N + ConnectingError))
    (d : TpuSenderDriver) : TpuSenderDriver :=
  match result with
  | JoinOk id res =>
      let d := d <| connecting_tasks ::= delete id |> in
      match connecting_meta d !! id with
      | None => d
      | Some meta =>
          let peers := multiplexed_remote_peer_identity_vec meta in
          let addr := remote_peer_address meta in
          let d := forget_connecting meta id d in
          if decide (identity d ≠ current_client_identity meta) then
            for_each_peer (λ p, spawn_connecting env p (connection_attempt meta)) peers d
          else
            match res with
            | inl conn =>
                let '(version, d) := next_connection_version d in
                let active := Conn.mk addr conn version ∅ in
                let d := d <| connection_map ::= <[addr := active]> |> in
                for_each_peer (λ p, install_worker env p addr) peers d
            | inr (CConnectError EndpointStopping) => for_each_peer unreachable_peer peers d
            | inr (CConnectionError _) =>
                if decide (connection_attempt meta < max_connection_attempts (config env))
                then for_each_peer (reattempt env meta) peers d
                else for_each_peer unreachable_peer peers d
            | inr _ => for_each_peer unreachable_peer peers d
            end
      end
  | JoinErr id =>
      let d := d <| connecting_tasks ::= delete id |> in
      match connecting_meta d !! id with
      | None => d
      | Some meta =>
          let d := d <| connecting_meta ::= delete id |>
                     <| connecting_remote_peers_addr ::= delete (remote_peer_address meta) |> in
          for_each_peer (λ p d,
            drop_peer_queued_tx p RemotePeerUnreachable
              (d <| connecting_remote_peers ::= delete p |>))
            (multiplexed_remote_peer_identity_vec meta) d
      end
  end.

(** ** Incoming transactions *)
Definition set_channel (chan : N) (c : Ch) (d : TpuSenderDriver) : TpuSenderDriver :=
  d <| rt ::= λ r, r <| channels ::= <[chan := c]> |> |>.

(** A channel whose receiver is gone is [Closed]. *)
Definition try_send_to (chan : N) (tx : TpuSenderTxn) (d : TpuSenderDriver)
    : TrySendResult * TpuSenderDriver :=
  match channels (rt d) !! chan with
  | None => (SendClosed, d)
  | Some c => let '(res, c) := try_send tx c in (res, set_channel chan c d)
  end.

Definition accept_tx env (now : N) (tx : TpuSenderTxn) (d : TpuSenderDriver) : TpuSenderDriver :=
  let peer := Txn.remote_peer tx in
  let d := d <| last_peer_activity ::= <[peer := now]> |> in
  if negb (transaction_data_size_is_valid (wire tx))
     && negb (unsafe_allow_arbitrary_txn_size (config env))
  then call_back (TxDrop peer InvalidPacketSize [(tx, 1)]) d
  else
    match tx_worker_handle_map d !! peer with
    | Some handle =>
        match try_send_to (sender handle) tx d with
        | (SendOk, d) => d
        | (SendFull, d) => call_back (TxDrop peer RateLimited [(tx, 1)]) d
        | (SendClosed, d) => (queue_tx_or_drop env peer tx 1 d).2
        end
    | None =>
        let '(queued, d) := queue_tx_or_drop env peer tx 1 d in
        if queued : bool then spawn_connecting env peer 1 d else d
    end.

(** ** Worker results *)
Definition remove_worker_from_active_connection (now addr peer expected : N)
    (d : TpuSenderDriver) : TpuSenderDriver :=
  match connection_map d !! addr with
  | None => d
  | Some active_conn =>
      if decide (Conn.connection_version active_conn ≠ expected) then d
      else
        let active_conn :=
          active_conn <| multiplexed_remote_peer_identity_with_stake ::= delete peer |> in
        let group := multiplexed_remote_peer_identity_with_stake active_conn in
        let eviction := EvictionSet.Evict addr expected in
        let marked := EvictionSet.contains eviction (pending_connection_eviction_set d) in
        let d := d <| connection_map ::= <[addr := active_conn]> |>
                   <| active_staked_sorted_remote_peer_addr ::= λ s,
                        (StakedSet.insert addr (group_stake group) s).2 |> in
        if decide (group = ∅) then
          if marked then
            let d := d <| connection_map ::= delete addr |>
                       <| pending_connection_eviction_set ::= λ s, (EvictionSet.remove eviction s).2 |> in
            let d := unblock_eviction_waiting_connection d in
            d <| active_staked_sorted_remote_peer_addr ::= λ s, (StakedSet.remove addr s).2 |>
          else
            d <| orphan_connection_set ::=
                   OrphanSet.insert {| OrphanSet.remote_peer_addr := addr;
                                       OrphanSet.connection_version := expected |} now |>
        else d
  end.

(** What is left in the worker's channel; the receiver then goes away. *)
Definition drain_channel (chan : N) (d : TpuSenderDriver) : list TpuSenderTxn * TpuSenderDriver :=
  (from_option (λ c, (recv_all c).1) [] (channels (rt d) !! chan),
   d <| rt ::= λ r, r <| channels ::= delete chan |> |>).

Definition requeue env (peer : N) (l : list (TpuSenderTxn * nat)) (d : TpuSenderDriver)
    : TpuSenderDriver :=
  for_each_peer (λ p d, (queue_tx_or_drop env peer p.1 p.2 d).2) l d.

Definition is_peer_unreachable (e : option Worker.TxSenderWorkerError) : bool :=
  match e with Some (Worker.ConnectionLost VersionMismatch) => true | _ => false end.

(** The tail of the handler: what to do with the rescued transactions. *)
Definition after_worker env (now peer : N) (e : option Worker.TxSenderWorkerError)
    (is_being_evicted : bool) (d : TpuSenderDriver) : TpuSenderDriver :=
  if is_peer_unreachable e then unreachable_peer peer d
  else if is_being_evicted then drop_peer_queued_tx peer RemotePeerBeingEvicted d
  else if decide (default [] (tx_queues d !! peer) ≠ []) then
    spawn_connecting env peer 1 (d <| last_peer_activity ::= <[peer := now]> |>)
  else d.

Definition handle_worker_result env (now : N) (result : JoinResult Worker.TxSenderWorkerCompleted)
    (d : TpuSenderDriver) : TpuSenderDriver :=
  match result with
  | JoinOk id completed =>
      let d := d <| tx_worker_set ::= delete id |> in
      match tx_worker_task_meta_map d !! id with
      | None => (drain_channel (Worker.rx completed) d).2
      | Some peer =>
          let d := d <| tx_worker_task_meta_map ::= delete id |>
                     <| active_staked_sorted_remote_peer ::= λ s, (StakedSet.remove peer s).2 |> in
          let d := watch (DeregisterWatch peer) d in
          let is_being_evicted := bool_decide (peer ∈ being_evicted_peers d) in
          let d := d <| being_evicted_peers ::= λ s, s ∖ {[peer]} |> in
          match tx_worker_handle_map d !! peer with
          | None =>
              let '(remaining, d) := drain_channel (Worker.rx completed) d in
              let d := d <| tx_queues ::= λ q,
                <[peer := default [] (q !! peer) ++ ((λ tx, (tx, 1)) <$> remaining)
                            ++ Worker.pending_tx completed]> q |> in
              unreachable_peer peer d
          | Some worker_tx =>
              let d := d <| tx_worker_handle_map ::= delete peer |> in
              let addr := h_remote_peer_addr worker_tx in
              let version := h_connection_version worker_tx in
              let d :=
                match connection_map d !! addr with
                | Some active_conn =>
                    if decide (Conn.connection_version active_conn = version)
                    then remove_worker_from_active_connection now addr peer version d else d
                | None => d
                end in
              let d := d <| last_peer_activity ::= delete peer |> in
              let '(remaining, d) := drain_channel (Worker.rx completed) d in
              let d := requeue env peer ((λ tx, (tx, 1)) <$> remaining) d in
              let d := requeue env peer (Worker.pending_tx completed) d in
              after_worker env now peer (Worker.err completed) is_being_evicted d
          end
      end
  | JoinErr id =>
      let d := d <| tx_worker_set ::= delete id |> in
      match tx_worker_task_meta_map d !! id with
      | None => d
      | Some peer =>
          unreachable_peer peer
            (d <| tx_worker_task_meta_map ::= delete id |>
               <| tx_worker_handle_map ::= delete peer |>)
      end
  end.

(** ** Identity changes *)

(** The workers, their queues and the transactions waiting for a connection
    move to a detached task; the driver starts over. *)
Definition schedule_graceful_drop_all_worker (d : TpuSenderDriver) : TpuSenderDriver :=
  let gd := mk_gd (tx_worker_task_meta_map d) (tx_worker_set d) (tx_queues d) in
  let '(id, d) := fresh d in
  d <| tx_worker_task_meta_map := ∅ |> <| tx_worker_handle_map := ∅ |>
    <| tx_worker_set := ∅ |> <| tx_queues := ∅ |>
    <| active_staked_sorted_remote_peer ::= StakedSet.clear |>
    <| tasklet ::= <[id := gd]> |> <| tasklet_meta ::= union {[id]} |>.

(** One iteration of the detached task: a worker of [gd] has ended. *)
Definition graceful_drop_step (tid : N) (result : JoinResult Worker.TxSenderWorkerCompleted)
    (d : TpuSenderDriver) : TpuSenderDriver :=
  match tasklet d !! tid with
  | None => d
  | Some gd =>
      let id := match result with JoinOk id _ => id | JoinErr id => id end in
      let gd := gd <| gd_worker_set ::= delete id |> in
      match gd_worker_meta gd !! id with
      | None =>
          let d := match result with
                   | JoinOk _ completed => (drain_channel (Worker.rx completed) d).2
                   | JoinErr _ => d
                   end in
          d <| tasklet ::= <[tid := gd]> |>
      | Some peer =>
          let '(inflight, d) :=
            match result with
            | JoinOk _ completed =>
                let '(canceled, d) := drain_channel (Worker.rx completed) d in
                (((λ tx, (tx, 1)) <$> canceled) ++ Worker.pending_tx completed, d)
            | JoinErr _ => ([], d)
            end in
          let queue := default [] (gd_queues gd !! peer) ++ inflight in
          let gd := gd <| gd_worker_meta ::= delete id |> <| gd_queues ::= delete peer |> in
          call_back (TxDrop peer DriverIdentityChanged queue) (d <| tasklet ::= <[tid := gd]> |>)
      end
  end.

(** The detached task returns once its set of workers is empty. *)
Definition graceful_drop_done (tid : N) (d : TpuSenderDriver) : Prop :=
  ∃ gd, tasklet d !! tid = Some gd ∧ gd_worker_set gd = ∅.

(** [update_identity] up to the barrier ... *)
Definition install_identity (new_identity : N) (d : TpuSenderDriver)
    : gmap N ConnectingMeta * TpuSenderDriver :=
  let d := schedule_graceful_drop_all_worker d in
  let d := d <| connection_map := ∅ |>
             <| orphan_connection_set ::= OrphanSet.clear |>
             <| being_evicted_peers := ∅ |>
             <| pending_connection_eviction_set ::= EvictionSet.clear |>
             <| connecting_tasks := ∅ |>
             <| connecting_remote_peers := ∅ |>
             <| connecting_remote_peers_addr := ∅ |>
             <| connecting_blocked_by_eviction_list := [] |>
             <| active_staked_sorted_remote_peer_addr ::= StakedSet.clear |> in
  let metas := connecting_meta d in
  (metas, d <| connecting_meta := ∅ |> <| identity := new_identity |>).

(** ... and after it: the connection attempts in flight are replayed. *)
Definition replay_connecting env (metas : gmap N ConnectingMeta) (d : TpuSenderDriver)
    : TpuSenderDriver :=
  for_each_peer (λ meta,
    for_each_peer (λ p, spawn_connecting env p (connection_attempt meta))
      (multiplexed_remote_peer_identity_vec meta))
    (map_iter metas).*2 d.

Definition update_identity env (new_identity : N) (d : TpuSenderDriver) : TpuSenderDriver :=
  let '(metas, d) := install_identity new_identity d in replay_connecting env metas d.

Inductive DriverCommand :=
  | UpdateIdentity (new_identity : N)
  | MultiStepIdentitySynchronization (new_identity : N).

(** The two commands differ in the future awaited between the two halves. *)
Definition handle_cnc env (command : DriverCommand) (d : TpuSenderDriver) : TpuSenderDriver :=
  match command with
  | UpdateIdentity new_identity => update_identity env new_identity d
  | MultiStepIdentitySynchronization new_identity => update_identity env new_identity d
  end.

Definition handle_tasklet_result (result : JoinResult unit) (d : TpuSenderDriver)
    : TpuSenderDriver :=
  let id := match result with JoinOk id _ => id | JoinErr id => id end in
  d <| tasklet ::= delete id |> <| tasklet_meta ::= λ s, s ∖ {[id]} |>.

(** ** Address changes *)
Definition addr_changed env (peer : N) (d : TpuSenderDriver) : TpuSenderDriver :=
  match tx_worker_handle_map d !! peer with
  | None => d
  | Some handle =>
      match get_quic_dest_addr env peer with
      | Some new_addr =>
          if decide (new_addr ≠ h_remote_peer_addr handle)
          then notify_one (h_cancel_notify handle) d else d
      | None =>
          let d := notify_one (h_cancel_notify handle) d in
          let eviction := EvictionSet.Evict (h_remote_peer_addr handle) (h_connection_version handle) in
          d <| pending_connection_eviction_set ::= λ s, (EvictionSet.insert eviction s).2 |>
      end
  end.

Definition handle_remote_peer_addr_change env (changed : gset N) (d : TpuSenderDriver)
    : TpuSenderDriver :=
  for_each_peer (addr_changed env) (hash_iter changed) d.

(** ** Leader prediction *)
Definition predict_leader env (dv : TpuSenderDriver * gset N) (leader : N)
    : TpuSenderDriver * gset N :=
  let '(d, visited) := dv in
  let connectish := bool_decide (is_Some (tx_worker_handle_map d !! leader))
                    || bool_decide (is_Some (connecting_remote_peers d !! leader)) in
  if decide (leader ∈ visited) then (d, visited)
  else
    let visited := {[leader]} ∪ visited in
    (if connectish then d else spawn_connecting env leader 1 d, visited).

Definition try_predict_upcoming_leaders_if_necessary env (now : N) (d : TpuSenderDriver)
    : TpuSenderDriver :=
  if (now <? next_leader_prediction_deadline d)%N then d else
  match leader_prediction_lookahead (config env) with
  | Some lh =>
      let d := d <| next_leader_prediction_deadline := (now + LEADER_PREDICTION_REFRESH_INTERVAL)%N |> in
      (foldl (predict_leader env) (d, ∅)
         (try_predict_next_n_leaders (leader_predictor env) lh)).1
  | None => d <| next_leader_prediction_deadline := (now + FOREVER)%N |>
  end.

(** ** Orphan connections *)
Definition next_orphan_connection_expiration env (d : TpuSenderDriver) : option N :=
  oldest ← OrphanSet.oldest (orphan_connection_set d);
  Some (oldest + orphan_connection_ttl (config env))%N.

(** [None] is the failing [assert!]: the evicted connection has peers. *)
Definition evict_orphan (info : OrphanSet.OrphanConnectionInfo) (d : TpuSenderDriver)
    : option TpuSenderDriver :=
  let addr := OrphanSet.remote_peer_addr info in
  match connection_map d !! addr with
  | None => Some d
  | Some active_conn =>
      if decide (Conn.connection_version active_conn ≠ OrphanSet.connection_version info)
      then Some d
      else if decide (multiplexed_remote_peer_identity_with_stake active_conn ≠ ∅) then Some d
      else
        match connection_map d !! addr with
        | None => Some d
        | Some active_conn =>
            let d := d <| connection_map ::= delete addr |> in
            if decide (multiplexed_remote_peer_identity_with_stake active_conn = ∅)
            then Some (unblock_eviction_waiting_connection (close_connection (Conn.conn active_conn) d))
            else None
        end
  end.

Fixpoint evict_orphans (infos : list OrphanSet.OrphanConnectionInfo) (d : TpuSenderDriver)
    : option TpuSenderDriver :=
  match infos with
  | [] => Some d
  | info :: infos => d ← evict_orphan info d; evict_orphans infos d
  end.

(** Each round pops one instant, so the number of instants is enough fuel. *)
Fixpoint try_evict_orphan_fuel (fuel : nat) env (now : N) (d : TpuSenderDriver)
    : option TpuSenderDriver :=
  match fuel with
  | 0 => None
  | S fuel =>
      match OrphanSet.oldest (orphan_connection_set d) with
      | None => Some d
      | Some oldest =>
          if (now <? oldest + orphan_connection_ttl (config env))%N then Some d
          else
            match OrphanSet.pop (orphan_connection_set d) with
            | (None, s) => Some (d <| orphan_connection_set := s |>)
            | (Some infos, s) =>
                d ← evict_orphans infos (d <| orphan_connection_set := s |>);
                try_evict_orphan_fuel fuel env now d
            end
      end
  end.
Definition try_evict_orphan_connections env (now : N) (d : TpuSenderDriver)
    : option TpuSenderDriver :=
  try_evict_orphan_fuel (S (OrphanSet.curr_len (orphan_connection_set d))) env now d.

(** ** The event loop *)
Inductive DriverEvent :=
  | EvTx (tx : TpuSenderTxn)
  | EvInletClosed
  | EvSleepTimer
  | EvPredictionTimer
  | EvCommand (c : DriverCommand)
  | EvWorker (r : JoinResult Worker.TxSenderWorkerCompleted)
  | EvConnecting (r : JoinResult (N + ConnectingError))
  | EvTasklet (r : JoinResult unit)
  | EvAddrChanges (changes : gset N).

(** The loop's local state: the driver and its two timers' deadlines. *)
Record LoopState := mk_loop {
  driver : TpuSenderDriver;
  sleep_timer : option N;
  leader_prediction_timer : option N
}.
#[export] Instance LoopState_settable : Settable LoopState := λ r,
  mk_loop (driver r) (sleep_timer r) (leader_prediction_timer r).

Definition arm_timers env (now : N) (s : LoopState) : LoopState :=
  let s := s <| leader_prediction_timer :=
                  match leader_prediction_lookahead (config env) with
                  | Some _ => Some (next_leader_prediction_deadline (driver s))
                  | None => None
                  end |> in
  match next_orphan_connection_expiration env (driver s) with
  | Some expiration =>
      match sleep_timer s with
      | None => s <| sleep_timer := Some (now + (expiration - now))%N |>
      | Some _ => s
      end
  | None => s <| sleep_timer := None |>
  end.

Definition before_select env (now : N) (s : LoopState) : LoopState :=
  arm_timers env now
    (s <| driver ::= λ d, try_predict_upcoming_leaders_if_necessary env now
                            (do_eviction_if_required env now d) |>).

(** A branch of the [select!]. [inr] is the [break] on a closed inlet;
    [None] an assertion failure. *)
Definition select_branch env (now : N) (ev : DriverEvent) (s : LoopState)
    : option (LoopState + TpuSenderDriver) :=
  let continue f := Some (inl (s <| driver ::= f |>)) in
  match ev with
  | EvTx tx => continue (accept_tx env now tx)
  | EvInletClosed => Some (inr (driver s))
  | EvSleepTimer =>
      d ← try_evict_orphan_connections env now (driver s);
      Some (inl (s <| driver := d |> <| sleep_timer := None |>))
  | EvPredictionTimer => Some (inl (s <| leader_prediction_timer := None |>))
  | EvCommand c => continue (handle_cnc env c)
  | EvWorker r => continue (handle_worker_result env now r)
  | EvConnecting r => continue (handle_connecting_result env r)
  | EvTasklet r => continue (handle_tasklet_result r)
  | EvAddrChanges changes => continue (handle_remote_peer_addr_change env changes)
  end.

Definition loop_iteration env (now : N) (ev : DriverEvent) (s : LoopState)
    : option (LoopState + TpuSenderDriver) :=
  select_branch env now ev (before_select env now s).

(** [run] over a given sequence of events, each with its service answers and
    clock; after the break the workers are handed to a detached task. *)
Fixpoint run (evs : list (Env * N * DriverEvent)) (s : LoopState) : option TpuSenderDriver :=
  match evs with
  | [] => Some (driver s)
  | (env, now, ev) :: evs =>
      r ← loop_iteration env now ev s;
      match r with
      | inl s => run evs s
      | inr d => Some (schedule_graceful_drop_all_worker d)
      end
  end.
End Driver. End Driver.
