(* ===== verification/Watcher.v ===== *)
(** [RemotePeerAddrWatcher] of [crates/tpu-client/src/core.rs]: the driver's
    handle, the shared set of changes, and the task that polls the address
    service. The handle sends commands over an unbounded channel; the task posts
    changes under a lock together with a one-permit notification; the driver
    takes them all at once. *)
From S2P Require Import Prelude Types Driver.
Import Driver.

Module Watcher.

Record Watcher := mk {
  changes : gset N;
  cnc : list RemotePeerAddrWatcherCommand;
  peers_to_watch_map : gmap N N;
  permit : bool;
  woken : bool
}.
#[export] Instance Watcher_settable : Settable Watcher := λ r,
  mk (changes r) (cnc r) (peers_to_watch_map r) (permit r) (woken r).

Definition new : Watcher := mk ∅ [] ∅ false false.

(** ** The driver's side *)
Definition register_watch (remote_peer addr : N) (w : Watcher) : Watcher :=
  w <| cnc ::= λ l, l ++ [RegisterWatch remote_peer addr] |>.
Definition forget (remote_peer : N) (w : Watcher) : Watcher :=
  w <| cnc ::= λ l, l ++ [DeregisterWatch remote_peer] |>.

(** [notified]: consume the permit, then take the set under the lock. *)
Definition wake (w : Watcher) : option Watcher :=
  if permit w then Some (w <| permit := false |> <| woken := true |>) else None.
Definition take_changes (w : Watcher) : option (gset N * Watcher) :=
  if woken w then Some (changes w, w <| changes := ∅ |> <| woken := false |>) else None.

(** ** The task's side *)
Definition handle_cnc (command : RemotePeerAddrWatcherCommand) (w : Watcher) : Watcher :=
  match command with
  | RegisterWatch pubkey initial_addr =>
      match peers_to_watch_map w !! pubkey with
      | Some _ => w
      | None => w <| peers_to_watch_map ::= <[pubkey := initial_addr]> |>
      end
  | DeregisterWatch pubkey => w <| peers_to_watch_map ::= delete pubkey |>
  end.

Definition recv (w : Watcher) : option Watcher :=
  match cnc w with
  | [] => None
  | c :: l => Some (handle_cnc c (w <| cnc := l |>))
  end.

Section Poll.
Context `{HI : HashIter} `{TI : LeaderTpuInfoService Tpu}.

(** The peers no longer published at the address they are watched at. *)
Definition moved (service : Tpu) (kind : TpuPortKind) (peer last_known_addr : N) : bool :=
  match Types.get_quic_dest_addr service peer kind with
  | Some new_addr => negb (new_addr =? last_known_addr)%N
  | None => true
  end.

Definition diff (service : Tpu) (kind : TpuPortKind) (m : gmap N N) : list N :=
  (filter (λ pa : N * N, moved service kind pa.1 pa.2) (map_iter m)).*1.

Definition report (w : Watcher) (pubkey : N) : Watcher :=
  match peers_to_watch_map w !! pubkey with
  | None => w
  | Some _ => w <| peers_to_watch_map ::= delete pubkey |> <| changes ::= union {[pubkey]} |>
  end.

Definition update_peers_to_watch (service : Tpu) (kind : TpuPortKind) (w : Watcher) : Watcher :=
  match diff service kind (peers_to_watch_map w) with
  | [] => w
  | l => (foldl report w l) <| permit := true |>
  end.

Inductive step : Watcher → Watcher → Prop :=
  | st_register p a w : step w (register_watch p a w)
  | st_forget p w : step w (forget p w)
  | st_recv w w' : recv w = Some w' → step w w'
  | st_tick service kind w : step w (update_peers_to_watch service kind w)
  | st_wake w w' : wake w = Some w' → step w w'
  | st_take w s w' : take_changes w = Some (s, w') → step w w'.

(** ** Lemmas *)
Lemma elem_of_diff service kind m p :
  p ∈ diff service kind m ↔ ∃ a, m !! p = Some a ∧ moved service kind p a = true.
Proof.
  unfold diff. rewrite list_elem_of_fmap. split.
  - intros ([q a] & -> & [Hm Hin]%list_elem_of_filter). exists a. cbn in *.
    split; [by apply elem_of_map_iter|by apply Is_true_true].
  - intros (a & Hp & Hm). exists (p, a). split; [done|]. apply list_elem_of_filter. cbn.
    split; [by apply Is_true_true|by apply elem_of_map_iter].
Qed.

Lemma report_all l w : (∀ p, p ∈ l → is_Some (peers_to_watch_map w !! p)) → NoDup l →
  (∀ p, peers_to_watch_map (foldl report w l) !! p =
        if decide (p ∈ l) then None else peers_to_watch_map w !! p) ∧
  changes (foldl report w l) = list_to_set l ∪ changes w ∧
  cnc (foldl report w l) = cnc w ∧ woken (foldl report w l) = woken w.
Proof.
  intros Hin Hnd. revert w Hin. induction Hnd as [|p l Hp Hnd IH]; intros w Hin; cbn [foldl].
  { split_and!; try done. cbn. set_solver. }
  destruct (Hin p) as [a Ha]; [left|].
  assert (report w p = w <| peers_to_watch_map ::= delete p |> <| changes ::= union {[p]} |>) as Er
    by (unfold report; by rewrite Ha).
  assert (peers_to_watch_map (report w p) = delete p (peers_to_watch_map w) ∧
    changes (report w p) = {[p]} ∪ changes w ∧ cnc (report w p) = cnc w ∧ woken (report w p) = woken w)
    as (E1 & E2 & E3 & E4) by (by rewrite Er).
  destruct (IH (report w p)) as (F1 & F2 & F3 & F4).
  { intros q Hq. rewrite E1, lookup_delete_ne; [apply Hin; by right|]. by intros ->. }
  split_and!; try congruence.
  - intros q. rewrite F1, E1, lookup_delete. repeat case_decide; set_solver.
  - rewrite F2, E2. cbn. set_solver.
Qed.

Lemma diff_NoDup service kind m : NoDup (diff service kind m).
Proof.
  unfold diff. apply NoDup_fmap_2_strong; [|apply NoDup_filter, NoDup_map_iter].
  intros [p a] [q b] [_ Hp]%list_elem_of_filter [_ Hq]%list_elem_of_filter; cbn. intros <-.
  apply elem_of_map_iter in Hp. apply elem_of_map_iter in Hq. congruence.
Qed.

(** A poll reports exactly the peers that moved, and stops watching them. *)
Lemma update_spec service kind w :
  let w' := update_peers_to_watch service kind w in
  (∀ p, p ∈ changes w' ↔ p ∈ changes w ∨
     ∃ a, peers_to_watch_map w !! p = Some a ∧ moved service kind p a = true) ∧
  (∀ p a, peers_to_watch_map w' !! p = Some a ↔
     peers_to_watch_map w !! p = Some a ∧ moved service kind p a = false) ∧
  (permit w' = true ↔ permit w = true ∨
     ∃ p a, peers_to_watch_map w !! p = Some a ∧ moved service kind p a = true) ∧
  cnc w' = cnc w ∧ woken w' = woken w.
Proof.
  cbv zeta. unfold update_peers_to_watch.
  pose proof (elem_of_diff service kind (peers_to_watch_map w)) as Hdiff.
  pose proof (diff_NoDup service kind (peers_to_watch_map w)) as Hnd.
  destruct (diff service kind (peers_to_watch_map w)) as [|p0 l0] eqn:Ed.
  - assert (∀ p a, peers_to_watch_map w !! p = Some a → moved service kind p a = false) as Hno.
    { intros p a Hp. destruct (moved service kind p a) eqn:Em; [|done].
      assert (p ∈ []) as Hin by (apply Hdiff; eauto). by apply elem_of_nil in Hin. }
    split_and!; try done.
    + intros p. split; [by left|]. intros [?|(a & Hp & Hm)]; [done|]. by rewrite (Hno p a Hp) in Hm.
    + intros p a. split; [eauto|by intros []].
    + split; [by left|]. intros [?|(p & a & Hp & Hm)]; [done|]. by rewrite (Hno p a Hp) in Hm.
  - assert (p0 ∈ p0 :: l0) as Hp1 by left. set (l := p0 :: l0) in *. clearbody l. rename p0 into p1.
    destruct (report_all l w) as (F1 & F2 & F3 & F4); [|done|].
    { intros p (a & Hp & _)%Hdiff. eauto. }
    upd_simpl. split_and!; try done.
    + intros p. rewrite F2, elem_of_union, elem_of_list_to_set, Hdiff. tauto.
    + intros p a. rewrite F1. case_decide as Hp.
      * apply Hdiff in Hp as (b & Hb & Hm). split; [done|]. intros [Ha Hm']. congruence.
      * split; [|by intros []]. intros Ha. split; [done|].
        destruct (moved service kind p a) eqn:Em; [|done]. destruct Hp. apply Hdiff. eauto.
    + split; [|done]. intros _. right. apply Hdiff in Hp1 as (a & ? & ?). eauto.
Qed.

(** ** No change is lost *)
Definition wf (w : Watcher) : Prop := changes w ≠ ∅ → permit w = true ∨ woken w = true.

Lemma wf_step w w' : step w w' → wf w → wf w'.
Proof.
  intros Hs Hw. destruct Hs as [p a w|p w|w w' Hr|service kind w|w w' Hwk|w s w' Ht]; unfold wf in *.
  - done.
  - done.
  - unfold recv in Hr. destruct (cnc w) as [|[p a|p] l]; [done|..]; injection Hr as <-.
    + unfold handle_cnc. upd_simpl. by destruct (peers_to_watch_map w !! p).
    + done.
  - destruct (update_spec service kind w) as (Hch & _ & Hp & _ & Hwk). rewrite Hwk, Hp.
    intros Hne. destruct (decide (changes w = ∅)) as [He|Hn]; [|destruct (Hw Hn); auto].
    apply set_choose_L in Hne as [p Hin]. apply Hch in Hin as [Hin|(a & Ha & Hm)]; [|left; eauto].
    rewrite He in Hin. by apply elem_of_empty in Hin.
  - unfold wake in Hwk. destruct (permit w); [|done]. injection Hwk as <-. upd_simpl. by right.
  - unfold take_changes in Ht. destruct (woken w); [|done]. injection Ht as <- <-. upd_simpl. done.
Qed.

End Poll.

(** A watched peer whose published address moved or vanished is in the set that the next
    notification delivers, its watch is spent, and exactly the watches of unmoved peers
    remain. *)
Theorem address_change_is_delivered `{HI : HashIter} `{TI : LeaderTpuInfoService Tpu}
  (service : Tpu) kind w p a (Hp : peers_to_watch_map w !! p = Some a)
  (Hmoved : Types.get_quic_dest_addr service p kind ≠ Some a) (Hidle : woken w = false) :
  let w1 := update_peers_to_watch service kind w in
  ∃ w2 s w3, wake w1 = Some w2 ∧ take_changes w2 = Some (s, w3) ∧ p ∈ s ∧
    changes w3 = ∅ ∧ peers_to_watch_map w3 !! p = None ∧
    ∀ q b, peers_to_watch_map w3 !! q = Some b ↔
      peers_to_watch_map w !! q = Some b ∧ Types.get_quic_dest_addr service q kind = Some b.
Proof.
  cbv zeta. destruct (update_spec service kind w) as (Hch & Hmap & Hper & _ & Hwk).
  assert (∀ q b, moved service kind q b = false ↔ Types.get_quic_dest_addr service q kind = Some b) as Hmv.
  { intros q b. unfold moved. destruct (Types.get_quic_dest_addr service q kind) as [x|]; [|done].
    destruct (N.eqb_spec x b); naive_solver. }
  assert (moved service kind p a = true) as Hm.
  { destruct (moved service kind p a) eqn:E; [done|]. by apply Hmv in E. }
  assert (permit (update_peers_to_watch service kind w) = true) as Hpt by (apply Hper; eauto).
  unfold wake. rewrite Hpt. eexists _, _, _. split; [done|]. unfold take_changes. upd_simpl.
  split; [done|]. upd_simpl. split_and!; [apply Hch; eauto|done| |].
  - destruct (peers_to_watch_map (update_peers_to_watch service kind w) !! p) as [b|] eqn:E; [|done].
    apply Hmap in E as [Hb Hm']. congruence.
  - intros q b. by rewrite Hmap, Hmv.
Qed.

(** C23: In every interleaving of the watcher task and the driver, a non-empty set of
    changes comes with a notification permit or a driver already woken, so that no change
    waits unseen. *)
Theorem no_change_without_notification `{HI : HashIter} `{TI : LeaderTpuInfoService Tpu} w
  (Hr : rtc (step (Tpu := Tpu)) new w) : changes w ≠ ∅ → permit w = true ∨ woken w = true.
Proof.
  enough (∀ w0, rtc step w0 w → wf w0 → wf w) as Hgen
    by (apply (Hgen new Hr); by intros []).
  clear Hr. intros w0 Hr. induction Hr as [|w0 w1 w2 Hs _ IH]; [done|]. intros H0. by eapply IH, wf_step.
Qed.

(** A watch registered over an old one keeps the old address: the first poll reports a
    change that the driver has already applied, and drops the watch. *)
Theorem stale_watch_hides_later_moves `{HI : HashIter} `{TI : LeaderTpuInfoService Tpu}
  service kind w p old a (Hold : peers_to_watch_map w !! p = Some old) (Hne : old ≠ a)
  (Hsvc : Types.get_quic_dest_addr service p kind = Some a) :
  let w' := update_peers_to_watch service kind (handle_cnc (RegisterWatch p a) w) in
  p ∈ changes w' ∧ peers_to_watch_map w' !! p = None.
Proof.
  cbv zeta. cbn [handle_cnc]. rewrite Hold.
  destruct (update_spec service kind w) as (Hch & Hmap & _).
  assert (moved service kind p old = true) as Hm.
  { unfold moved. rewrite Hsvc. destruct (N.eqb_spec a old); [congruence|done]. }
  split; [apply Hch; eauto|].
  destruct (peers_to_watch_map (update_peers_to_watch service kind w) !! p) as [b|] eqn:E; [|done].
  apply Hmap in E as [Hb Hm']. congruence.
Qed.
End Watcher.
