(* ===== verification/Updater.v ===== *)
(** [TpuSenderIdentityUpdater] and [IdentityUpdatePermit] of
    [crates/tpu-client/src/core.rs]: identity updates sent to the driver over a
    bounded channel. A barrier update holds a permit, an atomic flag that is set
    by compare-and-swap and cleared when the permit is dropped, wherever that
    happens: with the caller's future, with the channel, or after the barrier. *)
From S2P Require Import Prelude.

Module Updater.

Inductive UpdateIdentityError := RuntimeClosed | InProgress.

(** A command with the oneshot sender of its caller. The barrier command owns
    the permit. *)
Inductive Command :=
  | UpdateIdentity (new_identity callback : N)
  | MultiStep (new_identity arrived : N).

Definition holds_permit (c : Command) : bool :=
  match c with MultiStep _ _ => true | UpdateIdentity _ _ => false end.
Definition reply_to (c : Command) : N :=
  match c with UpdateIdentity _ r | MultiStep _ r => r end.
Definition new_identity (c : Command) : N :=
  match c with UpdateIdentity k _ | MultiStep k _ => k end.

(** [sending]: callers in [cnc_tx.send(..).await]. [paused]: the driver waits at
    a barrier. [replies]: what the callers got. *)
Record Updater := mk {
  in_flight : bool;
  sending : list Command;
  channel : list Command;
  paused : bool;
  closed : bool;
  identity : N;
  replies : list (N * option UpdateIdentityError)
}.
#[export] Instance Updater_settable : Settable Updater := λ r,
  mk (in_flight r) (sending r) (channel r) (paused r) (closed r) (identity r) (replies r).

Definition new (identity : N) : Updater := mk false [] [] false false identity [].
Definition CNC_CAPACITY : nat := 10.

Definition reply (r : N) (res : option UpdateIdentityError) (u : Updater) : Updater :=
  u <| replies ::= λ l, l ++ [(r, res)] |>.

(** [IdentityUpdatePermit::try_acquire] and [drop]. *)
Definition try_acquire (u : Updater) : option Updater :=
  if in_flight u then None else Some (u <| in_flight := true |>).
Definition drop_permit (u : Updater) : Updater := u <| in_flight := false |>.
Definition drop_command (c : Command) (u : Updater) : Updater :=
  if holds_permit c then drop_permit u else u.

Definition update_identity (k r : N) (u : Updater) : Updater :=
  if in_flight u then reply r (Some InProgress) u
  else u <| sending ::= λ l, l ++ [UpdateIdentity k r] |>.

Definition update_identity_with_confirmation_barrier (k r : N) (u : Updater) : Updater :=
  match try_acquire u with
  | None => reply r (Some InProgress) u
  | Some u => u <| sending ::= λ l, l ++ [MultiStep k r] |>
  end.

(** A pending send goes through, fails on a closed channel, or is cancelled with
    its caller. *)
Definition deliver (i : nat) (u : Updater) : option Updater :=
  c ← sending u !! i;
  let u := u <| sending ::= delete i |> in
  if closed u then Some (reply (reply_to c) (Some RuntimeClosed) (drop_command c u))
  else if decide (length (channel u) < CNC_CAPACITY) then Some (u <| channel ::= λ l, l ++ [c] |>)
  else None.
Definition cancel (i : nat) (u : Updater) : option Updater :=
  c ← sending u !! i; Some (drop_command c (u <| sending ::= delete i |>)).

(** The driver: [handle_cnc], the end of the barrier, and the end of the driver. *)
Definition handle_cnc (u : Updater) : option Updater :=
  if paused u || closed u then None else
  match channel u with
  | [] => None
  | c :: l =>
      let u := reply (reply_to c) None (u <| channel := l |> <| identity := new_identity c |>) in
      Some (if holds_permit c then u <| paused := true |> else u)
  end.
Definition barrier_reached (u : Updater) : option Updater :=
  if paused u then Some (drop_permit (u <| paused := false |>)) else None.
Definition close (u : Updater) : option Updater :=
  if paused u || closed u then None else
  Some (foldl (λ u c, reply (reply_to c) (Some RuntimeClosed) (drop_command c u))
          (u <| closed := true |> <| channel := [] |>) (channel u)).

Inductive step : Updater → Updater → Prop :=
  | st_update k r u : step u (update_identity k r u)
  | st_barrier k r u : step u (update_identity_with_confirmation_barrier k r u)
  | st_deliver i u u' : deliver i u = Some u' → step u u'
  | st_cancel i u u' : cancel i u = Some u' → step u u'
  | st_handle u u' : handle_cnc u = Some u' → step u u'
  | st_release u u' : barrier_reached u = Some u' → step u u'
  | st_close u u' : close u = Some u' → step u u'.

(** ** Permits *)
Definition count_permits (l : list Command) : nat :=
  foldr (λ c n, (if holds_permit c then 1 else 0) + n) 0 l.
Definition permits (u : Updater) : nat :=
  count_permits (sending u) + count_permits (channel u) + (if paused u then 1 else 0).
Definition wf (u : Updater) : Prop := permits u = if in_flight u then 1 else 0.

#[local] Arguments count_permits : simpl never.
Lemma count_permits_cons c l :
  count_permits (c :: l) = (if holds_permit c then 1 else 0) + count_permits l.
Proof. done. Qed.

Lemma count_permits_nil : count_permits [] = 0.
Proof. done. Qed.

Lemma count_permits_app l k : count_permits (l ++ k) = count_permits l + count_permits k.
Proof. induction l; cbn [app]; rewrite ?count_permits_cons; [done|lia]. Qed.

Lemma count_permits_delete l i c : l !! i = Some c →
  count_permits l = (if holds_permit c then 1 else 0) + count_permits (delete i l).
Proof.
  revert i. induction l as [|x l IH]; intros [|i]; [done|done|by intros [= ->]|].
  intros Hi. change (delete (S i) (x :: l)) with (x :: delete i l). rewrite !count_permits_cons, (IH i Hi). lia.
Qed.

(** Dropping a command drops its permit, which was the only one. *)
Lemma drop_command_wf c u : permits u + (if holds_permit c then 1 else 0) = (if in_flight u then 1 else 0) →
  wf (drop_command c u).
Proof.
  unfold drop_command, drop_permit, wf, permits. intros H. destruct (holds_permit c); [|lia].
  upd_simpl. destruct (in_flight u); lia.
Qed.

Lemma close_wf l u : permits u + count_permits l = (if in_flight u then 1 else 0) →
  wf (foldl (λ u c, reply (reply_to c) (Some RuntimeClosed) (drop_command c u)) u l).
Proof.
  revert u. induction l as [|c l IH]; intros u H; cbn [foldl].
  - unfold wf. rewrite count_permits_nil in H. lia.
  - apply IH. rewrite count_permits_cons in H.
    unfold reply, drop_command, drop_permit. unfold permits in *. upd_simpl.
    destruct (holds_permit c); [|upd_simpl; lia]. upd_simpl. destruct (in_flight u); lia.
Qed.

Lemma step_wf u u' : step u u' → wf u → wf u'.
Proof.
  intros Hs H. destruct Hs as [k r u|k r u|i u u' Hd|i u u' Hd|u u' Hd|u u' Hd|u u' Hd].
  - unfold update_identity. destruct (in_flight u) eqn:E; [done|].
    unfold wf, permits in *. upd_simpl. rewrite E in *. rewrite count_permits_app, count_permits_cons, count_permits_nil. cbn [holds_permit]. lia.
  - unfold update_identity_with_confirmation_barrier, try_acquire.
    destruct (in_flight u) eqn:E; [done|].
    unfold wf, permits in *. upd_simpl. rewrite E in *. rewrite count_permits_app, count_permits_cons, count_permits_nil. cbn [holds_permit]. lia.
  - unfold deliver in Hd. destruct (sending u !! i) as [c|] eqn:Ei; cbn in Hd; [|done].
    pose proof (count_permits_delete _ _ _ Ei) as Hc.
    destruct (closed _).
    + injection Hd as <-. change (wf (drop_command c (u <| sending ::= delete i |>))).
      apply drop_command_wf. unfold wf, permits in *. upd_simpl. lia.
    + case_decide; [|done]. injection Hd as <-. unfold wf, permits in *. upd_simpl.
      rewrite count_permits_app, count_permits_cons, count_permits_nil. lia.
  - unfold cancel in Hd. destruct (sending u !! i) as [c|] eqn:Ei; cbn in Hd; [|done].
    pose proof (count_permits_delete _ _ _ Ei) as Hc. injection Hd as <-.
    apply drop_command_wf. unfold wf, permits in *. upd_simpl. lia.
  - unfold handle_cnc in Hd. destruct (paused u) eqn:Ep, (closed u); cbn in Hd; try done.
    destruct (channel u) as [|c l] eqn:Ec; [done|]. injection Hd as <-.
    unfold wf, permits, reply in *. rewrite Ec, Ep, count_permits_cons in H. destruct (holds_permit c); upd_simpl; rewrite ?Ep; lia.
  - unfold barrier_reached in Hd. destruct (paused u) eqn:Ep; [|done]. injection Hd as <-.
    unfold wf, permits, drop_permit in *. rewrite Ep in H. upd_simpl. destruct (in_flight u); lia.
  - unfold close in Hd. destruct (paused u) eqn:Ep, (closed u); cbn in Hd; try done.
    injection Hd as <-. apply close_wf. unfold wf, permits in *. upd_simpl. rewrite Ep, count_permits_nil in *. lia.
Qed.

(** At most one barrier identity update exists at a time, wherever it is (with its caller,
    in the channel, at the barrier): the in-flight flag is exactly its presence, others are
    refused with InProgress, and the flag is free again after the barrier. *)
Theorem one_barrier_update_at_a_time k u (Hr : rtc step (new k) u) :
  permits u ≤ 1 ∧ (in_flight u = true ↔ permits u = 1) ∧
  (paused u = true → Forall (λ c, holds_permit c = false) (sending u ++ channel u) ∧
     ∀ k' r, replies (update_identity_with_confirmation_barrier k' r u) =
               replies u ++ [(r, Some InProgress)]) ∧
  (∀ u', barrier_reached u = Some u' → is_Some (try_acquire u')).
Proof.
  assert (wf u) as H.
  { enough (∀ u0, rtc step u0 u → wf u0 → wf u) as Hgen by (by apply (Hgen (new k) Hr)).
    clear Hr. intros u0 Hr. induction Hr as [|u0 u1 u2 Hs _ IH]; [done|]. intros H0. by eapply IH, step_wf. }
  unfold wf in H. split_and!.
  - destruct (in_flight u); lia.
  - rewrite H. by destruct (in_flight u).
  - intros Hp. assert (in_flight u = true) as Hf.
    { destruct (in_flight u) eqn:E; [done|]. unfold permits in H. rewrite Hp in H. lia. }
    split.
    + rewrite Hf in H. unfold permits in H. rewrite Hp in H.
      assert (count_permits (sending u ++ channel u) = 0) as H0 by (rewrite count_permits_app; lia).
      clear -H0. induction (sending u ++ channel u) as [|c l IH]; [constructor|].
      rewrite count_permits_cons in H0. destruct (holds_permit c) eqn:E; [lia|]. constructor; [done|]. by apply IH.
    + intros k' r. unfold update_identity_with_confirmation_barrier, try_acquire. by rewrite Hf.
  - intros u' Hb. unfold barrier_reached in Hb. destruct (paused u); [|done]. injection Hb as <-.
    unfold try_acquire, drop_permit. upd_simpl. eauto.
Qed.
End Updater.
