(* ===== verification/Slot.v ===== *)
(** The slot tracker ([slot.rs], [yellowstone_grpc/slot_tracker.rs] of
    [crates/tpu-client/src]): a slot and a closed flag, written by one background
    task that follows a gRPC stream and reconnects, and read by any number of
    loads. The task and the loads interleave at each atomic access. *)
From S2P Require Import Prelude Types.

Module Slot.

Record AtomicSlotTracker := mk_tracker { slot : N; closed : bool }.
#[export] Instance AtomicSlotTracker_settable : Settable AtomicSlotTracker := λ r,
  mk_tracker (slot r) (closed r).

Definition new (initial_slot : N) : AtomicSlotTracker := mk_tracker initial_slot false.

(** [Err] carries the slot of [PoisonError]. *)
Definition load (t : AtomicSlotTracker) : N + N :=
  if closed t then inl (slot t) else inr (slot t).

Definition mark_tracker_unavailable (t : AtomicSlotTracker) : AtomicSlotTracker :=
  t <| closed := true |>.
Definition store_slot (t : AtomicSlotTracker) (s : N) : AtomicSlotTracker :=
  t <| slot := s |> <| closed := false |>.

(** What [next] yields on the stream: [None] at its end, or a status, or an
    update with an optional payload. *)
Inductive UpdateOneof := USlot (slot : N) | UOther.
Inductive Item := IError | IUpdate (update_oneof : option UpdateOneof).
Abbreviation Stream := (list Item) (only parsing).

Inductive SlotTrackerStreamExit := Ended | Error.

(** [process_slot_tracker_stream]: the loop with its [current_slot]. *)
Fixpoint process_items (current_slot : N) (stream : Stream) (shared : AtomicSlotTracker) :
    SlotTrackerStreamExit * AtomicSlotTracker :=
  match stream with
  | [] => (Ended, shared)
  | IError :: _ => (Error, shared)
  | IUpdate (Some (USlot s)) :: stream =>
      if (s <=? current_slot)%N then process_items current_slot stream shared
      else process_items s stream (store_slot shared s)
  | IUpdate _ :: stream => process_items current_slot stream shared
  end.
Definition process_slot_tracker_stream (stream : Stream) (shared : AtomicSlotTracker) :=
  process_items (slot shared) stream shared.

(** [wait_for_next_slot]: [Ok], with the rest of the stream, or [Err]. *)
Fixpoint wait_for_next_slot (stream : Stream) : option (option N * Stream) :=
  match stream with
  | [] => Some (None, [])
  | IError :: _ => None
  | IUpdate (Some (USlot s)) :: stream => Some (Some s, stream)
  | IUpdate _ :: stream => wait_for_next_slot stream
  end.

(** ** Functional behaviour of the stream loop *)
Definition item_slot (i : Item) : option N :=
  match i with IUpdate (Some (USlot s)) => Some s | _ => None end.
(** The slots the loop sees: those before the first error. *)
Fixpoint slots_seen (stream : Stream) : list N :=
  match stream with
  | [] | IError :: _ => []
  | i :: stream => option_list (item_slot i) ++ slots_seen stream
  end.
Definition max_slot (s : N) (l : list N) : N := foldr N.max s l.

#[local] Arguments max_slot : simpl never.
Lemma max_slot_cons s x l : max_slot s (x :: l) = N.max x (max_slot s l).
Proof. done. Qed.

Lemma max_slot_ge s l : (s ≤ max_slot s l)%N.
Proof. induction l; rewrite ?max_slot_cons; [done|lia]. Qed.

Lemma max_slot_max a b l : max_slot (N.max a b) l = N.max a (max_slot b l).
Proof. induction l as [|x l IH]; [done|]. rewrite !max_slot_cons, IH. lia. Qed.

Lemma max_slot_elem s l : max_slot s l ∈ s :: l.
Proof.
  induction l as [|x l IH]; [by left|]. rewrite max_slot_cons.
  destruct (N.max_spec x (max_slot s l)) as [[_ ->]|[_ ->]]; set_solver.
Qed.

Lemma max_slot_gt s l : (s < max_slot s l)%N ↔ Exists (λ x, s < x)%N l.
Proof.
  induction l as [|x l IH]; [rewrite Exists_nil; unfold max_slot; cbn; lia|].
  rewrite Exists_cons, <-IH, max_slot_cons. pose proof (max_slot_ge s l). lia.
Qed.

Lemma process_items_spec stream cur t : (slot t = cur) →
  let '(exit, t') := process_items cur stream t in
  slot t' = max_slot cur (slots_seen stream) ∧
  closed t' = closed t && negb (bool_decide (cur < slot t')%N) ∧
  (exit = Error ↔ IError ∈ stream).
Proof.
  revert cur t. induction stream as [|i stream IH]; intros cur t <-; cbn.
  { split_and!; [done| |set_solver]. rewrite bool_decide_false by lia. by destruct (closed t). }
  destruct i as [|[[s|]|]]; cbn.
  - split_and!; [done| |set_solver]. rewrite bool_decide_false by lia. by destruct (closed t).
  - destruct (s <=? slot t)%N eqn:E; [apply N.leb_le in E|apply N.leb_gt in E].
    + specialize (IH (slot t) t eq_refl). destruct process_items as [exit t'].
      destruct IH as (H1 & H2 & H3). split_and!; [|done|rewrite H3; set_solver].
      rewrite H1, max_slot_cons. pose proof (max_slot_ge (slot t) (slots_seen stream)). lia.
    + specialize (IH s (store_slot t s) eq_refl). destruct process_items as [exit t'].
      destruct IH as (H1 & H2 & H3).
      assert (max_slot s (slots_seen stream) = N.max s (max_slot (slot t) (slots_seen stream))) as Hm
        by (rewrite <-max_slot_max; f_equal; lia).
      pose proof (max_slot_ge s (slots_seen stream)).
      split_and!; [by rewrite H1, Hm, max_slot_cons; lia| |rewrite H3; set_solver].
      rewrite H2, (bool_decide_true (slot t < slot t')%N) by lia. cbn. by destruct (closed t).
  - specialize (IH (slot t) t eq_refl). destruct process_items as [exit t'].
    destruct IH as (H1 & H2 & H3). split_and!; [done|done|rewrite H3; set_solver].
  - specialize (IH (slot t) t eq_refl). destruct process_items as [exit t'].
    destruct IH as (H1 & H2 & H3). split_and!; [done|done|rewrite H3; set_solver].
Qed.

Lemma wait_for_next_slot_spec stream : 
  match wait_for_next_slot stream with
  | None => slots_seen stream = [] ∧ IError ∈ stream
  | Some (None, _) => slots_seen stream = [] ∧ IError ∉ stream
  | Some (Some s, rest) => slots_seen stream = s :: slots_seen rest ∧ (IError ∈ stream ↔ IError ∈ rest)
  end.
Proof.
  induction stream as [|i stream IH]; cbn; [set_solver|].
  destruct i as [|[[s|]|]]; cbn; [set_solver|set_solver| |];
    destruct (wait_for_next_slot stream) as [[[s|] rest]|]; set_solver.
Qed.

(** The slot loop leaves the tracker at the highest slot seen before the stream ended or
    failed, reopens it exactly when a higher slot arrived, and reports an error exactly
    when the stream had one. *)
Theorem slot_tracker_follows_the_tip stream :
  match wait_for_next_slot stream with
  | Some (Some initial, rest) =>
      let '(exit, t) := process_slot_tracker_stream rest (new initial) in
      load t = inr (max_slot 0 (slots_seen stream)) ∧ (exit = Error ↔ IError ∈ stream)
  | Some (None, _) => slots_seen stream = [] ∧ IError ∉ stream
  | None => slots_seen stream = [] ∧ IError ∈ stream
  end ∧
  ∀ t, let '(exit, t') := process_slot_tracker_stream stream t in
    slot t' = max_slot (slot t) (slots_seen stream) ∧
    (closed t' = false ↔ closed t = false ∨ Exists (λ s, slot t < s)%N (slots_seen stream)) ∧
    (exit = Error ↔ IError ∈ stream).
Proof.
  split.
  - pose proof (wait_for_next_slot_spec stream) as Hw.
    destruct (wait_for_next_slot stream) as [[[s|] rest]|]; [|done..].
    destruct Hw as [Hs He]. pose proof (process_items_spec rest s (new s) eq_refl) as Hp.
    unfold process_slot_tracker_stream. cbn [slot new] in *. destruct process_items as [exit t].
    destruct Hp as (H1 & H2 & H3). split; [|by rewrite He].
    unfold load. rewrite H2, H1, Hs, max_slot_cons, <-max_slot_max. cbn. do 2 f_equal. lia.
  - intros t. pose proof (process_items_spec stream (slot t) t eq_refl) as Hp.
    unfold process_slot_tracker_stream. destruct process_items as [exit t'].
    destruct Hp as (H1 & H2 & H3). split_and!; [done| |done].
    rewrite H2, <-max_slot_gt, <-H1. destruct (closed t); cbn; [|intuition done].
    case_bool_decide; cbn; intuition done.
Qed.

(** ** The background task

    [atomic_slot_tracker_reconnect_loop] as a machine: one event per await point
    and per atomic write of the task, interleaved with the two atomic reads of
    each load. *)
Definition SLOT_TRACKER_RECONNECT_INITIAL_BACKOFF : Duration := from_millis 200.
Definition SLOT_TRACKER_RECONNECT_MAX_BACKOFF : Duration := from_secs 5.

Definition saturating_mul (d k : N) (max : N) : N := N.min (d * k) max.
(** [Duration::MAX], in nanoseconds. *)
Definition DURATION_MAX : N := (u64_max * 1000000000 + 999999999)%N.
Definition next_backoff (b : Duration) : Duration :=
  N.min (saturating_mul b 2 DURATION_MAX) SLOT_TRACKER_RECONNECT_MAX_BACKOFF.

Inductive Pc :=
  | Streaming (current_slot : N)
  | StoringSlot (current_slot : N)
  | Opening (current_slot : N)
  | Marking
  | Sleeping
  | Subscribing
  | Dropped.

Inductive Event :=
  | Next (item : option Item)
  | WriteSlot | WriteOpen | WriteClosed
  | SleepOver (d : Duration)
  | Subscribe (ok : bool)
  | TaskDropped
  | LoadClosed (reader : N)
  | LoadSlot (reader : N) (result : N + N).

Record Machine := mk { tracker : AtomicSlotTracker; pc : Pc; reconnect_backoff : Duration; loads : gmap N bool }.
#[export] Instance Machine_settable : Settable Machine := λ r,
  mk (tracker r) (pc r) (reconnect_backoff r) (loads r).

Definition initial (s : N) : Machine :=
  mk (new s) (Streaming s) SLOT_TRACKER_RECONNECT_INITIAL_BACKOFF ∅.

(** One turn of [process_slot_tracker_stream]. *)
Definition on_next (current_slot : N) (item : option Item) : Pc :=
  match item with
  | None | Some IError => Marking
  | Some (IUpdate (Some (USlot s))) => if (s <=? current_slot)%N then Streaming current_slot else StoringSlot s
  | Some (IUpdate _) => Streaming current_slot
  end.

#[export] Instance sum_eq_dec_N : EqDecision (N + N) := _.

Definition on_event (e : Event) (m : Machine) : option Machine :=
  match e, pc m with
  | Next i, Streaming c => Some (m <| pc := on_next c i |>)
  | WriteSlot, StoringSlot s => Some (m <| tracker ::= λ t, t <| slot := s |> |> <| pc := Opening s |>)
  | WriteOpen, Opening s => Some (m <| tracker ::= λ t, t <| closed := false |> |> <| pc := Streaming s |>)
  | WriteClosed, Marking => Some (m <| tracker ::= mark_tracker_unavailable |> <| pc := Sleeping |>)
  | SleepOver d, Sleeping => if decide (d = reconnect_backoff m) then Some (m <| pc := Subscribing |>) else None
  | Subscribe true, Subscribing =>
      Some (m <| reconnect_backoff := SLOT_TRACKER_RECONNECT_INITIAL_BACKOFF |>
              <| pc := Streaming (slot (tracker m)) |>)
  | Subscribe false, Subscribing => Some (m <| reconnect_backoff ::= next_backoff |> <| pc := Sleeping |>)
  | TaskDropped, Dropped => None
  | TaskDropped, _ => Some (m <| tracker ::= λ t, t <| closed := true |> |> <| pc := Dropped |>)
  | LoadClosed r, _ => if loads m !! r is Some _ then None else Some (m <| loads ::= <[r := closed (tracker m)]> |>)
  | LoadSlot r res, _ =>
      match loads m !! r with
      | Some c => if decide (res = load (mk_tracker (slot (tracker m)) c))
                  then Some (m <| loads ::= delete r |>) else None
      | None => None
      end
  | _, _ => None
  end.
Definition run (m : Machine) (es : list Event) : option Machine :=
  foldl (λ o e, o ≫= on_event e) (Some m) es.

(** What a history shows: the slots received, the slots loaded, and the failed
    subscriptions since the last success. *)
Definition received (es : list Event) : list N :=
  omap (λ e, match e with Next (Some i) => item_slot i | _ => None end) es.
Definition result_slot (r : N + N) : N := match r with inl s | inr s => s end.
Definition loaded (es : list Event) : list N :=
  omap (λ e, match e with LoadSlot _ r => Some (result_slot r) | _ => None end) es.
Definition failures (es : list Event) : N :=
  foldl (λ n e, match e with Subscribe true => 0%N | Subscribe false => N.succ n | _ => n end) 0%N es.

Definition at_pc (m : Machine) (tip : N) : Prop :=
  match pc m with
  | Streaming c => c = tip ∧ slot (tracker m) = tip
  | StoringSlot s => s = tip ∧ (slot (tracker m) < tip)%N
  | Opening s => s = tip ∧ slot (tracker m) = tip
  | Marking => slot (tracker m) = tip
  | Sleeping | Subscribing => slot (tracker m) = tip ∧ closed (tracker m) = true
  | Dropped => (slot (tracker m) ≤ tip)%N ∧ closed (tracker m) = true
  end.

Record inv (s0 : N) (es : list Event) (m : Machine) : Prop := {
  inv_pc : at_pc m (max_slot s0 (received es));
  inv_slot : slot (tracker m) ∈ s0 :: received es;
  inv_sorted : StronglySorted N.le (loaded es);
  inv_loaded : Forall (λ s, (s ≤ slot (tracker m))%N ∧ s ∈ s0 :: received es) (loaded es);
  inv_backoff : reconnect_backoff m =
    N.min (SLOT_TRACKER_RECONNECT_INITIAL_BACKOFF * 2 ^ failures es) SLOT_TRACKER_RECONNECT_MAX_BACKOFF
}.

Lemma max_slot_snoc s l x : max_slot s (l ++ [x]) = N.max x (max_slot s l).
Proof.
  induction l as [|y l IH]; [done|]. cbn [app]. rewrite !max_slot_cons, IH. lia.
Qed.

Lemma StronglySorted_snoc (l : list N) x :
  StronglySorted N.le l → Forall (λ y, y ≤ x)%N l → StronglySorted N.le (l ++ [x]).
Proof.
  induction 1 as [|y l Hl IH Hy]; intros Hx; cbn; [repeat constructor|].
  apply Forall_cons in Hx as [? ?]. constructor; [auto|]. apply Forall_app; split; [done|by repeat constructor].
Qed.

Lemma next_backoff_pow k :
  next_backoff (N.min (SLOT_TRACKER_RECONNECT_INITIAL_BACKOFF * 2 ^ k) SLOT_TRACKER_RECONNECT_MAX_BACKOFF) =
  N.min (SLOT_TRACKER_RECONNECT_INITIAL_BACKOFF * 2 ^ N.succ k) SLOT_TRACKER_RECONNECT_MAX_BACKOFF.
Proof.
  rewrite N.pow_succ_r'. unfold next_backoff, saturating_mul.
  assert (SLOT_TRACKER_RECONNECT_MAX_BACKOFF * 2 < DURATION_MAX)%N by (by vm_compute).
  assert (0 < SLOT_TRACKER_RECONNECT_MAX_BACKOFF)%N by (by vm_compute).
  generalize dependent (2 ^ k)%N. intros n. revert H H0.
  generalize SLOT_TRACKER_RECONNECT_MAX_BACKOFF, SLOT_TRACKER_RECONNECT_INITIAL_BACKOFF, DURATION_MAX. intros; lia.
Qed.

Lemma received_snoc es e : received (es ++ [e]) = received es ++ received [e].
Proof. apply omap_app. Qed.
Lemma loaded_snoc es e : loaded (es ++ [e]) = loaded es ++ loaded [e].
Proof. apply omap_app. Qed.
Lemma failures_snoc es e : failures (es ++ [e]) =
  match e with Subscribe true => 0%N | Subscribe false => N.succ (failures es) | _ => failures es end.
Proof. unfold failures. by rewrite foldl_app. Qed.

(** A load reads the tracker and changes nothing the invariant is about. *)
Lemma inv_load s0 es m e m' : inv s0 es m → on_event e m = Some m' →
  match e with LoadClosed _ | LoadSlot _ _ => inv s0 (es ++ [e]) m' | _ => True end.
Proof.
  intros [H1 H2 H3 H4 H5] He. destruct e as [| | | | | | |r|r res]; try done; cbn in He; case_match; try done.
  - injection He as <-. split; unfold at_pc; rewrite ?received_snoc, ?loaded_snoc, ?failures_snoc, ?app_nil_r; upd_simpl; auto.
  - case_decide as Hd; [|done]. injection He as <-. assert (result_slot res = slot (tracker m)) as Hr.
    { rewrite Hd. unfold load. by destruct (closed _). }
    split; unfold at_pc; rewrite ?received_snoc, ?loaded_snoc, ?failures_snoc, ?app_nil_r; upd_simpl; auto;
      change (received [_]) with (@nil N); change (loaded [_]) with [result_slot res]; rewrite ?app_nil_r, ?Hr; auto.
    + apply StronglySorted_snoc; [done|]. eapply Forall_impl; [exact H4|]. by intros x [? _].
    + apply Forall_app. split; [done|]. apply Forall_singleton. by split.
Qed.

Lemma loaded_mono (a b : N) (L L' l : list N) : (a ≤ b)%N → L ⊆ L' →
  Forall (λ s, (s ≤ a)%N ∧ s ∈ L) l → Forall (λ s, (s ≤ b)%N ∧ s ∈ L') l.
Proof. intros Hab HL Hl. eapply Forall_impl; [exact Hl|]. intros x [? ?]. split; [lia|by apply HL]. Qed.

Lemma slot_inv_step s0 es m e m' : inv s0 es m → on_event e m = Some m' → inv s0 (es ++ [e]) m'.
Proof.
  intros Hi He. pose proof (inv_load _ _ _ _ _ Hi He) as Hl. destruct Hi as [H1 H2 H3 H4 H5].
  destruct m as [[s c] p b l]; unfold at_pc in H1; cbn [pc tracker slot closed reconnect_backoff loads] in *.
  destruct e as [[[|[[x|]|]]|]| | | |d|[]| |r|r res]; [clear Hl..|done|done]; destruct p as [c0|s1|s1| | | |]; cbn in He;
    try done; repeat case_match; try done; simplify_eq; destruct_and?; subst.
  all: try match goal with H : (_ <=? _)%N = _ |- _ => first [apply N.leb_le in H|apply N.leb_gt in H] end.
  all: split; unfold at_pc; rewrite ?received_snoc, ?loaded_snoc, ?failures_snoc; upd_simpl;
    unfold mark_tracker_unavailable; upd_simpl; cbn; rewrite ?app_nil_r, ?max_slot_snoc, ?next_backoff_pow;
    try done; try (by split; lia); try (eapply loaded_mono; [| |exact H4]; [lia|set_solver]);
    pose proof (max_slot_elem s0 (received es)); set_solver.
Qed.

Lemma slot_run_snoc m es e : run m (es ++ [e]) = run m es ≫= on_event e.
Proof. unfold run. by rewrite foldl_app. Qed.

Lemma inv_run s0 es m : run (initial s0) es = Some m → inv s0 es m.
Proof.
  revert m. induction es as [|e es IH] using rev_ind; intros m.
  - intros [= <-]. split; cbn; try done; [set_solver|constructor].
  - rewrite slot_run_snoc. destruct (run (initial s0) es) as [m0|]; [|done]. cbn. intros He.
    eapply slot_inv_step; [by apply IH|done].
Qed.

(** C24: Whatever the interleaving of the task's atomic writes with the two reads of each
    load, the slots loaded never go back, are slots received, and a tracker whose task
    sleeps, resubscribes or is gone loads as an error. *)
Theorem loads_follow_the_stream s0 es m (Hr : run (initial s0) es = Some m) :
  StronglySorted N.le (loaded es) ∧
  Forall (λ s, s ∈ s0 :: received es ∧ s ≤ slot (tracker m))%N (loaded es) ∧
  (slot (tracker m) ≤ max_slot s0 (received es))%N ∧
  match pc m with
  | Streaming c => c = max_slot s0 (received es) ∧ slot (tracker m) = max_slot s0 (received es)
  | Sleeping | Subscribing | Dropped => load (tracker m) = inl (slot (tracker m))
  | _ => True
  end.
Proof.
  apply inv_run in Hr as [H1 H2 H3 H4 H5]. unfold at_pc in H1.
  split_and!; [done| | |].
  - eapply Forall_impl; [exact H4|]. naive_solver.
  - destruct (pc m); destruct_and?; lia.
  - unfold load. destruct (pc m); destruct_and?; try done; by rewrite H0 || by rewrite H6.
Qed.

(** Before each resubscription the slot task sleeps the initial backoff doubled once per
    failure since the last success, capped at the maximum. *)
Theorem reconnect_backoff_is_exponential s0 es d m (Hr : run (initial s0) (es ++ [SleepOver d]) = Some m) :
  d = N.min (SLOT_TRACKER_RECONNECT_INITIAL_BACKOFF * 2 ^ failures es) SLOT_TRACKER_RECONNECT_MAX_BACKOFF ∧
  (SLOT_TRACKER_RECONNECT_INITIAL_BACKOFF ≤ d ≤ SLOT_TRACKER_RECONNECT_MAX_BACKOFF)%N.
Proof.
  rewrite slot_run_snoc in Hr. destruct (run (initial s0) es) as [m0|] eqn:E; [|done]. cbn in Hr.
  apply inv_run in E as [_ _ _ _ H5]. destruct (pc m0); try done. case_decide as Hd; [|done].
  rewrite Hd, H5. split; [done|]. split; [|lia].
  apply N.min_glb; [|by vm_compute]. pose proof (N.pow_nonzero 2 (failures es)). nia.
Qed.

(** The stream drops after slot 7; the second reconnection attempt succeeds; a
    load that began before the drop still returns the last slot. *)
Definition demo_events : list Event := [
  Next (Some (IUpdate (Some (USlot 7)))); WriteSlot; LoadClosed 1; WriteOpen;
  Next (Some (IUpdate (Some (USlot 6)))); LoadSlot 1 (inr 7%N); LoadClosed 2; Next None; WriteClosed;
  LoadSlot 2 (inr 7%N); LoadClosed 3; LoadSlot 3 (inl 7%N); SleepOver (from_millis 200); Subscribe false].

Lemma loads_follow_the_stream_witness : ∃ m,
  run (initial 5) demo_events = Some m ∧ StronglySorted N.le (loaded demo_events) ∧ load (tracker m) = inl 7%N.
Proof.
  eexists. split; [vm_compute; reflexivity|]. split; [|vm_compute; reflexivity].
  exact (proj1 (loads_follow_the_stream 5 demo_events _ eq_refl)).
Defined.

Lemma reconnect_backoff_is_exponential_witness : ∃ m,
  run (initial 5) (demo_events ++ [SleepOver (from_millis 400)]) = Some m ∧ failures demo_events = 1%N ∧
  from_millis 400 = N.min (from_millis 200 * 2 ^ 1) (from_secs 5).
Proof.
  destruct (run (initial 5) (demo_events ++ [SleepOver (from_millis 400)])) as [m|] eqn:E;
    [|vm_compute in E; discriminate E].
  exists m. split; [reflexivity|]. split; [reflexivity|].
  exact (proj1 (reconnect_backoff_is_exponential 5 demo_events _ m E)).
Defined.
End Slot.
