(* ===== verification/Schedule.v ===== *)
(** The leader schedule ([rpc/schedule.rs], [yellowstone_grpc/schedule.rs] of
    [crates/tpu-client/src]): the compact schedule of an epoch built from an RPC
    answer, the double buffer that a background task keeps on the current and the
    next epoch, its readers, and the leader predictor built on it. *)
From S2P Require Import Prelude Types Slot Driver.

Module Schedule.
Section Schedule.
(** [solana_clock::DEFAULT_SLOTS_PER_EPOCH] and [Pubkey::from_str] are other
    crates'. *)
Context (DEFAULT_SLOTS_PER_EPOCH : N) (from_str : string → option Pubkey).

Definition Pubkey_default : Pubkey := 0%N.

(** ** The schedule of one epoch *)
Record CompactSortedSchedule := mk_schedule { first_slot : N; schedule : list Pubkey }.

Definition last_slot (s : CompactSortedSchedule) : N :=
  u64_sub (u64_add (first_slot s) DEFAULT_SLOTS_PER_EPOCH) 1.

Definition get (s : CompactSortedSchedule) (slot : N) : option Pubkey :=
  let max_slot := u64_add (first_slot s) DEFAULT_SLOTS_PER_EPOCH in
  if ((slot <? first_slot s) || (max_slot <=? slot))%N then None
  else schedule s !! N.to_nat (u64_saturating_sub slot (first_slot s) / 4).

Definition iter_unnested_schedule (s : CompactSortedSchedule) : list (N * Pubkey) :=
  mjoin (imap (λ slot_idx pubk,
    (λ i, (u64_add (u64_add (first_slot s) (u64_mul (N.of_nat slot_idx) 4)) i, pubk)) <$> [0; 1; 2; 3]%N)
    (schedule s)).

(** [ret[slot_idx] = pubkey] panics out of bounds: [None]. *)
Definition assign (pubkey : Pubkey) (ret : option (list Pubkey)) (slot_idx : N) : option (list Pubkey) :=
  ret ← ret;
  if decide (N.to_nat slot_idx < length ret) then Some (<[N.to_nat slot_idx := pubkey]> ret) else None.

Definition unnest_entry (ret : option (list Pubkey)) (entry : string * list N) : option (list Pubkey) :=
  match from_str entry.1 with
  | None => ret
  | Some pubkey =>
      foldl (assign pubkey) ret ((λ s, s / 4)%N <$> filter (λ s, s `mod` 4 = 0)%N entry.2)
  end.

(** [resp]: the entries in the iteration order of the answer's [HashMap]. *)
Definition unnest_rpc_get_leader_schedule_resp (slot : N) (resp : list (string * list N)) :
    option CompactSortedSchedule :=
  ret ← foldl unnest_entry (Some (replicate (N.to_nat (DEFAULT_SLOTS_PER_EPOCH / 4)) Pubkey_default)) resp;
  Some (mk_schedule (u64_mul (slot / DEFAULT_SLOTS_PER_EPOCH) DEFAULT_SLOTS_PER_EPOCH) ret).

(** ** What the schedule says *)
Definition wf (s : CompactSortedSchedule) : Prop :=
  length (schedule s) = N.to_nat (DEFAULT_SLOTS_PER_EPOCH / 4) ∧
  (DEFAULT_SLOTS_PER_EPOCH | first_slot s)%N ∧ (first_slot s + DEFAULT_SLOTS_PER_EPOCH < u64_modulus)%N.

(** The reference: the last entry with a valid key that lists the first slot of
    the group, the default key when there is none. *)
Definition entry_leader (group : N) (leader : Pubkey) (entry : string * list N) : Pubkey :=
  match from_str entry.1 with
  | Some pubkey => if decide (4 * group ∈ entry.2)%N then pubkey else leader
  | None => leader
  end.
Definition group_leader (resp : list (string * list N)) (group : N) : Pubkey :=
  foldl (entry_leader group) Pubkey_default resp.

(** The entries that index out of the epoch. *)
Definition out_of_epoch (entry : string * list N) : Prop :=
  is_Some (from_str entry.1) ∧ ∃ s, s ∈ entry.2 ∧ (s `mod` 4 = 0)%N ∧ (DEFAULT_SLOTS_PER_EPOCH ≤ s)%N.

Context (epoch_pos : (0 < DEFAULT_SLOTS_PER_EPOCH)%N) (epoch_groups : (4 | DEFAULT_SLOTS_PER_EPOCH)%N).

Lemma group_bound s : (s `mod` 4 = 0)%N →
  N.to_nat (s / 4) < N.to_nat (DEFAULT_SLOTS_PER_EPOCH / 4) ↔ (s < DEFAULT_SLOTS_PER_EPOCH)%N.
Proof.
  intros Hs. destruct epoch_groups as [k ->]. rewrite N.div_mul by done.
  pose proof (N.div_mod s 4). split; lia.
Qed.

Lemma assign_None pubkey l : foldl (assign pubkey) None l = None.
Proof. induction l; auto. Qed.

Lemma assigns_spec pubkey ret l :
  match foldl (assign pubkey) (Some ret) l with
  | None => ∃ i, i ∈ l ∧ length ret ≤ N.to_nat i
  | Some ret' => length ret' = length ret ∧ Forall (λ i, N.to_nat i < length ret) l ∧
      ∀ g, (N.to_nat g < length ret) →
        ret' !! N.to_nat g = if decide (g ∈ l) then Some pubkey else ret !! N.to_nat g
  end.
Proof.
  revert ret. induction l as [|i l IH]; intros ret; cbn [foldl].
  { split_and!; [done|constructor|]. intros g Hg. rewrite decide_False by set_solver. done. }
  cbn. case_decide as Hi.
  - specialize (IH (<[N.to_nat i:=pubkey]> ret)). destruct foldl as [ret'|].
    + destruct IH as (H1 & H2 & H3). rewrite length_insert in *. split_and!; [done|by constructor|].
      intros g Hg. rewrite H3 by done. case_decide as Hl; [rewrite decide_True by set_solver; done|].
      destruct (decide (g = i)) as [->|Hne].
      * rewrite list_lookup_insert_eq, decide_True by (done || set_solver). done.
      * rewrite list_lookup_insert_ne, decide_False by (set_solver || lia). done.
    + destruct IH as (j & Hj & Hlen). rewrite length_insert in Hlen. exists j. split; [set_solver|done].
  - rewrite assign_None. exists i. split; [set_solver|lia].
Qed.

Lemma elem_of_boundary_groups g (l : list N) : g ∈ (λ s, s / 4)%N <$> filter (λ s, s `mod` 4 = 0)%N l ↔ (4 * g)%N ∈ l.
Proof.
  rewrite list_elem_of_fmap. setoid_rewrite list_elem_of_filter. split.
  - intros (s & -> & Hm & Hs). replace (4 * (s / 4))%N with s; [done|]. pose proof (N.div_mod s 4). lia.
  - intros Hg. exists (4 * g)%N. rewrite N.mul_comm, N.div_mul, N.Div0.mod_mul, N.mul_comm; auto.
Qed.

Lemma unnest_None l : foldl unnest_entry None l = None.
Proof. induction l as [|e l IH]; [done|]. cbn. unfold unnest_entry at 2. destruct (from_str e.1); [|done]. by rewrite assign_None. Qed.

Lemma unnest_entry_spec ret e :
  length ret = N.to_nat (DEFAULT_SLOTS_PER_EPOCH / 4) →
  match unnest_entry (Some ret) e with
  | None => out_of_epoch e
  | Some ret' => ¬ out_of_epoch e ∧ length ret' = length ret ∧
      ∀ g leader, (4 * g < DEFAULT_SLOTS_PER_EPOCH)%N → ret !! N.to_nat g = Some leader →
        ret' !! N.to_nat g = Some (entry_leader g leader e)
  end.
Proof.
  intros Hlen. unfold unnest_entry, out_of_epoch, entry_leader. destruct (from_str e.1) as [pk|] eqn:Epk.
  2:{ split_and!; [|done|done]. intros [[? [=]] _]. }
  pose proof (assigns_spec pk ret ((λ s, s / 4)%N <$> filter (λ s, s `mod` 4 = 0)%N e.2)) as Ha.
  destruct foldl as [ret'|].
  - destruct Ha as (H1 & H2 & H3). split_and!; [|done|].
    + intros (_ & s & Hs & Hm & Hge). rewrite Forall_forall in H2.
      assert (N.to_nat (s / 4) < length ret) as Hb.
      { apply H2, list_elem_of_fmap. exists s. by rewrite list_elem_of_filter. }
      rewrite Hlen, group_bound in Hb by done. lia.
    + intros g leader Hg Hl. rewrite H3 by (by eapply lookup_lt_Some).
      destruct (decide (4 * g ∈ e.2)%N) as [Hin|Hin].
      * by rewrite decide_True by (by apply elem_of_boundary_groups).
      * by rewrite decide_False by (by rewrite elem_of_boundary_groups).
  - destruct Ha as (i & (s & -> & (Hm & Hs)%list_elem_of_filter)%list_elem_of_fmap & Hb).
    split; [eauto|]. exists s. split_and!; [done..|].
    destruct (N.lt_ge_cases s DEFAULT_SLOTS_PER_EPOCH) as [Hlt|]; [|done].
    apply group_bound in Hlt; [|done]. rewrite Hlen in Hb. lia.
Qed.

Lemma unnest_spec acc resp ret :
  length ret = N.to_nat (DEFAULT_SLOTS_PER_EPOCH / 4) →
  (∀ g, (4 * g < DEFAULT_SLOTS_PER_EPOCH)%N → ret !! N.to_nat g = Some (acc g)) →
  match foldl unnest_entry (Some ret) resp with
  | None => Exists out_of_epoch resp
  | Some ret' => ¬ Exists out_of_epoch resp ∧ length ret' = length ret ∧
      ∀ g, (4 * g < DEFAULT_SLOTS_PER_EPOCH)%N →
        ret' !! N.to_nat g = Some (foldl (entry_leader g) (acc g) resp)
  end.
Proof.
  revert acc ret. induction resp as [|e resp IH]; intros acc ret Hlen Hret; cbn [foldl].
  { rewrite Exists_nil. split_and!; auto. }
  pose proof (unnest_entry_spec ret e Hlen) as He.
  destruct (unnest_entry (Some ret) e) as [ret1|]; [|rewrite unnest_None; by constructor].
  destruct He as (H1 & H2 & H3).
  specialize (IH (λ g, entry_leader g (acc g) e) ret1 ltac:(congruence)).
  specialize (IH ltac:(intros g Hg; by apply H3, Hret)).
  destruct foldl as [ret'|]; [|by constructor 2].
  destruct IH as (H4 & H5 & H6). split_and!; [|congruence|done].
  rewrite Exists_cons. tauto.
Qed.

(** An entry alone in listing a group leads it, whatever the iteration order. *)
Lemma group_leader_unique resp g e pk : e ∈ resp → from_str e.1 = Some pk → (4 * g ∈ e.2)%N →
  (∀ e' pk', e' ∈ resp → from_str e'.1 = Some pk' → (4 * g ∈ e'.2)%N → pk' = pk) →
  group_leader resp g = pk.
Proof.
  intros Hin Hpk Hg Hu. unfold group_leader.
  enough (∀ acc, (acc = pk ∨ e ∈ resp) → foldl (entry_leader g) acc resp = pk) as Hgen by (by apply Hgen; right).
  clear Hin. induction resp as [|e' resp IH]; intros acc Hacc; cbn [foldl]; [set_solver|].
  apply IH; [set_solver|]. unfold entry_leader.
  destruct Hacc as [->|[->|Hin]%elem_of_cons]; [|rewrite Hpk, decide_True by done; by left|by right].
  destruct (from_str e'.1) as [pk'|] eqn:E'; [|by left]. case_decide; [|by left]. left. apply (Hu e' pk'); set_solver.
Qed.

Lemma wf_get s t : wf s → get s t =
  if decide (first_slot s ≤ t ∧ t < first_slot s + DEFAULT_SLOTS_PER_EPOCH)%N
  then schedule s !! N.to_nat ((t - first_slot s) / 4) else None.
Proof.
  intros (_ & _ & Hb). unfold get, u64_saturating_sub. rewrite u64_add_small by done.
  case_decide; destruct (t <? first_slot s)%N eqn:E1, (_ <=? t)%N eqn:E2; cbn; try done;
    rewrite ?N.ltb_lt, ?N.ltb_ge, ?N.leb_le, ?N.leb_gt in *; lia.
Qed.

Lemma get_is_Some s t : wf s →
  is_Some (get s t) ↔ (first_slot s ≤ t ∧ t < first_slot s + DEFAULT_SLOTS_PER_EPOCH)%N.
Proof.
  intros Hw. rewrite wf_get by done. case_decide as Hd; [|split; [by intros [? [=]]|done]].
  destruct Hw as (Hl & _). rewrite lookup_lt_is_Some, Hl. split; [done|intros _].
  destruct epoch_groups as [k Hk]. rewrite Hk, N.div_mul by done.
  assert ((t - first_slot s) / 4 < k)%N; [apply N.Div0.div_lt_upper_bound; lia|lia].
Qed.

Lemma same_group_bounds t t' n k : (t / 4 = t' / 4)%N →
  (4 * n ≤ t < 4 * n + 4 * k ↔ 4 * n ≤ t' < 4 * n + 4 * k)%N.
Proof.
  clear. intros Ht.
  pose proof (N.div_mod t 4 ltac:(done)) as E. pose proof (N.mod_lt t 4 ltac:(done)) as Hr.
  pose proof (N.div_mod t' 4 ltac:(done)) as E'. pose proof (N.mod_lt t' 4 ltac:(done)) as Hr'.
  rewrite Ht in E. clear Ht. revert E Hr E' Hr'. generalize (t' / 4)%N (t `mod` 4)%N (t' `mod` 4)%N.
  intros a b c E Hb E' Hc. rewrite E, E'. clear E E'. lia.
Qed.

Lemma group_offset t n : (4 * n ≤ t)%N → ((t - 4 * n) / 4 = t / 4 - n)%N.
Proof.
  clear. intros Hn. assert (t = (t - 4 * n) + n * 4)%N as E by lia. rewrite E at 2. rewrite N.div_add by done.
  clear E. generalize ((t - 4 * n) / 4)%N. lia.
Qed.

(** The slots of a group have one leader. *)
Lemma get_group s t t' : wf s → (t / 4 = t' / 4)%N → get s t = get s t'.
Proof.
  intros Hw Ht. rewrite !wf_get by done. destruct Hw as (_ & Hf & _).
  destruct epoch_groups as [k Hk]. destruct Hf as [q Hq].
  assert (first_slot s = 4 * (q * k))%N as Hfs by lia. set (n := (q * k)%N) in *.
  assert (DEFAULT_SLOTS_PER_EPOCH = 4 * k)%N as HS by lia. rewrite Hfs, HS. clearbody n. clear Hq Hk HS epoch_pos epoch_groups.
  pose proof (same_group_bounds t t' n k Ht) as Hiff.
  case_decide as Hd; [|by rewrite decide_False by tauto]. apply Hiff in Hd as Hd'. rewrite decide_True by done.
  by rewrite !group_offset, Ht by lia.
Qed.

Definition epoch_of (slot : N) : N := (slot / DEFAULT_SLOTS_PER_EPOCH)%N.

Lemma epoch_slots e t :
  (e * DEFAULT_SLOTS_PER_EPOCH ≤ t ∧ t < e * DEFAULT_SLOTS_PER_EPOCH + DEFAULT_SLOTS_PER_EPOCH)%N ↔ epoch_of t = e.
Proof.
  unfold epoch_of. clear epoch_groups. split.
  - intros [? ?]. symmetry. apply (N.div_unique _ _ _ (t - e * DEFAULT_SLOTS_PER_EPOCH)); lia.
  - intros <-. pose proof (N.Div0.mul_div_le t DEFAULT_SLOTS_PER_EPOCH) as H1.
    pose proof (N.mul_succ_div_gt t DEFAULT_SLOTS_PER_EPOCH ltac:(lia)) as H2.
    rewrite N.mul_comm, N.mul_succ_l in H2. rewrite N.mul_comm in H1. by split.
Qed.

Lemma epoch_offset e t : epoch_of t = e → (t - e * DEFAULT_SLOTS_PER_EPOCH = t `mod` DEFAULT_SLOTS_PER_EPOCH)%N.
Proof. intros <-. unfold epoch_of. rewrite N.Div0.mod_eq. f_equal. lia. Qed.

(** A schedule of epoch [e]: it answers exactly for the slots of the epoch. *)
Lemma wf_get_epoch s e t : wf s → first_slot s = (e * DEFAULT_SLOTS_PER_EPOCH)%N →
  is_Some (get s t) ↔ epoch_of t = e.
Proof. intros Hw He. by rewrite get_is_Some, He, epoch_slots. Qed.

Lemma group_lt t : (4 * (t `mod` DEFAULT_SLOTS_PER_EPOCH / 4) < DEFAULT_SLOTS_PER_EPOCH)%N.
Proof.
  pose proof (N.mod_lt t DEFAULT_SLOTS_PER_EPOCH ltac:(lia)) as Hr.
  pose proof (N.Div0.mul_div_le (t `mod` DEFAULT_SLOTS_PER_EPOCH) 4). lia.
Qed.

Lemma unnest_ok slot resp s :
  (epoch_of slot * DEFAULT_SLOTS_PER_EPOCH + DEFAULT_SLOTS_PER_EPOCH < u64_modulus)%N →
  unnest_rpc_get_leader_schedule_resp slot resp = Some s →
  wf s ∧ first_slot s = (epoch_of slot * DEFAULT_SLOTS_PER_EPOCH)%N ∧ ¬ Exists out_of_epoch resp ∧
  ∀ t, epoch_of t = epoch_of slot → get s t = Some (group_leader resp (t `mod` DEFAULT_SLOTS_PER_EPOCH / 4)).
Proof.
  intros Hslot. unfold unnest_rpc_get_leader_schedule_resp.
  pose proof (unnest_spec (λ _, Pubkey_default) resp
    (replicate (N.to_nat (DEFAULT_SLOTS_PER_EPOCH / 4)) Pubkey_default)) as Hu.
  rewrite length_replicate in Hu. specialize (Hu eq_refl).
  destruct (foldl unnest_entry _ resp) as [ret|]; cbn; [|done]. intros [= <-].
  destruct Hu as (H1 & H2 & H3).
  { intros g Hg. apply lookup_replicate. split; [done|].
    destruct epoch_groups as [k Hk]. rewrite Hk in *. rewrite N.div_mul by done. lia. }
  fold (epoch_of slot). rewrite u64_mul_small by lia.
  assert (wf (mk_schedule (epoch_of slot * DEFAULT_SLOTS_PER_EPOCH) ret)) as Hw.
  { split_and!; [done| |done]. by exists (epoch_of slot). }
  split_and!; [done..|]. intros t Ht. rewrite wf_get by done. cbn.
  rewrite decide_True by (by apply epoch_slots).
  rewrite epoch_offset by done. apply H3, group_lt.
Qed.

Lemma unnest_panics slot resp :
  unnest_rpc_get_leader_schedule_resp slot resp = None → Exists out_of_epoch resp.
Proof.
  unfold unnest_rpc_get_leader_schedule_resp.
  pose proof (unnest_spec (λ _, Pubkey_default) resp
    (replicate (N.to_nat (DEFAULT_SLOTS_PER_EPOCH / 4)) Pubkey_default)) as Hu.
  rewrite length_replicate in Hu. specialize (Hu eq_refl).
  destruct (foldl unnest_entry _ resp) as [ret|]; cbn; [done|]. intros _. apply Hu.
  intros g Hg. apply lookup_replicate. split; [done|].
  destruct epoch_groups as [k Hk]. rewrite Hk in *. rewrite N.div_mul by done. lia.
Qed.

(** The compact schedule built from an RPC answer agrees, slot by slot, with the reference
    reading of the answer (the leader listed for the first slot of the group), covers
    exactly the epoch of the slot, and building it panics only on an answer that indexes
    out of the epoch. *)
Theorem unnested_schedule_is_the_answer slot resp
    (Hslot : (epoch_of slot * DEFAULT_SLOTS_PER_EPOCH + DEFAULT_SLOTS_PER_EPOCH < u64_modulus)%N) :
  match unnest_rpc_get_leader_schedule_resp slot resp with
  | None => Exists out_of_epoch resp
  | Some s => ¬ Exists out_of_epoch resp ∧ (first_slot s ≤ slot ≤ last_slot s)%N ∧
      (∀ t, get s t = if decide (epoch_of t = epoch_of slot)
                      then Some (group_leader resp (t `mod` DEFAULT_SLOTS_PER_EPOCH / 4)) else None)
  end ∧
  ∀ e pk g, e ∈ resp → from_str e.1 = Some pk → (4 * g ∈ e.2)%N →
    (∀ e' pk', e' ∈ resp → from_str e'.1 = Some pk' → (4 * g ∈ e'.2)%N → pk' = pk) →
    group_leader resp g = pk.
Proof.
  split; [|intros; by eapply group_leader_unique].
  destruct (unnest_rpc_get_leader_schedule_resp slot resp) as [s|] eqn:E; [|by eapply unnest_panics].
  apply unnest_ok in E as (Hw & Hf & Hn & Hg); [|done]. split_and!; [done| | |].
  - rewrite Hf. by apply (epoch_slots (epoch_of slot) slot).
  - unfold last_slot. rewrite Hf, u64_add_small, u64_sub_small by (done || lia).
    pose proof (proj2 (epoch_slots (epoch_of slot) slot) eq_refl). lia.
  - intros t. case_decide as Ht; [by apply Hg|]. rewrite <-(wf_get_epoch s _ t Hw Hf) in Ht.
    destruct (get s t); [|done]. by destruct Ht.
Qed.

(** The pairs without the wrap-around. *)
Definition unnested (first : N) (l : list Pubkey) : list (N * Pubkey) :=
  mjoin (imap (λ i pubk, (λ j, (first + 4 * N.of_nat i + j, pubk)%N) <$> [0; 1; 2; 3]%N) l).

Lemma iter_unnested s : wf s → iter_unnested_schedule s = unnested (first_slot s) (schedule s).
Proof.
  intros (Hl & _ & Hb). unfold iter_unnested_schedule, unnested. f_equal.
  apply list_eq. intros i. rewrite !list_lookup_imap.
  destruct (schedule s !! i) as [pk|] eqn:E; [|done]. cbn -[u64_add u64_mul].
  apply lookup_lt_Some in E. destruct epoch_groups as [k Hk].
  rewrite Hk, N.div_mul in Hl by done. rewrite (N.mul_comm 4).
  assert (N.of_nat i * 4 + 4 ≤ DEFAULT_SLOTS_PER_EPOCH)%N as Hi by lia.
  rewrite !u64_mul_small by lia. rewrite !u64_add_small; try lia; [done|..]; rewrite ?u64_add_small; lia.
Qed.

Lemma unnested_cons first pk l : unnested first (pk :: l) =
  [(first, pk); (first + 1, pk); (first + 2, pk); (first + 3, pk)]%N ++ unnested (first + 4) l.
Proof.
  unfold unnested. rewrite imap_cons. cbn [mjoin list_join]. f_equal.
  - replace (first + 4 * N.of_nat 0)%N with first by lia. cbn. by rewrite N.add_0_r.
  - f_equal. apply imap_ext. intros i x _. unfold compose. rewrite Nat2N.inj_succ.
    by replace (first + 4 * N.succ (N.of_nat i))%N with (first + 4 + 4 * N.of_nat i)%N by lia.
Qed.

Lemma unnested_slots first l : fst <$> unnested first l = (λ i, first + N.of_nat i)%N <$> seq 0 (4 * length l).
Proof.
  revert first. induction l as [|pk l IH]; intros first; [done|].
  rewrite unnested_cons, fmap_app, IH. cbn [length].
  replace (4 * S (length l)) with (4 + 4 * length l) by lia. rewrite seq_app, fmap_app. f_equal.
  - cbn. rewrite N.add_0_r. done.
  - change (0 + 4) with (4 + 0). rewrite <-(fmap_add_seq 4), <-list_fmap_compose. apply list_fmap_ext. intros i x _.
    unfold compose. rewrite Nat2N.inj_add. lia.
Qed.

(** Iterating a schedule yields the slots of its epoch in order, each with the leader that
    lookup returns. *)
Theorem iteration_agrees_with_lookup s (Hw : wf s) :
  fst <$> iter_unnested_schedule s =
    (λ i, first_slot s + N.of_nat i)%N <$> seq 0 (N.to_nat DEFAULT_SLOTS_PER_EPOCH) ∧
  ∀ t pk, (t, pk) ∈ iter_unnested_schedule s ↔ get s t = Some pk.
Proof.
  rewrite iter_unnested by done. pose proof Hw as (Hl & _ & _). split.
  - rewrite unnested_slots, Hl. do 2 f_equal. destruct epoch_groups as [k Hk]. rewrite Hk, N.div_mul by done. lia.
  - intros t pk. rewrite wf_get by done. unfold unnested. rewrite list_elem_of_join.
    destruct epoch_groups as [k Hk]. split.
    + intros (x & Hin & (i & y & -> & Hy)%elem_of_lookup_imap_1).
      apply list_elem_of_fmap in Hin as (j & [= -> ->] & Hj).
      assert (j < 4)%N as Hj4 by (rewrite !elem_of_cons, elem_of_nil in Hj; lia).
      pose proof (lookup_lt_Some _ _ _ Hy) as Hi. rewrite Hl, Hk, N.div_mul in Hi by done.
      rewrite decide_True by lia. rewrite <-Hy. f_equal.
      rewrite <-(N.div_unique (first_slot s + 4 * N.of_nat i + j - first_slot s) 4 (N.of_nat i) j); lia.
    + case_decide as Hd; [|done]. intros Hy. assert (∃ o, t = first_slot s + o)%N as [o ->] by (exists (t - first_slot s)%N; lia).
      rewrite N.add_comm, N.add_sub in Hy.
      exists ((λ j, (first_slot s + 4 * N.of_nat (N.to_nat (o / 4)) + j, pk)%N) <$> [0; 1; 2; 3]%N). split.
      * apply list_elem_of_fmap. exists (o `mod` 4)%N. rewrite N2Nat.id. pose proof (N.div_mod o 4 ltac:(done)) as Ho.
        pose proof (N.mod_lt o 4 ltac:(done)) as Hm. split; [by rewrite <-N.add_assoc, <-Ho|].
        rewrite !elem_of_cons. revert Hm. generalize (o `mod` 4)%N. clear. lia.
      * by apply (elem_of_lookup_imap_2 (λ i pubk, (λ j, (first_slot s + 4 * N.of_nat i + j, pubk)%N) <$> [0; 1; 2; 3]%N)).
Qed.
End Schedule.

(** Epochs of eight slots, and an answer with an invalid key. *)
Definition demo_key (k : string) : option Pubkey :=
  if decide (k = "A"%string) then Some 11%N else if decide (k = "B"%string) then Some 12%N else None.
Definition demo_answer : list (string * list N) :=
  [("B"%string, [4; 5; 6; 7]%N); ("?"%string, [0; 1]%N); ("A"%string, [0; 1; 2; 3]%N)].

Lemma demo_pos : (0 < 8)%N. Proof. lia. Qed.
Lemma demo_groups : (4 | 8)%N. Proof. by exists 2%N. Qed.

Lemma unnested_schedule_is_the_answer_witness : ∃ s,
  unnest_rpc_get_leader_schedule_resp 8 demo_key 21 demo_answer = Some s ∧ (first_slot s ≤ 21 ≤ last_slot 8 s)%N ∧
  get 8 s 21 = Some 12%N ∧ group_leader demo_key demo_answer 0 = 11%N.
Proof.
  pose proof (unnested_schedule_is_the_answer 8 demo_key demo_pos demo_groups 21 demo_answer ltac:(by vm_compute)) as [H _].
  destruct (unnest_rpc_get_leader_schedule_resp 8 demo_key 21 demo_answer) as [s|] eqn:E.
  - exists s. destruct H as (_ & H & Hg). split_and!; [done|apply H|apply H| |by vm_compute].
    rewrite Hg. by vm_compute.
  - by vm_compute in E.
Defined.

Lemma iteration_agrees_with_lookup_witness : (18, 11)%N ∈ iter_unnested_schedule (mk_schedule 16 [11; 12]%N).
Proof.
  apply (proj2 (iteration_agrees_with_lookup 8 demo_pos demo_groups (mk_schedule 16 [11; 12]%N)
    ltac:(split_and!; [done|by exists 2%N|by vm_compute]))). by vm_compute.
Defined.
End Schedule.
