(* ===== verification/Managed.v ===== *)
(** The managed leader schedule ([rpc/schedule.rs]) and the predictor
    ([yellowstone_grpc/schedule.rs] of [crates/tpu-client/src]): a double buffer
    of epoch schedules behind a read-write lock, refreshed by a background task
    from RPC answers, poisoned when the task ends, shut down with its last handle. *)
From S2P Require Import Prelude Types Slot Schedule Driver.

Module Managed.
Import Schedule.
Section Managed.
Context (DEFAULT_SLOTS_PER_EPOCH : N) (from_str : string → option Pubkey).
#[local] Abbreviation get := (Schedule.get DEFAULT_SLOTS_PER_EPOCH).
#[local] Abbreviation wf := (Schedule.wf DEFAULT_SLOTS_PER_EPOCH).
#[local] Abbreviation epoch_of := (Schedule.epoch_of DEFAULT_SLOTS_PER_EPOCH).
#[local] Abbreviation unnest := (Schedule.unnest_rpc_get_leader_schedule_resp DEFAULT_SLOTS_PER_EPOCH from_str).

(** [lock_poisoned]: a writer panicked with the lock held; [read] and [write]
    then fail. *)
Record InnerManagedLeaderSchedule := mk_inner {
  double_buffer : CompactSortedSchedule * CompactSortedSchedule;
  fail : bool;
  lock_poisoned : bool
}.
#[export] Instance Inner_settable : Settable InnerManagedLeaderSchedule := λ r,
  mk_inner (double_buffer r) (fail r) (lock_poisoned r).

(** ** Readers: [None] is [Err(PoisonError)]. *)
Definition get_leader_from_schedules (m : InnerManagedLeaderSchedule) (slot : N) : option Pubkey :=
  get (if (first_slot (double_buffer m).2 <=? slot)%N then (double_buffer m).2 else (double_buffer m).1) slot.

Definition get_leader (m : InnerManagedLeaderSchedule) (slot : N) : option (option Pubkey) :=
  if lock_poisoned m then None else if fail m then None
  else Some (get_leader_from_schedules m slot).

Definition get_leaders_for_slots (m : InnerManagedLeaderSchedule) (slots : list N) : option (list (option Pubkey)) :=
  if lock_poisoned m then None else if fail m then None
  else Some (get_leader_from_schedules m <$> slots).

Definition div_ceil (a b : N) : N := ((a + (b - 1)) / b)%N.
(** [(start..end).step_by(4)]. *)
Definition step_by_4 (start end_ : N) : list N :=
  (λ i, start + 4 * N.of_nat i)%N <$> seq 0 (N.to_nat (div_ceil (end_ - start) 4)).

Definition push_leader (m : InnerManagedLeaderSchedule) (leaders : list Pubkey) (leader_slot : N) : list Pubkey :=
  match get_leader_from_schedules m leader_slot with
  | Some leader => if decide (leader ∈ leaders) then leaders else leaders ++ [leader]
  | None => leaders
  end.
Definition get_unique_leaders_for_slot_fanout (m : InnerManagedLeaderSchedule) (current_slot fanout_slots : N) :
    option (list Pubkey) :=
  if lock_poisoned m then None else if fail m then None
  else Some (foldl (push_leader m) [] (step_by_4 current_slot (u64_saturating_add current_slot fanout_slots))).

(** [YellowstoneUpcomingLeader::try_predict_next_n_leaders]. The schedule is read
    once per leader; [schedule_at i] is what the read [i] finds. *)
Record YellowstoneUpcomingLeader := mk_predictor {
  slot_tracker : Slot.AtomicSlotTracker;
  managed_schedule : nat → InnerManagedLeaderSchedule
}.
Fixpoint predict_from (schedule_at : nat → InnerManagedLeaderSchedule) (boundary : N) (idx : list nat)
    (leaders : list Pubkey) : list Pubkey :=
  match idx with
  | [] => leaders
  | i :: idx =>
      match get_leader (schedule_at i) (u64_add boundary (u64_mul (N.of_nat i) 4)) with
      | Some (Some leader) => predict_from schedule_at boundary idx (leaders ++ [leader])
      | Some None => predict_from schedule_at boundary idx leaders
      | None => []
      end
  end.
#[export] Instance yellowstone_predictor : UpcomingLeaderPredictor YellowstoneUpcomingLeader := λ p n,
  match Slot.load (slot_tracker p) with
  | inr slot => predict_from (managed_schedule p) (u64_saturating_sub slot (slot `mod` 4)) (seq 0 n) []
  | inl _ => []
  end.

(** ** The background task *)

(** What the RPC node answers during one turn: [None] is a client error. *)
Record RpcClient := mk_rpc {
  get_epoch_info : option (N * N);
  get_leader_schedule : N → option (option (list (string * list N)))
}.
Definition absolute_slot (info : N * N) : N := info.1.
Definition epoch (info : N * N) : N := info.2.

(** [FPanic]: the answer indexes out of the epoch. *)
Inductive Fetch := FErr | FNone | FPanic | FOk (s : CompactSortedSchedule).

Definition get_unnested_leader_schedule (rpc : RpcClient) (slot_ctx : option N) : Fetch :=
  match (match slot_ctx with Some slot => Some slot | None => absolute_slot <$> get_epoch_info rpc end) with
  | None => FErr
  | Some referenced_slot =>
      match get_leader_schedule rpc referenced_slot with
      | None => FErr
      | Some None => FNone
      | Some (Some nested) => match unnest referenced_slot nested with Some s => FOk s | None => FPanic end
      end
  end.

(** One turn of [auto_leader_schedule_loop] after its sleep: it goes on with an
    epoch, or ends, by a return or a panic. *)
Inductive Turn := Continue (current_epoch : N) | Ends.

Definition check_epoch (rpc : RpcClient) (current_epoch : N) (m : InnerManagedLeaderSchedule) :
    Turn * InnerManagedLeaderSchedule :=
  match epoch <$> get_epoch_info rpc with
  | None => (Continue current_epoch, m)
  | Some e =>
      if (e =? current_epoch)%N then
        let next_epoch_first_slot := u64_mul (u64_add current_epoch 1) DEFAULT_SLOTS_PER_EPOCH in
        match get_unnested_leader_schedule rpc (Some next_epoch_first_slot) with
        | FPanic => (Ends, m)
        | FErr | FNone => (Continue current_epoch, m)
        | FOk next_schedule =>
            if lock_poisoned m then (Ends, m)
            else (Continue current_epoch, m <| double_buffer ::= λ b, (b.1, next_schedule) |>)
        end
      else
        let first_slot_current_epoch := u64_mul e DEFAULT_SLOTS_PER_EPOCH in
        let next_epoch_first_slot := u64_mul (u64_add e 1) DEFAULT_SLOTS_PER_EPOCH in
        match get_unnested_leader_schedule rpc (Some first_slot_current_epoch),
              get_unnested_leader_schedule rpc (Some next_epoch_first_slot) with
        | FPanic, _ | _, FPanic => (Ends, m)
        | FOk current_schedule, FOk next_schedule =>
            if lock_poisoned m then (Ends, m)
            else (Continue e, m <| double_buffer := (current_schedule, next_schedule) |>)
        | _, _ => (Continue current_epoch, m)
        end
  end.

(** [MarkManagedLeaderScheduleFailedOnDrop]: however the task ends. *)
Definition mark_failed (m : InnerManagedLeaderSchedule) : InnerManagedLeaderSchedule :=
  if lock_poisoned m then m else m <| fail := true |>.

(** The schedule with its task ([None] once it ended) and its public handles. *)
Record ManagedLeaderSchedule := mk_managed {
  inner : InnerManagedLeaderSchedule;
  task : option N;
  handles : nat;
  shutdown : bool
}.
#[export] Instance ManagedLeaderSchedule_settable : Settable ManagedLeaderSchedule := λ r,
  mk_managed (inner r) (task r) (handles r) (shutdown r).

Inductive SpawnManagedLeaderScheduleError := Client | LeaderScheduleUnavailable (slot_ctx : option N) | SpawnPanic.

Definition fetched (f : Fetch) (slot_ctx : option N) : SpawnManagedLeaderScheduleError + CompactSortedSchedule :=
  match f with
  | FErr => inl Client | FNone => inl (LeaderScheduleUnavailable slot_ctx)
  | FPanic => inl SpawnPanic | FOk s => inr s
  end.
Definition spawn_managed_leader_schedule (rpc : RpcClient) : SpawnManagedLeaderScheduleError + ManagedLeaderSchedule :=
  match fetched (get_unnested_leader_schedule rpc None) None with
  | inl e => inl e
  | inr initial_schedule =>
      let current_epoch := (first_slot initial_schedule / DEFAULT_SLOTS_PER_EPOCH)%N in
      let next_epoch_first_slot := u64_mul (u64_add current_epoch 1) DEFAULT_SLOTS_PER_EPOCH in
      match fetched (get_unnested_leader_schedule rpc (Some next_epoch_first_slot)) (Some next_epoch_first_slot) with
      | inl e => inl e
      | inr next_schedule =>
          inr (mk_managed (mk_inner (initial_schedule, next_schedule) false false) (Some current_epoch) 1 false)
      end
  end.

(** [Cancelled]: the task sees the shutdown token. [Aborted]: it is aborted or
    dropped with the executor. *)
Inductive Event := Check (rpc : RpcClient) | CloneHandle | DropHandle | Cancelled | Aborted.

Definition end_task (m : ManagedLeaderSchedule) : ManagedLeaderSchedule :=
  m <| inner ::= mark_failed |> <| task := None |>.

Definition on_event (e : Event) (m : ManagedLeaderSchedule) : option ManagedLeaderSchedule :=
  match e with
  | Check rpc =>
      current_epoch ← task m;
      match check_epoch rpc current_epoch (inner m) with
      | (Continue e, i) => Some (m <| inner := i |> <| task := Some e |>)
      | (Ends, i) => Some (end_task (m <| inner := i |>))
      end
  | CloneHandle => if decide (0 < handles m) then Some (m <| handles ::= S |>) else None
  | DropHandle =>
      match handles m with
      | 0 => None
      | S n => Some (m <| handles := n |> <| shutdown := bool_decide (n = 0) |>)
      end
  | Cancelled => _ ← task m; if shutdown m then Some (end_task m) else None
  | Aborted => _ ← task m; Some (end_task m)
  end.
Definition run (m : ManagedLeaderSchedule) (es : list Event) : option ManagedLeaderSchedule :=
  foldl (λ o e, o ≫= on_event e) (Some m) es.

Lemma push_leaders_spec m l acc : NoDup acc →
  NoDup (foldl (push_leader m) acc l) ∧
  ∀ pk, pk ∈ foldl (push_leader m) acc l ↔ pk ∈ acc ∨ ∃ t, t ∈ l ∧ get_leader_from_schedules m t = Some pk.
Proof.
  revert acc. induction l as [|t l IH]; intros acc Hacc; cbn [foldl].
  { split; [done|]. set_solver. }
  assert (NoDup (push_leader m acc t) ∧ ∀ pk, pk ∈ push_leader m acc t ↔
    pk ∈ acc ∨ get_leader_from_schedules m t = Some pk) as [H1 H2].
  { unfold push_leader. destruct (get_leader_from_schedules m t) as [pk|]; [|set_solver].
    case_decide; [set_solver|]. split; [|set_solver]. apply NoDup_app; split_and!; [done|set_solver|apply NoDup_singleton]. }
  destruct (IH _ H1) as [H3 H4]. split; [done|]. intros pk. rewrite H4, H2. set_solver.
Qed.

Lemma push_leaders_length m l acc : length (foldl (push_leader m) acc l) ≤ length acc + length l.
Proof.
  revert acc. induction l as [|t l IH]; intros acc; cbn [foldl length]; [lia|].
  etrans; [apply IH|]. enough (length (push_leader m acc t) ≤ S (length acc)) by lia.
  unfold push_leader. destruct get_leader_from_schedules; [|lia]. case_decide; [lia|]. rewrite length_app. cbn. lia.
Qed.

(** ** Readers *)
Context (epoch_pos : (0 < DEFAULT_SLOTS_PER_EPOCH)%N) (epoch_groups : (4 | DEFAULT_SLOTS_PER_EPOCH)%N).

(** The buffers hold the schedules of epochs [e] and [e + 1]. *)
Definition holds_epochs (m : InnerManagedLeaderSchedule) (e : N) : Prop :=
  wf (double_buffer m).1 ∧ first_slot (double_buffer m).1 = (e * DEFAULT_SLOTS_PER_EPOCH)%N ∧
  wf (double_buffer m).2 ∧ first_slot (double_buffer m).2 = ((e + 1) * DEFAULT_SLOTS_PER_EPOCH)%N.

Lemma leader_from_schedules m e slot : holds_epochs m e →
  get_leader_from_schedules m slot =
    if decide (epoch_of slot = e) then get (double_buffer m).1 slot
    else if decide (epoch_of slot = (e + 1)%N) then get (double_buffer m).2 slot else None.
Proof.
  intros (H1 & H2 & H3 & H4). unfold get_leader_from_schedules.
  pose proof (wf_get_epoch _ epoch_pos epoch_groups _ _ slot H1 H2) as G1.
  pose proof (wf_get_epoch _ epoch_pos epoch_groups _ _ slot H3 H4) as G2.
  pose proof (epoch_slots _ epoch_pos (e + 1) slot) as B2. pose proof (epoch_slots _ epoch_pos e slot) as B1.
  rewrite H4. destruct (_ <=? slot)%N eqn:E.
  - apply N.leb_le in E. rewrite decide_False.
    2:{ intros He. apply B1 in He. rewrite N.mul_add_distr_r in E. lia. }
    case_decide as Hd; [done|]. rewrite <-G2 in Hd. by apply eq_None_not_Some.
  - apply N.leb_gt in E. case_decide as Hd; [done|].
    rewrite decide_False by (intros He; apply B2 in He; lia).
    rewrite <-G1 in Hd. by apply eq_None_not_Some.
Qed.

Lemma leader_is_Some m e slot : holds_epochs m e →
  is_Some (get_leader_from_schedules m slot) ↔ epoch_of slot = e ∨ epoch_of slot = (e + 1)%N.
Proof.
  intros Hm. rewrite (leader_from_schedules m e) by done. destruct Hm as (H1 & H2 & H3 & H4).
  case_decide as Hd; [|case_decide as Hd'].
  - rewrite (wf_get_epoch _ epoch_pos epoch_groups _ _ slot H1 H2). tauto.
  - rewrite (wf_get_epoch _ epoch_pos epoch_groups _ _ slot H3 H4). tauto.
  - split; [by intros [? [=]]|tauto].
Qed.

Lemma epoch_group t t' : (t / 4 = t' / 4)%N → epoch_of t = epoch_of t'.
Proof.
  intros Ht. apply epoch_slots; [done|]. destruct epoch_groups as [k Hk].
  pose proof (proj2 (epoch_slots _ epoch_pos (epoch_of t') t') eq_refl) as H.
  assert (epoch_of t' * DEFAULT_SLOTS_PER_EPOCH = 4 * (epoch_of t' * k))%N as E by (rewrite Hk; lia).
  rewrite E in *. assert (DEFAULT_SLOTS_PER_EPOCH = 4 * k)%N as E2 by lia. rewrite E2 in *.
  by apply (same_group_bounds t t').
Qed.

Lemma leader_group m e t t' : holds_epochs m e → (t / 4 = t' / 4)%N →
  get_leader_from_schedules m t = get_leader_from_schedules m t'.
Proof.
  intros Hm Ht. rewrite !(leader_from_schedules m e) by done. rewrite (epoch_group t t' Ht).
  destruct Hm as (H1 & _ & H3 & _).
  by rewrite (get_group _ epoch_pos epoch_groups (double_buffer m).1 t t'),
    (get_group _ epoch_pos epoch_groups (double_buffer m).2 t t').
Qed.

Lemma elem_of_step_by_4 a b t : t ∈ step_by_4 a b ↔ ∃ i, t = (a + 4 * i)%N ∧ (t < b)%N.
Proof.
  unfold step_by_4, div_ceil. rewrite list_elem_of_fmap. setoid_rewrite elem_of_seq.
  assert (∀ i, (i < (b - a + (4 - 1)) / 4)%N ↔ (a + 4 * i < b)%N) as Hi.
  { intros i. split; intros Hlt.
    - pose proof (N.Div0.mul_div_le (b - a + (4 - 1)) 4). lia.
    - apply N.le_succ_l. apply N.div_le_lower_bound; lia. }
  split.
  - intros (i & -> & Hlt). exists (N.of_nat i). split; [done|]. apply Hi. lia.
  - intros (i & -> & Hlt). exists (N.to_nat i). rewrite N2Nat.id. split; [done|]. apply Hi in Hlt. lia.
Qed.

(** The fan-out over a slot window returns distinct leaders, at most one per started group,
    each a leader of the window, and includes the leader of every group that a step of four
    from the current slot reaches. *)
Theorem fanout_covers_the_window m e current_slot fanout_slots
    (Hm : holds_epochs m e) (Hlock : lock_poisoned m = false) (Hfail : fail m = false)
    (Hmax : (current_slot + fanout_slots ≤ u64_max)%N) :
  ∃ leaders, get_unique_leaders_for_slot_fanout m current_slot fanout_slots = Some leaders ∧
    NoDup leaders ∧ length leaders ≤ N.to_nat (div_ceil fanout_slots 4) ∧
    (∀ pk, pk ∈ leaders → ∃ t, (current_slot ≤ t < current_slot + fanout_slots)%N ∧ get_leader m t = Some (Some pk)) ∧
    ∀ t pk, (current_slot ≤ t < current_slot + fanout_slots)%N → get_leader m t = Some (Some pk) →
      ((current_slot `mod` 4 = 0)%N ∨ (t / 4 < current_slot / 4 + div_ceil fanout_slots 4)%N) → pk ∈ leaders.
Proof.
  unfold get_unique_leaders_for_slot_fanout, get_leader. rewrite Hlock, Hfail.
  unfold u64_saturating_add. rewrite N.min_l by done.
  pose proof (push_leaders_spec m (step_by_4 current_slot (current_slot + fanout_slots)) [] ltac:(constructor)) as [H1 H2].
  eexists. split; [done|]. split_and!; [done| | |].
  - etrans; [apply push_leaders_length|]. unfold step_by_4. rewrite length_fmap, length_seq. cbn [length].
    replace (current_slot + fanout_slots - current_slot)%N with fanout_slots by lia. lia.
  - intros pk Hpk. apply H2 in Hpk as [Hn|(t & Ht & Hl)]; [set_solver|].
    apply elem_of_step_by_4 in Ht as (i & -> & Hlt). eexists. split; [|by rewrite Hl]. lia.
  - intros t pk Ht [= Hl] Hcov. apply H2. right.
    assert (current_slot / 4 ≤ t / 4)%N as Hle by (apply N.Div0.div_le_mono; lia).
    set (i := (t / 4 - current_slot / 4)%N).
    assert ((current_slot + 4 * i) / 4 = t / 4)%N as Hdiv.
    { rewrite (N.mul_comm 4), N.div_add by done. unfold i. clear -Hle. lia. }
    exists (current_slot + 4 * i)%N. split; [|by rewrite (leader_group m e _ t)].
    apply elem_of_step_by_4. exists i. split; [done|].
    pose proof (N.div_mod t 4 ltac:(done)) as Et. pose proof (N.div_mod current_slot 4 ltac:(done)) as Ec.
    pose proof (N.mod_lt t 4 ltac:(done)). pose proof (N.mod_lt current_slot 4 ltac:(done)).
    destruct Hcov as [Hz|Hlt].
    + rewrite Hz in *. assert (current_slot + 4 * i ≤ t)%N; [|lia]. unfold i. clear -Et Ec Hle.
      revert Et Ec Hle. generalize (t / 4)%N (current_slot / 4)%N (t `mod` 4)%N. lia.
    + assert (i < div_ceil fanout_slots 4)%N as Hi.
      { unfold i. revert Hlt Hle. clear. generalize (t / 4)%N (current_slot / 4)%N. lia. }
      unfold div_ceil in Hi. pose proof (N.Div0.mul_div_le (fanout_slots + (4 - 1)) 4).
      clear Hdiv. clearbody i. lia.
Qed.

(** The predictor returns the leaders of the current and the following leader windows in
    order, starting with the leader of the current slot. *)
Theorem prediction_starts_at_the_current_leader p e n slot
    (Hslot : Slot.load (slot_tracker p) = inr slot) (Hepoch : epoch_of slot = e)
    (Hb : (slot + 4 * N.of_nat n < u64_modulus)%N)
    (Hm : ∀ i, i < n → holds_epochs (managed_schedule p i) e ∧
                lock_poisoned (managed_schedule p i) = false ∧ fail (managed_schedule p i) = false) :
  try_predict_next_n_leaders p n =
    omap (λ i, get_leader_from_schedules (managed_schedule p i) (slot + 4 * N.of_nat i)) (seq 0 n) ∧
  (0 < n → head (try_predict_next_n_leaders p n) = get_leader_from_schedules (managed_schedule p 0) slot) ∧
  (N.of_nat n ≤ DEFAULT_SLOTS_PER_EPOCH / 4 → length (try_predict_next_n_leaders p n) = n)%N.
Proof.
  unfold try_predict_next_n_leaders, yellowstone_predictor. rewrite Hslot.
  assert (∀ idx acc, (∀ i, i ∈ idx → i < n) →
    predict_from (managed_schedule p) (u64_saturating_sub slot (slot `mod` 4)) idx acc =
    acc ++ omap (λ i, get_leader_from_schedules (managed_schedule p i) (slot + 4 * N.of_nat i)) idx) as Hp.
  { induction idx as [|i idx IH]; intros acc Hidx; cbn; [by rewrite app_nil_r|].
    destruct (Hm i) as (Hh & Hl & Hf); [set_solver|]. assert (i < n) as Hi by set_solver.
    assert (N.of_nat i * 4 < u64_modulus)%N as Hi1 by (clear Hepoch; lia).
    assert (slot - slot `mod` 4 + N.of_nat i * 4 < u64_modulus)%N as Hi2.
    { revert Hb Hi. clear. generalize (slot `mod` 4)%N. lia. }
    unfold u64_saturating_sub. rewrite (u64_mul_small _ 4), u64_add_small by done.
    unfold get_leader. rewrite Hl, Hf.
    rewrite (leader_group _ e _ (slot + 4 * N.of_nat i) Hh).
    2:{ rewrite (N.mul_comm _ 4), !(N.mul_comm 4), !N.div_add by done. f_equal.
        pose proof (N.Div0.mul_div_le slot 4). rewrite N.Div0.mod_eq.
        replace (slot - (slot - 4 * (slot / 4)))%N with (slot / 4 * 4)%N by (revert H; generalize (slot / 4)%N; lia).
        by rewrite N.div_mul. }
    destruct get_leader_from_schedules as [pk|] eqn:E; rewrite IH by set_solver; [by rewrite <-app_assoc|done]. }
  rewrite Hp by (intros i Hi%elem_of_seq; lia). cbn [app].
  assert (∀ i, i < n → (4 * N.of_nat i < DEFAULT_SLOTS_PER_EPOCH)%N →
    is_Some (get_leader_from_schedules (managed_schedule p i) (slot + 4 * N.of_nat i))) as Hs.
  { intros i Hi Hlt. apply (leader_is_Some _ e); [by apply Hm|].
    pose proof (proj2 (epoch_slots _ epoch_pos e slot) Hepoch).
    destruct (N.lt_ge_cases (slot + 4 * N.of_nat i) ((e + 1) * DEFAULT_SLOTS_PER_EPOCH)) as [H1|H1];
      [left|right]; apply epoch_slots; lia. }
  split_and!; [done| |].
  - intros Hn. destruct n as [|n]; [lia|]. destruct (Hs 0) as [pk Hpk]; [lia..|].
    cbn [seq omap list_omap]. rewrite N.mul_0_r, N.add_0_r in Hpk. cbn. by rewrite N.add_0_r, Hpk.
  - intros Hn. rewrite length_omap_is_Some, length_seq; [done|]. apply Forall_forall.
    intros i Hi%elem_of_seq. apply Hs; [lia|]. pose proof (N.Div0.mul_div_le DEFAULT_SLOTS_PER_EPOCH 4). lia.
Qed.

(** ** The task keeps the buffers on two consecutive epochs *)

(** Answers whose epochs are far from the end of the 64-bit range. *)
Definition sane (rpc : RpcClient) : Prop :=
  match get_epoch_info rpc with
  | Some info => ((epoch_of (absolute_slot info) + 3) * DEFAULT_SLOTS_PER_EPOCH < u64_modulus ∧
                  (epoch info + 3) * DEFAULT_SLOTS_PER_EPOCH < u64_modulus)%N
  | None => True
  end.
Definition rpcs (es : list Event) : list RpcClient := omap (λ e, match e with Check rpc => Some rpc | _ => None end) es.

(** [s] is the answer of one of the [l] for a slot of epoch [e]. *)
Definition answered (l : list RpcClient) (e : N) (s : CompactSortedSchedule) : Prop :=
  ∃ rpc slot resp, rpc ∈ l ∧ get_leader_schedule rpc slot = Some (Some resp) ∧ epoch_of slot = e ∧
    unnest slot resp = Some s.

Lemma answered_mono l l' e s : l ⊆ l' → answered l e s → answered l' e s.
Proof. intros Hl (rpc & slot & resp & ? & ?). exists rpc, slot, resp. split; [by apply Hl|done]. Qed.

Lemma epoch_of_first e : epoch_of (e * DEFAULT_SLOTS_PER_EPOCH) = e.
Proof. unfold Schedule.epoch_of. apply N.div_mul. lia. Qed.

Lemma answered_wf l e s : ((e + 1) * DEFAULT_SLOTS_PER_EPOCH < u64_modulus)%N → answered l e s →
  wf s ∧ first_slot s = (e * DEFAULT_SLOTS_PER_EPOCH)%N.
Proof.
  intros He (rpc & slot & resp & _ & _ & Hs & Hu). subst e.
  eapply unnest_ok in Hu as (H1 & H2 & _); [done..|lia].
Qed.

Lemma fetch_answered rpc l slot s : rpc ∈ l → get_unnested_leader_schedule rpc (Some slot) = FOk s →
  answered l (epoch_of slot) s.
Proof.
  unfold get_unnested_leader_schedule. intros Hl. destruct (get_leader_schedule rpc slot) as [[resp|]|] eqn:E; try done.
  destruct (unnest slot resp) as [s'|] eqn:Eu; [|done]. intros [= <-]. exists rpc, slot, resp. done.
Qed.

Lemma fetch_epoch rpc l e s : rpc ∈ l → (e * DEFAULT_SLOTS_PER_EPOCH < u64_modulus)%N →
  get_unnested_leader_schedule rpc (Some (u64_mul e DEFAULT_SLOTS_PER_EPOCH)) = FOk s → answered l e s.
Proof.
  intros Hl He Hf. apply (fetch_answered _ l) in Hf; [|done]. by rewrite u64_mul_small, epoch_of_first in Hf.
Qed.

Lemma u64_succ e : ((e + 3) * DEFAULT_SLOTS_PER_EPOCH < u64_modulus)%N → u64_add e 1 = (e + 1)%N.
Proof. intros He. apply u64_add_small. clear epoch_groups. nia. Qed.

Record inv (l : list RpcClient) (m : ManagedLeaderSchedule) : Prop := {
  inv_lock : lock_poisoned (inner m) = false;
  inv_fail : fail (inner m) = bool_decide (task m = None);
  inv_buffers : ∃ e, ((e + 3) * DEFAULT_SLOTS_PER_EPOCH < u64_modulus)%N ∧
    answered l e (double_buffer (inner m)).1 ∧ answered l (e + 1) (double_buffer (inner m)).2 ∧
    ∀ e', task m = Some e' → e' = e
}.

Lemma inv_mono l l' m : l ⊆ l' → inv l m → inv l' m.
Proof.
  intros Hl [H1 H2 (e & He & Ha & Hb & Ht)]. split; [done..|]. exists e. split_and!; [done| | |done]; by eapply answered_mono.
Qed.

Lemma inv_end_task l m : inv l m → inv l (end_task m).
Proof.
  intros [H1 H2 (e & He & Ha & Hb & Ht)]. unfold end_task, mark_failed. split; upd_simpl; rewrite H1; upd_simpl; [done..|].
  exists e. split_and!; done.
Qed.

Lemma spawn_inv rpc m : sane rpc → spawn_managed_leader_schedule rpc = inr m → inv [rpc] m.
Proof.
  intros Hs. unfold spawn_managed_leader_schedule. unfold get_unnested_leader_schedule at 1.
  unfold sane in Hs. destruct (get_epoch_info rpc) as [info|]; cbn [fmap option_fmap option_map]; [|done].
  destruct Hs as [Hs _]. destruct (get_leader_schedule rpc (absolute_slot info)) as [[resp|]|] eqn:Er; try done.
  destruct (unnest (absolute_slot info) resp) as [s|] eqn:Eu; [|done]. cbn [fetched].
  set (e := epoch_of (absolute_slot info)) in *.
  assert (answered [rpc] e s) as Ha.
  { exists rpc, (absolute_slot info), resp. split_and!; [set_solver|done..]. }
  destruct (answered_wf [rpc] e s) as [Hw Hf]; [lia|done|].
  rewrite Hf, (N.div_mul e) by lia. rewrite u64_succ by done.
  destruct (get_unnested_leader_schedule rpc (Some _)) as [| | |s2] eqn:E2; try done. intros [= <-].
  apply (fetch_epoch rpc [rpc]) in E2; [|set_solver|lia].
  split; [done|done|]. exists e. split_and!; [done..|]. by intros e' [= <-].
Qed.

Lemma check_inv l rpc e m : sane rpc → inv l m → task m = Some e →
  match check_epoch rpc e (inner m) with
  | (Continue e, i) => inv (rpc :: l) (m <| inner := i |> <| task := Some e |>)
  | (Ends, i) => inv (rpc :: l) (m <| inner := i |>)
  end.
Proof.
  intros Hs [H1 H2 (e0 & He & Ha & Hb & Ht)] Hte. specialize (Ht e Hte) as <-. rewrite Hte in H2.
  pose proof (answered_mono l (rpc :: l) _ _ ltac:(set_solver) Ha) as Ha'.
  pose proof (answered_mono l (rpc :: l) _ _ ltac:(set_solver) Hb) as Hb'.
  assert (inv (rpc :: l) (m <| inner := inner m |> <| task := Some e |>)) as Hkeep.
  { split; upd_simpl; [done..|]. exists e. split_and!; [done..|]. by intros ? [= <-]. }
  assert (inv (rpc :: l) (m <| inner := inner m |>)) as Hkeep'.
  { split; upd_simpl; [done|by rewrite Hte|]. exists e. rewrite Hte. split_and!; [done..|]. by intros ? [= <-]. }
  unfold check_epoch, sane in *. destruct (get_epoch_info rpc) as [info|]; cbn [fmap option_fmap option_map]; [|done].
  rewrite H1. destruct Hs as [_ Hs]. destruct (epoch info =? e)%N eqn:Ee.
  - rewrite u64_succ by done. destruct (get_unnested_leader_schedule rpc _) as [| | |s2] eqn:E2; try done.
    apply (fetch_epoch rpc (rpc :: l)) in E2; [|set_solver|lia].
    split; upd_simpl; [done..|]. exists e. split_and!; [done..|]. by intros ? [= <-].
  - rewrite u64_succ by done.
    destruct (get_unnested_leader_schedule rpc (Some (u64_mul (epoch info) DEFAULT_SLOTS_PER_EPOCH))) as [| | |s1] eqn:E1,
      (get_unnested_leader_schedule rpc (Some (u64_mul (epoch info + 1) DEFAULT_SLOTS_PER_EPOCH))) as [| | |s2] eqn:E2; try done.
    apply (fetch_epoch rpc (rpc :: l)) in E1; [|set_solver|lia]. apply (fetch_epoch rpc (rpc :: l)) in E2; [|set_solver|lia].
    split; upd_simpl; [done..|]. exists (epoch info). split_and!; [done..|]. by intros ? [= <-].
Qed.

Lemma event_inv l e m m' : inv l m → (∀ rpc, e = Check rpc → sane rpc) → on_event e m = Some m' →
  inv (rpcs [e] ++ l) m'.
Proof.
  intros Hi Hs. destruct e as [rpc| | | |]; cbn [on_event rpcs omap list_omap app].
  - destruct (task m) as [e|] eqn:Et; cbn; [|done]. pose proof (check_inv l rpc e m (Hs _ eq_refl) Hi Et) as Hc.
    destruct (check_epoch rpc e (inner m)) as [[e'|] i]; intros [= <-]; [done|by apply inv_end_task].
  - case_decide; [|done]. intros [= <-]. by destruct Hi; split; upd_simpl.
  - destruct (handles m) as [|n]; [done|]. intros [= <-]. by destruct Hi; split; upd_simpl.
  - destruct (task m); cbn; [|done]. destruct (shutdown m); [|done]. intros [= <-]. by apply inv_end_task.
  - destruct (task m); cbn; [|done]. intros [= <-]. by apply inv_end_task.
Qed.

Lemma run_inv es l m m' : Forall sane (rpcs es) → inv l m → run m es = Some m' → ∃ l', l' ≡ₚ rpcs es ++ l ∧ inv l' m'.
Proof.
  revert m'. induction es as [|e es IH] using rev_ind; intros m' Hs Hi.
  { intros [= <-]. by exists l. }
  unfold run, rpcs in *. rewrite omap_app in Hs. apply Forall_app in Hs as [Hs1 Hs2]. rewrite foldl_app. cbn.
  destruct (foldl _ _ es) as [m0|]; [|done]. cbn. intros He.
  destruct (IH m0 Hs1 Hi eq_refl) as (l0 & Hl0 & Hi0). exists (rpcs [e] ++ l0). split.
  - rewrite Hl0. unfold rpcs. rewrite omap_app, <-app_assoc, (app_assoc (omap _ [e])).
    rewrite (Permutation_app_comm (omap _ [e])). by rewrite <-app_assoc.
  - apply event_inv with m0; [done| |done]. intros rpc ->. unfold rpcs in *. cbn in Hs2. by apply Forall_cons in Hs2 as [? _].
Qed.

Definition in_epochs (slot e : N) : Prop := epoch_of slot = e ∨ epoch_of slot = (e + 1)%N.

(** C25: Through every history of checks, handle clones and drops and cancellations, the
    managed schedule answers, for the epoch of its task and the next one, with a schedule
    an RPC answer gave for that epoch, nothing for other slots, and an error as soon as its
    task is gone. *)
Theorem managed_schedule_serves_two_epochs rpc0 m0 es m
    (Hspawn : spawn_managed_leader_schedule rpc0 = inr m0) (Hrun : run m0 es = Some m)
    (Hsane : Forall sane (rpc0 :: rpcs es)) (slot : N) :
  match task m, get_leader (inner m) slot with
  | None, r => r = None
  | Some _, None => False
  | Some e, Some None => ¬ in_epochs slot e
  | Some e, Some (Some leader) => in_epochs slot e ∧
      ∃ s, answered (rpc0 :: rpcs es) (epoch_of slot) s ∧ get s slot = Some leader
  end.
Proof.
  apply Forall_cons in Hsane as [Hs0 Hs].
  destruct (run_inv es _ m0 m Hs (spawn_inv rpc0 m0 Hs0 Hspawn) Hrun) as (l & Hl & [H1 H2 (e & He & Ha & Hb & Ht)]).
  assert (l ⊆ rpc0 :: rpcs es) as Hsub by (intros x; rewrite Hl; set_solver).
  unfold get_leader. rewrite H1, H2. destruct (task m) as [e'|]; [|by rewrite bool_decide_true].
  rewrite bool_decide_false by done. rewrite (Ht e' eq_refl).
  destruct (answered_wf l e _ ltac:(lia) Ha) as [Hw1 Hf1].
  destruct (answered_wf l (e + 1) _ ltac:(lia) Hb) as [Hw2 Hf2].
  assert (holds_epochs (inner m) e) as Hh by done.
  pose proof (leader_is_Some _ e slot Hh) as Hi. fold (in_epochs slot e) in Hi.
  pose proof (leader_from_schedules _ e slot Hh) as Hg.
  destruct (get_leader_from_schedules (inner m) slot) as [leader|] eqn:El.
  - split; [by apply Hi|]. case_decide as Hd; [|case_decide as Hd'; [|done]]; rewrite ?Hd, ?Hd'.
    + exists (double_buffer (inner m)).1. split; [by eapply answered_mono|done].
    + exists (double_buffer (inner m)).2. split; [by eapply answered_mono|done].
  - rewrite <-Hi. by intros [? [=]].
Qed.
End Managed.

(** ** Concrete runs: epochs of eight slots *)
Definition demo_buffers : InnerManagedLeaderSchedule :=
  mk_inner (mk_schedule 16 [11; 12]%N, mk_schedule 24 [13; 11]%N) false false.
Lemma demo_holds : holds_epochs 8 demo_buffers 2.
Proof. unfold holds_epochs, wf. split_and!; try done; [by exists 2%N|by exists 3%N]. Qed.

Lemma fanout_covers_the_window_witness :
  get_unique_leaders_for_slot_fanout 8 demo_buffers 18 12 = Some [11; 12; 13]%N ∧
  ∃ leaders, get_unique_leaders_for_slot_fanout 8 demo_buffers 18 12 = Some leaders ∧ NoDup leaders.
Proof.
  split; [by vm_compute|].
  destruct (fanout_covers_the_window 8 demo_pos demo_groups demo_buffers 2 18 12 demo_holds eq_refl eq_refl
    ltac:(by vm_compute)) as (l & H1 & H2 & _). by exists l.
Defined.

Definition demo_predictor : YellowstoneUpcomingLeader := mk_predictor (Slot.new 22) (λ _, demo_buffers).
Lemma prediction_starts_at_the_current_leader_witness :
  length (yellowstone_predictor 8 demo_predictor 2) = 2 ∧ yellowstone_predictor 8 demo_predictor 2 = [12; 13]%N.
Proof.
  pose proof (prediction_starts_at_the_current_leader 8 demo_pos demo_groups demo_predictor 2 2 22 eq_refl
    ltac:(by vm_compute) ltac:(by vm_compute) ltac:(intros; split_and!; [apply demo_holds|done|done])) as (_ & _ & H).
  split; [apply H; by vm_compute|by vm_compute].
Defined.

(** The node answers in epoch 2, then in epoch 3; the last handle is dropped. *)
Definition demo_rpc (slot : N) : RpcClient := mk_rpc (Some (slot, slot / 8)%N) (λ _, Some (Some demo_answer)).
Definition demo_events : list Event := [Check (demo_rpc 23); Check (demo_rpc 24); DropHandle].
Lemma managed_schedule_serves_two_epochs_witness : ∃ m0 m,
  spawn_managed_leader_schedule 8 demo_key (demo_rpc 20) = inr m0 ∧ run 8 demo_key m0 demo_events = Some m ∧
  task m = Some 3%N ∧ shutdown m = true ∧ in_epochs 8 37 3.
Proof.
  destruct (spawn_managed_leader_schedule 8 demo_key (demo_rpc 20)) as [|m0] eqn:E0; [by vm_compute in E0|].
  destruct (run 8 demo_key m0 demo_events) as [m|] eqn:E1; [|vm_compute in E0; injection E0 as <-; by vm_compute in E1].
  pose proof (managed_schedule_serves_two_epochs 8 demo_key demo_pos demo_groups (demo_rpc 20) m0 demo_events m E0 E1
    ltac:(repeat constructor; by vm_compute) 37) as H.
  exists m0, m. split_and!; [done..| | |];
    vm_compute in E0; injection E0 as <-; vm_compute in E1; injection E1 as <-; [done|done|].
  vm_compute in H. by destruct H as [H _].
Defined.
End Managed.
