(* ===== verification/Sender.v ===== *)
(** The producers' side ([sender.rs], [yellowstone_grpc/sender.rs] of
    [crates/tpu-client/src]): a handle on the driver's channel, and the sender that
    routes a transaction to the leaders of its fan-out window. *)
From S2P Require Import Prelude Types Runtime Slot Schedule Managed.
From Stdlib Require Import Strings.Byte.

Module Sender.

Inductive TpuSenderErrorKind := Full | Closed.
Inductive SendErrorKind :=
  | SendClosedKind | SendFullKind | SlotTrackerDisconnected | ManagedLeaderScheduleDisconnected | UnknownLeader.

Definition DEFAULT_TPU_SENDER_CHANNEL_CAPACITY : nat := 100 * 1000.

Section Sender.
Context {Ch : Type} `{MC : Mpsc Ch TpuSenderTxn} `{TI : LeaderTpuInfoService Tpu}.
Context (DEFAULT_SLOTS_PER_EPOCH : N).
Implicit Types (c : Ch).

(** [TpuSender::try_send_txn]; [None] is [Ok(())]. *)
Definition base_try_send_txn (txn : TpuSenderTxn) (c : Ch) : option TpuSenderErrorKind * Ch :=
  match try_send txn c with
  | (SendOk, c) => (None, c)
  | (SendFull, c) => (Some Full, c)
  | (SendClosed, c) => (Some Closed, c)
  end.

Record YellowstoneTpuSender := mk {
  atomic_slot_tracker : Slot.AtomicSlotTracker;
  leader_schedule : Managed.InnerManagedLeaderSchedule;
  leader_tpu_info : Tpu;
  tpu_port_kind : TpuPortKind;
  send_fanout_slots : N
}.

(** [create_yellowstone_tpu_sender_with_clients], once its dependencies run. *)
Definition create_yellowstone_tpu_sender (config : TpuSenderConfig) (slot_tracker : Slot.AtomicSlotTracker)
    (schedule : Managed.InnerManagedLeaderSchedule) (tpu_info_service : Tpu) : YellowstoneTpuSender :=
  mk slot_tracker schedule tpu_info_service (tpu_port config)
     (N.min (Types.send_fanout_slots config) MAX_SEND_FANOUT_SLOTS).

Definition map_err (err : TpuSenderErrorKind) : SendErrorKind :=
  match err with Closed => SendClosedKind | Full => SendFullKind end.

(** [sent_addr]: [None] without deduplication, else the borrowed
    [Option<SocketAddr>]. The result, [None] for [Ok(())], comes with what the
    borrow holds afterwards. *)
Definition send_txn_to_leader (s : YellowstoneTpuSender) (sig : Signature) (wire_txn : list byte) (leader : Pubkey)
    (sent_addr : option (option SocketAddr)) (c : Ch) :
    option SendErrorKind * option (option SocketAddr) * Ch :=
  let queued_addr := if sent_addr is Some _ then get_quic_dest_addr (leader_tpu_info s) leader (tpu_port_kind s) else None in
  if decide (is_Some queued_addr ∧ sent_addr = Some queued_addr) then (None, sent_addr, c)
  else
    match base_try_send_txn (from_bytes sig leader wire_txn) c with
    | (Some err, c) => (Some (map_err err), sent_addr, c)
    | (None, c) =>
        (None, match sent_addr, queued_addr with Some _, Some addr => Some (Some addr) | _, _ => sent_addr end, c)
    end.

(** The variables of the loop of [send_txn_fanout]. *)
Record Loop := mk_loop {
  sent_addr : option SocketAddr;
  first_error : option SendErrorKind;
  sent_any : bool;
  chan : Ch
}.
Definition fanout_step (s : YellowstoneTpuSender) (sig : Signature) (wire_txn : list byte) (dedupe_by_addr : bool)
    (l : Loop) (leader : Pubkey) : Loop :=
  let '(res, addr, c) :=
    send_txn_to_leader s sig wire_txn leader (if dedupe_by_addr then Some (sent_addr l) else None) (chan l) in
  let addr := if dedupe_by_addr then default None addr else sent_addr l in
  match res with
  | None => mk_loop addr (first_error l) true c
  | Some kind => mk_loop addr (if first_error l is None then Some kind else first_error l) (sent_any l) c
  end.

(** The result is [None] for [Ok(())]; an [Err] also hands the bytes back. *)
Definition send_txn_fanout (s : YellowstoneTpuSender) (sig : Signature) (txn : list byte) (c : Ch) :
    option (SendErrorKind * list byte) * Ch :=
  match Slot.load (atomic_slot_tracker s) with
  | inl _ => (Some (SlotTrackerDisconnected, txn), c)
  | inr current_slot =>
      match Managed.get_unique_leaders_for_slot_fanout DEFAULT_SLOTS_PER_EPOCH (leader_schedule s) current_slot
              (send_fanout_slots s) with
      | None => (Some (ManagedLeaderScheduleDisconnected, txn), c)
      | Some [] => (Some (UnknownLeader, txn), c)
      | Some leaders =>
          let l := foldl (fanout_step s sig txn (bool_decide (1 < length leaders))) (mk_loop None None false c) leaders in
          (if sent_any l then None else Some (default UnknownLeader (first_error l), txn), chan l)
      end
  end.
(** [try_send_txn] and [send_txn]. *)
Definition try_send_txn := send_txn_fanout.

(** ** The loop *)
Definition dest (s : YellowstoneTpuSender) (leader : Pubkey) : option SocketAddr :=
  get_quic_dest_addr (leader_tpu_info s) leader (tpu_port_kind s).

(** What one leader does to the loop: it is sent to, coalesced, or refused. *)
Lemma fanout_step_cases s sig wire d l leader :
  let l' := fanout_step s sig wire d l leader in
  (sent_any l' = true ∧ first_error l' = first_error l ∧
     buffered (chan l') = buffered (chan l) ++ [from_bytes sig leader wire] ∧
     sent_addr l' = (if d then (if dest s leader is Some a then Some a else sent_addr l) else sent_addr l) ∧
     capacity (chan l') = capacity (chan l) ∧ rx_closed (chan l') = rx_closed (chan l)) ∨
  (d = true ∧ is_Some (dest s leader) ∧ sent_addr l = dest s leader ∧
     l' = mk_loop (sent_addr l) (first_error l) true (chan l)) ∨
  (l' = mk_loop (sent_addr l)
          (if first_error l is None then Some (if rx_closed (chan l) then SendClosedKind else SendFullKind) else first_error l)
          (sent_any l) (chan l) ∧
     (rx_closed (chan l) = true ∨ capacity (chan l) ≤ length (buffered (chan l)))).
Proof.
  cbn zeta. unfold fanout_step, send_txn_to_leader, base_try_send_txn. fold (dest s leader).
  pose proof (try_send_spec (from_bytes sig leader wire) (chan l)) as Hs.
  pose proof (try_send_meta (from_bytes sig leader wire) (chan l)) as Hm.
  destruct (try_send (from_bytes sig leader wire) (chan l)) as [r c']. cbn in Hm. destruct Hm as [Hm1 Hm2].
  destruct d; cbn.
  - case_decide as Hd; [right; left; naive_solver|].
    destruct r; [left|right; right..]; cbn.
    + destruct Hs as (H1 & H2 & H3). split_and!; try done. by destruct (dest s leader).
    + destruct Hs as (-> & H2 & ->). split; [done|by right].
    + destruct Hs as (-> & ->). split; [done|by left].
  - rewrite decide_False by (by intros [[? ?] _]).
    destruct r; [left|right; right..]; cbn.
    + destruct Hs as (H1 & H2 & H3). by split_and!.
    + destruct Hs as (-> & H2 & ->). split; [done|by right].
    + destruct Hs as (-> & ->). split; [done|by left].
Qed.

(** What a run over [leaders] does, with the leaders [enqueued]. *)
Record loop_run (s : YellowstoneTpuSender) sig wire (d : bool) (l : Loop) (leaders enqueued : list Pubkey) (l' : Loop) : Prop := {
  run_sublist : enqueued `sublist_of` leaders;
  run_buffered : buffered (chan l') = buffered (chan l) ++ ((λ leader, from_bytes sig leader wire) <$> enqueued);
  run_capacity : capacity (chan l') = capacity (chan l);
  run_closed : rx_closed (chan l') = rx_closed (chan l);
  run_any : sent_any l' = true ↔ sent_any l = true ∨ enqueued ≠ [];
  run_idle : enqueued = [] → chan l' = chan l ∧
    (leaders ≠ [] → sent_any l = false → first_error l = None →
     first_error l' = Some (if rx_closed (chan l) then SendClosedKind else SendFullKind));
  run_cover x : x ∈ leaders → x ∈ enqueued ∨
    (d = true ∧ ∃ a, dest s x = Some a ∧ (sent_addr l = Some a ∨ ∃ y, y ∈ enqueued ∧ dest s y = Some a)) ∨
    rx_closed (chan l) = true ∨ capacity (chan l) ≤ length (buffered (chan l'))
}.

(** The first error is never replaced. *)
Lemma first_error_kept s sig wire d leaders l e : first_error l = Some e →
  first_error (foldl (fanout_step s sig wire d) l leaders) = Some e.
Proof.
  revert l. induction leaders as [|x leaders IH]; intros l He; cbn [foldl]; [done|]. apply IH.
  destruct (fanout_step_cases s sig wire d l x) as [(_ & Hf & _)|[(_ & _ & _ & ->)|[-> _]]]; [by rewrite Hf|done|].
  cbn. by rewrite He.
Qed.

Lemma fanout_run s sig wire d leaders l : (is_Some (sent_addr l) → sent_any l = true) →
  ∃ enqueued, loop_run s sig wire d l leaders enqueued (foldl (fanout_step s sig wire d) l leaders).
Proof.
  revert l. induction leaders as [|x leaders IH]; intros l Hinv; cbn [foldl].
  { exists []. split; try done; [by rewrite app_nil_r|naive_solver|set_solver]. }
  destruct (fanout_step_cases s sig wire d l x) as [(H1 & H2 & H3 & H4 & H5 & H6)|[(H1 & H2 & H3 & ->)|[-> H]]].
  - set (l1 := fanout_step s sig wire d l x) in *. destruct (IH l1) as [E [R1 R2 R3 R4 R5 R6 R7]]; [done|].
    exists (x :: E). split.
    + by apply sublist_skip.
    + by rewrite R2, H3, <-app_assoc.
    + congruence.
    + congruence.
    + rewrite R5, H1. split; intros _; [by right|by left].
    + done.
    + intros y [->|Hy]%elem_of_cons; [by left; left|].
      destruct (R7 y Hy) as [Hin|[(-> & a & Ha & Hs)|Hc]]; [by left; right| |right; right; by rewrite <-H6, <-H5].
      right; left. split; [done|]. exists a. split; [done|].
      destruct Hs as [Hs|(z & ? & ?)]; [|right; exists z; set_solver].
      rewrite H4 in Hs. destruct (dest s x) as [b|] eqn:Eb; [|by left]. right. exists x. split; [by left|congruence].
  - set (l1 := mk_loop _ _ _ _) in *. destruct (IH l1) as [E [R1 R2 R3 R4 R5 R6 R7]]; [done|].
    exists E. assert (sent_any l = true) as Hany by (apply Hinv; by rewrite H3). split; try done.
    + by apply sublist_cons.
    + rewrite R5. cbn. naive_solver.
    + intros HE. destruct (R6 HE) as [Hc _]. split; [done|]. intros _. congruence.
    + intros y [->|Hy]%elem_of_cons; [|by apply R7]. right; left. destruct H2 as [a Ha].
      split; [done|]. exists a. split; [done|]. left. congruence.
  - set (l1 := mk_loop _ _ _ _) in *. destruct (IH l1) as [E [R1 R2 R3 R4 R5 R6 R7]]; [done|].
    exists E. split; try done.
    + by apply sublist_cons.
    + intros HE. destruct (R6 HE) as [Hc _]. split; [done|]. intros _ _ Hf. apply first_error_kept.
      unfold l1. cbn. by rewrite Hf.
    + intros y [->|Hy]%elem_of_cons; [|by apply R7]. right; right. destruct H as [H|H]; [by left|right].
      rewrite R2, length_app. cbn. lia.
Qed.

(** What is enqueued, seen from the channel. *)
Lemma fanout_appends s sig txn c : let '(res, c') := send_txn_fanout s sig txn c in ∃ enqueued,
  buffered c' = buffered c ++ ((λ leader, from_bytes sig leader txn) <$> enqueued) ∧ (res = None ↔ enqueued ≠ []).
Proof.
  assert (∃ enqueued : list Pubkey, buffered c = buffered c ++ ((λ leader, from_bytes sig leader txn) <$> enqueued) ∧ enqueued = [])
    as (E0 & H0 & H0') by (exists []; by rewrite app_nil_r).
  unfold send_txn_fanout. destruct (Slot.load _) as [|slot]; [by exists E0; subst|].
  destruct (Managed.get_unique_leaders_for_slot_fanout _ _ _ _) as [[|x leaders]|]; [by exists E0; subst| |by exists E0; subst].
  destruct (fanout_run s sig txn (bool_decide (1 < length (x :: leaders))) (x :: leaders) (mk_loop None None false c))
    as [E [_ R2 _ _ R5 _ _]]; [by intros [? [=]]|].
  set (l := foldl _ _ _) in *. cbn [sent_any first_error chan sent_addr] in *. exists E. split; [done|].
  destruct (sent_any l).
  - split; [|done]. intros _. by destruct (proj1 R5 eq_refl).
  - split; [done|]. intros HE. discriminate (proj2 R5 (or_intror HE)).
Qed.

(** C26: The sender enqueues the transaction, in order and without duplicates, to leaders
    of the fan-out window; it succeeds exactly when at least one was enqueued; a leader
    left out shares the address of one enqueued or met a full or closed channel; otherwise
    the error names the cause and returns the bytes. *)
Theorem fanout_reaches_the_window s sig txn c :
  let '(res, c') := send_txn_fanout s sig txn c in
  match Slot.load (atomic_slot_tracker s) with
  | inl _ => res = Some (SlotTrackerDisconnected, txn) ∧ c' = c
  | inr current_slot =>
      match Managed.get_unique_leaders_for_slot_fanout DEFAULT_SLOTS_PER_EPOCH (leader_schedule s) current_slot
              (send_fanout_slots s) with
      | None => res = Some (ManagedLeaderScheduleDisconnected, txn) ∧ c' = c
      | Some leaders => ∃ enqueued, enqueued `sublist_of` leaders ∧ NoDup enqueued ∧
          buffered c' = buffered c ++ ((λ leader, from_bytes sig leader txn) <$> enqueued) ∧
          (res = None ↔ enqueued ≠ []) ∧
          (enqueued = [] → c' = c ∧ res = Some (if bool_decide (leaders = []) then UnknownLeader
             else if rx_closed c then SendClosedKind else SendFullKind, txn)) ∧
          ∀ leader, leader ∈ leaders → leader ∈ enqueued ∨
            (∃ other a, other ∈ enqueued ∧ dest s leader = Some a ∧ dest s other = Some a) ∨
            rx_closed c = true ∨ capacity c ≤ length (buffered c')
      end
  end.
Proof.
  unfold send_txn_fanout. destruct (Slot.load _) as [|slot]; [done|].
  destruct (Managed.get_unique_leaders_for_slot_fanout _ _ _ _) as [leaders|] eqn:El; [|done].
  assert (NoDup leaders) as Hnd.
  { revert El. unfold Managed.get_unique_leaders_for_slot_fanout.
    destruct (Managed.lock_poisoned _); [done|]. destruct (Managed.fail _); [done|]. intros [= <-].
    apply Managed.push_leaders_spec. constructor. }
  destruct leaders as [|x leaders].
  { exists []. split_and!; try done; [by rewrite app_nil_r|set_solver]. }
  destruct (fanout_run s sig txn (bool_decide (1 < length (x :: leaders))) (x :: leaders) (mk_loop None None false c))
    as [E [R1 R2 R3 R4 R5 R6 R7]]; [by intros [? [=]]|].
  set (l := foldl _ _ _) in *. cbn [sent_any first_error chan sent_addr] in *. exists E. split_and!.
  - done.
  - by eapply sublist_NoDup.
  - done.
  - destruct (sent_any l).
    + split; [|done]. intros _. by destruct (proj1 R5 eq_refl).
    + split; [done|]. intros HE. discriminate (proj2 R5 (or_intror HE)).
  - intros HE. destruct (R6 HE) as [Hc Hf]. split; [done|].
    destruct (sent_any l); [by destruct (proj1 R5 eq_refl)|]. by rewrite Hf.
  - intros y Hy. destruct (R7 y Hy) as [?|[(_ & a & Ha & [[=]|(z & Hz & Hza)])|?]]; [by left| |by right; right].
    right; left. by exists z, a.
Qed.
End Sender.
End Sender.
