(* ===== verification/Commitment.v ===== *)
(** Commitment levels, block metadata and slot statuses ([util/mod.rs],
    [grpc_geyser.rs] of [apps/jet/src]), and the reconnection backoff. *)
From S2P Require Import Prelude Types.

Module Commitment.

Inductive CommitmentLevel := Processed | Confirmed | Finalized.
#[export] Instance CommitmentLevel_eq_dec : EqDecision CommitmentLevel.
Proof. solve_decision. Defined.
Definition default_commitment : CommitmentLevel := Finalized.

Definition as_u8 (c : CommitmentLevel) : N :=
  match c with Processed => 0 | Confirmed => 1 | Finalized => 2 end.
Definition cmp (a b : CommitmentLevel) : comparison := N.compare (as_u8 a) (as_u8 b).
Definition ge (a b : CommitmentLevel) : bool := match cmp a b with Lt => false | _ => true end.
Definition as_str (c : CommitmentLevel) : string :=
  match c with Processed => "processed" | Confirmed => "confirmed" | Finalized => "finalized" end.

Inductive SlotStatus :=
  | SlotProcessed | SlotConfirmed | SlotFinalized | SlotFirstShredReceived | SlotCompleted
  | SlotCreatedBank | SlotDead.
Definition default_status : SlotStatus := SlotFirstShredReceived.
Definition status_as_str (s : SlotStatus) : string :=
  match s with
  | SlotProcessed => "processed" | SlotConfirmed => "confirmed" | SlotFinalized => "finalized"
  | SlotFirstShredReceived => "first_shred_received" | SlotCompleted => "completed"
  | SlotCreatedBank => "created_bank" | SlotDead => "dead"
  end.
Definition from_i32 (status : Z) : SlotStatus :=
  match status with
  | 0%Z => SlotProcessed | 1%Z => SlotConfirmed | 2%Z => SlotFinalized | 3%Z => SlotFirstShredReceived
  | 4%Z => SlotCompleted | 5%Z => SlotCreatedBank | 6%Z => SlotDead
  | _ => default_status
  end.

Record BlockMetaWithCommitment := mk_meta {
  slot : N; block_height : N; block_hash : N; commitment : CommitmentLevel
}.
Record TransactionReceived := mk_received { tx_slot : N; tx_signature : Signature }.
Record SlotUpdateWithStatus := mk_update { update_slot : N; slot_status : SlotStatus }.
Inductive GrpcUpdateMessage :=
  | BlockMeta (m : BlockMetaWithCommitment)
  | Slot (u : SlotUpdateWithStatus)
  | Transaction (t : TransactionReceived).

(** ** [IncrementalBackoff] *)
Record IncrementalBackoff := mk_backoff {
  initial_interval : Duration; max_interval : Duration; retries : option N
}.
Definition new_backoff (initial_interval max_interval : Duration) : IncrementalBackoff :=
  mk_backoff initial_interval max_interval None.
Definition default_backoff : IncrementalBackoff := new_backoff (from_millis 250) (from_millis 3000).
Definition reset (b : IncrementalBackoff) : IncrementalBackoff :=
  mk_backoff (initial_interval b) (max_interval b) None.
Definition init (b : IncrementalBackoff) : IncrementalBackoff :=
  mk_backoff (initial_interval b) (max_interval b) (Some (default 0%N (retries b))).

Definition u32_modulus : N := 2 ^ 32.
Definition u32_max : N := u32_modulus - 1.
(** [2u32.pow(n)] in a release build. *)
Definition u32_pow2 (n : N) : N := (2 ^ n) `mod` u32_modulus.
(** [maybe_tick]: the time slept, and the backoff afterwards. [Duration * u32]
    panics past [Duration::MAX], which an interval below 136 years never
    reaches ([maybe_tick_total]); [None] is that panic. *)
Definition DURATION_MAX : N := (u64_max * 1000000000 + 999999999)%N.
Definition maybe_tick (b : IncrementalBackoff) : option (option Duration * IncrementalBackoff) :=
  match retries b with
  | None => Some (None, b)
  | Some n =>
      let next_delay := (initial_interval b * u32_pow2 n)%N in
      if (DURATION_MAX <? next_delay)%N then None
      else Some (Some (N.min (max_interval b) next_delay),
                 mk_backoff (initial_interval b) (max_interval b) (Some (if (n =? u32_max)%N then u32_max else n + 1)%N))
  end.
(** The delays of [n] consecutive ticks. *)
Fixpoint ticks (n : nat) (b : IncrementalBackoff) : list (option Duration) :=
  match n with
  | 0 => []
  | S n => match maybe_tick b with Some (d, b) => d :: ticks n b | None => [] end
  end.

Lemma u32_pow2_small n : (n < 32)%N → u32_pow2 n = (2 ^ n)%N.
Proof. intros Hn. apply N.mod_small. apply N.pow_lt_mono_r; lia. Qed.

(** From the 33rd attempt on, the multiplier has wrapped to zero. *)
Lemma u32_pow2_wraps n : (32 ≤ n)%N → u32_pow2 n = 0%N.
Proof.
  intros Hn. unfold u32_pow2. replace n with ((n - 32) + 32)%N by lia.
  rewrite N.pow_add_r. apply N.Div0.mod_mul.
Qed.

Lemma maybe_tick_total b : (initial_interval b * u32_max ≤ DURATION_MAX)%N → is_Some (maybe_tick b).
Proof.
  intros Hb. unfold maybe_tick. destruct (retries b) as [n|]; [|eauto].
  destruct (_ <? _)%N eqn:E; [|eauto]. apply N.ltb_lt in E.
  assert (u32_pow2 n ≤ u32_max)%N.
  { unfold u32_pow2, u32_max. pose proof (N.mod_lt (2 ^ n) u32_modulus ltac:(done)). lia. }
  nia.
Qed.

(** The default backoff doubles from 250 ms to its 3 s cap; every tick sleeps the capped
    product of the interval and the wrapped power of two, which is zero from the 33rd tick
    on. *)
Theorem default_backoff_grows_then_stops :
  ticks 5 (init default_backoff) =
    [Some (from_millis 250); Some (from_millis 500); Some (from_millis 1000); Some (from_millis 2000);
     Some (from_millis 3000)] ∧
  (∀ b n, retries b = Some n → (initial_interval b * u32_max ≤ DURATION_MAX)%N →
     ∃ b', maybe_tick b = Some (Some (N.min (max_interval b) (initial_interval b * u32_pow2 n))%N, b')) ∧
  (∀ b n, retries b = Some n → (32 ≤ n)%N → fst <$> maybe_tick b = Some (Some 0%N)).
Proof.
  split_and!; [by vm_compute| |].
  - intros b n Hn Hb. destruct (maybe_tick_total b Hb) as [[d b'] E]. rewrite E. revert E. unfold maybe_tick.
    rewrite Hn. destruct (_ <? _)%N; [done|]. intros [= <- <-]. eauto.
  - intros b n Hn H32. unfold maybe_tick. rewrite Hn, u32_pow2_wraps, N.mul_0_r by done. cbn.
    by rewrite N.min_0_r.
Qed.
End Commitment.
