(* ===== verification/Rooted.v ===== *)
(** The rooted-transaction state machine ([rooted_transaction_state.rs]) and the
    gRPC receiver that drives it ([GrpcRootedTxReceiver] in [transactions.rs] of
    [apps/jet/src]): which signatures are in which slots, and the notifications to
    the watchers of a signature. *)
From S2P Require Import Prelude Types Commitment.
Import Commitment.

Module Rooted.
Section Rooted.
(** [solana_clock::MAX_RECENT_BLOCKHASHES]. *)
Context `{HI : HashIter} (MAX_RECENT_BLOCKHASHES : N).

Inductive RootedTxEvent :=
  | TransactionReceivedEv (t : TransactionReceived)
  | BlockMetaUpdate (m : BlockMetaWithCommitment).
(** [NotifyWatcher]. *)
Definition RootedTxEffect : Type := Signature * CommitmentLevel.

Record SlotInfo := mk_info { sigs : gset Signature; blockmeta : option BlockMetaWithCommitment }.
#[export] Instance SlotInfo_settable : Settable SlotInfo := λ r, mk_info (sigs r) (blockmeta r).
Definition default_info : SlotInfo := mk_info ∅ None.

Record RootedTransactionsState := mk {
  slots : gmap N SlotInfo;
  transactions : gmap Signature N;
  watched_signatures : gset Signature
}.
#[export] Instance State_settable : Settable RootedTransactionsState := λ r,
  mk (slots r) (transactions r) (watched_signatures r).
Definition new : RootedTransactionsState := mk ∅ ∅ ∅.

Definition should_retain_finalized_slot (slot_block_height finalized_block_height : N) : bool :=
  (finalized_block_height <? u64_add slot_block_height MAX_RECENT_BLOCKHASHES)%N.
Definition should_retain (finalized_block_height finalized_slot : N) (info : SlotInfo) : bool :=
  match blockmeta info with
  | Some m =>
      if decide (commitment m = Finalized) then should_retain_finalized_slot (block_height m) finalized_block_height
      else (finalized_slot <? slot m)%N
  | None => true
  end.

Definition cleanup_old_slots (finalized_block_height finalized_slot : N) (st : RootedTransactionsState) :
    RootedTransactionsState :=
  let removed_signatures :=
    p ← map_iter (slots st);
    if should_retain finalized_block_height finalized_slot p.2 then [] else hash_iter (sigs p.2) in
  st <| slots ::= filter (λ p, should_retain finalized_block_height finalized_slot p.2 = true) |>
     <| transactions ::= λ m, foldl (λ m s, delete s m) m removed_signatures |>.

Definition notify (st : RootedTransactionsState) (c : CommitmentLevel) (s : Signature) : list RootedTxEffect :=
  if decide (s ∈ watched_signatures st) then [(s, c)] else [].

Definition process_event (event : RootedTxEvent) (st : RootedTransactionsState) :
    list RootedTxEffect * RootedTransactionsState :=
  match event with
  | TransactionReceivedEv tx =>
      let entry := default default_info (slots st !! tx_slot tx) in
      if decide (tx_signature tx ∈ sigs entry) then ([], st <| slots ::= <[tx_slot tx := entry]> |>)
      else
        (match blockmeta entry with Some m => notify st (commitment m) (tx_signature tx) | None => [] end,
         st <| slots ::= <[tx_slot tx := entry <| sigs ::= union {[tx_signature tx]} |> ]> |>
            <| transactions ::= <[tx_signature tx := tx_slot tx]> |>)
  | BlockMetaUpdate meta =>
      let entry := (default default_info (slots st !! slot meta)) <| blockmeta := Some meta |> in
      let st := st <| slots ::= <[slot meta := entry]> |> in
      let effects := s ← hash_iter (sigs entry); notify st (commitment meta) s in
      (effects, if decide (commitment meta = Finalized) then cleanup_old_slots (block_height meta) (slot meta) st else st)
  end.

(** ** The receiver

    [sent] is what went through the updates channel, whose receiver the scheduler
    holds. *)
Record GrpcRootedTxReceiver := mk_receiver {
  state_machine : RootedTransactionsState;
  transactions_bulk : list TransactionReceived;
  sent : list RootedTxEffect
}.
#[export] Instance Receiver_settable : Settable GrpcRootedTxReceiver := λ r,
  mk_receiver (state_machine r) (transactions_bulk r) (sent r).

Definition get_transaction_commitment (s : Signature) (st : RootedTransactionsState) : option CommitmentLevel :=
  slot ← transactions st !! s; info ← slots st !! slot; m ← blockmeta info; Some (commitment m).
Definition subscribe_signature (s : Signature) (st : RootedTransactionsState) : RootedTransactionsState :=
  st <| watched_signatures ::= union {[s]} |>.
Definition unsubscribe_signature (s : Signature) (st : RootedTransactionsState) : RootedTransactionsState :=
  st <| watched_signatures ::= λ w, w ∖ {[s]} |>.

Definition process_all (events : list RootedTxEvent) (st : RootedTransactionsState) :
    list RootedTxEffect * RootedTransactionsState :=
  foldl (λ acc e, let '(effects, st) := process_event e acc.2 in (acc.1 ++ effects, st)) ([], st) events.

(** One turn of [start_loop]. *)
Definition on_message (m : GrpcUpdateMessage) (r : GrpcRootedTxReceiver) : GrpcRootedTxReceiver :=
  match m with
  | Transaction t => r <| transactions_bulk ::= λ l, l ++ [t] |>
  | Slot _ => r
  | BlockMeta blockmeta_update =>
      let '(effects, st) :=
        process_all ((TransactionReceivedEv <$> transactions_bulk r) ++ [BlockMetaUpdate blockmeta_update]) (state_machine r) in
      mk_receiver st [] (sent r ++ effects)
  end.

(** The loop's turns interleaved with the callers of the trait. *)
Inductive Step := Message (m : GrpcUpdateMessage) | Subscribe (s : Signature) | Unsubscribe (s : Signature).
Definition step (r : GrpcRootedTxReceiver) (e : Step) : GrpcRootedTxReceiver :=
  match e with
  | Message m => on_message m r
  | Subscribe s => r <| state_machine ::= subscribe_signature s |>
  | Unsubscribe s => r <| state_machine ::= unsubscribe_signature s |>
  end.
Definition run : GrpcRootedTxReceiver → list Step → GrpcRootedTxReceiver := foldl step.
Definition start : GrpcRootedTxReceiver := mk_receiver new [] [].

(** ** Invariant *)
Record wf (st : RootedTransactionsState) : Prop := {
  wf_index s n : transactions st !! s = Some n → ∃ info, slots st !! n = Some info ∧ s ∈ sigs info;
  wf_meta n info m : slots st !! n = Some info → blockmeta info = Some m → slot m = n
}.

Lemma lookup_deletes (l : list Signature) (m : gmap Signature N) s :
  foldl (λ m s, delete s m) m l !! s = if decide (s ∈ l) then None else m !! s.
Proof.
  revert m. induction l as [|x l IH]; intros m; cbn [foldl]; [done|]. rewrite IH.
  destruct (decide (s = x)) as [->|Hne].
  - rewrite (decide_True (P := x ∈ x :: l)) by set_solver. case_decide; [done|]. apply lookup_delete_eq.
  - rewrite lookup_delete_ne by done. by rewrite (decide_ext _ (s ∈ x :: l)) by set_solver.
Qed.

Lemma elem_of_removed h f st s :
  s ∈ (p ← map_iter (slots st); if should_retain h f p.2 then [] else hash_iter (sigs p.2)) ↔
  ∃ n info, slots st !! n = Some info ∧ should_retain h f info = false ∧ s ∈ sigs info.
Proof.
  rewrite list_elem_of_bind. split.
  - intros ([n info] & Hs & Hn). cbn in Hs. apply elem_of_map_iter in Hn.
    destruct (should_retain h f info) eqn:E; [set_solver|]. exists n, info. by rewrite elem_of_hash_iter in Hs.
  - intros (n & info & Hn & E & Hs). exists (n, info). cbn. rewrite E, elem_of_hash_iter. split; [done|].
    by apply elem_of_map_iter.
Qed.

Lemma cleanup_wf h f st : wf st → wf (cleanup_old_slots h f st).
Proof.
  intros [H1 H2]. unfold cleanup_old_slots. split; upd_simpl.
  - intros s n. rewrite lookup_deletes. case_decide as Hr; [done|]. intros Hs.
    destruct (H1 s n Hs) as (info & Hn & Hin). exists info. split; [|done].
    apply map_lookup_filter_Some. split; [done|]. cbn. destruct (should_retain h f info) eqn:E; [done|].
    destruct Hr. apply elem_of_removed. eauto.
  - intros n info m [Hn _]%map_lookup_filter_Some. by apply H2.
Qed.

Lemma insert_wf n info st tr w : wf st →
  sigs (default default_info (slots st !! n)) ⊆ sigs info → (∀ m, blockmeta info = Some m → slot m = n) →
  (∀ s k, tr !! s = Some k → transactions st !! s = Some k ∨ (k = n ∧ s ∈ sigs info)) →
  wf (mk (<[n := info]> (slots st)) tr w).
Proof.
  intros [H1 H2] Hsub Hm Htr. split; cbn.
  - intros s k Hs. destruct (decide (k = n)) as [->|Hne].
    + rewrite lookup_insert_eq. exists info. split; [done|].
      destruct (Htr _ _ Hs) as [Ht|[_ ?]]; [|done]. destruct (H1 _ _ Ht) as (i & Hi & Hin). rewrite Hi in Hsub. by apply Hsub.
    + rewrite lookup_insert_ne by done. destruct (Htr _ _ Hs) as [Ht|[? _]]; [|done]. by apply H1.
  - intros k i m. destruct (decide (k = n)) as [->|Hne].
    + rewrite lookup_insert_eq. intros [= <-]. apply Hm.
    + rewrite lookup_insert_ne by done. apply H2.
Qed.

Lemma entry_meta st n m : wf st → blockmeta (default default_info (slots st !! n)) = Some m → slot m = n.
Proof. intros [_ H2]. destruct (slots st !! n) eqn:E; cbn; [by eapply H2|done]. Qed.

(** The state after an event, as a record. *)
Lemma process_event_tx t st : (process_event (TransactionReceivedEv t) st).2 =
  let entry := default default_info (slots st !! tx_slot t) in
  mk (<[tx_slot t := mk_info ({[tx_signature t]} ∪ sigs entry) (blockmeta entry)]> (slots st))
     (if decide (tx_signature t ∈ sigs entry) then transactions st
      else <[tx_signature t := tx_slot t]> (transactions st))
     (watched_signatures st).
Proof.
  cbn [process_event]. cbn zeta. set (entry := default default_info _). clearbody entry.
  destruct st as [sl tr w], entry as [sg bm]. case_decide as Hin; [|done]. cbn in Hin.
  cbn. unfold modify. cbn. do 2 f_equal. f_equal. set_solver.
Qed.

Lemma process_event_meta m st : process_event (BlockMetaUpdate m) st =
  let entry := default default_info (slots st !! slot m) in
  let st' := mk (<[slot m := mk_info (sigs entry) (Some m)]> (slots st)) (transactions st) (watched_signatures st) in
  (s ← hash_iter (sigs entry); notify st (commitment m) s,
   if decide (commitment m = Finalized) then cleanup_old_slots (block_height m) (slot m) st' else st').
Proof. destruct st as [sl tr w]. cbn. by destruct (default default_info _) as [sg bm]. Qed.

Lemma process_event_wf e st : wf st → wf (process_event e st).2.
Proof.
  intros Hw. destruct e as [t|m].
  - rewrite process_event_tx. cbn zeta. apply insert_wf; [done|set_solver| |].
    + intros m Hm. by eapply entry_meta.
    + intros s k. case_decide; [by left|].
      rewrite lookup_insert_Some. intros [[<- <-]|[_ ?]]; [right; set_solver|by left].
  - rewrite process_event_meta. cbn zeta. cbn [snd].
    assert (wf (mk (<[slot m := mk_info (sigs (default default_info (slots st !! slot m))) (Some m)]> (slots st))
      (transactions st) (watched_signatures st))) as Hw'.
    { apply insert_wf; [done|done| |auto]. by intros m' [= <-]. }
    case_decide; [by apply cleanup_wf|done].
Qed.

Lemma process_all_snoc es e st : process_all (es ++ [e]) st =
  ((process_all es st).1 ++ (process_event e (process_all es st).2).1, (process_event e (process_all es st).2).2).
Proof. unfold process_all. rewrite foldl_app. cbn. by destruct (process_event e _). Qed.

Lemma process_all_wf es st : wf st → wf (process_all es st).2.
Proof.
  intros Hw. induction es as [|e es IH] using rev_ind; [done|]. rewrite process_all_snoc. by apply process_event_wf.
Qed.

Lemma on_message_meta m r : on_message (BlockMeta m) r =
  let '(effects, st) := process_all (TransactionReceivedEv <$> transactions_bulk r) (state_machine r) in
  mk_receiver (process_event (BlockMetaUpdate m) st).2 []
    (sent r ++ effects ++ (process_event (BlockMetaUpdate m) st).1).
Proof. unfold on_message. rewrite process_all_snoc. by destruct (process_all _ _). Qed.

Lemma rooted_run_snoc r steps e : run r (steps ++ [e]) = step (run r steps) e.
Proof. unfold run. by rewrite foldl_app. Qed.

Lemma run_wf steps r : wf (state_machine r) → wf (state_machine (run r steps)).
Proof.
  intros Hw. induction steps as [|e steps IH] using rev_ind; [done|]. rewrite rooted_run_snoc.
  set (r' := run r steps) in *. destruct e as [[m|u|t]|x|x]; cbn [step].
  - rewrite on_message_meta. destruct (process_all _ _) as [ef st] eqn:E. cbn [state_machine].
    apply process_event_wf. change st with (ef, st).2. rewrite <-E. by apply process_all_wf.
  - done.
  - done.
  - destruct IH. by split.
  - destruct IH. by split.
Qed.

(** ** Announcements *)

(** A step that neither finalizes a block nor unsubscribes [s]. *)
Definition quiet (s : Signature) (e : Step) : Prop :=
  match e with
  | Message (BlockMeta m) => commitment m ≠ Finalized
  | Unsubscribe s' => s' ≠ s
  | _ => True
  end.

Definition present (s : Signature) (n : N) (st : RootedTransactionsState) : Prop :=
  s ∈ sigs (default default_info (slots st !! n)).

Lemma present_tx s n t st : present s n st → present s n (process_event (TransactionReceivedEv t) st).2.
Proof.
  unfold present. rewrite process_event_tx. cbn. destruct (decide (n = tx_slot t)) as [->|Hne].
  - rewrite lookup_insert_eq. cbn. set_solver.
  - by rewrite lookup_insert_ne.
Qed.

Lemma present_new t st : present (tx_signature t) (tx_slot t) (process_event (TransactionReceivedEv t) st).2.
Proof. unfold present. rewrite process_event_tx. cbn. rewrite lookup_insert_eq. cbn. set_solver. Qed.

Lemma present_txs s n ts st :
  present s n st ∨ (∃ t, t ∈ ts ∧ tx_signature t = s ∧ tx_slot t = n) →
  present s n (process_all (TransactionReceivedEv <$> ts) st).2.
Proof.
  induction ts as [|t ts IH] using rev_ind; [intros [?|(t & Ht & _)]; [done|set_solver]|].
  rewrite fmap_app. cbn [fmap list_fmap]. rewrite process_all_snoc. cbn [snd].
  intros [Hp|(t' & [Ht'| ->%list_elem_of_singleton]%elem_of_app & <- & <-)].
  - apply present_tx, IH. by left.
  - apply present_tx, IH. right. by exists t'.
  - apply present_new.
Qed.

Lemma present_meta s n m st : commitment m ≠ Finalized → present s n st →
  present s n (process_event (BlockMetaUpdate m) st).2.
Proof.
  intros Hc. unfold present. rewrite process_event_meta. cbn. rewrite decide_False by done. cbn.
  destruct (decide (n = slot m)) as [->|Hne]; [by rewrite lookup_insert_eq|by rewrite lookup_insert_ne].
Qed.

Lemma watched_event e st : watched_signatures (process_event e st).2 = watched_signatures st.
Proof.
  destruct e as [t|m]; [by rewrite process_event_tx|]. rewrite process_event_meta. cbn [snd].
  case_decide; [|done]. unfold cleanup_old_slots. by upd_simpl.
Qed.

Lemma watched_all es st : watched_signatures (process_all es st).2 = watched_signatures st.
Proof.
  induction es as [|e es IH] using rev_ind; [done|]. rewrite process_all_snoc. cbn [snd]. by rewrite watched_event.
Qed.

(** The signature is watched, and in its slot or on its way. *)
Definition pending (t : TransactionReceived) (r : GrpcRootedTxReceiver) : Prop :=
  tx_signature t ∈ watched_signatures (state_machine r) ∧
  (t ∈ transactions_bulk r ∨ present (tx_signature t) (tx_slot t) (state_machine r)).

Lemma pending_step t e r : quiet (tx_signature t) e → pending t r → pending t (step r e).
Proof.
  intros Hq [Hw Hp]. destruct e as [[m|u|t']|x|x]; cbn [step].
  - rewrite on_message_meta. destruct (process_all _ _) as [ef st] eqn:E.
    assert (st = (process_all (TransactionReceivedEv <$> transactions_bulk r) (state_machine r)).2) as -> by (by rewrite E).
    split; cbn [state_machine].
    + by rewrite watched_event, watched_all.
    + right. apply present_meta; [done|]. apply present_txs. destruct Hp; [right; eauto|by left].
  - by split.
  - split; [done|]. destruct Hp; [left; cbn; set_solver|by right].
  - split; [cbn; set_solver|done].
  - split; [|done]. unfold quiet in Hq. cbn. set_solver.
Qed.

Lemma pending_run t steps r : Forall (quiet (tx_signature t)) steps → pending t r → pending t (run r steps).
Proof.
  revert r. induction steps as [|e steps IH]; intros r Hq Hp; [done|]. apply Forall_cons in Hq as [? ?].
  cbn. apply IH; [done|]. by apply pending_step.
Qed.

Lemma announced_by_meta t m r : pending t r → slot m = tx_slot t →
  ∃ announced, sent (step r (Message (BlockMeta m))) = sent r ++ announced ∧ (tx_signature t, commitment m) ∈ announced.
Proof.
  intros [Hw Hp] Hslot. change (step r (Message (BlockMeta m))) with (on_message (BlockMeta m) r).
  rewrite on_message_meta. destruct (process_all _ _) as [ef st] eqn:E. cbn [sent].
  assert (st = (process_all (TransactionReceivedEv <$> transactions_bulk r) (state_machine r)).2) as Est by (by rewrite E).
  eexists. split; [done|]. apply elem_of_app. right. rewrite process_event_meta. cbn [fst].
  apply list_elem_of_bind. exists (tx_signature t). split.
  - unfold notify. rewrite decide_True; [set_solver|]. by rewrite Est, watched_all.
  - apply elem_of_hash_iter. rewrite Hslot, Est. apply present_txs. destruct Hp; [right; eauto|by left].
Qed.

Lemma watched_messages l r :
  watched_signatures (state_machine (run r (Message <$> l))) = watched_signatures (state_machine r).
Proof.
  induction l as [|m l IH] using rev_ind; [done|]. rewrite fmap_app. cbn [fmap list_fmap]. rewrite rooted_run_snoc, <-IH.
  destruct m as [b|u|t]; try done. cbn [step]. rewrite on_message_meta. destruct (process_all _ _) as [ef st] eqn:E. cbn [state_machine].
  assert (st = (process_all (TransactionReceivedEv <$> transactions_bulk (run r (Message <$> l))) (state_machine (run r (Message <$> l)))).2)
    as -> by (by rewrite E). by rewrite watched_event, watched_all.
Qed.

Lemma pending_receive t r : tx_signature t ∈ watched_signatures (state_machine r) → pending t (step r (Message (Transaction t))).
Proof. intros Hw. split; [done|]. left. cbn. set_solver. Qed.

(** What was announced stays announced. *)
Lemma sent_mono steps r : ∃ l, sent (run r steps) = sent r ++ l.
Proof.
  induction steps as [|e steps [l IH]] using rev_ind; [exists []; by rewrite app_nil_r|]. rewrite rooted_run_snoc.
  destruct e as [[m|u|t]|x|x]; try by (exists l; rewrite <-IH).
  cbn [step]. rewrite on_message_meta. destruct (process_all _ _) as [ef st]. cbn [sent]. rewrite IH, <-app_assoc. by eexists.
Qed.

(** A watched transaction, once received, is announced with the commitment of the block
    metadata of its slot when that arrives, as long as no one unsubscribed and no finalized
    block came in between. *)
Theorem landed_transaction_is_announced r t steps m
    (Hwatched : tx_signature t ∈ watched_signatures (state_machine r)) (Hslot : slot m = tx_slot t)
    (Hquiet : Forall (quiet (tx_signature t)) steps) :
  ∃ announced, sent (run r (Message (Transaction t) :: steps ++ [Message (BlockMeta m)])) =
      sent (run r (Message (Transaction t) :: steps)) ++ announced ∧
    (tx_signature t, commitment m) ∈ announced.
Proof.
  change (Message (Transaction t) :: steps ++ [Message (BlockMeta m)])
    with ((Message (Transaction t) :: steps) ++ [Message (BlockMeta m)]).
  rewrite rooted_run_snoc. apply announced_by_meta; [|done].
  apply (pending_run t steps (step r (Message (Transaction t)))); [done|by apply pending_receive].
Qed.

(** ** What a history justifies *)
Definition got_tx (steps : list Step) (s : Signature) (n : N) : Prop :=
  ∃ t, Message (Transaction t) ∈ steps ∧ tx_signature t = s ∧ tx_slot t = n.
Definition got_meta (steps : list Step) (m : BlockMetaWithCommitment) : Prop := Message (BlockMeta m) ∈ steps.
(** The signature was subscribed, and seen in a slot whose metadata had [c]. *)
Definition justified (steps : list Step) (e : RootedTxEffect) : Prop :=
  Subscribe e.1 ∈ steps ∧ ∃ m, got_meta steps m ∧ commitment m = e.2 ∧ got_tx steps e.1 (slot m).

Record sound_state (steps : list Step) (st : RootedTransactionsState) : Prop := {
  snd_wf : wf st;
  snd_sigs n info s : slots st !! n = Some info → s ∈ sigs info → got_tx steps s n;
  snd_meta n info m : slots st !! n = Some info → blockmeta info = Some m → got_meta steps m;
  snd_watched s : s ∈ watched_signatures st → Subscribe s ∈ steps
}.

Lemma sound_state_mono steps steps' st : steps ⊆ steps' → sound_state steps st → sound_state steps' st.
Proof.
  intros Hs [H1 H2 H3 H4]. split; [done| | |].
  - intros n info s Hn Hi. destruct (H2 n info s Hn Hi) as (t & ? & ?). exists t. split; [by apply Hs|done].
  - intros n info m Hn Hi. by eapply Hs, H3.
  - intros s Hi. by apply Hs, H4.
Qed.

Lemma sound_entry steps st n s : sound_state steps st → s ∈ sigs (default default_info (slots st !! n)) → got_tx steps s n.
Proof. intros [_ H2 _ _]. destruct (slots st !! n) eqn:E; cbn; [by eapply H2|set_solver]. Qed.

Lemma elem_of_notify st c s e : e ∈ notify st c s ↔ s ∈ watched_signatures st ∧ e = (s, c).
Proof. unfold notify. case_decide; set_solver. Qed.

Lemma sound_tx steps t st : got_tx steps (tx_signature t) (tx_slot t) → sound_state steps st →
  sound_state steps (process_event (TransactionReceivedEv t) st).2 ∧
  ∀ e, e ∈ (process_event (TransactionReceivedEv t) st).1 → justified steps e.
Proof.
  intros Ht Hs. split.
  - pose proof (process_event_wf (TransactionReceivedEv t) st (snd_wf _ _ Hs)) as Hw. rewrite process_event_tx in *.
    cbn zeta in *. split; [done| | |].
    + intros n info s. cbn. rewrite lookup_insert_Some. intros [[<- <-]|[_ Hn]]; [|by eapply snd_sigs].
      cbn. intros [->%elem_of_singleton|Hin]%elem_of_union; [done|by eapply sound_entry].
    + intros n info m. cbn. rewrite lookup_insert_Some. intros [[<- <-]|[_ Hn]]; [|by eapply snd_meta].
      cbn. destruct (slots st !! tx_slot t) eqn:E; cbn; [by eapply snd_meta|done].
    + apply Hs.
  - intros e. cbn [process_event]. case_decide; [set_solver|]. cbn [fst].
    destruct (blockmeta _) as [m|] eqn:E; [|set_solver]. intros [Hw ->]%elem_of_notify. split; [by eapply snd_watched|].
    exists m. split_and!; [|done|].
    + destruct (slots st !! tx_slot t) eqn:Es; cbn in E; [by eapply snd_meta|done].
    + by rewrite (entry_meta _ _ _ (snd_wf _ _ Hs) E).
Qed.

Lemma cleanup_sound steps h f st : sound_state steps st → sound_state steps (cleanup_old_slots h f st).
Proof.
  intros [H1 H2 H3 H4]. split; [by apply cleanup_wf| | |]; unfold cleanup_old_slots; upd_simpl.
  - intros n info s [Hn _]%map_lookup_filter_Some. by apply H2.
  - intros n info m [Hn _]%map_lookup_filter_Some. by eapply H3.
  - done.
Qed.

Lemma sound_meta steps m st : got_meta steps m → sound_state steps st →
  sound_state steps (process_event (BlockMetaUpdate m) st).2 ∧
  ∀ e, e ∈ (process_event (BlockMetaUpdate m) st).1 → justified steps e.
Proof.
  intros Hm Hs. rewrite process_event_meta. cbn zeta. cbn [fst snd]. split.
  - assert (sound_state steps (mk (<[slot m := mk_info (sigs (default default_info (slots st !! slot m))) (Some m)]> (slots st))
      (transactions st) (watched_signatures st))) as Hs'.
    { split; cbn.
      - apply insert_wf; [apply Hs|done| |auto]. by intros m' [= <-].
      - intros n info s. rewrite lookup_insert_Some. intros [[<- <-]|[_ Hn]]; [|by eapply snd_sigs]. by apply sound_entry.
      - intros n info m'. rewrite lookup_insert_Some. intros [[<- <-]|[_ Hn]]; [|by eapply snd_meta]. by intros [= <-].
      - apply Hs. }
    case_decide; [by apply cleanup_sound|done].
  - intros e. rewrite list_elem_of_bind. intros (s & [Hw ->]%elem_of_notify & Hin%elem_of_hash_iter).
    split; [by eapply snd_watched|]. exists m. split_and!; [done|done|]. by eapply sound_entry.
Qed.

Lemma sound_txs steps ts st : (∀ t, t ∈ ts → got_tx steps (tx_signature t) (tx_slot t)) → sound_state steps st →
  sound_state steps (process_all (TransactionReceivedEv <$> ts) st).2 ∧
  ∀ e, e ∈ (process_all (TransactionReceivedEv <$> ts) st).1 → justified steps e.
Proof.
  intros Hts Hs. induction ts as [|t ts IH] using rev_ind; [split; [done|set_solver]|].
  rewrite fmap_app. cbn [fmap list_fmap]. rewrite process_all_snoc. cbn [fst snd].
  destruct IH as [H1 H2]; [set_solver|]. destruct (sound_tx steps t _ (Hts t ltac:(set_solver)) H1) as [H3 H4].
  split; [done|]. intros e [?|?]%elem_of_app; auto.
Qed.

Record sound (steps : list Step) (r : GrpcRootedTxReceiver) : Prop := {
  sound_machine : sound_state steps (state_machine r);
  sound_bulk t : t ∈ transactions_bulk r → got_tx steps (tx_signature t) (tx_slot t);
  sound_sent e : e ∈ sent r → justified steps e
}.

Lemma justified_mono steps steps' e : steps ⊆ steps' → justified steps e → justified steps' e.
Proof.
  intros Hs (H1 & m & H2 & H3 & t & H4 & H5). split; [by apply Hs|]. exists m. split_and!; [by apply Hs|done|].
  exists t. split; [by apply Hs|done].
Qed.

Lemma sound_mono steps steps' r : steps ⊆ steps' → sound steps r → sound steps' r.
Proof.
  intros Hs [H1 H2 H3]. split; [by eapply sound_state_mono| |].
  - intros t Ht. destruct (H2 t Ht) as (t' & ? & ?). exists t'. split; [by apply Hs|done].
  - intros e He. by eapply justified_mono, H3.
Qed.

Lemma sound_step steps e r : sound steps r → sound (steps ++ [e]) (step r e).
Proof.
  intros Hr. apply (sound_mono _ (steps ++ [e])) in Hr; [|set_solver]. destruct Hr as [H1 H2 H3].
  destruct e as [[m|u|t]|x|x]; cbn [step].
  - rewrite on_message_meta. destruct (sound_txs _ _ _ H2 H1) as [H4 H5].
    destruct (process_all _ _) as [ef st]. cbn [fst snd] in *.
    destruct (sound_meta (steps ++ [Message (BlockMeta m)]) m st) as [H6 H7]; [unfold got_meta; set_solver|done|].
    split; cbn [state_machine transactions_bulk sent]; [done|set_solver|].
    intros e. rewrite !elem_of_app. naive_solver.
  - by split.
  - split; [done| |done]. cbn. intros t' [Ht'| ->%list_elem_of_singleton]%elem_of_app; [by apply H2|].
    exists t. split; [set_solver|done].
  - split; [|done|done]. destruct H1 as [[W1 W2] S2 S3 S4]. split; cbn; [by split|done|done|set_solver].
  - split; [|done|done]. destruct H1 as [[W1 W2] S2 S3 S4]. split; cbn; [by split|done|done|set_solver].
Qed.

Lemma sound_run steps : sound steps (run start steps).
Proof.
  induction steps as [|e steps IH] using rev_ind; [|rewrite rooted_run_snoc; by apply sound_step].
  split; cbn; [|set_solver|set_solver]. split; cbn; [split|..]; try done; set_solver.
Qed.

(** An announcement of a commitment for a signature is only made in a history that has a
    subscription to it, the transaction in some slot, and block metadata of that slot with
    that commitment. *)
Theorem announcements_are_justified steps e : e ∈ sent (run start steps) → justified steps e.
Proof. apply sound_sent, sound_run. Qed.

(** Transactions leave a slot its metadata. *)
Lemma slot_kept_txs n info ts st : slots st !! n = Some info →
  ∃ info', slots (process_all (TransactionReceivedEv <$> ts) st).2 !! n = Some info' ∧
    blockmeta info' = blockmeta info ∧ sigs info ⊆ sigs info'.
Proof.
  intros Hn. induction ts as [|t ts (info1 & H1 & H2 & H3)] using rev_ind; [by exists info|].
  rewrite fmap_app. cbn [fmap list_fmap]. rewrite process_all_snoc. cbn [snd]. rewrite process_event_tx. cbn.
  destruct (decide (tx_slot t = n)) as [->|Hne].
  - rewrite lookup_insert_eq, H1. eexists. split; [done|]. cbn. split; [done|set_solver].
  - rewrite lookup_insert_ne by done. by exists info1.
Qed.

(** What a finalized block [m] leaves of the slots with metadata. *)
Definition survives (m m' : BlockMetaWithCommitment) : Prop :=
  (commitment m' = Finalized → (block_height m < u64_add (block_height m') MAX_RECENT_BLOCKHASHES)%N) ∧
  (commitment m' ≠ Finalized → (slot m < slot m')%N).

Lemma should_retain_spec m info :
  should_retain (block_height m) (slot m) info = true ↔ ∀ m', blockmeta info = Some m' → survives m m'.
Proof.
  unfold should_retain, should_retain_finalized_slot, survives. destruct (blockmeta info) as [m'|]; [|by split].
  case_decide; rewrite N.ltb_lt; naive_solver.
Qed.

(** C29: A finalized block prunes the slots that have block metadata: those left are
    finalized ones within the recent-blockhash window of its height and others above its
    slot, and every other slot that meets this stays, with its metadata and its signatures.
    Slots without metadata all stay. Every signature index points to a slot that lists it,
    and every commitment the state answers comes from received metadata of a slot the
    signature was received in. *)
Theorem finalized_block_prunes_the_state steps m (Hm : commitment m = Finalized) :
  let history := steps ++ [Message (BlockMeta m)] in
  let st0 := state_machine (run start steps) in
  let st := state_machine (run start history) in
  (∀ n info m', slots st !! n = Some info → blockmeta info = Some m' → slot m' = n ∧ survives m m') ∧
  (∀ n info, slots st0 !! n = Some info → n ≠ slot m → (∀ m', blockmeta info = Some m' → survives m m') →
     ∃ info', slots st !! n = Some info' ∧ blockmeta info' = blockmeta info ∧ sigs info ⊆ sigs info') ∧
  (∀ s n, transactions st !! s = Some n → ∃ info, slots st !! n = Some info ∧ s ∈ sigs info) ∧
  ∀ s c, get_transaction_commitment s st = Some c →
    ∃ m', got_meta history m' ∧ commitment m' = c ∧ got_tx history s (slot m').
Proof.
  cbn zeta. pose proof (sound_machine _ _ (sound_run (steps ++ [Message (BlockMeta m)]))) as Hs.
  set (st1 := (process_all (TransactionReceivedEv <$> transactions_bulk (run start steps)) (state_machine (run start steps))).2).
  assert (∀ n info, slots (state_machine (run start (steps ++ [Message (BlockMeta m)]))) !! n = Some info ↔
    <[slot m := mk_info (sigs (default default_info (slots st1 !! slot m))) (Some m)]> (slots st1) !! n = Some info ∧
    should_retain (block_height m) (slot m) info = true) as Hslots.
  { intros n info. rewrite rooted_run_snoc. change (step _ _) with (on_message (BlockMeta m) (run start steps)).
    rewrite on_message_meta. unfold st1. destruct (process_all _ _) as [ef st]. cbn [state_machine snd].
    rewrite process_event_meta. cbn [snd]. rewrite decide_True by done. unfold cleanup_old_slots. upd_simpl.
    by rewrite map_lookup_filter_Some. }
  split_and!.
  - intros n info m' Hi Hb. split; [by eapply wf_meta; [apply Hs|..]|].
    apply Hslots in Hi as [_ Hr]. by apply (proj1 (should_retain_spec m info) Hr).
  - intros n info Hi Hne Hr. destruct (slot_kept_txs n info (transactions_bulk (run start steps)) _ Hi) as (info' & H1 & H2 & H3).
    exists info'. split; [|done]. apply Hslots. rewrite lookup_insert_ne by done. split; [done|].
    apply should_retain_spec. by rewrite H2.
  - intros s n Hn. by eapply wf_index; [apply Hs|].
  - intros s c. unfold get_transaction_commitment. intros Hc.
    destruct (transactions _ !! s) as [n|] eqn:En; cbn in Hc; [|done].
    destruct (slots _ !! n) as [info|] eqn:Ei; cbn in Hc; [|done].
    destruct (blockmeta info) as [m'|] eqn:Em; cbn in Hc; [|done]. injection Hc as <-.
    exists m'. split_and!; [by eapply snd_meta|done|].
    rewrite (wf_meta _ (snd_wf _ _ Hs) _ _ _ Ei Em). eapply snd_sigs; [done..|].
    destruct (wf_index _ (snd_wf _ _ Hs) _ _ En) as (info' & ? & ?). congruence.
Qed.
End Rooted.

(** ** Concrete histories (with the cluster's 300 recent blockhashes) *)
#[local] Existing Instance elements_iter.

(** A transaction on an abandoned fork and on the finalized one. *)
Definition meta (n h : N) (c : CommitmentLevel) : BlockMetaWithCommitment := mk_meta n h n c.
Definition fork_history : list Step := [
  Subscribe 9; Message (Transaction (mk_received 1 9)); Message (BlockMeta (meta 1 1 Processed));
  Message (Transaction (mk_received 2 9)); Message (BlockMeta (meta 2 1 Confirmed))].
Definition fork_finalized : Step := Message (BlockMeta (meta 2 1 Finalized)).

(** A transaction seen in an abandoned slot and in the finalized one: pruning the abandoned
    slot removes the index entry that points to the finalized slot. *)
Theorem finalizing_a_fork_forgets_the_transaction :
  let st := state_machine (run 300 start fork_history) in
  let st' := state_machine (run 300 start (fork_history ++ [fork_finalized])) in
  get_transaction_commitment 9 st = Some Confirmed ∧
  (slots st' !! 2%N = Some (mk_info {[9%N]} (Some (meta 2 1 Finalized)))) ∧
  get_transaction_commitment 9 st' = None.
Proof. vm_compute. auto. Qed.

Lemma landed_transaction_is_announced_witness : ∃ announced,
  (9%N, Confirmed) ∈ announced ∧
  sent (run 300 (run 300 start [Subscribe 9]) (Message (Transaction (mk_received 2 9)) ::
    [Message (BlockMeta (meta 1 1 Processed))] ++ [Message (BlockMeta (meta 2 1 Confirmed))])) =
  sent (run 300 (run 300 start [Subscribe 9]) (Message (Transaction (mk_received 2 9)) ::
    [Message (BlockMeta (meta 1 1 Processed))])) ++ announced.
Proof.
  destruct (landed_transaction_is_announced 300 (run 300 start [Subscribe 9]) (mk_received 2 9)
    [Message (BlockMeta (meta 1 1 Processed))] (meta 2 1 Confirmed)) as (a & H1 & H2).
  - by vm_compute.
  - done.
  - by repeat constructor.
  - by exists a.
Defined.

Lemma announcements_are_justified_witness : justified fork_history (9%N, Confirmed).
Proof.
  apply (announcements_are_justified 300). vm_compute. right. left.
Defined.

Lemma finalized_block_prunes_the_state_witness :
  let st := state_machine (run 300 start (fork_history ++ [Message (BlockMeta (meta 2 1 Finalized))])) in
  slots st !! 2%N = Some (mk_info {[9%N]} (Some (meta 2 1 Finalized))) ∧
  (block_height (meta 2 1 Finalized) < u64_add (block_height (meta 2 1 Finalized)) 300)%N.
Proof.
  cbn zeta. set (h := fork_history ++ _).
  assert (slots (state_machine (run 300 start h)) !! 2%N = Some (mk_info {[9%N]} (Some (meta 2 1 Finalized)))) as E
    by (vm_compute; reflexivity).
  split; [exact E|].
  exact (proj1 (proj2 (proj1 (finalized_block_prunes_the_state 300 fork_history (meta 2 1 Finalized) eq_refl)
    2%N _ (meta 2 1 Finalized) E eq_refl)) eq_refl).
Defined.
End Rooted.
