(* ===== verification/Blockhash.v ===== *)
(** Block heights by blockhash ([blockhash_queue.rs] of [apps/jet/src]): the map
    fed by the block metadata of all commitment levels, pruned by the finalized
    ones, and the interface its clients use. *)
From S2P Require Import Prelude Types Commitment.
Import Commitment.

(** [BlockHeightService]. *)
Class BlockHeightService (B : Type) := {
  get_block_height : B → N → option N;
  get_block_height_for_commitment : B → CommitmentLevel → option N
}.

Module Blockhash.
Section Blockhash.
Context (MAX_RECENT_BLOCKHASHES : N).

Abbreviation BlockMetaMap := (gmap N BlockMetaWithCommitment) (only parsing).

Definition retained (block_meta m : BlockMetaWithCommitment) : bool :=
  if decide (commitment m = Finalized)
  then (block_height block_meta <? u64_add (block_height m) MAX_RECENT_BLOCKHASHES)%N
  else (slot block_meta <? slot m)%N.

Definition on_block_meta (blockmeta_map : BlockMetaMap) (block_meta : BlockMetaWithCommitment) : BlockMetaMap :=
  let blockmeta_map := <[block_hash block_meta := block_meta]> blockmeta_map in
  if decide (commitment block_meta = Finalized)
  then filter (λ p, retained block_meta p.2 = true) blockmeta_map else blockmeta_map.

(** [subscribe]: what each turn of the loop receives, and how the task ends. *)
Inductive Recv := RShutdown | ROk (m : BlockMetaWithCommitment) | RLagged (skipped : N) | RClosed.
Fixpoint subscribe (blockmeta_map : BlockMetaMap) (recvs : list Recv) : option (option N) * BlockMetaMap :=
  match recvs with
  | [] => (None, blockmeta_map)
  | ROk m :: recvs => subscribe (on_block_meta blockmeta_map m) recvs
  | (RShutdown | RClosed) :: _ => (Some None, blockmeta_map)
  | RLagged n :: _ => (Some (Some n), blockmeta_map)
  end.

Definition max_height (l : list N) : option N :=
  foldl (λ acc h, match acc with None => Some h | Some a => Some (N.max a h) end) None l.

#[export] Instance blockhash_queue : BlockHeightService BlockMetaMap := {
  get_block_height m block_hash := block_height <$> m !! block_hash;
  get_block_height_for_commitment m c :=
    max_height (block_height <$> filter (λ meta, commitment meta = c) (map_to_list m).*2)
}.

Lemma max_height_spec l :
  match max_height l with
  | None => l = []
  | Some h => h ∈ l ∧ ∀ x, x ∈ l → (x ≤ h)%N
  end.
Proof.
  unfold max_height.
  destruct l as [|x l]; [done|]. cbn [foldl].
  enough (∀ a, ∃ h, foldl (λ acc h, match acc with None => Some h | Some a => Some (N.max a h) end) (Some a) l = Some h ∧
    (h = a ∨ h ∈ l) ∧ (a ≤ h)%N ∧ ∀ x, x ∈ l → (x ≤ h)%N) as H.
  { destruct (H x) as (h & -> & H1 & H2 & H3). split; [set_solver|]. intros y [->|?]%elem_of_cons; auto. }
  induction l as [|y l IH]; intros a; cbn [foldl].
  - exists a. split_and!; [done|by left|done|set_solver].
  - destruct (IH (N.max a y)) as (h & -> & H1 & H2 & H3). exists h. split_and!; [done| |lia|].
    + destruct H1 as [->|?]; [|set_solver]. destruct (N.max_spec a y) as [[_ ->]|[_ ->]]; set_solver.
    + intros z [->|?]%elem_of_cons; [lia|auto].
Qed.

(** ** What the map holds *)
Definition run (metas : list BlockMetaWithCommitment) : BlockMetaMap := foldl on_block_meta ∅ metas.

Definition pruned_by (m f : BlockMetaWithCommitment) : Prop := commitment f = Finalized ∧ retained f m = false.

(** [m] is the last metadata of its hash, and no finalized block since prunes it. *)
Definition survives (metas : list BlockMetaWithCommitment) (m : BlockMetaWithCommitment) : Prop :=
  ∃ pre post, metas = pre ++ m :: post ∧ Forall (λ m', block_hash m' ≠ block_hash m) post ∧
    Forall (λ f, ¬ pruned_by m f) (m :: post).

Lemma lookup_on_block_meta map f h m : on_block_meta map f !! h = Some m ↔
  (if decide (h = block_hash f) then m = f else map !! h = Some m) ∧ ¬ pruned_by m f.
Proof.
  unfold on_block_meta, pruned_by. case_decide as Hf.
  - rewrite map_lookup_filter_Some. cbn. rewrite lookup_insert_Some. case_decide as Hh.
    + subst h. destruct (retained f m); naive_solver.
    + destruct (retained f m); naive_solver.
  - rewrite lookup_insert_Some. case_decide; naive_solver.
Qed.

Lemma survives_snoc metas f m : survives (metas ++ [f]) m ↔
  (if decide (block_hash m = block_hash f) then m = f else survives metas m) ∧ ¬ pruned_by m f.
Proof.
  unfold survives. split.
  - intros (pre & post & Heq & Hh & Hp). destruct post as [|x post _] using rev_ind.
    + apply app_inj_tail in Heq as [-> ->]. rewrite decide_True by done. split; [done|]. by apply Forall_cons in Hp as [? _].
    + rewrite app_comm_cons, app_assoc in Heq. apply app_inj_tail in Heq as [-> ->].
      apply Forall_app in Hh as [Hh1 Hh2]. rewrite Forall_singleton in Hh2.
      rewrite app_comm_cons in Hp. apply Forall_app in Hp as [Hp1 Hp2]. rewrite Forall_singleton in Hp2.
      rewrite decide_False by (intros E; by apply Hh2). split; [|done]. by exists pre, post.
  - case_decide as Hh; intros [H Hp].
    + subst f. exists metas, []. split_and!; [done|done|by constructor].
    + destruct H as (pre & post & -> & H1 & H2). exists pre, (post ++ [f]). split_and!.
      * by rewrite <-app_assoc.
      * apply Forall_app. split; [done|]. by apply Forall_singleton.
      * rewrite app_comm_cons. apply Forall_app. split; [done|]. by apply Forall_singleton.
Qed.

Lemma blockhash_run_snoc metas f : run (metas ++ [f]) = on_block_meta (run metas) f.
Proof. unfold run. by rewrite foldl_app. Qed.

Lemma run_lookup metas h m : run metas !! h = Some m ↔ block_hash m = h ∧ survives metas m.
Proof.
  induction metas as [|f metas IH] using rev_ind.
  - cbn. rewrite lookup_empty. split; [done|]. intros (_ & pre & post & H & _). by destruct pre.
  - rewrite blockhash_run_snoc, lookup_on_block_meta, survives_snoc.
    destruct (decide (h = block_hash f)); destruct (decide (block_hash m = block_hash f)); rewrite ?IH; naive_solver.
Qed.

Lemma subscribe_run metas tail map : subscribe map (ROk <$> metas ++ tail) = subscribe (foldl on_block_meta map metas) (ROk <$> tail).
Proof. revert map. induction metas as [|m metas IH]; intros map; [done|]. cbn. apply IH. Qed.

(** C30: The blockhash queue answers block heights from exactly the surviving metadata: the
    last one of its hash that no finalized block has pruned since; the latest height of a
    commitment is the maximum over the survivors. *)
Theorem queue_answers_from_surviving_blocks metas :
  let '(res, map) := subscribe ∅ (ROk <$> metas) in
  res = None ∧
  (∀ h height, get_block_height map h = Some height ↔
     ∃ m, survives metas m ∧ block_hash m = h ∧ block_height m = height) ∧
  ∀ c, match get_block_height_for_commitment map c with
       | Some height =>
           (∃ m, survives metas m ∧ commitment m = c ∧ block_height m = height) ∧
           ∀ m, survives metas m → commitment m = c → (block_height m ≤ height)%N
       | None => ∀ m, survives metas m → commitment m ≠ c
       end.
Proof.
  pose proof (subscribe_run metas [] ∅) as Hs. rewrite app_nil_r in Hs. rewrite Hs. cbn [fmap list_fmap subscribe].
  fold (run metas). split_and!; [done| |].
  - intros h height. cbn. rewrite fmap_Some. setoid_rewrite run_lookup. naive_solver.
  - intros c. cbn.
    assert (∀ m, m ∈ (map_to_list (run metas)).*2 ↔ survives metas m) as Hm.
    { intros m. rewrite list_elem_of_fmap. split.
      - intros ([h m'] & -> & Hin%elem_of_map_to_list). by apply run_lookup in Hin as [_ ?].
      - intros Hsv. exists (block_hash m, m). split; [done|]. apply elem_of_map_to_list. by apply run_lookup. }
    set (l := block_height <$> _). pose proof (max_height_spec l) as Hx.
    assert (∀ h, h ∈ l ↔ ∃ m, survives metas m ∧ commitment m = c ∧ block_height m = h) as Hl.
    { intros h. unfold l. rewrite list_elem_of_fmap. setoid_rewrite list_elem_of_filter. setoid_rewrite Hm. naive_solver. }
    destruct (max_height l) as [height|].
    + destruct Hx as [H1 H2]. split; [by apply Hl|]. intros m Hsv Hc. apply H2, Hl. eauto.
    + intros m Hsv Hc. assert (block_height m ∈ l) as Hin by (apply Hl; eauto). rewrite Hx in Hin. set_solver.
Qed.
End Blockhash.
End Blockhash.
