(* ===== verification/Retry.v ===== *)
(** The transaction schedulers ([transactions.rs] of [apps/jet/src]): the one that
    resends a transaction until it lands, expires or runs out of attempts, and
    the one that only forwards. Both are written against the interfaces of the
    block-height service and of the rooted-transaction receiver. *)
From S2P Require Import Prelude Types Commitment Rooted Blockhash.
From Stdlib Require Import Strings.Byte.
Import Commitment.

(** [RootedTxReceiver], with the watched set that its clients change. *)
Class RootedTxReceiver (R : Type) := {
  subscribe_signature : Signature → R → R;
  unsubscribe_signature : Signature → R → R;
  get_transaction_commitment : R → Signature → option CommitmentLevel;
  watched : R → gset Signature;
  watched_subscribe s r : watched (subscribe_signature s r) = {[s]} ∪ watched r;
  watched_unsubscribe s r : watched (unsubscribe_signature s r) = watched r ∖ {[s]}
}.

#[export] Program Instance rooted_receiver : RootedTxReceiver Rooted.RootedTransactionsState := {
  subscribe_signature := Rooted.subscribe_signature;
  unsubscribe_signature := Rooted.unsubscribe_signature;
  get_transaction_commitment r s := Rooted.get_transaction_commitment s r;
  watched := Rooted.watched_signatures
}.
Next Obligation. done. Qed.
Next Obligation. done. Qed.

Module Retry.

(** [recent_blockhash]: [transaction.message.recent_blockhash()]. *)
Record SendTransactionRequest := mk_request {
  signature : Signature;
  recent_blockhash : N;
  wire_transaction : list byte;
  max_retries : option nat;
  policies : list Pubkey
}.

Record TransactionRetrySchedulerConfig := mk_config {
  retry_rate : Duration;
  stop_send_on_commitment : CommitmentLevel;
  max_retry : nat;
  transaction_max_processing_age : N
}.
(** [MAX_PROCESSING_AGE] is a constant of [solana_clock]. *)
Definition default_config (MAX_PROCESSING_AGE : N) : TransactionRetrySchedulerConfig :=
  mk_config (from_secs 1) Confirmed 3 MAX_PROCESSING_AGE.

Inductive TransactionRetrySchedulerDlqEvent :=
  | ReachedMaxProcessingAge (s : Signature) | ReachedMaxRetries (s : Signature) | AlreadyLanded (s : Signature).

Record RetryableTx := mk_retryable { tx : SendTransactionRequest; leftover_attempt : nat }.

Section Retry.
Context `{BH : BlockHeightService B} `{RR : RootedTxReceiver R}.
(** [has_dlq]: whether [dlq] is [Some]. *)
Context (config : TransactionRetrySchedulerConfig) (has_dlq : bool).

(** [responses] and [dlq] are what went through [response_sink] and [dlq]. *)
Record Scheduler := mk {
  rooted_transactions : R;
  last_known_block_height : N;
  tx_pool : gmap Signature RetryableTx;
  block_height_deadline_map : gmap N (list Signature);
  insertion_order : list (Instant * Signature);
  responses : list SendTransactionRequest;
  dlq : list TransactionRetrySchedulerDlqEvent
}.
#[export] Instance Scheduler_settable : Settable Scheduler := λ r,
  mk (rooted_transactions r) (last_known_block_height r) (tx_pool r) (block_height_deadline_map r)
     (insertion_order r) (responses r) (dlq r).
Definition new (r : R) : Scheduler := mk r 0%N ∅ ∅ [] [] [].

Definition send_dlq (e : TransactionRetrySchedulerDlqEvent) (st : Scheduler) : Scheduler :=
  if has_dlq then st <| dlq ::= λ l, l ++ [e] |> else st.

(** One iteration of the [while let] of [resend_non_landed_tx]; [None] when the
    loop ends. *)
Definition resend_step (now : Instant) (st : Scheduler) : option Scheduler :=
  match insertion_order st with
  | [] => None
  | (inserted_at, s) :: rest =>
      if (now - inserted_at <? retry_rate config)%N then None else
      let st := st <| insertion_order := rest |> in
      Some match tx_pool st !! s with
           | None => st
           | Some rtx =>
               match leftover_attempt rtx with
               | S n => st <| tx_pool ::= <[s := mk_retryable (tx rtx) n]> |> <| responses ::= λ l, l ++ [tx rtx] |>
                           <| insertion_order ::= λ l, l ++ [(now, s)] |>
               | 0 => send_dlq (ReachedMaxRetries s) (st <| tx_pool ::= delete s |>)
               end
           end
  end.
Fixpoint resend_fuel (fuel : nat) (now : Instant) (st : Scheduler) : Scheduler :=
  match fuel with
  | 0 => st
  | S fuel => match resend_step now st with None => st | Some st => resend_fuel fuel now st end
  end.
(** Each iteration uses up an entry of the queue or an attempt ([resend_done]). *)
Definition resend_measure (st : Scheduler) : nat :=
  length (insertion_order st) + map_sum leftover_attempt (tx_pool st).
Definition resend_non_landed_tx (now : Instant) (st : Scheduler) : Scheduler :=
  resend_fuel (S (resend_measure st)) now st.

Definition gc_signature (st : Scheduler) (s : Signature) : Scheduler :=
  send_dlq (ReachedMaxProcessingAge s)
    (st <| tx_pool ::= delete s |> <| rooted_transactions ::= unsubscribe_signature s |>).
Definition gc_deadline_map (st : Scheduler) : Scheduler :=
  let outdated_block_height := u64_saturating_sub (last_known_block_height st) (transaction_max_processing_age config) in
  let deprecated_tx := filter (λ p, p.1 < outdated_block_height)%N (block_height_deadline_map st) in
  let st := st <| block_height_deadline_map ::= filter (λ p, outdated_block_height ≤ p.1)%N |> in
  foldl gc_signature st (p ← btree_iter deprecated_tx; p.2).

Definition handle_tx_commitment_update (s : Signature) (c : CommitmentLevel) (st : Scheduler) : Scheduler :=
  if decide (c = stop_send_on_commitment config) then st <| tx_pool ::= delete s |> else st.

Definition accept (last_valid_block_height : N) (leftover : nat) (t : SendTransactionRequest) (now : Instant) (st : Scheduler) : Scheduler :=
  st <| rooted_transactions ::= subscribe_signature (signature t) |>
     <| tx_pool ::= <[signature t := mk_retryable t leftover]> |>
     <| block_height_deadline_map ::= λ m,
          <[last_valid_block_height := default [] (m !! last_valid_block_height) ++ [signature t]]> m |>
     <| responses ::= λ l, l ++ [t] |>
     <| insertion_order ::= λ l, l ++ [(now, signature t)] |>.

Definition retries_of (t : SendTransactionRequest) : nat := default 0 (max_retries t) `min` max_retry config.
Definition current_height (b : B) : N := default 0%N (get_block_height_for_commitment b Confirmed).
Definition last_valid (b : B) (t : SendTransactionRequest) : N :=
  default (u64_add (current_height b) (transaction_max_processing_age config))
    ((λ h, u64_add h (transaction_max_processing_age config)) <$> get_block_height b (recent_blockhash t)).
Definition is_landed (r : R) (s : Signature) : bool :=
  match get_transaction_commitment r s with Some c => ge c (stop_send_on_commitment config) | None => false end.

Definition add_new_transaction (b : B) (t : SendTransactionRequest) (now : Instant) (st : Scheduler) : Scheduler :=
  let st := st <| last_known_block_height := current_height b |> in
  if (last_valid b t <? current_height b)%N then send_dlq (ReachedMaxProcessingAge (signature t)) st
  else if is_landed (rooted_transactions st) (signature t) then send_dlq (AlreadyLanded (signature t)) st
  else accept (last_valid b t) (retries_of t - 1) t now st.

(** The branches of [run]'s loop, and the receiver changing under it. *)
Inductive Event :=
  | Tick (now : Instant)
  | Source (b : B) (t : SendTransactionRequest) (now : Instant)
  | Update (s : Signature) (c : CommitmentLevel)
  | Rooted (r : R).
Definition step (st : Scheduler) (e : Event) : option Scheduler :=
  match e with
  | Tick now => Some (resend_non_landed_tx now (gc_deadline_map st))
  | Source b t now => Some (add_new_transaction b t now st)
  | Update s c => Some (handle_tx_commitment_update s c st)
  | Rooted r => if decide (watched r = watched (rooted_transactions st)) then Some (st <| rooted_transactions := r |>) else None
  end.
Definition run (st : Scheduler) (es : list Event) : option Scheduler := foldl (λ o e, o ≫= λ st, step st e) (Some st) es.

(** ** The forwarding scheduler *)
Definition fwd (MAX_PROCESSING_AGE : N) (b : B) (t : SendTransactionRequest) : option SendTransactionRequest :=
  let last_valid_block_height := u64_add (default 0%N (get_block_height b (recent_blockhash t))) MAX_PROCESSING_AGE in
  if (last_valid_block_height <? current_height b)%N then None else Some t.
(** [fwd_loop], until the incoming channel or the response sink is closed:
    [open] is how many sends the sink accepts. *)
Fixpoint fwd_loop (MAX_PROCESSING_AGE : N) (open : nat) (incoming : list (B * SendTransactionRequest)) : list SendTransactionRequest :=
  match incoming with
  | [] => []
  | (b, t) :: incoming =>
      match fwd MAX_PROCESSING_AGE b t, open with
      | None, _ => fwd_loop MAX_PROCESSING_AGE open incoming
      | Some _, 0 => []
      | Some t, S open => t :: fwd_loop MAX_PROCESSING_AGE open incoming
      end
  end.

(** ** The resend loop ends *)
Lemma resend_step_measure now st st' : resend_step now st = Some st' → resend_measure st' < resend_measure st.
Proof.
  unfold resend_step, resend_measure. destruct (insertion_order st) as [|[t s] rest]; [done|].
  destruct (_ <? _)%N; [done|]. upd_simpl. cbn [length].
  destruct (tx_pool st !! s) as [rtx|] eqn:E; [|intros [= <-]; upd_simpl; lia].
  destruct (leftover_attempt rtx) as [|n] eqn:En; intros [= <-].
  - unfold send_dlq. pose proof (map_sum_delete_opt leftover_attempt (tx_pool st) s) as Hd.
    rewrite E in Hd. cbn in Hd. destruct has_dlq; upd_simpl; lia.
  - upd_simpl. rewrite length_app. cbn [length].
    pose proof (map_sum_insert leftover_attempt (tx_pool st) s (mk_retryable (tx rtx) n)) as Hi.
    rewrite E in Hi. cbn in Hi. lia.
Qed.

Lemma resend_done now st : resend_step now (resend_non_landed_tx now st) = None.
Proof.
  unfold resend_non_landed_tx. enough (∀ fuel st, resend_measure st < fuel → resend_step now (resend_fuel fuel now st) = None) as H.
  { apply H. lia. }
  induction fuel as [|fuel IH]; intros st' Hm; [lia|]. cbn [resend_fuel].
  destruct (resend_step now st') as [st1|] eqn:E; [|done]. apply IH. apply resend_step_measure in E. lia.
Qed.

(** Induction over the iterations. *)
Lemma resend_ind (P : Scheduler → Prop) now st :
  P st → (∀ st st', P st → resend_step now st = Some st' → P st') → P (resend_non_landed_tx now st).
Proof.
  intros Hp Hs. unfold resend_non_landed_tx. generalize (S (resend_measure st)). intros fuel. revert st Hp.
  induction fuel as [|fuel IH]; intros st Hp; cbn [resend_fuel]; [done|].
  destruct (resend_step now st) as [st1|] eqn:E; [|done]. apply IH. by eapply Hs.
Qed.

(** ** The pool, its queue, its deadlines and its subscriptions *)
Definition deadlines (st : Scheduler) (s : Signature) : Prop :=
  ∃ h l, block_height_deadline_map st !! h = Some l ∧ s ∈ l.

Record inv (st : Scheduler) : Prop := {
  inv_queued s : is_Some (tx_pool st !! s) → s ∈ (insertion_order st).*2;
  inv_deadline s : is_Some (tx_pool st !! s) → deadlines st s;
  inv_watched s : is_Some (tx_pool st !! s) → s ∈ watched (rooted_transactions st);
  inv_released s : s ∈ watched (rooted_transactions st) → deadlines st s;
  inv_signature s rtx : tx_pool st !! s = Some rtx → signature (tx rtx) = s
}.

Lemma inv_dlq e st : inv st → inv (send_dlq e st).
Proof. unfold send_dlq. destruct has_dlq; [|done]. intros [H1 H2 H3 H4 H5]. split; upd_simpl; done. Qed.

Lemma retry_inv_forget s st : inv st → inv (st <| tx_pool ::= delete s |>).
Proof.
  intros [H1 H2 H3 H4 H5]. split; upd_simpl; try done; intros s'.
  - intros [rtx [? ?]%lookup_delete_Some]. eauto.
  - intros [rtx [? ?]%lookup_delete_Some]. eauto.
  - intros [rtx [? ?]%lookup_delete_Some]. eauto.
  - intros rtx [? ?]%lookup_delete_Some. eauto.
Qed.

Lemma inv_resend_step now st st' : inv st → resend_step now st = Some st' → inv st'.
Proof.
  intros Hi. unfold resend_step. destruct (insertion_order st) as [|[t s] rest] eqn:Eo; [done|].
  destruct (_ <? _)%N; [done|]. intros [= <-].
  assert (∀ s', is_Some (tx_pool st !! s') → s' ≠ s → s' ∈ rest.*2) as Hrest.
  { intros s' Hs' Hne. pose proof (inv_queued _ Hi s' Hs') as Hin. rewrite Eo in Hin. set_solver. }
  upd_simpl. destruct (tx_pool st !! s) as [rtx|] eqn:Ep; [destruct (leftover_attempt rtx) as [|n]|].
  - apply inv_dlq. destruct Hi as [H1 H2 H3 H4 H5]. split; upd_simpl; try done; intros s'.
    + intros [r [? ?]%lookup_delete_Some]. eauto.
    + intros [r [? ?]%lookup_delete_Some]. eauto.
    + intros [r [? ?]%lookup_delete_Some]. eauto.
    + intros r [? ?]%lookup_delete_Some. eauto.
  - destruct Hi as [H1 H2 H3 H4 H5].
    assert (∀ s', is_Some (<[s := mk_retryable (tx rtx) n]> (tx_pool st) !! s') → is_Some (tx_pool st !! s')) as Hs.
    { intros s' [r [[<- _]|[_ Hr]]%lookup_insert_Some]; eauto. }
    split; upd_simpl; intros s'.
    + intros Hs'. rewrite fmap_app. cbn. destruct (decide (s' = s)) as [->|Hne]; [set_solver|].
      apply elem_of_app. left. auto.
    + intros Hs'. apply H2; auto.
    + auto.
    + apply H4.
    + intros r [[<- <-]|[_ Hr]]%lookup_insert_Some; [cbn; by apply H5|by apply H5].
  - destruct Hi as [H1 H2 H3 H4 H5]. split; upd_simpl; try done.
    intros s' Hs'. apply Hrest; [done|]. intros ->. rewrite Ep in Hs'. by destruct Hs'.
Qed.

Lemma gc_signatures_spec l st : let st' := foldl gc_signature st l in
  insertion_order st' = insertion_order st ∧ block_height_deadline_map st' = block_height_deadline_map st ∧
  responses st' = responses st ∧
  (∀ s, tx_pool st' !! s = if decide (s ∈ l) then None else tx_pool st !! s) ∧
  (∀ s, s ∈ watched (rooted_transactions st') ↔ s ∈ watched (rooted_transactions st) ∧ s ∉ l) ∧
  dlq st' = dlq st ++ (if has_dlq then ReachedMaxProcessingAge <$> l else []).
Proof.
  cbn zeta. revert st. induction l as [|x l IH]; intros st; cbn [foldl].
  { split_and!; try done; [|by destruct has_dlq; rewrite app_nil_r]. set_solver. }
  destruct (IH (gc_signature st x)) as (H1 & H2 & H3 & H4 & H5 & H6). rewrite H1, H2, H3, H6.
  unfold gc_signature, send_dlq in *. split_and!.
  - destruct has_dlq; by upd_simpl.
  - destruct has_dlq; by upd_simpl.
  - destruct has_dlq; by upd_simpl.
  - intros s. rewrite H4. assert (∀ d, tx_pool (if has_dlq then st <| tx_pool ::= delete x |> <| rooted_transactions ::= unsubscribe_signature x |> <| dlq ::= d |>
      else st <| tx_pool ::= delete x |> <| rooted_transactions ::= unsubscribe_signature x |>) = delete x (tx_pool st)) as ->
      by (destruct has_dlq; intros; by upd_simpl).
    destruct (decide (s = x)) as [->|Hne].
    + rewrite (decide_True (P := x ∈ x :: l)) by set_solver. rewrite lookup_delete_eq. by case_decide.
    + rewrite lookup_delete_ne by done. by rewrite (decide_ext _ (s ∈ x :: l)) by set_solver.
  - intros s. rewrite H5. destruct has_dlq; upd_simpl; rewrite watched_unsubscribe; set_solver.
  - destruct has_dlq; upd_simpl; [by rewrite <-app_assoc|done].
Qed.

(** The signatures that a collection drops. *)
Definition outdated (st : Scheduler) (s : Signature) : Prop :=
  ∃ h l, block_height_deadline_map st !! h = Some l ∧ s ∈ l ∧
    (h < u64_saturating_sub (last_known_block_height st) (transaction_max_processing_age config))%N.

Lemma elem_of_deprecated st s :
  s ∈ (p ← btree_iter (filter (λ p, p.1 < u64_saturating_sub (last_known_block_height st) (transaction_max_processing_age config))%N
         (block_height_deadline_map st)); p.2) ↔ outdated st s.
Proof.
  rewrite list_elem_of_bind. unfold outdated. split.
  - intros ([h l] & Hs & Hh). apply elem_of_btree_iter, map_lookup_filter_Some in Hh as [Hh Hlt]. eauto 6.
  - intros (h & l & Hh & Hs & Hlt). exists (h, l). split; [done|]. by apply elem_of_btree_iter, map_lookup_filter_Some.
Qed.

Lemma gc_spec st : let st' := gc_deadline_map st in
  insertion_order st' = insertion_order st ∧ responses st' = responses st ∧
  (∀ s, tx_pool st' !! s = tx_pool st !! s ∧ ¬ outdated st s ∨ tx_pool st' !! s = None ∧ outdated st s) ∧
  (∀ s, s ∈ watched (rooted_transactions st') ↔ s ∈ watched (rooted_transactions st) ∧ ¬ outdated st s) ∧
  (∀ s, deadlines st s → ¬ outdated st s → deadlines st' s).
Proof.
  cbn zeta. unfold gc_deadline_map. cbn zeta.
  set (l := p ← btree_iter _; p.2). set (st0 := st <| block_height_deadline_map ::= _ |>).
  assert (∀ s, s ∈ l ↔ outdated st s) as Hl by apply elem_of_deprecated.
  destruct (gc_signatures_spec l st0) as (H1 & H2 & H3 & H4 & H5 & _). split_and!.
  - rewrite H1. unfold st0. by upd_simpl.
  - rewrite H3. unfold st0. by upd_simpl.
  - intros s. rewrite H4, <-Hl. unfold st0. upd_simpl. case_decide; auto.
  - intros s. rewrite H5, <-Hl. unfold st0. by upd_simpl.
  - intros s (h & ls & Hh & Hs) Ho. unfold deadlines. rewrite H2. unfold st0. upd_simpl.
    exists h, ls. split; [|done]. apply map_lookup_filter_Some. split; [done|]. cbn.
    apply N.nlt_ge. intros Hlt. apply Ho. exists h, ls. done.
Qed.

Lemma inv_gc st : inv st → inv (gc_deadline_map st).
Proof.
  intros [H1 H2 H3 H4 H5]. destruct (gc_spec st) as (G1 & G2 & G3 & G4 & G5).
  assert (∀ s, is_Some (tx_pool (gc_deadline_map st) !! s) → is_Some (tx_pool st !! s) ∧ ¬ outdated st s) as Hp.
  { intros s Hs. destruct (G3 s) as [[E ?]|[E ?]]; rewrite E in Hs; [done|by destruct Hs]. }
  split; intros s.
  - intros [Hs ?]%Hp. rewrite G1. auto.
  - intros [Hs ?]%Hp. auto.
  - intros [Hs ?]%Hp. apply G4. auto.
  - intros [Hs ?]%G4. auto.
  - intros rtx Hs. destruct (G3 s) as [[E ?]|[E ?]]; rewrite E in Hs; [auto|done].
Qed.

Lemma deadlines_insert st h s s' l :
  l = default [] (block_height_deadline_map st !! h) ++ [s] →
  (s' = s ∨ deadlines st s') → ∃ h' l', <[h := l]> (block_height_deadline_map st) !! h' = Some l' ∧ s' ∈ l'.
Proof.
  intros -> [->|(h' & l' & Hh & Hs)].
  - eexists h, _. rewrite lookup_insert_eq. split; [done|set_solver].
  - destruct (decide (h = h')) as [->|Hne].
    + eexists h', _. rewrite lookup_insert_eq. split; [done|]. rewrite Hh. set_solver.
    + exists h', l'. by rewrite lookup_insert_ne.
Qed.

Lemma retry_inv_accept h n t now st : inv st → inv (accept h n t now st).
Proof.
  intros [H1 H2 H3 H4 H5]. unfold accept.
  split; unfold deadlines; upd_simpl; intros s.
  - intros [r Hr]. rewrite fmap_app. apply lookup_insert_Some in Hr as [[<- _]|[_ Hr]]; [cbn; set_solver|].
    apply elem_of_app. left. eauto.
  - intros [r Hr]. apply (deadlines_insert st h (signature t)); [done|].
    apply lookup_insert_Some in Hr as [[<- _]|[_ Hr]]; [by left|right; eauto].
  - intros [r Hr]. rewrite watched_subscribe. apply lookup_insert_Some in Hr as [[<- _]|[_ Hr]]; [set_solver|].
    apply elem_of_union. right. eauto.
  - rewrite watched_subscribe. intros Hs. apply (deadlines_insert st h (signature t)); [done|].
    apply elem_of_union in Hs as [->%elem_of_singleton|Hs]; [by left|right; by apply H4].
  - intros r [[<- <-]|[_ Hr]]%lookup_insert_Some; [done|by apply H5].
Qed.

Lemma inv_add b t now st : inv st → inv (add_new_transaction b t now st).
Proof.
  intros Hi. unfold add_new_transaction.
  assert (inv (st <| last_known_block_height := current_height b |>)) as Hi'.
  { destruct Hi as [H1 H2 H3 H4 H5]. split; unfold deadlines; upd_simpl; done. }
  repeat case_match; [by apply inv_dlq|by apply inv_dlq|by apply retry_inv_accept].
Qed.

Lemma retry_inv_step st e st' : inv st → step st e = Some st' → inv st'.
Proof.
  intros Hi. destruct e as [now|b t now|s c|r]; cbn [step].
  - intros [= <-]. apply resend_ind; [by apply inv_gc|]. intros st0 st1 Hi0. by apply inv_resend_step.
  - intros [= <-]. by apply inv_add.
  - intros [= <-]. unfold handle_tx_commitment_update. case_decide; [by apply retry_inv_forget|done].
  - case_decide as Hw; [|done]. intros [= <-]. destruct Hi as [H1 H2 H3 H4 H5].
    split; unfold deadlines; upd_simpl; rewrite ?Hw; done.
Qed.

Lemma inv_new r : watched r = ∅ → inv (new r).
Proof.
  intros Hr. split; cbn; try (intros s; rewrite lookup_empty; try by intros [? [=]]); try done.
  intros s. rewrite Hr. set_solver.
Qed.

Lemma retry_run_snoc st es e : run st (es ++ [e]) = run st es ≫= λ st, step st e.
Proof. unfold run. by rewrite foldl_app. Qed.

(** Each pooled transaction is queued for resending, watched, and has a deadline; each
    watched signature has a deadline; and garbage collection removes and unsubscribes
    everything outdated. *)
Theorem pool_is_queued_watched_and_bounded r es st (Hr : watched r = ∅) (Hrun : run (new r) es = Some st) :
  (∀ s rtx, tx_pool st !! s = Some rtx → signature (tx rtx) = s ∧ s ∈ (insertion_order st).*2 ∧
     s ∈ watched (rooted_transactions st) ∧ deadlines st s) ∧
  (∀ s, s ∈ watched (rooted_transactions st) → deadlines st s) ∧
  let st' := gc_deadline_map st in
  ∀ s, outdated st s → tx_pool st' !! s = None ∧ s ∉ watched (rooted_transactions st').
Proof.
  assert (inv st) as Hi.
  { revert st Hrun. induction es as [|e es IH] using rev_ind; intros st.
    - intros [= <-]. by apply inv_new.
    - rewrite retry_run_snoc. destruct (run (new r) es) as [st0|]; [|done]. cbn. intros He.
      eapply retry_inv_step; [by apply IH|done]. }
  split_and!.
  - intros s rtx Hs. destruct Hi as [H1 H2 H3 H4 H5]. split_and!; eauto.
  - apply Hi.
  - cbn zeta. intros s Ho. destruct (gc_spec st) as (_ & _ & G3 & G4 & _). split.
    + destruct (G3 s) as [[_ ?]|[? _]]; [done|done].
    + intros [_ ?]%G4. done.
Qed.

(** ** How often a transaction is sent *)
Definition sent_count (s : Signature) (st : Scheduler) : nat :=
  length (filter (λ t, signature t = s) (responses st)).
Definition credit (s : Signature) (st : Scheduler) : nat := from_option leftover_attempt 0 (tx_pool st !! s).
(** What a submission allows: the first send, and the resends. *)
Definition allowance (s : Signature) (e : Event) : nat :=
  match e with Source _ t _ => if decide (signature t = s) then 1 `max` retries_of t else 0 | _ => 0 end.
Definition budget (s : Signature) (es : list Event) : nat := foldr (λ e n, allowance s e + n) 0 es.
#[local] Arguments budget : simpl never.

Lemma budget_app s es es' : budget s (es ++ es') = budget s es + budget s es'.
Proof. unfold budget. induction es; cbn; lia. Qed.

Lemma sent_count_snoc s l t : length (filter (λ t, signature t = s) (l ++ [t])) =
  length (filter (λ t, signature t = s) l) + if decide (signature t = s) then 1 else 0.
Proof. rewrite filter_app, length_app, filter_cons, filter_nil. by case_decide. Qed.

(** Neither the queue nor the letter queue counts. *)
Lemma counts_dlq s e st : sent_count s (send_dlq e st) = sent_count s st ∧ credit s (send_dlq e st) = credit s st.
Proof. unfold send_dlq, sent_count, credit. destruct has_dlq; by upd_simpl. Qed.

Definition spends (s : Signature) (n : nat) (st st' : Scheduler) : Prop :=
  sent_count s st ≤ sent_count s st' ∧ sent_count s st' + credit s st' ≤ sent_count s st + credit s st + n.

Lemma credit_delete s s' (m : gmap Signature RetryableTx) :
  from_option leftover_attempt 0 (delete s' m !! s) ≤ from_option leftover_attempt 0 (m !! s).
Proof.
  destruct (decide (s = s')) as [->|Hne]; [rewrite lookup_delete_eq; cbn; lia|by rewrite lookup_delete_ne].
Qed.

Lemma resend_step_spends s now st st' : inv st → resend_step now st = Some st' → spends s 0 st st'.
Proof.
  intros Hi. unfold resend_step. destruct (insertion_order st) as [|[t x] rest]; [done|].
  destruct (_ <? _)%N; [done|]. intros [= <-]. upd_simpl.
  destruct (tx_pool st !! x) as [rtx|] eqn:Ep; [destruct (leftover_attempt rtx) as [|n] eqn:En|].
  - unfold spends. destruct (counts_dlq s (ReachedMaxRetries x) (st <| insertion_order := rest |> <| tx_pool ::= delete x |>)) as [-> ->].
    unfold sent_count, credit. upd_simpl. pose proof (credit_delete s x (tx_pool st)). lia.
  - unfold spends, sent_count, credit. upd_simpl. rewrite sent_count_snoc, (inv_signature _ Hi _ _ Ep).
    case_decide as Hs; [subst x|].
    + rewrite lookup_insert_eq, Ep. cbn. lia.
    + rewrite lookup_insert_ne by done. lia.
  - unfold spends, sent_count, credit. upd_simpl. lia.
Qed.

Lemma spends_trans s n st0 st1 st2 : spends s n st0 st1 → spends s 0 st1 st2 → spends s n st0 st2.
Proof. unfold spends. lia. Qed.

Lemma step_spends s st e st' : inv st → step st e = Some st' → spends s (allowance s e) st st'.
Proof.
  intros Hi. destruct e as [now|b t now|x c|r]; cbn [step allowance].
  - intros [= <-].
    enough (inv (resend_non_landed_tx now (gc_deadline_map st)) ∧ spends s 0 st (resend_non_landed_tx now (gc_deadline_map st))) by tauto.
    apply resend_ind.
    + split; [by apply inv_gc|]. destruct (gc_spec st) as (_ & G2 & G3 & _). unfold spends, sent_count, credit.
      rewrite G2. destruct (G3 s) as [[-> _]|[-> _]]; cbn; lia.
    + intros st1 st2 [Hi1 Hs1] Hst. split; [by eapply inv_resend_step|]. eapply spends_trans; [done|by eapply resend_step_spends].
  - intros [= <-]. unfold add_new_transaction.
    set (st0 := st <| last_known_block_height := current_height b |>).
    assert (sent_count s st0 = sent_count s st ∧ credit s st0 = credit s st) as [E1 E2].
    { unfold st0, sent_count, credit. by upd_simpl. }
    destruct (_ <? _)%N; [|destruct (is_landed _ _)].
    + unfold spends. destruct (counts_dlq s (ReachedMaxProcessingAge (signature t)) st0) as [-> ->]. lia.
    + unfold spends. destruct (counts_dlq s (AlreadyLanded (signature t)) st0) as [-> ->]. lia.
    + unfold spends. rewrite <-E1, <-E2. unfold accept, sent_count, credit. upd_simpl. rewrite sent_count_snoc.
      case_decide as Hs; [subst s; rewrite lookup_insert_eq; cbn; lia|rewrite lookup_insert_ne by done; lia].
  - intros [= <-]. unfold handle_tx_commitment_update. unfold spends. case_decide; [|lia].
    unfold sent_count, credit. upd_simpl. pose proof (credit_delete s x (tx_pool st)). lia.
  - case_decide; [|done]. intros [= <-]. unfold spends, sent_count, credit. upd_simpl. lia.
Qed.

Lemma run_spends s st es st' : inv st → run st es = Some st' → inv st' ∧ spends s (budget s es) st st'.
Proof.
  revert st'. induction es as [|e es IH] using rev_ind; intros st' Hi.
  - intros [= <-]. split; [done|]. unfold spends. cbn. lia.
  - rewrite retry_run_snoc. destruct (run st es) as [st0|] eqn:E; [|done]. cbn. intros He.
    destruct (IH st0 Hi eq_refl) as [Hi0 Hs0]. split; [by eapply retry_inv_step|].
    apply (step_spends s) in He; [|done]. unfold spends in *. rewrite budget_app. unfold budget at 2. cbn. lia.
Qed.

(** Over any history the sends of a signature plus the attempts it has left never exceed
    what its submissions allow: each one send, or as many as the retries it asks for capped
    by the configuration; out of the pool it is not sent again until resubmitted. *)
Theorem sends_are_bounded r es st (Hr : watched r = ∅) (Hrun : run (new r) es = Some st) (s : Signature) :
  sent_count s st + credit s st ≤ budget s es ∧
  ∀ es' st', run st es' = Some st' → budget s es' = 0 → tx_pool st !! s = None →
    sent_count s st' = sent_count s st ∧ credit s st' = 0.
Proof.
  destruct (run_spends s _ es st (inv_new r Hr) Hrun) as [Hi Hs]. split.
  - unfold spends, sent_count, credit in Hs. change (tx_pool (new r) !! s) with (@None RetryableTx) in Hs; cbn [from_option responses new] in Hs; rewrite filter_nil in Hs; cbn [length] in Hs. unfold sent_count, credit. lia.
  - intros es' st' Hrun' Hb Hp. destruct (run_spends s _ es' st' Hi Hrun') as [_ Hs'].
    unfold spends in Hs'. assert (credit s st = 0) by (unfold credit; by rewrite Hp). lia.
Qed.

(** ** One tick *)
Definition due (now : Instant) (st : Scheduler) (s : Signature) : Prop :=
  ∃ t, (t, s) ∈ insertion_order st ∧ (retry_rate config ≤ now - t)%N.
(** The queue is in order of time, up to now. *)
Definition in_order (now : Instant) (st : Scheduler) : Prop :=
  StronglySorted N.le (insertion_order st).*1 ∧ Forall (λ t, t ≤ now)%N (insertion_order st).*1.

Lemma in_order_step now st st' : in_order now st → resend_step now st = Some st' → in_order now st'.
Proof.
  unfold in_order, resend_step. destruct (insertion_order st) as [|[t s] rest]; [done|].
  intros [Hs Hn]. cbn in Hs, Hn. apply StronglySorted_inv in Hs as [Hs _]. apply Forall_cons in Hn as [_ Hn].
  destruct (_ <? _)%N; [done|]. intros [= <-]. upd_simpl.
  destruct (tx_pool st !! s) as [rtx|]; [destruct (leftover_attempt rtx)|]; upd_simpl.
  - unfold send_dlq. destruct has_dlq; by upd_simpl.
  - rewrite fmap_app. cbn. split; [|apply Forall_app; split; [done|by apply Forall_singleton]].
    clear -Hs Hn. induction Hs as [|x l Hl IH Hx]; cbn; [by repeat constructor|].
    apply Forall_cons in Hn as [? Hn]. constructor; [by apply IH|]. apply Forall_app. split; [done|by apply Forall_singleton].
  - done.
Qed.

Lemma nothing_due now st : in_order now st → resend_step now st = None → ∀ s, ¬ due now st s.
Proof.
  unfold in_order, resend_step, due. intros [Hs _] Hn s (t & Hin & Hd).
  destruct (insertion_order st) as [|[t0 s0] rest]; [set_solver|].
  destruct (_ <? _)%N eqn:E; [|done]. apply N.ltb_lt in E. cbn in Hs.
  apply StronglySorted_inv in Hs as [_ Hall]. apply elem_of_cons in Hin as [[= -> ->]|Hin]; [lia|].
  rewrite Forall_forall in Hall. assert (t0 ≤ t)%N by (apply Hall, list_elem_of_fmap; by exists (t, s)). lia.
Qed.

(** What is to happen to [s], or has happened. *)
Definition settled (now : Instant) (s : Signature) (rtx : RetryableTx) (st0 st : Scheduler) : Prop :=
  (due now st s ∧ tx_pool st !! s = Some rtx ∧ sent_count s st = sent_count s st0) ∨
  match leftover_attempt rtx with
  | 0 => tx_pool st !! s = None ∧ (has_dlq = true → ReachedMaxRetries s ∈ dlq st)
  | S _ => sent_count s st0 < sent_count s st
  end.

Lemma dlq_grows now st st' e : e ∈ dlq st → resend_step now st = Some st' → e ∈ dlq st'.
Proof.
  intros He. unfold resend_step. destruct (insertion_order st) as [|[t s] rest]; [done|].
  destruct (_ <? _)%N; [done|]. intros [= <-]. upd_simpl.
  destruct (tx_pool st !! s) as [rtx|]; [destruct (leftover_attempt rtx)|]; upd_simpl; [|done|done].
  unfold send_dlq. destruct has_dlq; upd_simpl; [set_solver|done].
Qed.

(** A step that pops another signature, or this one. *)
Lemma settled_step now s rtx st0 st st' : inv st → settled now s rtx st0 st → resend_step now st = Some st' →
  settled now s rtx st0 st'.
Proof.
  intros Hi Hset Hstep. pose proof (resend_step_spends s now st st' Hi Hstep) as [Hm _].
  destruct Hset as [(Hd & Hp & Hc)|Hset].
  2:{ right. destruct (leftover_attempt rtx); [|lia]. destruct Hset as [Hp Hq]. split; [|intros Hh; by eapply dlq_grows, Hstep; apply Hq].
      revert Hstep. unfold resend_step. destruct (insertion_order st) as [|[t x] rest]; [done|].
      destruct (_ <? _)%N; [done|]. intros [= <-]. upd_simpl. destruct (tx_pool st !! x) as [r|] eqn:E; [|done].
      assert (x ≠ s) by congruence. destruct (leftover_attempt r); [|upd_simpl; by rewrite lookup_insert_ne].
      unfold send_dlq. destruct has_dlq; upd_simpl; by rewrite lookup_delete_ne. }
  revert Hstep Hm. unfold resend_step, settled, due in *. destruct Hd as (t0 & Hin & Hd).
  destruct (insertion_order st) as [|[t x] rest]; [done|].
  destruct (_ <? _)%N eqn:E; [done|]. intros [= <-] _. upd_simpl.
  destruct (decide (x = s)) as [->|Hne].
  - right. rewrite Hp. pose proof (inv_signature _ Hi _ _ Hp) as Hsig. destruct (leftover_attempt rtx) as [|n].
    + unfold send_dlq. destruct has_dlq; upd_simpl; rewrite lookup_delete_eq; split; try done. intros _. set_solver.
    + unfold sent_count in *. upd_simpl. rewrite sent_count_snoc, decide_True by done. lia.
  - left. assert ((t0, s) ∈ rest) as Hrest by set_solver.
    destruct (tx_pool st !! x) as [r|] eqn:Ex; [destruct (leftover_attempt r)|].
    + unfold send_dlq, sent_count in *. destruct has_dlq; upd_simpl; rewrite lookup_delete_ne by done; eauto 6.
    + unfold sent_count in *. upd_simpl. rewrite lookup_insert_ne, sent_count_snoc, (inv_signature _ Hi _ _ Ex), decide_False by done.
      split; [|split; [done|lia]]. exists t0. split; [set_solver|done].
    + unfold sent_count in *. upd_simpl. eauto 6.
Qed.

(** A tick resends every due transaction with attempts left, drops and reports to the
    dead-letter queue those without, and leaves nothing due. *)
Theorem due_transactions_are_resent_or_dropped now st st' (Hi : inv st) (Ho : in_order now st)
    (Htick : step st (Tick now) = Some st') :
  in_order now st' ∧ (∀ s, ¬ due now st' s) ∧
  ∀ s rtx, tx_pool st !! s = Some rtx → due now st s → ¬ outdated st s →
    match leftover_attempt rtx with
    | 0 => tx_pool st' !! s = None ∧ (has_dlq = true → ReachedMaxRetries s ∈ dlq st')
    | S _ => sent_count s st < sent_count s st'
    end.
Proof.
  injection Htick as <-. destruct (gc_spec st) as (G1 & G2 & G3 & _).
  assert (in_order now (gc_deadline_map st)) as Ho1 by (unfold in_order; by rewrite G1).
  assert (in_order now (resend_non_landed_tx now (gc_deadline_map st))) as Ho2.
  { apply resend_ind; [done|]. intros ?? . apply in_order_step. }
  assert (∀ s, ¬ due now (resend_non_landed_tx now (gc_deadline_map st)) s) as Hn by (by apply nothing_due, resend_done).
  split_and!; [done|done|]. intros s rtx Hp Hd Hout.
  assert (inv (resend_non_landed_tx now (gc_deadline_map st)) ∧
    settled now s rtx st (resend_non_landed_tx now (gc_deadline_map st))) as [_ [[Hd' _]|Hs]]; [|by destruct (Hn s)|done].
  apply resend_ind.
  - split; [by apply inv_gc|]. left. unfold due, sent_count. rewrite G1, G2. split_and!; [done| |done].
    destruct (G3 s) as [[-> _]|[_ ?]]; done.
  - intros st1 st2 [Hi1 Hs1] Hst. split; [by eapply inv_resend_step|by eapply settled_step].
Qed.

End Retry.

(** ** Concrete runs: the default configuration on the block-metadata map and the
    rooted-transaction state machine *)
#[local] Existing Instance elements_iter.
#[local] Existing Instance Blockhash.blockhash_queue.

Definition cfg : TransactionRetrySchedulerConfig := default_config 150.
Definition at_height (h : N) : gmap N BlockMetaWithCommitment :=
  Blockhash.run 300 [mk_meta h h 77 Confirmed].
Definition demo_tx : SendTransactionRequest := mk_request 9 77 [] (Some 5) [].
Definition demo_queue : gmap N BlockMetaWithCommitment := at_height 1000.
Abbreviation DemoEvent := (Event (B := gmap N BlockMetaWithCommitment) (R := Rooted.RootedTransactionsState)).
Definition demo_new : Scheduler (R := Rooted.RootedTransactionsState) := new Rooted.new.
Definition demo_events : list DemoEvent := [Source demo_queue demo_tx 0].
Definition after (es : list DemoEvent) : Scheduler (R := Rooted.RootedTransactionsState) := default demo_new (run cfg true demo_new es).

Lemma demo_unwatched : watched Rooted.new = ∅.
Proof. done. Qed.

Lemma demo_run es : is_Some (run cfg true demo_new es) → run cfg true demo_new es = Some (after es).
Proof. unfold after. by intros [st ->]. Qed.

Lemma pool_is_queued_watched_and_bounded_witness :
  is_Some (tx_pool (after demo_events) !! 9%N) ∧ 9%N ∈ (insertion_order (after demo_events)).*2 ∧ deadlines (after demo_events) 9.
Proof.
  pose proof (pool_is_queued_watched_and_bounded cfg true Rooted.new demo_events (after demo_events) demo_unwatched
    (demo_run demo_events ltac:(vm_compute; eauto))) as (H & _).
  destruct (tx_pool (after demo_events) !! 9%N) as [rtx|] eqn:E.
  - destruct (H 9%N rtx E) as (_ & H2 & _ & H4). eauto.
  - exfalso. vm_compute in E. discriminate E.
Defined.

(** Three attempts are allowed; the third tick drops the transaction. *)
Definition demo_ticks : list DemoEvent :=
  [Source demo_queue demo_tx 0; Tick (from_secs 1); Tick (from_secs 2); Tick (from_secs 3)].
Lemma sends_are_bounded_witness :
  sent_count 9 (after demo_ticks) = 3 ∧ budget cfg 9 demo_ticks = 3 ∧
  sent_count 9 (after demo_ticks) + credit 9 (after demo_ticks) ≤ budget cfg 9 demo_ticks.
Proof.
  split; [by vm_compute|]. split; [by vm_compute|].
  apply (sends_are_bounded cfg true Rooted.new demo_ticks (after demo_ticks) demo_unwatched
    (demo_run demo_ticks ltac:(vm_compute; eauto)) 9).
Defined.

Lemma due_transactions_are_resent_or_dropped_witness :
  sent_count 9 (after demo_events) < sent_count 9 (resend_non_landed_tx cfg true (from_secs 1) (gc_deadline_map cfg true (after demo_events))).
Proof.
  assert (inv (after demo_events)) as Hi.
  { apply (run_spends cfg true 9 demo_new demo_events); [by apply inv_new, demo_unwatched|]. apply demo_run. vm_compute; eauto. }
  assert (∃ rtx, tx_pool (after demo_events) !! 9%N = Some rtx ∧ leftover_attempt rtx = 2) as (rtx & Hp & Hl)
    by (eexists; vm_compute; eauto).
  assert (insertion_order (after demo_events) = [(0, 9)]%N) as Hq by (vm_compute; reflexivity).
  pose proof (due_transactions_are_resent_or_dropped cfg true (from_secs 1) (after demo_events)
    (resend_non_landed_tx cfg true (from_secs 1) (gc_deadline_map cfg true (after demo_events))) Hi) as H.
  destruct H as (_ & _ & H); [|reflexivity|].
  - unfold in_order. rewrite Hq. split; [repeat constructor|]. apply Forall_singleton. discriminate.
  - specialize (H 9%N rtx Hp). rewrite Hl in H. apply H.
    + exists 0%N. rewrite Hq. split; [left|discriminate].
    + intros (h & l & Hh & _ & Hlt).
      assert (h = 1150%N) as ->.
      { apply elem_of_map_to_list in Hh. vm_compute in Hh. apply list_elem_of_singleton in Hh. by injection Hh. }
      vm_compute in Hlt. discriminate Hlt.
Defined.

(** Only the configured commitment itself stops resending: an update with a later
    commitment does not, although new submissions compare with [>=]. *)
Theorem later_commitments_do_not_stop_resending :
  let update := fun c => Update (B := gmap N BlockMetaWithCommitment) (R := Rooted.RootedTransactionsState) 9%N c in
  sent_count 9 (after [Source demo_queue demo_tx 0; update Confirmed; Tick (from_secs 1)]) = 1 ∧
  sent_count 9 (after [Source demo_queue demo_tx 0; update Finalized; Tick (from_secs 1)]) = 2 ∧
  ge Finalized (stop_send_on_commitment cfg) = true.
Proof. vm_compute. auto. Qed.
End Retry.
