(* ===== verification/Scheduling.v ===== *)
(** What a transaction scheduler promises to the fan-out behind it
    ([transactions.rs] of [apps/jet/src]): it sends only what it was given, and of
    each signature no more than its submissions allow. The resending scheduler and
    the one that only forwards keep the promise. *)
From S2P Require Import Prelude Types Commitment Rooted Blockhash Retry.
Import Retry.

(** [sched_step] takes the events of the scheduler's loop; [sched_source] is the
    submission that an event reads, [sched_sent] what went through the sink. *)
Class TransactionScheduler (Sch Ev : Type) := {
  sched_started : Sch → Prop;
  sched_step : Sch → Ev → option Sch;
  sched_source : Ev → option SendTransactionRequest;
  sched_sent : Sch → list SendTransactionRequest;
  sched_allowance : SendTransactionRequest → nat
}.
Definition sched_run `{TransactionScheduler Sch Ev} (s : Sch) (es : list Ev) : option Sch :=
  foldl (λ o e, o ≫= λ s, sched_step s e) (Some s) es.

Definition count_signature (sig : Signature) (l : list SendTransactionRequest) : nat :=
  length (filter (λ t, signature t = sig) l).
Definition total_allowance (allowance : SendTransactionRequest → nat) (sig : Signature) (l : list SendTransactionRequest) : nat :=
  foldr (λ t n, (if decide (signature t = sig) then allowance t else 0) + n) 0 l.

Class SchedulerLaws (Sch Ev : Type) `{TransactionScheduler Sch Ev} : Prop := {
  sched_silent (s : Sch) : sched_started s → sched_sent s = [];
  sched_appends (s : Sch) (e : Ev) s' : sched_step s e = Some s' → ∃ k, sched_sent s' = sched_sent s ++ k;
  sched_honest (s0 : Sch) (es : list Ev) s t : sched_started s0 → sched_run s0 es = Some s →
    t ∈ sched_sent s → t ∈ omap sched_source es;
  sched_bounded (s0 : Sch) (es : list Ev) s sig : sched_started s0 → sched_run s0 es = Some s →
    count_signature sig (sched_sent s) ≤ total_allowance sched_allowance sig (omap sched_source es)
}.

Lemma sched_run_snoc `{TransactionScheduler Sch Ev} (s : Sch) es e :
  sched_run s (es ++ [e]) = sched_run s es ≫= λ s, sched_step s e.
Proof. unfold sched_run. by rewrite foldl_app. Qed.

Lemma total_allowance_app f sig l k : total_allowance f sig (l ++ k) = total_allowance f sig l + total_allowance f sig k.
Proof. unfold total_allowance. induction l as [|t l IH]; cbn; [done|]. rewrite IH. lia. Qed.
Lemma total_allowance_cons f sig t l :
  total_allowance f sig (t :: l) = (if decide (signature t = sig) then f t else 0) + total_allowance f sig l.
Proof. done. Qed.
Lemma count_signature_app sig l k : count_signature sig (l ++ k) = count_signature sig l + count_signature sig k.
Proof. unfold count_signature. by rewrite filter_app, length_app. Qed.

(** ** The scheduler that resends *)
Section Resending.
Context `{BH : BlockHeightService B} `{RR : RootedTxReceiver R} (config : TransactionRetrySchedulerConfig) (has_dlq : bool).
Abbreviation Ev := (@Retry.Event B R).
Abbreviation St := (@Retry.Scheduler R).

#[export] Instance resending : TransactionScheduler St Ev := {
  sched_started st := ∃ r, watched r = ∅ ∧ st = Retry.new r;
  sched_step := Retry.step config has_dlq;
  sched_source e := match e with Source _ t _ => Some t | _ => None end;
  sched_sent := responses;
  sched_allowance t := 1 `max` retries_of config t
}.

(** Everything in the pool and everything sent is one of [l]. *)
Record from (l : list SendTransactionRequest) (st : St) : Prop := {
  from_pool s rtx : tx_pool st !! s = Some rtx → tx rtx ∈ l;
  from_sent t : t ∈ responses st → t ∈ l
}.

Lemma from_mono l k st : l ⊆ k → from l st → from k st.
Proof. intros Hl [H1 H2]. split; eauto. Qed.
Lemma from_dlq l e st : from l st → from l (send_dlq has_dlq e st).
Proof. unfold send_dlq. destruct has_dlq; [|done]. intros [H1 H2]. by split; upd_simpl. Qed.
Lemma from_forget l s st : from l st → from l (st <| tx_pool ::= delete s |>).
Proof. intros [H1 H2]. split; upd_simpl; [|done]. intros s' rtx [_ ?]%lookup_delete_Some. eauto. Qed.

Lemma from_resend l now st st' : from l st → resend_step config has_dlq now st = Some st' → from l st'.
Proof.
  intros Hf. unfold resend_step. destruct (insertion_order st) as [|[t s] rest]; [done|].
  destruct (_ <? _)%N; [done|]. intros [= <-]. upd_simpl.
  assert (from l (st <| insertion_order := rest |>)) as Hf' by (destruct Hf; by split; upd_simpl).
  destruct (tx_pool st !! s) as [rtx|] eqn:Ep; [|done]. destruct (leftover_attempt rtx) as [|n].
  - apply from_dlq, from_forget, Hf'.
  - destruct Hf as [H1 H2]. split; upd_simpl.
    + intros s' rtx' [[? <-]|[? ?]]%lookup_insert_Some; [cbn|]; eauto.
    + intros t' [?|Ht%list_elem_of_singleton]%elem_of_app; [eauto|subst t'; eauto].
Qed.

Lemma from_step l st e st' : from l st → Retry.step config has_dlq st e = Some st' →
  from (l ++ from_option (λ t, [t]) [] (sched_source e)) st'.
Proof.
  intros Hf. destruct e as [now|b t now|x c|r]; cbn [Retry.step sched_source resending from_option]; rewrite ?app_nil_r.
  - intros [= <-]. apply resend_ind; [|intros ??; apply from_resend].
    destruct (gc_spec config has_dlq st) as (_ & G2 & G3 & _). destruct Hf as [H1 H2]. split; [|by rewrite G2].
    intros s rtx. destruct (G3 s) as [[-> _]|[-> _]]; [apply H1|done].
  - intros [= <-]. unfold add_new_transaction. apply (from_mono _ (l ++ [t])) in Hf; [|set_solver].
    set (st0 := st <| last_known_block_height := _ |>).
    assert (from (l ++ [t]) st0) as [H1 H2] by (destruct Hf; by split; unfold st0; upd_simpl).
    destruct (_ <? _)%N; [by apply from_dlq|]. destruct (is_landed _ _ _); [by apply from_dlq|].
    unfold accept. split; upd_simpl.
    + intros s rtx [[? <-]|[? ?]]%lookup_insert_Some; [cbn; set_solver|eauto].
    + intros t' [?|Ht%list_elem_of_singleton]%elem_of_app; [eauto|set_solver].
  - intros [= <-]. unfold handle_tx_commitment_update. case_decide; [by apply from_forget|done].
  - case_decide; [|done]. intros [= <-]. destruct Hf. by split; upd_simpl.
Qed.

Lemma from_run st0 es st : sched_started st0 → sched_run st0 es = Some st → from (omap sched_source es) st.
Proof.
  intros (r & _ & ->). revert st. induction es as [|e es IH] using rev_ind; intros st.
  - intros [= <-]. split; cbn; [intros s; by rewrite lookup_empty|intros t Ht; by apply elem_of_nil in Ht].
  - rewrite sched_run_snoc, omap_app. destruct (sched_run _ es) as [st1|]; [|done]. cbn [mbind option_bind].
    intros H. apply (from_step _ _ _ _ (IH st1 eq_refl)) in H. revert H. cbn [omap list_omap].
    by destruct (sched_source e).
Qed.
Lemma resending_appends st e st' : Retry.step config has_dlq st e = Some st' → ∃ k, responses st' = responses st ++ k.
Proof.
  assert (∀ e (st : St), responses (send_dlq has_dlq e st) = responses st) as Hd
    by (intros; unfold send_dlq; destruct has_dlq; by upd_simpl).
  destruct e as [now|b t now|x c|r]; cbn [Retry.step].
  - intros [= <-]. apply resend_ind.
    + exists []. rewrite app_nil_r. by destruct (gc_spec config has_dlq st) as (_ & -> & _).
    + intros st1 st2 [k Hk]. unfold resend_step. destruct (insertion_order st1) as [|[t s] rest]; [done|].
      destruct (_ <? _)%N; [done|]. intros [= <-]. upd_simpl.
      destruct (tx_pool st1 !! s) as [rtx|]; [destruct (leftover_attempt rtx)|]; rewrite ?Hd; upd_simpl; [by exists k| |by exists k].
      exists (k ++ [tx rtx]). by rewrite app_assoc, Hk.
  - intros [= <-]. unfold add_new_transaction. destruct (_ <? _)%N; [|destruct (is_landed _ _ _)]; rewrite ?Hd; unfold accept; upd_simpl.
    + exists []. by rewrite app_nil_r.
    + exists []. by rewrite app_nil_r.
    + by exists [t].
  - intros [= <-]. unfold handle_tx_commitment_update. exists []. rewrite app_nil_r. case_decide; by upd_simpl.
  - case_decide; [|done]. intros [= <-]. exists []. rewrite app_nil_r. by upd_simpl.
Qed.

Lemma budget_allowance sig es : budget config sig es = total_allowance sched_allowance sig (omap sched_source es).
Proof.
  induction es as [|e es IH]; [done|]. cbn [budget foldr omap list_omap]. unfold budget in IH |- *. cbn [foldr]. rewrite IH.
  by destruct e.
Qed.

#[export] Instance resending_laws : SchedulerLaws St Ev.
Proof.
  split.
  - by intros st (r & _ & ->).
  - exact resending_appends.
  - intros st0 es st t Hs Hr Ht. exact (from_sent _ _ (from_run _ _ _ Hs Hr) t Ht).
  - intros st0 es st sig (r & Hw & ->) Hr. rewrite <-budget_allowance.
    destruct (run_spends config has_dlq sig _ es st (inv_new r Hw) Hr) as [_ [_ Hsp]].
    change (sent_count sig (Retry.new r)) with 0 in Hsp. change (credit sig (Retry.new r)) with 0 in Hsp.
    unfold sent_count in Hsp. unfold count_signature. cbn [sched_sent resending]. lia.
Qed.
End Resending.

(** ** The scheduler that only forwards

    [TransactionNoRetryScheduler]: each turn of [fwd_loop], while its channels are
    open. *)
Section Forwarding.
Context `{BH : BlockHeightService B} (MAX_PROCESSING_AGE : N).

Definition fwd_step (sent : list SendTransactionRequest) (e : B * SendTransactionRequest) : option (list SendTransactionRequest) :=
  Some (sent ++ from_option (λ t, [t]) [] (fwd MAX_PROCESSING_AGE e.1 e.2)).
#[export] Instance forwarding : TransactionScheduler (list SendTransactionRequest) (B * SendTransactionRequest) := {
  sched_started sent := sent = [];
  sched_step := fwd_step;
  sched_source e := Some e.2;
  sched_sent sent := sent;
  sched_allowance _ := 1
}.

(** The turns are those of the loop, with room for every transaction. *)
Lemma fwd_run_loop es open : length es ≤ open → sched_run [] es = Some (fwd_loop MAX_PROCESSING_AGE open es).
Proof.
  assert (∀ sent open, length es ≤ open → sched_run sent es = Some (sent ++ fwd_loop MAX_PROCESSING_AGE open es)) as H; [|apply H].
  induction es as [|[b t] es IH]; intros sent open' Ho; cbn [fwd_loop]; [by rewrite app_nil_r|].
  cbn [length] in Ho. destruct open' as [|open']; [lia|]. unfold sched_run in *. cbn [foldl mbind option_bind sched_step forwarding].
  unfold fwd_step. cbn [fst snd]. destruct (fwd MAX_PROCESSING_AGE b t) as [t'|] eqn:Ef.
  - assert (t' = t) as ->; [|rewrite (IH _ open') by lia; by rewrite <-app_assoc].
    revert Ef. unfold fwd. case_match; [done|]. by intros [= ->].
  - rewrite (IH _ (S open')) by lia. by rewrite app_nil_r.
Qed.

Lemma fwd_run_sent es sent : sched_run [] es = Some sent → sent = omap (λ e, fwd MAX_PROCESSING_AGE e.1 e.2) es.
Proof.
  revert sent. induction es as [|e es IH] using rev_ind; intros sent; [by intros [= <-]|].
  rewrite sched_run_snoc, omap_app. destruct (sched_run _ es) as [s1|]; [|done]. rewrite <-(IH s1) by done.
  intros [= <-]. cbn. by destruct (fwd _ _ _).
Qed.

#[export] Instance forwarding_laws : SchedulerLaws (list SendTransactionRequest) (B * SendTransactionRequest).
Proof.
  assert (∀ e t, fwd MAX_PROCESSING_AGE e.1 e.2 = Some t → t = e.2) as Hf.
  { intros [b t'] t. unfold fwd. case_match; [done|]. by intros [= ->]. }
  split.
  - by intros s ->.
  - intros s e s' [= <-]. by eexists.
  - intros s0 es s t -> Hr Ht. apply fwd_run_sent in Hr as ->. cbn in Ht. apply list_elem_of_omap in Ht as (e & He & Ht).
    apply list_elem_of_omap. exists e. split; [done|]. by rewrite (Hf e t Ht).
  - intros s0 es s sig -> Hr. apply fwd_run_sent in Hr as ->. cbn [sched_sent forwarding].
    induction es as [|e es IH]; [done|]. cbn [omap list_omap sched_source sched_allowance forwarding] in *.
    rewrite total_allowance_cons.
    destruct (fwd _ e.1 e.2) as [t|] eqn:E; [|lia].
    rewrite (Hf e t E). change (?x :: ?l) with ([x] ++ l). rewrite count_signature_app. unfold count_signature at 1. rewrite filter_cons, filter_nil.
    case_decide; cbn [length]; lia.
Qed.
End Forwarding.

(** ** Unknown blockhashes *)
Section Unknown.
Context `{BH : BlockHeightService B} `{RR : RootedTxReceiver R} (config : TransactionRetrySchedulerConfig) (has_dlq : bool).

(** C20: A defect: the schedulers disagree on a transaction whose blockhash the service
    does not know (the nonce of a durable transaction, for one): the one that resends
    treats it as fresh and sends it, the one that only forwards treats it as of height zero
    and drops it without a trace once the chain is past the processing age. *)
Theorem schedulers_disagree_on_unknown_blockhashes (b : B) t now (st : Retry.Scheduler)
  (Hunknown : get_block_height b (recent_blockhash t) = None)
  (Hpast : (transaction_max_processing_age config < current_height b)%N)
  (Hfits : (current_height b + transaction_max_processing_age config < u64_modulus)%N)
  (Hnew : is_landed config (rooted_transactions st) (signature t) = false) :
  fwd (transaction_max_processing_age config) b t = None ∧
  responses (add_new_transaction config has_dlq b t now st) = responses st ++ [t] ∧
  tx_pool (add_new_transaction config has_dlq b t now st) !! signature t = Some (mk_retryable t (retries_of config t - 1)).
Proof.
  unfold fwd, add_new_transaction, last_valid. rewrite Hunknown. cbn [default fmap option_fmap option_map from_option].
  rewrite !u64_add_small by lia. upd_simpl. rewrite Hnew.
  replace (0 + transaction_max_processing_age config <? current_height b)%N with true by (symmetry; apply N.ltb_lt; lia).
  replace (current_height b + transaction_max_processing_age config <? current_height b)%N with false by (symmetry; apply N.ltb_ge; lia).
  unfold accept. upd_simpl. by rewrite lookup_insert_eq.
Qed.
End Unknown.

Section Witness.
#[local] Existing Instance elements_iter.
#[local] Existing Instance Blockhash.blockhash_queue.
Definition nonce_tx : SendTransactionRequest := mk_request 9 78 [] (Some 5) [].
Lemma schedulers_disagree_on_unknown_blockhashes_witness :
  fwd 150 demo_queue nonce_tx = None ∧
  responses (add_new_transaction cfg true demo_queue nonce_tx 0%N demo_new) = [nonce_tx].
Proof.
  pose proof (schedulers_disagree_on_unknown_blockhashes cfg true demo_queue nonce_tx 0%N demo_new) as H.
  destruct H as (H1 & H2 & _); [vm_compute; reflexivity..|].
  split; [exact H1|exact H2].
Defined.
End Witness.
