(* ===== verification/JetTypes.v ===== *)
(** The data of the jet's QUIC gateway ([apps/jet/src/quic_client]): its
    configuration, transactions and responses, and the errors of its
    connections and sends. *)
From S2P Require Import Prelude Types.
From Stdlib Require Import Strings.Byte.

(** [GatewayTransaction] has the fields of [TpuSenderTxn]. *)
Abbreviation GatewayTransaction := TpuSenderTxn (only parsing).

(** [quic_client::core::TxDropReason]. *)
Inductive GwDropReason := GwRateLimited | GwRemotePeerUnreachable | GwDropByGateway | GwRemotePeerBeingEvicted.
#[export] Instance GwDropReason_eq_dec : EqDecision GwDropReason.
Proof. solve_decision. Defined.

Inductive GatewayResponse :=
  | GwTxSent (peer : Pubkey) (addr : SocketAddr) (tx_sig : Signature)
  | GwTxFailed (peer : Pubkey) (addr : SocketAddr) (tx_sig : Signature) (failure_reason : string)
  | GwTxDrop (peer : Pubkey) (drop_reason : GwDropReason) (dropped : list (GatewayTransaction * nat)).

Module JetTypes.

(** ** Configuration *)
Record QuicGatewayConfig := mk_config {
  port_range : N * N;
  max_idle_timeout : Duration;
  max_connection_attempts : nat;
  transaction_sender_worker_channel_capacity : nat;
  connecting_timeout : Duration;
  tpu_port_kind : TpuPortKind;
  max_concurrent_connections : nat;
  max_local_port_binding_attempts : nat;
  num_endpoints : nat;
  max_send_attempt : nat;
  remote_peer_addr_watch_interval : Duration;
  send_timeout : Duration;
  leader_prediction_lookahead : option nat;
  tpu_info_override : list TpuOverrideInfo
}.

Definition DEFAULT_QUIC_GATEWAY_ENDPOINT_COUNT : nat := 5.
Definition DEFAULT_CONNECTION_TIMEOUT : Duration := from_secs 2.
Definition DEFAULT_MAX_CONSECUTIVE_CONNECTION_ATTEMPT : nat := 3.
Definition DEFAULT_PER_PEER_TRANSACTION_QUEUE_SIZE : nat := 100 * 100.
Definition DEFAULT_MAX_CONCURRENT_CONNECTIONS : nat := 1024.
Definition DEFAULT_MAX_LOCAL_BINDING_PORT_ATTEMPTS : nat := 3.
Definition DEFAULT_LEADER_DURATION : Duration := from_secs 2.
Definition DEFAULT_MAX_SEND_ATTEMPT : nat := 3.
Definition DEFAULT_REMOTE_PEER_ADDR_WATCH_INTERVAL : Duration := from_secs 5.
Definition DEFAULT_TX_SEND_TIMEOUT : Duration := from_secs 2.
Definition DEFAULT_LEADER_PREDICTION_LOOKAHEAD : nat := 4.
Definition FOREVER : Duration := from_secs 31536000.

(** [VALIDATOR_PORT_RANGE] and [QUIC_MAX_TIMEOUT] are constants of other crates. *)
Definition default_config (VALIDATOR_PORT_RANGE : N * N) (QUIC_MAX_TIMEOUT : Duration)
    : QuicGatewayConfig := {|
  port_range := VALIDATOR_PORT_RANGE;
  max_idle_timeout := QUIC_MAX_TIMEOUT;
  max_connection_attempts := DEFAULT_MAX_CONSECUTIVE_CONNECTION_ATTEMPT;
  transaction_sender_worker_channel_capacity := DEFAULT_PER_PEER_TRANSACTION_QUEUE_SIZE;
  connecting_timeout := DEFAULT_CONNECTION_TIMEOUT;
  tpu_port_kind := Forwards;
  max_concurrent_connections := DEFAULT_MAX_CONCURRENT_CONNECTIONS;
  max_local_port_binding_attempts := DEFAULT_MAX_LOCAL_BINDING_PORT_ATTEMPTS;
  num_endpoints := DEFAULT_QUIC_GATEWAY_ENDPOINT_COUNT;
  max_send_attempt := DEFAULT_MAX_SEND_ATTEMPT;
  remote_peer_addr_watch_interval := DEFAULT_REMOTE_PEER_ADDR_WATCH_INTERVAL;
  send_timeout := DEFAULT_TX_SEND_TIMEOUT;
  leader_prediction_lookahead := Some DEFAULT_LEADER_PREDICTION_LOOKAHEAD;
  tpu_info_override := []
|}.

(** What a configuration file sets: a missing entry takes its serde default. *)
Record PartialConfig := mk_partial {
  f_port_range : option (N * N);
  f_max_idle_timeout : option Duration;
  f_max_connection_attempts : option nat;
  f_transaction_sender_worker_channel_capacity : option nat;
  f_connecting_timeout : option Duration;
  f_tpu_port_kind : option TpuPortKind;
  f_max_concurrent_connections : option nat;
  f_max_local_port_binding_attempts : option nat;
  f_num_endpoints : option nat;
  f_max_send_attempt : option nat;
  f_remote_peer_addr_watch_interval : option Duration;
  f_send_timeout : option Duration;
  f_leader_prediction_lookahead : option (option nat);
  f_tpu_info_override : option (list TpuOverrideInfo)
}.

(** A [NonZeroUsize] refuses zero. *)
Definition non_zero (n : nat) : option nat := if decide (n = 0) then None else Some n.

Definition deserialize (VALIDATOR_PORT_RANGE : N * N) (QUIC_MAX_TIMEOUT : Duration)
    (c : PartialConfig) : option QuicGatewayConfig :=
  num_endpoints ← non_zero (default DEFAULT_QUIC_GATEWAY_ENDPOINT_COUNT (f_num_endpoints c));
  max_send_attempt ← non_zero (default DEFAULT_MAX_SEND_ATTEMPT (f_max_send_attempt c));
  lookahead ← match f_leader_prediction_lookahead c with
              | None => Some (Some DEFAULT_LEADER_PREDICTION_LOOKAHEAD)
              | Some None => Some None
              | Some (Some n) => Some <$> non_zero n
              end;
  Some {|
    port_range := default VALIDATOR_PORT_RANGE (f_port_range c);
    max_idle_timeout := default QUIC_MAX_TIMEOUT (f_max_idle_timeout c);
    max_connection_attempts :=
      default DEFAULT_MAX_CONSECUTIVE_CONNECTION_ATTEMPT (f_max_connection_attempts c);
    transaction_sender_worker_channel_capacity :=
      default DEFAULT_PER_PEER_TRANSACTION_QUEUE_SIZE (f_transaction_sender_worker_channel_capacity c);
    connecting_timeout := default DEFAULT_CONNECTION_TIMEOUT (f_connecting_timeout c);
    tpu_port_kind := default Forwards (f_tpu_port_kind c);
    max_concurrent_connections :=
      default DEFAULT_MAX_CONCURRENT_CONNECTIONS (f_max_concurrent_connections c);
    max_local_port_binding_attempts :=
      default DEFAULT_MAX_LOCAL_BINDING_PORT_ATTEMPTS (f_max_local_port_binding_attempts c);
    num_endpoints := num_endpoints;
    max_send_attempt := max_send_attempt;
    remote_peer_addr_watch_interval :=
      default DEFAULT_REMOTE_PEER_ADDR_WATCH_INTERVAL (f_remote_peer_addr_watch_interval c);
    send_timeout := default DEFAULT_TX_SEND_TIMEOUT (f_send_timeout c);
    leader_prediction_lookahead := lookahead;
    tpu_info_override := default [] (f_tpu_info_override c)
  |}.

(** An empty file deserializes to the default. *)
Lemma deserialize_empty range timeout :
  deserialize range timeout (mk_partial None None None None None None None None None None None None None None)
  = Some (default_config range timeout).
Proof. reflexivity. Qed.

(** ** Errors *)
Inductive ConnectingError :=
  | JConnectError (e : ConnectError)
  | JConnectionError (e : ConnectionError)
  | PeerNotInLeaderSchedule.

Inductive SendTxError :=
  | SendConnectionError (e : ConnectionError)
  | SendStreamStopped (code : N)
  | SendStreamClosed
  | SendZeroRttRejected.

(** The texts of the QUIC library that the messages embed. *)
Class ErrorDisplay := {
  connection_error_to_string : ConnectionError → string;
  varint_debug : N → string
}.

Definition send_error_to_string `{ErrorDisplay} (e : SendTxError) : string :=
  match e with
  | SendConnectionError e => connection_error_to_string e
  | SendStreamStopped code =>
      String.append "Failed to send transaction to remote peer " (varint_debug code)
  | SendStreamClosed => "stream is closed or reset by remote peer"
  | SendZeroRttRejected => "0-RTT rejected by remote peer"
  end%string.

(** ** Connections *)
Record Connection := { conn_id : N; remote_address : SocketAddr }.

(** [socket_addr_to_quic_server_name]: the SNI sent to a peer. *)
Definition socket_addr_to_quic_server_name (ip_to_string : SocketAddr → string)
    (port_to_string : SocketAddr → string) (peer : SocketAddr) : string :=
  (ip_to_string peer +:+ "." +:+ port_to_string peer +:+ ".sol")%string.

(** [OverrideTpuInfoService] of [quic_client/core.rs] has the text of the client's. *)
Definition override_service `{LeaderTpuInfoService T} : LeaderTpuInfoService (OverrideTpuInfoService T) := Types.override_service.
End JetTypes.
