(* ===== verification/JetWorker.v ===== *)
(** [QuicTxSenderWorker] of [apps/jet/src/quic_client/core.rs]: one task per
    remote peer, which sends queued transactions one at a time over the peer's
    connection. The outcome of each stream is the environment's choice. *)
From S2P Require Import Prelude Types Runtime JetTypes.
Import JetTypes.

Module JetWorker.

Inductive TxSenderWorkerError := ConnectionLost (e : ConnectionError) | ZeroRttRejected.

Record QuicTxSenderWorker := mk {
  remote_peer : Pubkey;
  connection : Connection;
  current_client_identity : Pubkey;
  incoming_rx : N;
  tx_queue : list (GatewayTransaction * nat);
  cancel_notify : N;
  max_tx_attempt : nat
}.
#[export] Instance QuicTxSenderWorker_settable : Settable QuicTxSenderWorker := λ r,
  mk (remote_peer r) (connection r) (current_client_identity r) (incoming_rx r) (tx_queue r)
     (cancel_notify r) (max_tx_attempt r).

(** [rx] is the worker's channel, handed back to the gateway. *)
Record TxSenderWorkerCompleted := {
  err : option TxSenderWorkerError;
  rx : N;
  pending_tx : list (GatewayTransaction * nat);
  canceled : bool
}.

(** ** One transaction *)
Inductive WriteError := WriteStopped (code : N) | WriteConnectionLost (e : ConnectionError) | ClosedStream | WriteZeroRttRejected.
(** [open_uni] fails, [write_all] fails, or the transaction is written. *)
Inductive StreamOutcome := OpenFailed (e : ConnectionError) | WriteFailed (e : WriteError) | Written.

Definition send_tx (outcome : StreamOutcome) : option SendTxError :=
  match outcome with
  | OpenFailed e => Some (SendConnectionError e)
  | WriteFailed (WriteStopped code) => Some (SendStreamStopped code)
  | WriteFailed (WriteConnectionLost e) => Some (SendConnectionError e)
  | WriteFailed ClosedStream => Some SendStreamClosed
  | WriteFailed WriteZeroRttRejected => Some SendZeroRttRejected
  | Written => None
  end.

Definition worker_error (e : SendTxError) : option TxSenderWorkerError :=
  match e with
  | SendConnectionError e => Some (ConnectionLost e)
  | SendStreamStopped _ | SendStreamClosed => None
  | SendZeroRttRejected => Some ZeroRttRejected
  end.

Section Worker.
Context `{ErrorDisplay}.
Implicit Types w : QuicTxSenderWorker.

Definition process_tx (outcome : StreamOutcome) (tx : GatewayTransaction) (attempt : nat) w
    : option TxSenderWorkerError * QuicTxSenderWorker * list GatewayResponse :=
  let addr := remote_address (connection w) in
  match send_tx outcome with
  | None => (None, w, [GwTxSent (remote_peer w) addr (tx_sig tx)])
  | Some e =>
      if decide (max_tx_attempt w ≤ attempt)
      then (worker_error e, w, [GwTxFailed (remote_peer w) addr (tx_sig tx) (send_error_to_string e)])
      else (worker_error e, w <| tx_queue ::= λ q, q ++ [(tx, attempt + 1)] |>, [])
  end.

(** [while let Some((tx, attempt)) = self.tx_queue.pop_front()]; [oracle i] is
    the outcome of the [i]-th send; [None]: out of fuel. *)
Fixpoint try_process_tx_in_queue (fuel : nat) (oracle : nat → StreamOutcome) (i : nat) w
    : option (option TxSenderWorkerError * QuicTxSenderWorker * list GatewayResponse * nat) :=
  match fuel with
  | 0 => None
  | S fuel =>
      match tx_queue w with
      | [] => Some (None, w, [], i)
      | (tx, attempt) :: queue =>
          let '(e, w, rs) := process_tx (oracle i) tx attempt (w <| tx_queue := queue |>) in
          match e with
          | Some e => Some (Some e, w, rs, S i)
          | None =>
              '(e, w, rs', i) ← try_process_tx_in_queue fuel oracle (S i) w;
              Some (e, w, rs ++ rs', i)
          end
      end
  end.

(** The number of sends a queue can still cause. *)
Definition queue_weight (max_attempt : nat) (q : list (GatewayTransaction * nat)) : nat :=
  foldr (λ p n, 1 + (max_attempt - p.2) + n) 0 q.
Definition queue_fuel w : nat := S (queue_weight (max_tx_attempt w) (tx_queue w)).

(** ** The event loop *)
Inductive Event :=
  | Recv (tx : GatewayTransaction)
  | InletClosed
  | ConnectionClosed (e : ConnectionError)
  | Cancelled.

Definition complete (e : option TxSenderWorkerError) (c : bool) w : TxSenderWorkerCompleted :=
  {| err := e; rx := incoming_rx w; pending_tx := tx_queue w; canceled := c |}.

(** One branch of the [select!]; [inr] is a [break]. *)
Definition on_event (ev : Event) w : QuicTxSenderWorker + TxSenderWorkerCompleted :=
  match ev with
  | Recv tx => inl (w <| tx_queue ::= λ q, q ++ [(tx, 1)] |>)
  | InletClosed => inr (complete None false w)
  | ConnectionClosed e => inr (complete (Some (ConnectionLost e)) false w)
  | Cancelled => inr (complete None true w)
  end.

(** One iteration of [run]: drain the queue, then wait for one event. *)
Definition iteration (oracle : nat → StreamOutcome) (ev : Event) w
    : option ((QuicTxSenderWorker + TxSenderWorkerCompleted) * list GatewayResponse) :=
  '(e, w, rs, _) ← try_process_tx_in_queue (queue_fuel w) oracle 0 w;
  Some (match e with Some e => inr (complete (Some e) false w) | None => on_event ev w end, rs).

(** [run] on the events of its [select!]s, the last of which is a [break];
    [None] while the worker waits for the next one. *)
Fixpoint run (evs : list ((nat → StreamOutcome) * Event)) w
    : option (option TxSenderWorkerCompleted * list GatewayResponse) :=
  match evs with
  | [] => Some (None, [])
  | (oracle, ev) :: evs =>
      '(r, rs) ← iteration oracle ev w;
      match r with
      | inr completed => Some (Some completed, rs)
      | inl w => '(c, rs') ← run evs w; Some (c, rs ++ rs')
      end
  end.

(** ** Accounting *)
Definition count_gw_response (sig : Signature) (r : GatewayResponse) : nat :=
  match r with
  | GwTxSent _ _ s | GwTxFailed _ _ s _ => if decide (s = sig) then 1 else 0
  | GwTxDrop _ _ q => count_queue sig q
  end.
Definition count_gw_responses (sig : Signature) (l : list GatewayResponse) : nat :=
  foldr (λ r n, count_gw_response sig r + n) 0 l.

Lemma count_gw_responses_app sig l k :
  count_gw_responses sig (l ++ k) = count_gw_responses sig l + count_gw_responses sig k.
Proof. unfold count_gw_responses. induction l; cbn; lia. Qed.

Lemma count_gw_responses_one sig r : count_gw_responses sig [r] = count_gw_response sig r.
Proof. unfold count_gw_responses. cbn. lia. Qed.

(** What one send does to a worker. *)
Lemma gw_process_tx outcome tx attempt w e w' rs :
  process_tx outcome tx attempt w = (e, w', rs) →
  (w' = w ∧ ∃ r, rs = [r] ∧ ∀ sig, count_gw_response sig r = txn_is sig tx) ∨
  (attempt < max_tx_attempt w ∧ w' = w <| tx_queue ::= λ q, q ++ [(tx, attempt + 1)] |> ∧ rs = []).
Proof.
  unfold process_tx. destruct (send_tx outcome) as [e0|]; [case_decide as Hd|]; intros [= <- <- <-].
  - left. split; [done|]. eexists. by split.
  - right. split_and!; [by apply Nat.nle_gt|done|done].
  - left. split; [done|]. eexists. by split.
Qed.

Lemma gw_queue_weight_app n q q' : queue_weight n (q ++ q') = queue_weight n q + queue_weight n q'.
Proof. unfold queue_weight. induction q as [|p q IH]; [done|]. cbn [app foldr]. lia. Qed.

Lemma gw_process_tx_weight outcome tx attempt w e w' rs :
  process_tx outcome tx attempt w = (e, w', rs) →
  max_tx_attempt w' = max_tx_attempt w ∧
  queue_weight (max_tx_attempt w) (tx_queue w') <
  queue_weight (max_tx_attempt w) ((tx, attempt) :: tx_queue w).
Proof.
  intros [[-> _]|(Hlt & -> & _)]%gw_process_tx.
  - split; [done|]. unfold queue_weight. cbn [foldr]. lia.
  - upd_simpl. split; [done|]. rewrite gw_queue_weight_app. unfold queue_weight. cbn [foldr snd]. lia.
Qed.

Lemma gw_process_tx_count outcome tx attempt w e w' rs sig :
  process_tx outcome tx attempt w = (e, w', rs) →
  count_queue sig (tx_queue w') + count_gw_responses sig rs = count_queue sig (tx_queue w) + txn_is sig tx.
Proof.
  intros [[-> (r & -> & Hr)]|(_ & -> & ->)]%gw_process_tx.
  - rewrite count_gw_responses_one, Hr. lia.
  - upd_simpl. rewrite count_queue_app. unfold count_queue, count_gw_responses. cbn. lia.
Qed.
End Worker.

(** The queue loop ends within the attempts that remain, whatever the streams
    do; each transaction of the queue is then either reported once or, when the
    connection failed, still queued for another attempt. *)
Lemma gw_queue_loop `{ErrorDisplay} oracle fuel w i : queue_fuel w ≤ fuel →
  ∃ e w' rs j, try_process_tx_in_queue fuel oracle i w = Some (e, w', rs, j) ∧
    i ≤ j ≤ i + queue_weight (max_tx_attempt w) (tx_queue w) ∧
    (e = None → tx_queue w' = []) ∧
    ∀ sig, count_queue sig (tx_queue w') + count_gw_responses sig rs = count_queue sig (tx_queue w).
Proof.
  revert w i. induction fuel as [|fuel IH]; intros w i Hfuel; [unfold queue_fuel in Hfuel; lia|].
  cbn [try_process_tx_in_queue]. destruct (tx_queue w) as [|[tx attempt] queue] eqn:Eq.
  { exists None, w, [], i. rewrite Eq. split_and!; try done; try lia. }
  destruct (process_tx (oracle i) tx attempt (w <| tx_queue := queue |>)) as [[e w1] rs] eqn:Ep.
  destruct (gw_process_tx_weight _ _ _ _ _ _ _ Ep) as [Hm Hw].
  pose proof (λ sig, gw_process_tx_count _ _ _ _ _ _ _ sig Ep) as Hc. upd_simpl_all.
  assert (∀ sig, count_queue sig (tx_queue w1) + count_gw_responses sig rs =
                 count_queue sig ((tx, attempt) :: queue)) as Hc'.
  { intros sig. specialize (Hc sig). revert Hc. upd_simpl. unfold count_queue. cbn [foldr fst]. lia. }
  destruct e as [e|].
  { exists (Some e), w1, rs, (S i). split_and!; try done; lia. }
  destruct (IH w1 (S i)) as (e & w' & rs' & j & -> & Hj & Hq & Ha).
  { unfold queue_fuel in *. rewrite Eq in Hfuel. rewrite Hm. lia. }
  exists e, w', (rs ++ rs'), j. cbn [mbind option_bind]. rewrite Hm in Hj. split_and!; try done; try lia.
  intros sig. rewrite count_gw_responses_app, <-Hc'. specialize (Ha sig). lia.
Qed.

End JetWorker.
Export (hints) JetWorker.
