(* ===== verification/JetGateway.v ===== *)
(** [TokioQuicGatewayRuntime] of [apps/jet/src/quic_client/core.rs]: the state of
    the gateway that holds one connection and one worker per peer, and its
    handlers, as functions on that state. [None] is a panic (a failing [expect],
    [assert!] or index). Spawned tasks, channels, notifications, responses and
    watcher commands are recorded in [rt]. *)
From S2P Require Import Prelude Types StakedSet Runtime Driver JetTypes JetWorker.
Import JetTypes.

Module JetGateway.

(** ** The peers ordered by stake

    [StakeSortedPeerSet] has the text of the client's [StakedSortedSet]. *)
Abbreviation StakeSortedPeerSet := (StakedSet.StakedSortedSet N).
Module Peers.
Definition remove (peer : Pubkey) (s : StakeSortedPeerSet) : bool * StakeSortedPeerSet :=
  StakedSet.remove peer s.
Definition insert (peer : Pubkey) (stake : N) (s : StakeSortedPeerSet) : bool * StakeSortedPeerSet :=
  StakedSet.insert peer stake s.
Definition iter `{HashIter} (s : StakeSortedPeerSet) : list (N * Pubkey) := StakedSet.iter s.
Definition is_empty (s : StakeSortedPeerSet) : bool := StakedSet.is_empty s.
End Peers.

(** ** Evictions

    A strategy plans up to [plan_ahead_size] evictions; it may not fail when
    the last use of every connected peer is known. *)
Class ConnectionEvictionStrategy (S : Type) `{HI : HashIter} := {
  plan_eviction : S → Instant → StakeSortedPeerSet → gmap Pubkey Instant → gset Pubkey → nat → option (list Pubkey);
  plan_eviction_defined self now ss usage masq n :
    StakedSet.wf ss →
    (∀ p, is_Some (StakedSet.peer_stake_map ss !! p) → is_Some (usage !! p)) →
    is_Some (plan_eviction self now ss usage masq n)
}.

Record StakeBasedEvictionStrategy := { peer_idle_eviction_grace_period : Duration }.
Definition default_strategy : StakeBasedEvictionStrategy :=
  {| peer_idle_eviction_grace_period := DEFAULT_LEADER_DURATION |}.

(** The lazy [filter(..).take(n)]: the last use of a peer is looked up ([None]:
    the [expect] fails) only as long as fewer than [n] peers were taken. *)
Fixpoint take_idle (self : StakeBasedEvictionStrategy) (now : Instant) (usage : gmap Pubkey Instant)
    (n : nat) (l : list (N * Pubkey)) : option (list Pubkey) :=
  match n, l with
  | 0, _ | _, [] => Some []
  | S n', (_, peer) :: l =>
      last_usage ← usage !! peer;
      if (peer_idle_eviction_grace_period self <=? now - last_usage)%N
      then (peer ::.) <$> take_idle self now usage n' l
      else take_idle self now usage n l
  end.

Definition not_evicting `{HashIter} (ss : StakeSortedPeerSet) (already_evicting : gset Pubkey)
    : list (N * Pubkey) := filter (λ sp : N * Pubkey, sp.2 ∉ already_evicting) (Peers.iter ss).

Definition stake_plan_eviction `{HashIter} (self : StakeBasedEvictionStrategy) (now : Instant)
    (ss_identies : StakeSortedPeerSet) (usage_table : gmap Pubkey Instant)
    (already_evicting : gset Pubkey) (plan_ahead_size : nat) : option (list Pubkey) :=
  if Peers.is_empty ss_identies then Some []
  else
    plan ← take_idle self now usage_table plan_ahead_size (not_evicting ss_identies already_evicting);
    Some (match plan with
          | [] => (take plan_ahead_size (not_evicting ss_identies already_evicting)).*2
          | _ => plan
          end).

(** ** State *)
Record ConnectingMeta := {
  current_client_identity : Pubkey;
  remote_peer_identity : Pubkey;
  connection_attempt : nat;
  endpoint_idx : nat
}.

Record ConnectingTask := {
  ct_remote_peer_identity : Pubkey;
  ct_cert : Pubkey;
  connection_timeout : Duration;
  ct_tpu_port_kind : TpuPortKind;
  wait_for_eviction : option N;
  endpoint : nat
}.

Record TxWorkerSenderHandle := {
  h_remote_peer_identity : Pubkey;
  h_remote_peer_addr : SocketAddr;
  sender : N;
  h_cancel_notify : N
}.

Record WaitingEviction := { we_remote_peer_identity : Pubkey; notify : N }.

(** The task that sees the workers of an old identity to their end. *)
Record GracefulDrop := mk_gd {
  gd_worker_meta : gmap N Pubkey;
  gd_worker_set : gmap N JetWorker.QuicTxSenderWorker
}.
#[export] Instance GracefulDrop_settable : Settable GracefulDrop := λ r,
  mk_gd (gd_worker_meta r) (gd_worker_set r).

Section Gateway.
Context `{HI : HashIter} {Ch : Type} `{MC : Mpsc Ch GatewayTransaction}.

(** The runtime as the gateway affects it: a supply of names for tasks,
    channels and notifications, the channels, the notifications posted, the
    responses and the commands to the address watcher. *)
Record Runtime := mk_rt {
  next_id : N;
  channels : gmap N Ch;
  notified : gset N;
  responses : list GatewayResponse;
  watcher_cmds : list Driver.RemotePeerAddrWatcherCommand
}.
#[export] Instance JetRuntime_settable : Settable Runtime := λ r,
  mk_rt (next_id r) (channels r) (notified r) (responses r) (watcher_cmds r).

Record Gateway := mk_gateway {
  tx_worker_handle_map : gmap Pubkey TxWorkerSenderHandle;
  active_staked_sorted_remote_peer : StakeSortedPeerSet;
  tx_worker_task_meta_map : gmap N Pubkey;
  tx_worker_set : gmap N JetWorker.QuicTxSenderWorker;
  tx_queues : gmap Pubkey (list (GatewayTransaction * nat));
  endpoints_usage : list (gset Pubkey);
  connecting_tasks : gmap N ConnectingTask;
  connecting_meta : gmap N ConnectingMeta;
  connecting_remote_peers : gmap Pubkey N;
  identity : Pubkey;
  tasklet : gmap N GracefulDrop;
  tasklet_meta : gset N;
  last_peer_activity : gmap Pubkey Instant;
  being_evicted_peers : gset Pubkey;
  connecting_blocked_by_eviction_list : list WaitingEviction;
  next_leader_prediction_deadline : Instant;
  rt : Runtime
}.
#[export] Instance Gateway_settable : Settable Gateway := λ d,
  mk_gateway (tx_worker_handle_map d) (active_staked_sorted_remote_peer d)
    (tx_worker_task_meta_map d) (tx_worker_set d) (tx_queues d) (endpoints_usage d)
    (connecting_tasks d) (connecting_meta d) (connecting_remote_peers d) (identity d) (tasklet d)
    (tasklet_meta d) (last_peer_activity d) (being_evicted_peers d)
    (connecting_blocked_by_eviction_list d) (next_leader_prediction_deadline d) (rt d).

Context `{SI : ValidatorStakeInfoService Stake} `{TI : LeaderTpuInfoService Tpu}.
Context `{ES : !ConnectionEvictionStrategy Strategy} `{LP : UpcomingLeaderPredictor Pred}.

(** What an iteration of the loop meets: the configuration, the services, and
    two constants of the cluster from another crate. *)
Record Env := {
  config : QuicGatewayConfig;
  stake_info_map : Stake;
  leader_tpu_info_service : Tpu;
  eviction_strategy : Strategy;
  leader_predictor : Pred;
  DEFAULT_MS_PER_SLOT : N;
  NUM_CONSECUTIVE_LEADER_SLOTS : N
}.
Implicit Types (env : Env) (d : Gateway).

(** [spawn_on]: [bind i j] is the [j]-th attempt to bind endpoint [i]. *)
Definition spawn_on (cfg : QuicGatewayConfig) (bind : nat → nat → bool) (identity : Pubkey)
    (now : Instant) : option Gateway :=
  if forallb (λ i, existsb (bind i) (seq 0 (max_local_port_binding_attempts cfg)))
       (seq 0 (num_endpoints cfg))
  then Some (mk_gateway ∅ StakedSet.empty ∅ ∅ ∅ (replicate (num_endpoints cfg) ∅) ∅ ∅ ∅ identity
               ∅ ∅ ∅ ∅ [] now (mk_rt 0%N ∅ ∅ [] []))
  else None.

(** ** The runtime's side of a handler *)
Definition fresh d : N * Gateway := (next_id (rt d), d <| rt ::= λ r, r <| next_id ::= N.succ |> |>).
Definition notify_one (n : N) d : Gateway := d <| rt ::= λ r, r <| notified ::= union {[n]} |> |>.
Definition watch (c : Driver.RemotePeerAddrWatcherCommand) d : Gateway :=
  d <| rt ::= λ r, r <| watcher_cmds ::= λ l, l ++ [c] |> |>.
Definition respond (resp : GatewayResponse) d : Gateway :=
  d <| rt ::= λ r, r <| responses ::= λ l, l ++ [resp] |> |>.

Definition get_quic_dest_addr env (peer : Pubkey) : option SocketAddr :=
  Types.get_quic_dest_addr (leader_tpu_info_service env) peer (tpu_port_kind (config env)).

(** Handlers run one after the other until one panics. *)
Fixpoint for_each {A} (f : A → Gateway → option Gateway) (l : list A) d : option Gateway :=
  match l with [] => Some d | a :: l => d ← f a d; for_each f l d end.

(** ** Queues *)
Definition drop_peer_queued_tx (peer : Pubkey) (reason : GwDropReason) d : Gateway :=
  match tx_queues d !! peer with
  | None => d
  | Some queue => respond (GwTxDrop peer reason queue) (d <| tx_queues ::= delete peer |>)
  end.
Definition unreachable_peer (peer : Pubkey) d : Gateway :=
  drop_peer_queued_tx peer GwRemotePeerUnreachable d.

(** [tx_queues.entry(peer).or_default()], extended. *)
Definition enqueue (peer : Pubkey) (l : list (GatewayTransaction * nat)) d : Gateway :=
  d <| tx_queues ::= λ q, <[peer := default [] (q !! peer) ++ l]> q |>.

(** ** Connecting *)
Definition max_concurrent_connection env : nat := max_concurrent_connections (config env).
Definition has_connection_capacity env d : bool :=
  bool_decide (size (tx_worker_handle_map d) < max_concurrent_connection env).

Definition get_least_used_endpoint d : option nat :=
  fst <$> min_by_key (λ iu : nat * gset Pubkey, N.of_nat (size iu.2)) (imap pair (endpoints_usage d)).

Definition update_endpoint_usage (idx : nat) (f : gset Pubkey → gset Pubkey) d : option Gateway :=
  usage ← endpoints_usage d !! idx; Some (d <| endpoints_usage ::= <[idx := f usage]> |>).

Definition wait_for_room env (peer : Pubkey) d : option N * Gateway :=
  if has_connection_capacity env d then (None, d)
  else
    let '(n, d) := fresh d in
    (Some n, d <| connecting_blocked_by_eviction_list ::= λ l,
                    l ++ [{| we_remote_peer_identity := peer; notify := n |}] |>).

Definition new_task env (peer : Pubkey) (wait : option N) (idx : nat) d : ConnectingTask := {|
  ct_remote_peer_identity := peer;
  ct_cert := identity d;
  connection_timeout := connecting_timeout (config env);
  ct_tpu_port_kind := tpu_port_kind (config env);
  wait_for_eviction := wait;
  endpoint := idx
|}.
Definition new_meta (peer : Pubkey) (attempt idx : nat) d : ConnectingMeta := {|
  current_client_identity := identity d;
  remote_peer_identity := peer;
  connection_attempt := attempt;
  endpoint_idx := idx
|}.

Definition spawn_task env (peer : Pubkey) (attempt : nat) d : option Gateway :=
  let '(wait, d) := wait_for_room env peer d in
  idx ← get_least_used_endpoint d;
  let task := new_task env peer wait idx d in
  let meta := new_meta peer attempt idx d in
  d ← update_endpoint_usage idx (union {[peer]}) d;
  let '(id, d) := fresh d in
  Some (d <| connecting_tasks ::= <[id := task]> |>
          <| connecting_remote_peers ::= <[peer := id]> |>
          <| connecting_meta ::= <[id := meta]> |>).

Definition spawn_connecting env (peer : Pubkey) (attempt : nat) d : option Gateway :=
  if decide (is_Some (connecting_remote_peers d !! peer)) then Some d else
  if decide (peer ∈ being_evicted_peers d)
  then Some (drop_peer_queued_tx peer GwRemotePeerBeingEvicted d) else
  if decide (is_Some (tx_worker_handle_map d !! peer)) then Some d else
  spawn_task env peer attempt d.

(** [ConnectingTask::run], once it waited for its eviction: the address is
    resolved, the endpoint starts the handshake ([dial]), and the handshake
    ends, in time ([Some]) or not. *)
Record DialOutcome := {
  connect_with : option ConnectError;
  handshake : option (N + ConnectionError)
}.
Definition connecting_run `{LeaderTpuInfoService Tpu'} (service : Tpu') (dial : DialOutcome)
    (t : ConnectingTask) : Connection + ConnectingError :=
  match Types.get_quic_dest_addr service (ct_remote_peer_identity t) (ct_tpu_port_kind t) with
  | None => inr PeerNotInLeaderSchedule
  | Some addr =>
      match connect_with dial with
      | Some e => inr (JConnectError e)
      | None =>
          match handshake dial with
          | None => inr (JConnectionError TimedOut)
          | Some (inr e) => inr (JConnectionError e)
          | Some (inl conn) => inl {| conn_id := conn; remote_address := addr |}
          end
      end
  end.

(** ** Evictions *)
Definition eviction_count_required d : nat :=
  length (connecting_blocked_by_eviction_list d) - size (being_evicted_peers d).

Definition evict_peer (peer : Pubkey) d : Gateway :=
  match tx_worker_handle_map d !! peer with
  | None => d
  | Some handle =>
      notify_one (h_cancel_notify handle) d
        <| being_evicted_peers ::= union {[h_remote_peer_identity handle]} |>
  end.

Definition do_eviction_if_required env (now : Instant) d : option Gateway :=
  if decide (eviction_count_required d = 0) then Some d
  else
    plan ← plan_eviction (eviction_strategy env) now (active_staked_sorted_remote_peer d)
             (last_peer_activity d) (being_evicted_peers d) (eviction_count_required d);
    Some (foldl (λ d peer, evict_peer peer d) d plan).

(** ** Workers

    Three names are drawn: channel, notification, task. *)
Definition new_worker env (peer : Pubkey) (conn : Connection) d : JetWorker.QuicTxSenderWorker := {|
  JetWorker.remote_peer := peer;
  JetWorker.connection := conn;
  JetWorker.current_client_identity := identity d;
  JetWorker.incoming_rx := next_id (rt d);
  JetWorker.tx_queue := default [] (tx_queues d !! peer);
  JetWorker.cancel_notify := (next_id (rt d) + 1)%N;
  JetWorker.max_tx_attempt := max_send_attempt (config env)
|}.

Definition new_handle (peer : Pubkey) (conn : Connection) d : TxWorkerSenderHandle := {|
  h_remote_peer_identity := peer;
  h_remote_peer_addr := remote_address conn;
  sender := next_id (rt d);
  h_cancel_notify := (next_id (rt d) + 1)%N
|}.

Definition spawn_worker env (peer : Pubkey) (conn : Connection) d : Gateway :=
  let chan := next_id (rt d) in
  let task := (chan + 2)%N in
  d <| rt ::= λ r, r <| next_id := (chan + 3)%N |>
         <| channels ::=
              <[chan := channel (transaction_sender_worker_channel_capacity (config env))]> |> |>
    <| tx_queues ::= delete peer |>
    <| tx_worker_set ::= <[task := new_worker env peer conn d]> |>
    <| tx_worker_handle_map ::= <[peer := new_handle peer conn d]> |>
    <| tx_worker_task_meta_map ::= <[task := peer]> |>.

Definition install_worker env (peer : Pubkey) (conn : Connection) d : option Gateway :=
  match tx_worker_handle_map d !! peer with
  | Some _ => None
  | None => Some (spawn_worker env peer conn d)
  end.

(** ** Connection results *)
Definition forget_connecting (id : N) (meta : ConnectingMeta) d : option Gateway :=
  update_endpoint_usage (endpoint_idx meta) (λ s, s ∖ {[remote_peer_identity meta]})
    (d <| connecting_meta ::= delete id |>
       <| connecting_remote_peers ::= delete (remote_peer_identity meta) |>).

Definition connected env (peer : Pubkey) (conn : Connection) d : option Gateway :=
  let stake := default 0%N (get_stake_info (stake_info_map env) peer) in
  install_worker env peer conn
    (watch (Driver.RegisterWatch peer (remote_address conn))
       (d <| active_staked_sorted_remote_peer ::= λ s, (Peers.insert peer stake s).2 |>)).

Definition attempt_failed env (meta : ConnectingMeta) (e : ConnectingError) d : option Gateway :=
  let peer := remote_peer_identity meta in
  match e with
  | JConnectError EndpointStopping => None
  | JConnectionError _ =>
      if decide (connection_attempt meta < max_connection_attempts (config env))
      then spawn_connecting env peer (connection_attempt meta + 1) d
      else Some (unreachable_peer peer d)
  | _ => Some (unreachable_peer peer d)
  end.

Definition handle_connecting_result env (result : JoinResult (Connection + ConnectingError)) d
    : option Gateway :=
  match result with
  | JoinOk id res =>
      let d := d <| connecting_tasks ::= delete id |> in
      meta ← connecting_meta d !! id;
      d ← forget_connecting id meta d;
      if decide (identity d ≠ current_client_identity meta)
      then spawn_connecting env (remote_peer_identity meta) (connection_attempt meta) d
      else
        match res with
        | inl conn => connected env (remote_peer_identity meta) conn d
        | inr e => attempt_failed env meta e d
        end
  | JoinErr id =>
      let d := d <| connecting_tasks ::= delete id |> in
      meta ← connecting_meta d !! id;
      forget_connecting id meta d
  end.

(** ** Incoming transactions *)
Definition set_channel (chan : N) (c : Ch) d : Gateway :=
  d <| rt ::= λ r, r <| channels ::= <[chan := c]> |> |>.

(** A channel whose receiver is gone is [Closed]. *)
Definition try_send_to (chan : N) (tx : GatewayTransaction) d : TrySendResult * Gateway :=
  match channels (rt d) !! chan with
  | None => (SendClosed, d)
  | Some c => let '(res, c) := try_send tx c in (res, set_channel chan c d)
  end.

Definition accept_tx env (now : Instant) (tx : GatewayTransaction) d : option Gateway :=
  let peer := Txn.remote_peer tx in
  let d := d <| last_peer_activity ::= <[peer := now]> |> in
  match tx_worker_handle_map d !! peer with
  | Some handle =>
      match try_send_to (sender handle) tx d with
      | (SendOk, d) => Some d
      | (SendFull, d) => Some (respond (GwTxDrop peer GwRateLimited [(tx, 1)]) d)
      | (SendClosed, d) => Some (enqueue peer [(tx, 1)] d)
      end
  | None =>
      let d := enqueue peer [(tx, 1)] d in
      if decide (is_Some (connecting_remote_peers d !! peer)) then Some d
      else spawn_connecting env peer 1 d
  end.

(** ** Worker results *)

(** Waiting connections are notified up to the first whose peer is connecting. *)
Fixpoint release (connecting : gmap Pubkey N) (l : list WaitingEviction) : list N * list WaitingEviction :=
  match l with
  | [] => ([], [])
  | w :: l =>
      if decide (is_Some (connecting !! we_remote_peer_identity w)) then ([notify w], l)
      else let '(ns, l) := release connecting l in (notify w :: ns, l)
  end.
Definition unblock_eviction_waiting_connection d : Gateway :=
  let '(ns, l) := release (connecting_remote_peers d) (connecting_blocked_by_eviction_list d) in
  foldl (λ d n, notify_one n d) (d <| connecting_blocked_by_eviction_list := l |>) ns.

(** What is left in the worker's channel; the receiver then goes away. *)
Definition drain_channel (chan : N) d : list GatewayTransaction * Gateway :=
  (from_option (λ c, (recv_all c).1) [] (channels (rt d) !! chan),
   d <| rt ::= λ r, r <| channels ::= delete chan |> |>).

Definition is_peer_unreachable (e : option JetWorker.TxSenderWorkerError) : bool :=
  match e with Some (JetWorker.ConnectionLost VersionMismatch) => true | _ => false end.

(** What becomes of the rescued transactions. *)
Definition after_worker env (now : Instant) (peer : Pubkey) (e : option JetWorker.TxSenderWorkerError)
    (is_evicted_conn : bool) d : option Gateway :=
  if is_peer_unreachable e then Some (unreachable_peer peer d)
  else if is_evicted_conn then Some (drop_peer_queued_tx peer GwDropByGateway d)
  else if decide (default [] (tx_queues d !! peer) ≠ [])
       then spawn_connecting env peer 1 (d <| last_peer_activity ::= <[peer := now]> |>)
       else Some d.

(** The bookkeeping of a worker that ended: the gateway forgets the peer. *)
Definition worker_ended (id : N) (peer : Pubkey) d : bool * Gateway :=
  let d := d <| tx_worker_task_meta_map ::= delete id |>
             <| active_staked_sorted_remote_peer ::= λ s, (Peers.remove peer s).2 |> in
  let d := unblock_eviction_waiting_connection (watch (Driver.DeregisterWatch peer) d) in
  (bool_decide (peer ∈ being_evicted_peers d), d <| being_evicted_peers ::= λ s, s ∖ {[peer]} |>).

Definition handle_worker_result env (now : Instant)
    (result : JoinResult JetWorker.TxSenderWorkerCompleted) d : option Gateway :=
  match result with
  | JoinOk id completed =>
      let d := d <| tx_worker_set ::= delete id |> in
      peer ← tx_worker_task_meta_map d !! id;
      let '(is_evicted_conn, d) := worker_ended id peer d in
      _ ← tx_worker_handle_map d !! peer;
      let d := d <| tx_worker_handle_map ::= delete peer |>
                 <| last_peer_activity ::= delete peer |> in
      let '(remaining, d) := drain_channel (JetWorker.rx completed) d in
      let d := enqueue peer (((λ tx, (tx, 1)) <$> remaining) ++ JetWorker.pending_tx completed) d in
      after_worker env now peer (JetWorker.err completed) is_evicted_conn d
  | JoinErr _ => None
  end.

(** ** Identity changes *)
Definition schedule_graceful_drop_all_worker d : Gateway :=
  let gd := mk_gd (tx_worker_task_meta_map d) (tx_worker_set d) in
  let '(id, d) := fresh d in
  d <| tx_worker_task_meta_map := ∅ |> <| tx_worker_handle_map := ∅ |> <| tx_worker_set := ∅ |>
    <| tasklet ::= <[id := gd]> |> <| tasklet_meta ::= union {[id]} |>.

(** One iteration of the detached task: a worker ended, and what it handed back
    is dropped. *)
Definition graceful_drop_step (tid : N) (result : JoinResult JetWorker.TxSenderWorkerCompleted) d
    : option Gateway :=
  gd ← tasklet d !! tid;
  let id := match result with JoinOk id _ => id | JoinErr id => id end in
  _ ← gd_worker_meta gd !! id;
  let gd := gd <| gd_worker_set ::= delete id |> <| gd_worker_meta ::= delete id |> in
  let d := match result with
           | JoinOk _ completed => (drain_channel (JetWorker.rx completed) d).2
           | JoinErr _ => d
           end in
  Some (d <| tasklet ::= <[tid := gd]> |>).

(** [update_identity] up to the barrier ... *)
Definition install_identity (new_identity : Pubkey) d : gmap N ConnectingMeta * Gateway :=
  let d := schedule_graceful_drop_all_worker d in
  let d := d <| connecting_tasks := ∅ |> <| connecting_remote_peers := ∅ |> in
  (connecting_meta d, d <| connecting_meta := ∅ |> <| identity := new_identity |>).

(** ... and after it: the connection attempts in flight are replayed. *)
Definition replay_connecting env (metas : gmap N ConnectingMeta) d : option Gateway :=
  for_each (λ meta, spawn_connecting env (remote_peer_identity meta) (connection_attempt meta))
    (map_iter metas).*2 d.

Definition update_identity env (new_identity : Pubkey) d : option Gateway :=
  let '(metas, d) := install_identity new_identity d in replay_connecting env metas d.

Inductive GatewayCommand :=
  | UpdateIdentity (new_identity : Pubkey)
  | MultiStepIdentitySynchronization (new_identity : Pubkey).

(** The two commands differ in the barrier awaited between the two halves, and
    in the callback fired at the end. *)
Definition handle_cnc env (command : GatewayCommand) d : option Gateway :=
  match command with
  | UpdateIdentity new_identity | MultiStepIdentitySynchronization new_identity =>
      update_identity env new_identity d
  end.

Definition handle_tasklet_result (result : JoinResult unit) d : option Gateway :=
  let id := match result with JoinOk id _ => id | JoinErr id => id end in
  if decide (id ∈ tasklet_meta d)
  then Some (d <| tasklet ::= delete id |> <| tasklet_meta ::= λ s, s ∖ {[id]} |>)
  else None.

(** ** Address changes *)
Definition addr_changed env (peer : Pubkey) d : Gateway :=
  match tx_worker_handle_map d !! peer with
  | None => d
  | Some handle =>
      match get_quic_dest_addr env peer with
      | Some new_addr =>
          if decide (new_addr ≠ h_remote_peer_addr handle)
          then notify_one (h_cancel_notify handle) d else d
      | None => notify_one (h_cancel_notify handle) d
      end
  end.
Definition handle_remote_peer_addr_change env (remote_peers_changed : gset Pubkey) d : Gateway :=
  foldl (λ d peer, addr_changed env peer d) d (hash_iter remote_peers_changed).

(** ** Leader prediction: every three slots *)
Definition prediction_wait env : Duration :=
  N.max (from_millis (DEFAULT_MS_PER_SLOT env * (NUM_CONSECUTIVE_LEADER_SLOTS env - 1)))
        (from_millis (DEFAULT_MS_PER_SLOT env)).

Definition predict_leader env (leader : Pubkey) d : option Gateway :=
  if bool_decide (is_Some (tx_worker_handle_map d !! leader))
     || bool_decide (is_Some (connecting_remote_peers d !! leader))
  then Some d
  else spawn_connecting env leader (max_connection_attempts (config env)) d.

Definition try_predict_upcoming_leaders_if_necessary env (now : Instant) d : option Gateway :=
  if (now <=? next_leader_prediction_deadline d)%N then Some d else
  match leader_prediction_lookahead (config env) with
  | Some lh =>
      for_each (predict_leader env) (try_predict_next_n_leaders (leader_predictor env) lh)
        (d <| next_leader_prediction_deadline := (now + prediction_wait env)%N |>)
  | None => Some (d <| next_leader_prediction_deadline := (now + FOREVER)%N |>)
  end.

(** ** The event loop *)
Inductive GatewayEvent :=
  | EvTx (tx : GatewayTransaction)
  | EvInletClosed
  | EvCommand (c : GatewayCommand)
  | EvWorker (r : JoinResult JetWorker.TxSenderWorkerCompleted)
  | EvConnecting (r : JoinResult (Connection + ConnectingError))
  | EvTasklet (r : JoinResult unit)
  | EvAddrChanges (changes : gset Pubkey).

Definition before_select env (now : Instant) d : option Gateway :=
  d ← do_eviction_if_required env now d; try_predict_upcoming_leaders_if_necessary env now d.

(** A branch of the [select!]; [inr] is the [break], after which the workers
    are handed to a detached task. *)
Definition select_branch env (now : Instant) (ev : GatewayEvent) d : option (Gateway + Gateway) :=
  match ev with
  | EvTx tx => inl <$> accept_tx env now tx d
  | EvInletClosed => Some (inr (schedule_graceful_drop_all_worker d))
  | EvCommand c => inl <$> handle_cnc env c d
  | EvWorker r => inl <$> handle_worker_result env now r d
  | EvConnecting r => inl <$> handle_connecting_result env r d
  | EvTasklet r => inl <$> handle_tasklet_result r d
  | EvAddrChanges changes => Some (inl (handle_remote_peer_addr_change env changes d))
  end.

(** [run] over a given sequence of events, each with its service answers and
    clock; after the break only the detached tasks are awaited. *)
Fixpoint run (evs : list (Env * Instant * GatewayEvent)) d : option Gateway :=
  match evs with
  | [] => Some d
  | (env, now, ev) :: evs =>
      d ← before_select env now d;
      r ← select_branch env now ev d;
      match r with inl d => run evs d | inr d => Some d end
  end.
End Gateway.

(** [StakeBasedEvictionStrategy] keeps the promise of the interface. *)
Lemma take_idle_defined self now usage n l :
  (∀ sp, sp ∈ l → is_Some (usage !! sp.2)) → is_Some (take_idle self now usage n l).
Proof.
  revert n. induction l as [|[k p] l IH]; intros n Hl; [by destruct n|].
  destruct n as [|n]; [done|]. cbn [take_idle].
  destruct (Hl (k, p)) as [t Ht]; [left|]. cbn in Ht. rewrite Ht. cbn [mbind option_bind].
  assert (∀ sp, sp ∈ l → is_Some (usage !! sp.2)) as Hl' by (intros; apply Hl; by right).
  destruct (_ <=? _)%N; [|by apply IH]. destruct (IH n Hl') as [q ->]. by eexists.
Qed.

#[export, program] Instance stake_based `{HI : HashIter}
    : ConnectionEvictionStrategy StakeBasedEvictionStrategy := {
  plan_eviction := stake_plan_eviction
}.
Next Obligation.
  intros HI self now ss usage masq n Hwf Hss. unfold stake_plan_eviction.
  destruct (Peers.is_empty ss); [done|].
  destruct (take_idle_defined self now usage n (not_evicting ss masq)) as [q ->]; [|by eexists].
  intros [k p] [_ Hin]%list_elem_of_filter. apply Hss.
  apply StakedSet.elem_of_iter in Hin; [|done]. eauto.
Qed.
End JetGateway.
Export (hints) JetGateway.
