(* ===== verification/JetInv.v ===== *)
(** The invariant of the jet's gateway ([Inv]), stated on its maps one group at a
    time, and the accounting of its transactions ([total]); each handler is
    shown not to panic, to preserve the one and to conserve the other
    ([keeps]). *)
From S2P Require Import Prelude Types StakedSet Runtime Driver JetTypes JetWorker JetGateway.
Import JetTypes JetGateway.

#[local] Arguments count_queue : simpl never.
#[local] Arguments count_txns : simpl never.

(** ** Connection attempts

    A task, its metadata and its peer are in one-to-one correspondence. *)
Record attempts_inv (tasks : gmap N ConnectingTask) (metas : gmap N ConnectingMeta)
    (peers : gmap N N) (endpoints : nat) (next ident : N) : Prop := {
  at_task : ∀ id, is_Some (tasks !! id) ↔ is_Some (metas !! id);
  at_fresh : ∀ id, is_Some (metas !! id) → (id < next)%N;
  at_peer : ∀ p id, peers !! p = Some id ↔ ∃ m, metas !! id = Some m ∧ remote_peer_identity m = p;
  at_meta : ∀ id m, metas !! id = Some m →
    current_client_identity m = ident ∧ endpoint_idx m < endpoints;
  at_endpoints : 0 < endpoints
}.

Section Attempts.
Context (tasks : gmap N ConnectingTask) (metas : gmap N ConnectingMeta) (peers : gmap N N)
        (endpoints : nat) (next ident : N).
Hypothesis Hinv : attempts_inv tasks metas peers endpoints next ident.

Lemma attempts_next next' : (next ≤ next')%N → attempts_inv tasks metas peers endpoints next' ident.
Proof.
  intros Hle. destruct Hinv as [H1 H2 H3 H4 H5]. split; try done. intros id Hid%H2. lia.
Qed.

Lemma attempts_forget id m : metas !! id = Some m →
  attempts_inv (delete id tasks) (delete id metas) (delete (remote_peer_identity m) peers)
    endpoints next ident.
Proof.
  intros Hm. destruct Hinv as [H1 H2 H3 H4 H5].
  assert (peers !! remote_peer_identity m = Some id) as Hp by (apply H3; eauto). split; [| | | |done].
  - intros i. rewrite !lookup_delete_is_Some. naive_solver.
  - intros i [_ ?]%lookup_delete_is_Some. eauto.
  - intros q i. rewrite lookup_delete_Some, H3. setoid_rewrite lookup_delete_Some. split.
    + intros (Hq & m' & Hm' & <-). exists m'. split_and!; [|done..]. intros <-. congruence.
    + intros (m' & [Hi Hm'] & <-). split; [|eauto]. intros Heq.
      assert (peers !! remote_peer_identity m' = Some i) as Hp' by (apply H3; eauto). congruence.
  - intros i m' [_ ?]%lookup_delete_Some. eauto.
Qed.

Lemma attempts_spawn id task m next' : (next ≤ id < next')%N → peers !! remote_peer_identity m = None →
  current_client_identity m = ident → endpoint_idx m < endpoints →
  attempts_inv (<[id := task]> tasks) (<[id := m]> metas) (<[remote_peer_identity m := id]> peers)
    endpoints next' ident.
Proof.
  intros Hid Hp Hm Hidx. destruct Hinv as [H1 H2 H3 H4 H5].
  assert (metas !! id = None) as Hnew.
  { destruct (metas !! id) eqn:E; [|done]. assert (id < next)%N by (apply H2; eauto). lia. }
  split; [| | | |done].
  - intros i. rewrite !lookup_insert_is_Some. naive_solver.
  - intros i. rewrite lookup_insert_is_Some. intros [->|[_ Hi%H2]]; lia.
  - intros q i. rewrite lookup_insert_Some, H3. setoid_rewrite lookup_insert_Some. split.
    + intros [[<- <-]|(Hq & m' & Hm' & <-)]; [by exists m; eauto|]. exists m'. split; [|done].
      right. split; [congruence|done].
    + intros (m' & [[<- <-]|[Hi Hm']] & <-); [by left|]. right. split; [|eauto].
      intros Heq. assert (peers !! remote_peer_identity m' = Some i) by (apply H3; eauto). congruence.
  - intros i m' [[_ <-]|[_ ?]]%lookup_insert_Some; eauto.
Qed.
End Attempts.

(** ** Workers

    Each handle belongs to one task, which serves the same peer over a
    connection to the same address, under the current identity. *)
Record workers_inv (handles : gmap N TxWorkerSenderHandle) (metas : gmap N N)
    (workers : gmap N JetWorker.QuicTxSenderWorker) (chans : gset N) (next ident : N) : Prop := {
  wk_task : ∀ id, is_Some (workers !! id) ↔ is_Some (metas !! id);
  wk_fresh : ∀ id, is_Some (metas !! id) → (id < next)%N;
  wk_inj : ∀ id id' p, metas !! id = Some p → metas !! id' = Some p → id = id';
  wk_meta : ∀ id p, metas !! id = Some p → ∃ h w, handles !! p = Some h ∧ workers !! id = Some w ∧
    h_remote_peer_identity h = p ∧
    JetWorker.remote_peer w = p ∧ remote_address (JetWorker.connection w) = h_remote_peer_addr h ∧
    JetWorker.incoming_rx w = sender h ∧ JetWorker.cancel_notify w = h_cancel_notify h ∧
    JetWorker.current_client_identity w = ident;
  wk_handle : ∀ p h, handles !! p = Some h → ∃ id, metas !! id = Some p;
  wk_chan : ∀ c, c ∈ chans → (c < next)%N
}.

Section Workers.
Context (handles : gmap N TxWorkerSenderHandle) (metas : gmap N N)
        (workers : gmap N JetWorker.QuicTxSenderWorker) (chans : gset N) (next ident : N).
Hypothesis Hinv : workers_inv handles metas workers chans next ident.

Lemma workers_next next' chans' : (next ≤ next')%N → (∀ c, c ∈ chans' → c ∈ chans) →
  workers_inv handles metas workers chans' next' ident.
Proof.
  intros Hle Hch. destruct Hinv as [H1 H2 H3 H4 H5 H6]. split; try done.
  - intros id Hid%H2. lia.
  - intros c Hc%Hch%H6. lia.
Qed.

Lemma workers_forget id p : metas !! id = Some p →
  workers_inv (delete p handles) (delete id metas) (delete id workers) chans next ident.
Proof.
  intros Hm. destruct Hinv as [H1 H2 H3 H4 H5 H6]. split; [| | | | |done].
  - intros i. rewrite !lookup_delete_is_Some. naive_solver.
  - intros i [_ ?]%lookup_delete_is_Some. eauto.
  - intros i i' q [_ ?]%lookup_delete_Some [_ ?]%lookup_delete_Some. eauto.
  - intros i q [Hi Hq]%lookup_delete_Some. destruct (H4 i q Hq) as (h & w & Hh & Hw & Hrest).
    exists h, w. rewrite !lookup_delete_ne; [done|done|]. intros ->. by apply Hi, (H3 _ _ q).
  - intros q h [Hq Hh]%lookup_delete_Some. destruct (H5 q h Hh) as (i & Hi). exists i.
    rewrite lookup_delete_ne; [done|]. intros ->. congruence.
Qed.

Lemma workers_install p task h w : handles !! p = None → (task = next + 2)%N →
  h_remote_peer_identity h = p → JetWorker.remote_peer w = p →
  remote_address (JetWorker.connection w) = h_remote_peer_addr h →
  JetWorker.incoming_rx w = sender h → JetWorker.cancel_notify w = h_cancel_notify h →
  JetWorker.current_client_identity w = ident →
  workers_inv (<[p := h]> handles) (<[task := p]> metas) (<[task := w]> workers)
    ({[next]} ∪ chans) (next + 3)%N ident.
Proof.
  intros Hp -> Wp W1 W2 W3 W4 W5. destruct Hinv as [H1 H2 H3 H4 H5 H6].
  assert (metas !! (next + 2)%N = None) as Hnew.
  { destruct (metas !! _) eqn:E; [|done]. assert (next + 2 < next)%N by eauto. lia. }
  assert (∀ i, metas !! i ≠ Some p) as Hnp by (intros i (h' & w' & Hh' & _)%H4; congruence).
  split.
  - intros i. rewrite !lookup_insert_is_Some. naive_solver.
  - intros i. rewrite lookup_insert_is_Some. intros [<-|[_ Hi%H2]]; lia.
  - intros i i' q [[<- <-]|[? ?]]%lookup_insert_Some [[<- ?]|[? ?]]%lookup_insert_Some; subst; naive_solver.
  - intros i q [[<- <-]|[Hi Hq]]%lookup_insert_Some.
    + exists h, w. by rewrite !lookup_insert_eq.
    + destruct (H4 i q Hq) as (h' & w' & Hh' & Hw' & Hrest). exists h', w'.
      rewrite !lookup_insert_ne; [done|done|]. intros ->. congruence.
  - intros q h' [[<- <-]|[Hq Hh']]%lookup_insert_Some; [exists (next + 2)%N; by rewrite lookup_insert_eq|].
    destruct (H5 q h' Hh') as (i & Hi). exists i. rewrite lookup_insert_ne; [done|]. intros <-. congruence.
  - intros c [->%elem_of_singleton|Hc%H6]%elem_of_union; lia.
Qed.
End Workers.

(** ** Attempts that wait for an eviction

    A waiting attempt that was not notified is listed, with its peer. The list
    may hold more: an identity change drops the attempts but not the list. *)
Record waiting_inv (tasks : gmap N ConnectingTask) (blocked : list WaitingEviction)
    (notified : gset N) (next : N) : Prop := {
  wg_next : ∀ id t n, tasks !! id = Some t → wait_for_eviction t = Some n → (n < next)%N;
  wg_wait : ∀ id t n, tasks !! id = Some t → wait_for_eviction t = Some n → n ∉ notified →
    {| we_remote_peer_identity := ct_remote_peer_identity t; notify := n |} ∈ blocked
}.

(** A finished attempt did not wait, or was released. *)
Definition released (notified : gset N) (t : ConnectingTask) : Prop :=
  match wait_for_eviction t with None => True | Some n => n ∈ notified end.

Lemma waiting_weaken tasks blocked notified next blocked' notified' next' :
  waiting_inv tasks blocked notified next → (next ≤ next')%N → notified ⊆ notified' →
  (∀ w, w ∈ blocked → w ∈ blocked' ∨ notify w ∈ notified') →
  waiting_inv tasks blocked' notified' next'.
Proof.
  intros [H1 H2] Hn Hno Hb. split.
  - intros id t n Ht Hw. pose proof (H1 id t n Ht Hw). lia.
  - intros id t n Ht Hw Hnot. destruct (Hb _ (H2 id t n Ht Hw ltac:(set_solver))); [done|]. by destruct Hnot.
Qed.

Lemma waiting_spawn tasks blocked notified next id t next' :
  waiting_inv tasks blocked notified next → (next ≤ next')%N →
  match wait_for_eviction t with
  | None => True
  | Some n => (n < next')%N ∧ {| we_remote_peer_identity := ct_remote_peer_identity t; notify := n |} ∈ blocked
  end → waiting_inv (<[id := t]> tasks) blocked notified next'.
Proof.
  intros [H1 H2] Hle Ht. split.
  - intros i t' n [[<- <-]|[_ Hi]]%lookup_insert_Some Hw; [rewrite Hw in Ht; by destruct Ht|].
    pose proof (H1 i t' n Hi Hw). lia.
  - intros i t' n [[<- <-]|[_ Hi]]%lookup_insert_Some Hw Hno; [rewrite Hw in Ht; by destruct Ht|eauto].
Qed.

Lemma waiting_forget tasks blocked notified next id :
  waiting_inv tasks blocked notified next → waiting_inv (delete id tasks) blocked notified next.
Proof. intros [H1 H2]. split; intros i t n [_ ?]%lookup_delete_Some; eauto. Qed.

(** ** Detached workers *)
Definition detached_inv (gd : GracefulDrop) : Prop :=
  ∀ id, is_Some (gd_worker_set gd !! id) ↔ is_Some (gd_worker_meta gd !! id).
Definition tasklets_inv (tasklets : gmap N GracefulDrop) (metas : gset N) (next : N) : Prop :=
  dom tasklets = metas ∧ ∀ t gd, tasklets !! t = Some gd → (t < next)%N ∧ detached_inv gd.

Lemma tasklets_next tasklets metas next next' :
  tasklets_inv tasklets metas next → (next ≤ next')%N → tasklets_inv tasklets metas next'.
Proof. intros [H1 H2] Hle. split; [done|]. intros t gd Ht. destruct (H2 t gd Ht). split; [lia|done]. Qed.

Lemma tasklets_add tasklets metas next gd :
  tasklets_inv tasklets metas next → detached_inv gd →
  tasklets_inv (<[next := gd]> tasklets) ({[next]} ∪ metas) (N.succ next).
Proof.
  intros [H1 H2] Hgd. split; [by rewrite dom_insert_L, H1|].
  intros t g [[<- <-]|[_ Hg]]%lookup_insert_Some; [split; [lia|done]|].
  destruct (H2 t g Hg). split; [lia|done].
Qed.

Lemma tasklets_update tasklets metas next t gd gd' :
  tasklets_inv tasklets metas next → tasklets !! t = Some gd → detached_inv gd' →
  tasklets_inv (<[t := gd']> tasklets) metas next.
Proof.
  intros [H1 H2] Ht Hgd. split; [rewrite <-H1; apply dom_insert_lookup_L; eauto|].
  intros u g [[<- <-]|[_ Hg]]%lookup_insert_Some; [|by apply H2].
  split; [by destruct (H2 t gd Ht)|done].
Qed.
