(* ===== verification/JetSafe.v ===== *)
(** The handlers of the jet's gateway keep its invariant, do not panic, and
    conserve its transactions: one lemma per handler. *)
From S2P Require Import Prelude Types StakedSet Runtime Driver JetTypes JetWorker JetGateway JetInv.
Import JetTypes JetGateway.

#[local] Arguments count_queue : simpl never.
#[local] Arguments count_txns : simpl never.
#[local] Arguments JetWorker.count_gw_responses : simpl never.

Section Safe.
Context `{HI : HashIter} {Ch : Type} `{MC : Mpsc Ch GatewayTransaction}.
Context `{SI : ValidatorStakeInfoService Stake} `{TI : LeaderTpuInfoService Tpu}.
Context `{ES : !ConnectionEvictionStrategy Strategy} `{LP : UpcomingLeaderPredictor Pred}.
Abbreviation Gateway := (@Gateway Ch).
Implicit Types (d : Gateway) (sig : N).
Abbreviation Env := (@Env Stake Tpu Strategy Pred).
Implicit Types (env : Env).

Definition Inv d : Prop :=
  attempts_inv (connecting_tasks d) (connecting_meta d) (connecting_remote_peers d)
    (length (endpoints_usage d)) (next_id (rt d)) (identity d) ∧
  workers_inv (tx_worker_handle_map d) (tx_worker_task_meta_map d) (tx_worker_set d)
    (dom (channels (rt d))) (next_id (rt d)) (identity d) ∧
  (∀ p, is_Some (tx_worker_handle_map d !! p) → connecting_remote_peers d !! p = None) ∧
  waiting_inv (connecting_tasks d) (connecting_blocked_by_eviction_list d) (notified (rt d))
    (next_id (rt d)) ∧
  (StakedSet.wf (active_staked_sorted_remote_peer d) ∧
   ∀ p, is_Some (tx_worker_handle_map d !! p) →
     is_Some (StakedSet.peer_stake_map (active_staked_sorted_remote_peer d) !! p)) ∧
  tasklets_inv (tasklet d) (tasklet_meta d) (next_id (rt d)).

(** The last use of every peer that a strategy may look at is known. *)
Definition Active d : Prop := ∀ p,
  is_Some (StakedSet.peer_stake_map (active_staked_sorted_remote_peer d) !! p) ∨
  is_Some (connecting_remote_peers d !! p) → is_Some (last_peer_activity d !! p).

(** ** Where transactions are *)
Definition in_workers sig (m : gmap N JetWorker.QuicTxSenderWorker) : nat :=
  map_sum (λ w, count_queue sig (JetWorker.tx_queue w)) m.
Definition total sig d : nat :=
  in_queues sig (tx_queues d) + in_channels sig (channels (rt d)) + in_workers sig (tx_worker_set d) +
  map_sum (λ gd, in_workers sig (gd_worker_set gd)) (tasklet d) +
  JetWorker.count_gw_responses sig (responses (rt d)).

(** ** Handlers *)
Definition keeps (gain : N → nat) d d' : Prop :=
  (Inv d → Inv d') ∧ (Inv d → ∀ sig, total sig d' = total sig d + gain sig).
Definition keeps_active d d' : Prop := Inv d → Active d → Active d'.
(** [A]: the handler only connects to peers whose last use is known. *)
Definition sound (A : Prop) d (m : option Gateway) : Prop :=
  Inv d → ∃ d', m = Some d' ∧ keeps (λ _, 0) d d' ∧ (A → keeps_active d d').

(** A change outside the invariant and the accounting. *)
Definition same_places d d' : Prop :=
  tx_queues d' = tx_queues d ∧ channels (rt d') = channels (rt d) ∧
  tx_worker_set d' = tx_worker_set d ∧ tasklet d' = tasklet d ∧ responses (rt d') = responses (rt d).

Lemma total_same d d' : same_places d d' → ∀ sig, total sig d' = total sig d + 0.
Proof. intros (E1 & E2 & E3 & E4 & E5) sig. unfold total. rewrite E1, E2, E3, E4, E5. lia. Qed.

Lemma keeps_trans f g d1 d2 d3 : keeps f d1 d2 → keeps g d2 d3 →
  keeps (λ sig, f sig + g sig) d1 d3.
Proof.
  intros [H1 T1] [H2 T2]. split; [auto|]. intros H sig. rewrite (T2 (H1 H)), (T1 H). lia.
Qed.

Lemma keeps_ext f g d d' : (∀ sig, f sig = g sig) → keeps f d d' → keeps g d d'.
Proof. intros E [H T]. split; [done|]. intros Hi sig. by rewrite T, E. Qed.

Lemma keeps_0 d1 d2 d3 : keeps (λ _, 0) d1 d2 → keeps (λ _, 0) d2 d3 → keeps (λ _, 0) d1 d3.
Proof. intros H1 H2. eapply keeps_ext; [|by eapply keeps_trans]. done. Qed.

Lemma keeps_refl d : keeps (λ _, 0) d d.
Proof. split; [done|]. intros _ sig. lia. Qed.

Lemma active_refl d : keeps_active d d.
Proof. by intros ? ?. Qed.

Lemma sound_ret A d : sound A d (Some d).
Proof. intros _. exists d. split_and!; [done|apply keeps_refl|by intros _ ? ?]. Qed.

Lemma sound_after (A : Prop) d d' m :
  keeps (λ _, 0) d d' → (A → keeps_active d d') → sound A d' m → sound A d m.
Proof.
  intros [Hk Ht] Ha Hm H. destruct (Hm (Hk H)) as (d2 & -> & Hk2 & Ha2). exists d2.
  split_and!; [done|eapply keeps_0; [|exact Hk2]; by split|].
  intros HA _ Hd. apply Ha2; [done|by apply Hk|by apply Ha].
Qed.

Lemma sound_bind (A : Prop) d m f :
  sound A d m → (∀ d', m = Some d' → sound A d' (f d')) → sound A d (m ≫= f).
Proof.
  intros Hm Hf H. destruct (Hm H) as (d1 & -> & Hk & Ha). cbn [mbind option_bind].
  destruct (Hf d1 eq_refl (proj1 Hk H)) as (d2 & -> & Hk2 & Ha2). exists d2.
  split_and!; [done|by eapply keeps_0|].
  intros HA _ Hd. apply Ha2; [done|by apply Hk|by apply Ha].
Qed.

Lemma sound_pure (A : Prop) d d' :
  keeps (λ _, 0) d d' → (A → keeps_active d d') → sound A d (Some d').
Proof. intros Hk Ha. eapply sound_after; [done|done|apply sound_ret]. Qed.

Lemma sound_for_each {B} (A : Prop) (f : B → Gateway → option Gateway) l d :
  (∀ b d, b ∈ l → sound A d (f b d)) → sound A d (for_each f l d).
Proof.
  revert d. induction l as [|a l IH]; intros d Hf; [apply sound_ret|]. cbn [for_each].
  apply sound_bind; [apply Hf; by left|]. intros d' _. apply IH. intros b d2 Hb. apply Hf. by right.
Qed.

(** ** Queues and notifications *)
Lemma keeps_respond r d : keeps (λ sig, JetWorker.count_gw_response sig r) d (respond r d).
Proof.
  split; [done|]. intros _ sig. unfold total, respond. upd_simpl.
  rewrite JetWorker.count_gw_responses_app, JetWorker.count_gw_responses_one. lia.
Qed.

Lemma keeps_drop_peer p reason d : keeps (λ _, 0) d (drop_peer_queued_tx p reason d).
Proof.
  unfold drop_peer_queued_tx. destruct (tx_queues d !! p) as [q|] eqn:Eq; [|apply keeps_refl].
  split; [done|]. intros H sig.
  etrans; [by apply (proj2 (keeps_respond _ _))|].
  cbn [JetWorker.count_gw_response]. unfold total. upd_simpl.
  pose proof (in_queues_delete sig (tx_queues d) p) as Hd. rewrite Eq in Hd. cbn in Hd. lia.
Qed.

Lemma active_drop_peer p reason d : keeps_active d (drop_peer_queued_tx p reason d).
Proof. unfold drop_peer_queued_tx, keeps_active. by destruct (tx_queues d !! p). Qed.

Lemma sound_drop_peer A p reason d : sound A d (Some (drop_peer_queued_tx p reason d)).
Proof. apply sound_pure; [apply keeps_drop_peer|intros _; apply active_drop_peer]. Qed.

Lemma keeps_enqueue p l d : keeps (λ sig, count_queue sig l) d (enqueue p l d).
Proof. split; [done|]. intros _ sig. unfold total, enqueue. upd_simpl. rewrite in_queues_put. lia. Qed.

Lemma keeps_notify n d : keeps (λ _, 0) d (notify_one n d).
Proof.
  split; [|by intros _; apply total_same].
  intros (H1 & H2 & H3 & H4 & H5 & H6). split_and!; try done; try apply H5; try apply H6.
  unfold notify_one. upd_simpl. eapply waiting_weaken; [exact H4|lia|set_solver|by left].
Qed.

Lemma keeps_watch c d : keeps (λ _, 0) d (watch c d).
Proof. split; [done|]. intros _. by apply total_same. Qed.

(** ** Connecting *)
Lemma least_used d : Inv d → ∃ idx s, get_least_used_endpoint d = Some idx ∧
  endpoints_usage d !! idx = Some s ∧ idx < length (endpoints_usage d).
Proof.
  intros (H & _). unfold get_least_used_endpoint.
  destruct (min_by_key _ (imap pair (endpoints_usage d))) as [[idx s]|] eqn:E.
  - apply min_by_key_spec in E as [Hin _]. apply list_elem_of_lookup in Hin as [i Hi].
    rewrite list_lookup_imap in Hi. destruct (endpoints_usage d !! i) as [s'|] eqn:Ei; [|done].
    cbn in Hi. injection Hi as -> ->. exists idx, s. split_and!; [done|done|].
    by eapply lookup_lt_Some.
  - exfalso. pose proof (at_endpoints _ _ _ _ _ _ H) as Hl.
    destruct (endpoints_usage d) as [|s l]; [cbn in Hl; lia|]. cbn [imap] in E.
    revert E. unfold min_by_key. cbn [foldl].
    generalize (0, s). generalize (imap (pair ∘ S) l). clear.
    intros l. induction l as [|b l IH]; intros a; [done|]. cbn [foldl]. destruct (_ <? _)%N; apply IH.
Qed.

(** The gateway once the attempt [id] of [p] is in flight. *)
Definition attempt_spawned env (p : N) (n idx : nat) (s : gset N) (wait : option N)
    (blocked : list WaitingEviction) (id next : N) d : Gateway :=
  d <| connecting_blocked_by_eviction_list := blocked |>
    <| endpoints_usage ::= <[idx := {[p]} ∪ s]> |>
    <| rt ::= λ r, r <| next_id := next |> |>
    <| connecting_tasks ::= <[id := new_task env p wait idx d]> |>
    <| connecting_remote_peers ::= <[p := id]> |>
    <| connecting_meta ::= <[id := new_meta p n idx d]> |>.

Lemma spawn_task_spec env p n d : Inv d → ∃ idx s wait blocked id next,
  spawn_task env p n d = Some (attempt_spawned env p n idx s wait blocked id next d) ∧
  endpoints_usage d !! idx = Some s ∧ (next_id (rt d) ≤ id < next)%N ∧
  match wait with
  | None => has_connection_capacity env d = true ∧ blocked = connecting_blocked_by_eviction_list d
  | Some w => has_connection_capacity env d = false ∧ (w < next)%N ∧
      blocked = connecting_blocked_by_eviction_list d ++
        [{| we_remote_peer_identity := p; notify := w |}]
  end.
Proof.
  intros H. destruct (least_used d H) as (idx & s & Hl & Hs & Hlt). unfold spawn_task, wait_for_room.
  set (k := next_id (rt d)).
  destruct (has_connection_capacity env d) eqn:Ecap; cbn [fresh].
  - exists idx, s, None, (connecting_blocked_by_eviction_list d), k, (N.succ k).
    rewrite Hl. cbn [mbind option_bind]. unfold update_endpoint_usage. rewrite Hs. cbn [mbind option_bind fresh].
    split; [by destruct d as [? ? ? ? ? ? ? ? ? ? ? ? ? ? ? ? [? ? ? ? ?]]|]. split_and!; try done; lia.
  - set (blocked := connecting_blocked_by_eviction_list d ++ [{| we_remote_peer_identity := p; notify := k |}]).
    exists idx, s, (Some k), blocked, (N.succ k), (N.succ (N.succ k)).
    assert (∀ f g, get_least_used_endpoint (d <| rt ::= f |> <| connecting_blocked_by_eviction_list ::= g |>)
                  = get_least_used_endpoint d) as El by done.
    rewrite El, Hl. cbn [mbind option_bind]. unfold update_endpoint_usage. upd_simpl. rewrite Hs.
    cbn [mbind option_bind fresh].
    split; [by destruct d as [? ? ? ? ? ? ? ? ? ? ? ? ? ? ? ? [? ? ? ? ?]]|]. split_and!; try done; lia.
Qed.

Lemma inv_attempt_spawned env p n idx s wait blocked id next d :
  Inv d → connecting_remote_peers d !! p = None → tx_worker_handle_map d !! p = None →
  endpoints_usage d !! idx = Some s → (next_id (rt d) ≤ id < next)%N →
  (∀ w, w ∈ connecting_blocked_by_eviction_list d → w ∈ blocked) →
  (∀ w, wait = Some w → (w < next)%N ∧ {| we_remote_peer_identity := p; notify := w |} ∈ blocked) →
  Inv (attempt_spawned env p n idx s wait blocked id next d).
Proof.
  intros (H1 & H2 & H3 & H4 & H5 & H6) Hp Hh Hs Hid Hb Hw. unfold Inv, attempt_spawned. upd_simpl.
  split_and!.
  - rewrite length_insert. eapply attempts_spawn; [exact H1|done..|]. cbn. by eapply lookup_lt_Some.
  - eapply workers_next; [exact H2|lia|done].
  - intros q Hq. rewrite lookup_insert_ne; [by apply H3|]. intros <-. rewrite Hh in Hq. by destruct Hq.
  - eapply waiting_spawn; [eapply waiting_weaken; [exact H4|reflexivity|done|auto]|lia|].
    cbn. destruct wait; [|done]. by apply Hw.
  - apply H5.
  - apply H5.
  - eapply tasklets_next; [exact H6|lia].
Qed.

(** [spawn_connecting] on every branch. *)
Lemma spawn_connecting_spec env p n d : Inv d → ∃ d', spawn_connecting env p n d = Some d' ∧
  ((d' = d ∧ (is_Some (connecting_remote_peers d !! p) ∨ is_Some (tx_worker_handle_map d !! p))) ∨
   (p ∈ being_evicted_peers d ∧ d' = drop_peer_queued_tx p GwRemotePeerBeingEvicted d) ∨
   ((p ∉ being_evicted_peers d ∧ connecting_remote_peers d !! p = None ∧ tx_worker_handle_map d !! p = None) ∧ Inv d' ∧
    ∃ idx s wait blocked id next, d' = attempt_spawned env p n idx s wait blocked id next d)).
Proof.
  intros H. unfold spawn_connecting.
  destruct (decide _) as [Hc|Hc]; [by eauto 6|]. destruct (decide _) as [He|He]; [by eauto 6|].
  destruct (decide _) as [Hh|Hh]; [by eauto 6|]. apply eq_None_not_Some in Hc, Hh.
  destruct (spawn_task_spec env p n d H) as (idx & s & wait & blocked & id & next & -> & Hs & Hid & Hw).
  eexists. split; [done|]. right. right. split; [done|]. split; [|by eauto 10].
  apply inv_attempt_spawned; try done; destruct wait as [w|].
  - destruct Hw as (_ & _ & ->). intros v Hv. apply elem_of_app. by left.
  - by destruct Hw as (_ & ->).
  - intros ? [= <-]. destruct Hw as (_ & Hlt & ->). split; [done|]. apply elem_of_app. right. by left.
  - done.
Qed.

Lemma sound_spawn_connecting (A : Prop) env p n d : (A → is_Some (last_peer_activity d !! p)) →
  sound A d (spawn_connecting env p n d).
Proof.
  intros Hp H. destruct (spawn_connecting_spec env p n d H) as (d' & -> & [[-> _]|[[_ ->]|(_ & Hi & Heq)]]).
  - by apply sound_ret.
  - by apply sound_drop_peer.
  - exists d'. destruct Heq as (idx & s & wait & blocked & id & next & ->). split_and!; [done| |].
    + split; [done|]. intros _. by apply total_same.
    + intros HA _ Ha q. unfold attempt_spawned. upd_simpl. rewrite lookup_insert_is_Some.
      intros [Hq|[<-|[_ Hq]]]; [apply Ha; by left|by apply Hp|apply Ha; by right].
Qed.

(** ** Evictions *)
Lemma evict_peer_frame p d :
  (keeps (λ _, 0) d (evict_peer p d)) ∧ keeps_active d (evict_peer p d).
Proof.
  unfold evict_peer. destruct (tx_worker_handle_map d !! p) as [h|]; [|by split; [apply keeps_refl|apply active_refl]].
  pose proof (keeps_notify (h_cancel_notify h) d) as [Hk Ht].
  split; [|by intros ? ?]. split; [exact Hk|]. intros H. exact (Ht H).
Qed.

Lemma evict_all_frame l d :
  let d' := foldl (λ d p, evict_peer p d) d l in keeps (λ _, 0) d d' ∧ keeps_active d d'.
Proof.
  cbv zeta. revert d. induction l as [|p l IH]; intros d; cbn [foldl]; [by split; [apply keeps_refl|apply active_refl]|].
  destruct (evict_peer_frame p d) as [Hk Ha]. destruct (IH (evict_peer p d)) as [Hk' Ha'].
  split; [by eapply keeps_0|]. intros H HA. apply Ha'; [by apply Hk|by apply Ha].
Qed.

Lemma eviction_keeps env now d d' : do_eviction_if_required env now d = Some d' →
  keeps (λ _, 0) d d' ∧ keeps_active d d'.
Proof.
  unfold do_eviction_if_required. destruct (decide _); [intros [= <-]; by split; [apply keeps_refl|apply active_refl]|].
  destruct (plan_eviction _ _ _ _ _ _) as [plan|]; [|done]. intros [= <-]. apply evict_all_frame.
Qed.

Lemma eviction_defined env now d : Inv d → Active d → is_Some (do_eviction_if_required env now d).
Proof.
  intros (_ & _ & _ & _ & [Hwf _] & _) HA. unfold do_eviction_if_required.
  destruct (decide _); [by eexists|].
  destruct (plan_eviction_defined (eviction_strategy env) now (active_staked_sorted_remote_peer d)
    (last_peer_activity d) (being_evicted_peers d) (eviction_count_required d)) as [plan ->]; [done| |by eexists].
  intros p Hp. apply HA. by left.
Qed.

(** ** Workers *)
Lemma keeps_spawn_worker env p conn d :
  tx_worker_handle_map d !! p = None → connecting_remote_peers d !! p = None →
  is_Some (StakedSet.peer_stake_map (active_staked_sorted_remote_peer d) !! p) →
  keeps (λ _, 0) d (spawn_worker env p conn d).
Proof.
  intros Hh Hp Hs. split.
  - intros (H1 & H2 & H3 & H4 & [H5 H5'] & H6). unfold Inv, spawn_worker. upd_simpl. split_and!.
    + eapply attempts_next; [exact H1|lia].
    + rewrite dom_insert_L. by eapply workers_install.
    + intros q. rewrite lookup_insert_is_Some. intros [<-|[_ Hq]]; [done|by apply H3].
    + eapply waiting_weaken; [exact H4|lia|done|by left].
    + done.
    + intros q. rewrite lookup_insert_is_Some. intros [<-|[_ Hq]]; [done|by apply H5'].
    + eapply tasklets_next; [exact H6|lia].
  - intros (_ & H2 & _) sig. unfold total, spawn_worker. upd_simpl.
    pose proof (in_queues_delete sig (tx_queues d) p) as Hq.
    unfold in_workers, in_channels. rewrite !map_sum_insert_None.
    + rewrite buffered_channel. cbn [JetWorker.tx_queue new_worker]. change (count_txns sig []) with 0. lia.
    + destruct (tx_worker_set d !! _) eqn:E; [|done].
      assert (next_id (rt d) + 2 < next_id (rt d))%N; [|lia].
      apply (wk_fresh _ _ _ _ _ _ H2), (wk_task _ _ _ _ _ _ H2). eauto.
    + apply not_elem_of_dom. intros Hin%(wk_chan _ _ _ _ _ _ H2). lia.
Qed.

(** ** Connection results *)
Lemma forget_connecting_spec id t m d : Inv d → connecting_tasks d !! id = Some t →
  connecting_meta d !! id = Some m →
  ∃ d', forget_connecting id m (d <| connecting_tasks ::= delete id |>) = Some d' ∧
    keeps (λ _, 0) d d' ∧ keeps_active d d' ∧ Inv d' ∧
    connecting_remote_peers d' = delete (remote_peer_identity m) (connecting_remote_peers d) ∧
    tx_worker_handle_map d' !! remote_peer_identity m = None ∧
    tx_worker_handle_map d' = tx_worker_handle_map d ∧
    last_peer_activity d' = last_peer_activity d ∧ identity d' = identity d ∧
    tx_queues d' = tx_queues d ∧ being_evicted_peers d' = being_evicted_peers d ∧ responses (rt d') = responses (rt d).
Proof.
  intros H Ht Hm. pose proof H as (H1 & H2 & H3 & H4 & H5 & H6).
  destruct (at_meta _ _ _ _ _ _ H1 id m Hm) as [_ Hidx].
  destruct (lookup_lt_is_Some_2 _ _ Hidx) as [s Hs].
  assert (connecting_remote_peers d !! remote_peer_identity m = Some id) as Hp
    by (apply (at_peer _ _ _ _ _ _ H1); eauto).
  unfold forget_connecting, update_endpoint_usage. upd_simpl. rewrite Hs. cbn [mbind option_bind].
  eexists. split; [done|]. upd_simpl.
  match goal with |- _ ∧ _ ∧ Inv ?d' ∧ _ => assert (Inv d') as Hi; [|set (d2 := d') in *] end.
  { unfold Inv. upd_simpl. rewrite length_insert. split_and!; [by apply attempts_forget|done| | |apply H5|apply H5|done].
    - intros q Hq%H3. by rewrite lookup_delete_None; right.
    - by apply waiting_forget. }
  assert (keeps (λ _, 0) d d2) as Hk by (split; [done|]; intros _; by apply total_same).
  assert (keeps_active d d2) as Ha.
  { intros _ HA q Hq. apply HA. revert Hq. unfold d2. upd_simpl. rewrite lookup_delete_is_Some.
    intros [Hq|[_ Hq]]; [by left|by right]. }
  split; [exact Hk|]. split; [exact Ha|]. split_and!; try done.
  - destruct (tx_worker_handle_map d !! remote_peer_identity m) eqn:E; [|done].
    rewrite H3 in Hp; [done|by eexists].
Qed.

Lemma sound_connected (A : Prop) env p conn d : connecting_remote_peers d !! p = None →
  tx_worker_handle_map d !! p = None → (A → is_Some (last_peer_activity d !! p)) →
  sound A d (connected env p conn d).
Proof.
  intros Hp Hh Hact. unfold connected, Peers.insert. set (stake := default 0%N _).
  set (d1 := d <| active_staked_sorted_remote_peer ::= λ s, (StakedSet.insert p stake s).2 |>).
  set (d2 := watch (Driver.RegisterWatch p (remote_address conn)) d1).
  assert (keeps (λ _, 0) d d2) as Hk.
  { apply (keeps_0 _ d1); [|apply keeps_watch]. split; [|by intros _; apply total_same].
    intros (H1 & H2 & H3 & H4 & [H5 H5'] & H6). split_and!; try done; try apply H6.
    - unfold d1. upd_simpl. by apply StakedSet.staked_insert_wf.
    - unfold d1. upd_simpl. intros q Hq%H5'. rewrite StakedSet.insert_abs, lookup_insert_is_Some.
      destruct (decide (p = q)); [by left|by right]. }
  assert (A → keeps_active d d2) as Ha.
  { intros HA _ Hd q. unfold d2, d1, watch. upd_simpl. rewrite StakedSet.insert_abs, lookup_insert_is_Some.
    intros [[<-|[_ Hq]]|Hq]; [by apply Hact|apply Hd; by left|apply Hd; by right]. }
  eapply sound_after; [exact Hk|exact Ha|]. unfold install_worker.
  assert (tx_worker_handle_map d2 !! p = None) as -> by done.
  apply sound_pure; [|by intros _ ? ?]. apply keeps_spawn_worker; [done..|].
  unfold d2, d1, watch. upd_simpl. rewrite StakedSet.insert_abs, lookup_insert_eq. by eexists.
Qed.

Lemma sound_attempt_failed (A : Prop) env m e d : e ≠ JConnectError EndpointStopping →
  (A → is_Some (last_peer_activity d !! remote_peer_identity m)) →
  sound A d (attempt_failed env m e d).
Proof.
  intros He Hact. unfold attempt_failed, unreachable_peer.
  destruct e as [[]|ce|]; [done|apply sound_drop_peer| |apply sound_drop_peer].
  case_decide; [by apply sound_spawn_connecting|apply sound_drop_peer].
Qed.

Definition join_id {T} (r : JoinResult T) : N := match r with JoinOk id _ | JoinErr id => id end.

(** The attempt that ended is one in flight, which no longer waits, and the
    endpoint was not being shut down. *)
Definition valid_connecting (r : JoinResult (Connection + ConnectingError)) d : Prop :=
  ∃ t, connecting_tasks d !! join_id r = Some t ∧ released (notified (rt d)) t ∧
    match r with
    | JoinOk _ res => ∃ (service : Tpu) dial, res = connecting_run service dial t ∧
        connect_with dial ≠ Some EndpointStopping
    | JoinErr _ => True
    end.

Lemma sound_connecting_result env r d :
  valid_connecting r d → sound True d (handle_connecting_result env r d).
Proof.
  intros (t & Ht & _ & Hr) H. unfold handle_connecting_result.
  destruct (proj1 (at_task _ _ _ _ _ _ (proj1 H) (join_id r))) as [m Hm]; [by eexists|].
  destruct (forget_connecting_spec (join_id r) t m d H Ht Hm)
    as (d' & Hf & Hk & Ha & Hi & Hp & Hh & Hhs & Hl & Hid & _).
  assert (Active d → is_Some (last_peer_activity d' !! remote_peer_identity m)) as Hact.
  { intros HA. rewrite Hl. apply HA. right. exists (join_id r).
    apply (at_peer _ _ _ _ _ _ (proj1 H)). eauto. }
  assert (connecting_remote_peers d' !! remote_peer_identity m = None) as Hpn
    by (rewrite Hp; apply lookup_delete_eq).
  enough (sound (Active d) d (handle_connecting_result env r d)) as Hs.
  { destruct (Hs H) as (d2 & E & Hk2 & Ha2). exists d2. split_and!; [exact E|done|].
    intros _ _ HA. by apply Ha2. }
  unfold handle_connecting_result. destruct r as [id res|id]; cbn [join_id] in *; upd_simpl; rewrite Hm; cbn [mbind option_bind];
    rewrite Hf; (eapply sound_after; [exact Hk|intros _; exact Ha|]).
  - destruct Hr as (service & dial & -> & Hstop). cbn [mbind option_bind].
    case_decide; [by apply sound_spawn_connecting|].
    destruct (connecting_run service dial t) as [conn|e] eqn:Er; [by apply sound_connected|].
    apply sound_attempt_failed; [|done]. intros ->. revert Er. unfold connecting_run.
    destruct (Types.get_quic_dest_addr _ _ _); [|done].
    destruct (connect_with dial) as [[]|] eqn:Ew; [done|done|].
    by destruct (handshake dial) as [[|]|].
  - apply sound_ret.
Qed.

(** ** Worker results *)
Definition completed_of (w : JetWorker.QuicTxSenderWorker)
    (completed : JetWorker.TxSenderWorkerCompleted) : Prop :=
  JetWorker.rx completed = JetWorker.incoming_rx w ∧ JetWorker.pending_tx completed = JetWorker.tx_queue w.

Lemma notify_all_eq ns d : foldl (λ d n, notify_one n d) d ns =
  d <| rt ::= λ r, r <| notified ::= union (list_to_set ns) |> |>.
Proof.
  revert d. induction ns as [|n ns IH]; intros d; cbn [foldl].
  - change (list_to_set []) with (∅ : gset N).
    destruct d as [? ? ? ? ? ? ? ? ? ? ? ? ? ? ? ? [? ? no ? ?]]. unfold modify. cbn -[union empty].
    by rewrite (left_id_L ∅ (∪) no).
  - rewrite IH. change (list_to_set (n :: ns)) with ({[n]} ∪ list_to_set ns : gset N).
    destruct d as [? ? ? ? ? ? ? ? ? ? ? ? ? ? ? ? [? ? no ? ?]].
    unfold notify_one, modify. cbn -[union list_to_set singleton]. do 2 f_equal.
    rewrite (assoc_L (∪)). f_equal. apply (comm_L (∪)).
Qed.

Lemma release_spec connecting l ns l' : release connecting l = (ns, l') →
  ∀ w, w ∈ l → w ∈ l' ∨ notify w ∈ ns.
Proof.
  revert ns l'. induction l as [|v l IH]; intros ns l'; cbn [release]; [intros [= <- <-] w; by left|].
  destruct (decide _).
  - intros [= <- <-] w [->|Hw]%elem_of_cons; [right; by left|by left].
  - destruct (release connecting l) as [ms k]. intros [= <- <-] w [->|Hw]%elem_of_cons; [right; by left|].
    destruct (IH ms k eq_refl w Hw); [by left|right; by right].
Qed.

(** The gateway once the worker [id] of [p] has left. *)
Definition worker_gone (id p chan : N) (ns : list N) (l : list WaitingEviction) d : Gateway :=
  d <| tx_worker_set ::= delete id |> <| tx_worker_task_meta_map ::= delete id |>
    <| active_staked_sorted_remote_peer ::= λ s, (StakedSet.remove p s).2 |>
    <| connecting_blocked_by_eviction_list := l |>
    <| being_evicted_peers ::= λ s, s ∖ {[p]} |>
    <| tx_worker_handle_map ::= delete p |> <| last_peer_activity ::= delete p |>
    <| rt ::= λ r, r <| watcher_cmds ::= λ c, c ++ [Driver.DeregisterWatch p] |>
                     <| notified ::= union (list_to_set ns) |> <| channels ::= delete chan |> |>.

Definition left_in_channel (chan : N) d : list GatewayTransaction :=
  from_option (λ c, (recv_all c).1) [] (channels (rt d) !! chan).

Lemma jet_worker_result_eq env now id completed d p h ns l :
  tx_worker_task_meta_map d !! id = Some p → tx_worker_handle_map d !! p = Some h →
  release (connecting_remote_peers d) (connecting_blocked_by_eviction_list d) = (ns, l) →
  handle_worker_result env now (JoinOk id completed) d =
  after_worker env now p (JetWorker.err completed) (bool_decide (p ∈ being_evicted_peers d))
    (enqueue p (((λ tx, (tx, 1)) <$> left_in_channel (JetWorker.rx completed) d)
                  ++ JetWorker.pending_tx completed)
       (worker_gone id p (JetWorker.rx completed) ns l d)).
Proof.
  intros Hm Hp Er.
  unfold handle_worker_result, worker_ended, unblock_eviction_waiting_connection. upd_simpl. rewrite Hm.
  cbn [mbind option_bind].
  set (dw := watch (Driver.DeregisterWatch p) _).
  assert (connecting_remote_peers dw = connecting_remote_peers d) as -> by done.
  assert (connecting_blocked_by_eviction_list dw = connecting_blocked_by_eviction_list d) as -> by done.
  rewrite Er, notify_all_eq. upd_simpl.
  assert (tx_worker_handle_map dw = tx_worker_handle_map d) as -> by done. rewrite Hp. cbn [mbind option_bind].
  unfold dw, watch, drain_channel, worker_gone, left_in_channel, Peers.remove.
  by destruct d as [? ? ? ? ? ? ? ? ? ? ? ? ? ? ? ? [? ? ? ? ?]].
Qed.

Lemma worker_gone_spec id p h w d ns l :
  Inv d → tx_worker_task_meta_map d !! id = Some p → tx_worker_handle_map d !! p = Some h →
  tx_worker_set d !! id = Some w →
  release (connecting_remote_peers d) (connecting_blocked_by_eviction_list d) = (ns, l) →
  Inv (worker_gone id p (JetWorker.incoming_rx w) ns l d) ∧
  keeps_active d (worker_gone id p (JetWorker.incoming_rx w) ns l d) ∧
  ∀ sig, total sig (worker_gone id p (JetWorker.incoming_rx w) ns l d) +
    count_txns sig (left_in_channel (JetWorker.incoming_rx w) d) + count_queue sig (JetWorker.tx_queue w)
    = total sig d.
Proof.
  intros H Hm Hp Hw Hr. pose proof H as (H1 & H2 & H3 & H4 & [H5 H5'] & H6).
  pose proof (release_spec _ _ _ _ Hr) as Hrel. split_and!.
  - unfold Inv, worker_gone. upd_simpl. split_and!; [done| | | | | |done].
    + eapply workers_next; [by apply workers_forget|done|]. intros c. rewrite dom_delete_L. set_solver.
    + intros q [_ Hq]%lookup_delete_is_Some. by apply H3.
    + eapply waiting_weaken; [exact H4|done|set_solver|]. intros v Hv.
      destruct (Hrel v Hv); [by left|right]. apply elem_of_union_l, elem_of_list_to_set. done.
    + by apply StakedSet.staked_remove_wf.
    + intros q [Hne Hq]%lookup_delete_is_Some. rewrite StakedSet.remove_abs, lookup_delete_is_Some.
      split; [done|by apply H5'].
  - intros _ HA q. unfold worker_gone. upd_simpl. rewrite StakedSet.remove_abs, !lookup_delete_is_Some.
    assert (connecting_remote_peers d !! p = None) as Hc by (apply H3; by eexists).
    intros [[Hne Hq]|Hq]; (split; [|apply HA; auto]); [done|]. intros <-. rewrite Hc in Hq. by destruct Hq.
  - intros sig. unfold total, worker_gone, left_in_channel. upd_simpl. unfold in_workers.
    rewrite (map_sum_delete _ (tx_worker_set d) id w Hw).
    pose proof (map_sum_delete_opt (λ c : Ch, count_txns sig (buffered c)) (channels (rt d))
      (JetWorker.incoming_rx w)) as Hd.
    unfold in_channels. destruct (channels (rt d) !! _) as [ch|]; cbn [from_option] in *.
    + rewrite recv_all_buffered. lia.
    + change (count_txns sig []) with 0. lia.
Qed.

Lemma sound_after_worker env now p e b d : sound True d (after_worker env now p e b d).
Proof.
  unfold after_worker, unreachable_peer. destruct (is_peer_unreachable e); [apply sound_drop_peer|].
  destruct b; [apply sound_drop_peer|]. case_decide; [|apply sound_ret].
  set (d' := d <| last_peer_activity ::= <[p := now]> |>).
  apply (sound_after True d d').
  - split; [done|]. intros _. by apply total_same.
  - intros _ _ HA q Hq. unfold d'. upd_simpl. rewrite lookup_insert_is_Some.
    destruct (decide (p = q)); [by left|right]. split; [done|]. by apply HA.
  - apply sound_spawn_connecting. intros _. unfold d'. upd_simpl. rewrite lookup_insert_eq. by eexists.
Qed.

Lemma sound_rescued env now p e b l d : Inv d → ∃ d',
  after_worker env now p e b (enqueue p l d) = Some d' ∧ Inv d' ∧ (Active d → Active d') ∧
  ∀ sig, total sig d' = total sig d + count_queue sig l.
Proof.
  intros H. destruct (keeps_enqueue p l d) as [Hq Hqt]. specialize (Hq H).
  assert (Active d → Active (enqueue p l d)) as Hqa by done.
  destruct (sound_after_worker env now p e b (enqueue p l d) Hq) as (d' & E & [Hk Hkt] & Ha').
  exists d'. split_and!; [exact E|by apply Hk|by intros HA; apply Ha'; [|exact Hq|apply Hqa]|].
  intros sig. rewrite (Hkt Hq), (Hqt H). lia.
Qed.

Lemma sound_worker_result env now id completed w d :
  tx_worker_set d !! id = Some w → completed_of w completed →
  sound True d (handle_worker_result env now (JoinOk id completed) d).
Proof.
  intros Hw [Hrx Hpend] H. pose proof H as (_ & H2 & _).
  destruct (proj1 (wk_task _ _ _ _ _ _ H2 id)) as [p Hm]; [by eexists|].
  destruct (wk_meta _ _ _ _ _ _ H2 id p Hm) as (h & w' & Hp & _ & _).
  destruct (release (connecting_remote_peers d) (connecting_blocked_by_eviction_list d)) as [ns l] eqn:Er.
  rewrite (jet_worker_result_eq env now id completed d p h ns l Hm Hp Er), Hrx, Hpend.
  destruct (worker_gone_spec id p h w d ns l H Hm Hp Hw Er) as (Hi & Ha & Ht).
  revert Hi Ha Ht. generalize (worker_gone id p (JetWorker.incoming_rx w) ns l d).
  intros d1 Hi Ha Ht.
  edestruct (sound_rescued env now p (JetWorker.err completed) (bool_decide (p ∈ being_evicted_peers d)))
    as (d' & E & Hi' & Ha' & Ht'); [exact Hi|].
  exists d'. split; [exact E|]. split; [split; [done|]|].
  - intros _ sig. rewrite Ht', count_queue_app, count_queue_attempt1. specialize (Ht sig). lia.
  - intros _ _ HA. by apply Ha', Ha.
Qed.

(** ** Incoming transactions *)
Lemma keeps_set_channel chan c c' d : channels (rt d) !! chan = Some c →
  (Inv d → Inv (set_channel chan c' d)) ∧
  ∀ sig, total sig (set_channel chan c' d) + count_txns sig (buffered c) =
    total sig d + count_txns sig (buffered c').
Proof.
  intros Hc. split.
  - intros (H1 & H2 & H3 & H4 & H5 & H6). unfold Inv, set_channel. upd_simpl.
    split_and!; try done; try apply H5; try apply H6.
    eapply workers_next; [exact H2|done|]. rewrite dom_insert_lookup_L by (by eexists). done.
  - intros sig. unfold set_channel, total. upd_simpl. unfold in_channels.
    pose proof (map_sum_insert (λ c : Ch, count_txns sig (buffered c)) (channels (rt d)) chan c') as Hs.
    rewrite Hc in Hs. cbn [from_option] in Hs. lia.
Qed.

(** The worker's channel takes the transaction, or it is answered or queued. *)
Lemma try_send_to_spec chan tx d : Inv d →
  let '(res, d') := try_send_to chan tx d in
  Inv d' ∧ last_peer_activity d' = last_peer_activity d ∧ keeps_active d d' ∧
  ∀ sig, total sig d' = total sig d + match res with SendOk => txn_is sig tx | _ => 0 end.
Proof.
  intros H. unfold try_send_to. destruct (channels (rt d) !! chan) as [c|] eqn:Ec.
  2:{ split_and!; [done|done|apply active_refl|intros; lia]. }
  pose proof (try_send_spec tx c) as Hspec. destruct (try_send tx c) as [res c'].
  destruct (keeps_set_channel chan c c' d Ec) as [Hk Ht]. split_and!; [by apply Hk|done|by intros ? ?|].
  intros sig. specialize (Ht sig). destruct res.
  - destruct Hspec as (Hb & _). rewrite Hb, count_txns_app in Ht.
    change (count_txns sig [tx]) with (txn_is sig tx + 0) in Ht. lia.
  - destruct Hspec as (-> & _). lia.
  - destruct Hspec as (-> & _). lia.
Qed.

Lemma accept_sound env now tx d : Inv d → ∃ d', accept_tx env now tx d = Some d' ∧ Inv d' ∧
  (Active d → Active d') ∧ ∀ sig, total sig d' = total sig d + txn_is sig tx.
Proof.
  intros H. unfold accept_tx. set (p := Txn.remote_peer tx).
  set (d1 := d <| last_peer_activity ::= <[p := now]> |>).
  assert (Inv d1) as H1 by done.
  assert (∀ sig, total sig d1 = total sig d) as Ht1 by done.
  assert (is_Some (last_peer_activity d1 !! p)) as Hp
    by (unfold d1; upd_simpl; rewrite lookup_insert_eq; by eexists).
  assert (Active d → Active d1) as Ha1.
  { intros HA q Hq. unfold d1. upd_simpl. rewrite lookup_insert_is_Some.
    destruct (decide (p = q)); [by left|right]. split; [done|]. by apply HA. }
  clearbody d1. assert (∀ sig, count_queue sig [(tx, 1)] = txn_is sig tx) as Hone
    by (intros sig; unfold count_queue; cbn; lia).
  destruct (tx_worker_handle_map d1 !! p) as [h|].
  - pose proof (try_send_to_spec (sender h) tx d1 H1) as Hsend.
    destruct (try_send_to (sender h) tx d1) as [[] d2]; destruct Hsend as (H2 & _ & Ha2 & Ht2).
    + exists d2. split_and!; [done|done|by intros HA; apply Ha2, Ha1|]. intros sig. by rewrite Ht2, Ht1.
    + destruct (keeps_respond (GwTxDrop p GwRateLimited [(tx, 1)]) d2) as [Hk Hkt].
      eexists. split_and!; [done|by apply Hk|by intros HA; apply Ha2, Ha1|].
      intros sig. rewrite (Hkt H2), Ht2, Ht1. cbn [JetWorker.count_gw_response]. rewrite Hone. lia.
    + destruct (keeps_enqueue p [(tx, 1)] d2) as [Hk Hkt].
      eexists. split_and!; [done|by apply Hk|by intros HA; apply Ha2, Ha1|].
      intros sig. rewrite (Hkt H2), Ht2, Ht1, Hone. lia.
  - destruct (keeps_enqueue p [(tx, 1)] d1) as [Hk Hkt]. specialize (Hk H1).
    assert (Active d1 → Active (enqueue p [(tx, 1)] d1)) as Hqa by done.
    assert (is_Some (last_peer_activity (enqueue p [(tx, 1)] d1) !! p)) as Hp2 by done.
    revert Hk Hkt Hqa Hp2. generalize (enqueue p [(tx, 1)] d1). intros d2 H2 Ht2 Ha2 Hp2.
    assert (sound True d2 (if decide (is_Some (connecting_remote_peers d2 !! p)) then Some d2
      else spawn_connecting env p 1 d2)) as Hs
      by (case_decide; [apply sound_ret|by apply sound_spawn_connecting]).
    destruct (Hs H2) as (d' & E & [Hk Hkt] & Ha). exists d'.
    split_and!; [done|by apply Hk|by intros HA; apply Ha; [|exact H2|apply Ha2, Ha1]|].
    intros sig. rewrite (Hkt H2), (Ht2 H1), Ht1, Hone. lia.
Qed.

(** ** Identity changes *)
Lemma attempts_empty endpoints next ident : 0 < endpoints → attempts_inv ∅ ∅ ∅ endpoints next ident.
Proof.
  intros He. split; [| | | |done].
  - intros id. by rewrite !lookup_empty, !is_Some_alt.
  - intros id [? Hx]. by rewrite lookup_empty in Hx.
  - intros p id. rewrite lookup_empty. split; [done|]. intros (m & Hm & _). by rewrite lookup_empty in Hm.
  - intros id m. by rewrite lookup_empty.
Qed.

Lemma workers_empty chans next ident : (∀ c, c ∈ chans → (c < next)%N) → workers_inv ∅ ∅ ∅ chans next ident.
Proof.
  intros Hc. split; [| | | | |done].
  - intros id. by rewrite !lookup_empty, !is_Some_alt.
  - intros id [? Hx]. by rewrite lookup_empty in Hx.
  - intros id id' p. by rewrite lookup_empty.
  - intros id p. by rewrite lookup_empty.
  - intros p h. by rewrite lookup_empty.
Qed.

Lemma schedule_graceful_drop_spec d :
  let d' := schedule_graceful_drop_all_worker d in
  keeps (λ _, 0) d d' ∧ keeps_active d d' ∧ tx_worker_handle_map d' = ∅.
Proof.
  cbv zeta. split_and!; [|by intros ? ?|done]. split.
  - intros (H1 & H2 & H3 & H4 & [H5 _] & H6).
    unfold Inv, schedule_graceful_drop_all_worker. cbn [fresh]. upd_simpl. split_and!.
    + eapply attempts_next; [exact H1|lia].
    + apply workers_empty. intros c Hc%(wk_chan _ _ _ _ _ _ H2). lia.
    + intros p. rewrite lookup_empty. by intros [? ?].
    + eapply waiting_weaken; [exact H4|lia|done|by left].
    + done.
    + intros p. rewrite lookup_empty. by intros [? ?].
    + apply tasklets_add; [exact H6|]. intros id. apply (wk_task _ _ _ _ _ _ H2).
  - intros (_ & _ & _ & _ & _ & [_ H6]) sig. unfold total, schedule_graceful_drop_all_worker. cbn [fresh].
    upd_simpl. rewrite map_sum_insert_None.
    + unfold in_workers at 1. rewrite map_sum_empty. cbn [gd_worker_set]. lia.
    + destruct (tasklet d !! next_id (rt d)) as [gd|] eqn:E; [|done]. destruct (H6 _ _ E). lia.
Qed.

Lemma install_identity_spec k d : Inv d →
  let '(metas, d') := install_identity k d in
  metas = connecting_meta d ∧ Inv d' ∧ (Active d → Active d') ∧ (∀ sig, total sig d' = total sig d) ∧
  last_peer_activity d' = last_peer_activity d ∧ identity d' = k ∧ tx_worker_handle_map d' = ∅ ∧
  connecting_remote_peers d' = ∅ ∧ being_evicted_peers d' = being_evicted_peers d ∧
  tx_queues d' = tx_queues d.
Proof.
  intros H. destruct (schedule_graceful_drop_spec d) as ([Hk Ht] & Ha & Hh).
  specialize (Hk H). pose proof (Ht H) as Ht'. unfold install_identity.
  assert (connecting_meta (schedule_graceful_drop_all_worker d) = connecting_meta d) as Hm by done.
  assert (last_peer_activity (schedule_graceful_drop_all_worker d) = last_peer_activity d) as Hl by done.
  assert (being_evicted_peers (schedule_graceful_drop_all_worker d) = being_evicted_peers d) as Hb by done.
  assert (tx_queues (schedule_graceful_drop_all_worker d) = tx_queues d) as Hq by done.
  assert (tx_worker_task_meta_map (schedule_graceful_drop_all_worker d) = ∅ ∧
          tx_worker_set (schedule_graceful_drop_all_worker d) = ∅) as [Hw1 Hw2] by done.
  revert Hk Ht' Hm Hl Hb Hq Hw1 Hw2 Hh Ha. generalize (schedule_graceful_drop_all_worker d). intros d1.
  intros (H1 & H2 & H3 & H4 & H5 & H6) Ht' Hm Hl Hb Hq Hw1 Hw2 Hh Ha. upd_simpl.
  split; [done|]. split; [|split; [|split; [|by rewrite Hh]]].
  - unfold Inv. upd_simpl. split_and!; [| |done| |apply H5|apply H5|done].
    + apply attempts_empty, (at_endpoints _ _ _ _ _ _ H1).
    + rewrite Hh, Hw1, Hw2. apply workers_empty, (wk_chan _ _ _ _ _ _ H2).
    + split; intros ? ? ?; by rewrite lookup_empty.
  - intros HA q. upd_simpl. rewrite lookup_empty. intros [Hq'|[? ?]]; [|done]. apply (Ha H HA). by left.
  - intros sig. transitivity (total sig d1); [done|]. rewrite Ht'. lia.
Qed.

Lemma last_activity_same env p n d d' : Inv d → spawn_connecting env p n d = Some d' →
  last_peer_activity d' = last_peer_activity d.
Proof.
  intros H E. destruct (spawn_connecting_spec env p n d H) as (d2 & E2 & Hcases).
  assert (d2 = d') as -> by congruence.
  destruct Hcases as [[-> _]|[[_ ->]|(_ & _ & idx & s & wait & blocked & id & next & ->)]]; [done| |done].
  unfold drop_peer_queued_tx. by destruct (tx_queues d !! p).
Qed.

Lemma replay_sound (A : Prop) env l d :
  (A → ∀ m, m ∈ l → is_Some (last_peer_activity d !! remote_peer_identity m)) →
  sound A d (for_each (λ m, spawn_connecting env (remote_peer_identity m) (connection_attempt m)) l d).
Proof.
  revert d. induction l as [|m l IH]; intros d Hl; [apply sound_ret|]. cbn [for_each]. intros H.
  assert (sound A d (spawn_connecting env (remote_peer_identity m) (connection_attempt m) d)) as Hs
    by (apply sound_spawn_connecting; intros HA; apply Hl; [done|by left]).
  pose proof (λ d', last_activity_same env (remote_peer_identity m) (connection_attempt m) d d' H) as Hla.
  revert H. apply sound_bind; [exact Hs|]. intros d' Hd' H'. apply IH; [|done].
  intros HA m' Hm'. destruct (spawn_connecting env _ _ d) as [d2|]; [|done]. injection Hd' as ->.
  rewrite (Hla d' eq_refl). apply Hl; [done|by right].
Qed.

Lemma update_identity_sound env k d : sound True d (update_identity env k d).
Proof.
  intros H. unfold update_identity. pose proof (install_identity_spec k d H) as Hi.
  destruct (install_identity k d) as [metas d1]. destruct Hi as (-> & H1 & Ha & Ht & Hl & _).
  destruct (replay_sound (Active d) env (map_iter (connecting_meta d)).*2 d1) with (2 := H1)
    as (d' & E & [Hk Hkt] & Ha').
  - intros HA m ([id m'] & -> & Hm)%list_elem_of_fmap. apply elem_of_map_iter in Hm. rewrite Hl.
    apply HA. right. exists id. apply (at_peer _ _ _ _ _ _ (proj1 H)). eauto.
  - exists d'. split; [exact E|]. split; [split; [by intros _; apply Hk|]|].
    + intros _ sig. rewrite (Hkt H1), Ht. lia.
    + intros _ _ HA. apply Ha'; [done|done|by apply Ha].
Qed.

(** ** Detached tasks, address changes, predictions *)
Lemma tasklet_result_sound r d : Inv d → is_Some (tasklet d !! join_id r) →
  let d' := d <| tasklet ::= delete (join_id r) |> <| tasklet_meta ::= λ s, s ∖ {[join_id r]} |> in
  handle_tasklet_result r d = Some d' ∧ Inv d' ∧ keeps_active d d'.
Proof.
  intros (H1 & H2 & H3 & H4 & H5 & [H6 H6']) Hgd. cbv zeta. unfold handle_tasklet_result. fold (join_id r).
  rewrite decide_True by (rewrite <-H6; by apply elem_of_dom).
  split_and!; [done| |by intros ? ?]. unfold Inv. upd_simpl.
  split_and!; [done|done|done|done|apply H5|apply H5|split].
  - by rewrite dom_delete_L, H6.
  - intros t g [_ Hg]%lookup_delete_Some. by apply H6'.
Qed.

Lemma addr_change_frame env changed d :
  keeps (λ _, 0) d (handle_remote_peer_addr_change env changed d) ∧
  keeps_active d (handle_remote_peer_addr_change env changed d).
Proof.
  unfold handle_remote_peer_addr_change. generalize (hash_iter changed). intros l. revert d.
  induction l as [|p l IH]; intros d; cbn [foldl]; [by split; [apply keeps_refl|apply active_refl]|].
  assert (keeps (λ _, 0) d (addr_changed env p d) ∧ keeps_active d (addr_changed env p d)) as [Hk Ha].
  { unfold addr_changed. destruct (tx_worker_handle_map d !! p) as [h|];
      [|by split; [apply keeps_refl|apply active_refl]].
    assert (keeps_active d (notify_one (h_cancel_notify h) d)) as Hn by (by intros ? ?).
    pose proof (keeps_notify (h_cancel_notify h) d) as Hk.
    destruct (get_quic_dest_addr env p); [case_decide|]; [by split| |by split].
    by split; [apply keeps_refl|apply active_refl]. }
  destruct (IH (addr_changed env p d)) as [Hk' Ha'].
  split; [by eapply keeps_0|]. intros H HA. apply Ha'; [by apply Hk|by apply Ha].
Qed.

(** No leader is predicted. *)
Definition predicts_nothing env : Prop :=
  leader_prediction_lookahead (config env) = None ∨
  ∀ n, try_predict_next_n_leaders (leader_predictor env) n = [].

Lemma predict_sound env now d :
  sound (predicts_nothing env) d (try_predict_upcoming_leaders_if_necessary env now d).
Proof.
  unfold try_predict_upcoming_leaders_if_necessary. destruct (now <=? _)%N; [apply sound_ret|].
  assert (∀ t, keeps (λ _, 0) d (d <| next_leader_prediction_deadline := t |>) ∧
               keeps_active d (d <| next_leader_prediction_deadline := t |>)) as Hdl.
  { intros t. split; [|by intros ? ?]. split; [done|]. intros _. by apply total_same. }
  destruct (leader_prediction_lookahead (config env)) as [lh|] eqn:El.
  - eapply sound_after; [apply Hdl|intros _; apply Hdl|].
    destruct (decide (try_predict_next_n_leaders (leader_predictor env) lh = [])) as [->|Hne]; [apply sound_ret|].
    apply sound_for_each. intros p d' _. unfold predict_leader.
    destruct (_ || _); [apply sound_ret|]. apply sound_spawn_connecting.
    intros [Hno|Hno]; [congruence|]. by destruct Hne.
  - apply sound_pure; [apply Hdl|intros _; apply Hdl].
Qed.

(** ** Detached workers *)
Lemma graceful_drop_step_sound tid gd id w completed d :
  Inv d → tasklet d !! tid = Some gd → gd_worker_set gd !! id = Some w → completed_of w completed →
  ∃ d', graceful_drop_step tid (JoinOk id completed) d = Some d' ∧ Inv d' ∧ keeps_active d d' ∧
  ∀ sig, total sig d' + count_queue sig (JetWorker.tx_queue w) +
    count_txns sig (left_in_channel (JetWorker.incoming_rx w) d) = total sig d.
Proof.
  intros H Hg Hw [Hrx Hpend]. pose proof H as (H1 & H2 & H3 & H4 & H5 & H6).
  pose proof H6 as [_ Ht]. destruct (Ht tid gd Hg) as [_ Hd].
  destruct (proj1 (Hd id)) as [p Hp]; [by eexists|].
  unfold graceful_drop_step. rewrite Hg. cbn [mbind option_bind]. rewrite Hp. cbn [mbind option_bind].
  rewrite Hrx. eexists. split; [done|]. unfold drain_channel. cbn [snd]. split_and!; [|by intros ? ?|].
  - unfold Inv. upd_simpl. split_and!; [done| |done|done|apply H5|apply H5|].
    + eapply workers_next; [exact H2|done|]. intros c. rewrite dom_delete_L. set_solver.
    + eapply tasklets_update; [exact H6|exact Hg|]. intros i. upd_simpl.
      rewrite !lookup_delete_is_Some. pose proof (Hd i). naive_solver.
  - intros sig. unfold total, left_in_channel. upd_simpl.
    set (gd' := gd <| gd_worker_set ::= _ |> <| gd_worker_meta ::= _ |>).
    pose proof (map_sum_insert (λ gd, in_workers sig (gd_worker_set gd)) (tasklet d) tid gd') as Hs.
    rewrite Hg in Hs. cbn [from_option] in Hs.
    assert (in_workers sig (gd_worker_set gd') + count_queue sig (JetWorker.tx_queue w) =
            in_workers sig (gd_worker_set gd)) as Hgd.
    { unfold gd'. upd_simpl. unfold in_workers. rewrite (map_sum_delete _ (gd_worker_set gd) id w Hw). lia. }
    pose proof (map_sum_delete_opt (λ c : Ch, count_txns sig (buffered c)) (channels (rt d))
      (JetWorker.incoming_rx w)) as Hc.
    unfold in_channels. destruct (channels (rt d) !! _) as [ch|]; cbn [from_option] in *.
    + rewrite recv_all_buffered. lia.
    + change (count_txns sig []) with 0. lia.
Qed.
End Safe.
