(* ===== verification/JetSystem.v ===== *)
(** The jet's gateway with the tasks it spawned, as a transition system:
    iterations of its event loop, the steps of the workers, the detached tasks
    of old identities. [E] says which environments (configuration, services,
    strategy) an iteration may meet. Every reachable state satisfies the
    invariant, and no transaction is created or lost but with a detached worker. *)
From S2P Require Import Prelude Types StakedSet Runtime Driver JetTypes JetWorker JetGateway JetInv JetSafe.
Import JetTypes JetGateway.

#[local] Arguments count_queue : simpl never.
#[local] Arguments count_txns : simpl never.
#[local] Arguments JetWorker.count_gw_responses : simpl never.

Inductive Phase := Top | Waiting | Stopped.

(** What a step shows: an event handled, the transactions dropped with a
    detached worker, or nothing. *)
Inductive Label := Handled (ev : GatewayEvent) | Dropped (txs : list GatewayTransaction) | Internal.

Section System.
Context `{HI : HashIter} {Ch : Type} `{MC : Mpsc Ch GatewayTransaction} `{ED : ErrorDisplay}.
Context `{SI : ValidatorStakeInfoService Stake} `{TI : LeaderTpuInfoService Tpu}.
Context `{ES : !ConnectionEvictionStrategy Strategy} `{LP : UpcomingLeaderPredictor Pred}.
Abbreviation Gateway := (@Gateway Ch).
Abbreviation Runtime := (@Runtime Ch).
Abbreviation Env := (@Env Stake Tpu Strategy Pred).
Implicit Types (d : Gateway) (sig : N) (env : Env) (E : Env → Prop).
Abbreviation valid_connecting := (@valid_connecting Ch Tpu TI).

(** ** Workers: the queue is drained before the channel is read again. *)
Inductive worker_step (w : JetWorker.QuicTxSenderWorker) (r : Runtime)
    : JetWorker.QuicTxSenderWorker → Runtime → Prop :=
  | ws_recv (c c' : Ch) tx :
      JetWorker.tx_queue w = [] → channels r !! JetWorker.incoming_rx w = Some c →
      try_recv c = (Some tx, c') →
      worker_step w r (w <| JetWorker.tx_queue ::= λ q, q ++ [(tx, 1)] |>)
        (r <| channels ::= <[JetWorker.incoming_rx w := c']> |>)
  | ws_send tx n q outcome e w' rs :
      JetWorker.tx_queue w = (tx, n) :: q →
      JetWorker.process_tx outcome tx n (w <| JetWorker.tx_queue := q |>) = (e, w', rs) →
      worker_step w r w' (r <| responses ::= λ l, l ++ rs |>).

(** What is lost when a detached worker ends. *)
Definition unsent (w : JetWorker.QuicTxSenderWorker) d : list GatewayTransaction :=
  (JetWorker.tx_queue w).*1 ++ left_in_channel (JetWorker.incoming_rx w) d.

Inductive task_step d : Label → Gateway → Prop :=
  | ts_worker id w w' r' :
      tx_worker_set d !! id = Some w → worker_step w (rt d) w' r' →
      task_step d Internal (d <| tx_worker_set ::= <[id := w']> |> <| rt := r' |>)
  | ts_detached tid gd id w w' r' :
      tasklet d !! tid = Some gd → gd_worker_set gd !! id = Some w → worker_step w (rt d) w' r' →
      task_step d Internal
        (d <| tasklet ::= <[tid := gd <| gd_worker_set ::= <[id := w']> |>]> |> <| rt := r' |>)
  | ts_drop tid gd id w completed d' :
      tasklet d !! tid = Some gd → gd_worker_set gd !! id = Some w → completed_of w completed →
      graceful_drop_step tid (JoinOk id completed) d = Some d' → task_step d (Dropped (unsent w d)) d'.

(** ** The system

    A task that ended is one of the set, handing back what it held; the tasks
    contain nothing that panics, connection attempts excepted. *)
Definition valid_event (ev : GatewayEvent) d : Prop :=
  match ev with
  | EvWorker (JoinOk id completed) => ∃ w, tx_worker_set d !! id = Some w ∧ completed_of w completed
  | EvConnecting r => valid_connecting r d
  | EvTasklet (JoinOk id _) => ∃ gd, tasklet d !! id = Some gd ∧ gd_worker_set gd = ∅
  | EvWorker (JoinErr _) | EvTasklet (JoinErr _) => False
  | _ => True
  end.

Inductive step E : Phase * Gateway → Label → Phase * Gateway → Prop :=
  | st_prepare env now d d' :
      E env → before_select env now d = Some d' → step E (Top, d) Internal (Waiting, d')
  | st_branch env now ev d d' :
      E env → valid_event ev d → select_branch env now ev d = Some (inl d') →
      step E (Waiting, d) (Handled ev) (Top, d')
  | st_stop env now ev d d' :
      E env → valid_event ev d → select_branch env now ev d = Some (inr d') →
      step E (Waiting, d) (Handled ev) (Stopped, d')
  | st_reap id res d d' :
      valid_event (EvTasklet (JoinOk id res)) d → handle_tasklet_result (JoinOk id res) d = Some d' →
      step E (Stopped, d) Internal (Stopped, d')
  | st_task ph d l d' : task_step d l d' → step E (ph, d) l (ph, d').

Inductive trace E : Phase * Gateway → list Label → Phase * Gateway → Prop :=
  | tr_nil c : trace E c [] c
  | tr_cons c l c1 ls c2 : step E c l c1 → trace E c1 ls c2 → trace E c (l :: ls) c2.

(** The gateway as [spawn_on] starts it; at least one endpoint is configured. *)
Definition started (c : Phase * Gateway) : Prop :=
  ∃ cfg bind ident now d, 0 < num_endpoints cfg ∧ spawn_on cfg bind ident now = Some d ∧ c = (Top, d).
Definition reachable E (c : Phase * Gateway) : Prop := ∃ c0 ls, started c0 ∧ trace E c0 ls c.

(** ** Invariant and accounting, step by step *)
Lemma gw_worker_step_frame w r w' r' : worker_step w r w' r' →
  JetWorker.remote_peer w' = JetWorker.remote_peer w ∧
  JetWorker.connection w' = JetWorker.connection w ∧
  JetWorker.incoming_rx w' = JetWorker.incoming_rx w ∧
  JetWorker.cancel_notify w' = JetWorker.cancel_notify w ∧
  JetWorker.current_client_identity w' = JetWorker.current_client_identity w ∧
  next_id r' = next_id r ∧ dom (channels r') = dom (channels r) ∧ notified r' = notified r.
Proof.
  intros [c c' tx _ Hc _|tx n q outcome e w2 rs _ Hp].
  - split_and!; try done. upd_simpl. apply dom_insert_lookup_L. by eexists.
  - apply JetWorker.gw_process_tx in Hp as [[-> _]|(_ & -> & _)]; done.
Qed.

Lemma gw_worker_step_total sig w r w' r' : worker_step w r w' r' →
  in_channels sig (channels r') + count_queue sig (JetWorker.tx_queue w') +
    JetWorker.count_gw_responses sig (responses r') =
  in_channels sig (channels r) + count_queue sig (JetWorker.tx_queue w) +
    JetWorker.count_gw_responses sig (responses r).
Proof.
  intros [c c' tx Hq Hc Hr|tx n q outcome e w2 rs Hq Hp]; upd_simpl.
  - rewrite Hq. cbn [app]. unfold in_channels.
    pose proof (map_sum_insert (λ c : Ch, count_txns sig (buffered c)) (channels r)
      (JetWorker.incoming_rx w) c') as Hs. rewrite Hc in Hs. cbn [from_option] in Hs.
    pose proof (try_recv_spec c) as [Hhd Htl]. rewrite Hr in Hhd, Htl. cbn in Hhd, Htl.
    destruct (buffered c) as [|tx' l]; [done|]. cbn in Hhd, Htl. injection Hhd as ->. rewrite Htl in Hs.
    change (count_queue sig [(tx', 1)]) with (txn_is sig tx' + 0). change (count_queue sig []) with 0.
    change (count_txns sig (tx' :: l)) with (txn_is sig tx' + count_txns sig l) in Hs. lia.
  - apply (JetWorker.gw_process_tx_count _ _ _ _ _ _ _ sig) in Hp. revert Hp. upd_simpl. rewrite Hq.
    rewrite JetWorker.count_gw_responses_app.
    change (count_queue sig ((tx, n) :: q)) with (txn_is sig tx + count_queue sig q). lia.
Qed.

Lemma gw_inv_task_step d l d' : Inv d → task_step d l d' →
  Inv d' ∧ keeps_active d d'.
Proof.
  intros H Hs. pose proof H as (H1 & H2 & H3 & H4 & H5 & H6).
  destruct Hs as [id w w' r' Hid Hws|tid gd id w w' r' Hg Hid Hws|tid gd id w completed d' Hg Hid Hc Hd].
  - apply gw_worker_step_frame in Hws as (E1 & E2 & E3 & E4 & E5 & En & Ech & Eno).
    split; [|by intros ? ?]. unfold Inv. upd_simpl. rewrite En, Ech, Eno.
    split_and!; try done; try apply H5; try apply H6.
    destruct H2 as [W1 W2 W3 W4 W5 W6]. split; try done.
    + intros i. rewrite <-W1, lookup_insert_is_Some. destruct (decide (id = i)) as [<-|]; [|naive_solver].
      rewrite Hid. split; eauto.
    + intros i p Hi. destruct (W4 i p Hi) as (h & w0 & Hh & Hw0 & Hrest). exists h.
      destruct (decide (i = id)) as [->|Hne].
      * exists w'. rewrite lookup_insert_eq. assert (w0 = w) as -> by congruence.
        by rewrite E1, E2, E3, E4, E5.
      * exists w0. by rewrite lookup_insert_ne.
  - apply gw_worker_step_frame in Hws as (_ & _ & _ & _ & _ & En & Ech & Eno).
    split; [|by intros ? ?]. unfold Inv. upd_simpl. rewrite En, Ech, Eno.
    split_and!; try done; try apply H5.
    eapply tasklets_update; [exact H6|exact Hg|]. intros i. upd_simpl.
    destruct (proj2 H6 tid gd Hg) as [_ Hd]. rewrite <-(Hd i), lookup_insert_is_Some.
    destruct (decide (id = i)) as [<-|]; [|naive_solver]. rewrite Hid. split; eauto.
  - destruct (graceful_drop_step_sound tid gd id w completed d H Hg Hid Hc) as (d2 & E2 & Hi & Ha & _).
    assert (d2 = d') as -> by congruence. done.
Qed.

Definition dropped_in sig (l : Label) : nat :=
  match l with Dropped txs => count_txns sig txs | _ => 0 end.
Definition accepted_in sig (l : Label) : nat :=
  match l with Handled (EvTx tx) => txn_is sig tx | _ => 0 end.

Lemma gw_task_step_total sig d l d' : Inv d → task_step d l d' →
  total sig d' + dropped_in sig l = total sig d.
Proof.
  intros H Hs.
  destruct Hs as [id w w' r' Hid Hws|tid gd id w w' r' Hg Hid Hws|tid gd id w completed d' Hg Hid Hc Hd].
  - apply (gw_worker_step_total sig) in Hws. unfold total. upd_simpl. unfold in_workers.
    pose proof (map_sum_insert (λ w, count_queue sig (JetWorker.tx_queue w)) (tx_worker_set d) id w') as Hs.
    rewrite Hid in Hs. cbn [from_option dropped_in] in *.
    assert (tasklet (d <| tx_worker_set ::= <[id := w']> |> <| rt := r' |>) = tasklet d) as Et by done. lia.
  - apply (gw_worker_step_total sig) in Hws. unfold total. upd_simpl.
    set (gd' := gd <| gd_worker_set ::= _ |>).
    pose proof (map_sum_insert (λ gd, in_workers sig (gd_worker_set gd)) (tasklet d) tid gd') as Hs.
    rewrite Hg in Hs. cbn [from_option dropped_in] in *.
    pose proof (map_sum_insert (λ w, count_queue sig (JetWorker.tx_queue w)) (gd_worker_set gd) id w') as Hs2.
    rewrite Hid in Hs2. cbn [from_option] in Hs2.
    assert (in_workers sig (gd_worker_set gd') = in_workers sig (<[id := w']> (gd_worker_set gd))) as E by done.
    unfold in_workers in *. lia.
  - destruct (graceful_drop_step_sound tid gd id w completed d H Hg Hid Hc) as (d2 & E2 & _ & _ & Ht).
    assert (d2 = d') as -> by congruence. cbn [dropped_in]. unfold unsent. rewrite count_txns_app.
    specialize (Ht sig). assert (∀ q, count_txns sig q.*1 = count_queue sig q) as Hq; [|rewrite Hq; lia].
    intros q. unfold count_txns, count_queue. induction q as [|[tx n] q IH]; cbn; [done|]. by rewrite IH.
Qed.

(** *** The branches of the [select!] *)
Lemma reap_sound id res d : Inv d → valid_event (EvTasklet (JoinOk id res)) d →
  ∃ d', handle_tasklet_result (JoinOk id res) d = Some d' ∧ Inv d' ∧ (Active d → Active d') ∧
  ∀ sig, total sig d' = total sig d.
Proof.
  intros H (gd & Hgd & He).
  destruct (tasklet_result_sound (JoinOk id res) d H) as (Eq & Hi & Ha); [by eexists|].
  rewrite Eq. eexists. split; [done|]. split_and!; [exact Hi|by apply Ha|].
  intros sig. cbn [join_id]. unfold total. upd_simpl.
  rewrite (map_sum_delete _ (tasklet d) id gd Hgd). cbv beta.
  assert (in_workers sig (gd_worker_set gd) = 0) as -> by (rewrite He; apply map_sum_empty). lia.
Qed.

Lemma before_select_keeps env now d d' : Inv d → before_select env now d = Some d' →
  Inv d' ∧ (∀ sig, total sig d' = total sig d) ∧ (predicts_nothing env → Active d → Active d').
Proof.
  intros H. unfold before_select. destruct (do_eviction_if_required env now d) as [d1|] eqn:Ee; [|done].
  cbn [mbind option_bind]. intros Hp. apply eviction_keeps in Ee as [[Hk Ht] Ha]. specialize (Hk H).
  destruct (predict_sound env now d1 Hk) as (d2 & E2 & [Hk2 Ht2] & Ha2).
  assert (d2 = d') as -> by congruence. split_and!; [by apply Hk2| |].
  - intros sig. rewrite (Ht2 Hk), (Ht H). lia.
  - intros Hno HA. apply Ha2; [done|done|by apply Ha].
Qed.

Lemma before_select_defined env now d : Inv d → Active d → is_Some (before_select env now d).
Proof.
  intros H HA. unfold before_select. destruct (eviction_defined env now d H HA) as [d1 E1].
  rewrite E1. cbn [mbind option_bind]. apply eviction_keeps in E1 as [[Hk _] _].
  destruct (predict_sound env now d1 (Hk H)) as (d2 & -> & _). by eexists.
Qed.

Lemma select_branch_sound env now ev d : Inv d → valid_event ev d → ∃ r,
  select_branch env now ev d = Some r ∧
  let d' := match r with inl d' | inr d' => d' end in
  Inv d' ∧ (Active d → Active d') ∧ (∀ sig, total sig d' = total sig d + accepted_in sig (Handled ev)) ∧
  (∀ d2, r = inr d2 → d2 = schedule_graceful_drop_all_worker d ∧ ev = EvInletClosed).
Proof.
  intros H Hv. unfold select_branch.
  assert (∀ m : option Gateway, sound True d m → ∃ r, inl <$> m = Some r ∧
    let d' := match r with inl d' | inr d' => d' end in
    Inv d' ∧ (Active d → Active d') ∧ (∀ sig, total sig d' = total sig d + 0) ∧
    (∀ d2, r = inr d2 → d2 = schedule_graceful_drop_all_worker d ∧ ev = EvInletClosed)) as Hsound.
  { intros m Hs. destruct (Hs H) as (d' & -> & [Hk Ht] & Ha). exists (inl d'). split; [done|]. cbv zeta.
    split_and!; [by apply Hk|by intros HA; apply Ha|by apply Ht|done]. }
  destruct ev as [tx| |c|r|r|r|changes]; cbn [accepted_in].
  - destruct (accept_sound env now tx d H) as (d' & -> & Hi & Ha & Ht). exists (inl d').
    by split_and!.
  - destruct (schedule_graceful_drop_spec d) as ([Hk Ht] & Ha & _). eexists. split; [done|]. cbv zeta.
    split_and!; [by apply Hk|by apply Ha|by apply Ht|]. intros d2 [= <-]. done.
  - apply Hsound. destruct c; apply update_identity_sound.
  - destruct r as [id completed|id]; [|done]. destruct Hv as (w & Hw & Hc). apply Hsound.
    by eapply sound_worker_result.
  - apply Hsound. by apply sound_connecting_result.
  - destruct r as [id res|id]; [|done]. destruct (reap_sound id res d H Hv) as (d' & -> & Hi & Ha & Ht).
    exists (inl d'). split; [done|]. cbv zeta. split_and!; [done|done| |done]. intros sig. rewrite Ht. lia.
  - destruct (addr_change_frame env changes d) as [[Hk Ht] Ha]. eexists. split; [done|]. cbv zeta.
    split_and!; [by apply Hk|by apply Ha|by apply Ht|done].
Qed.

(** *** Steps and traces *)
Lemma gw_step_sound E c l c' : Inv c.2 → step E c l c' →
  Inv c'.2 ∧ (∀ sig, total sig c'.2 + dropped_in sig l = total sig c.2 + accepted_in sig l) ∧
  ((∀ env, E env → predicts_nothing env) → Active c.2 → Active c'.2).
Proof.
  intros H Hs.
  destruct Hs as [env now d d' He Hp|env now ev d d' He Hv Hb|env now ev d d' He Hv Hb|id res d d' Hv Hr|ph d l d' Ht];
    cbn [snd dropped_in] in *.
  - apply before_select_keeps in Hp as (Hi & Ht & Ha); [|done]. split_and!; [done| |by auto].
    intros sig. rewrite Ht. cbn [accepted_in]. lia.
  - destruct (select_branch_sound env now ev d H Hv) as (r & Hb' & Hi & Ha & Ht & _).
    rewrite Hb in Hb'. injection Hb' as <-. split_and!; [done| |done]. intros sig. rewrite Ht. lia.
  - destruct (select_branch_sound env now ev d H Hv) as (r & Hb' & Hi & Ha & Ht & _).
    rewrite Hb in Hb'. injection Hb' as <-. split_and!; [done| |done]. intros sig. rewrite Ht. lia.
  - destruct (reap_sound id res d H Hv) as (d2 & Hr' & Hi & Ha & Ht).
    rewrite Hr in Hr'. injection Hr' as <-. split_and!; [done| |done]. intros sig. rewrite Ht. done.
  - destruct (gw_inv_task_step d l d' H Ht) as [Hi Ha]. split_and!; [done| |by intros _; apply Ha].
    intros sig. rewrite (gw_task_step_total sig d l d' H Ht). by destruct Ht.
Qed.

Definition sum_labels (f : Label → nat) (ls : list Label) : nat := foldr (λ l n, f l + n) 0 ls.

Lemma gw_trace_sound E c ls c' : trace E c ls c' → Inv c.2 →
  Inv c'.2 ∧
  (∀ sig, total sig c'.2 + sum_labels (dropped_in sig) ls = total sig c.2 + sum_labels (accepted_in sig) ls) ∧
  ((∀ env, E env → predicts_nothing env) → Active c.2 → Active c'.2).
Proof.
  induction 1 as [c|c l c1 ls c2 Hs _ IH]; intros H; [split_and!; [done|intros; cbn; lia|done]|].
  destruct (gw_step_sound E c l c1 H Hs) as (H1 & Ht & Ha). destruct (IH H1) as (H2 & Ht2 & Ha2).
  split_and!; [done| |by auto]. intros sig. specialize (Ht sig). specialize (Ht2 sig).
  unfold sum_labels in *. cbn [foldr]. lia.
Qed.

Lemma started_sound c : started c → Inv c.2 ∧ Active c.2 ∧ ∀ sig, total sig c.2 = 0.
Proof.
  intros (cfg & bind & ident & now & d & Hn & Hd & ->). cbn [snd]. unfold spawn_on in Hd.
  destruct (forallb _ _); [|done]. injection Hd as <-. split_and!.
  - unfold Inv. cbn. rewrite length_replicate. split_and!.
    + by apply attempts_empty.
    + apply workers_empty. set_solver.
    + intros p. rewrite lookup_empty. by intros [? ?].
    + split; intros ? ? ?; by rewrite lookup_empty.
    + apply StakedSet.staked_empty_wf.
    + intros p. rewrite lookup_empty. by intros [? ?].
    + split; [by rewrite dom_empty_L|]. intros ? ?. by rewrite lookup_empty.
  - intros p [Hp|Hp]; cbn in Hp; rewrite lookup_empty in Hp; by destruct Hp.
  - intros sig. unfold total. cbn. unfold in_queues, in_channels, in_workers. by rewrite !map_sum_empty.
Qed.

Lemma gw_reachable_inv E c : reachable E c → Inv c.2.
Proof.
  intros (c0 & ls & Hs & Ht). apply started_sound in Hs as (Hi & _). by eapply gw_trace_sound.
Qed.

Lemma gw_reachable_active E c : reachable E c → (∀ env, E env → predicts_nothing env) → Active c.2.
Proof.
  intros (c0 & ls & Hs & Ht) HE. apply started_sound in Hs as (Hi & Ha & _).
  by eapply gw_trace_sound.
Qed.
End System.
