(* ===== verification/JetLife.v ===== *)
(** The life of a peer in the jet's gateway: an abstract state machine with five
    phases, which every step of the gateway follows, peer by peer; and what
    carries the transactions queued for a peer. *)
From S2P Require Import Prelude Types StakedSet Runtime Driver JetTypes JetWorker JetGateway JetInv JetSafe JetSystem.
Import JetTypes JetGateway.

(** ** The phases of a peer, and its moves *)
Inductive PeerPhase := Absent | Connecting | Serving | Evicting | Banned.

Inductive moves : PeerPhase → PeerPhase → Prop :=
  | mv_stay s : moves s s
  | mv_connect : moves Absent Connecting
  | mv_connected : moves Connecting Serving
  | mv_failed : moves Connecting Absent
  | mv_evict : moves Serving Evicting
  | mv_ended : moves Serving Absent
  | mv_reconnect : moves Serving Connecting
  | mv_evicted : moves Evicting Absent
  | mv_banned : moves Evicting Banned.
Create HintDb jet_life.
#[export] Hint Constructors moves : jet_life.

(** A handler that only opens connections to absent peers. *)
Inductive opens : PeerPhase → PeerPhase → Prop :=
  | op_stay s : opens s s
  | op_open : opens Absent Connecting.
#[export] Hint Constructors opens : jet_life.

Lemma opens_trans a b c : opens a b → opens b c → opens a c.
Proof. intros [] H; inversion H; auto with jet_life. Qed.
Lemma opens_moves a b : opens a b → moves a b.
Proof. intros []; auto with jet_life. Qed.

Section Life.
Context `{HI : HashIter} {Ch : Type} `{MC : Mpsc Ch GatewayTransaction} `{ED : ErrorDisplay}.
Context `{SI : ValidatorStakeInfoService Stake} `{TI : LeaderTpuInfoService Tpu}.
Context `{ES : !ConnectionEvictionStrategy Strategy} `{LP : UpcomingLeaderPredictor Pred}.
Abbreviation Gateway := (@Gateway Ch).
Abbreviation Env := (@Env Stake Tpu Strategy Pred).
Implicit Types (d : Gateway) (p q : N) (env : Env).
Abbreviation valid_event := (@valid_event Ch Tpu TI).
Abbreviation valid_connecting := (@valid_connecting Ch Tpu TI).
Abbreviation step := (@step HI Ch MC ED Stake SI Tpu TI Strategy ES Pred LP).
Abbreviation trace := (@trace HI Ch MC ED Stake SI Tpu TI Strategy ES Pred LP).
Abbreviation reachable := (@reachable HI Ch MC ED Stake SI Tpu TI Strategy ES Pred LP).

Definition phase d p : PeerPhase :=
  if decide (is_Some (tx_worker_handle_map d !! p)) then
    if decide (p ∈ being_evicted_peers d) then Evicting else Serving
  else if decide (is_Some (connecting_remote_peers d !! p)) then Connecting
  else if decide (p ∈ being_evicted_peers d) then Banned else Absent.

(** No attempt is in flight to a peer that is being evicted. *)
Definition Clear d : Prop := ∀ p, is_Some (connecting_remote_peers d !! p) → p ∉ being_evicted_peers d.

Definition same_life d d' : Prop :=
  tx_worker_handle_map d' = tx_worker_handle_map d ∧ being_evicted_peers d' = being_evicted_peers d ∧
  connecting_remote_peers d' = connecting_remote_peers d.
Definition evolves (R : PeerPhase → PeerPhase → Prop) d d' : Prop :=
  (Clear d → Clear d') ∧ (Clear d → ∀ p, R (phase d p) (phase d' p)).

Lemma same_life_phase d d' : same_life d d' → (Clear d → Clear d') ∧ ∀ p, phase d' p = phase d p.
Proof. intros (E1 & E2 & E3). unfold Clear, phase. by rewrite E1, E2, E3. Qed.

Lemma evolves_same (R : PeerPhase → PeerPhase → Prop) d d' :
  (∀ s, R s s) → same_life d d' → evolves R d d'.
Proof. intros HR [Hc Hp]%same_life_phase. split; [done|]. intros _ p. by rewrite Hp. Qed.

Lemma evolves_trans (R S T : PeerPhase → PeerPhase → Prop) d1 d2 d3 :
  (∀ a b c, R a b → S b c → T a c) → evolves R d1 d2 → evolves S d2 d3 → evolves T d1 d3.
Proof. intros HT [H1 R1] [H2 R2]. split; [auto|]. intros Hc p. eapply HT; [by apply R1|by apply R2, H1]. Qed.

Lemma evolves_weaken (R S : PeerPhase → PeerPhase → Prop) d d' :
  (∀ a b, R a b → S a b) → evolves R d d' → evolves S d d'.
Proof. intros HS [Hc HR]. split; [done|]. intros H p. by apply HS, HR. Qed.

Lemma evolves_then_same R d1 d2 d3 : evolves R d1 d2 → same_life d2 d3 → evolves R d1 d3.
Proof. intros [H1 R1] [Hc Hp]%same_life_phase. split; [auto|]. intros H p. rewrite Hp. by apply R1. Qed.

(** [phase] by cases on the three maps. *)
Lemma phase_spec d p : Clear d → match phase d p with
  | Absent => tx_worker_handle_map d !! p = None ∧ connecting_remote_peers d !! p = None ∧ p ∉ being_evicted_peers d
  | Connecting => tx_worker_handle_map d !! p = None ∧ is_Some (connecting_remote_peers d !! p) ∧ p ∉ being_evicted_peers d
  | Serving => is_Some (tx_worker_handle_map d !! p) ∧ p ∉ being_evicted_peers d
  | Evicting => is_Some (tx_worker_handle_map d !! p) ∧ p ∈ being_evicted_peers d
  | Banned => tx_worker_handle_map d !! p = None ∧ connecting_remote_peers d !! p = None ∧ p ∈ being_evicted_peers d
  end.
Proof.
  intros Hc. unfold phase. specialize (Hc p).
  destruct (decide (is_Some (tx_worker_handle_map d !! p))) as [Hh|Hh%eq_None_not_Some];
    destruct (decide (is_Some (connecting_remote_peers d !! p))) as [Hp|Hp%eq_None_not_Some];
    destruct (decide (p ∈ being_evicted_peers d)) as [He|He]; try done; by destruct (Hc Hp).
Qed.

(** ** Handlers *)
Lemma same_life_drop p reason d : same_life d (drop_peer_queued_tx p reason d).
Proof. unfold drop_peer_queued_tx. by destruct (tx_queues d !! p). Qed.

Lemma spawn_connecting_opens env p n d d' : Inv d → spawn_connecting env p n d = Some d' →
  evolves opens d d'.
Proof.
  intros H E. destruct (spawn_connecting_spec env p n d H) as (d2 & E2 & Hcases).
  assert (d2 = d') as -> by congruence. clear E E2.
  destruct Hcases as [[-> _]|[[_ ->]|((He & Hc0 & Hh0) & _ & idx & s & wait & blocked & id & next & ->)]].
  - apply evolves_same; [auto with jet_life|done].
  - apply evolves_same; [auto with jet_life|apply same_life_drop].
  - unfold evolves, Clear, phase, attempt_spawned. upd_simpl. split.
    + intros Hc q. rewrite lookup_insert_is_Some. intros [<-|[_ Hq]]; [done|by apply Hc].
    + intros _ q. destruct (decide (p = q)) as [<-|Hne].
      * rewrite lookup_insert_eq. destruct (decide (p ∈ being_evicted_peers d)); [done|].
        rewrite Hc0, Hh0, !(decide_False (P := is_Some None)) by (by intros [? ?]).
        rewrite (decide_True (P := is_Some (Some id))) by (by eexists). constructor.
      * rewrite lookup_insert_ne by done. constructor.
Qed.

(** Opening connections one after the other. *)
Lemma for_each_opens {A} (f : A → Gateway → option Gateway) l d d' : Inv d →
  (∀ a d d', a ∈ l → Inv d → f a d = Some d' → Inv d' ∧ evolves opens d d') →
  for_each f l d = Some d' → evolves opens d d'.
Proof.
  revert d. induction l as [|a l IH]; intros d H Hf; cbn [for_each].
  { intros [= <-]. apply evolves_same; [constructor|done]. }
  destruct (f a d) as [d1|] eqn:E1; [|done]. cbn [mbind option_bind]. intros E.
  destruct (Hf a d d1) as [H1 Ho]; [by left|done|done|].
  eapply evolves_trans; [exact opens_trans|exact Ho|]. apply (IH d1 H1); [|done].
  intros b e e' Hb. apply Hf. by right.
Qed.

Lemma spawn_connecting_inv env p n d d' : Inv d → spawn_connecting env p n d = Some d' → Inv d'.
Proof.
  intros H E. destruct (sound_spawn_connecting False env p n d) as (d2 & E2 & [Hk _] & _); [done|done|].
  assert (d2 = d') as <- by congruence. by apply Hk.
Qed.

Lemma predict_opens env now d d' : Inv d →
  try_predict_upcoming_leaders_if_necessary env now d = Some d' → evolves opens d d'.
Proof.
  intros H. unfold try_predict_upcoming_leaders_if_necessary.
  destruct (now <=? _)%N; [intros [= <-]; apply evolves_same; [constructor|done]|].
  destruct (leader_prediction_lookahead (config env)); [|intros [= <-]; apply evolves_same; [constructor|done]].
  set (d1 := d <| next_leader_prediction_deadline := _ |>). intros E.
  eapply evolves_trans; [exact opens_trans|apply (evolves_same opens d d1); [constructor|done]|].
  eapply for_each_opens; [exact H| |exact E]. intros p e e' _ He. unfold predict_leader.
  destruct (_ || _); [intros [= <-]; split; [done|apply evolves_same; [constructor|done]]|].
  intros Es. split; [by eapply spawn_connecting_inv|by eapply spawn_connecting_opens].
Qed.

(** Evictions only concern peers with a worker. *)
Inductive evicts : PeerPhase → PeerPhase → Prop :=
  | ev_stay s : evicts s s
  | ev_evict : evicts Serving Evicting.

Lemma evict_all_evicts l d : Inv d → evolves evicts d (foldl (λ d p, evict_peer p d) d l).
Proof.
  revert d. induction l as [|p l IH]; intros d H; cbn [foldl]; [apply evolves_same; [constructor|done]|].
  assert (evolves evicts d (evict_peer p d)) as H1.
  { unfold evict_peer. destruct (tx_worker_handle_map d !! p) as [h|] eqn:Ep;
      [|apply evolves_same; [constructor|done]].
    assert (h_remote_peer_identity h = p) as ->.
    { destruct H as (_ & H2 & _). destruct (wk_handle _ _ _ _ _ _ H2 p h Ep) as (id & Hid).
      destruct (wk_meta _ _ _ _ _ _ H2 id p Hid) as (h' & w & Hh' & _ & Hrest & _). congruence. }
    destruct H as (_ & _ & H3 & _). unfold evolves, Clear, phase, notify_one. upd_simpl. split.
    - intros Hc q Hq. apply not_elem_of_union. split; [|by apply Hc].
      intros ->%elem_of_singleton. rewrite (H3 p) in Hq by (by eexists). by destruct Hq.
    - intros Hc q. destruct (decide (p = q)) as [<-|Hne].
      + rewrite Ep. rewrite !(decide_True (P := is_Some (Some h))) by (by eexists).
        rewrite (decide_True (P := p ∈ _ ∪ _)) by set_solver. destruct (decide _); constructor.
      + assert (q ∈ {[p]} ∪ being_evicted_peers d ↔ q ∈ being_evicted_peers d) as Hq by set_solver.
        destruct (decide (is_Some (tx_worker_handle_map d !! q)));
          [|destruct (decide (is_Some (connecting_remote_peers d !! q))); [constructor|]];
          destruct (decide (q ∈ {[p]} ∪ _)), (decide (q ∈ being_evicted_peers d)); try constructor; tauto. }
  eapply evolves_trans; [|exact H1|apply IH; by apply evict_peer_frame].
  intros a b c Hab Hbc. destruct Hab; [done|]. inversion Hbc. constructor.
Qed.

Lemma before_select_moves env now d d' : Inv d → before_select env now d = Some d' → evolves moves d d'.
Proof.
  intros H. unfold before_select. destruct (do_eviction_if_required env now d) as [d1|] eqn:Ee; [|done].
  cbn [mbind option_bind]. intros Hp.
  assert (evolves evicts d d1) as H1.
  { unfold do_eviction_if_required in Ee. destruct (decide _).
    - injection Ee as <-. apply evolves_same; [constructor|done].
    - destruct (plan_eviction _ _ _ _ _ _); [|done]. injection Ee as <-. by apply evict_all_evicts. }
  apply eviction_keeps in Ee as [[Hk _] _].
  eapply evolves_trans; [|exact H1|eapply predict_opens; [by apply Hk|exact Hp]].
  intros a b c Hab Hbc. destruct Hab; [by apply opens_moves|]. inversion Hbc. constructor.
Qed.

(** *** Events *)
Inductive fails : PeerPhase → PeerPhase → Prop :=
  | fa_stay s : fails s s
  | fa_fail : fails Connecting Absent.
Inductive ends : PeerPhase → PeerPhase → Prop :=
  | en_stay s : ends s s
  | en_end : ends Serving Absent
  | en_evicted : ends Evicting Absent.
Inductive quits : PeerPhase → PeerPhase → Prop :=
  | qu_stay s : quits s s
  | qu_connecting : quits Connecting Absent
  | qu_serving : quits Serving Absent
  | qu_evicting : quits Evicting Banned.

Lemma fails_opens a b c : fails a b → opens b c → moves a c.
Proof. intros [] Ho; [by apply opens_moves|]. inversion Ho; auto with jet_life. Qed.
Lemma fails_moves a b : fails a b → moves a b.
Proof. intros []; auto with jet_life. Qed.
Lemma quits_opens a b c : quits a b → opens b c → moves a c.
Proof. intros [] Ho; [by apply opens_moves|..]; inversion Ho; auto with jet_life. Qed.
Lemma quits_moves a b : quits a b → moves a b.
Proof. intros []; auto with jet_life. Qed.
Lemma ends_moves a b : ends a b → moves a b.
Proof. intros []; auto with jet_life. Qed.

Lemma forget_fails m d d' : tx_worker_handle_map d' = tx_worker_handle_map d →
  being_evicted_peers d' = being_evicted_peers d →
  connecting_remote_peers d' = delete (remote_peer_identity m) (connecting_remote_peers d) →
  evolves fails d d'.
Proof.
  intros E1 E2 E3. unfold evolves, Clear. setoid_rewrite E2. setoid_rewrite E3. split.
  - intros Hc q [_ Hq]%lookup_delete_is_Some. by apply Hc.
  - intros Hc q. unfold phase. rewrite E1, E2, E3.
    destruct (decide (is_Some (tx_worker_handle_map d !! q))); [constructor|].
    destruct (decide (remote_peer_identity m = q)) as [->|Hne].
    + rewrite lookup_delete_eq, (decide_False (P := is_Some None)) by (by intros [? ?]).
      destruct (decide (is_Some (connecting_remote_peers d !! q))) as [Hq|]; [|constructor].
      rewrite decide_False by (by apply Hc). constructor.
    + rewrite lookup_delete_ne by done. constructor.
Qed.

Lemma connected_moves env m conn d d1 d' :
  tx_worker_handle_map d1 = tx_worker_handle_map d → being_evicted_peers d1 = being_evicted_peers d →
  connecting_remote_peers d1 = delete (remote_peer_identity m) (connecting_remote_peers d) →
  is_Some (connecting_remote_peers d !! remote_peer_identity m) →
  connected env (remote_peer_identity m) conn d1 = Some d' → evolves moves d d'.
Proof.
  intros E1 E2 E3 Hp. unfold connected, install_worker, watch. upd_simpl. rewrite E1.
  destruct (tx_worker_handle_map d !! remote_peer_identity m) eqn:Eh; [done|]. intros [= <-].
  unfold evolves, Clear, phase, spawn_worker. upd_simpl. rewrite E1, E2, E3. split.
  - intros Hc q [_ Hq]%lookup_delete_is_Some. by apply Hc.
  - intros Hc q. specialize (Hc q). destruct (decide (remote_peer_identity m = q)) as [<-|Hne].
    + rewrite Eh, lookup_insert_eq. rewrite (decide_True (P := is_Some (Some _))) by (by eexists).
      rewrite (decide_False (P := is_Some None)) by (by intros [? ?]). rewrite decide_True by done.
      rewrite decide_False by (by apply Hc). constructor.
    + rewrite lookup_insert_ne, lookup_delete_ne by done. constructor.
Qed.

Lemma connecting_result_moves env r d d' : Inv d → valid_connecting r d →
  handle_connecting_result env r d = Some d' → evolves moves d d'.
Proof.
  intros H (t & Ht & _ & _).
  destruct (proj1 (at_task _ _ _ _ _ _ (proj1 H) (join_id r))) as [m Hm]; [by eexists|].
  destruct (forget_connecting_spec (join_id r) t m d H Ht Hm)
    as (d1 & Hf & _ & _ & Hi & Hp & _ & Hh & _ & _ & _ & Hb & _).
  assert (is_Some (connecting_remote_peers d !! remote_peer_identity m)) as Hpc
    by (exists (join_id r); apply (at_peer _ _ _ _ _ _ (proj1 H)); eauto).
  pose proof (forget_fails m d d1 Hh Hb Hp) as Hfail.
  unfold handle_connecting_result. destruct r as [id res|id]; cbn [join_id] in *; upd_simpl;
    rewrite Hm; cbn [mbind option_bind]; rewrite Hf; cbn [mbind option_bind].
  2:{ intros [= <-]. by eapply evolves_weaken; [exact fails_moves|]. }
  case_decide; [intros E; eapply evolves_trans; [exact fails_opens|exact Hfail|by eapply spawn_connecting_opens]|].
  destruct res as [conn|e]; [by apply connected_moves|].
  assert (∀ reason, evolves moves d (drop_peer_queued_tx (remote_peer_identity m) reason d1)) as Hdrop.
  { intros reason. eapply evolves_trans; [exact fails_opens|exact Hfail|].
    apply evolves_same; [constructor|apply same_life_drop]. }
  unfold attempt_failed, unreachable_peer.
  destruct e as [[]|ce|]; [done|by intros [= <-]| |by intros [= <-]].
  case_decide; [|by intros [= <-]]. intros E.
  eapply evolves_trans; [exact fails_opens|exact Hfail|by eapply spawn_connecting_opens].
Qed.

Lemma worker_gone_ends id p chan ns l d : Inv d → is_Some (tx_worker_handle_map d !! p) →
  evolves ends d (worker_gone id p chan ns l d) ∧ phase (worker_gone id p chan ns l d) p = Absent ∧
  ∀ q, p ≠ q → phase (worker_gone id p chan ns l d) q = phase d q.
Proof.
  intros (_ & _ & H3 & _) Hh. pose proof (H3 p Hh) as Hp.
  assert (∀ q, p ≠ q → q ∈ being_evicted_peers d ∖ {[p]} ↔ q ∈ being_evicted_peers d) as Hq by set_solver.
  assert (phase (worker_gone id p chan ns l d) p = Absent) as Hpa.
  { unfold phase, worker_gone. upd_simpl. rewrite lookup_delete_eq, Hp.
    rewrite !(decide_False (P := is_Some None)) by (by intros [? ?]). rewrite decide_False by set_solver. done. }
  assert (∀ q, p ≠ q → phase (worker_gone id p chan ns l d) q = phase d q) as Hother.
  { intros q Hne. unfold phase, worker_gone. upd_simpl. rewrite lookup_delete_ne by done.
    by rewrite !(decide_ext _ _ _ _ (Hq q Hne)). }
  split; [|done]. split.
  - unfold Clear, worker_gone. upd_simpl. intros Hc q Hcq [Hin _]%elem_of_difference. by apply (Hc q).
  - intros Hc q. destruct (decide (p = q)) as [<-|Hne].
    + rewrite Hpa. unfold phase. rewrite (decide_True (P := is_Some (tx_worker_handle_map d !! p))) by done.
      destruct (decide _); constructor.
    + rewrite (Hother q Hne). constructor.
Qed.

Lemma worker_result_moves env now id completed w d d' : Inv d →
  tx_worker_set d !! id = Some w → completed_of w completed →
  handle_worker_result env now (JoinOk id completed) d = Some d' → evolves moves d d'.
Proof.
  intros H Hw [Hrx Hpend]. pose proof H as (_ & H2 & H3 & _).
  destruct (proj1 (wk_task _ _ _ _ _ _ H2 id)) as [p Hm]; [by eexists|].
  destruct (wk_meta _ _ _ _ _ _ H2 id p Hm) as (h & w' & Hp & _ & _).
  destruct (release (connecting_remote_peers d) (connecting_blocked_by_eviction_list d)) as [ns l] eqn:Er.
  rewrite (jet_worker_result_eq env now id completed d p h ns l Hm Hp Er), Hrx, Hpend.
  destruct (worker_gone_spec id p h w d ns l H Hm Hp Hw Er) as (Hi & _ & _).
  destruct (worker_gone_ends id p (JetWorker.incoming_rx w) ns l d H) as (Hends & Hpa & Hother); [by eexists|].
  revert Hi Hends Hpa Hother. generalize (worker_gone id p (JetWorker.incoming_rx w) ns l d).
  intros d1 Hi Hends Hpa Hother.
  set (q := _ ++ _). clearbody q.
  destruct (keeps_enqueue p q d1) as [Hk _]. specialize (Hk Hi).
  assert (evolves ends d (enqueue p q d1)) as He by (eapply evolves_then_same; [exact Hends|done]).
  assert (phase (enqueue p q d1) p = Absent) as Hpa' by done.
  assert (∀ r, p ≠ r → phase (enqueue p q d1) r = phase d r) as Ho' by done.
  revert Hk He Hpa' Ho'. generalize (enqueue p q d1). intros d2 H2' He Hpa' Ho'.
  assert (∀ reason, evolves moves d (drop_peer_queued_tx p reason d2)) as Hdrop.
  { intros reason. eapply evolves_then_same; [|apply same_life_drop].
    by eapply evolves_weaken; [exact ends_moves|]. }
  unfold after_worker, unreachable_peer. destruct (is_peer_unreachable _); [by intros [= <-]|].
  destruct (bool_decide (p ∈ being_evicted_peers d)) eqn:Eb; [by intros [= <-]|].
  apply bool_decide_eq_false in Eb.
  case_decide; [|intros [= <-]; by eapply evolves_weaken; [exact ends_moves|]].
  set (d3 := d2 <| last_peer_activity ::= <[p := now]> |>). intros E.
  assert (evolves opens d2 d') as Ho.
  { eapply evolves_trans; [exact opens_trans|apply (evolves_same opens d2 d3); [constructor|done]|].
    eapply spawn_connecting_opens; [|exact E]. done. }
  split; [by intros Hc; apply Ho, He|]. intros Hc r.
  pose proof (proj2 He Hc r) as Hr. pose proof (proj2 Ho (proj1 He Hc) r) as Hor.
  destruct (decide (p = r)) as [<-|Hne].
  - rewrite Hpa' in Hor. assert (phase d p = Serving) as ->.
    { unfold phase. rewrite decide_True by (by eexists). by rewrite decide_False. }
    inversion Hor; constructor.
  - rewrite (Ho' r Hne) in Hor. by apply opens_moves.
Qed.

(** *** Identity changes *)
Lemma install_identity_quits k d : Inv d →
  evolves quits d (install_identity k d).2 ∧ Clear (install_identity k d).2.
Proof.
  intros (_ & _ & H3 & _).
  assert (tx_worker_handle_map (install_identity k d).2 = ∅) as E1 by done.
  assert (being_evicted_peers (install_identity k d).2 = being_evicted_peers d) as E2 by done.
  assert (connecting_remote_peers (install_identity k d).2 = ∅) as E3 by done.
  assert (Clear (install_identity k d).2) as Hcl.
  { intros p. rewrite E3, lookup_empty. by intros [? ?]. }
  split; [|done]. split; [done|]. intros Hc p. specialize (Hc p). specialize (H3 p).
  unfold phase. rewrite E1, E2, E3, !lookup_empty, !(decide_False (P := is_Some None)) by (by intros [? ?]).
  destruct (decide (is_Some (tx_worker_handle_map d !! p))).
  - destruct (decide _); constructor.
  - destruct (decide (is_Some (connecting_remote_peers d !! p))); [|constructor].
    rewrite decide_False by (by apply Hc). constructor.
Qed.

Lemma update_identity_moves env k d d' : Inv d → update_identity env k d = Some d' → evolves moves d d'.
Proof.
  intros H. unfold update_identity. pose proof (install_identity_quits k d H) as [Hq _].
  pose proof (install_identity_spec k d H) as Hi. destruct (install_identity k d) as [metas d1].
  cbn [snd] in Hq. destruct Hi as (_ & H1 & _). unfold replay_connecting. intros E.
  eapply evolves_trans; [exact quits_opens|exact Hq|]. eapply for_each_opens; [exact H1| |exact E].
  intros m e e' _ He Es. cbv beta in Es. split; [by eapply spawn_connecting_inv|by eapply spawn_connecting_opens].
Qed.

(** A peer being evicted is banned by an identity change. *)
Lemma update_identity_bans env k d d' p : Inv d → Clear d → update_identity env k d = Some d' →
  phase d p = Evicting → phase d' p = Banned.
Proof.
  intros H Hc. unfold update_identity. pose proof (install_identity_spec k d H) as Hi.
  destruct (install_identity k d) as [metas d1].
  destruct Hi as (_ & H1 & _ & _ & _ & _ & Hh & Hp & Hb & _). unfold replay_connecting. intros E Hev.
  assert (evolves opens d1 d') as [_ Ho].
  { eapply for_each_opens; [exact H1| |exact E]. intros m e e' _ He Es. cbv beta in Es.
    split; [by eapply spawn_connecting_inv|by eapply spawn_connecting_opens]. }
  assert (Clear d1) as Hc1 by (intros q; rewrite Hp, lookup_empty; by intros [? ?]).
  specialize (Ho Hc1 p). pose proof (phase_spec d p Hc) as Hs. rewrite Hev in Hs. destruct Hs as [_ He].
  assert (phase d1 p = Banned) as Hd1.
  { unfold phase. rewrite Hh, Hp, Hb, !lookup_empty, !(decide_False (P := is_Some None)) by (by intros [? ?]).
    by rewrite decide_True. }
  rewrite Hd1 in Ho. by inversion Ho.
Qed.

Lemma stop_moves d : Inv d → evolves moves d (schedule_graceful_drop_all_worker d).
Proof.
  intros (_ & _ & H3 & _). split; [done|]. intros Hc p. specialize (Hc p). specialize (H3 p).
  unfold phase. assert (tx_worker_handle_map (schedule_graceful_drop_all_worker d) = ∅) as -> by done.
  rewrite lookup_empty, (decide_False (P := is_Some None)) by (by intros [? ?]).
  change (connecting_remote_peers (schedule_graceful_drop_all_worker d)) with (connecting_remote_peers d).
  change (being_evicted_peers (schedule_graceful_drop_all_worker d)) with (being_evicted_peers d).
  destruct (decide (is_Some (tx_worker_handle_map d !! p))) as [Hh|]; [|constructor].
  rewrite (H3 Hh), (decide_False (P := is_Some None)) by (by intros [? ?]).
  destruct (decide _); constructor.
Qed.

Lemma accept_opens env now tx d d' : Inv d → accept_tx env now tx d = Some d' → evolves opens d d'.
Proof.
  intros H. unfold accept_tx. set (p := Txn.remote_peer tx).
  set (d1 := d <| last_peer_activity ::= <[p := now]> |>).
  assert (evolves opens d d1) as H1 by (apply evolves_same; [constructor|done]).
  assert (Inv d1) as Hi1 by done. clearbody d1. clear H.
  destruct (tx_worker_handle_map d1 !! p) as [h|].
  - unfold try_send_to. destruct (channels (rt d1) !! sender h) as [c|];
      [destruct (try_send tx c) as [[] c']|]; intros [= <-]; (eapply evolves_then_same; [exact H1|done]).
  - destruct (keeps_enqueue p [(tx, 1)] d1) as [Hk _]. specialize (Hk Hi1).
    assert (evolves opens d (enqueue p [(tx, 1)] d1)) as H2 by (eapply evolves_then_same; [exact H1|done]).
    revert Hk H2. generalize (enqueue p [(tx, 1)] d1). intros d2 Hi2 H2.
    case_decide; [by intros [= <-]|]. intros E.
    eapply evolves_trans; [exact opens_trans|exact H2|by eapply spawn_connecting_opens].
Qed.

Lemma addr_change_same_life env changed d : same_life d (handle_remote_peer_addr_change env changed d).
Proof.
  unfold handle_remote_peer_addr_change. generalize (hash_iter changed). intros l. revert d.
  induction l as [|p l IH]; intros d; [done|]. cbn [foldl].
  destruct (IH (addr_changed env p d)) as (E1 & E2 & E3).
  assert (same_life d (addr_changed env p d)) as (F1 & F2 & F3); [|by split_and!; etrans].
  unfold addr_changed. destruct (tx_worker_handle_map d !! p); [|done].
  destruct (get_quic_dest_addr env p); [case_decide|]; done.
Qed.

Lemma select_branch_moves env now ev d r : Inv d → valid_event ev d →
  select_branch env now ev d = Some r →
  evolves moves d (match r with inl d' | inr d' => d' end).
Proof.
  intros H Hv. unfold select_branch.
  destruct ev as [tx| |[k|k]|[id completed|id]|rc|[id res|id]|changes]; try done.
  - destruct (accept_tx env now tx d) eqn:E; [|done]. intros [= <-].
    eapply evolves_weaken; [exact opens_moves|by eapply accept_opens].
  - intros [= <-]. by apply stop_moves.
  - destruct (handle_cnc _ _ _) eqn:E; [|done]. intros [= <-]. by eapply update_identity_moves.
  - destruct (handle_cnc _ _ _) eqn:E; [|done]. intros [= <-]. by eapply update_identity_moves.
  - destruct Hv as (w & Hw & Hc). destruct (handle_worker_result _ _ _ _) eqn:E; [|done]. intros [= <-].
    by eapply worker_result_moves.
  - destruct (handle_connecting_result _ _ _) eqn:E; [|done]. intros [= <-]. by eapply connecting_result_moves.
  - unfold handle_tasklet_result. case_decide; [|done]. intros [= <-].
    apply evolves_same; [constructor|done].
  - intros [= <-]. apply evolves_same; [constructor|apply addr_change_same_life].
Qed.

Lemma step_moves E c l c' : Inv c.2 → step E c l c' → evolves moves c.2 c'.2.
Proof.
  intros H Hs.
  destruct Hs as [env now d d' He Hp|env now ev d d' He Hv Hb|env now ev d d' He Hv Hb|id res d d' Hv Hr|ph d l d' Ht];
    cbn [snd] in *.
  - by eapply before_select_moves.
  - by apply (select_branch_moves env now ev d (inl d')).
  - by apply (select_branch_moves env now ev d (inr d')).
  - unfold handle_tasklet_result in Hr. destruct (decide _); [|done]. injection Hr as <-.
    apply evolves_same; [constructor|done].
  - destruct Ht as [| |tid gd id w completed d' Hg Hid Hc Hd]; try (apply evolves_same; [constructor|done]).
    unfold graceful_drop_step in Hd. rewrite Hg in Hd. cbn [mbind option_bind] in Hd.
    destruct (gd_worker_meta gd !! id); [|done]. injection Hd as <-.
    apply evolves_same; [constructor|done].
Qed.

Lemma trace_moves E c ls c' : trace E c ls c' → Inv c.2 → Clear c.2 →
  Clear c'.2 ∧ ∀ p, rtc moves (phase c.2 p) (phase c'.2 p).
Proof.
  induction 1 as [c|c l c1 ls c2 Hs _ IH]; intros H Hc; [done|].
  pose proof (step_moves E c l c1 H Hs) as [Hc1 Hm]. pose proof (gw_step_sound E c l c1 H Hs) as (H1 & _).
  destruct (IH H1 (Hc1 Hc)) as [Hc2 Hr]. split; [done|]. intros p. eapply rtc_l; [by apply Hm|done].
Qed.

Lemma reachable_clear E c : reachable E c → Clear c.2.
Proof.
  intros (c0 & ls & Hs & Ht). pose proof (started_sound c0 Hs) as (Hi & _).
  eapply trace_moves; [exact Ht|done|]. destruct Hs as (cfg & bind & ident & now & d & _ & Hd & ->).
  unfold spawn_on in Hd. destruct (forallb _ _); [|done]. injection Hd as <-.
  intros p. cbn. rewrite lookup_empty. by intros [? ?].
Qed.
End Life.
