(* ===== verification/JetCarry.v ===== *)
(** What carries the transactions queued in the jet's gateway: a connection
    attempt or a worker, unless the identity changed or an attempt's task
    panicked while they waited. *)
From S2P Require Import Prelude Types StakedSet Runtime Driver JetTypes JetWorker JetGateway JetInv JetSafe JetSystem JetLife.
Import JetTypes JetGateway.

Section Carry.
Context `{HI : HashIter} {Ch : Type} `{MC : Mpsc Ch GatewayTransaction} `{ED : ErrorDisplay}.
Context `{SI : ValidatorStakeInfoService Stake} `{TI : LeaderTpuInfoService Tpu}.
Context `{ES : !ConnectionEvictionStrategy Strategy} `{LP : UpcomingLeaderPredictor Pred}.
Abbreviation Gateway := (@Gateway Ch).
Abbreviation Env := (@Env Stake Tpu Strategy Pred).
Implicit Types (d : Gateway) (p q : N) (env : Env) (X : gset N).
Abbreviation valid_event := (@valid_event Ch Tpu TI).
Abbreviation valid_connecting := (@valid_connecting Ch Tpu TI).
Abbreviation step := (@step HI Ch MC ED Stake SI Tpu TI Strategy ES Pred LP).
Abbreviation trace := (@trace HI Ch MC ED Stake SI Tpu TI Strategy ES Pred LP).

Definition queued d p : list (GatewayTransaction * nat) := default [] (tx_queues d !! p).
Definition has_carrier d p : Prop :=
  is_Some (connecting_remote_peers d !! p) ∨ is_Some (tx_worker_handle_map d !! p).
(** Outside [X], whatever is queued has a carrier. *)
Definition Carried X d : Prop := ∀ p, p ∉ X → queued d p ≠ [] → has_carrier d p.

Lemma carried_weaken X d : Carried ∅ d → Carried X d.
Proof. intros H p _. apply H. set_solver. Qed.

(** Queues may shrink, carriers may not go. *)
Lemma carried_frame X d d' : (∀ p, queued d' p ≠ [] → queued d p ≠ []) →
  (∀ p, has_carrier d p → has_carrier d' p) → Carried X d → Carried X d'.
Proof. intros Hq Hc H p Hp Hne. apply Hc, H; auto. Qed.

Lemma carried_same X d d' : tx_queues d' = tx_queues d → same_life d d' → Carried X d → Carried X d'.
Proof.
  intros Eq (E1 & _ & E3). apply carried_frame; intros p; unfold queued, has_carrier; by rewrite ?Eq, ?E1, ?E3.
Qed.

Lemma drop_carried p reason d : Carried {[p]} d → Carried ∅ (drop_peer_queued_tx p reason d).
Proof.
  intros H q _. pose proof (same_life_drop p reason d) as (E1 & _ & E3).
  unfold has_carrier. rewrite E1, E3. clear E1 E3.
  unfold queued, drop_peer_queued_tx. destruct (tx_queues d !! p) as [l|] eqn:Ep.
  - unfold respond. upd_simpl. destruct (decide (p = q)) as [<-|Hne]; [by rewrite lookup_delete_eq|].
    rewrite lookup_delete_ne by done. apply H. set_solver.
  - destruct (decide (p = q)) as [<-|Hne]; [by rewrite Ep|]. apply H. set_solver.
Qed.

Lemma spawn_carried env p n d d' : Inv d → Carried {[p]} d → spawn_connecting env p n d = Some d' →
  Carried ∅ d'.
Proof.
  intros H Hc E. destruct (spawn_connecting_spec env p n d H) as (d2 & E2 & Hcases).
  assert (d2 = d') as -> by congruence. clear E E2.
  destruct Hcases as [[-> Hp]|[[_ ->]|(_ & _ & idx & s & wait & blocked & id & next & ->)]].
  - intros q _ Hq. destruct (decide (q = p)) as [->|Hne]; [done|]. apply Hc; [set_solver|done].
  - by apply drop_carried.
  - intros q _ Hq. unfold has_carrier, attempt_spawned. upd_simpl. rewrite lookup_insert_is_Some.
    destruct (decide (p = q)) as [<-|Hne]; [by left; left|].
    destruct (Hc q) as [Hx|Hx]; [set_solver|exact Hq|left; by right|by right].
Qed.

Lemma enqueue_carried p l d : Carried ∅ d → Carried {[p]} (enqueue p l d).
Proof.
  intros H q Hq Hne. apply H; [set_solver|]. revert Hne. unfold queued, enqueue. upd_simpl.
  rewrite lookup_insert_ne by set_solver. done.
Qed.

Lemma carried_close X p d : has_carrier d p → Carried {[p]} d → Carried X d.
Proof.
  intros Hp H q _ Hq. destruct (decide (q = p)) as [->|Hne]; [done|]. apply H; [set_solver|done].
Qed.

(** *** Handlers *)
Lemma predict_carried env now d d' : Inv d → Carried ∅ d →
  try_predict_upcoming_leaders_if_necessary env now d = Some d' → Carried ∅ d'.
Proof.
  intros H Hc. unfold try_predict_upcoming_leaders_if_necessary.
  destruct (now <=? _)%N; [by intros [= <-]|].
  destruct (leader_prediction_lookahead (config env)) as [lh|]; [|by intros [= <-]].
  set (d1 := d <| next_leader_prediction_deadline := _ |>).
  assert (Inv d1) as H1 by done. assert (Carried ∅ d1) as Hc1 by done. clearbody d1. clear H Hc d.
  revert d1 H1 Hc1. generalize (try_predict_next_n_leaders (leader_predictor env) lh).
  intros l. induction l as [|p l IH]; intros d H Hc; cbn [for_each]; [by intros [= <-]|].
  destruct (predict_leader env p d) as [d1|] eqn:E; [|done]. cbn [mbind option_bind].
  unfold predict_leader in E. destruct (_ || _); [injection E as <-; by apply IH|].
  apply IH; [by eapply spawn_connecting_inv|]. eapply spawn_carried; [exact H|by apply carried_weaken|exact E].
Qed.

Lemma evict_all_carried l d : Carried ∅ d → Carried ∅ (foldl (λ d p, evict_peer p d) d l).
Proof.
  revert d. induction l as [|p l IH]; intros d H; cbn [foldl]; [done|]. apply IH.
  unfold evict_peer. by destruct (tx_worker_handle_map d !! p).
Qed.

Lemma before_select_carried env now d d' : Inv d → Carried ∅ d → before_select env now d = Some d' →
  Carried ∅ d'.
Proof.
  intros H Hc. unfold before_select. destruct (do_eviction_if_required env now d) as [d1|] eqn:Ee; [|done].
  cbn [mbind option_bind]. pose proof (eviction_keeps env now d d1 Ee) as [[Hk _] _].
  apply predict_carried; [by apply Hk|]. unfold do_eviction_if_required in Ee.
  destruct (decide _); [by injection Ee as <-|].
  destruct (plan_eviction _ _ _ _ _ _); [|done]. injection Ee as <-. by apply evict_all_carried.
Qed.

Lemma accept_carried env now tx d d' : Inv d → Carried ∅ d → accept_tx env now tx d = Some d' →
  Carried ∅ d'.
Proof.
  intros H Hc. unfold accept_tx. set (p := Txn.remote_peer tx).
  set (d1 := d <| last_peer_activity ::= <[p := now]> |>).
  assert (Carried ∅ d1) as H1 by done. assert (Inv d1) as Hi1 by done. clearbody d1. clear H Hc d.
  destruct (tx_worker_handle_map d1 !! p) as [h|] eqn:Ep.
  - assert (has_carrier d1 p) as Hp by (right; rewrite Ep; by eexists).
    unfold try_send_to. destruct (channels (rt d1) !! sender h) as [c|].
    + destruct (try_send tx c) as [[] c']; intros [= <-]; [done|done|].
      apply (carried_close ∅ p); [done|]. by apply enqueue_carried.
    + intros [= <-]. apply (carried_close ∅ p); [done|]. by apply enqueue_carried.
  - pose proof (enqueue_carried p [(tx, 1)] d1 H1) as H2.
    assert (Inv (enqueue p [(tx, 1)] d1)) as Hi2 by (by apply keeps_enqueue).
    revert H2 Hi2. generalize (enqueue p [(tx, 1)] d1). intros d2 H2 Hi2.
    case_decide as Hcn; [|by apply spawn_carried]. intros [= <-].
    apply (carried_close ∅ p); [by left|done].
Qed.

Lemma after_worker_carried env now p e b d d' : Inv d → Carried {[p]} d →
  after_worker env now p e b d = Some d' → Carried ∅ d'.
Proof.
  intros H Hc. unfold after_worker, unreachable_peer.
  destruct (is_peer_unreachable e); [intros [= <-]; by apply drop_carried|].
  destruct b; [intros [= <-]; by apply drop_carried|]. case_decide as Hq.
  - set (d1 := d <| last_peer_activity ::= _ |>).
    assert (Inv d1) as H1 by done. assert (Carried {[p]} d1) as Hc1 by done. by apply spawn_carried.
  - intros [= <-]. intros q _ Hne. destruct (decide (q = p)) as [->|Hqp]; [done|]. apply Hc; [set_solver|done].
Qed.

Lemma worker_result_carried env now id completed w d d' : Inv d →
  tx_worker_set d !! id = Some w → completed_of w completed → Carried ∅ d →
  handle_worker_result env now (JoinOk id completed) d = Some d' → Carried ∅ d'.
Proof.
  intros H Hw [Hrx Hpend] Hc. pose proof H as (_ & H2 & _).
  destruct (proj1 (wk_task _ _ _ _ _ _ H2 id)) as [p Hm]; [by eexists|].
  destruct (wk_meta _ _ _ _ _ _ H2 id p Hm) as (h & w' & Hp & _ & _).
  destruct (release (connecting_remote_peers d) (connecting_blocked_by_eviction_list d)) as [ns l] eqn:Er.
  rewrite (jet_worker_result_eq env now id completed d p h ns l Hm Hp Er), Hrx, Hpend.
  destruct (worker_gone_spec id p h w d ns l H Hm Hp Hw Er) as (Hi & _ & _).
  assert (Carried {[p]} (worker_gone id p (JetWorker.incoming_rx w) ns l d)) as Hc1.
  { intros q Hq Hne. destruct (Hc q) as [Hx|Hx]; [set_solver|exact Hne|by left|right].
    unfold worker_gone. upd_simpl. rewrite lookup_delete_ne by set_solver. done. }
  revert Hi Hc1. generalize (worker_gone id p (JetWorker.incoming_rx w) ns l d). intros d1 Hi Hc1.
  apply after_worker_carried; [by apply keeps_enqueue|].
  intros q Hq Hne. apply Hc1; [done|]. revert Hne. unfold queued, enqueue. upd_simpl.
  rewrite lookup_insert_ne by set_solver. done.
Qed.

Lemma connecting_result_carried env id res d d' : Inv d → valid_connecting (JoinOk id res) d →
  Carried ∅ d → handle_connecting_result env (JoinOk id res) d = Some d' → Carried ∅ d'.
Proof.
  intros H (t & Ht & _ & _) Hc.
  destruct (proj1 (at_task _ _ _ _ _ _ (proj1 H) id)) as [m Hm]; [by eexists|].
  destruct (forget_connecting_spec id t m d H Ht Hm)
    as (d1 & Hf & _ & _ & Hi & Hp & Hh & Hhs & _ & _ & Hq & _).
  assert (Carried {[remote_peer_identity m]} d1) as Hc1.
  { intros q Hqm Hne. destruct (Hc q) as [Hx|Hx]; [set_solver| |left|right].
    - revert Hne. unfold queued. by rewrite Hq.
    - rewrite Hp, lookup_delete_ne by set_solver. done.
    - by rewrite Hhs. }
  unfold handle_connecting_result. upd_simpl. rewrite Hm. cbn [mbind option_bind]. rewrite Hf.
  cbn [mbind option_bind]. case_decide; [by apply spawn_carried|].
  destruct res as [conn|e].
  - unfold connected, install_worker, watch. upd_simpl. rewrite Hh. intros [= <-].
    intros q _ Hne. unfold has_carrier, spawn_worker. upd_simpl. rewrite lookup_insert_is_Some.
    destruct (decide (remote_peer_identity m = q)) as [<-|Hqm]; [by right; left|].
    destruct (Hc1 q) as [Hx|Hx]; [set_solver| |by left|by right; right].
    revert Hne. unfold queued, spawn_worker. upd_simpl. by rewrite lookup_delete_ne.
  - unfold attempt_failed, unreachable_peer. destruct e as [[]|ce|]; [done|..].
    + intros [= <-]. by apply drop_carried.
    + case_decide; [by apply spawn_carried|]. intros [= <-]. by apply drop_carried.
    + intros [= <-]. by apply drop_carried.
Qed.

(** No identity change, no panic of an attempt, and the inlet stays open. *)
Definition calm (l : Label) : Prop :=
  match l with
  | Handled (EvCommand _) | Handled (EvConnecting (JoinErr _)) | Handled EvInletClosed => False
  | _ => True
  end.

Lemma step_carried E c l c' : Inv c.2 → calm l → Carried ∅ c.2 → step E c l c' → Carried ∅ c'.2.
Proof.
  intros H Hl Hc Hs.
  destruct Hs as [env now d d' He Hp|env now ev d d' He Hv Hb|env now ev d d' He Hv Hb|id res d d' Hv Hr|ph d l d' Ht];
    cbn [snd] in *.
  - by eapply before_select_carried.
  - revert Hb. unfold select_branch.
    destruct ev as [tx| |k|[id completed|id]|[id res|id]|[id res|id]|changes]; try done.
    + destruct (accept_tx env now tx d) eqn:E1; [|done]. intros [= <-]. by eapply accept_carried.
    + destruct Hv as (w & Hw & Hco). destruct (handle_worker_result _ _ _ _) eqn:E1; [|done].
      intros [= <-]. by eapply worker_result_carried.
    + destruct (handle_connecting_result _ _ _) eqn:E1; [|done]. intros [= <-].
      by eapply connecting_result_carried.
    + unfold handle_tasklet_result. case_decide; [|done]. by intros [= <-].
    + intros [= <-]. eapply carried_same; [|apply addr_change_same_life|done].
      unfold handle_remote_peer_addr_change. generalize (hash_iter changes). intros l0. clear.
      revert d. induction l0 as [|p l0 IH]; intros d; [done|]. cbn [foldl]. rewrite IH.
      unfold addr_changed. destruct (tx_worker_handle_map d !! p); [|done].
      destruct (get_quic_dest_addr env p); [case_decide|]; done.
  - exfalso. destruct (select_branch_sound env now ev d H Hv) as (r & Hb' & _ & _ & _ & Hst).
    rewrite Hb in Hb'. injection Hb' as <-. destruct (Hst d' eq_refl) as [_ ->]. done.
  - unfold handle_tasklet_result in Hr. destruct (decide _); [|done]. by injection Hr as <-.
  - destruct Ht as [| |tid gd id w completed d' Hg Hid Hco Hd]; [done|done|].
    unfold graceful_drop_step in Hd. rewrite Hg in Hd. cbn [mbind option_bind] in Hd.
    destruct (gd_worker_meta gd !! id); [|done]. by injection Hd as <-.
Qed.

Lemma trace_carried E c ls c' : trace E c ls c' → Inv c.2 → Forall calm ls → Carried ∅ c.2 → Carried ∅ c'.2.
Proof.
  induction 1 as [c|c l c1 ls c2 Hs _ IH]; intros H Hl Hc; [done|].
  apply Forall_cons in Hl as [Hl Hls]. pose proof (gw_step_sound E c l c1 H Hs) as (H1 & _).
  apply IH; [done|done|eapply step_carried; [exact H|exact Hl|exact Hc|exact Hs]].
Qed.

Lemma started_carried (c : Phase * Gateway) : started c → Carried ∅ c.2.
Proof.
  intros (cfg & bind & ident & now & d & _ & Hd & ->). unfold spawn_on in Hd.
  destruct (forallb _ _); [|done]. injection Hd as <-. intros p _. by unfold queued; cbn; rewrite lookup_empty.
Qed.
End Carry.
