(* ===== verification/JetAttempts.v ===== *)
(** The numbers of the connection attempts of the jet's gateway: retries count
    up to the configured limit, and replays keep their number. *)
From S2P Require Import Prelude Types StakedSet Runtime Driver JetTypes JetWorker JetGateway JetInv JetSafe JetSystem JetLife.
Import JetTypes JetGateway.

Section Attempts.
Context `{HI : HashIter} {Ch : Type} `{MC : Mpsc Ch GatewayTransaction} `{ED : ErrorDisplay}.
Context `{SI : ValidatorStakeInfoService Stake} `{TI : LeaderTpuInfoService Tpu}.
Context `{ES : !ConnectionEvictionStrategy Strategy} `{LP : UpcomingLeaderPredictor Pred}.
Abbreviation Gateway := (@Gateway Ch).
Abbreviation Env := (@Env Stake Tpu Strategy Pred).
Implicit Types (d : Gateway) (p q : N) (env : Env) (E : Env → Prop) (c : Phase * Gateway).
Abbreviation step := (@step HI Ch MC ED Stake SI Tpu TI Strategy ES Pred LP).

Definition numbered (k : nat) d : Prop :=
  ∀ id m, connecting_meta d !! id = Some m → connection_attempt m ≤ k.

Lemma numbered_same k d d' : connecting_meta d' = connecting_meta d → numbered k d → numbered k d'.
Proof. unfold numbered. by intros ->. Qed.

Lemma numbered_spawn k env p n d d' : Inv d → n ≤ k → numbered k d →
  spawn_connecting env p n d = Some d' → numbered k d'.
Proof.
  intros H Hn Hk E. unfold spawn_connecting in E.
  destruct (decide _); [by injection E as <-|]. destruct (decide _).
  { injection E as <-. revert Hk. apply numbered_same. unfold drop_peer_queued_tx. by destruct (tx_queues d !! p). }
  destruct (decide _); [by injection E as <-|].
  destruct (spawn_task_spec env p n d H) as (idx & s & wait & blocked & id & next & Es & _).
  assert (attempt_spawned env p n idx s wait blocked id next d = d') as <- by congruence.
  intros i m. unfold attempt_spawned. upd_simpl. intros [[_ <-]|[_ Hm]]%lookup_insert_Some; [done|by eapply Hk].
Qed.

Lemma numbered_for_each {A} k (f : A → Gateway → option Gateway) l d d' : Inv d → numbered k d →
  (∀ a d d', a ∈ l → Inv d → numbered k d → f a d = Some d' → Inv d' ∧ numbered k d') →
  for_each f l d = Some d' → numbered k d'.
Proof.
  intros H Hk Hf. revert d H Hk Hf. induction l as [|a l IH]; intros d H Hk Hf; cbn [for_each]; [by intros [= <-]|].
  destruct (f a d) as [d1|] eqn:E; [|done]. cbn [mbind option_bind].
  destruct (Hf a d d1) as [H1 Hk1]; [by left|done..|]. apply IH; [done|done|].
  intros b e e' Hb. apply Hf. by right.
Qed.

Lemma evict_all_meta l d : connecting_meta (foldl (λ d p, evict_peer p d) d l) = connecting_meta d.
Proof.
  revert d. induction l as [|p l IH]; intros d; cbn [foldl]; [done|]. rewrite IH. unfold evict_peer.
  by destruct (tx_worker_handle_map d !! p).
Qed.

Lemma addr_change_meta env changes d :
  connecting_meta (handle_remote_peer_addr_change env changes d) = connecting_meta d.
Proof.
  unfold handle_remote_peer_addr_change. generalize (hash_iter changes). intros l. revert d.
  induction l as [|p l IH]; intros d; [done|]. cbn [foldl]. rewrite IH.
  unfold addr_changed. destruct (tx_worker_handle_map d !! p); [|done].
  destruct (get_quic_dest_addr env p); [case_decide|]; done.
Qed.

Lemma numbered_before_select k env now d d' : Inv d → numbered k d →
  max_connection_attempts (config env) ≤ k → before_select env now d = Some d' → numbered k d'.
Proof.
  intros H Hk Hmax. unfold before_select. destruct (do_eviction_if_required env now d) as [d1|] eqn:Ee; [|done].
  cbn [mbind option_bind].
  assert (connecting_meta d1 = connecting_meta d) as Em.
  { unfold do_eviction_if_required in Ee. destruct (decide _); [by injection Ee as <-|].
    destruct (plan_eviction _ _ _ _ _ _) as [plan|]; [|done]. injection Ee as <-. apply evict_all_meta. }
  pose proof (eviction_keeps env now d d1 Ee) as [[Hi _] _]. specialize (Hi H).
  apply (numbered_same k d d1 Em) in Hk. unfold try_predict_upcoming_leaders_if_necessary.
  destruct (now <=? _)%N; [by intros [= <-]|].
  destruct (leader_prediction_lookahead (config env)); [|by intros [= <-]].
  apply numbered_for_each; [exact Hi|exact Hk|]. intros p e e' _ He Hke. unfold predict_leader.
  destruct (_ || _); [by intros [= <-]|]. intros Es.
  split; [by eapply spawn_connecting_inv|by eapply (numbered_spawn k env p (max_connection_attempts (config env)) e)].
Qed.

Lemma numbered_accept k env now tx d d' : Inv d → numbered k d → 1 ≤ k →
  accept_tx env now tx d = Some d' → numbered k d'.
Proof.
  intros H Hk H1. unfold accept_tx. set (p := Txn.remote_peer tx).
  set (d1 := d <| last_peer_activity ::= <[p := now]> |>).
  destruct (tx_worker_handle_map d1 !! p) as [h|].
  - unfold try_send_to. destruct (channels (rt d1) !! sender h) as [c|];
      [destruct (try_send tx c) as [[] c']|]; by intros [= <-].
  - assert (Inv (enqueue p [(tx, 1)] d1)) as Hi by done.
    assert (numbered k (enqueue p [(tx, 1)] d1)) as Hk1 by done.
    revert Hi Hk1. generalize (enqueue p [(tx, 1)] d1). intros d2 Hi Hk1.
    case_decide; [by intros [= <-]|]. by apply numbered_spawn.
Qed.

Lemma numbered_connecting k env r d d' : Inv d → valid_connecting (Tpu := Tpu) r d → numbered k d →
  max_connection_attempts (config env) ≤ k → handle_connecting_result env r d = Some d' → numbered k d'.
Proof.
  intros H (t & Ht & _ & _) Hk Hmax.
  destruct (proj1 (at_task _ _ _ _ _ _ (proj1 H) (join_id r))) as [m Hm]; [by eexists|].
  destruct (forget_connecting_spec (join_id r) t m d H Ht Hm) as (d1 & Hf & _ & _ & Hi & Hrest).
  assert (numbered k d1) as Hk1.
  { intros i m'. unfold forget_connecting, update_endpoint_usage in Hf. revert Hf. upd_simpl.
    destruct (endpoints_usage d !! endpoint_idx m); [|done]. intros [= <-]. upd_simpl.
    intros [_ Hm']%lookup_delete_Some. by eapply Hk. }
  clear Hrest. specialize (Hk _ _ Hm).
  assert (∀ reason, numbered k (drop_peer_queued_tx (remote_peer_identity m) reason d1)) as Hdrop.
  { intros reason. revert Hk1. apply numbered_same. unfold drop_peer_queued_tx. by destruct (tx_queues d1 !! _). }
  unfold handle_connecting_result. destruct r as [id res|id]; cbn [join_id] in *; upd_simpl;
    rewrite Hm; cbn [mbind option_bind]; rewrite Hf; cbn [mbind option_bind]; [|by intros [= <-]].
  case_decide; [by apply numbered_spawn|]. destruct res as [conn|e].
  - unfold connected, install_worker. destruct (tx_worker_handle_map _ !! _); [done|]. by intros [= <-].
  - unfold attempt_failed, unreachable_peer. destruct e as [[]|ce|]; [done|by intros [= <-]| |by intros [= <-]].
    case_decide as Hlt; [apply numbered_spawn; [done|lia|done]|by intros [= <-]].
Qed.

Lemma numbered_worker k env now id completed w d d' : Inv d → tx_worker_set d !! id = Some w →
  completed_of w completed → numbered k d → 1 ≤ k →
  handle_worker_result env now (JoinOk id completed) d = Some d' → numbered k d'.
Proof.
  intros H Hw [Hrx Hpend] Hk H1. pose proof H as (_ & H2 & _).
  destruct (proj1 (wk_task _ _ _ _ _ _ H2 id)) as [p Hm]; [by eexists|].
  destruct (wk_meta _ _ _ _ _ _ H2 id p Hm) as (h & w' & Hp & _ & _).
  destruct (release (connecting_remote_peers d) (connecting_blocked_by_eviction_list d)) as [ns l] eqn:Er.
  rewrite (jet_worker_result_eq env now id completed d p h ns l Hm Hp Er), Hrx, Hpend.
  destruct (worker_gone_spec id p h w d ns l H Hm Hp Hw Er) as (Hi & _ & _).
  assert (numbered k (worker_gone id p (JetWorker.incoming_rx w) ns l d)) as Hk1 by done.
  revert Hi Hk1. generalize (worker_gone id p (JetWorker.incoming_rx w) ns l d). intros d1 Hi Hk1.
  set (q := _ ++ _). clearbody q.
  assert (Inv (enqueue p q d1)) as Hi2 by done. assert (numbered k (enqueue p q d1)) as Hk2 by done.
  revert Hi2 Hk2. generalize (enqueue p q d1). intros d2 Hi2 Hk2.
  assert (∀ reason, numbered k (drop_peer_queued_tx p reason d2)) as Hdrop.
  { intros reason. revert Hk2. apply numbered_same. unfold drop_peer_queued_tx. by destruct (tx_queues d2 !! _). }
  unfold after_worker, unreachable_peer. destruct (is_peer_unreachable _); [by intros [= <-]|].
  destruct (bool_decide _); [by intros [= <-]|]. case_decide; [|by intros [= <-]].
  set (d3 := d2 <| last_peer_activity ::= _ |>).
  assert (Inv d3) as Hi3 by done. assert (numbered k d3) as Hk3 by done. by apply numbered_spawn.
Qed.

Lemma numbered_identity k env i d d' : Inv d → numbered k d → update_identity env i d = Some d' → numbered k d'.
Proof.
  intros H Hk. unfold update_identity. pose proof (install_identity_spec i d H) as Hi.
  assert (connecting_meta (install_identity i d).2 = ∅) as Em by done.
  destruct (install_identity i d) as [metas d1]. cbn [snd] in Em. destruct Hi as (-> & H1 & _).
  apply numbered_for_each; [done|intros j m; by rewrite Em, lookup_empty|].
  intros m e e' ([j m'] & -> & Hm)%list_elem_of_fmap He Hke Es. apply elem_of_map_iter in Hm. cbv beta in Es.
  split; [by eapply spawn_connecting_inv|]. eapply numbered_spawn; [exact He| |exact Hke|exact Es]. by eapply Hk.
Qed.

Lemma numbered_step k E c l c' : (∀ env, E env → max_connection_attempts (config env) ≤ k) → 1 ≤ k →
  Inv c.2 → numbered k c.2 → step E c l c' → numbered k c'.2.
Proof.
  intros HE H1 H Hk Hs.
  destruct Hs as [env now d d' He Hp|env now ev d d' He Hv Hb|env now ev d d' He Hv Hb|id res d d' Hv Hr|ph d l d' Ht];
    cbn [snd] in *.
  - by eapply numbered_before_select; [exact H|exact Hk|by apply HE|exact Hp].
  - revert Hb. unfold select_branch.
    destruct ev as [tx| |[i|i]|[id completed|id]|rc|[id res|id]|changes]; try done.
    + destruct (accept_tx env now tx d) eqn:E1; [|done]. intros [= <-]. by eapply numbered_accept.
    + destruct (handle_cnc _ _ _) eqn:E1; [|done]. intros [= <-]. by eapply numbered_identity.
    + destruct (handle_cnc _ _ _) eqn:E1; [|done]. intros [= <-]. by eapply numbered_identity.
    + destruct Hv as (w & Hw & Hco). destruct (handle_worker_result _ _ _ _) eqn:E1; [|done].
      intros [= <-]. by eapply numbered_worker.
    + destruct (handle_connecting_result _ _ _) eqn:E1; [|done]. intros [= <-].
      eapply numbered_connecting; [exact H|exact Hv|exact Hk|by apply HE|exact E1].
    + unfold handle_tasklet_result. case_decide; [|done]. by intros [= <-].
    + intros [= <-]. revert Hk. apply numbered_same. apply addr_change_meta.
  - destruct (select_branch_sound env now ev d H Hv) as (r & Hb' & _ & _ & _ & Hst).
    rewrite Hb in Hb'. injection Hb' as <-. by destruct (Hst d' eq_refl) as [-> _].
  - unfold handle_tasklet_result in Hr. destruct (decide _); [|done]. by injection Hr as <-.
  - destruct Ht as [| |tid gd id w completed d' Hg Hid Hco Hd]; [done|done|].
    unfold graceful_drop_step in Hd. rewrite Hg in Hd. cbn [mbind option_bind] in Hd.
    destruct (gd_worker_meta gd !! id); [|done]. by injection Hd as <-.
Qed.
End Attempts.
