(* ===== verification/JetDemo.v ===== *)
(** A concrete gateway of the jet, on which the witnesses of [JetGuarantees]
    run: room for one connection, list channels, constant services. *)
From S2P Require Import Prelude Types StakedSet Runtime Driver JetTypes JetWorker JetGateway JetInv JetSafe JetSystem.
From Stdlib Require Import Strings.Byte.
Import JetTypes JetGateway.

Module JetDemo.
#[export] Existing Instance elements_iter.
#[export] Instance stakes : ValidatorStakeInfoService unit := λ _ p, Some (p * 10)%N.
#[export] Instance tpu : LeaderTpuInfoService (N → option N) :=
  {| get_quic_tpu_socket_addr f p := f p; get_quic_tpu_fwd_socket_addr f p := f p |}.
(** A predictor that always expects the same leaders. *)
#[export] Instance predictor : UpcomingLeaderPredictor (list N) := λ l n, take n l.
#[export] Instance display : ErrorDisplay :=
  {| connection_error_to_string _ := "lost"%string; varint_debug _ := "0"%string |}.

Definition cfg : QuicGatewayConfig := {|
  port_range := (8000, 10000)%N; max_idle_timeout := from_secs 30; max_connection_attempts := 3;
  transaction_sender_worker_channel_capacity := 10; connecting_timeout := from_secs 2;
  tpu_port_kind := Forwards; max_concurrent_connections := 1; max_local_port_binding_attempts := 3;
  num_endpoints := 2; max_send_attempt := 3; remote_peer_addr_watch_interval := from_secs 5;
  send_timeout := from_secs 2; leader_prediction_lookahead := Some 1; tpu_info_override := [] |}.

Abbreviation Ch := (ListChannel.t GatewayTransaction).
Abbreviation Gw := (@Gateway Ch).
Definition addresses (p : N) : option N := Some (1000 + p)%N.
Abbreviation Env := (@JetGateway.Env unit (N → option N) StakeBasedEvictionStrategy (list N)).
Definition env_predicting (leaders : list N) : Env := {|
  config := cfg; stake_info_map := tt; leader_tpu_info_service := addresses;
  eviction_strategy := default_strategy; leader_predictor := leaders;
  DEFAULT_MS_PER_SLOT := 400; NUM_CONSECUTIVE_LEADER_SLOTS := 4 |}.
(** The environments of the demo: one configuration, one prediction. *)
Definition only (leaders : list N) (env : Env) : Prop := env = env_predicting leaders.

Definition tx (sig peer : N) : GatewayTransaction := from_bytes sig peer [x00].
Definition start : option Gw := spawn_on cfg (λ _ _, true) 7 0.

(** A handshake that ends with connection [conn]. *)
Definition dial (conn : N) : DialOutcome := {| connect_with := None; handshake := Some (inl conn) |}.
Definition up (peer conn : N) : Connection + ConnectingError :=
  inl {| conn_id := conn; remote_address := (1000 + peer)%N |}.

(** One turn of the loop; [None] when it panics or stops. *)
Definition turn (leaders : list N) (now : N) (ev : GatewayEvent) (d : Gw) : option Gw :=
  d ← before_select (env_predicting leaders) now d;
  r ← select_branch (env_predicting leaders) now ev d;
  match r with inl d => Some d | inr _ => None end.

(** Decides [valid_event] for the events of the demo. *)
Definition plausible (ev : GatewayEvent) (d : Gw) : bool :=
  match ev with
  | EvTx _ | EvCommand _ | EvAddrChanges _ | EvInletClosed => true
  | EvConnecting (JoinOk id (inl conn)) =>
      match connecting_tasks d !! id with
      | Some t =>
          bool_decide (remote_address conn = 1000 + ct_remote_peer_identity t)%N &&
          match wait_for_eviction t with None => true | Some n => bool_decide (n ∈ notified (rt d)) end
      | None => false
      end
  | EvWorker (JoinOk id completed) =>
      match tx_worker_set d !! id with
      | Some w => bool_decide (JetWorker.rx completed = JetWorker.incoming_rx w ∧
                               JetWorker.pending_tx completed = JetWorker.tx_queue w)
      | None => false
      end
  | _ => false
  end.

Lemma plausible_valid ev d : plausible ev d = true →
  JetSystem.valid_event (Tpu := N → option N) ev d.
Proof.
  destruct ev as [| | |[id c|id]|[id [conn|e]|id]|[id res|id]|]; try done; cbn [plausible].
  - destruct (tx_worker_set d !! id) as [w|] eqn:E; [|done]. intros [H1 H2]%bool_decide_eq_true.
    by exists w.
  - destruct (connecting_tasks d !! id) as [t|] eqn:E; [|done]. intros [Ha Hw]%andb_prop.
    apply bool_decide_eq_true in Ha. exists t. split_and!; [done| |].
    + unfold released. destruct (wait_for_eviction t); [by apply bool_decide_eq_true in Hw|done].
    + exists addresses, (dial (conn_id conn)). split; [|done]. unfold connecting_run.
      assert (Types.get_quic_dest_addr addresses (ct_remote_peer_identity t) (ct_tpu_port_kind t)
              = Some (1000 + ct_remote_peer_identity t)%N) as -> by (by destruct (ct_tpu_port_kind t)).
      cbn. rewrite <-Ha. by destruct conn.
Qed.

(** A run of turns, each plausible. *)
Fixpoint play (leaders : list N) (evs : list (N * GatewayEvent)) (d : Gw) : option Gw :=
  match evs with
  | [] => Some d
  | (now, ev) :: evs =>
      d1 ← before_select (env_predicting leaders) now d;
      if plausible ev d1 then d ← turn leaders now ev d; play leaders evs d else None
  end.
Definition labels (evs : list (N * GatewayEvent)) : list Label :=
  evs ≫= λ e, [Internal; Handled e.2].

Lemma jet_play_trace leaders evs d d' : play leaders evs d = Some d' →
  trace (only leaders) (Top, d) (labels evs) (Top, d').
Proof.
  revert d. induction evs as [|[now ev] evs IH]; intros d; cbn [play]; [intros [= <-]; constructor|].
  unfold turn. destruct (before_select _ now d) as [d1|] eqn:E1; [|done]. cbn [mbind option_bind].
  destruct (plausible ev d1) eqn:Ep; [|done].
  destruct (select_branch _ now ev d1) as [[d2|d2]|] eqn:E2; [|done|done]. cbn [mbind option_bind].
  intros Hp. cbn [labels mbind list_bind app snd].
  eapply tr_cons; [by eapply st_prepare|]. eapply tr_cons; [|by apply IH].
  eapply st_branch; [done|by apply plausible_valid|exact E2].
Qed.

Definition gateway0 : Gw := default (mk_gateway ∅ StakedSet.empty ∅ ∅ ∅ [] ∅ ∅ ∅ 0 ∅ ∅ ∅ ∅ [] 0
  (mk_rt 0 ∅ ∅ [] []))%N start.
Lemma gateway0_started : started (Top, gateway0).
Proof. exists cfg, (λ _ _, true), 7%N, 0%N, gateway0. split_and!; [apply Nat.lt_0_succ|by vm_compute|done]. Qed.

(** Peer 1 is served (attempt 0, worker 3); peer 2 has to wait for an eviction
    (attempt 5); peer 1 is being evicted when the identity changes; then a
    transaction for peer 1 arrives. *)
Definition evicted_at_identity_change : list (N * GatewayEvent) :=
  [(1, EvTx (tx 11 1)); (2, EvConnecting (JoinOk 0 (up 1 50))); (3, EvTx (tx 12 2));
   (4, EvCommand (UpdateIdentity 8))]%N.
Definition gateway_banned : Gw := default gateway0 (play [] evicted_at_identity_change gateway0).
Lemma gateway_banned_eq : play [] evicted_at_identity_change gateway0 = Some gateway_banned.
Proof. by vm_compute. Qed.

(** Peer 3 is connected because it is predicted; then peer 1 has to wait. *)
Definition predicted_then_full : list (N * GatewayEvent) :=
  [(1, EvAddrChanges ∅); (2, EvConnecting (JoinOk 0 (up 3 50))); (3, EvTx (tx 11 1))]%N.
Definition gateway_full : Gw := default gateway0 (play [3%N] predicted_then_full gateway0).
Lemma gateway_full_eq : play [3%N] predicted_then_full gateway0 = Some gateway_full.
Proof. by vm_compute. Qed.
End JetDemo.
