(* ===== verification/JetGuarantees.v ===== *)
(** What the jet's gateway guarantees in every run, and two defects: a peer
    being evicted when the identity changes is refused for good, and a peer
    connected because it was predicted makes the next eviction panic. *)
From S2P Require Import Prelude Types StakedSet Eviction Runtime Driver JetTypes JetWorker JetGateway JetInv JetSafe JetSystem JetLife JetCarry JetAttempts JetDemo.
Import JetTypes JetGateway.

Section Guarantees.
Context `{HI : HashIter} {Ch : Type} `{MC : Mpsc Ch GatewayTransaction} `{ED : ErrorDisplay}.
Context `{SI : ValidatorStakeInfoService Stake} `{TI : LeaderTpuInfoService Tpu}.
Context `{ES : !ConnectionEvictionStrategy Strategy} `{LP : UpcomingLeaderPredictor Pred}.
Abbreviation Gateway := (@Gateway Ch).
Abbreviation Env := (@Env Stake Tpu Strategy Pred).
Implicit Types (d : Gateway) (p q : N) (env : Env) (E : Env → Prop) (c : Phase * Gateway).
Abbreviation valid_event := (@valid_event Ch Tpu TI).
Abbreviation step := (@step HI Ch MC ED Stake SI Tpu TI Strategy ES Pred LP).
Abbreviation trace := (@trace HI Ch MC ED Stake SI Tpu TI Strategy ES Pred LP).
Abbreviation reachable := (@reachable HI Ch MC ED Stake SI Tpu TI Strategy ES Pred LP).

(** ** Transactions *)

(** C9: In every run of the jet's QUIC gateway, its workers and its detached tasks,
    whatever the strategy, the predictions and the stream errors, each accepted transaction
    is exactly once in a queue, a channel or a worker, or was answered once, or was dropped
    unanswered with a worker of an old identity. *)
Theorem gateway_conserves_transactions E c0 ls c sig (Hs : started c0) (Hrun : trace E c0 ls c) :
  total sig c.2 + sum_labels (dropped_in sig) ls = sum_labels (accepted_in sig) ls.
Proof.
  destruct (started_sound c0 Hs) as (Hi & _ & H0).
  destruct (gw_trace_sound E c0 ls c Hrun Hi) as (_ & Ht & _). by rewrite Ht, H0.
Qed.

(** C11: As long as the identity stays, no connecting task panics and the inlet is open,
    every peer with queued transactions has a worker or a connection attempt in flight. *)
Theorem queued_transactions_have_a_carrier E c0 ls c p (Hs : started c0) (Hrun : trace E c0 ls c)
  (Hcalm : Forall calm ls) (Hq : queued c.2 p ≠ []) :
  is_Some (tx_worker_handle_map c.2 !! p) ∨ is_Some (connecting_remote_peers c.2 !! p).
Proof.
  destruct (started_sound c0 Hs) as (Hi & _).
  destruct (trace_carried E c0 ls c Hrun Hi Hcalm (started_carried c0 Hs) p) as [?|?]; auto. set_solver.
Qed.

(** ** The state *)

(** C13: In every reachable state the tables of the jet's gateway are well formed: tasks,
    metadata and peers of connection attempts correspond, each handle belongs to the one
    worker of its peer, on its address, channel, notification and the current identity, and
    no peer is both served and connecting. *)
Theorem gateway_tables_are_well_formed E c (Hr : reachable E c) :
  let d := c.2 in
  (∀ id, is_Some (connecting_tasks d !! id) ↔ is_Some (connecting_meta d !! id)) ∧
  (∀ p id, connecting_remote_peers d !! p = Some id ↔
     ∃ m, connecting_meta d !! id = Some m ∧ remote_peer_identity m = p) ∧
  (∀ id m, connecting_meta d !! id = Some m →
     current_client_identity m = identity d ∧ endpoint_idx m < length (endpoints_usage d)) ∧
  (∀ p h, tx_worker_handle_map d !! p = Some h →
     connecting_remote_peers d !! p = None ∧
     is_Some (StakedSet.peer_stake_map (active_staked_sorted_remote_peer d) !! p) ∧
     ∃ id w, tx_worker_task_meta_map d !! id = Some p ∧ tx_worker_set d !! id = Some w ∧
       JetWorker.remote_peer w = p ∧ remote_address (JetWorker.connection w) = h_remote_peer_addr h ∧
       JetWorker.incoming_rx w = sender h ∧ JetWorker.cancel_notify w = h_cancel_notify h ∧
       JetWorker.current_client_identity w = identity d ∧
       ∀ id', tx_worker_task_meta_map d !! id' = Some p → id' = id).
Proof.
  cbv zeta. destruct (gw_reachable_inv E c Hr) as (H1 & H2 & H3 & _ & [_ H5] & _). split_and!.
  - apply (at_task _ _ _ _ _ _ H1).
  - apply (at_peer _ _ _ _ _ _ H1).
  - apply (at_meta _ _ _ _ _ _ H1).
  - intros p h Hp. split; [apply H3; by eexists|]. split; [apply H5; by eexists|].
    destruct (wk_handle _ _ _ _ _ _ H2 p h Hp) as (id & Hid).
    destruct (wk_meta _ _ _ _ _ _ H2 id p Hid) as (h' & w & Hh' & Hw & _ & Hrest). simplify_eq.
    exists id, w. split_and!; try done; try apply Hrest.
    intros id' Hid'. by apply (wk_inj _ _ _ _ _ _ H2 id' id p).
Qed.

(** In every reachable state an attempt that waits for an eviction and was not notified is
    in the list that evictions serve, under its own peer. *)
Theorem gateway_waiters_are_listed E c id t n (Hr : reachable E c)
  (Ht : connecting_tasks c.2 !! id = Some t) (Hn : wait_for_eviction t = Some n)
  (Hno : n ∉ notified (rt c.2)) :
  {| we_remote_peer_identity := ct_remote_peer_identity t; notify := n |}
    ∈ connecting_blocked_by_eviction_list c.2.
Proof. destruct (gw_reachable_inv E c Hr) as (_ & _ & _ & H4 & _). by apply (wg_wait _ _ _ _ H4 id). Qed.

(** ** The life of a peer *)

(** C10: The jet's gateway refines the life cycle of a peer (absent, connecting, serving,
    evicting, banned): every step of the gateway, its workers and its detached tasks is,
    for every peer, one move of that five-phase machine. *)
Theorem peers_follow_the_life_cycle E c l c' p (Hr : reachable E c) (Hstep : step E c l c') :
  moves (phase c.2 p) (phase c'.2 p).
Proof.
  apply (step_moves E c l c' (gw_reachable_inv E c Hr) Hstep). by eapply reachable_clear.
Qed.

Lemma moves_banned s : rtc moves Banned s → s = Banned.
Proof.
  intros Hm. remember Banned as b eqn:Eb. induction Hm as [|x y z Hxy _ IH]; [done|].
  subst x. inversion Hxy. subst. by apply IH.
Qed.

Lemma banned_accept env now tx d p : phase d p = Banned → Txn.remote_peer tx = p →
  accept_tx env now tx d = Some (respond (GwTxDrop p GwRemotePeerBeingEvicted (queued d p ++ [(tx, 1)]))
    ((enqueue p [(tx, 1)] (d <| last_peer_activity ::= <[p := now]> |>)) <| tx_queues ::= delete p |>)).
Proof.
  intros Hb <-. unfold phase in Hb. revert Hb.
  destruct (decide (is_Some (tx_worker_handle_map d !! Txn.remote_peer tx))) as [|Hh%eq_None_not_Some];
    [by destruct (decide _)|].
  destruct (decide (is_Some (connecting_remote_peers d !! Txn.remote_peer tx))) as [|Hc]; [done|].
  destruct (decide _) as [He|]; [|done]. intros _.
  unfold accept_tx. upd_simpl. rewrite Hh.
  set (d1 := enqueue _ _ _).
  assert (connecting_remote_peers d1 = connecting_remote_peers d) as E1 by done.
  assert (being_evicted_peers d1 = being_evicted_peers d) as E2 by done.
  unfold spawn_connecting. rewrite E1, E2. do 2 (rewrite decide_False by done).
  rewrite decide_True by done. unfold drop_peer_queued_tx.
  assert (tx_queues d1 !! Txn.remote_peer tx = Some (queued d (Txn.remote_peer tx) ++ [(tx, 1)])) as ->.
  { unfold d1, enqueue. upd_simpl. by rewrite lookup_insert_eq. }
  done.
Qed.

(** C15: A defect: a peer whose worker is being evicted when the identity changes is
    refused for good. In every later state it has neither worker nor attempt, and each
    transaction for it is dropped as for a peer being evicted. *)
Theorem identity_change_bans_evicting_peers E env d d' cmd p ls c
  (Hr : reachable E (Waiting, d)) (Hev : phase d p = Evicting)
  (Hcmd : handle_cnc env cmd d = Some d') (Hrun : trace E (Top, d') ls c) :
  phase c.2 p = Banned ∧
  ∀ env now tx, Txn.remote_peer tx = p → ∃ d2, accept_tx env now tx c.2 = Some d2 ∧
    phase d2 p = Banned ∧ tx_queues d2 !! p = None ∧
    responses (rt d2) = responses (rt c.2) ++ [GwTxDrop p GwRemotePeerBeingEvicted (queued c.2 p ++ [(tx, 1)])].
Proof.
  pose proof (gw_reachable_inv E _ Hr) as Hi. pose proof (reachable_clear E _ Hr) as Hc. cbn [snd] in Hi, Hc.
  assert (∃ k, update_identity env k d = Some d') as [k Hup] by (destruct cmd as [k|k]; by exists k).
  assert (Inv d' ∧ Clear d' ∧ phase d' p = Banned) as (Hi' & Hc' & Hb').
  { destruct (update_identity_sound env k d Hi) as (d3 & E3 & [Hk _] & _). assert (d3 = d') as -> by congruence.
    pose proof (update_identity_moves env k d d' Hi Hup) as [Hcl Hm]. split_and!; [by apply Hk|by apply Hcl|].
    by apply (update_identity_bans env k d d' p). }
  pose proof (trace_moves E _ ls c Hrun Hi' Hc') as [_ Hmv]. specialize (Hmv p). cbn [snd] in Hmv.
  rewrite Hb' in Hmv. apply moves_banned in Hmv as Hb. split; [done|].
  intros env' now tx Htx. eexists. split; [by apply banned_accept|]. split_and!; [|by apply lookup_delete_eq|done].
  exact Hb.
Qed.
(** ** Panics *)

(** C12: As long as no leader is predicted, no worker task panics and no endpoint is
    stopping, the jet's gateway never panics: in every reachable state the evictions and
    predictions of the next iteration can be carried out, and every event that can occur is
    handled. (With predictions it does panic: predicted_peer_panics_the_eviction.) *)
Theorem gateway_never_panics E c env now (Hr : reachable E c)
  (Hquiet : ∀ env, E env → predicts_nothing env) :
  is_Some (before_select env now c.2) ∧
  ∀ ev, valid_event ev c.2 → is_Some (select_branch env now ev c.2).
Proof.
  pose proof (gw_reachable_inv E c Hr) as Hi. pose proof (gw_reachable_active E c Hr Hquiet) as Ha. split.
  - by apply before_select_defined.
  - intros ev Hv. destruct (select_branch_sound env now ev c.2 Hi Hv) as (r & -> & _). by eexists.
Qed.

(** ** Attempts *)

(** C14: With the configuration fixed, every connection attempt in flight is numbered at
    most max_connection_attempts (at least one), retries, predicted leaders and replays
    after identity changes included. *)
Theorem gateway_attempts_are_bounded cfg E c id m (Hcfg : ∀ env, E env → config env = cfg)
  (Hr : reachable E c) (Hm : connecting_meta c.2 !! id = Some m) :
  connection_attempt m ≤ max 1 (max_connection_attempts cfg).
Proof.
  destruct Hr as (c0 & ls & Hs & Hrun). set (k := max 1 (max_connection_attempts cfg)).
  assert (∀ env, E env → max_connection_attempts (config env) ≤ k) as HE by (intros env ->%Hcfg; lia).
  assert (numbered k c0.2) as H0.
  { destruct Hs as (cfg' & bind & ident & now & d & _ & Hd & ->). unfold spawn_on in Hd.
    destruct (forallb _ _); [|done]. injection Hd as <-. intros i m'. cbn. by rewrite lookup_empty. }
  pose proof (started_sound c0 Hs) as (Hi & _). clear Hs.
  enough (numbered k c.2) as Hk by (by eapply Hk). clear Hm m id.
  induction Hrun as [c|c l c1 ls c2 Hst _ IH]; [done|].
  apply IH; [eapply numbered_step; [exact HE|lia|exact Hi|exact H0|exact Hst]|].
  by apply (gw_step_sound E c l c1 Hi Hst).
Qed.
End Guarantees.

(** ** Evictions *)
Section Plan.
Context `{HI : HashIter}.

Lemma take_idle_filter self now usage n l plan : take_idle self now usage n l = Some plan →
  plan = (take n (filter (λ sp : N * N, Eviction.idle
    {| Eviction.peer_idle_eviction_grace_period := peer_idle_eviction_grace_period self |} now usage sp.2) l)).*2.
Proof.
  revert n plan. induction l as [|[k p] l IH]; intros [|n] plan; cbn [take_idle];
    try (by intros [= <-]).
  destruct (usage !! p) as [t|] eqn:Ep; [|done]. cbn [mbind option_bind].
  destruct (peer_idle_eviction_grace_period self <=? now - t)%N eqn:El.
  - destruct (take_idle self now usage n l) as [q|] eqn:Eq; [|done]. intros [= <-].
    rewrite filter_cons_True by (cbn; unfold Eviction.idle; cbn; by rewrite Ep, El).
    cbn. f_equal. by apply IH.
  - intros Hp. rewrite filter_cons_False by (cbn; unfold Eviction.idle; cbn; rewrite Ep, El; by intros []).
    by apply IH.
Qed.

(** When the gateway's stake-based strategy answers, it plans the evictions of the TPU
    client's strategy; and it answers whenever the last use of every connected peer is
    known. *)
Theorem gateway_plan_is_the_clients self now (ss : StakeSortedPeerSet) usage masq n (Hwf : StakedSet.wf ss) :
  (∀ plan, stake_plan_eviction self now ss usage masq n = Some plan →
     plan = Eviction.stake_plan_eviction
       {| Eviction.peer_idle_eviction_grace_period := peer_idle_eviction_grace_period self |}
       now ss usage masq n) ∧
  ((∀ p, is_Some (StakedSet.peer_stake_map ss !! p) → is_Some (usage !! p)) →
   is_Some (stake_plan_eviction self now ss usage masq n)).
Proof.
  split; [|exact (plan_eviction_defined self now ss usage masq n Hwf)].
  intros plan. unfold stake_plan_eviction, Eviction.stake_plan_eviction, Peers.is_empty.
  destruct (StakedSet.is_empty ss); [by intros [= <-]|].
  destruct (take_idle _ _ _ _ _) as [q|] eqn:Eq; [|done]. intros [= <-].
  apply take_idle_filter in Eq. cbv zeta. unfold not_evicting, Peers.iter in *. rewrite <-Eq. by destruct q.
Qed.
End Plan.
