(* ===== verification/JetWitnesses.v ===== *)
(** The theorems of [JetGuarantees] at work on the gateway of [JetDemo], and the
    run in which a predicted peer makes the gateway panic. *)
From S2P Require Import Prelude Types StakedSet Eviction Runtime Driver JetTypes JetWorker JetGateway JetInv JetSafe JetSystem JetLife JetCarry JetDemo JetGuarantees.
Import JetTypes JetGateway JetDemo.

Lemma banned_reachable : reachable (only []) (Top, gateway_banned).
Proof. exists (Top, gateway0), (labels evicted_at_identity_change). split; [apply gateway0_started|].
  apply jet_play_trace, gateway_banned_eq. Qed.

(** The state before the identity change: peer 1 is being evicted. *)
Definition two_peers : list (N * GatewayEvent) := take 3 evicted_at_identity_change.
Definition gateway_two : Gw := default gateway0 (play [] two_peers gateway0).
Definition gateway_evicting : Gw := default gateway0 (before_select (env_predicting []) 4 gateway_two).
Lemma gateway_two_eq : play [] two_peers gateway0 = Some gateway_two.
Proof. by vm_compute. Qed.
Lemma two_trace : trace (only []) (Top, gateway0) (labels two_peers) (Top, gateway_two).
Proof. apply jet_play_trace, gateway_two_eq. Qed.
Lemma gateway_evicting_eq : before_select (env_predicting []) 4 gateway_two = Some gateway_evicting.
Proof. by vm_compute. Qed.
Lemma jet_trace_app (E : Env → Prop) (c1 c2 c3 : JetSystem.Phase * Gw) l k :
  trace E c1 l c2 → trace E c2 k c3 → trace E c1 (l ++ k) c3.
Proof. induction 1; [done|]. intros Ht. cbn. by econstructor; [|apply IHtrace]. Qed.
Lemma evicting_reachable : reachable (only []) (Waiting, gateway_evicting).
Proof.
  exists (Top, gateway0), (labels two_peers ++ [Internal]). split; [apply gateway0_started|].
  eapply jet_trace_app; [apply two_trace|]. eapply tr_cons; [|apply tr_nil].
  eapply st_prepare; [done|apply gateway_evicting_eq].
Qed.

(** A peer connected because it was predicted has no recorded use: the next eviction hits
    the failed expect of the stake-based strategy, and the gateway panics. *)
Theorem predicted_peer_panics_the_eviction : ∃ d : Gw,
  reachable (only [3%N]) (Top, d) ∧ eviction_count_required d = 1 ∧
  dom (tx_worker_handle_map d) = {[3%N]} ∧ last_peer_activity d !! 3%N = None ∧
  before_select (env_predicting [3%N]) 4 d = None.
Proof.
  exists gateway_full. split.
  { exists (Top, gateway0), (labels predicted_then_full). split; [apply gateway0_started|].
    apply jet_play_trace, gateway_full_eq. }
  by vm_compute.
Qed.

Lemma gateway_conserves_transactions_witness :
  sum_labels (accepted_in 11%N) (labels evicted_at_identity_change) = 1 ∧
  total 11%N gateway_banned + sum_labels (dropped_in 11%N) (labels evicted_at_identity_change) = 1.
Proof.
  split; [reflexivity|].
  exact (gateway_conserves_transactions (only []) (Top, gateway0) (labels evicted_at_identity_change)
    (Top, gateway_banned) 11%N gateway0_started (jet_play_trace _ _ _ _ gateway_banned_eq)).
Defined.

Lemma queued_transactions_have_a_carrier_witness : queued gateway_two 2%N ≠ [] ∧
  (is_Some (tx_worker_handle_map gateway_two !! 2%N) ∨ is_Some (connecting_remote_peers gateway_two !! 2%N)).
Proof.
  assert (queued gateway_two 2%N ≠ []) as Hq by (by vm_compute). split; [exact Hq|].
  refine (queued_transactions_have_a_carrier (only []) (Top, gateway0) (labels two_peers)
    (Top, gateway_two) 2%N gateway0_started two_trace _ Hq).
  repeat constructor.
Defined.

Lemma two_reachable : reachable (only []) (Top, gateway_two).
Proof. exists (Top, gateway0), (labels two_peers). split; [apply gateway0_started|apply two_trace]. Qed.

Lemma gateway_tables_are_well_formed_witness : is_Some (tx_worker_handle_map gateway_two !! 1%N) ∧
  connecting_remote_peers gateway_two !! 1%N = None.
Proof.
  destruct (tx_worker_handle_map gateway_two !! 1%N) as [h|] eqn:Eh; [|by vm_compute in Eh].
  split; [by eexists|].
  destruct (gateway_tables_are_well_formed (only []) (Top, gateway_two) two_reachable) as (_ & _ & _ & Hh).
  exact (proj1 (Hh 1%N h Eh)).
Defined.

Lemma peers_follow_the_life_cycle_witness :
  phase gateway_two 1%N = Serving ∧ phase gateway_evicting 1%N = Evicting ∧
  moves (phase gateway_two 1%N) (phase gateway_evicting 1%N).
Proof.
  split; [by vm_compute|]. split; [by vm_compute|].
  refine (peers_follow_the_life_cycle (only []) (Top, gateway_two) Internal (Waiting, gateway_evicting) 1%N _ _).
  - apply two_reachable.
  - eapply st_prepare; [done|apply gateway_evicting_eq].
Defined.

Lemma identity_change_bans_evicting_peers_witness : phase gateway_banned 1%N = Banned.
Proof.
  refine (proj1 (identity_change_bans_evicting_peers (only []) (env_predicting []) gateway_evicting gateway_banned
    (UpdateIdentity 8) 1%N [] (Top, gateway_banned) evicting_reachable _ _ _)).
  - by vm_compute.
  - by vm_compute.
  - constructor.
Defined.

Lemma gateway_never_panics_witness : is_Some (before_select (env_predicting []) 9 gateway_banned).
Proof.
  refine (proj1 (gateway_never_panics (only []) (Top, gateway_banned) (env_predicting []) 9%N banned_reachable _)).
  intros env ->. right. intros n. by destruct n.
Defined.

Lemma gateway_attempts_are_bounded_witness : ∃ m, connecting_meta gateway_banned !! 7%N = Some m ∧
  connection_attempt m ≤ 3.
Proof.
  destruct (connecting_meta gateway_banned !! 7%N) as [m|] eqn:E; [|by vm_compute in E]. exists m. split; [done|].
  refine (gateway_attempts_are_bounded cfg (only []) (Top, gateway_banned) 7%N m _ banned_reachable E).
  by intros env ->.
Defined.

Definition demo_peers : StakeSortedPeerSet :=
  (StakedSet.insert 2%N 50%N (StakedSet.insert 1%N 100%N StakedSet.empty).2).2.
Lemma demo_peers_wf : StakedSet.wf demo_peers.
Proof. apply StakedSet.staked_insert_wf, StakedSet.staked_insert_wf, StakedSet.staked_empty_wf. Qed.

Lemma gateway_plan_is_the_clients_witness :
  [2%N] = Eviction.stake_plan_eviction {| Eviction.peer_idle_eviction_grace_period := 5 |} 20
            demo_peers {[1%N := 1%N; 2%N := 3%N]} ∅ 1.
Proof.
  refine (proj1 (gateway_plan_is_the_clients {| peer_idle_eviction_grace_period := 5 |} 20 demo_peers
    {[1%N := 1%N; 2%N := 3%N]} ∅ 1 demo_peers_wf) [2%N] _).
  by vm_compute.
Defined.
