(* ===== verification/JetUpdater.v ===== *)
(** [GatewayIdentityUpdater] and its future [UpdateIdentity]
    ([apps/jet/src/quic_client/core.rs]): the caller sends the command with a
    shared flag and waker, and polls until the gateway has set the flag. The
    flag and the waker are separate atomics, so the steps of a poll and of the
    gateway interleave. *)
From S2P Require Import Prelude.

Module JetUpdater.

(** Where the caller is: not polled since it last returned [Pending] (or never),
    past the first load, past the registration, or done. *)
Inductive Stage := Parked | Checked | Registered | Ready.
(** Where the gateway is: before the store, between the store and the wake, done. *)
Inductive Gateway := Working | Stored | Woke.

(** [UpdateIdentityInner], with the waker as the atomic waker of the futures
    library keeps it: a registered waker is taken by the next wake, which
    schedules the caller ([scheduled]). *)
Record UpdateIdentity := mk {
  set : bool;
  waker : bool;
  scheduled : bool;
  stage : Stage;
  gateway : Gateway
}.
#[export] Instance UpdateIdentity_settable : Settable UpdateIdentity := λ r,
  mk (set r) (waker r) (scheduled r) (stage r) (gateway r).

(** The future as [update_identity] first awaits it. *)
Definition update_identity : UpdateIdentity := mk false false true Parked Working.

(** [poll], in its three steps: load, register, load again. *)
Definition load (u : UpdateIdentity) : UpdateIdentity :=
  u <| scheduled := false |> <| stage := if set u then Ready else Checked |>.
Definition register (u : UpdateIdentity) : UpdateIdentity := u <| waker := true |> <| stage := Registered |>.
Definition load_again (u : UpdateIdentity) : UpdateIdentity :=
  u <| stage := if set u then Ready else Parked |>.

(** The end of the gateway's [update_identity]: store, then wake. *)
Definition store (u : UpdateIdentity) : UpdateIdentity := u <| set := true |> <| gateway := Stored |>.
Definition wake (u : UpdateIdentity) : UpdateIdentity :=
  u <| waker := false |> <| scheduled ::= orb (waker u) |> <| gateway := Woke |>.

(** The executor may poll a parked future at any time. *)
Inductive step (u : UpdateIdentity) : UpdateIdentity → Prop :=
  | st_load : stage u = Parked → step u (load u)
  | st_register : stage u = Checked → step u (register u)
  | st_load_again : stage u = Registered → step u (load_again u)
  | st_store : gateway u = Working → step u (store u)
  | st_wake : gateway u = Stored → step u (wake u).

Definition wf (u : UpdateIdentity) : Prop :=
  (set u = true ↔ gateway u ≠ Working) ∧
  match stage u with
  | Parked => scheduled u = true ∨ (waker u = true ∧ gateway u ≠ Woke)
  | Registered => waker u = true ∨ gateway u = Woke
  | Checked => True
  | Ready => set u = true
  end.

Lemma updater_wf_step u u' : step u u' → wf u → wf u'.
Proof.
  destruct u as [s w k st g]. unfold wf.
  intros []; cbn in *; subst; intros [Hs Hst]; destruct s, w, k; try destruct st; try destruct g; cbn in *; naive_solver.
Qed.

(** C17: The identity update of the jet's gateway is never forgotten: whatever the
    interleaving of the poll's atomic steps with the gateway's store and wake, once both
    were made a waiting caller has been scheduled again, its next poll returns, a poll
    under way returns too, and no poll returns before the store. *)
Theorem update_identity_wakes_the_caller u (Hr : rtc step update_identity u) :
  (gateway u = Woke → stage u = Parked → scheduled u = true ∧ stage (load u) = Ready) ∧
  (gateway u = Woke → stage u = Registered → stage (load_again u) = Ready) ∧
  (stage u = Ready → gateway u ≠ Working).
Proof.
  enough (wf u) as [Hs Hst].
  { split_and!; intros.
    - assert (set u = true) as E by (apply Hs; congruence). rewrite H0 in Hst.
      unfold load. upd_simpl. rewrite E. split; [|done]. destruct Hst as [?|[_ ?]]; congruence.
    - assert (set u = true) as E by (apply Hs; congruence). unfold load_again. upd_simpl. by rewrite E.
    - apply Hs. by rewrite H in Hst. }
  remember update_identity as u0 eqn:E. assert (wf u0) as H0 by (subst; split; cbn; naive_solver).
  clear E. induction Hr as [|x y z Hxy _ IH]; [done|]. by eapply IH, updater_wf_step.
Qed.

Lemma update_identity_wakes_the_caller_witness :
  let u := wake (store (load_again (register (load update_identity)))) in
  scheduled u = true ∧ stage (load u) = Ready.
Proof.
  cbv zeta.
  refine (proj1 (update_identity_wakes_the_caller (wake (store (load_again (register (load update_identity))))) _) eq_refl eq_refl).
  repeat (eapply rtc_r; [|by constructor]). constructor.
Defined.
End JetUpdater.
