(* ===== verification/JetResponses.v ===== *)
(** The responses of the jet's gateway: handlers, workers and detached tasks
    only ever append to what was sent on the response channel, so that a reader
    of that channel can keep its position in it. *)
From S2P Require Import Prelude Types StakedSet Runtime Driver JetTypes JetWorker JetGateway JetInv JetSafe JetSystem.
Import JetTypes JetGateway.

Section Responses.
Context `{HI : HashIter} {Ch : Type} `{MC : Mpsc Ch GatewayTransaction} `{ED : ErrorDisplay}.
Context `{SI : ValidatorStakeInfoService Stake} `{TI : LeaderTpuInfoService Tpu}.
Context `{ES : !ConnectionEvictionStrategy Strategy} `{LP : UpcomingLeaderPredictor Pred}.
Abbreviation Gateway := (@Gateway Ch).
Abbreviation Env := (@Env Stake Tpu Strategy Pred).
Implicit Types (d : Gateway) (p q : N) (env : Env) (E : Env → Prop) (c : Phase * Gateway).
Abbreviation step := (@step HI Ch MC ED Stake SI Tpu TI Strategy ES Pred LP).

(** What was answered in [d] is answered, first, in the result of [m]. *)
Definition says d (m : option Gateway) : Prop :=
  ∀ d', m = Some d' → responses (rt d) `prefix_of` responses (rt d').

Lemma says_ret d d' : responses (rt d) `prefix_of` responses (rt d') → says d (Some d').
Proof. by intros H d2 [= <-]. Qed.
Lemma says_same d d1 m : responses (rt d1) = responses (rt d) → says d1 m → says d m.
Proof. intros E H d' Hm. rewrite <-E. by apply H. Qed.
Lemma says_bind d m (f : Gateway → option Gateway) :
  says d m → (∀ d', says d' (f d')) → says d (m ≫= f).
Proof.
  intros Hm Hf d2. destruct m as [d1|]; [|done]. cbn [mbind option_bind]. intros E.
  etrans; [by apply Hm|by apply (Hf d1)].
Qed.
Lemma says_for_each {A} (f : A → Gateway → option Gateway) l d :
  (∀ a d, says d (f a d)) → says d (for_each f l d).
Proof.
  intros Hf. revert d. induction l as [|a l IH]; intros d; cbn [for_each]; [by apply says_ret|].
  by apply says_bind.
Qed.
Lemma says_foldl {A} (f : Gateway → A → Gateway) l d :
  (∀ a d, responses (rt (f d a)) = responses (rt d)) → responses (rt (foldl f d l)) = responses (rt d).
Proof. intros Hf. revert d. induction l as [|a l IH]; intros d; [done|]. cbn [foldl]. by rewrite IH. Qed.

Lemma respond_says r d : responses (rt d) `prefix_of` responses (rt (respond r d)).
Proof. unfold respond. upd_simpl. by apply prefix_app_r. Qed.

Lemma drop_says p reason d : responses (rt d) `prefix_of` responses (rt (drop_peer_queued_tx p reason d)).
Proof. unfold drop_peer_queued_tx. destruct (tx_queues d !! p) as [q|]; [|done]. unfold respond. upd_simpl. by apply prefix_app_r. Qed.

Lemma endpoint_usage_says idx f d : says d (update_endpoint_usage idx f d).
Proof. unfold update_endpoint_usage. destruct (endpoints_usage d !! idx); [|done]. by apply says_ret. Qed.

Lemma spawn_task_says env p n d : says d (spawn_task env p n d).
Proof.
  unfold spawn_task, wait_for_room. destruct (has_connection_capacity env d).
  - destruct (get_least_used_endpoint d) as [idx|]; [|done]. cbn [mbind option_bind].
    by apply says_bind; [apply endpoint_usage_says|intros d'; by apply says_ret].
  - cbn [fresh]. set (d1 := _ <| connecting_blocked_by_eviction_list ::= _ |>).
    apply (says_same d d1); [done|]. clearbody d1. destruct (get_least_used_endpoint d1) as [idx|]; [|done].
    cbn [mbind option_bind]. by apply says_bind; [apply endpoint_usage_says|intros d'; by apply says_ret].
Qed.

Lemma spawn_says env p n d : says d (spawn_connecting env p n d).
Proof.
  unfold spawn_connecting. do 3 (case_decide; [apply says_ret; done || apply drop_says|]). apply spawn_task_says.
Qed.

(** ** The handlers *)
Lemma before_select_says env now d : says d (before_select env now d).
Proof.
  unfold before_select. apply says_bind.
  - unfold do_eviction_if_required. case_decide; [by apply says_ret|].
    destruct (plan_eviction _ _ _ _ _ _) as [plan|]; [|done]. cbn [mbind option_bind]. apply says_ret.
    rewrite says_foldl; [done|]. intros p d'. unfold evict_peer. by destruct (tx_worker_handle_map d' !! p).
  - intros d'. unfold try_predict_upcoming_leaders_if_necessary. destruct (now <=? _)%N; [by apply says_ret|].
    destruct (leader_prediction_lookahead _); [|by apply says_ret]. eapply says_same; [|apply says_for_each]; [done|].
    intros p d2. unfold predict_leader. destruct (_ || _); [by apply says_ret|apply spawn_says].
Qed.

Lemma accept_says env now tx d : says d (accept_tx env now tx d).
Proof.
  unfold accept_tx. set (d1 := d <| last_peer_activity ::= _ |>). apply (says_same d d1); [done|]. clearbody d1.
  destruct (tx_worker_handle_map d1 !! Txn.remote_peer tx) as [h|].
  - unfold try_send_to. destruct (channels (rt d1) !! sender h) as [c|]; [|by apply says_ret].
    destruct (try_send tx c) as [[] c']; [by apply says_ret| |by apply says_ret].
    apply says_ret. apply (respond_says _ (set_channel (sender h) c' d1)).
  - set (d2 := enqueue _ _ d1). apply (says_same d1 d2); [done|]. clearbody d2.
    case_decide; [by apply says_ret|apply spawn_says].
Qed.

Lemma connecting_result_says env r d : says d (handle_connecting_result env r d).
Proof.
  assert (∀ id d, responses (rt (d <| connecting_tasks ::= delete id |>)) = responses (rt d)) as Ed by done.
  assert (∀ id m d, says d (forget_connecting id m d)) as Hf.
  { intros id m d'. unfold forget_connecting. eapply says_same; [|apply endpoint_usage_says]. done. }
  unfold handle_connecting_result. destruct r as [id res|id]; cbv zeta;
    (eapply says_same; [apply (Ed id)|]); generalize (d <| connecting_tasks ::= delete id |>); intros d1;
    (destruct (connecting_meta d1 !! id) as [m|]; [cbn [mbind option_bind]|done]); [|apply Hf].
  apply says_bind; [apply Hf|]. intros d2. case_decide; [apply spawn_says|]. destruct res as [conn|e].
  - unfold connected, install_worker. destruct (tx_worker_handle_map _ !! _); [done|]. by apply says_ret.
  - unfold attempt_failed, unreachable_peer.
    destruct e as [[]|ce|]; [done|apply says_ret, drop_says| |apply says_ret, drop_says].
    case_decide; [apply spawn_says|apply says_ret, drop_says].
Qed.

Lemma worker_result_says env now r d : says d (handle_worker_result env now r d).
Proof.
  unfold handle_worker_result. destruct r as [id completed|id]; [|done].
  set (d1 := d <| tx_worker_set ::= delete id |>). apply (says_same d d1); [done|]. clearbody d1.
  destruct (tx_worker_task_meta_map d1 !! id) as [p|]; [|done]. cbn [mbind option_bind].
  assert (responses (rt (worker_ended id p d1).2) = responses (rt d1)) as Ew.
  { unfold worker_ended, unblock_eviction_waiting_connection. cbv zeta. cbn [snd].
    destruct (release _ _) as [ns l]. upd_simpl. by rewrite says_foldl. }
  destruct (worker_ended id p d1) as [ev d2]. cbn [snd] in Ew. apply (says_same d1 d2); [done|]. clear Ew.
  destruct (tx_worker_handle_map d2 !! p); [|done]. cbn [mbind option_bind].
  unfold drain_channel. cbv zeta. set (remaining := from_option _ _ _). clearbody remaining.
  set (d3 := enqueue p _ _). apply (says_same d2 d3); [done|]. clearbody d3.
  unfold after_worker, unreachable_peer. destruct (is_peer_unreachable _); [apply says_ret, drop_says|].
  destruct (ev : bool); [apply says_ret, drop_says|]. case_decide; [|by apply says_ret].
  eapply says_same; [|apply spawn_says]. done.
Qed.

Lemma update_identity_says env i d : says d (update_identity env i d).
Proof.
  unfold update_identity, install_identity. cbv zeta.
  assert (responses (rt (schedule_graceful_drop_all_worker d)) = responses (rt d)) as Es by done.
  eapply says_same; [|apply says_for_each; intros m d'; apply spawn_says]. exact Es.
Qed.

Lemma addr_change_says env changes d :
  responses (rt (handle_remote_peer_addr_change env changes d)) = responses (rt d).
Proof.
  unfold handle_remote_peer_addr_change. apply says_foldl. intros p d'. unfold addr_changed.
  destruct (tx_worker_handle_map d' !! p); [|done]. destruct (get_quic_dest_addr env p); [case_decide|]; done.
Qed.

Lemma select_branch_says env now ev d r : select_branch env now ev d = Some r →
  responses (rt d) `prefix_of` responses (rt (match r with inl d' | inr d' => d' end)).
Proof.
  assert (∀ m : option Gateway, says d m → inl <$> m = Some r →
    responses (rt d) `prefix_of` responses (rt (match r with inl d' | inr d' => d' end))) as Hm.
  { intros [d'|] Hs; [|done]. intros [= <-]. by apply Hs. }
  unfold select_branch. destruct ev as [tx| |[i|i]|w|k|k|changes].
  - apply Hm, accept_says.
  - by intros [= <-].
  - apply Hm, update_identity_says.
  - apply Hm, update_identity_says.
  - apply Hm, worker_result_says.
  - apply Hm, connecting_result_says.
  - apply Hm. unfold handle_tasklet_result. case_decide; [by apply says_ret|done].
  - intros [= <-]. by rewrite addr_change_says.
Qed.

Lemma worker_step_says w (r : @Runtime Ch) w' r' : worker_step w r w' r' → responses r `prefix_of` responses r'.
Proof. intros []; upd_simpl; [done|by apply prefix_app_r]. Qed.

(** Every step of the gateway and its tasks only appends responses. *)
Lemma step_says E c l c' : step E c l c' → responses (rt c.2) `prefix_of` responses (rt c'.2).
Proof.
  intros [env now d d' _ Hp|env now ev d d' _ _ Hb|env now ev d d' _ _ Hb|id res d d' _ Hr|ph d k d' Ht]; cbn [snd].
  - by eapply before_select_says.
  - by apply select_branch_says in Hb.
  - by apply select_branch_says in Hb.
  - unfold handle_tasklet_result in Hr. destruct (decide _); [|done]. by injection Hr as <-.
  - destruct Ht as [id w w' r' _ Hw|tid gd id w w' r' _ _ Hw|tid gd id w completed d' Hg _ _ Hd].
    + upd_simpl. by eapply worker_step_says.
    + upd_simpl. by eapply worker_step_says.
    + unfold graceful_drop_step in Hd. rewrite Hg in Hd. cbn [mbind option_bind] in Hd.
      destruct (gd_worker_meta gd !! id); [|done]. by injection Hd as <-.
Qed.
End Responses.
