(* ===== verification/JetWatcher.v ===== *)
(** The address watcher of the jet's gateway ([RemotePeerAddrWatcher] of
    [apps/jet/src/quic_client/core.rs], whose text is that of the client's, [Watcher])
    joined to the gateway: the commands of the gateway go to the watcher's channel, the
    changes the watcher reports come back as an event of the gateway's loop. *)
From S2P Require Import Prelude Types StakedSet Runtime Driver Watcher JetTypes JetWorker JetGateway JetInv JetSafe JetSystem JetDemo.
Import JetTypes JetGateway.
Import (hints) Watcher.

Module JetWatcher.

(** ** The watcher's parts *)
Abbreviation Command := Driver.RemotePeerAddrWatcherCommand.
Abbreviation RemotePeerAddrWatcher := Watcher.Watcher.
Definition new : RemotePeerAddrWatcher := Watcher.new.
Definition send (c : Command) (w : RemotePeerAddrWatcher) : RemotePeerAddrWatcher :=
  match c with
  | Driver.RegisterWatch peer addr => Watcher.register_watch peer addr w
  | Driver.DeregisterWatch peer => Watcher.forget peer w
  end.
Definition handle_cnc (c : Command) (w : RemotePeerAddrWatcher) : RemotePeerAddrWatcher := Watcher.handle_cnc c w.
Definition recv (w : RemotePeerAddrWatcher) : option RemotePeerAddrWatcher :=
  match Watcher.cnc w with [] => None | c :: l => Some (handle_cnc c (w <| Watcher.cnc := l |>)) end.
Definition update_peers_to_watch `{HashIter} `{LeaderTpuInfoService Tpu} (service : Tpu) (kind : TpuPortKind)
    (w : RemotePeerAddrWatcher) : RemotePeerAddrWatcher := Watcher.update_peers_to_watch service kind w.
(** [notified], up to the lock and from it. *)
Definition wake (w : RemotePeerAddrWatcher) : option RemotePeerAddrWatcher := Watcher.wake w.
Definition take_changes (w : RemotePeerAddrWatcher) : option (gset N * RemotePeerAddrWatcher) := Watcher.take_changes w.

(** What a command does to the watches. *)
Definition watches_after (m : gmap N N) (c : Command) : gmap N N :=
  match c with
  | Driver.RegisterWatch p a => match m !! p with Some _ => m | None => <[p := a]> m end
  | Driver.DeregisterWatch p => delete p m
  end.
Definition registers (k : list Command) (p : N) : Prop := ∀ m, is_Some (foldl watches_after m k !! p).
Definition deregisters (k : list Command) (p : N) : Prop := Driver.DeregisterWatch p ∈ k.

Lemma watches_keep k p m : ¬ deregisters k p → is_Some (m !! p) → is_Some (foldl watches_after m k !! p).
Proof.
  revert m. induction k as [|c k IH]; intros m Hk Hm; [done|]. cbn [foldl]. apply IH.
  - intros Hd. apply Hk. by right.
  - destruct c as [q a|q]; cbn [watches_after].
    + destruct (m !! q); [done|]. rewrite lookup_insert_is_Some. destruct (decide (q = p)); auto.
    + rewrite lookup_delete_ne; [done|]. intros ->. apply Hk. by left.
Qed.
Lemma registers_l k1 k2 p : registers k1 p → ¬ deregisters k2 p → registers (k1 ++ k2) p.
Proof. intros H1 H2 m. rewrite foldl_app. by apply watches_keep. Qed.
Lemma registers_r k1 k2 p : registers k2 p → registers (k1 ++ k2) p.
Proof. intros H1 m. rewrite foldl_app. apply H1. Qed.
Lemma handle_cnc_map c w : Watcher.peers_to_watch_map (handle_cnc c w) = watches_after (Watcher.peers_to_watch_map w) c.
Proof. unfold handle_cnc, Watcher.handle_cnc. destruct c as [p a|p]; cbn [watches_after]; [|done]. by destruct (_ !! p). Qed.

Section Commands.
Context `{HI : HashIter} {Ch : Type} `{MC : Mpsc Ch GatewayTransaction} `{ED : ErrorDisplay}.
Context `{SI : ValidatorStakeInfoService Stake} `{TI : LeaderTpuInfoService Tpu}.
Context `{ES : !ConnectionEvictionStrategy Strategy} `{LP : UpcomingLeaderPredictor Pred}.
Abbreviation Gateway := (@Gateway Ch).
Abbreviation Env := (@Env Stake Tpu Strategy Pred).
Implicit Types (d : Gateway) (p q : N) (env : Env) (E : Env → Prop) (c : Phase * Gateway).
Abbreviation gw_step := (@JetSystem.step HI Ch MC ED Stake SI Tpu TI Strategy ES Pred LP).

(** ** What the gateway's handlers tell the watcher *)

(** Neither workers nor watches change, and notifications stay. *)
Record quiet d d' : Prop := {
  q_handles : tx_worker_handle_map d' = tx_worker_handle_map d;
  q_cmds : watcher_cmds (rt d') = watcher_cmds (rt d);
  q_notified : notified (rt d) ⊆ notified (rt d')
}.
#[local] Instance quiet_preorder : PreOrder quiet.
Proof. split; [by split|]. intros a b c [] []. split; [congruence..|set_solver]. Qed.
Definition rests d (m : option Gateway) : Prop := ∀ d', m = Some d' → quiet d d'.

Lemma rests_ret d d' : quiet d d' → rests d (Some d').
Proof. by intros H d2 [= <-]. Qed.
Lemma rests_same d d1 m : quiet d d1 → rests d1 m → rests d m.
Proof. intros Hq H d' Hm. etrans; [exact Hq|by apply H]. Qed.
Lemma rests_bind d m (f : Gateway → option Gateway) : rests d m → (∀ d', rests d' (f d')) → rests d (m ≫= f).
Proof.
  intros Hm Hf d2. destruct m as [d1|]; [|done]. cbn [mbind option_bind]. intros E.
  etrans; [by apply Hm|by apply (Hf d1)].
Qed.
Lemma rests_for_each {A} (f : A → Gateway → option Gateway) l d : (∀ a d, rests d (f a d)) → rests d (for_each f l d).
Proof.
  intros Hf. revert d. induction l as [|a l IH]; intros d; cbn [for_each]; [by apply rests_ret|]. by apply rests_bind.
Qed.
Lemma quiet_foldl {A} (f : Gateway → A → Gateway) l d : (∀ a d, quiet d (f d a)) → quiet d (foldl f d l).
Proof. intros Hf. revert d. induction l as [|a l IH]; intros d; [done|]. cbn [foldl]. etrans; [apply Hf|apply IH]. Qed.

Lemma quiet_notify n d : quiet d (notify_one n d).
Proof. unfold notify_one. split; upd_simpl; [done|done|set_solver]. Qed.
Lemma quiet_drop p reason d : quiet d (drop_peer_queued_tx p reason d).
Proof. unfold drop_peer_queued_tx, respond. destruct (tx_queues d !! p) as [q|]; [|done]. by split; upd_simpl. Qed.
Lemma quiet_enqueue p l d : quiet d (enqueue p l d).
Proof. unfold enqueue. by split; upd_simpl. Qed.
Lemma rests_usage idx f d : rests d (update_endpoint_usage idx f d).
Proof. unfold update_endpoint_usage. destruct (endpoints_usage d !! idx); [|done]. by apply rests_ret; split; upd_simpl. Qed.

Lemma rests_spawn_task env p n d : rests d (spawn_task env p n d).
Proof.
  unfold spawn_task. assert (quiet d (wait_for_room env p d).2) as Hw.
  { unfold wait_for_room. destruct (has_connection_capacity env d); [done|]. cbn. by split; upd_simpl. }
  destruct (wait_for_room env p d) as [wait d1]. cbn [snd] in Hw. apply (rests_same d d1); [done|].
  destruct (get_least_used_endpoint d1) as [idx|]; [|done]. cbn [mbind option_bind].
  apply rests_bind; [apply rests_usage|]. intros d2. cbn [fresh]. by apply rests_ret; split; upd_simpl.
Qed.
Lemma rests_spawn env p n d : rests d (spawn_connecting env p n d).
Proof.
  unfold spawn_connecting. case_decide; [by apply rests_ret|]. case_decide; [by apply rests_ret, quiet_drop|].
  case_decide; [by apply rests_ret|]. apply rests_spawn_task.
Qed.
Lemma rests_before_select env now d : rests d (before_select env now d).
Proof.
  unfold before_select. apply rests_bind.
  - unfold do_eviction_if_required. case_decide; [by apply rests_ret|].
    destruct (plan_eviction _ _ _ _ _ _) as [plan|]; [|done]. cbn [mbind option_bind]. apply rests_ret, quiet_foldl.
    intros p d'. unfold evict_peer. destruct (tx_worker_handle_map d' !! p); [|done].
    etrans; [apply quiet_notify|]. by split; upd_simpl.
  - intros d'. unfold try_predict_upcoming_leaders_if_necessary. destruct (now <=? _)%N; [by apply rests_ret|].
    destruct (leader_prediction_lookahead _); [|by apply rests_ret; split; upd_simpl].
    eapply rests_same; [|apply rests_for_each]; [by split; upd_simpl|].
    intros p d2. unfold predict_leader. destruct (_ || _); [by apply rests_ret|apply rests_spawn].
Qed.
Lemma rests_accept env now tx d : rests d (accept_tx env now tx d).
Proof.
  unfold accept_tx. set (d1 := d <| last_peer_activity ::= _ |>). apply (rests_same d d1); [by unfold d1; split; upd_simpl|]. clearbody d1.
  destruct (tx_worker_handle_map d1 !! Txn.remote_peer tx) as [h|].
  - unfold try_send_to, set_channel, respond, enqueue. destruct (channels (rt d1) !! sender h) as [c|];
      [|by apply rests_ret; split; upd_simpl]. destruct (try_send tx c) as [[] c']; by apply rests_ret; split; upd_simpl.
  - eapply rests_same; [apply quiet_enqueue|]. case_decide; [by apply rests_ret|apply rests_spawn].
Qed.

(** A worker that stays was not deregistered; a new one is registered, last. *)
Definition follows d d' : Prop := ∃ k,
  watcher_cmds (rt d') = watcher_cmds (rt d) ++ k ∧ notified (rt d) ⊆ notified (rt d') ∧
  ∀ p h, tx_worker_handle_map d' !! p = Some h →
    (tx_worker_handle_map d !! p = Some h ∧ ¬ deregisters k p) ∨ registers k p.

Lemma quiet_follows d d' : quiet d d' → follows d d'.
Proof.
  intros [E1 E2 E3]. exists []. rewrite E2, app_nil_r, E1. split_and!; [done|done|].
  intros p h Hp. left. split; [done|]. apply not_elem_of_nil.
Qed.
#[local] Instance follows_preorder : PreOrder follows.
Proof.
  split; [intros d; by apply quiet_follows|]. intros a b c (k1 & E1 & N1 & H1) (k2 & E2 & N2 & H2).
  exists (k1 ++ k2). split_and!; [by rewrite E2, E1, app_assoc|set_solver|]. intros p h Hp.
  destruct (H2 p h Hp) as [[Hb Hd2]|Hr]; [|right; by apply registers_r].
  destruct (H1 p h Hb) as [[Ha Hd1]|Hr]; [left|right; by apply registers_l].
  split; [done|]. unfold deregisters. rewrite elem_of_app. tauto.
Qed.
Definition follow d (m : option Gateway) : Prop := ∀ d', m = Some d' → follows d d'.
Lemma rests_follow d m : rests d m → follow d m.
Proof. intros H d' Hd. by apply quiet_follows, H. Qed.
Lemma follow_quiet d d1 m : quiet d d1 → follow d1 m → follow d m.
Proof. intros Hq H d' Hm. etrans; [by apply quiet_follows|by apply H]. Qed.

Lemma connected_follow env p conn d : follow d (connected env p conn d).
Proof.
  unfold connected, install_worker. destruct (tx_worker_handle_map _ !! p) as [?|]; [done|].
  intros d' [= <-]. unfold spawn_worker, watch. exists [Driver.RegisterWatch p (remote_address conn)]. upd_simpl.
  split_and!; [done|done|]. intros q h [[? _]|[? Hq]]%lookup_insert_Some.
  - subst q. right. intros m. cbn [foldl watches_after]. destruct (m !! p) eqn:Em; [by rewrite Em|]. by rewrite lookup_insert_eq.
  - left. split; [done|]. by intros ?%list_elem_of_singleton.
Qed.

Lemma connecting_result_follow env r d : follow d (handle_connecting_result env r d).
Proof.
  assert (∀ id m d, rests d (forget_connecting id m d)) as Hf.
  { intros id m d'. unfold forget_connecting. eapply rests_same; [|apply rests_usage]. by split; upd_simpl. }
  unfold handle_connecting_result. destruct r as [id res|id]; cbv zeta;
    (apply (follow_quiet d (d <| connecting_tasks ::= delete id |>)); [by split; upd_simpl|]);
    generalize (d <| connecting_tasks ::= delete id |>); intros d1;
    (destruct (connecting_meta d1 !! id) as [m|]; [cbn [mbind option_bind]|done]); [|apply rests_follow, Hf].
  intros d3 Hd3. destruct (forget_connecting id m d1) as [d2|] eqn:Ef; [|done]. cbn [mbind option_bind] in Hd3.
  apply Hf in Ef. revert d3 Hd3. apply (follow_quiet d1 d2); [done|]. clear Ef.
  case_decide; [apply rests_follow, rests_spawn|]. destruct res as [conn|e]; [apply connected_follow|]. apply rests_follow.
  unfold attempt_failed, unreachable_peer.
  destruct e as [[]|ce|]; [done|apply rests_ret, quiet_drop| |apply rests_ret, quiet_drop].
  case_decide; [apply rests_spawn|apply rests_ret, quiet_drop].
Qed.

Lemma worker_ended_spec id p d : let d' := (worker_ended id p d).2 in
  tx_worker_handle_map d' = tx_worker_handle_map d ∧
  watcher_cmds (rt d') = watcher_cmds (rt d) ++ [Driver.DeregisterWatch p] ∧ notified (rt d) ⊆ notified (rt d').
Proof.
  unfold worker_ended, unblock_eviction_waiting_connection. cbv zeta. cbn [snd].
  destruct (release _ _) as [ns l]. upd_simpl. set (d1 := _ <| connecting_blocked_by_eviction_list := l |>).
  assert (quiet d1 (foldl (λ d n, notify_one n d) d1 ns)) as [E1 E2 E3] by (apply quiet_foldl; intros; apply quiet_notify).
  rewrite E1, E2. split_and!; [done|done|]. etrans; [|exact E3]. done.
Qed.

Lemma worker_result_follow env now r d : follow d (handle_worker_result env now r d).
Proof.
  unfold handle_worker_result. destruct r as [id completed|id]; [|done].
  apply (follow_quiet d (d <| tx_worker_set ::= delete id |>)); [by split; upd_simpl|].
  generalize (d <| tx_worker_set ::= delete id |>). intros d1.
  destruct (tx_worker_task_meta_map d1 !! id) as [p|]; [|done]. cbn [mbind option_bind].
  pose proof (worker_ended_spec id p d1) as (E1 & E2 & E3).
  destruct (worker_ended id p d1) as [ev d2]. cbn [snd] in E1, E2, E3.
  destruct (tx_worker_handle_map d2 !! p); [|done]. cbn [mbind option_bind]. unfold drain_channel. cbv zeta.
  set (remaining := from_option _ _ _). clearbody remaining.
  set (d3 := d2 <| tx_worker_handle_map ::= _ |> <| last_peer_activity ::= _ |>).
  assert (follows d1 d3) as H3.
  { exists [Driver.DeregisterWatch p]. unfold d3. upd_simpl. rewrite E1, E2. split_and!; [done|done|].
    intros q h [Hne Hq]%lookup_delete_Some. left. split; [done|]. by intros [= ->]%list_elem_of_singleton. }
  intros d' Hd'. etrans; [exact H3|]. clear H3 E1 E2 E3. revert d' Hd'. clearbody d3.
  match goal with |- context [enqueue p ?l ?x] =>
    apply (follow_quiet d3 (enqueue p l x)); [etrans; [|apply quiet_enqueue]; by split; upd_simpl|] end.
  apply rests_follow. set (d4 := enqueue p _ _). clearbody d4. unfold after_worker, unreachable_peer.
  destruct (is_peer_unreachable _); [apply rests_ret, quiet_drop|]. destruct (ev : bool); [apply rests_ret, quiet_drop|].
  case_decide; [|by apply rests_ret]. eapply rests_same; [|apply rests_spawn]. by split; upd_simpl.
Qed.

Lemma update_identity_follow env i d : follow d (update_identity env i d).
Proof.
  unfold update_identity, install_identity. cbv zeta. intros d' Hd'.
  match type of Hd' with replay_connecting _ _ ?x = _ => set (d1 := x) in Hd' end.
  assert (follows d d1) as H1.
  { exists []. unfold d1, schedule_graceful_drop_all_worker. cbn [fresh]. upd_simpl. rewrite app_nil_r.
    split_and!; [done|done|]. intros p h. by rewrite lookup_empty. }
  etrans; [exact H1|]. revert d' Hd'. apply rests_follow, rests_for_each. intros m d2. apply rests_spawn.
Qed.

Lemma addr_changed_quiet env p d : quiet d (addr_changed env p d).
Proof.
  unfold addr_changed. destruct (tx_worker_handle_map d !! p); [|done].
  destruct (get_quic_dest_addr env p); [case_decide; [|done]|]; apply quiet_notify.
Qed.
Lemma addr_change_quiet env changes d : quiet d (handle_remote_peer_addr_change env changes d).
Proof. apply quiet_foldl. intros p d'. apply addr_changed_quiet. Qed.

Lemma select_branch_follow env now ev d r : select_branch env now ev d = Some r →
  follows d (match r with inl d' | inr d' => d' end).
Proof.
  assert (∀ m : option Gateway, follow d m → inl <$> m = Some r → follows d (match r with inl d' | inr d' => d' end)) as Hm.
  { intros [d'|] Hs; [|done]. intros [= <-]. by apply Hs. }
  unfold select_branch. destruct ev as [tx| |[i|i]|w|k|k|changes].
  - apply Hm, rests_follow, rests_accept.
  - intros [= <-]. exists []. unfold schedule_graceful_drop_all_worker. cbn [fresh]. upd_simpl. rewrite app_nil_r.
    split_and!; [done|done|]. intros p h. by rewrite lookup_empty.
  - apply Hm, update_identity_follow.
  - apply Hm, update_identity_follow.
  - apply Hm, worker_result_follow.
  - apply Hm, connecting_result_follow.
  - apply Hm, rests_follow. unfold handle_tasklet_result. case_decide; [|done]. apply rests_ret. by split; upd_simpl.
  - intros [= <-]. apply quiet_follows, addr_change_quiet.
Qed.

Lemma worker_step_runtime w (r : @Runtime Ch) w' r' : worker_step w r w' r' →
  watcher_cmds r' = watcher_cmds r ∧ notified r' = notified r.
Proof. by intros []; upd_simpl. Qed.

(** Every step of the gateway and its tasks. *)
Lemma step_follows E c l c' : gw_step E c l c' → follows c.2 c'.2.
Proof.
  intros [env now d d' _ Hp|env now ev d d' _ _ Hb|env now ev d d' _ _ Hb|id res d d' _ Hr|ph d k d' Ht]; cbn [snd].
  - by apply rests_before_select in Hp as ?%quiet_follows.
  - by apply select_branch_follow in Hb.
  - by apply select_branch_follow in Hb.
  - unfold handle_tasklet_result in Hr. destruct (decide _); [|done]. injection Hr as <-.
    apply quiet_follows. by split; upd_simpl.
  - apply quiet_follows. destruct Ht as [id w w' r' _ Hw|tid gd id w w' r' _ _ Hw|tid gd id w completed d' Hg _ _ Hd].
    + apply worker_step_runtime in Hw as [E1 E2]. split; upd_simpl; by rewrite ?E1, ?E2.
    + apply worker_step_runtime in Hw as [E1 E2]. split; upd_simpl; by rewrite ?E1, ?E2.
    + unfold graceful_drop_step in Hd. rewrite Hg in Hd. cbn [mbind option_bind] in Hd.
      destruct (gd_worker_meta gd !! id); [|done]. injection Hd as <-. by split; upd_simpl.
Qed.

(** A delivered change of a served peer cancels its worker, unless the peer is published
    where the worker is connected. *)
Lemma addr_change_cancels env changes d p h : p ∈ changes → tx_worker_handle_map d !! p = Some h →
  get_quic_dest_addr env p ≠ Some (h_remote_peer_addr h) →
  h_cancel_notify h ∈ notified (rt (handle_remote_peer_addr_change env changes d)).
Proof.
  intros Hp%elem_of_hash_iter. unfold handle_remote_peer_addr_change. generalize dependent d.
  induction Hp as [q l|q q' l Hl IH]; intros d Hh Ha; cbn [foldl].
  - apply (q_notified _ _ (quiet_foldl _ l _ (λ x d, addr_changed_quiet env x d))). unfold addr_changed, notify_one.
    rewrite Hh. destruct (get_quic_dest_addr env q) as [a|]; [rewrite decide_True by congruence|]; upd_simpl; set_solver.
  - apply IH; [|done]. by rewrite (q_handles _ _ (addr_changed_quiet env q' d)).
Qed.

(** ** The two joined *)
Record Watched := mk { gw : Phase * Gateway; watcher : RemotePeerAddrWatcher }.
#[local] Instance Watched_settable : Settable Watched := λ r, mk (gw r) (watcher r).

(** What a step shows: the changes delivered to the gateway, and in which environment. *)
Inductive WatchLabel := InGateway (l : Label) | Delivered (env : Env) (changes : gset N) | InWatcher.
Definition other_branch (l : Label) : Prop := match l with Handled (EvAddrChanges _) => False | _ => True end.

Inductive watch_step E : Watched → WatchLabel → Watched → Prop :=
  | wt_gateway l gw' k s :
      other_branch l → gw_step E (gw s) l gw' → watcher_cmds (rt gw'.2) = watcher_cmds (rt (gw s).2) ++ k →
      watch_step E s (InGateway l) (mk gw' (foldl (λ w x, send x w) (watcher s) k))
  | wt_deliver env changes w d s :
      E env → gw s = (Waiting, d) → take_changes (watcher s) = Some (changes, w) →
      watch_step E s (Delivered env changes) (mk (Top, handle_remote_peer_addr_change env changes d) w)
  | wt_recv w s : recv (watcher s) = Some w → watch_step E s InWatcher (s <| watcher := w |>)
  | wt_tick (service : Tpu) kind s :
      watch_step E s InWatcher (s <| watcher := update_peers_to_watch service kind (watcher s) |>)
  | wt_wake w s : wake (watcher s) = Some w → watch_step E s InWatcher (s <| watcher := w |>).
Inductive watch_trace E : Watched → list WatchLabel → Watched → Prop :=
  | wc_nil s : watch_trace E s [] s
  | wc_cons s l s1 ls s2 : watch_step E s l s1 → watch_trace E s1 ls s2 → watch_trace E s (l :: ls) s2.
Definition watch_started (s : Watched) : Prop := JetSystem.started (gw s) ∧ watcher s = new.

(** Once the commands under way are handled, the peer is watched. *)
Definition will_watch (s : Watched) p : Prop :=
  is_Some (foldl watches_after (Watcher.peers_to_watch_map (watcher s)) (Watcher.cnc (watcher s)) !! p).
Definition spent_on p (h : TxWorkerSenderHandle) (l : WatchLabel) : Prop :=
  ∃ env changes, l = Delivered env changes ∧ p ∈ changes ∧ get_quic_dest_addr env p = Some (h_remote_peer_addr h).
Definition cared_for (X : N → TxWorkerSenderHandle → Prop) (s : Watched) : Prop := ∀ p h,
  tx_worker_handle_map (gw s).2 !! p = Some h →
  will_watch s p ∨ p ∈ Watcher.changes (watcher s) ∨ h_cancel_notify h ∈ notified (rt (gw s).2) ∨ X p h.

Lemma send_all k w : let w' := foldl (λ w x, send x w) w k in
  Watcher.cnc w' = Watcher.cnc w ++ k ∧ Watcher.peers_to_watch_map w' = Watcher.peers_to_watch_map w ∧
  Watcher.changes w' = Watcher.changes w.
Proof.
  cbv zeta. revert w. induction k as [|x k IH]; intros w; cbn [foldl]; [by rewrite app_nil_r|].
  destruct (IH (send x w)) as (-> & -> & ->). unfold send, Watcher.register_watch, Watcher.forget.
  destruct x; upd_simpl; by rewrite <-app_assoc.
Qed.
Lemma watches_local k m m' p : m !! p = m' !! p → foldl watches_after m k !! p = foldl watches_after m' k !! p.
Proof.
  revert m m'. induction k as [|c k IH]; intros m m' E; [done|]. cbn [foldl]. apply IH.
  destruct c as [q a|q]; cbn [watches_after].
  - destruct (decide (q = p)) as [->|Hne].
    + rewrite <-E. destruct (m !! p) eqn:Em; [congruence|]. by rewrite !lookup_insert_eq.
    + destruct (m !! q), (m' !! q); by rewrite ?lookup_insert_ne.
  - destruct (decide (q = p)) as [->|Hne]; [by rewrite !lookup_delete_eq|by rewrite !lookup_delete_ne].
Qed.

(** The watcher forgets a peer only to report it. *)
Lemma tick_watches service kind w p k : is_Some (foldl watches_after (Watcher.peers_to_watch_map w) k !! p) →
  let w' := update_peers_to_watch service kind w in
  is_Some (foldl watches_after (Watcher.peers_to_watch_map w') k !! p) ∨ p ∈ Watcher.changes w'.
Proof.
  intros Hp w'. destruct (Watcher.update_spec service kind w) as (Hch & Hmap & _). fold w' in Hch, Hmap.
  destruct (Watcher.peers_to_watch_map w !! p) as [a|] eqn:Ea.
  - destruct (Watcher.moved service kind p a) eqn:Em; [right; apply Hch; eauto|left].
    erewrite watches_local; [exact Hp|]. rewrite Ea. by apply Hmap.
  - left. erewrite watches_local; [exact Hp|]. rewrite Ea. destruct (Watcher.peers_to_watch_map w' !! p) as [b|] eqn:Eb; [|done].
    apply Hmap in Eb as [? _]. congruence.
Qed.

Lemma cared_step E X s l s' : watch_step E s l s' → cared_for X s → cared_for (λ p h, X p h ∨ spent_on p h l) s'.
Proof.
  intros Hs Hc. destruct Hs as [l gw' k s Hl Hg Hk|env changes w d s He Hgw Ht|w s Hr|service kind s|w s Hw];
    unfold cared_for, will_watch in *; upd_simpl.
  - cbn [gw watcher]. destruct (send_all k (watcher s)) as (-> & -> & ->). intros p h Hp.
    destruct (step_follows E _ _ _ Hg) as (k' & Hk' & Hn & Hf). rewrite Hk in Hk'. apply app_inv_head in Hk' as <-.
    rewrite foldl_app. destruct (Hf p h Hp) as [[Hp' Hd]|Hr]; [|left; apply Hr].
    destruct (Hc p h Hp') as [?|[?|[?|?]]]; [left; by apply watches_keep|auto|right; right; left; set_solver|auto].
  - cbn [gw watcher snd]. intros p h. rewrite (q_handles _ _ (addr_change_quiet env changes d)).
    specialize (Hc p h). rewrite Hgw in Hc. cbn [snd] in Hc. intros Hp.
    unfold take_changes, Watcher.take_changes in Ht. destruct (Watcher.woken (watcher s)); [|done]. injection Ht as <- <-.
    upd_simpl. destruct (Hc Hp) as [?|[Hin|[Hn|?]]]; [by left| |right; right; left|by auto].
    + destruct (decide (get_quic_dest_addr env p = Some (h_remote_peer_addr h))) as [Ha|Ha].
      * right. right. right. right. by exists env, (Watcher.changes (watcher s)).
      * right. right. left. by eapply addr_change_cancels.
    + by apply (q_notified _ _ (addr_change_quiet env _ d)).
  - intros p h Hp. unfold recv in Hr. destruct (Watcher.cnc (watcher s)) as [|x k] eqn:Ek; [done|]. injection Hr as <-.
    rewrite handle_cnc_map. upd_simpl.
    assert (∀ w, Watcher.cnc (handle_cnc x w) = Watcher.cnc w ∧ Watcher.changes (handle_cnc x w) = Watcher.changes w) as Hsame.
    { intros w. unfold handle_cnc, Watcher.handle_cnc. destruct x as [q a|q]; [by destruct (_ !! q)|done]. }
    rewrite (proj1 (Hsame _)), (proj2 (Hsame _)). upd_simpl. destruct (Hc p h Hp) as [?|[?|[?|?]]]; auto.
  - intros p h Hp. pose proof (Watcher.update_spec service kind (watcher s)) as (Hch & _ & _ & Ecnc & _).
    destruct (Hc p h Hp) as [Hw|[Hin|[?|?]]]; [|right; left; apply Hch; by left|auto..].
    apply (tick_watches service kind) in Hw as [?|?]; [left|by auto]. unfold update_peers_to_watch in *. by rewrite Ecnc.
  - intros p h Hp. unfold wake, Watcher.wake in Hw. destruct (Watcher.permit (watcher s)); [|done]. injection Hw as <-.
    upd_simpl. destruct (Hc p h Hp) as [?|[?|[?|?]]]; auto.
Qed.

Lemma cared_trace E X s ls s' : watch_trace E s ls s' → cared_for X s → cared_for (λ p h, X p h ∨ ∃ l, l ∈ ls ∧ spent_on p h l) s'.
Proof.
  intros Ht. revert X. induction Ht as [s|s l s1 ls s2 Hs _ IH]; intros X Hc p h Hp.
  - destruct (Hc p h Hp) as [?|[?|[?|?]]]; auto.
  - apply (cared_step _ _ _ _ _ Hs) in Hc. destruct (IH _ Hc p h Hp) as [?|[?|[?|[[?|?]|(l' & ? & ?)]]]]; auto.
    + right. right. right. right. exists l. split; [by left|done].
    + right. right. right. right. exists l'. split; [by right|done].
Qed.

(** C16: No served peer is forgotten by the address watcher: in every run of the jet's
    gateway joined to it, a peer with a worker is watched once the commands under way are
    handled, or is among the changes about to be delivered, or its worker was told to stop;
    the one exception is a change delivered while the peer was published where its worker
    was. *)
Theorem served_peers_are_watched E s0 ls s p h (Hs : watch_started s0) (Hrun : watch_trace E s0 ls s)
  (Hserved : tx_worker_handle_map (gw s).2 !! p = Some h) :
  will_watch s p ∨ p ∈ Watcher.changes (watcher s) ∨ h_cancel_notify h ∈ notified (rt (gw s).2) ∨
  ∃ env changes, Delivered env changes ∈ ls ∧ p ∈ changes ∧ get_quic_dest_addr env p = Some (h_remote_peer_addr h).
Proof.
  destruct Hs as [(cfg & bind & ident & now & d & _ & Hd & Egw) Ew].
  assert (cared_for (λ _ _, False) s0) as H0.
  { unfold cared_for. intros q k. rewrite Egw. unfold spawn_on in Hd. destruct (forallb _ _); [|done]. by injection Hd as <-. }
  destruct (cared_trace _ _ _ _ _ Hrun H0 p h Hserved) as [?|[?|[?|[[]|(l & Hl & env & changes & -> & ? & ?)]]]]; auto.
  right. right. right. by exists env, changes.
Qed.
End Commands.
End JetWatcher.

(** ** A run: peer 1 is watched at the address of its first worker. *)
Module JetWatcherDemo.
Import JetDemo JetWatcher.
Abbreviation Wd := (@Watched Ch).
Abbreviation wd_step := (@watch_step _ Ch _ _ unit _ (N → option N) _ _ _ (list N) _).
Abbreviation wd_trace := (@watch_trace _ Ch _ _ unit _ (N → option N) _ _ _ (list N) _).
Abbreviation environment := (env_predicting []).

Inductive Move :=
  | Prepare (now : N)
  | Accept (now : N) (txn : GatewayTransaction)
  | Identity (now i : N)
  | Connect (now id conn addr : N)
  | Receive
  | Tick
  | Wake
  | Deliver.

(** A branch of the gateway's loop, and the commands it adds. *)
Definition forward (d' : Gw) (ph : Phase) (s : Wd) : Wd :=
  mk (ph, d') (foldl (λ w x, send x w) (watcher s) (drop (length (watcher_cmds (rt (gw s).2))) (watcher_cmds (rt d')))).
Definition branch (now : N) (ev : GatewayEvent) (s : Wd) : option Wd :=
  match gw s with
  | (Waiting, d) =>
      r ← select_branch environment now ev d;
      match r with inl d' => Some (forward d' Top s) | inr _ => None end
  | _ => None
  end.
Definition move (m : Move) (s : Wd) : option Wd :=
  match m with
  | Prepare now => match gw s with (Top, d) => d' ← before_select environment now d; Some (forward d' Waiting s) | _ => None end
  | Accept now txn => branch now (EvTx txn) s
  | Identity now i => branch now (EvCommand (UpdateIdentity i)) s
  | Connect now id conn addr =>
      match connecting_tasks (gw s).2 !! id with
      | Some t => match wait_for_eviction t with
                  | None => branch now (EvConnecting (JoinOk id (inl {| conn_id := conn; remote_address := addr |}))) s
                  | Some _ => None
                  end
      | None => None
      end
  | Receive => w ← recv (watcher s); Some (mk (gw s) w)
  | Tick => Some (mk (gw s) (update_peers_to_watch addresses Forwards (watcher s)))
  | Wake => w ← wake (watcher s); Some (mk (gw s) w)
  | Deliver =>
      match gw s with
      | (Waiting, d) => '(changes, w) ← take_changes (watcher s);
                        Some (mk (Top, handle_remote_peer_addr_change environment changes d) w)
      | _ => None
      end
  end.

Lemma forwards_step d d' l ph ph' w : other_branch l →
  JetSystem.step (only []) (ph, d) l (ph', d') →
  wd_step (only []) (mk (ph, d) w) (InGateway l) (forward d' ph' (mk (ph, d) w)).
Proof.
  intros Hl Hs. unfold forward. cbn [gw watcher snd].
  destruct (step_follows _ _ _ _ Hs) as (k & Hk & _). cbn [snd] in Hk.
  eapply (wt_gateway _ l (ph', d')); [done|exact Hs|]. cbn [gw snd]. by rewrite Hk, drop_app_length.
Qed.
Lemma branch_step now ev s s' : other_branch (Handled ev) → JetSystem.valid_event (Tpu := N → option N) ev (gw s).2 →
  branch now ev s = Some s' → wd_step (only []) s (InGateway (Handled ev)) s'.
Proof.
  intros Hl Hv. unfold branch. destruct s as [[[] d] w]; try done. cbn [gw].
  destruct (select_branch _ now ev d) as [[d'|d']|] eqn:Eb; [|done|done]. cbn [mbind option_bind]. intros [= <-].
  apply forwards_step; [done|]. by eapply st_branch.
Qed.

Lemma move_step m s s' : move m s = Some s' → ∃ l, wd_step (only []) s l s'.
Proof.
  destruct m as [now|now txn|now i|now id conn addr| | | |]; cbn [move].
  - destruct s as [[[] d] w]; try done. cbn [gw]. destruct (before_select _ now d) as [d'|] eqn:E; [|done].
    intros [= <-]. eexists. apply (forwards_step d d' Internal); [done|]. by eapply st_prepare.
  - intros H. eexists. eapply branch_step; [| |exact H]; exact I.
  - intros H. eexists. eapply branch_step; [| |exact H]; exact I.
  - destruct (connecting_tasks (gw s).2 !! id) as [t|] eqn:Et; [|done].
    destruct (wait_for_eviction t) eqn:Ew; [done|]. intros H. eexists. eapply (branch_step now (EvConnecting _)); [exact I| |exact H].
    exists t. split_and!; [exact Et|unfold released; by rewrite Ew|].
    exists (λ _, Some addr), (dial conn). split; [|done]. unfold connecting_run.
    by destruct (ct_tpu_port_kind t).
  - destruct (recv _) as [w|] eqn:E; [|done]. cbn [mbind option_bind]. intros [= <-]. exists InWatcher. by apply (wt_recv _ w s).
  - intros [= <-]. exists InWatcher. apply (wt_tick (Tpu := N → option N) _ addresses Forwards s).
  - destruct (wake _) as [w|] eqn:E; [|done]. cbn [mbind option_bind]. intros [= <-]. exists InWatcher. by apply (wt_wake _ w s).
  - destruct s as [[[] d] w]; try done. cbn [gw watcher]. destruct (take_changes w) as [[changes w']|] eqn:E; [|done].
    cbn [mbind option_bind]. intros [= <-]. exists (Delivered environment changes). by eapply wt_deliver.
Qed.

Fixpoint moves (l : list Move) (s : Wd) : option Wd :=
  match l with [] => Some s | m :: l => s ← move m s; moves l s end.
Lemma moves_trace l s s' : moves l s = Some s' → ∃ ls, wd_trace (only []) s ls s'.
Proof.
  revert s. induction l as [|m l IH]; intros s; cbn [moves]; [intros [= <-]; exists []; constructor|].
  destruct (move m s) as [s1|] eqn:E; [|done]. cbn [mbind option_bind]. intros [ls Hls]%IH.
  apply move_step in E as [k Hk]. exists (k :: ls). by econstructor.
Qed.

Definition watch_start : Wd := mk (Top, gateway0) new.
Lemma watch_start_started : watch_started watch_start.
Proof. split; [apply gateway0_started|done]. Qed.

(** Peer 1 is connected at 2001, and watched there; after an identity change it is
    connected at 1001, where it is now published. *)
Definition first_connection : list Move :=
  [Prepare 1; Accept 1 (tx 11 1); Prepare 2; Connect 2 0 50 2001; Receive]%N.
Definition second_connection : list Move :=
  [Prepare 3; Identity 3 8; Prepare 4; Accept 4 (tx 12 1); Prepare 5; Connect 5 5 51 1001; Receive; Prepare 6; Tick; Wake; Deliver]%N.
Definition once : Wd := default watch_start (moves first_connection watch_start).
Definition twice : Wd := default once (moves second_connection once).

Lemma served_peers_are_watched_witness : ∃ s h, moves first_connection watch_start = Some s ∧
  tx_worker_handle_map (gw s).2 !! 1%N = Some h ∧
  (will_watch s 1%N ∨ 1%N ∈ Watcher.changes (watcher s) ∨ h_cancel_notify h ∈ notified (rt (gw s).2) ∨
   ∃ env changes, get_quic_dest_addr (Tpu := N → option N) (Stake := unit) (Strategy := StakeBasedEvictionStrategy) (Pred := list N)
     env 1%N = Some (h_remote_peer_addr h) ∧ 1%N ∈ (changes : gset N)).
Proof.
  assert (moves first_connection watch_start = Some once) as E by (vm_compute; reflexivity).
  destruct (tx_worker_handle_map (gw once).2 !! 1%N) as [h|] eqn:Eh; [|vm_compute in Eh; discriminate Eh].
  exists once, h. split; [exact E|]. split; [exact Eh|].
  destruct (moves_trace _ _ _ E) as [ls Hls].
  destruct (served_peers_are_watched (only []) watch_start ls once 1%N h watch_start_started Hls Eh)
    as [?|[?|[?|(env & changes & _ & ? & ?)]]]; [auto..|].
  right. right. right. exists env, changes. auto.
Defined.

(** A defect: registering a watch never replaces an old one, and an identity change leaves
    the watches of the dropped workers. A peer that moved before it was connected again is
    watched at its old address, reported when it has already been followed, and then no
    longer watched: its later moves go unnoticed. *)
Theorem identity_change_unwatches_a_served_peer : ∃ ls s h,
  wd_trace (only []) watch_start ls s ∧ tx_worker_handle_map (gw s).2 !! 1%N = Some h ∧
  ¬ will_watch s 1%N ∧ Watcher.changes (watcher s) = ∅ ∧ h_cancel_notify h ∉ notified (rt (gw s).2).
Proof.
  assert (moves (first_connection ++ second_connection) watch_start = Some twice) as E by (vm_compute; reflexivity).
  destruct (tx_worker_handle_map (gw twice).2 !! 1%N) as [h|] eqn:Eh; [|vm_compute in Eh; discriminate Eh].
  destruct (moves_trace _ _ _ E) as [ls Hls]. exists ls, twice, h. split_and!; [exact Hls|exact Eh| | |].
  - intros [a Ha]. vm_compute in Ha. discriminate Ha.
  - by vm_compute.
  - vm_compute in Eh. injection Eh as <-. apply (bool_decide_unpack _). by vm_compute.
Qed.
End JetWatcherDemo.
