(* ===== verification/Fanout.v ===== *)
(** The transaction fan-out ([TransactionFanout] in [transactions.rs] of
    [apps/jet/src]): each transaction is forwarded by a task of its own to the
    leaders that its policies allow and to the extra peers, once at a time per
    signature. *)
From S2P Require Import Prelude Types Runtime Retry JetTypes.
From Stdlib Require Import Strings.Byte.
Import Retry.

Class UpcomingLeaderSchedule (L : Type) := {
  leader_lookahead : L → nat → list Pubkey;
  get_current_slot : L → N
}.
Class TransactionPolicyStore (P : Type) := is_allowed : P → list Pubkey → Pubkey → bool.

Module Fanout.

(** [AlwaysAllowTransactionPolicyStore]. *)
#[export] Instance always_allow : TransactionPolicyStore unit := λ _ _ _, true.

Inductive FanoutConfig := Custom (count : nat) | SmartFanout.
Definition default_fanout : FanoutConfig := SmartFanout.

Inductive LewisCall :=
  | HandleSkip (s : Signature) (dest : Pubkey) (slot : N) (policies : list Pubkey)
  | HandleResponse (r : GatewayResponse) (slot : N).

Section Fanout.
Context {Ch : Type} `{MC : Mpsc Ch TpuSenderTxn} `{LS : UpcomingLeaderSchedule L} `{PS : TransactionPolicyStore P}.
Context (fanout_config : FanoutConfig) (extra_fwd : list Pubkey) (has_lewis : bool).

(** A send task: not polled yet; at an iteration of one of its two loops, with
    the leaders already visited and their [sent_mask]; or finished, [false] for
    [GatewayClosed]. *)
Inductive SendTask :=
  | NotStarted (tx : SendTransactionRequest)
  | Visiting (tx : SendTransactionRequest) (current_slot : N) (visited : list (Pubkey * bool)) (leaders extras : list Pubkey)
  | Finished (s : Signature) (ok : bool).

Definition fanout_count (current_slot : N) : nat :=
  match fanout_config with
  | Custom count => count `max` 1
  | SmartFanout => if (current_slot `mod` 4 <? 2)%N then 1 else 2
  end.

Definition gateway_txn (tx : SendTransactionRequest) (dest : Pubkey) : TpuSenderTxn :=
  from_bytes (signature tx) dest (wire_transaction tx).
(** [tpu_sink.send(..).await]: [None] while the channel is full. *)
Definition send (txn : TpuSenderTxn) (c : Ch) : option (bool * Ch) :=
  match try_send txn c with
  | (SendOk, c) => Some (true, c)
  | (SendClosed, c) => Some (false, c)
  | (SendFull, _) => None
  end.

Definition lewis_log (call : LewisCall) : list LewisCall := if has_lewis then [call] else [].

(** One iteration of the task; [None] when it has to wait. *)
Definition poll (leader_schedule_service : L) (policy_store_service : P) (t : SendTask) (c : Ch) :
    option (SendTask * Ch * list LewisCall) :=
  match t with
  | NotStarted tx =>
      let current_slot := get_current_slot leader_schedule_service in
      Some (Visiting tx current_slot [] (leader_lookahead leader_schedule_service (fanout_count current_slot)) extra_fwd, c, [])
  | Visiting tx slot visited (dest :: leaders) extras =>
      if is_allowed policy_store_service (policies tx) dest then
        '(ok, c) ← send (gateway_txn tx dest) c;
        Some (if ok : bool then Visiting tx slot (visited ++ [(dest, true)]) leaders extras else Finished (signature tx) false, c, [])
      else Some (Visiting tx slot (visited ++ [(dest, false)]) leaders extras, c,
                 lewis_log (HandleSkip (signature tx) dest slot (policies tx)))
  | Visiting tx slot visited [] (extra :: extras) =>
      if decide ((extra, true) ∈ visited) then Some (Visiting tx slot visited [] extras, c, [])
      else '(ok, c) ← send (gateway_txn tx extra) c;
           Some (if ok : bool then Visiting tx slot visited [] extras else Finished (signature tx) false, c, [])
  | Visiting tx _ _ [] [] => Some (Finished (signature tx) true, c, [])
  | Finished _ _ => None
  end.

Record TransactionFanout := mk {
  tpu_sender : Ch;
  transaction_send_set : gmap N SendTask;
  transaction_send_set_meta : gmap N Signature;
  inflight_transactions : gset Signature;
  next_task_id : N;
  lewis : list LewisCall
}.
#[export] Instance Fanout_settable : Settable TransactionFanout := λ r,
  mk (tpu_sender r) (transaction_send_set r) (transaction_send_set_meta r) (inflight_transactions r) (next_task_id r) (lewis r).
Definition new (sink : Ch) : TransactionFanout := mk sink ∅ ∅ ∅ 0%N [].

Definition fwd_tx (tx : SendTransactionRequest) (f : TransactionFanout) : TransactionFanout :=
  if decide (signature tx ∈ inflight_transactions f) then f
  else f <| inflight_transactions ::= union {[signature tx]} |>
         <| transaction_send_set ::= <[next_task_id f := NotStarted tx]> |>
         <| transaction_send_set_meta ::= <[next_task_id f := signature tx]> |>
         <| next_task_id ::= N.succ |>.

(** The signatures a response is about. *)
Definition response_signatures (r : GatewayResponse) : list Signature :=
  match r with
  | GwTxSent _ _ s | GwTxFailed _ _ s _ => [s]
  | GwTxDrop _ _ dropped => (λ d, tx_sig d.1) <$> dropped
  end.
Definition handle_gateway_response (leader_schedule_service : L) (r : GatewayResponse) (f : TransactionFanout) : TransactionFanout :=
  f <| lewis ::= λ l, l ++ lewis_log (HandleResponse r (get_current_slot leader_schedule_service)) |>
    <| inflight_transactions ::= λ i, foldl (λ i s, i ∖ {[s]}) i (response_signatures r) |>.

(** [None] is a panic: an unknown task, or a signature that is not the task's. *)
Definition handle_transaction_sent_result (task_id : N) (s : Signature) (ok : bool) (f : TransactionFanout) : option TransactionFanout :=
  s' ← transaction_send_set_meta f !! task_id;
  if ok && negb (bool_decide (s' = s)) then None
  else Some (f <| transaction_send_set_meta ::= delete task_id |>).

Inductive Event :=
  | Incoming (tx : SendTransactionRequest)
  | Response (service : L) (r : GatewayResponse)
  | Poll (task_id : N) (service : L) (store : P)
  | Join (task_id : N)
  | Received.

(** The result of an event that can happen: a panic, or the next state. *)
Definition on_event (e : Event) (f : TransactionFanout) : option (option TransactionFanout) :=
  match e with
  | Incoming tx => Some (Some (fwd_tx tx f))
  | Response service r => Some (Some (handle_gateway_response service r f))
  | Poll id service store =>
      t ← transaction_send_set f !! id;
      '(t, c, l) ← poll service store t (tpu_sender f);
      Some (Some (f <| tpu_sender := c |> <| transaction_send_set ::= <[id := t]> |> <| lewis ::= λ k, k ++ l |>))
  | Join id =>
      match transaction_send_set f !! id with
      | Some (Finished s ok) => Some (handle_transaction_sent_result id s ok (f <| transaction_send_set ::= delete id |>))
      | _ => None
      end
  | Received => Some (Some (f <| tpu_sender ::= λ c, (try_recv c).2 |>))
  end.
Definition run (f : TransactionFanout) (es : list Event) : option TransactionFanout :=
  foldl (λ o e, f ← o; r ← on_event e f; r) (Some f) es.

(** ** Where a transaction goes *)
(** The reference: the allowed leaders, then the extra peers not among them. *)
Definition destinations (store : P) (tx : SendTransactionRequest) (leaders : list Pubkey) : list Pubkey :=
  let allowed := filter (λ dest, is_allowed store (policies tx) dest = true) leaders in
  allowed ++ filter (λ extra, extra ∉ allowed) extra_fwd.

(** The task polled until it finishes, or has to wait. *)
Fixpoint poll_fuel (fuel : nat) (service : L) (store : P) (t : SendTask) (c : Ch) : SendTask * Ch :=
  match fuel with
  | 0 => (t, c)
  | S fuel => match poll service store t c with Some (t, c, _) => poll_fuel fuel service store t c | None => (t, c) end
  end.

Lemma send_cases txn c : (∃ c', send txn c = Some (true, c') ∧ buffered c' = buffered c ++ [txn] ∧
    capacity c' = capacity c ∧ rx_closed c' = false ∧ rx_closed c = false) ∨
  (send txn c = Some (false, c) ∧ rx_closed c = true) ∨
  (send txn c = None ∧ capacity c ≤ length (buffered c) ∧ rx_closed c = false).
Proof.
  unfold send. pose proof (try_send_spec txn c) as H. pose proof (try_send_meta txn c) as [H1 H2].
  destruct (try_send txn c) as [[] c']; cbn in *.
  - left. exists c'. destruct H as (? & ? & ?). rewrite H2. auto 6.
  - right. right. naive_solver.
  - right. left. destruct H as [-> ?]. auto.
Qed.

Lemma poll_extras service store tx slot visited extras c fuel :
  rx_closed c = false → length (buffered c) + length extras ≤ capacity c → length extras < fuel →
  let '(t', c') := poll_fuel fuel service store (Visiting tx slot visited [] extras) c in
  t' = Finished (signature tx) true ∧
  buffered c' = buffered c ++ (gateway_txn tx <$> filter (λ e, (e, true) ∉ visited) extras).
Proof.
  revert c fuel. induction extras as [|e extras IH]; intros c fuel Ho Hc Hf; (destruct fuel as [|fuel]; [cbn in Hf; lia|]); cbn [poll_fuel poll].
  - destruct fuel; cbn; by rewrite app_nil_r.
  - cbn in Hc, Hf. rewrite filter_cons. case_decide as He.
    + rewrite decide_False by tauto. apply IH; [done|lia|lia].
    + rewrite decide_True by done.
      destruct (send_cases (gateway_txn tx e) c) as [(c' & -> & H1 & H2 & H3 & H4)|[[_ ?]|(_ & ? & _)]]; [|congruence|lia].
      cbn. specialize (IH c' fuel H3). rewrite H1, H2, length_app in IH. cbn in IH.
      specialize (IH ltac:(lia) ltac:(lia)). destruct poll_fuel as [t'' c'']. destruct IH as [-> ->].
      split; [done|]. by rewrite <-app_assoc.
Qed.

Lemma poll_leaders service store tx slot visited leaders extras c fuel :
  rx_closed c = false → length (buffered c) + length leaders + length extras ≤ capacity c →
  length leaders + length extras < fuel →
  let allowed := filter (λ dest, is_allowed store (policies tx) dest = true) leaders in
  let '(t', c') := poll_fuel fuel service store (Visiting tx slot visited leaders extras) c in
  t' = Finished (signature tx) true ∧
  buffered c' = buffered c ++ (gateway_txn tx <$> allowed ++ filter (λ e, (e, true) ∉ visited ∧ e ∉ allowed) extras).
Proof.
  cbn zeta. revert c fuel visited. induction leaders as [|dest leaders IH]; intros c fuel visited Ho Hc Hf.
  - pose proof (poll_extras service store tx slot visited extras c fuel Ho) as H. cbn [length] in *.
    specialize (H ltac:(lia) ltac:(lia)). destruct poll_fuel as [t' c']. destruct H as [-> ->]. split; [done|].
    rewrite filter_nil. cbn [app]. do 2 f_equal. apply list_filter_iff. intros e. set_solver.
  - destruct fuel as [|fuel]; [lia|]. cbn [poll_fuel poll]. cbn [length] in Hc, Hf. rewrite filter_cons.
    destruct (is_allowed store (policies tx) dest) eqn:Ea.
    + rewrite decide_True by done.
      destruct (send_cases (gateway_txn tx dest) c) as [(c' & -> & H1 & H2 & H3 & H4)|[[_ ?]|(_ & ? & _)]]; [|congruence|lia].
      cbn [mbind option_bind]. specialize (IH c' fuel (visited ++ [(dest, true)]) H3).
      rewrite H1, H2, length_app in IH. cbn [length] in IH. specialize (IH ltac:(lia) ltac:(lia)).
      destruct poll_fuel as [t'' c'']. destruct IH as [-> ->]. split; [done|].
      rewrite <-app_assoc. f_equal. cbn [app fmap list_fmap]. f_equal. rewrite !fmap_app. f_equal. f_equal.
      apply list_filter_iff. intros e. set_solver.
    + rewrite decide_False by done. specialize (IH c fuel (visited ++ [(dest, false)]) Ho ltac:(lia) ltac:(lia)).
      cbn [mbind option_bind]. destruct poll_fuel as [t'' c'']. destruct IH as [-> ->]. split; [done|].
      f_equal. rewrite !fmap_app. f_equal. f_equal. apply list_filter_iff. intros e. set_solver.
Qed.

(** C31: With room in the gateway channel a fan-out task sends its transaction to exactly
    the reference list of destinations: the leaders its policies allow, in order, then the
    extra peers not among them. *)
Theorem transaction_goes_to_allowed_leaders_and_extras service store tx c
    (Hopen : rx_closed c = false)
    (Hroom : length (buffered c) + length (leader_lookahead service (fanout_count (get_current_slot service)))
             + length extra_fwd ≤ capacity c) :
  let leaders := leader_lookahead service (fanout_count (get_current_slot service)) in
  let fuel := 2 + length leaders + length extra_fwd in
  let '(t', c') := poll_fuel fuel service store (NotStarted tx) c in
  t' = Finished (signature tx) true ∧
  buffered c' = buffered c ++ (gateway_txn tx <$> destinations store tx leaders) ∧
  1 ≤ fanout_count (get_current_slot service).
Proof.
  cbn zeta. set (slot := get_current_slot service) in *. set (leaders := leader_lookahead service (fanout_count slot)) in *.
  change (poll_fuel (2 + length leaders + length extra_fwd) service store (NotStarted tx) c)
    with (poll_fuel (S (length leaders + length extra_fwd)) service store (Visiting tx slot [] leaders extra_fwd) c).
  pose proof (poll_leaders service store tx slot [] leaders extra_fwd c (S (length leaders + length extra_fwd))
    Hopen Hroom ltac:(lia)) as H.
  cbn zeta in H. destruct poll_fuel as [t' c']. destruct H as [-> ->]. split_and!; [done| |].
  - f_equal. unfold destinations. f_equal. f_equal. apply list_filter_iff. intros e. set_solver.
  - unfold fanout_count. destruct fanout_config; [lia|]. destruct (_ <? _)%N; lia.
Qed.

(** ** The driver never panics on a finished task *)
Definition task_signature (t : SendTask) : Signature :=
  match t with NotStarted tx | Visiting tx _ _ _ _ => signature tx | Finished s _ => s end.

Record fanout_inv (f : TransactionFanout) : Prop := {
  fi_meta id : transaction_send_set_meta f !! id = task_signature <$> transaction_send_set f !! id;
  fi_fresh id : is_Some (transaction_send_set f !! id) → (id < next_task_id f)%N
}.

Lemma poll_signature service store t c t' c' l :
  poll service store t c = Some (t', c', l) → task_signature t' = task_signature t.
Proof.
  destruct t as [tx|tx slot visited [|dest leaders] extras|s ok]; cbn; try done.
  - by intros [= <- <- <-].
  - destruct extras as [|e extras]; [by intros [= <- <- <-]|]. case_decide; [by intros [= <- <- <-]|].
    destruct (send _ c) as [[[|] c1]|]; cbn; [| |done]; by intros [= <- <- <-].
  - destruct (is_allowed _ _ _); [|by intros [= <- <- <-]].
    destruct (send _ c) as [[[|] c1]|]; cbn; [| |done]; by intros [= <- <- <-].
Qed.

Lemma fanout_inv_event e f r : fanout_inv f → on_event e f = Some r → ∃ f', r = Some f' ∧ fanout_inv f'.
Proof.
  intros Hi. destruct e as [tx|service gr|id service store|id|]; cbn [on_event].
  - intros [= <-]. eexists; split; [done|]. unfold fwd_tx. case_decide; [done|]. destruct Hi as [H1 H2].
    split; upd_simpl; intros id.
    + destruct (decide (id = next_task_id f)) as [->|Hne]; [by rewrite !lookup_insert_eq|by rewrite !lookup_insert_ne].
    + intros [t [[<- _]|[_ Ht]]%lookup_insert_Some]; [lia|]. assert (id < next_task_id f)%N by eauto. lia.
  - intros [= <-]. eexists; split; [done|]. unfold handle_gateway_response. destruct Hi. split; by upd_simpl.
  - destruct (transaction_send_set f !! id) as [t|] eqn:Et; cbn; [|done].
    destruct (poll service store t (tpu_sender f)) as [[[t' c'] l]|] eqn:Ep; cbn; [|done]. intros [= <-].
    eexists; split; [done|]. destruct Hi as [H1 H2]. apply poll_signature in Ep. split; upd_simpl; intros k.
    + destruct (decide (k = id)) as [->|Hne]; [|by rewrite lookup_insert_ne].
      rewrite lookup_insert_eq, H1, Et. cbn. by rewrite Ep.
    + intros [x [[<- _]|[_ Ht]]%lookup_insert_Some]; eauto.
  - destruct (transaction_send_set f !! id) as [[| |s ok]|] eqn:Et; try done. intros [= <-].
    destruct Hi as [H1 H2]. unfold handle_transaction_sent_result. upd_simpl. rewrite H1, Et. cbn.
    rewrite bool_decide_true by done. rewrite andb_false_r. eexists; split; [done|]. split; upd_simpl; intros k.
    + destruct (decide (k = id)) as [->|Hne]; [by rewrite !lookup_delete_eq|by rewrite !lookup_delete_ne].
    + intros [x [_ Hx]%lookup_delete_Some]. eauto.
  - intros [= <-]. eexists; split; [done|]. destruct Hi. split; by upd_simpl.
Qed.

Lemma fanout_run_snoc f es e : run f (es ++ [e]) = f ← run f es; r ← on_event e f; r.
Proof. unfold run. by rewrite foldl_app. Qed.

(** The fan-out never meets an unknown task or a task of another signature, its metadata
    always matches its tasks, and a transaction in flight is never forwarded again. *)
Theorem finished_tasks_are_known sink es f (Hrun : run (new sink) es = Some f) :
  (∀ e r, on_event e f = Some r → is_Some r) ∧
  (∀ id, transaction_send_set_meta f !! id = task_signature <$> transaction_send_set f !! id) ∧
  ∀ tx, signature tx ∈ inflight_transactions f → fwd_tx tx f = f.
Proof.
  assert (fanout_inv f) as Hi.
  { revert f Hrun. induction es as [|e es IH] using rev_ind; intros f.
    - intros [= <-]. split; cbn; intros id; rewrite !lookup_empty; [done|by intros [? [=]]].
    - rewrite fanout_run_snoc. destruct (run (new sink) es) as [f0|]; [|done]. cbn.
      destruct (on_event e f0) as [r|] eqn:E; [|done]. cbn. intros ->.
      destruct (fanout_inv_event _ _ _ (IH f0 eq_refl) E) as (f' & [= <-] & ?). done. }
  split_and!.
  - intros e r He. destruct (fanout_inv_event _ _ _ Hi He) as (f' & -> & _). eauto.
  - apply Hi.
  - intros tx Htx. unfold fwd_tx. by rewrite decide_True.
Qed.
End Fanout.

(** ** Concrete runs: the leaders 1 and 2, and a policy that denies a set *)
#[local] Instance demo_leaders : UpcomingLeaderSchedule N := {| leader_lookahead _ n := take n [1; 2]%N; get_current_slot s := s |}.
#[local] Instance demo_policy : TransactionPolicyStore (list N) := λ denied _ p, bool_decide (p ∉ denied).
#[local] Existing Instance ListChannel.list_channel.
Abbreviation DemoCh := (ListChannel.t TpuSenderTxn).
Definition demo_sink : DemoCh := channel (A := TpuSenderTxn) 10.
Definition request (s : Signature) : SendTransactionRequest := mk_request s 0 [] None [].

Lemma transaction_goes_to_allowed_leaders_and_extras_witness :
  buffered (poll_fuel SmartFanout [1; 3]%N false 6 2%N [1]%N (NotStarted (request 9)) demo_sink).2 =
    gateway_txn (request 9) <$> [2; 1; 3]%N.
Proof.
  pose proof (transaction_goes_to_allowed_leaders_and_extras SmartFanout [1; 3]%N false 2%N [1]%N (request 9) demo_sink
    eq_refl ltac:(vm_compute; lia)) as H.
  revert H. vm_compute. intros (_ & H & _). exact H.
Defined.

(** A submission, its task run to the end against a policy store, and joined. *)
Definition whole_task (id : N) (store : list N) : list (Event (L := N) (P := list N)) :=
  [Poll id 0%N store; Poll id 0%N store; Poll id 0%N store; Join id].
Definition denied_run : list (Event (L := N) (P := list N)) := Incoming (request 9) :: whole_task 0 [1]%N.
Definition demo_run (es : list (Event (L := N) (P := list N))) : option (TransactionFanout (Ch := DemoCh)) :=
  run SmartFanout [] false (new demo_sink) es.

Lemma finished_tasks_are_known_witness :
  ∃ f, demo_run denied_run = Some f ∧ 9%N ∈ inflight_transactions f ∧ fwd_tx (request 9) f = f.
Proof.
  destruct (demo_run denied_run) as [f|] eqn:E; [|vm_compute in E; discriminate E].
  pose proof (finished_tasks_are_known SmartFanout [] false demo_sink denied_run f E) as (_ & _ & H).
  assert (9%N ∈ inflight_transactions f) as Hin.
  { vm_compute in E. injection E as <-. apply (bool_decide_unpack _). vm_compute. exact I. }
  exists f. split; [reflexivity|]. split; [exact Hin|]. exact (H (request 9) Hin).
Defined.

(** A transaction denied for every leader, without extra peers, stays in flight for ever:
    its later submissions are skipped. *)
Theorem denied_transaction_stays_in_flight :
  ∃ f, demo_run denied_run = Some f ∧
    buffered (tpu_sender f) = [] ∧ transaction_send_set f = ∅ ∧ 9%N ∈ inflight_transactions f ∧
    demo_run (denied_run ++ [Incoming (request 9)]) = Some f.
Proof.
  destruct (demo_run denied_run) as [f|] eqn:E; [|vm_compute in E; discriminate E].
  exists f. vm_compute in E. injection E as <-. split_and!; try reflexivity.
Qed.
End Fanout.
