(* ===== verification/Forwarding.v ===== *)
(** The fan-out of [transactions.rs] in front of the QUIC gateway of
    [quic_client/core.rs] ([apps/jet/src]): the send tasks of the fan-out fill
    the bounded channel the gateway accepts transactions from, and the gateway's
    responses, read one at a time, tell the fan-out which signatures are no
    longer in flight. *)
From S2P Require Import Prelude Types Runtime Driver Retry Fanout JetTypes JetWorker JetGateway JetInv JetSafe JetSystem JetResponses JetDemo.
Import Retry Fanout JetTypes JetGateway.

#[local] Arguments count_queue : simpl never.
#[local] Arguments count_txns : simpl never.
#[local] Arguments JetWorker.count_gw_responses : simpl never.

Module Forwarding.

(** What a step shows of the fan-out and the gateway. *)
Inductive Label :=
  | Submitted (tx : SendTransactionRequest)
  | Forwarded (txn : GatewayTransaction)
  | GaveUp (s : Signature)
  | Heard (r : GatewayResponse)
  | InGateway (l : JetSystem.Label)
  | Quiet.

Section Forwarding.
Context `{HI : HashIter} {Ch : Type} `{MC : Mpsc Ch GatewayTransaction} `{ED : ErrorDisplay}.
Context `{SI : ValidatorStakeInfoService Stake} `{TI : LeaderTpuInfoService Tpu}.
Context `{ES : !ConnectionEvictionStrategy Strategy} `{LP : UpcomingLeaderPredictor Pred}.
Context `{LS : UpcomingLeaderSchedule L} `{PS : TransactionPolicyStore P}.
Context (fanout_config : FanoutConfig) (extra_fwd : list Pubkey) (has_lewis : bool).
Abbreviation Gateway := (@JetGateway.Gateway Ch).
Abbreviation Env := (@Env Stake Tpu Strategy Pred).
Abbreviation gw_step := (@JetSystem.step HI Ch MC ED Stake SI Tpu TI Strategy ES Pred LP).
Abbreviation gw_started := (@JetSystem.started Ch).
Abbreviation Event := (@Fanout.Event L P).
Abbreviation on_event := (@Fanout.on_event Ch MC L LS P PS fanout_config extra_fwd has_lewis).
Implicit Types (sig : N) (E : Env → Prop).

Record Forwarding := mk { fan : @TransactionFanout Ch; gw : Phase * Gateway; heard : nat }.
#[local] Instance Forwarding_settable : Settable Forwarding := λ r, mk (fan r) (gw r) (heard r).

(** What the next iteration of a send task puts in the channel. *)
Definition next_send (store : P) (t : SendTask) : option GatewayTransaction :=
  match t with
  | Visiting tx _ _ (dest :: _) _ =>
      if is_allowed store (policies tx) dest then Some (gateway_txn tx dest) else None
  | Visiting tx _ visited [] (extra :: _) =>
      if decide ((extra, true) ∈ visited) then None else Some (gateway_txn tx extra)
  | _ => None
  end.

(** Nothing was sent yet, and a task that ends so. *)
Definition unsent (t : SendTask) : bool :=
  match t with
  | NotStarted _ => true
  | Visiting _ _ visited _ extras => forallb (λ v, negb v.2) visited && bool_decide (extras = extra_fwd)
  | Finished _ _ => false
  end.
Definition gives_up (t : SendTask) : option Signature :=
  match t with
  | Visiting tx _ _ [] [] => if unsent t then Some (signature tx) else None
  | _ => None
  end.
Definition poll_label (store : P) (t : SendTask) : Label :=
  match next_send store t with
  | Some txn => Forwarded txn
  | None => match gives_up t with Some s => GaveUp s | None => Quiet end
  end.

(** The fan-out holds the sender of the channel: it does not close while the
    fan-out runs, and what the gateway accepts is what the fan-out sent. *)
Definition internal (l : JetSystem.Label) : Prop :=
  match l with Handled (EvTx _) | Handled EvInletClosed => False | _ => True end.

Inductive step E : Forwarding → Label → Forwarding → Prop :=
  | fw_submit tx f' s :
      on_event (Incoming tx) (fan s) = Some (Some f') → step E s (Submitted tx) (s <| fan := f' |>)
  | fw_poll id service store t f' s :
      transaction_send_set (fan s) !! id = Some t →
      on_event (Poll id service store) (fan s) = Some (Some f') →
      step E s (poll_label store t) (s <| fan := f' |>)
  | fw_join id f' s : on_event (Join id) (fan s) = Some (Some f') → step E s Quiet (s <| fan := f' |>)
  | fw_hear service r f' s :
      responses (rt (gw s).2) !! heard s = Some r →
      on_event (Response service r) (fan s) = Some (Some f') →
      step E s (Heard r) (s <| fan := f' |> <| heard ::= S |>)
  | fw_accept tx f' gw' s :
      (try_recv (tpu_sender (fan s))).1 = Some tx → on_event Received (fan s) = Some (Some f') →
      gw_step E (gw s) (Handled (EvTx tx)) gw' →
      step E s (InGateway (Handled (EvTx tx))) (s <| fan := f' |> <| gw := gw' |>)
  | fw_gateway l gw' s :
      internal l → gw_step E (gw s) l gw' → step E s (InGateway l) (s <| gw := gw' |>).

Inductive trace E : Forwarding → list Label → Forwarding → Prop :=
  | tr_nil s : trace E s [] s
  | tr_cons s l s1 ls s2 : step E s l s1 → trace E s1 ls s2 → trace E s (l :: ls) s2.

(** [run_jet]: both are started with empty channels. *)
Definition started (s : Forwarding) : Prop := ∃ n c, gw_started c ∧ s = mk (Fanout.new (channel n)) c 0.

(** ** Accounting *)

(** The copies of a transaction that were forwarded and whose answer the
    fan-out has not read. *)
Definition outstanding sig (s : Forwarding) : nat :=
  let d := (gw s).2 in
  count_txns sig (buffered (tpu_sender (fan s))) +
  (in_queues sig (tx_queues d) + in_channels sig (channels (rt d)) + in_workers sig (tx_worker_set d) +
   map_sum (λ gd, in_workers sig (gd_worker_set gd)) (tasklet d)) +
  JetWorker.count_gw_responses sig (drop (heard s) (responses (rt d))).

Definition heard_in sig (l : Label) : nat :=
  match l with Heard r => JetWorker.count_gw_response sig r | _ => 0 end.
Definition lost_in sig (l : Label) : nat :=
  match l with InGateway l => dropped_in sig l | _ => 0 end.
Definition forwarded_in sig (l : Label) : nat :=
  match l with Forwarded txn => txn_is sig txn | _ => 0 end.
Definition over (f : Label → nat) (ls : list Label) : nat := foldr (λ l n, f l + n) 0 ls.

Record inv (s : Forwarding) : Prop := {
  fw_open : rx_closed (tpu_sender (fan s)) = false;
  fw_fan : fanout_inv (fan s);
  fw_gw : Inv (gw s).2;
  fw_heard : heard s ≤ length (responses (rt (gw s).2))
}.

Lemma outstanding_total sig s :
  outstanding sig s + JetWorker.count_gw_responses sig (take (heard s) (responses (rt (gw s).2))) =
  count_txns sig (buffered (tpu_sender (fan s))) + total sig (gw s).2.
Proof.
  unfold outstanding, total. cbv zeta.
  assert (JetWorker.count_gw_responses sig (responses (rt (gw s).2)) =
    JetWorker.count_gw_responses sig (take (heard s) (responses (rt (gw s).2))) +
    JetWorker.count_gw_responses sig (drop (heard s) (responses (rt (gw s).2)))) as ->;
    [by rewrite <-JetWorker.count_gw_responses_app, take_drop|lia].
Qed.

(** The gateway's side of a step: the responses read are the same. *)
Lemma gw_outstanding E sig s gw' f' l : inv s → gw_step E (gw s) l gw' →
  let s' := mk f' gw' (heard s) in
  Inv gw'.2 ∧ heard s ≤ length (responses (rt gw'.2)) ∧
  outstanding sig s' + count_txns sig (buffered (tpu_sender (fan s))) + dropped_in sig l =
  outstanding sig s + count_txns sig (buffered (tpu_sender f')) + accepted_in sig l.
Proof.
  intros [_ _ Hi Hh] Hg. cbv zeta. destruct (gw_step_sound E (gw s) l gw' Hi Hg) as (Hi' & Ht & _).
  apply step_says in Hg as [k Hk]. split; [done|]. split; [rewrite Hk, length_app; lia|].
  pose proof (outstanding_total sig s) as H1. pose proof (outstanding_total sig (mk f' gw' (heard s))) as H2.
  cbn [fan gw heard] in H2. rewrite Hk, take_app_le in H2 by done. specialize (Ht sig). lia.
Qed.

(** ** Send tasks *)
Lemma poll_sends service store (t t' : SendTask) (c c' : Ch) l : rx_closed c = false →
  poll fanout_config extra_fwd has_lewis service store t c = Some (t', c', l) →
  rx_closed c' = false ∧
  buffered c' = buffered c ++ from_option (λ txn, [txn]) [] (next_send store t) ∧
  (∀ txn, next_send store t = Some txn → tx_sig txn = task_signature t) ∧
  (unsent t = true → unsent t' = true ∨ is_Some (next_send store t) ∨ gives_up t = Some (task_signature t)).
Proof.
  intros Ho. unfold poll, next_send.
  destruct t as [tx|tx slot visited [|dest leaders] extras|s ok]; [| | |done].
  - intros [= <- <- _]. rewrite app_nil_r. split_and!; [done|done|done|]. intros _. left. cbn.
    by apply bool_decide_eq_true.
  - destruct extras as [|e extras].
    + intros [= <- <- _]. rewrite app_nil_r. split_and!; [done|done|done|]. intros Hu. right. right. cbn [gives_up]. by rewrite Hu.
    + case_decide as He.
      * intros [= <- <- _]. rewrite app_nil_r. split_and!; [done|done|done|]. cbn.
        intros [Hall _]%andb_prop. rewrite forallb_forall in Hall.
        specialize (Hall (e, true)). rewrite <-list_elem_of_In in Hall. by specialize (Hall He).
      * destruct (send_cases (gateway_txn tx e) c) as [(c1 & -> & H1 & H2 & H3 & H4)|[[_ ?]|(-> & _)]];
          [|congruence|done].
        cbn. intros [= <- <- _]. split_and!; [done|done|by intros ? [= <-]|by eauto].
  - destruct (is_allowed store (policies tx) dest).
    + destruct (send_cases (gateway_txn tx dest) c) as [(c1 & -> & H1 & H2 & H3 & H4)|[[_ ?]|(-> & _)]];
        [|congruence|done].
      cbn. intros [= <- <- _]. split_and!; [done|done|by intros ? [= <-]|by eauto].
    + intros [= <- <- _]. rewrite app_nil_r. split_and!; [done|done|done|]. cbn. intros [Hall Hx]%andb_prop.
      left. by rewrite forallb_app, Hall, Hx.
Qed.

(** ** Every step *)
Lemma poll_frame id service store t f f' : transaction_send_set f !! id = Some t →
  on_event (Poll id service store) f = Some (Some f') → ∃ t' c' k,
  poll fanout_config extra_fwd has_lewis service store t (tpu_sender f) = Some (t', c', k) ∧
  tpu_sender f' = c' ∧ transaction_send_set f' = <[id := t']> (transaction_send_set f) ∧
  inflight_transactions f' = inflight_transactions f.
Proof.
  intros Ht. cbn [Fanout.on_event]. rewrite Ht. cbn [mbind option_bind].
  destruct (poll _ _ _ _ _ _ _) as [[[t' c'] k]|]; [|done]. cbn. intros [= <-]. by exists t', c', k.
Qed.

Lemma join_frame id f f' : on_event (Join id) f = Some (Some f') → ∃ sig ok,
  transaction_send_set f !! id = Some (Finished sig ok) ∧ tpu_sender f' = tpu_sender f ∧
  transaction_send_set f' = delete id (transaction_send_set f) ∧
  inflight_transactions f' = inflight_transactions f.
Proof.
  cbn [Fanout.on_event]. destruct (transaction_send_set f !! id) as [[| |k ok]|]; try done.
  intros [= Hev]. unfold handle_transaction_sent_result in Hev. revert Hev. upd_simpl.
  destruct (transaction_send_set_meta f !! id); [|done]. cbn [mbind option_bind].
  destruct (_ && _); [done|]. intros [= <-]. by exists k, ok.
Qed.

Lemma count_txns_one sig tx : count_txns sig [tx] = txn_is sig tx.
Proof. unfold count_txns. cbn. lia. Qed.

Lemma label_forwards sig store t :
  forwarded_in sig (poll_label store t) = count_txns sig (from_option (λ txn, [txn]) [] (next_send store t)) ∧
  heard_in sig (poll_label store t) = 0 ∧ lost_in sig (poll_label store t) = 0.
Proof.
  unfold poll_label. destruct (next_send store t) as [txn|]; cbn; [by rewrite count_txns_one|].
  by destruct (gives_up t).
Qed.

Lemma forwarding_step E s l s' : inv s → step E s l s' → inv s' ∧
  ∀ sig, outstanding sig s' + heard_in sig l + lost_in sig l = outstanding sig s + forwarded_in sig l.
Proof.
  intros Hi Hs. pose proof Hi as [Ho Hf Hg Hh].
  destruct Hs as [tx f' s Hev|id service store t f' s Ht Hev|id f' s Hev|service r f' s Hr Hev|tx f' gw' s Hr Hev Hgw|l gw' s Hl Hgw].
  - destruct (fanout_inv_event _ _ _ _ _ _ Hf Hev) as (f2 & [= <-] & Hf').
    assert (tpu_sender f' = tpu_sender (fan s)) as Ec
      by (injection Hev as <-; unfold fwd_tx; by case_decide).
    split; [by split; upd_simpl; rewrite ?Ec|]. intros sig. cbn [heard_in lost_in forwarded_in].
    unfold outstanding. upd_simpl. rewrite Ec. lia.
  - destruct (fanout_inv_event _ _ _ _ _ _ Hf Hev) as (f2 & [= <-] & Hf').
    destruct (poll_frame id service store t (fan s) f' Ht Hev) as (t' & c' & k & Ep & Ec & _).
    destruct (poll_sends service store t t' (tpu_sender (fan s)) c' k Ho Ep) as (Ho' & Hb & _ & _).
    split; [by split; upd_simpl; rewrite ?Ec|]. intros sig. destruct (label_forwards sig store t) as (-> & -> & ->).
    unfold outstanding. upd_simpl. rewrite Ec, Hb, count_txns_app. lia.
  - destruct (fanout_inv_event _ _ _ _ _ _ Hf Hev) as (f2 & [= <-] & Hf').
    destruct (join_frame id (fan s) f' Hev) as (k & ok & _ & Ec & _).
    split; [by split; upd_simpl; rewrite ?Ec|]. intros sig. cbn [heard_in lost_in forwarded_in].
    unfold outstanding. upd_simpl. rewrite Ec. lia.
  - destruct (fanout_inv_event _ _ _ _ _ _ Hf Hev) as (f2 & [= <-] & Hf').
    assert (tpu_sender f' = tpu_sender (fan s)) as Ec by (by injection Hev as <-).
    split; [split; upd_simpl; rewrite ?Ec; try done; apply lookup_lt_Some in Hr; lia|].
    intros sig. cbn [heard_in lost_in forwarded_in]. unfold outstanding. upd_simpl. rewrite Ec.
    rewrite (drop_S _ _ _ Hr). change (?x :: ?y) with ([x] ++ y).
    rewrite JetWorker.count_gw_responses_app, JetWorker.count_gw_responses_one. lia.
  - destruct (fanout_inv_event _ _ _ _ _ _ Hf Hev) as (f2 & [= <-] & Hf').
    assert (tpu_sender f' = (try_recv (tpu_sender (fan s))).2) as Ec by (by injection Hev as <-).
    assert (s <| fan := f' |> <| gw := gw' |> = mk f' gw' (heard s)) as -> by done.
    pose proof (λ sig, gw_outstanding E sig s gw' f' _ Hi Hgw) as Hk. cbv zeta in Hk.
    split; [split; cbn [fan gw heard]; [|done|apply (Hk 0%N)..]; rewrite Ec; by rewrite (proj2 (try_recv_meta _))|].
    intros sig. destruct (Hk sig) as (_ & _ & Hsum). cbn [heard_in lost_in forwarded_in dropped_in accepted_in] in *.
    rewrite Ec in Hsum. pose proof (try_recv_spec (tpu_sender (fan s))) as [Hhd Htl]. rewrite Hr in Hhd. rewrite Htl in Hsum.
    destruct (buffered (tpu_sender (fan s))) as [|tx' q]; [done|]. injection Hhd as <-. cbn [tail] in Hsum.
    change (count_txns sig (tx :: q)) with (txn_is sig tx + count_txns sig q) in Hsum. lia.
  - assert (s <| gw := gw' |> = mk (fan s) gw' (heard s)) as -> by done.
    pose proof (λ sig, gw_outstanding E sig s gw' (fan s) l Hi Hgw) as Hk. cbv zeta in Hk.
    split; [split; cbn [fan gw heard]; [done|done|apply (Hk 0%N)..]|].
    intros sig. destruct (Hk sig) as (_ & _ & Hsum). cbn [heard_in lost_in forwarded_in].
    assert (accepted_in sig l = 0) by (by destruct l as [[]| |]). lia.
Qed.

Lemma forwarding_trace E s ls s' : trace E s ls s' → inv s → inv s' ∧
  ∀ sig, outstanding sig s' + over (heard_in sig) ls + over (lost_in sig) ls =
         outstanding sig s + over (forwarded_in sig) ls.
Proof.
  induction 1 as [s|s l s1 ls s2 Hs _ IH]; intros Hi; [split; [done|]; intros sig; cbn; lia|].
  destruct (forwarding_step E s l s1 Hi Hs) as [H1 Hl]. destruct (IH H1) as [H2 Hls]. split; [done|].
  intros sig. specialize (Hl sig). specialize (Hls sig). cbn [over foldr]. unfold over in Hls. lia.
Qed.

Lemma forwarding_started s : started s → inv s ∧ (∀ sig, outstanding sig s = 0) ∧
  inflight_transactions (fan s) = ∅.
Proof.
  intros (n & c & Hc & ->). apply started_sound in Hc as (Hi & _ & Ht). split; [|split; [|done]].
  - split; cbn; [apply rx_closed_channel| |done|lia].
    split; cbn; intros id; rewrite !lookup_empty; [done|by intros [? [=]]].
  - intros sig. pose proof (outstanding_total sig (mk (Fanout.new (channel n)) c 0)) as H. cbn in H.
    rewrite buffered_channel, Ht in H. change (count_txns sig []) with 0 in H. lia.
Qed.

(** ** In flight *)
Definition about_to_send sig (s : Forwarding) : Prop :=
  ∃ id t, transaction_send_set (fan s) !! id = Some t ∧ task_signature t = sig ∧ unsent t = true.
Definition excuses sig (l : Label) : Prop := l = GaveUp sig ∨ 0 < lost_in sig l.
Definition pending (X : N → Prop) (s : Forwarding) : Prop := ∀ sig,
  sig ∈ inflight_transactions (fan s) → about_to_send sig s ∨ 0 < outstanding sig s ∨ X sig.

Lemma elem_of_answered (l : list Signature) (i : gset Signature) sig :
  sig ∈ foldl (λ i s, i ∖ {[s]}) i l ↔ sig ∈ i ∧ sig ∉ l.
Proof. revert i. induction l as [|a l IH]; intros i; cbn [foldl]; [set_solver|]. rewrite IH. set_solver. Qed.

Lemma unanswered sig r : sig ∉ response_signatures r → JetWorker.count_gw_response sig r = 0.
Proof.
  destruct r as [p a s|p a s e|p reason q]; cbn; intros Hs; [|..]; try (rewrite decide_False; set_solver).
  unfold count_queue. induction q as [|[tx n] q IH]; [done|]. cbn in *. unfold txn_is.
  rewrite decide_False by set_solver. apply IH. set_solver.
Qed.

(** The cases in which the signature was in flight before the step. *)
Lemma pending_keep E X s l s' sig : inv s → step E s l s' → pending X s →
  sig ∈ inflight_transactions (fan s) → heard_in sig l = 0 →
  (about_to_send sig s → about_to_send sig s' ∨ excuses sig l ∨ 0 < forwarded_in sig l) →
  about_to_send sig s' ∨ 0 < outstanding sig s' ∨ X sig ∨ excuses sig l.
Proof.
  intros Hi Hs Hp Hin Hh Ha. pose proof (forwarding_step E s l s' Hi Hs) as [_ Hsum]. specialize (Hsum sig).
  destruct (decide (0 < lost_in sig l)); [by right; right; right; right|].
  destruct (Hp sig Hin) as [Hab|[Hout|HX]]; [|right; left; lia|by auto].
  destruct (Ha Hab) as [?|[?|Hf]]; [by auto|by auto|right; left; lia].
Qed.

Lemma pending_submit X tx s sig : inv s → pending X s →
  sig ∈ inflight_transactions (fwd_tx tx (fan s)) →
  about_to_send sig (s <| fan := fwd_tx tx (fan s) |>) ∨
  (sig ∈ inflight_transactions (fan s) ∧
   (about_to_send sig s → about_to_send sig (s <| fan := fwd_tx tx (fan s) |>))).
Proof.
  intros [_ [_ Hfresh] _ _] Hp. unfold about_to_send. upd_simpl. unfold fwd_tx. case_decide as Hd; [by auto|].
  upd_simpl. intros Hin. destruct (decide (sig = signature tx)) as [->|Hne].
  { left. exists (next_task_id (fan s)), (NotStarted tx). by rewrite lookup_insert_eq. }
  right. split; [set_solver|]. intros (id & t & Hid & Hrest). exists id, t.
  rewrite lookup_insert_ne; [done|]. intros <-.
  assert (next_task_id (fan s) < next_task_id (fan s))%N; [|lia]. eauto.
Qed.

Lemma pending_poll s id service store t f' sig : inv s → transaction_send_set (fan s) !! id = Some t →
  on_event (Poll id service store) (fan s) = Some (Some f') → about_to_send sig s →
  about_to_send sig (s <| fan := f' |>) ∨ excuses sig (poll_label store t) ∨ 0 < forwarded_in sig (poll_label store t).
Proof.
  intros [Ho _ _ _] Ht Hev. destruct (poll_frame id service store t (fan s) f' Ht Hev) as (t' & c' & k & Ep & _ & Et & _).
  destruct (poll_sends service store t t' (tpu_sender (fan s)) c' k Ho Ep) as (_ & _ & Hsig & Hun).
  apply poll_signature in Ep. destruct (label_forwards sig store t) as (Hf & _).
  unfold about_to_send. upd_simpl. rewrite Et. intros (i & t0 & Hi0 & <- & Hu0).
  destruct (decide (i = id)) as [->|Hne]; [|left; exists i, t0; by rewrite lookup_insert_ne].
  assert (t0 = t) as -> by congruence. destruct (Hun Hu0) as [Hu|[[txn Hs]|Hg]].
  - left. exists id, t'. rewrite lookup_insert_eq. by rewrite Ep.
  - right. right. rewrite Hf, Hs. cbn [from_option]. rewrite count_txns_one. unfold txn_is.
    rewrite decide_True by (by apply Hsig). lia.
  - right. left. left. unfold poll_label. rewrite Hg. by destruct t as [|tx slot visited [|] [|]|].
Qed.

Lemma in_flight_step E X s l s' : inv s → step E s l s' → pending X s →
  pending (λ sig, X sig ∨ excuses sig l) s'.
Proof.
  intros Hi Hs Hp. pose proof (λ sig, pending_keep E X s l s' sig Hi Hs Hp) as Hgo. intros sig. specialize (Hgo sig).
  destruct Hs as [tx f' s Hev|id service store t f' s Ht Hev|id f' s Hev|service r f' s Hr Hev|tx f' gw' s Hr Hev Hgw|l gw' s Hl Hgw];
    intros Hin; revert Hin; upd_simpl; intros Hin.
  - injection Hev as <-. destruct (pending_submit X tx s sig Hi Hp Hin) as [?|[Hin' Ha]]; [by left|].
    apply Hgo; auto.
  - pose proof (poll_frame id service store t (fan s) f' Ht Hev) as (t' & c' & k & _ & _ & _ & Ein).
    rewrite Ein in Hin. apply Hgo; [done|by apply label_forwards|by eapply pending_poll].
  - destruct (join_frame id (fan s) f' Hev) as (k & ok & Et & _ & Es & Ein). rewrite Ein in Hin.
    apply Hgo; [done|done|]. unfold about_to_send. upd_simpl. rewrite Es.
    intros (i & t0 & Hi0 & Hsig & Hu). left. exists i, t0. split; [|done].
    rewrite lookup_delete_ne; [done|]. intros <-. rewrite Et in Hi0. by injection Hi0 as <-.
  - injection Hev as <-. revert Hin. unfold handle_gateway_response. upd_simpl. intros [Hin Hno]%elem_of_answered.
    apply Hgo; [done|by apply unanswered|by auto].
  - injection Hev as <-. revert Hin. upd_simpl. intros Hin. apply Hgo; auto.
  - apply Hgo; auto.
Qed.

Lemma pending_trace E X s ls s' : trace E s ls s' → inv s → pending X s →
  pending (λ sig, X sig ∨ ∃ l, l ∈ ls ∧ excuses sig l) s'.
Proof.
  intros Ht. revert X. induction Ht as [s|s l s1 ls s2 Hs _ IH]; intros X Hi Hp.
  { intros sig Hin. destruct (Hp sig Hin) as [?|[?|?]]; auto. }
  destruct (forwarding_step E s l s1 Hi Hs) as [H1 _].
  intros sig Hin. destruct (IH _ H1 (in_flight_step E X s l s1 Hi Hs Hp) sig Hin) as [?|[?|[[?|?]|(l' & Hl' & ?)]]]; auto.
  - right. right. right. exists l. split; [by left|done].
  - right. right. right. exists l'. split; [by right|done].
Qed.

(** ** What the two guarantee together *)

(** C22: In every run of the fan-out joined to the gateway each copy of a transaction that
    a send task forwarded is under way (in the channel, a queue, a worker or a response not
    yet read), was answered by a response the fan-out read, or was dropped unanswered with
    a worker of an old identity. *)
Theorem forwarded_copies_are_accounted_for E s0 ls s sig (Hs : started s0) (Hrun : trace E s0 ls s) :
  over (forwarded_in sig) ls = over (heard_in sig) ls + over (lost_in sig) ls + outstanding sig s.
Proof.
  destruct (forwarding_started s0 Hs) as (Hi & H0 & _).
  destruct (forwarding_trace E s0 ls s Hrun Hi) as [_ Ht]. specialize (Ht sig). rewrite H0 in Ht. lia.
Qed.

(** C21: No signature is in flight for nothing: in every run of the fan-out joined to the
    gateway, a signature whose submissions the fan-out skips has an unread copy under way
    or a send task that has not ended, unless a task found every leader denied or a copy
    was lost with a worker of an old identity. *)
Theorem in_flight_is_outstanding E s0 ls s sig (Hs : started s0) (Hrun : trace E s0 ls s)
  (Hin : sig ∈ inflight_transactions (fan s)) :
  about_to_send sig s ∨ 0 < outstanding sig s ∨ GaveUp sig ∈ ls ∨
  ∃ txs, InGateway (Dropped txs) ∈ ls ∧ 0 < count_txns sig txs.
Proof.
  destruct (forwarding_started s0 Hs) as (Hi & _ & He).
  destruct (pending_trace E (λ _, False) s0 ls s Hrun Hi) with (sig := sig)
    as [?|[?|[[]|(l & Hl & [->|Hlost])]]]; [|done|by auto..|].
  - intros k. rewrite He. set_solver.
  - destruct l as [| | | |[|txs|]|]; cbn in Hlost; try lia. right. right. right. by exists txs.
Qed.
End Forwarding.
End Forwarding.

(** ** A run: leader 1 is looked up, and its worker sends. *)
Module ForwardingDemo.
Import JetDemo Forwarding.
#[local] Instance leaders : UpcomingLeaderSchedule unit := {| leader_lookahead _ n := take n [1; 2]%N; get_current_slot _ := 4%N |}.
Abbreviation Fw := (@Forwarding.Forwarding Ch).
Abbreviation step := (@Forwarding.step _ Ch _ _ _ _ _ _ _ _ _ _ unit _ unit _ SmartFanout [] false).
Abbreviation trace := (@Forwarding.trace _ Ch _ _ _ _ _ _ _ _ _ _ unit _ unit _ SmartFanout [] false).
Abbreviation event := (@Fanout.on_event Ch _ unit _ unit _ SmartFanout [] false).

Inductive Command :=
  | Submit (tx : SendTransactionRequest)
  | PollTask (id : N)
  | Read
  | Accept (now : N)
  | Prepare (now : N)
  | Branch (now : N) (ev : GatewayEvent).

Definition fan_event (e : @Fanout.Event unit unit) (s : Fw) : option (@TransactionFanout Ch) := r ← event e (fan s); r.

(** One step of the demo. *)
Definition next (cmd : Command) (s : Fw) : option (Label * Fw) :=
  match cmd with
  | Submit tx => f ← fan_event (Incoming tx) s; Some (Submitted tx, mk f (gw s) (heard s))
  | PollTask id =>
      t ← transaction_send_set (fan s) !! id;
      f ← fan_event (Poll id () ()) s;
      Some (poll_label [] () t, mk f (gw s) (heard s))
  | Read =>
      r ← responses (rt (gw s).2) !! heard s;
      f ← fan_event (Response () r) s; Some (Heard r, mk f (gw s) (S (heard s)))
  | Accept now =>
      match (gw s).1, (try_recv (tpu_sender (fan s))).1 with
      | Waiting, Some tx =>
          f ← fan_event Received s;
          r ← select_branch (env_predicting []) now (EvTx tx) (gw s).2;
          match r with inl d => Some (InGateway (Handled (EvTx tx)), mk f (Top, d) (heard s)) | inr _ => None end
      | _, _ => None
      end
  | Prepare now =>
      match gw s with
      | (Top, d) => d' ← before_select (env_predicting []) now d;
                    Some (InGateway Internal, mk (fan s) (Waiting, d') (heard s))
      | _ => None
      end
  | Branch now ev =>
      match gw s, ev with
      | (Waiting, d), EvConnecting _ =>
          if plausible ev d then
            r ← select_branch (env_predicting []) now ev d;
            match r with inl d => Some (InGateway (Handled ev), mk (fan s) (Top, d) (heard s)) | inr _ => None end
          else None
      | _, _ => None
      end
  end.

Lemma fan_event_some e s f : fan_event e s = Some f → event e (fan s) = Some (Some f).
Proof. unfold fan_event. destruct (event e (fan s)) as [r|]; [|done]. cbn. by intros ->. Qed.

Lemma next_step cmd s l s' : next cmd s = Some (l, s') → step (only []) s l s'.
Proof.
  destruct cmd as [tx|id| |now|now|now ev]; cbn [next].
  - destruct (fan_event _ s) as [f|] eqn:Ef; [|done]. intros [= <- <-]. apply fan_event_some in Ef.
    by apply (fw_submit _ _ _ _ tx f s).
  - destruct (transaction_send_set (fan s) !! id) as [t|] eqn:Et; [|done]. cbn [mbind option_bind].
    destruct (fan_event _ s) as [f|] eqn:Ef; [|done]. intros [= <- <-]. apply fan_event_some in Ef.
    by apply (fw_poll _ _ _ _ id () () t f s).
  - destruct (responses _ !! heard s) as [r|] eqn:Er; [|done]. cbn [mbind option_bind].
    destruct (fan_event _ s) as [f|] eqn:Ef; [|done]. intros [= <- <-]. apply fan_event_some in Ef.
    by apply (fw_hear _ _ _ _ () r f s).
  - destruct (gw s) as [[] d] eqn:Eg; try done. cbn [fst snd].
    destruct (try_recv _).1 as [tx|] eqn:Er; [|done].
    destruct (fan_event _ s) as [f|] eqn:Ef; [|done]. apply fan_event_some in Ef. cbn [mbind option_bind].
    destruct (select_branch _ _ _ _) as [[d'|d']|] eqn:Eb; [|done|done]. cbn. intros [= <- <-].
    apply (fw_accept _ _ _ _ tx f (Top, d') s); [done|done|]. rewrite Eg. by eapply st_branch.
  - destruct (gw s) as [[] d] eqn:Eg; try done.
    destruct (before_select _ now d) as [d'|] eqn:Eb; [|done]. intros [= <- <-].
    apply (fw_gateway _ _ _ _ Internal (Waiting, d') s); [done|]. rewrite Eg. by eapply st_prepare.
  - destruct (gw s) as [[] d] eqn:Eg; try done. destruct ev as [| | | |r| |]; try done.
    destruct (plausible _ d) eqn:Ep; [|done].
    destruct (select_branch _ _ _ _) as [[d'|d']|] eqn:Eb; [|done|done]. cbn. intros [= <- <-].
    apply (fw_gateway _ _ _ _ (Handled (EvConnecting r)) (Top, d') s); [done|]. rewrite Eg.
    eapply st_branch; [done|by apply plausible_valid|exact Eb].
Qed.

Fixpoint play (cmds : list Command) (s : Fw) : option (list Label * Fw) :=
  match cmds with
  | [] => Some ([], s)
  | cmd :: cmds => '(l, s) ← next cmd s; '(ls, s) ← play cmds s; Some (l :: ls, s)
  end.
Lemma play_steps cmds s ls s' : play cmds s = Some (ls, s') → trace (only []) s ls s'.
Proof.
  revert s ls. induction cmds as [|cmd cmds IH]; intros s ls; cbn [play]; [intros [= <- <-]; constructor|].
  destruct (next cmd s) as [[l s1]|] eqn:En; [|done]. cbn [mbind option_bind].
  destruct (play cmds s1) as [[ls1 s2]|] eqn:Ep; [|done]. cbn. intros [= <- <-].
  econstructor; [by eapply next_step|by apply IH].
Qed.

Definition start : Fw := mk (Fanout.new (channel 10)) (Top, gateway0) 0.
Lemma start_started : Forwarding.started start.
Proof. exists 10, (Top, gateway0). split; [apply gateway0_started|done]. Qed.

(** Transaction 9 reaches the gateway, which starts to connect. *)
Definition accepted : list Command :=
  [Submit (mk_request 9 0 [] None []); PollTask 0; PollTask 0; Prepare 1; Accept 2]%N.
Definition run : option (list Label * Fw) := play accepted start.

Lemma forwarded_copies_are_accounted_for_witness : ∃ ls s, run = Some (ls, s) ∧
  over (forwarded_in 9%N) ls = 1 ∧
  1 = over (heard_in 9%N) ls + over (lost_in 9%N) ls + outstanding 9%N s.
Proof.
  destruct run as [[ls s]|] eqn:E; [|vm_compute in E; discriminate E]. exists ls, s. split; [reflexivity|].
  assert (over (forwarded_in 9%N) ls = 1) as H1 by (vm_compute in E; injection E as <- _; reflexivity).
  split; [exact H1|]. rewrite <-H1 at 1.
  exact (forwarded_copies_are_accounted_for SmartFanout [] false (only []) start ls s 9%N start_started
    (play_steps _ _ _ _ E)).
Defined.

Lemma in_flight_is_outstanding_witness : ∃ ls s, run = Some (ls, s) ∧ 9%N ∈ inflight_transactions (fan s) ∧
  (about_to_send [] 9%N s ∨ 0 < outstanding 9%N s ∨ GaveUp 9%N ∈ ls ∨
   ∃ txs, InGateway (Dropped txs) ∈ ls ∧ 0 < count_txns 9%N txs).
Proof.
  destruct run as [[ls s]|] eqn:E; [|vm_compute in E; discriminate E]. exists ls, s. split; [reflexivity|].
  assert (9%N ∈ inflight_transactions (fan s)) as Hin.
  { vm_compute in E. injection E as _ <-. apply (bool_decide_unpack _). vm_compute. exact I. }
  split; [exact Hin|].
  exact (in_flight_is_outstanding SmartFanout [] false (only []) start ls s 9%N start_started
    (play_steps _ _ _ _ E) Hin).
Defined.
End ForwardingDemo.
