(* ===== verification/Geyser.v ===== *)
(** The Geyser subscriber ([grpc_geyser.rs] of [apps/jet/src]): slot statuses and
    block metadata arrive in any order on a gRPC stream; the metadata of a slot is
    emitted with a commitment once both are known. The handlers run in a small
    state and error monad over the tracking map and the outgoing channels. *)
From S2P Require Import Prelude Types Commitment.
From stdpp Require Import strings.
From Stdlib Require Import Strings.Byte.
Import Commitment.

Module Geyser.
Section Geyser.
(** [str::parse::<Hash>] and [Signature::try_from] are other crates'. *)
Context (parse_hash : string → option N) (signature_try_from : list byte → option Signature).

Inductive GeyserError :=
  | ConnectionFailed | StreamError | StreamEnded | ChannelSendFailed (channel : string)
  | InvalidBlockhash | InvalidSignature | MissingBlockHeight | UnexpectedMessage
  | VersionValidation | VersionParse | JsonParse | SemverParse | GrpcClient.

(** The discriminant of a [SlotStatus], as in [status as i32]. *)
Definition as_i32 (s : SlotStatus) : N :=
  match s with
  | SlotProcessed => 0 | SlotConfirmed => 1 | SlotFinalized => 2 | SlotFirstShredReceived => 3
  | SlotCompleted => 4 | SlotCreatedBank => 5 | SlotDead => 6
  end.
#[export] Instance SlotStatus_eq_dec : EqDecision SlotStatus.
Proof. solve_decision. Defined.

Record SlotTrackingInfo := mk_info {
  statuses_seen : N; info_height : N; info_hash : N; has_block_meta : bool
}.
#[export] Instance Info_settable : Settable SlotTrackingInfo := λ r,
  mk_info (statuses_seen r) (info_height r) (info_hash r) (has_block_meta r).
Definition default_info : SlotTrackingInfo := mk_info 0 0 0 false.

(** The mask is a [u8]. *)
Definition u8_shl_one (n : N) : N := N.shiftl 1 n `mod` 256.
Definition mark_status_seen (s : SlotStatus) (i : SlotTrackingInfo) : SlotTrackingInfo :=
  i <| statuses_seen ::= λ m, N.lor m (u8_shl_one (as_i32 s)) |>.
Definition has_seen_status (i : SlotTrackingInfo) (s : SlotStatus) : bool :=
  negb (N.land (statuses_seen i) (u8_shl_one (as_i32 s)) =? 0)%N.

Definition slot_status_to_commitment (s : SlotStatus) : option CommitmentLevel :=
  match s with
  | SlotProcessed => Some Processed | SlotConfirmed => Some Confirmed | SlotFinalized => Some Finalized
  | _ => None
  end.

(** ** The monad of the handlers

    What went through the two broadcast channels, whose send errors are ignored,
    and through the transactions channel, which takes [transactions_room] more
    messages before its receiver is gone ([None]: it stays). *)
Record Sub := mk_sub {
  slot_tracking : gmap N SlotTrackingInfo;
  slots_tx : list SlotUpdateWithStatus;
  block_meta_tx : list BlockMetaWithCommitment;
  transactions_tx : list GrpcUpdateMessage;
  transactions_room : option nat
}.
#[export] Instance Sub_settable : Settable Sub := λ r,
  mk_sub (slot_tracking r) (slots_tx r) (block_meta_tx r) (transactions_tx r) (transactions_room r).

Inductive Outcome (A : Type) := Ok (a : A) | Err (e : GeyserError) | Panic.
#[global] Arguments Ok {A} _.
#[global] Arguments Err {A} _.
#[global] Arguments Panic {A}.
Definition M (A : Type) : Type := Sub → Outcome A * Sub.
#[export] Instance M_ret : MRet M := λ A a s, (Ok a, s).
#[export] Instance M_bind : MBind M := λ A B f m s,
  match m s with
  | (Ok a, s) => f a s
  | (Err e, s) => (Err e, s)
  | (Panic, s) => (Panic, s)
  end.
Definition throw {A} (e : GeyserError) : M A := λ s, (Err e, s).
Definition panic {A} : M A := λ s, (Panic, s).
Definition modify_sub (f : Sub → Sub) : M unit := λ s, (Ok tt, f s).
(** [slot_tracking.entry(slot).or_default()], updated with [f]. *)
Definition update_entry (slot : N) (f : SlotTrackingInfo → SlotTrackingInfo) : M SlotTrackingInfo := λ s,
  let entry := f (default default_info (slot_tracking s !! slot)) in
  (Ok entry, s <| slot_tracking ::= <[slot := entry]> |>).

Definition send_slots (u : SlotUpdateWithStatus) : M unit := modify_sub (λ s, s <| slots_tx ::= λ l, l ++ [u] |>).
Definition send_block_meta (m : BlockMetaWithCommitment) : M unit :=
  modify_sub (λ s, s <| block_meta_tx ::= λ l, l ++ [m] |>).
Definition send_transactions (m : GrpcUpdateMessage) : M unit := λ s,
  match transactions_room s with
  | Some 0 => (Err (ChannelSendFailed "transactions"), s)
  | room => (Ok tt, s <| transactions_tx ::= λ l, l ++ [m] |> <| transactions_room := pred <$> room |>)
  end.

(** ** The handlers *)
Definition emit (include_transactions : bool) (m : BlockMetaWithCommitment) : M unit :=
  _ ← send_block_meta m;
  if include_transactions then send_transactions (BlockMeta m) else mret tt.

Definition handle_slot_update (include_transactions : bool) (slot : N) (status : Z) : M unit :=
  let slot_status := from_i32 status in
  entry ← update_entry slot (mark_status_seen slot_status);
  _ ← send_slots (mk_update slot slot_status);
  _ ← (if has_block_meta entry then
         match slot_status_to_commitment slot_status with
         | Some c => emit include_transactions (mk_meta slot (info_height entry) (info_hash entry) c)
         | None => mret tt
         end
       else mret tt);
  if decide (slot_status = SlotFinalized)
  then modify_sub (λ s, s <| slot_tracking ::= filter (λ p, slot ≤ p.1)%N |>) else mret tt.

Definition handle_transaction_status (slot : N) (sig : list byte) : M unit :=
  match signature_try_from sig with
  | None => panic
  | Some s => send_transactions (Transaction (mk_received slot s))
  end.

(** The loop over the statuses that carry a commitment. *)
Fixpoint emit_seen (include_transactions : bool) (slot : N) (entry : SlotTrackingInfo) (statuses : list SlotStatus) : M unit :=
  match statuses with
  | [] => mret tt
  | status :: statuses =>
      _ ← (if has_seen_status entry status then
             match slot_status_to_commitment status with
             | Some c => emit include_transactions (mk_meta slot (info_height entry) (info_hash entry) c)
             | None => mret tt
             end
           else mret tt);
      emit_seen include_transactions slot entry statuses
  end.

Definition handle_block_meta (include_transactions : bool) (slot : N) (blockhash : string) (block_height : option N) : M unit :=
  match block_height with
  | None => throw MissingBlockHeight
  | Some height =>
      match parse_hash blockhash with
      | None => throw InvalidBlockhash
      | Some hash =>
          entry ← update_entry slot (λ i, mk_info (statuses_seen i) height hash true);
          emit_seen include_transactions slot entry [SlotProcessed; SlotConfirmed; SlotFinalized]
      end
  end.

(** [SubscribeUpdate::update_oneof]; [UOther] is any other payload, or none. *)
Inductive Update :=
  | USlot (slot : N) (status : Z)
  | UTransactionStatus (slot : N) (signature : list byte)
  | UBlockMeta (slot : N) (blockhash : string) (block_height : option N)
  | UPing
  | UOther.

Definition handle_grpc_message (include_transactions : bool) (msg : Update) : M unit :=
  match msg with
  | USlot slot status => handle_slot_update include_transactions slot status
  | UTransactionStatus slot sig => if include_transactions then handle_transaction_status slot sig else mret tt
  | UBlockMeta slot blockhash height => handle_block_meta include_transactions slot blockhash height
  | UPing => mret tt
  | UOther => throw UnexpectedMessage
  end.

(** [process_grpc_stream]: what its [select!] sees; [None] while it runs. *)
Inductive StreamItem := Cancelled | NextStatus | NextEnd | NextMsg (m : Update).
Fixpoint process_items (include_transactions : bool) (items : list StreamItem) (s : Sub) : option (Outcome unit) * Sub :=
  match items with
  | [] => (None, s)
  | Cancelled :: _ => (Some (Ok tt), s)
  | NextStatus :: _ => (Some (Err StreamError), s)
  | NextEnd :: _ => (Some (Err StreamEnded), s)
  | NextMsg m :: items =>
      match handle_grpc_message include_transactions m s with
      | (Ok _, s) => process_items include_transactions items s
      | (r, s) => (Some r, s)
      end
  end.
Definition process_grpc_stream (include_transactions : bool) (items : list StreamItem) (s : Sub) : option (Outcome unit) * Sub :=
  process_items include_transactions items (s <| slot_tracking := ∅ |>).

(** [grpc_subscribe]: what each turn of its loop meets. [AOpenFailed] and
    [ATimeout] are the outcomes of [grpc_open] without a stream. The result is
    [Some true] for a return, [Some false] for a panic. *)
Inductive Attempt := ACancelled | ATimeout | AOpenFailed | AStream (items : list StreamItem).
Fixpoint grpc_subscribe (include_transactions : bool) (attempts : list Attempt) (s : Sub) : option bool * Sub :=
  match attempts with
  | [] => (None, s)
  | ACancelled :: _ => (Some true, s)
  | (ATimeout | AOpenFailed) :: attempts => grpc_subscribe include_transactions attempts s
  | AStream items :: attempts =>
      match process_grpc_stream include_transactions items s with
      | (None, s) => (None, s)
      | (Some (Ok _), s) => (Some true, s)
      | (Some Panic, s) => (Some false, s)
      | (Some (Err _), s) => grpc_subscribe include_transactions attempts s
      end
  end.

(** ** Opening the stream

    One turn of [grpc_open]: the delay it slept first, and its outcome. *)
Inductive OpenTry := ConnectFailed | VersionRejected (e : GeyserError) | SubscribeFailed | Subscribed.
Fixpoint grpc_open (backoff : IncrementalBackoff) (tries : list OpenTry) : list (option Duration) * option (Outcome unit) :=
  match tries with
  | [] => ([], None)
  | t :: tries =>
      match maybe_tick backoff with
      | None => ([], Some Panic)
      | Some (delay, backoff) =>
          match t with
          | ConnectFailed => let '(l, r) := grpc_open (init backoff) tries in (delay :: l, r)
          | VersionRejected e => ([delay], Some (Err e))
          | SubscribeFailed => let '(l, r) := grpc_open (reset backoff) tries in (delay :: l, r)
          | Subscribed => ([delay], Some (Ok tt))
          end
      end
  end.

(** [is_supported_geyser_version]: [matches] is [VersionReq::matches] of the
    required range, [pre] the prerelease tag. *)
Record Version := mk_version { major : N; minor : N; patch : N; pre : string }.
Definition is_supported_geyser_version (matches : Version → bool) (version : Version) : bool :=
  if matches version then true
  else if negb (String.eqb (pre version) "") then matches (mk_version (major version) (minor version) (patch version) "")
  else false.

(** ** The mask is a set of statuses *)
Lemma has_seen_mark s t i : has_seen_status (mark_status_seen s i) t = bool_decide (s = t) || has_seen_status i t.
Proof.
  unfold has_seen_status, mark_status_seen. upd_simpl. rewrite N.land_lor_distr_l.
  case_bool_decide as Hst.
  - subst t. rewrite N.land_diag. cbn [orb].
    destruct (N.eqb_spec (N.lor (N.land (statuses_seen i) (u8_shl_one (as_i32 s))) (u8_shl_one (as_i32 s))) 0) as [E|]; [|done].
    apply N.lor_eq_0_iff in E as [_ E]. by destruct s.
  - assert (N.land (u8_shl_one (as_i32 s)) (u8_shl_one (as_i32 t)) = 0%N) as -> by (by destruct s, t).
    by rewrite N.lor_0_r.
Qed.

Lemma has_seen_default s : has_seen_status default_info s = false.
Proof. done. Qed.

(** ** What the handlers send *)
Definition meta_of (m : GrpcUpdateMessage) : option BlockMetaWithCommitment :=
  match m with BlockMeta b => Some b | _ => None end.
Definition slot_of (m : GrpcUpdateMessage) : option SlotUpdateWithStatus :=
  match m with Slot u => Some u | _ => None end.
Definition for_transactions (m : GrpcUpdateMessage) : bool := match m with Slot _ => false | _ => true end.

(** [l] went out between [s] and [s']. *)
Record sent (inc : bool) (l : list GrpcUpdateMessage) (s s' : Sub) : Prop := {
  sent_slots : slots_tx s' = slots_tx s ++ omap slot_of l;
  sent_metas : block_meta_tx s' = block_meta_tx s ++ omap meta_of l;
  sent_transactions : transactions_tx s' =
    transactions_tx s ++ if inc then filter (λ m, for_transactions m = true) l else []
}.

Lemma sent_nil inc s s' : slots_tx s' = slots_tx s → block_meta_tx s' = block_meta_tx s →
  transactions_tx s' = transactions_tx s → sent inc [] s s'.
Proof. intros H1 H2 H3. split; cbn; rewrite ?H1, ?H2, ?H3, ?app_nil_r; try done. by destruct inc; rewrite app_nil_r. Qed.

Lemma sent_app inc l1 l2 s1 s2 s3 : sent inc l1 s1 s2 → sent inc l2 s2 s3 → sent inc (l1 ++ l2) s1 s3.
Proof.
  intros [H1 H2 H3] [H4 H5 H6]. split.
  - by rewrite H4, H1, omap_app, app_assoc.
  - by rewrite H5, H2, omap_app, app_assoc.
  - rewrite H6, H3. destruct inc; [by rewrite filter_app, app_assoc|by rewrite !app_nil_r].
Qed.

Lemma bind_ok {A B} (m : M A) (f : A → M B) s b s' :
  (m ≫= f) s = (Ok b, s') ↔ ∃ a s1, m s = (Ok a, s1) ∧ f a s1 = (Ok b, s').
Proof.
  unfold mbind, M_bind. destruct (m s) as [[a|e|] s1]; split; [by eauto|..]; [|done|by intros (?&?&?&?)|done|by intros (?&?&?&?)].
  by intros (a' & s1' & [= <- <-] & H).
Qed.

Lemma send_transactions_ok m s s' : send_transactions m s = (Ok tt, s') →
  slot_tracking s' = slot_tracking s ∧ slots_tx s' = slots_tx s ∧ block_meta_tx s' = block_meta_tx s ∧
  transactions_tx s' = transactions_tx s ++ [m].
Proof.
  unfold send_transactions. destruct (transactions_room s) as [[|n]|]; [done|..]; intros [= <-]; by upd_simpl.
Qed.

Lemma emit_sent inc m s s' : emit inc m s = (Ok tt, s') →
  sent inc [BlockMeta m] s s' ∧ slot_tracking s' = slot_tracking s.
Proof.
  unfold emit. intros ([] & s1 & [= <-] & H)%bind_ok. destruct inc.
  - apply send_transactions_ok in H as (H1 & H2 & H3 & H4). upd_simpl_in H1. upd_simpl_in H2. upd_simpl_in H3. upd_simpl_in H4.
    split; [|done]. split; [rewrite H2|rewrite H3|rewrite H4]; cbn; by rewrite ?app_nil_r.
  - injection H as <-. split; [|by upd_simpl]. split; upd_simpl; cbn; by rewrite ?app_nil_r.
Qed.

Definition seen_metas (slot : N) (height hash : N) (seen : SlotStatus → bool) (l : list SlotStatus) : list GrpcUpdateMessage :=
  (λ c, BlockMeta (mk_meta slot height hash c)) <$> omap slot_status_to_commitment (filter (λ s, seen s = true) l).

Lemma emit_seen_sent inc slot entry l s s' : emit_seen inc slot entry l s = (Ok tt, s') →
  sent inc (seen_metas slot (info_height entry) (info_hash entry) (has_seen_status entry) l) s s' ∧
  slot_tracking s' = slot_tracking s.
Proof.
  revert s. induction l as [|st l IH]; intros s; cbn [emit_seen].
  { intros [= <-]. split; [by apply sent_nil|done]. }
  intros ([] & s1 & H1 & H2)%bind_ok. unfold seen_metas. rewrite filter_cons. apply IH in H2 as [H3 H4].
  destruct (has_seen_status entry st) eqn:Es.
  - rewrite decide_True by done. cbn [omap list_omap].
    destruct (slot_status_to_commitment st) as [c|] eqn:Ec; [|injection H1 as <-; by split].
    apply emit_sent in H1 as [H1 H5]. split; [|congruence]. exact (sent_app _ _ _ _ _ _ H1 H3).
  - rewrite decide_False by done. injection H1 as <-. by split.
Qed.

(** ** The reference: what the history says of a slot

    The statuses and the last metadata of [n] since a later slot was finalized. *)
Definition track (n : N) (acc : list SlotStatus * option (N * N)) (m : Update) : list SlotStatus * option (N * N) :=
  match m with
  | USlot k status =>
      if decide (from_i32 status = SlotFinalized ∧ n < k)%N then ([], None)
      else if decide (k = n) then (from_i32 status :: acc.1, acc.2) else acc
  | UBlockMeta k blockhash (Some height) =>
      match parse_hash blockhash with
      | Some hash => if decide (k = n) then (acc.1, Some (height, hash)) else acc
      | None => acc
      end
  | _ => acc
  end.
Definition history (n : N) (past : list Update) : list SlotStatus * option (N * N) := foldl (track n) ([], None) past.

Definition reference_step (past : list Update) (m : Update) : list GrpcUpdateMessage :=
  match m with
  | USlot n status =>
      Slot (mk_update n (from_i32 status)) ::
      match (history n past).2, slot_status_to_commitment (from_i32 status) with
      | Some (height, hash), Some c => [BlockMeta (mk_meta n height hash c)]
      | _, _ => []
      end
  | UBlockMeta n blockhash (Some height) =>
      match parse_hash blockhash with
      | Some hash => seen_metas n height hash (λ s, bool_decide (s ∈ (history n past).1)) [SlotProcessed; SlotConfirmed; SlotFinalized]
      | None => []
      end
  | UTransactionStatus n sig =>
      match signature_try_from sig with Some s => [Transaction (mk_received n s)] | None => [] end
  | _ => []
  end.
Fixpoint reference (past msgs : list Update) : list GrpcUpdateMessage :=
  match msgs with
  | [] => []
  | m :: msgs => reference_step past m ++ reference (past ++ [m]) msgs
  end.

Lemma history_snoc n past m : history n (past ++ [m]) = track n (history n past) m.
Proof. unfold history. by rewrite foldl_app. Qed.

(** The tracking map represents the history of every slot. *)
Definition represents (past : list Update) (tracking : gmap N SlotTrackingInfo) : Prop :=
  ∀ n, let i := default default_info (tracking !! n) in
    (∀ s, has_seen_status i s = bool_decide (s ∈ (history n past).1)) ∧
    (history n past).2 = if has_block_meta i then Some (info_height i, info_hash i) else None.

Lemma represents_empty : represents [] ∅.
Proof. intros n. rewrite lookup_empty. cbn. split; [|done]. intros s. by rewrite has_seen_default, bool_decide_eq_false_2 by set_solver. Qed.

(** An entry updated in place, then the map pruned below a finalized slot. *)
Lemma represents_slot past tracking n status : represents past tracking →
  let entry := mark_status_seen (from_i32 status) (default default_info (tracking !! n)) in
  let tracking' := <[n := entry]> tracking in
  represents (past ++ [USlot n status])
    (if decide (from_i32 status = SlotFinalized) then filter (λ p, n ≤ p.1)%N tracking' else tracking').
Proof.
  intros Hr entry tracking' k. rewrite history_snoc. cbn [track].
  assert ((if decide (from_i32 status = SlotFinalized) then filter (λ p, n ≤ p.1)%N tracking' else tracking') !! k =
    if decide (from_i32 status = SlotFinalized ∧ k < n)%N then None else tracking' !! k) as ->.
  { destruct (decide (from_i32 status = SlotFinalized)) as [E|E].
    - destruct (decide (k < n)%N).
      + rewrite decide_True by done. apply map_lookup_filter_None. right. intros x _. cbn. lia.
      + rewrite decide_False by lia. destruct (tracking' !! k) as [x|] eqn:Ex.
        * apply map_lookup_filter_Some. split; [done|cbn; lia].
        * apply map_lookup_filter_None. by left.
    - by rewrite decide_False by tauto. }
  destruct (decide (_ ∧ _)) as [[E Hk]|_].
  { cbn. split; [|done]. intros s. by rewrite has_seen_default, bool_decide_eq_false_2 by set_solver. }
  unfold tracking'. destruct (decide (n = k)) as [->|Hn].
  - rewrite lookup_insert_eq. cbn [default from_option id fst snd]. destruct (Hr k) as [H1 H2]. split.
    + intros s. unfold entry. rewrite has_seen_mark, H1.
      repeat case_bool_decide; try done; set_solver.
    + exact H2.
  - rewrite lookup_insert_ne by done. apply Hr.
Qed.

Lemma represents_meta past tracking n blockhash height hash : represents past tracking → parse_hash blockhash = Some hash →
  let i := default default_info (tracking !! n) in
  represents (past ++ [UBlockMeta n blockhash (Some height)]) (<[n := mk_info (statuses_seen i) height hash true]> tracking).
Proof.
  intros Hr Hp i k. rewrite history_snoc. cbn [track]. rewrite Hp. destruct (decide (n = k)) as [->|Hn].
  - rewrite lookup_insert_eq. cbn. split; [|done]. intros s. exact (proj1 (Hr k) s).
  - rewrite lookup_insert_ne by done. apply Hr.
Qed.

Lemma emit_if_sent inc (b : bool) status n height hash s s' :
  (if b then match slot_status_to_commitment status with
             | Some c => emit inc (mk_meta n height hash c) | None => mret tt end
   else mret tt) s = (Ok tt, s') →
  sent inc (match (if b then Some (height, hash) else None), slot_status_to_commitment status with
            | Some (height, hash), Some c => [BlockMeta (mk_meta n height hash c)] | _, _ => [] end) s s' ∧
  slot_tracking s' = slot_tracking s.
Proof.
  destruct b, (slot_status_to_commitment status); try by (intros [= <-]; split; [by apply sent_nil|]).
  apply emit_sent.
Qed.

Lemma handle_slot_update_refines inc past n status s s' : represents past (slot_tracking s) →
  handle_slot_update inc n status s = (Ok tt, s') →
  represents (past ++ [USlot n status]) (slot_tracking s') ∧ sent inc (reference_step past (USlot n status)) s s'.
Proof.
  intros Hr. pose proof (represents_slot past _ n status Hr) as Hr'. cbn zeta in Hr'.
  unfold handle_slot_update. intros (entry & s1 & [= He <-] & ([] & s2 & [= <-] & ([] & s3 & H1 & H2)%bind_ok)%bind_ok)%bind_ok.
  rewrite He in H1, Hr'. apply emit_if_sent in H1 as [H1 H3]. upd_simpl_in H3.
  destruct (Hr n) as [_ Hm].
  assert (has_block_meta entry = has_block_meta (default default_info (slot_tracking s !! n)) ∧
    info_height entry = info_height (default default_info (slot_tracking s !! n)) ∧
    info_hash entry = info_hash (default default_info (slot_tracking s !! n))) as (E1 & E2 & E3) by (by rewrite <-He).
  rewrite <-E1, <-E2, <-E3 in Hm. rewrite <-Hm in H1.
  assert (sent inc (reference_step past (USlot n status)) s s3) as Hs.
  { eapply (sent_app inc [Slot (mk_update n (from_i32 status))]); [|exact H1].
    split; upd_simpl; cbn; rewrite ?app_nil_r; try done. by destruct inc; rewrite app_nil_r. }
  destruct (decide (from_i32 status = SlotFinalized)); injection H2 as <-; upd_simpl; rewrite ?H3.
  - split; [done|]. rewrite <-(app_nil_r (reference_step _ _)). eapply sent_app; [exact Hs|by apply sent_nil; upd_simpl].
  - by split.
Qed.

Lemma handle_block_meta_refines inc past n blockhash height s s' : represents past (slot_tracking s) →
  handle_block_meta inc n blockhash height s = (Ok tt, s') →
  represents (past ++ [UBlockMeta n blockhash height]) (slot_tracking s') ∧
  sent inc (reference_step past (UBlockMeta n blockhash height)) s s'.
Proof.
  intros Hr. unfold handle_block_meta. destruct height as [height|]; [|done].
  destruct (parse_hash blockhash) as [hash|] eqn:Ep; [|done].
  intros (entry & s1 & [= He <-] & H)%bind_ok. apply emit_seen_sent in H as [H1 H2]. upd_simpl_in H2.
  split.
  - rewrite H2. rewrite He. subst entry. by apply represents_meta.
  - cbn [reference_step]. rewrite Ep. subst entry. cbn in H1.
    assert (seen_metas n height hash (λ s, bool_decide (s ∈ (history n past).1)) [SlotProcessed; SlotConfirmed; SlotFinalized] =
      seen_metas n height hash (has_seen_status (mk_info (statuses_seen (default default_info (slot_tracking s !! n))) height hash true))
        [SlotProcessed; SlotConfirmed; SlotFinalized]) as ->.
    { unfold seen_metas. do 2 f_equal. apply list_filter_iff. intros t. pose proof (proj1 (Hr n) t) as <-. done. }
    refine (sent_app inc [] _ _ _ _ _ H1). by apply sent_nil; upd_simpl.
Qed.

Lemma handle_refines inc past m s s' : represents past (slot_tracking s) → handle_grpc_message inc m s = (Ok tt, s') →
  represents (past ++ [m]) (slot_tracking s') ∧ sent inc (reference_step past m) s s'.
Proof.
  intros Hr. destruct m as [n status|n sig|n blockhash height| |]; cbn [handle_grpc_message].
  - by apply handle_slot_update_refines.
  - intros H. assert (slot_tracking s' = slot_tracking s ∧ sent inc (reference_step past (UTransactionStatus n sig)) s s') as [Ht Hs].
    { cbn [reference_step]. destruct inc.
      - unfold handle_transaction_status in H. destruct (signature_try_from sig); [|done].
        apply send_transactions_ok in H as (H1 & H2 & H3 & H4). split; [done|].
        split; [rewrite H2|rewrite H3|rewrite H4]; cbn; by rewrite ?app_nil_r.
      - injection H as <-. split; [done|]. destruct (signature_try_from sig); split; cbn; by rewrite ?app_nil_r. }
    split; [|done]. rewrite Ht. intros k. rewrite history_snoc. apply Hr.
  - by apply handle_block_meta_refines.
  - intros [= <-]. split; [|by apply sent_nil]. intros k. rewrite history_snoc. apply Hr.
  - done.
Qed.

(** A stream that runs, from any state that represents its past. *)
Lemma process_refines inc msgs past s s' : represents past (slot_tracking s) →
  process_items inc (NextMsg <$> msgs) s = (None, s') →
  represents (past ++ msgs) (slot_tracking s') ∧ sent inc (reference past msgs) s s'.
Proof.
  revert past s. induction msgs as [|m msgs IH]; intros past s Hr; cbn [fmap list_fmap process_items reference].
  { intros [= <-]. rewrite app_nil_r. split; [done|by apply sent_nil]. }
  destruct (handle_grpc_message inc m s) as [[[]| |] s1] eqn:E; [|done..].
  apply handle_refines with (past := past) in E as [H1 H2]; [|done].
  intros H. apply IH with (past := past ++ [m]) in H as [H3 H4]; [|done].
  rewrite <-app_assoc in H3. split; [done|]. by eapply sent_app.
Qed.

(** C27: A run of the subscriber sends on its three channels exactly what a reference that
    reads only the history of the stream sends (per slot, the statuses and the last
    metadata since a later slot was finalized), and its tracking map represents that
    history. *)
Theorem stream_emits_by_history inc msgs s s'
    (Hrun : process_grpc_stream inc (NextMsg <$> msgs) s = (None, s')) :
  sent inc (reference [] msgs) s s' ∧ represents msgs (slot_tracking s').
Proof.
  apply process_refines with (past := []) in Hrun as [H1 H2]; [|upd_simpl; exact represents_empty].
  split; [|done]. destruct H2 as [H2 H3 H4]. upd_simpl_in H2. upd_simpl_in H3. upd_simpl_in H4. by split.
Qed.

(** ** How a stream stops *)
Definition verdict (inc : bool) (m : Update) : Outcome unit :=
  match m with
  | USlot _ _ | UPing => Ok tt
  | UTransactionStatus _ sig => if inc then match signature_try_from sig with Some _ => Ok tt | None => Panic end else Ok tt
  | UBlockMeta _ _ None => Err MissingBlockHeight
  | UBlockMeta _ blockhash (Some _) => match parse_hash blockhash with Some _ => Ok tt | None => Err InvalidBlockhash end
  | UOther => Err UnexpectedMessage
  end.
Definition item_verdict (inc : bool) (i : StreamItem) : option (Outcome unit) :=
  match i with
  | Cancelled => Some (Ok tt)
  | NextStatus => Some (Err StreamError)
  | NextEnd => Some (Err StreamEnded)
  | NextMsg m => match verdict inc m with Ok _ => None | r => Some r end
  end.

Definition open (s : Sub) : Prop := transactions_room s = None.
(** A handler step that keeps the channel open. *)
Definition stays {A} (m : M A) : Prop := ∀ s, open s → open (m s).2 ∧ ∃ a, (m s).1 = Ok a.

Lemma stays_bind {A B} (m : M A) (f : A → M B) : stays m → (∀ a, stays (f a)) → stays (m ≫= f).
Proof.
  intros Hm Hf s Hs. destruct (Hm s Hs) as [H1 [a H2]]. unfold mbind, M_bind.
  destruct (m s) as [r s1]. cbn in *. subst r. by apply Hf.
Qed.
Lemma stays_ret {A} (a : A) : stays (mret a).
Proof. intros s Hs. split; [done|]. by exists a. Qed.
Lemma stays_modify f : (∀ s, transactions_room (f s) = transactions_room s) → stays (modify_sub f).
Proof. intros Hf s Hs. unfold open in *. cbn. rewrite Hf. eauto. Qed.
Lemma stays_send m : stays (send_transactions m).
Proof. intros s Hs. unfold open, send_transactions in *. rewrite Hs. cbn. upd_simpl. rewrite ?Hs. eauto. Qed.
Lemma stays_entry n f : stays (update_entry n f).
Proof. intros s Hs. unfold open, update_entry in *. cbn. upd_simpl. eauto. Qed.
Lemma stays_emit inc m : stays (emit inc m).
Proof.
  apply stays_bind; [by apply stays_modify|]. intros []. destruct inc; [apply stays_send|apply stays_ret].
Qed.
Lemma stays_emit_if inc (b : bool) status n h x :
  stays (if b then match slot_status_to_commitment status with
                   | Some c => emit inc (mk_meta n h x c) | None => mret tt end else mret tt).
Proof. destruct b; [destruct slot_status_to_commitment|]; (apply stays_emit || apply stays_ret). Qed.
Lemma stays_emit_seen inc n entry l : stays (emit_seen inc n entry l).
Proof.
  induction l; cbn [emit_seen]; [apply stays_ret|]. apply stays_bind; [apply stays_emit_if|done].
Qed.

Lemma handle_verdict inc m s : open s →
  (handle_grpc_message inc m s).1 = verdict inc m ∧ open (handle_grpc_message inc m s).2.
Proof.
  assert (∀ m : M unit, stays m → open s → (m s).1 = Ok tt ∧ open (m s).2) as Hok.
  { intros m' H Hs. destruct (H s Hs) as [H1 [[] H2]]. done. }
  intros Hs. destruct m as [n status|n sig|n blockhash [height|]| |]; cbn [handle_grpc_message verdict]; try done.
  - apply Hok; [|done]. apply stays_bind; [apply stays_entry|]. intros entry.
    apply stays_bind; [by apply stays_modify|]. intros _. apply stays_bind; [apply stays_emit_if|]. intros _.
    case_decide; [by apply stays_modify|apply stays_ret].
  - destruct inc; [|done]. unfold handle_transaction_status. destruct (signature_try_from sig); [|done].
    apply Hok; [apply stays_send|done].
  - unfold handle_block_meta. destruct (parse_hash blockhash); [|done]. apply Hok; [|done].
    apply stays_bind; [apply stays_entry|]. intros. apply stays_emit_seen.
Qed.

Lemma process_verdict inc items s : open s → (process_items inc items s).1 = head (omap (item_verdict inc) items).
Proof.
  revert s. induction items as [|[| | |m] items IH]; intros s Hs; cbn [process_items omap list_omap item_verdict]; try done.
  pose proof (handle_verdict inc m s Hs) as [H1 H2].
  destruct (handle_grpc_message inc m s) as [r s1]. cbn in H1, H2. subst r.
  destruct (verdict inc m) as [[]| |]; [by apply IH|done..].
Qed.

(** With the transactions channel open, the stream loop returns the verdict of the first
    item that has one: success on cancellation, the error of a status, of the end of the
    stream or of a malformed message, a panic on a malformed signature. *)
Theorem stream_stops_at_the_first_bad_item inc items s (Hroom : transactions_room s = None) :
  (process_grpc_stream inc items s).1 = head (omap (item_verdict inc) items) ∧
  ∀ s' slot sig x, transactions_room s' = Some 0 → signature_try_from sig = Some x →
    process_items true (NextMsg (UTransactionStatus slot sig) :: items) s' =
      (Some (Err (ChannelSendFailed "transactions")), s').
Proof.
  split.
  - by apply process_verdict.
  - intros s' slot sig x Hr Hx. cbn. unfold handle_transaction_status, send_transactions. by rewrite Hx, Hr.
Qed.

(** ** Any order *)
Definition statuses_of (n : N) (msgs : list Update) : list SlotStatus :=
  omap (λ m, match m with USlot k st => if decide (k = n) then Some (from_i32 st) else None | _ => None end) msgs.
Definition commitments_of (n : N) (msgs : list Update) : list CommitmentLevel :=
  omap slot_status_to_commitment (statuses_of n msgs).
Definition metas_of (n : N) (msgs : list Update) : list (N * N) :=
  omap (λ m, match m with
    | UBlockMeta k blockhash (Some height) =>
        if decide (k = n) then (λ hash, (height, hash)) <$> parse_hash blockhash else None
    | _ => None end) msgs.
(** No later slot is finalized. *)
Definition keeps (n : N) (m : Update) : Prop :=
  match m with USlot k st => from_i32 st = SlotFinalized → (k ≤ n)%N | _ => True end.
(** The metadata of [n] among the messages. *)
Definition emitted (n : N) (l : list GrpcUpdateMessage) : list BlockMetaWithCommitment :=
  filter (λ m, slot m = n) (omap meta_of l).

Definition committed (seen : list SlotStatus) : list CommitmentLevel :=
  omap slot_status_to_commitment (filter (λ s, s ∈ seen) [SlotProcessed; SlotConfirmed; SlotFinalized]).

Definition status_of (c : CommitmentLevel) : SlotStatus :=
  match c with Processed => SlotProcessed | Confirmed => SlotConfirmed | Finalized => SlotFinalized end.
Lemma commitment_of_status st c : slot_status_to_commitment st = Some c ↔ st = status_of c.
Proof. by destruct st, c. Qed.

Lemma elem_of_committed seen c : c ∈ committed seen ↔ status_of c ∈ seen.
Proof.
  unfold committed. rewrite list_elem_of_omap. setoid_rewrite commitment_of_status.
  setoid_rewrite list_elem_of_filter. split; [by intros (? & [? _] & ->)|].
  intros H. exists (status_of c). split_and!; [done| |done]. destruct c; set_solver.
Qed.
Lemma committed_nodup seen : NoDup (committed seen).
Proof.
  assert (∀ l, NoDup l → NoDup (omap slot_status_to_commitment l)) as H.
  { induction 1 as [|st l Hst Hl IH]; [constructor|]. cbn [omap list_omap].
    destruct (slot_status_to_commitment st) as [c|] eqn:E; [|done]. constructor; [|done].
    apply commitment_of_status in E as ->. rewrite list_elem_of_omap. intros (st' & Hin & ->%commitment_of_status). done. }
  apply H, NoDup_filter. apply (bool_decide_unpack _). by vm_compute.
Qed.

Lemma committed_add st c seen : slot_status_to_commitment st = Some c → st ∉ seen →
  committed (st :: seen) ≡ₚ c :: committed seen.
Proof.
  intros ->%commitment_of_status Hst. apply NoDup_Permutation.
  - apply committed_nodup.
  - constructor; [by rewrite elem_of_committed|apply committed_nodup].
  - intros c'. rewrite elem_of_cons, !elem_of_committed, elem_of_cons. destruct c, c'; naive_solver.
Qed.
Lemma committed_skip st seen : slot_status_to_commitment st = None → committed (st :: seen) ≡ₚ committed seen.
Proof.
  intros H. apply NoDup_Permutation; [apply committed_nodup..|]. intros c. rewrite !elem_of_committed, elem_of_cons.
  split; [|by right]. intros [<-|?]; [|done]. by destruct c.
Qed.

Lemma emitted_app n l1 l2 : emitted n (l1 ++ l2) = emitted n l1 ++ emitted n l2.
Proof. unfold emitted. by rewrite omap_app, filter_app. Qed.
Lemma emitted_seen n k h x seen : emitted n (seen_metas k h x (λ s, bool_decide (s ∈ seen)) [SlotProcessed; SlotConfirmed; SlotFinalized]) =
  if decide (k = n) then (λ c, mk_meta n h x c) <$> committed seen else [].
Proof.
  unfold emitted, seen_metas, committed.
  assert (filter (λ s, bool_decide (s ∈ seen) = true) [SlotProcessed; SlotConfirmed; SlotFinalized] =
    filter (λ s, s ∈ seen) [SlotProcessed; SlotConfirmed; SlotFinalized]) as ->.
  { apply list_filter_iff. intros s. by rewrite bool_decide_eq_true. }
  generalize (omap slot_status_to_commitment (filter (λ s, s ∈ seen) [SlotProcessed; SlotConfirmed; SlotFinalized])).
  intros l. induction l as [|c l IH]; [by case_decide|]. cbn [fmap list_fmap omap list_omap meta_of].
  rewrite filter_cons. cbn [slot].
  destruct (decide (k = n)) as [->|]; [f_equal|]; apply IH.
Qed.

(** Once the metadata of [n] is known, each status emits when it arrives. *)
Lemma emits_after past msgs n h x seen : history n past = (seen, Some (h, x)) → metas_of n msgs = [] →
  Forall (keeps n) msgs → emitted n (reference past msgs) = (λ c, mk_meta n h x c) <$> commitments_of n msgs.
Proof.
  revert past seen. induction msgs as [|m msgs IH]; intros past seen Hh Hm Hk; [done|].
  apply Forall_cons in Hk as [Hk1 Hk2]. cbn [reference]. rewrite emitted_app.
  unfold metas_of in Hm. cbn [omap list_omap] in Hm. fold (metas_of n msgs) in Hm.
  assert (∀ seen', track n (history n past) m = (seen', Some (h, x)) → metas_of n msgs = [] →
    emitted n (reference (past ++ [m]) msgs) = (λ c, mk_meta n h x c) <$> commitments_of n msgs) as IH'.
  { intros seen' Ht Hm'. apply IH with (seen := seen'); [by rewrite history_snoc|done|done]. }
  rewrite Hh in IH'. unfold commitments_of, statuses_of. cbn [omap list_omap].
  destruct m as [k st|k sig|k bh [height|]| |]; cbn [track reference_step] in *.
  - assert (¬ (from_i32 st = SlotFinalized ∧ n < k)%N) as Hno by (intros [E ?]; specialize (Hk1 E); lia).
    rewrite decide_False in IH' by done.
    destruct (decide (k = n)) as [->|Hkn].
    + rewrite Hh. cbn [fst snd]. erewrite IH' by done. cbn [omap list_omap].
      destruct (slot_status_to_commitment (from_i32 st)); cbn; [|done]. rewrite decide_True by done. done.
    + erewrite IH' by done. destruct (history k past).2 as [[]|]; cbn; [|done].
      destruct (slot_status_to_commitment (from_i32 st)); cbn; [|done]. by rewrite decide_False.
  - erewrite IH' by done. by destruct (signature_try_from sig).
  - destruct (parse_hash bh) as [hash|] eqn:Ep.
    + destruct (decide (k = n)) as [->|Hkn]; [done|]. rewrite emitted_seen, decide_False by done. by erewrite IH'.
    + erewrite IH' by (try done; by destruct (decide (k = n))). done.
  - by erewrite IH'.
  - by erewrite IH'.
  - by erewrite IH'.
Qed.

Lemma emits_before past msgs n h x seen : history n past = (seen, None) → metas_of n msgs = [(h, x)] →
  Forall (keeps n) msgs → NoDup (commitments_of n msgs) → (∀ c, c ∈ commitments_of n msgs → status_of c ∉ seen) →
  emitted n (reference past msgs) ≡ₚ (λ c, mk_meta n h x c) <$> committed seen ++ commitments_of n msgs.
Proof.
  revert past seen. induction msgs as [|m msgs IH]; intros past seen Hh Hm Hk Hnd Hseen; [done|].
  apply Forall_cons in Hk as [Hk1 Hk2]. cbn [reference]. rewrite emitted_app.
  unfold metas_of in Hm. cbn [omap list_omap] in Hm. fold (metas_of n msgs) in Hm.
  unfold commitments_of, statuses_of in Hnd, Hseen |- *. cbn [omap list_omap] in Hnd, Hseen |- *.
  fold (statuses_of n msgs) in Hnd, Hseen |- *.
  assert (history n (past ++ [m]) = track n (seen, None) m) as Hh' by (by rewrite history_snoc, Hh).
  destruct m as [k st|k sig|k bh [height|]| |]; cbn [track reference_step] in *.
  - assert (¬ (from_i32 st = SlotFinalized ∧ n < k)%N) as Hno by (intros [E ?]; specialize (Hk1 E); lia).
    rewrite decide_False in Hh' by done. destruct (decide (k = n)) as [->|Hkn].
    + rewrite Hh. cbn [fst snd] in *. cbn [omap list_omap] in *.
      destruct (slot_status_to_commitment (from_i32 st)) as [c|] eqn:Ec; cbn [emitted] in *.
      * apply NoDup_cons in Hnd as [Hc Hnd].
        assert (from_i32 st ∉ seen) as Hst.
        { apply commitment_of_status in Ec as ->. apply Hseen. by left. }
        change (emitted n [Slot (mk_update n (from_i32 st))]) with (@nil BlockMetaWithCommitment). cbn [app].
        rewrite (IH _ _ Hh' Hm Hk2 Hnd), (committed_add _ _ _ Ec Hst).
        { apply fmap_Permutation. exact (Permutation_middle _ _ _). }
        intros c' Hc'. apply commitment_of_status in Ec as ->. rewrite elem_of_cons. intros [E|E].
        -- destruct c, c'; try done; by destruct Hc.
        -- eapply Hseen; [by right|done].
      * change (emitted n [Slot (mk_update n (from_i32 st))]) with (@nil BlockMetaWithCommitment). cbn [app].
        rewrite (IH _ _ Hh' Hm Hk2 Hnd), (committed_skip _ _ Ec); [done|].
        intros c' Hc'. rewrite elem_of_cons. intros [E|E]; [by destruct c'; rewrite <-E in Ec|by eapply Hseen].
    + rewrite (IH _ _ Hh' Hm Hk2 Hnd Hseen).
      destruct (history k past).2 as [[]|]; cbn; [|done].
      destruct (slot_status_to_commitment (from_i32 st)); cbn; [|done]. by rewrite decide_False.
  - rewrite (IH _ _ Hh' Hm Hk2 Hnd Hseen). by destruct (signature_try_from sig).
  - destruct (parse_hash bh) as [hash|] eqn:Ep.
    + rewrite emitted_seen. destruct (decide (k = n)) as [->|Hkn].
      * cbn in Hm. injection Hm as -> -> Hm. rewrite Hh. cbn [fst].
        rewrite (emits_after _ _ _ _ _ _ Hh' Hm Hk2), fmap_app. done.
      * by rewrite (IH _ _ Hh' Hm Hk2 Hnd Hseen).
    + rewrite (IH _ _ Hh'); try done. by destruct (decide (k = n)).
  - by rewrite (IH _ _ Hh' Hm Hk2 Hnd Hseen).
  - by rewrite (IH _ _ Hh' Hm Hk2 Hnd Hseen).
  - by rewrite (IH _ _ Hh' Hm Hk2 Hnd Hseen).
Qed.

(** Whatever the order of statuses and metadata, before a slot is overtaken by a
    finalization its metadata goes out exactly once for each status received that carries a
    commitment. *)
Theorem metadata_is_emitted_once_per_commitment inc msgs s s' n height hash
    (Hrun : process_grpc_stream inc (NextMsg <$> msgs) s = (None, s'))
    (Hmeta : metas_of n msgs = [(height, hash)]) (Honce : NoDup (commitments_of n msgs))
    (Hkeeps : Forall (keeps n) msgs) :
  ∃ new, block_meta_tx s' = block_meta_tx s ++ new ∧
    filter (λ m, slot m = n) new ≡ₚ (λ c, mk_meta n height hash c) <$> commitments_of n msgs.
Proof.
  apply process_refines with (past := []) in Hrun as [_ [_ H _]]; [|upd_simpl; exact represents_empty].
  upd_simpl_in H. eexists. split; [exact H|].
  apply (emits_before [] msgs n height hash []); [done..|]. intros c _. by apply not_elem_of_nil.
Qed.

(** ** What the history holds *)
Lemma history_seen n past s : s ∈ (history n past).1 → ∃ st, USlot n st ∈ past ∧ from_i32 st = s.
Proof.
  induction past as [|m past IH] using rev_ind; [by intros ?%elem_of_nil|]. rewrite history_snoc. intros H.
  assert (s ∈ (history n past).1 ∨ ∃ st, m = USlot n st ∧ from_i32 st = s) as [?|(st & -> & <-)].
  { destruct m as [k st|k sig|k bh [h|]| |]; cbn [track] in H; try by left.
    - case_decide; [by apply elem_of_nil in H|]. case_decide as Hk; [|by left]. subst k. cbn in H.
      apply elem_of_cons in H as [->|?]; [right; eauto|by left].
    - destruct (parse_hash bh); [|by left]. case_decide; by left. }
  - destruct IH as (st & ? & ?); [done|]. exists st. set_solver.
  - exists st. set_solver.
Qed.

Lemma history_meta n past h x : (history n past).2 = Some (h, x) →
  ∃ bh, UBlockMeta n bh (Some h) ∈ past ∧ parse_hash bh = Some x.
Proof.
  induction past as [|m past IH] using rev_ind; [done|]. rewrite history_snoc. intros H.
  assert ((history n past).2 = Some (h, x) ∨ ∃ bh, m = UBlockMeta n bh (Some h) ∧ parse_hash bh = Some x) as [?|(bh & -> & ?)].
  { destruct m as [k st|k sig|k bh [h'|]| |]; cbn [track] in H; try by left.
    - case_decide; [done|]. case_decide; by left.
    - destruct (parse_hash bh) as [y|] eqn:Ep; [|by left]. case_decide as Hk; [|by left]. subst k. cbn in H. injection H as -> ->.
      right. by exists bh. }
  - destruct IH as (bh & ? & ?); [done|]. exists bh. set_solver.
  - exists bh. set_solver.
Qed.

(** Without finalizations nothing is forgotten. *)
Definition not_finalized (m : Update) : Prop := match m with USlot _ st => from_i32 st ≠ SlotFinalized | _ => True end.

Lemma history_keeps n past : Forall not_finalized past →
  (∀ st, USlot n st ∈ past → from_i32 st ∈ (history n past).1) ∧
  (∀ bh h, UBlockMeta n bh (Some h) ∈ past → is_Some (parse_hash bh) → is_Some (history n past).2).
Proof.
  induction past as [|m past IH] using rev_ind; intros Hf; [set_solver|].
  apply Forall_app in Hf as [Hf Hm]. rewrite Forall_singleton in Hm. destruct (IH Hf) as [IH1 IH2].
  rewrite history_snoc. split.
  - intros st [H|H%list_elem_of_singleton]%elem_of_app.
    + specialize (IH1 st H). destruct m as [k st'|k sig|k bh [h|]| |]; cbn [track]; try done.
      * rewrite decide_False by (by intros [? _]; apply Hm). case_decide; [by right|done].
      * destruct (parse_hash bh); [|done]. by case_decide.
    + subst m. cbn [track]. rewrite decide_False by (by intros [? _]; apply Hm). rewrite decide_True by done. by left.
  - intros bh h [H|H%list_elem_of_singleton]%elem_of_app Hp.
    + specialize (IH2 bh h H Hp). destruct m as [k st'|k sig|k bh' [h'|]| |]; cbn [track]; try done.
      * rewrite decide_False by (by intros [? _]; apply Hm). by case_decide.
      * destruct (parse_hash bh'); [|done]. case_decide; [|done]. cbn. eauto.
    + subst m. cbn [track]. destruct Hp as [x ->]. rewrite decide_True by done. cbn. eauto.
Qed.

Lemma reference_step_meta past m b : BlockMeta b ∈ reference_step past m →
  status_of (commitment b) ∈ (history (slot b) past).1 ∧ (∃ bh, m = UBlockMeta (slot b) bh (Some (block_height b)) ∧ parse_hash bh = Some (block_hash b)) ∨
  (history (slot b) past).2 = Some (block_height b, block_hash b) ∧ ∃ st, m = USlot (slot b) st ∧ from_i32 st = status_of (commitment b).
Proof.
  destruct m as [k st|k sig|k bh [h|]| |]; cbn [reference_step]; try by intros ?%elem_of_nil.
  - intros [?|H]%elem_of_cons; [done|]. destruct (history k past).2 as [[h x]|] eqn:Eh; [|by apply elem_of_nil in H].
    destruct (slot_status_to_commitment (from_i32 st)) as [c|] eqn:Ec; [|by apply elem_of_nil in H].
    apply list_elem_of_singleton in H as [= ->]. right. cbn. split; [done|]. exists st. split; [done|]. by apply commitment_of_status.
  - destruct (signature_try_from sig); [|by intros ?%elem_of_nil]. by intros ?%list_elem_of_singleton.
  - destruct (parse_hash bh) as [x|] eqn:Ep; [|by intros ?%elem_of_nil]. unfold seen_metas.
    intros (c & [= ->] & (st & [Hst _]%list_elem_of_filter & Hc)%list_elem_of_omap)%list_elem_of_fmap.
    left. cbn. apply commitment_of_status in Hc as ->. apply bool_decide_eq_true in Hst. eauto.
Qed.

Lemma reference_split past pre m post :
  reference past (pre ++ m :: post) = reference past pre ++ reference_step (past ++ pre) m ++ reference (past ++ pre ++ [m]) post.
Proof.
  revert past. induction pre as [|m' pre IH]; intros past; cbn [app reference]; [by rewrite !app_nil_r|].
  by rewrite IH, <-!app_assoc.
Qed.

(** Block metadata is only emitted with a commitment whose slot status arrived, and with
    the height and hash of a received block. *)
Theorem emitted_metadata_is_justified inc msgs s s' b
    (Hrun : process_grpc_stream inc (NextMsg <$> msgs) s = (None, s')) (Hfresh : block_meta_tx s = [])
    (Hb : b ∈ block_meta_tx s') :
  (∃ st, USlot (slot b) st ∈ msgs ∧ slot_status_to_commitment (from_i32 st) = Some (commitment b)) ∧
  ∃ bh, UBlockMeta (slot b) bh (Some (block_height b)) ∈ msgs ∧ parse_hash bh = Some (block_hash b).
Proof.
  apply process_refines with (past := []) in Hrun as [_ [_ H _]]; [|upd_simpl; exact represents_empty].
  upd_simpl_in H. rewrite Hfresh in H. rewrite H in Hb. cbn in Hb. clear -Hb.
  apply list_elem_of_omap in Hb as (g & Hb & Hg). destruct g; try done. injection Hg as ->.
  setoid_rewrite commitment_of_status.
  induction msgs as [|m msgs IH] using rev_ind; [by apply elem_of_nil in Hb|].
  rewrite reference_split in Hb. cbn [reference app] in Hb. rewrite app_nil_r in Hb. apply elem_of_app in Hb as [Hb|Hb].
  - destruct (IH Hb) as [(st & ? & ?) (bh & ? & ?)]. split; [exists st|exists bh]; set_solver.
  - apply reference_step_meta in Hb as [(H & bh & -> & ?)|(H & st & -> & ?)].
    + apply history_seen in H as (st & ? & ?). split; [exists st|exists bh]; set_solver.
    + apply history_meta in H as (bh & ? & ?). split; [exists st|exists bh]; set_solver.
Qed.

(** ** Reconnecting *)

(** A failed subscription is retried at once, for ever: [reset] leaves nothing to
    sleep, and only a failed connection calls [init]. *)
Theorem failed_subscriptions_are_not_delayed n :
  grpc_open default_backoff (replicate n SubscribeFailed) = (replicate n None, None).
Proof.
  cut (∀ b, retries b = None → grpc_open b (replicate n SubscribeFailed) = (replicate n None, None)); [by intros H; apply H|].
  induction n as [|n IH]; intros b Hb; [done|]. cbn [replicate grpc_open]. unfold maybe_tick. rewrite Hb.
  by rewrite IH.
Qed.
End Geyser.

(** ** Concrete runs *)
Definition demo_hash (s : string) : option N := if String.eqb s "h" then Some 7%N else None.
Definition demo_signature (b : list byte) : option Signature := match b with [_] => Some 9%N | _ => None end.
Definition demo_sub : Sub := mk_sub ∅ [] [] [] None.
(** Confirmed before the metadata of slot 5, processed after it. *)
Definition demo_msgs : list Update :=
  [USlot 5 1; UTransactionStatus 5 [x01]; UBlockMeta 5 "h" (Some 40%N); USlot 5 0; UPing].
Definition demo_run (items : list StreamItem) : option (Outcome unit) * Sub :=
  process_grpc_stream demo_hash demo_signature true items demo_sub.

Lemma demo_runs : demo_run (NextMsg <$> demo_msgs) = (None, (demo_run (NextMsg <$> demo_msgs)).2).
Proof. vm_compute. reflexivity. Qed.

Lemma stream_emits_by_history_witness :
  block_meta_tx (demo_run (NextMsg <$> demo_msgs)).2 = [mk_meta 5 40 7 Confirmed; mk_meta 5 40 7 Processed] ∧
  sent true (reference demo_hash demo_signature [] demo_msgs) demo_sub (demo_run (NextMsg <$> demo_msgs)).2.
Proof.
  split; [vm_compute; reflexivity|].
  exact (proj1 (stream_emits_by_history demo_hash demo_signature true demo_msgs demo_sub _ demo_runs)).
Defined.

Lemma stream_stops_at_the_first_bad_item_witness :
  (demo_run [NextMsg UPing; NextMsg (UBlockMeta 5 "no" (Some 40%N)); NextEnd]).1 = Some (Err InvalidBlockhash).
Proof.
  exact (proj1 (stream_stops_at_the_first_bad_item demo_hash demo_signature true
    [NextMsg UPing; NextMsg (UBlockMeta 5 "no" (Some 40%N)); NextEnd] demo_sub eq_refl)).
Defined.

Lemma metadata_is_emitted_once_per_commitment_witness : ∃ new,
  block_meta_tx (demo_run (NextMsg <$> demo_msgs)).2 = [] ++ new ∧
  filter (λ m, slot m = 5%N) new ≡ₚ [mk_meta 5 40 7 Confirmed; mk_meta 5 40 7 Processed].
Proof.
  apply (metadata_is_emitted_once_per_commitment demo_hash demo_signature true demo_msgs demo_sub _ 5 40 7 demo_runs).
  - reflexivity.
  - apply (bool_decide_unpack _). vm_compute. exact I.
  - repeat constructor; intros E; discriminate E.
Defined.

Lemma emitted_metadata_is_justified_witness :
  ∃ bh, UBlockMeta 5 bh (Some 40%N) ∈ demo_msgs ∧ demo_hash bh = Some 7%N.
Proof.
  apply (emitted_metadata_is_justified demo_hash demo_signature true demo_msgs demo_sub _ (mk_meta 5 40 7 Confirmed) demo_runs eq_refl).
  vm_compute. left.
Defined.

(** Statuses seen before a reconnection are forgotten: the metadata that comes
    after it is not emitted for them. *)
Theorem reconnection_forgets_statuses :
  let subscribe attempts := grpc_subscribe demo_hash demo_signature true attempts demo_sub in
  block_meta_tx (subscribe [AStream (NextMsg <$> [USlot 5 1; UBlockMeta 5 "h" (Some 40%N)])]).2 = [mk_meta 5 40 7 Confirmed] ∧
  block_meta_tx (subscribe [AStream [NextMsg (USlot 5 1); NextEnd]; AStream [NextMsg (UBlockMeta 5 "h" (Some 40%N))]]).2 = [].
Proof. by vm_compute. Qed.
End Geyser.
