(* ===== verification/Pipeline.v ===== *)
(** The path from the gRPC stream to the watchers of a signature: the messages that
    the subscriber ([Geyser]) puts on its transactions channel drive the receiver
    ([Rooted]). *)
From S2P Require Import Prelude Types Commitment Rooted Geyser.
From Stdlib Require Import Strings.Byte.
Import Commitment Rooted Geyser.

Module Pipeline.
Section Pipeline.
Context `{HI : HashIter} (MAX_RECENT_BLOCKHASHES : N).
Context (parse_hash : string → option N) (signature_try_from : list byte → option Signature).

(** The receiver after everything in the channel. *)
Definition deliver (r : GrpcRootedTxReceiver) (s : Sub) : GrpcRootedTxReceiver :=
  Rooted.run MAX_RECENT_BLOCKHASHES r (Message <$> transactions_tx s).

(** [m] makes both the metadata of [n] and its commitment [c] known. *)
Definition completes (past : list Update) (m : Update) (n : N) (c : CommitmentLevel) : Prop :=
  match m with
  | USlot k st => k = n ∧ slot_status_to_commitment (from_i32 st) = Some c ∧
      ∃ bh h, UBlockMeta n bh (Some h) ∈ past ∧ is_Some (parse_hash bh)
  | UBlockMeta k bh (Some _) => k = n ∧ is_Some (parse_hash bh) ∧
      ∃ st, USlot n st ∈ past ∧ slot_status_to_commitment (from_i32 st) = Some c
  | _ => False
  end.

Abbreviation reference := (reference parse_hash signature_try_from).
Abbreviation reference_step := (reference_step parse_hash signature_try_from).
Abbreviation history := (history parse_hash).

Definition channel (l : list GrpcUpdateMessage) : list GrpcUpdateMessage := filter (λ m, for_transactions m = true) l.

Lemma reference_in past msgs m g : m ∈ msgs → (∀ past, g ∈ reference_step past m) → g ∈ reference past msgs.
Proof.
  intros Hin Hg. revert past. induction msgs as [|m' msgs IH]; intros past; [by apply elem_of_nil in Hin|].
  cbn [Geyser.reference]. apply elem_of_app. apply elem_of_cons in Hin as [<-|Hin]; [by left|right; by apply IH].
Qed.

(** Without a finalization, no finalized metadata. *)
Lemma reference_quiet sig msgs : Forall not_finalized msgs →
  Forall (quiet sig) (Message <$> channel (reference [] msgs)).
Proof.
  intros Hf. apply Forall_forall. intros e (g & -> & [_ Hg]%list_elem_of_filter)%list_elem_of_fmap.
  destruct g as [b|u|t]; cbn; try done. intros Hb.
  induction msgs as [|m msgs IH] using rev_ind; [by apply elem_of_nil in Hg|].
  apply Forall_app in Hf as [Hf Hm]. rewrite Forall_singleton in Hm.
  rewrite reference_split in Hg. cbn [Geyser.reference app] in Hg. rewrite app_nil_r in Hg.
  apply elem_of_app in Hg as [Hg|Hg]; [by apply IH|].
  apply reference_step_meta in Hg as [(H & _)|(_ & st & -> & Hst)].
  - rewrite Hb in H. apply history_seen in H as (st & Hin & Hst).
    rewrite Forall_forall in Hf. by apply (Hf _ Hin).
  - rewrite Hb in Hst. by apply Hm.
Qed.

(** The completing message announces [c], after quiet messages only. *)
Lemma completes_emits sig pre m n c : Forall not_finalized pre → completes pre m n c →
  ∃ l1 b l2, channel (reference_step pre m) = l1 ++ BlockMeta b :: l2 ∧ slot b = n ∧ commitment b = c ∧
    Forall (quiet sig) (Message <$> l1).
Proof.
  intros Hf Hc. destruct (history_keeps parse_hash n pre Hf) as [H1 H2].
  destruct m as [k st|k sg|k bh [h|]| |]; cbn [completes] in Hc; try done.
  - destruct Hc as (-> & Hst & bh & h & Hin & Hp). destruct (H2 bh h Hin Hp) as [[h' x] Eh].
    exists [], (mk_meta n h' x c), []. cbn [Geyser.reference_step]. rewrite Eh, Hst. by repeat constructor.
  - destruct Hc as (-> & [x Hp] & st & Hin & Hst). apply H1 in Hin.
    assert (BlockMeta (mk_meta n h x c) ∈ channel (reference_step pre (UBlockMeta n bh (Some h)))) as Hg.
    { apply list_elem_of_filter. split; [done|]. cbn [Geyser.reference_step]. rewrite Hp. unfold seen_metas.
      apply list_elem_of_fmap. exists c. split; [done|]. apply list_elem_of_omap. exists (from_i32 st). split; [|done].
      apply list_elem_of_filter. split; [by apply bool_decide_eq_true|].
      apply commitment_of_status in Hst as ->. destruct c; set_solver. }
    apply list_elem_of_split in Hg as (l1 & l2 & E). exists l1, (mk_meta n h x c), l2. split_and!; [done..|].
    apply Forall_forall. intros e (g & -> & Hg)%list_elem_of_fmap. destruct g as [b|u|t]; cbn; try done. intros Hb.
    assert (BlockMeta b ∈ reference_step pre (UBlockMeta n bh (Some h))) as Hin'.
    { assert (BlockMeta b ∈ channel (reference_step pre (UBlockMeta n bh (Some h)))) as [_ ?]%list_elem_of_filter; [|done].
      rewrite E. set_solver. }
    apply reference_step_meta in Hin' as [(H & _)|(_ & st' & [=] & _)].
    rewrite Hb in H. apply history_seen in H as (st' & Hin' & Hst'). rewrite Forall_forall in Hf. by apply (Hf _ Hin').
Qed.

Lemma run_app r steps steps' : Rooted.run MAX_RECENT_BLOCKHASHES r (steps ++ steps') =
  Rooted.run MAX_RECENT_BLOCKHASHES (Rooted.run MAX_RECENT_BLOCKHASHES r steps) steps'.
Proof. apply foldl_app. Qed.
Lemma run_cons r e steps : Rooted.run MAX_RECENT_BLOCKHASHES r (e :: steps) =
  Rooted.run MAX_RECENT_BLOCKHASHES (step MAX_RECENT_BLOCKHASHES r e) steps.
Proof. done. Qed.

(** C28: From the gRPC stream to the watchers: over a stream served without error into an
    empty channel, a transaction that is watched throughout is announced with a commitment
    when its own status came before the message that completes its slot, which is the later
    of the block metadata of the slot, with its height, and the slot status of that
    commitment, in either order, if no slot was finalized before. (One whose status comes
    after that message is not announced by it: late_status_waits.) *)
Theorem watched_transaction_is_announced pre m post s s' r n sg sig c
    (Hrun : process_grpc_stream parse_hash signature_try_from true (NextMsg <$> pre ++ m :: post) s = (None, s'))
    (Hfresh : transactions_tx s = []) (Hwatched : sig ∈ watched_signatures (state_machine r))
    (Htx : UTransactionStatus n sg ∈ pre) (Hsig : signature_try_from sg = Some sig)
    (Hfinal : Forall not_finalized pre) (Hc : completes pre m n c) :
  (sig, c) ∈ Rooted.sent (deliver r s').
Proof.
  apply process_refines with (past := []) in Hrun as [_ [_ _ H]]; [|upd_simpl; exact (represents_empty parse_hash)].
  upd_simpl_in H. rewrite Hfresh in H. cbn [app] in H.
  unfold deliver. rewrite H, reference_split. cbn [app]. rewrite !filter_app.
  fold (channel (reference [] pre)) (channel (reference_step pre m)) (channel (reference (pre ++ [m]) post)).
  destruct (completes_emits sig pre m n c Hfinal Hc) as (l1 & b & l2 & -> & Hs & <- & Hq).
  assert (Transaction (mk_received n sig) ∈ channel (reference [] pre)) as Ht.
  { apply list_elem_of_filter. split; [done|]. eapply reference_in; [exact Htx|]. intros past. cbn. rewrite Hsig. by left. }
  pose proof (reference_quiet sig pre Hfinal) as Hq0. apply list_elem_of_split in Ht as (k1 & k2 & E). rewrite E in Hq0 |- *.
  rewrite fmap_app, fmap_cons in Hq0. apply Forall_app in Hq0 as [_ Hq2]. apply Forall_cons in Hq2 as [_ Hq2].
  set (t := mk_received n sig) in *.
  rewrite <-!app_assoc. cbn [app]. repeat (rewrite fmap_app || rewrite fmap_cons).
  set (r1 := Rooted.run MAX_RECENT_BLOCKHASHES r (Message <$> k1)).
  set (r2 := step MAX_RECENT_BLOCKHASHES r1 (Message (Transaction t))).
  set (r3 := Rooted.run MAX_RECENT_BLOCKHASHES (Rooted.run MAX_RECENT_BLOCKHASHES r2 (Message <$> k2)) (Message <$> l1)).
  assert (pending t r3) as Hp.
  { do 2 (apply pending_run; [done|]). apply pending_receive. unfold r1. by rewrite watched_messages. }
  destruct (announced_by_meta MAX_RECENT_BLOCKHASHES t b r3 Hp Hs) as (new & E1 & E2).
  rewrite run_app. fold r1. rewrite run_cons. fold r2. rewrite !run_app. fold r3. rewrite run_cons.
  match goal with |- context [Rooted.run _ (step _ r3 _) ?l] =>
    destruct (sent_mono MAX_RECENT_BLOCKHASHES l (step MAX_RECENT_BLOCKHASHES r3 (Message (BlockMeta b)))) as [rest ->] end.
  rewrite E1. set_solver.
Qed.
End Pipeline.

#[local] Existing Instance elements_iter.
(** A watched transaction, its slot confirmed, then the metadata. *)
Lemma watched_transaction_is_announced_witness :
  let s' := (process_grpc_stream demo_hash demo_signature true (NextMsg <$> demo_msgs) demo_sub).2 in
  (9%N, Confirmed) ∈ Rooted.sent (deliver 300 (Rooted.run 300 Rooted.start [Subscribe 9]) s').
Proof.
  cbn zeta.
  apply (watched_transaction_is_announced 300 demo_hash demo_signature [USlot 5 1; UTransactionStatus 5 [x01]]
    (UBlockMeta 5 "h" (Some 40%N)) [USlot 5 0; UPing] demo_sub _ _ 5 [x01] 9 Confirmed).
  - exact demo_runs.
  - reflexivity.
  - apply (bool_decide_unpack _). vm_compute. exact I.
  - right. left.
  - reflexivity.
  - repeat constructor. discriminate.
  - split; [reflexivity|]. split; [by eexists|]. exists 1%Z. split; [left|reflexivity].
Defined.

(** The order matters: a status that comes after the message that completes its slot
    announces nothing by itself. It waits for the metadata of any block that comes next. *)
Theorem late_status_waits :
  let announced msgs :=
    Rooted.sent (deliver 300 (Rooted.run 300 Rooted.start [Subscribe 9])
      (process_grpc_stream demo_hash demo_signature true (NextMsg <$> msgs) demo_sub).2) in
  let late := [USlot 5 1; UBlockMeta 5 "h" (Some 40%N); UTransactionStatus 5 [x01]] in
  announced late = [] ∧ announced (late ++ [USlot 6 0; UBlockMeta 6 "h" (Some 41%N)]) = [(9%N, Confirmed)].
Proof. vm_compute. split; reflexivity. Qed.
End Pipeline.
