(* ===== verification/Health.v ===== *)
(** The health of the proxy: the gauges that [get_health_status] of [metrics.rs]
    reads, who sets them ([grpc_geyser.rs], [cluster_tpu_info.rs],
    [transactions.rs]), and the HTTP answers of the admin server that are built on
    them ([rpc.rs]); all of [apps/jet/src]. *)
From S2P Require Import Prelude Types Commitment Rooted Geyser.
From Stdlib Require Import Strings.Byte.
Import Commitment Rooted Geyser.

Module Health.

(** ** The gauges *)

(** [GRPC_SLOT_RECEIVED] by label, [CLUSTER_NODES_TOTAL],
    [CLUSTER_LEADERS_SCHEDULE_SIZE] and [ROOTED_TRANSACTIONS_POOL_SIZE]. *)
Record Gauges := mk_gauges { grpc_slot : gmap string Z; cluster_nodes : Z; leaders_schedule : Z; landing_pool : Z }.
#[export] Instance Gauges_settable : Settable Gauges := λ g,
  mk_gauges (grpc_slot g) (cluster_nodes g) (leaders_schedule g) (landing_pool g).
(** A gauge starts at zero, and so does one of a label never set. *)
Definition init : Gauges := mk_gauges ∅ 0 0 0.

(** [as i64] of a [u64] or a [usize]. *)
Definition as_i64 (n : N) : Z := if (n <? 2 ^ 63)%N then Z.of_N n else (Z.of_N n - 2 ^ 64)%Z.

Definition grpc_slot_set (s : SlotStatus) (slot : N) (g : Gauges) : Gauges :=
  g <| grpc_slot ::= <[status_as_str s := as_i64 slot]> |>.
Definition cluster_nodes_set_size (n : nat) (g : Gauges) : Gauges := g <| cluster_nodes := as_i64 (N.of_nat n) |>.
Definition cluster_leaders_schedule_set_size (n : nat) (g : Gauges) : Gauges :=
  g <| leaders_schedule := as_i64 (N.of_nat n) |>.
Definition rooted_transactions_pool_set_size (n : nat) (g : Gauges) : Gauges := g <| landing_pool := as_i64 (N.of_nat n) |>.

Definition reset_slot_metrics (g : Gauges) : Gauges :=
  foldl (λ g s, grpc_slot_set s 0%N g) g
    [SlotProcessed; SlotConfirmed; SlotFinalized; SlotFirstShredReceived; SlotCompleted; SlotCreatedBank; SlotDead].

(** The first thing missing. *)
Definition get_health_status (g : Gauges) : option string :=
  if negb (0 <? default 0 (grpc_slot g !! as_str Processed))%Z then Some "gRPC is not initialized"
  else if negb (0 <? cluster_nodes g)%Z then Some "no information about cluster nodes"
  else if negb (0 <? leaders_schedule g)%Z then Some "no information about leaders"
  else if negb (0 <? landing_pool g)%Z then Some "no transactions in the landing pool"
  else None.

(** ** The HTTP answers *)
Inductive StatusCode := OK | SERVICE_UNAVAILABLE.
Record Response := mk_response { status : StatusCode; body : string }.

(** [UriRequestMiddleware]: one URI is answered here, the others by the inner
    service. [None]: the handler panics. *)
Definition uri_request (uri : string) (get_response : option Response) (service : string → option Response)
    (request : string) : option Response :=
  if String.eqb uri request then get_response else service request.

Section Admin.
(** [blocking_lock] of the mutex of the identity updater, which panics on a thread
    that runs asynchronous tasks; the text of all metrics; the RPC module. *)
Context (blocking_lock : Pubkey → option Pubkey) (collect_to_text : Gauges → string) (rpc : string → option Response).
Context (allowed_identity : option Pubkey).

Definition health_response (current_identity : Pubkey) (g : Gauges) : option Response :=
  let by_gauges := match get_health_status g with
                   | None => mk_response OK "ok"
                   | Some error => mk_response SERVICE_UNAVAILABLE error
                   end in
  match allowed_identity with
  | Some expected =>
      current ← blocking_lock current_identity;
      Some (if decide (expected ≠ current) then mk_response SERVICE_UNAVAILABLE "identity mismatch" else by_gauges)
  | None => Some by_gauges
  end.

(** The layers of the admin server. *)
Definition admin_http (current_identity : Pubkey) (g : Gauges) : string → option Response :=
  uri_request "/health" (health_response current_identity g)
    (uri_request "/metrics" (Some (mk_response OK (collect_to_text g))) rpc).
End Admin.

(** ** Who sets the gauges *)
Section Proxy.
Context `{HI : HashIter} (MAX_RECENT_BLOCKHASHES : N).
Context (parse_hash : string → option N) (signature_try_from : list byte → option Signature).
Context (include_transactions : bool).

(** The subscriber, the receiver at the other end of its transactions channel with
    the messages it took, and the gauges. *)
Record Proxy := mk_proxy { sub : Sub; receiver : GrpcRootedTxReceiver; taken : nat; gauges : Gauges }.
#[local] Instance Proxy_settable : Settable Proxy := λ p, mk_proxy (sub p) (receiver p) (taken p) (gauges p).
Definition start (room : option nat) : Proxy := mk_proxy (mk_sub ∅ [] [] [] room) Rooted.start 0 init.

(** [NodesReply] and [ScheduleReply]: what the two tasks of the cluster information
    got, [None] for a failure; a schedule comes with the size of the whole. *)
Inductive Event :=
  | Connecting | StreamOpened | StreamMessage (m : Update) | ReceiverTurn
  | Watch (s : Signature) | Unwatch (s : Signature)
  | NodesReply (nodes : option nat) | ScheduleReply (size : option nat).

(** [handle_slot_update] sets its gauge unless it failed before. *)
Definition slot_gauge (m : Update) (g : Gauges) : Gauges :=
  match m with USlot slot st => grpc_slot_set (from_i32 st) slot g | _ => g end.
Definition on_stream_message (m : Update) (p : Proxy) : Proxy :=
  match handle_grpc_message parse_hash signature_try_from include_transactions m (sub p) with
  | (Ok _, s) => p <| sub := s |> <| gauges ::= slot_gauge m |>
  | (_, s) => p <| sub := s |>
  end.

(** One turn of [start_loop]: the pool is counted after block metadata. *)
Definition receiver_turn (p : Proxy) : Proxy :=
  match transactions_tx (sub p) !! taken p with
  | None => p
  | Some m =>
      let r := on_message MAX_RECENT_BLOCKHASHES m (receiver p) in
      let p := p <| receiver := r |> <| taken ::= S |> in
      match m with
      | BlockMeta _ => p <| gauges ::= rooted_transactions_pool_set_size (size (transactions (state_machine r))) |>
      | _ => p
      end
  end.

Definition step (p : Proxy) (e : Event) : Proxy :=
  match e with
  | Connecting => p <| gauges ::= reset_slot_metrics |>
  | StreamOpened => p <| sub ::= λ s, s <| slot_tracking := ∅ |> |>
  | StreamMessage m => on_stream_message m p
  | ReceiverTurn => receiver_turn p
  | Watch s => p <| receiver ::= λ r, Rooted.step MAX_RECENT_BLOCKHASHES r (Subscribe s) |>
  | Unwatch s => p <| receiver ::= λ r, Rooted.step MAX_RECENT_BLOCKHASHES r (Unsubscribe s) |>
  | NodesReply nodes => p <| gauges ::= cluster_nodes_set_size (default 0 nodes) |>
  | ScheduleReply size => p <| gauges ::= cluster_leaders_schedule_set_size (default 0 size) |>
  end.
Definition run (room : option nat) (l : list Event) : Proxy := foldl step (start room) l.
End Proxy.

(** ** Relaying only *)
Section Relay.
Context `{HI : HashIter} (MAX_RECENT_BLOCKHASHES : N).
Context (parse_hash : string → option N) (signature_try_from : list byte → option Signature).

Definition silent {A} (m : M A) : Prop := ∀ s, transactions_tx (m s).2 = transactions_tx s.

Lemma silent_bind {A B} (m : M A) (k : A → M B) : silent m → (∀ a, silent (k a)) → silent (m ≫= k).
Proof.
  intros Hm Hk s. specialize (Hm s). unfold mbind, M_bind. destruct (m s) as [[a|e|] s1]; cbn in *; [|done..].
  by rewrite (Hk a s1).
Qed.
Lemma silent_ret {A} (a : A) : silent (mret a : M A).
Proof. done. Qed.
Lemma silent_modify f : (∀ s, transactions_tx (f s) = transactions_tx s) → silent (modify_sub f).
Proof. intros Hf s. apply Hf. Qed.
Lemma silent_entry n f : silent (update_entry n f).
Proof. intros s. unfold update_entry. cbn. by upd_simpl. Qed.
Lemma silent_emit m : silent (emit false m).
Proof. apply silent_bind; [by apply silent_modify|intros _; apply silent_ret]. Qed.
Lemma silent_emit_if (b : bool) st n h x :
  silent (if b then match slot_status_to_commitment st with Some c => emit false (mk_meta n h x c) | None => mret tt end else mret tt).
Proof. destruct b; [|done]. destruct (slot_status_to_commitment st); [apply silent_emit|done]. Qed.
Lemma silent_emit_seen n i l : silent (emit_seen false n i l).
Proof. induction l as [|st l IH]; [done|]. cbn [emit_seen]. apply silent_bind; [apply silent_emit_if|done]. Qed.

(** Without transactions nothing goes into their channel, whatever the server sends. *)
Lemma silent_message m : silent (handle_grpc_message parse_hash signature_try_from false m).
Proof.
  destruct m as [n st|n sg|n bh [h|]| |]; cbn [handle_grpc_message]; try done.
  - unfold handle_slot_update. apply silent_bind; [apply silent_entry|intros i].
    apply silent_bind; [by apply silent_modify|intros _]. apply silent_bind; [apply silent_emit_if|intros _].
    case_decide; [by apply silent_modify|done].
  - cbn [handle_block_meta]. destruct (parse_hash bh); [|done].
    apply silent_bind; [apply silent_entry|intros i; apply silent_emit_seen].
Qed.

Abbreviation relay_run := (run MAX_RECENT_BLOCKHASHES parse_hash signature_try_from false).

Lemma landing_pool_slot m g : landing_pool (slot_gauge m g) = landing_pool g.
Proof. by destruct m. Qed.

Lemma relay_pool room l : transactions_tx (sub (relay_run room l)) = [] ∧ landing_pool (gauges (relay_run room l)) = 0%Z.
Proof.
  unfold run. induction l as [|e l [Ht Hp]] using rev_ind; [done|]. rewrite foldl_app. cbn [foldl].
  revert Ht Hp. generalize (foldl (step MAX_RECENT_BLOCKHASHES parse_hash signature_try_from false) (start room) l).
  intros p Ht Hp. destruct e as [| |m| |s|s|n|n]; cbn [step]; try (by upd_simpl).
  - unfold on_stream_message. pose proof (silent_message m (sub p)) as Hs.
    destruct (handle_grpc_message _ _ _ _ _) as [[a|e|] s]; cbn in Hs; upd_simpl; rewrite ?landing_pool_slot, Hs; done.
  - unfold receiver_turn. by rewrite Ht.
Qed.

(** C40: A defect: a proxy that only relays is never healthy. Whatever the gRPC server
    sends, the cluster answers and the callers do, its landing pool is never counted and
    /health answers 503, or panics when an identity is expected. *)
Theorem relay_proxy_is_never_healthy blocking_lock collect_to_text rpc allowed_identity current_identity room l :
  match admin_http blocking_lock collect_to_text rpc allowed_identity current_identity (gauges (relay_run room l)) "/health" with
  | Some r => status r = SERVICE_UNAVAILABLE
  | None => allowed_identity ≠ None ∧ blocking_lock current_identity = None
  end.
Proof.
  unfold admin_http, uri_request. rewrite String.eqb_refl. unfold health_response.
  assert (∃ error, get_health_status (gauges (relay_run room l)) = Some error) as [error ->].
  { destruct (relay_pool room l) as [_ Hp]. unfold get_health_status. rewrite Hp. cbn [Z.ltb Z.compare negb].
    repeat case_match; eauto. }
  destruct allowed_identity as [expected|]; [|done].
  destruct (blocking_lock current_identity) as [current|]; cbn [mbind option_bind]; [|done]. by case_decide.
Qed.
End Relay.

(** ** Health as the inputs have it *)
Section Inputs.
Context `{HI : HashIter} (MAX_RECENT_BLOCKHASHES : N).
Context (parse_hash : string → option N) (signature_try_from : list byte → option Signature) (include_transactions : bool).

(** The last processed slot since the last connection, and the last replies. *)
Definition last_processed (l : list Event) : N :=
  foldl (λ slot e, match e with
    | Connecting => 0%N
    | StreamMessage (USlot n st) => if decide (from_i32 st = SlotProcessed) then n else slot
    | _ => slot
    end) 0%N l.
Definition last_nodes (l : list Event) : nat := foldl (λ n e, match e with NodesReply r => default 0 r | _ => n end) 0 l.
Definition last_schedule (l : list Event) : nat := foldl (λ n e, match e with ScheduleReply r => default 0 r | _ => n end) 0 l.

Abbreviation proxy_run := (run MAX_RECENT_BLOCKHASHES parse_hash signature_try_from include_transactions None).

Record reads (l : list Event) (p : Proxy) : Prop := {
  reads_open : open (sub p);
  reads_slot : default 0%Z (grpc_slot (gauges p) !! as_str Processed) = as_i64 (last_processed l);
  reads_nodes : cluster_nodes (gauges p) = as_i64 (N.of_nat (last_nodes l));
  reads_schedule : leaders_schedule (gauges p) = as_i64 (N.of_nat (last_schedule l))
}.
Lemma slot_after_status st n g :
  default 0%Z (grpc_slot (grpc_slot_set st n g) !! as_str Processed) =
  if decide (st = SlotProcessed) then as_i64 n else default 0%Z (grpc_slot g !! as_str Processed).
Proof.
  unfold grpc_slot_set. upd_simpl. case_decide as Hst.
  - subst st. by rewrite lookup_insert_eq.
  - rewrite lookup_insert_ne; [done|]. by destruct st.
Qed.

Lemma slot_after_reset g : default 0%Z (grpc_slot (reset_slot_metrics g) !! as_str Processed) = 0%Z.
Proof. unfold reset_slot_metrics. cbn [foldl]. by rewrite !slot_after_status. Qed.

(** An event that sets no gauge the history reads, and one that sets one. *)
Ltac solve_reads := split; unfold last_processed, last_nodes, last_schedule; rewrite ?foldl_app; cbn [foldl]; upd_simpl; try done.

Lemma reads_stream l p m : reads l p →
  reads (l ++ [StreamMessage m]) (on_stream_message parse_hash signature_try_from include_transactions m p).
Proof.
  intros [Ho H1 H2 H3]. unfold on_stream_message.
  destruct (handle_verdict parse_hash signature_try_from include_transactions m (sub p) Ho) as [Hv Ho'].
  destruct (handle_grpc_message _ _ _ _ _) as [r s]. cbn [fst snd] in Hv, Ho'. subst r.
  destruct m as [n st|n sg|n bh h| |]; [|destruct (verdict _ _ _ _); solve_reads..].
  cbn [verdict]. solve_reads; cbn [slot_gauge]; [|by unfold grpc_slot_set; upd_simpl..].
  rewrite slot_after_status. case_decide; [done|exact H1].
Qed.

Lemma reads_run l : reads l (proxy_run l).
Proof.
  unfold run. induction l as [|e l IH] using rev_ind; [by split|]. rewrite foldl_app. cbn [foldl].
  revert IH. generalize (foldl (step MAX_RECENT_BLOCKHASHES parse_hash signature_try_from include_transactions) (start None) l).
  intros p Hp. destruct e as [| |m| |s|s|n|n]; cbn [step]; try (by apply reads_stream);
    destruct Hp as [Ho H1 H2 H3]; try (by solve_reads).
  - solve_reads. apply slot_after_reset.
  - unfold receiver_turn. destruct (transactions_tx (sub p) !! taken p) as [[u|b|t]|]; solve_reads.
Qed.

(** The health is good exactly when a processed slot came since the last connection, the
    last requests for nodes and schedule succeeded with some, and the landing pool was not
    empty when it was last counted. *)
Theorem health_is_that_of_the_inputs l :
  get_health_status (gauges (proxy_run l)) = None ↔
  (0 < as_i64 (last_processed l))%Z ∧ (0 < as_i64 (N.of_nat (last_nodes l)))%Z ∧
  (0 < as_i64 (N.of_nat (last_schedule l)))%Z ∧ (0 < landing_pool (gauges (proxy_run l)))%Z.
Proof.
  destruct (reads_run l) as [_ H1 H2 H3]. rewrite <-H1, <-H2, <-H3. clear H1 H2 H3. unfold get_health_status.
  split.
  - intros H. repeat (case_match; [done|]). rewrite !negb_false_iff, !Z.ltb_lt in *. done.
  - intros (H1%Z.ltb_lt & H2%Z.ltb_lt & H3%Z.ltb_lt & H4%Z.ltb_lt). by rewrite H1, H2, H3, H4.
Qed.
End Inputs.

(** A proxy that subscribes to transactions gets there. *)
Definition demo_inputs : list Event :=
  [Connecting; StreamOpened; NodesReply (Some 2); ScheduleReply (Some 8); StreamMessage (USlot 5 0);
   StreamMessage (UTransactionStatus 5 [x00]); StreamMessage (UBlockMeta 5 "h" (Some 3%N)); ReceiverTurn; ReceiverTurn].
Example demo_is_healthy `{HI : HashIter} :
  get_health_status (gauges (run 150 demo_hash demo_signature true None demo_inputs)) = None.
Proof. apply health_is_that_of_the_inputs. vm_compute. done. Qed.
End Health.
