(* ===== verification/RpcRetry.v ===== *)
(** RPC errors and the retrying RPC sender ([solana_rpc_utils.rs] of
    [crates/tpu-client/src/rpc], of which [apps/jet/src] has a copy). *)
From S2P Require Import Prelude Types.

(** [hyper::StatusCode]. *)
Class HttpStatus := {
  StatusCode : Type;
  is_server_error : StatusCode → bool;
  is_too_many_requests : StatusCode → bool
}.
(** The endless iterators of the [retry] crate, by index. *)
Class RetryDelays := {
  Factor : Type;
  fixed_from_millis : N → nat → Duration;
  exponential_from_millis_with_factor : N → Factor → nat → Duration
}.
(** [RpcSender::send]: [W] is what the answers depend on; a reply leaves it changed. *)
Class RpcSender (Request Reply Error W : Type) := rpc_send : Request → W → (Reply + Error) * W.

(** [Pubkey::from_str]. *)
Class PubkeyFromStr := pubkey_from_str : string → option Pubkey.

(** [collect::<HashMap<_, _>>()]: the last value of a key stays. *)
Definition collect {A} (l : list (Pubkey * A)) : gmap Pubkey A := foldl (λ m p, <[p.1 := p.2]> m) ∅ l.

Lemma lookup_collect_snoc {A} (l : list (Pubkey * A)) k x j :
  collect (l ++ [(k, x)]) !! j = if decide (j = k) then Some x else collect l !! j.
Proof.
  unfold collect. rewrite foldl_app. cbn. case_decide as E; [by subst; rewrite lookup_insert_eq|by rewrite lookup_insert_ne].
Qed.

Lemma lookup_collect {A} (l : list (Pubkey * A)) j :
  collect l !! j = last (omap (λ p, if decide (p.1 = j) then Some p.2 else None) l).
Proof.
  induction l as [|[k x] l IH] using rev_ind; [apply lookup_empty|].
  rewrite lookup_collect_snoc, omap_app. cbn. destruct (decide (j = k)) as [->|].
  - by rewrite decide_True, last_snoc.
  - rewrite decide_False, app_nil_r by congruence. exact IH.
Qed.

(** [RpcContactInfo]: the fields that are read, and the others as one value. *)
Record RpcContactInfo := mk_contact {
  pubkey : string; contact_tpu_quic : option SocketAddr; contact_tpu_forwards_quic : option SocketAddr; contact_rest : N
}.
#[export] Instance RpcContactInfo_eq_dec : EqDecision RpcContactInfo.
Proof. solve_decision. Defined.

Module RpcRetry.
Section RpcRetry.
Context `{HS : HttpStatus} `{RD : RetryDelays}.

(** [solana_rpc_client_api::client_error::ErrorKind], without the payloads
    that the program does not read. *)
Inductive ErrorKind :=
  | Io
  | Reqwest (status : option StatusCode)
  | Middleware
  | RpcError (for_user : bool)
  | SerdeJson
  | SigningError
  | TransactionError
  | Custom.

Definition is_transient (e : ErrorKind) : bool :=
  match e with
  | Io => true
  | Reqwest (Some status) => is_server_error status || is_too_many_requests status
  | Reqwest None => true
  | Middleware => false
  | RpcError for_user => negb for_user
  | SerdeJson => false
  | SigningError => false
  | TransactionError => false
  | Custom => false
  end.

Inductive RetryRpcSenderStrategy :=
  | FixedDelay (delay : Duration) (max_retries : nat)
  | ExponentialBackoff (base : Duration) (exp : Factor) (max_retries : nat).
(** The default factor is the float 2.0. *)
Definition default_strategy (two : Factor) : RetryRpcSenderStrategy := ExponentialBackoff (from_millis 10) two 3.

(** [as_millis() as u64]: a duration counts nanoseconds. *)
Definition as_millis_u64 (d : Duration) : N := (d / 1000000) `mod` u64_modulus.
Definition into_iter (s : RetryRpcSenderStrategy) : list Duration :=
  match s with
  | FixedDelay delay max_retries => fixed_from_millis (as_millis_u64 delay) <$> seq 0 max_retries
  | ExponentialBackoff base exp max_retries =>
      exponential_from_millis_with_factor (as_millis_u64 base) exp <$> seq 0 max_retries
  end.
Definition max_retries (s : RetryRpcSenderStrategy) : nat :=
  match s with FixedDelay _ n => n | ExponentialBackoff _ _ n => n end.

Section Send.
Context {Request Reply W : Type} `{RS : !RpcSender Request Reply ErrorKind W}.

(** The loop of [send]; also returned are the delays slept. *)
Fixpoint send_loop (retry_intervals : list Duration) (request : Request) (w : W) : (Reply + ErrorKind) * list Duration * W :=
  let '(result, w) := rpc_send request w in
  match result with
  | inl response => (inl response, [], w)
  | inr error =>
      if negb (is_transient error) then (inr error, [], w)
      else match retry_intervals with
           | interval :: retry_intervals =>
               let '(result, slept, w) := send_loop retry_intervals request w in
               (result, interval :: slept, w)
           | [] => (inr error, [], w)
           end
  end.
Definition send (retry_strategy : RetryRpcSenderStrategy) (request : Request) (w : W) : (Reply + ErrorKind) * list Duration * W :=
  send_loop (into_iter retry_strategy) request w.

(** A [RetryRpcSender] is a sender again. *)
Definition retry_rpc_sender (retry_strategy : RetryRpcSenderStrategy) : RpcSender Request Reply ErrorKind W :=
  λ request w, let '(result, _, w) := send retry_strategy request w in (result, w).

(** ** Attempts *)

(** What the inner sender answers at the [k]-th attempt from [w] on. *)
Fixpoint attempt (k : nat) (request : Request) (w : W) : (Reply + ErrorKind) * W :=
  match k with
  | 0 => rpc_send request w
  | S k => attempt k request (rpc_send request w).2
  end.
Definition failed_transiently (r : Reply + ErrorKind) : Prop := ∃ e, r = inr e ∧ is_transient e = true.

Lemma length_into_iter s : length (into_iter s) = max_retries s.
Proof. by destruct s; cbn; rewrite length_fmap, length_seq. Qed.

Lemma send_loop_spec intervals request w : ∃ k, k ≤ length intervals ∧
  (∀ i, i < k → failed_transiently (attempt i request w).1) ∧
  send_loop intervals request w = ((attempt k request w).1, take k intervals, (attempt k request w).2) ∧
  (failed_transiently (attempt k request w).1 → k = length intervals).
Proof.
  revert w. induction intervals as [|d intervals IH]; intros w.
  - exists 0. cbn. split_and!; [lia|lia| |done].
    destruct (rpc_send request w) as [[r|e] w']; [done|]. by destruct (is_transient e).
  - cbn [send_loop attempt]. destruct (rpc_send request w) as [[r|e] w'] eqn:E.
    { exists 0. cbn [attempt]. rewrite E. cbn. split_and!; [lia|lia|done|by intros (? & ? & _)]. }
    destruct (is_transient e) eqn:Et; cbn [negb].
    2:{ exists 0. cbn [attempt]. rewrite E. cbn. split_and!; [lia|lia|done|].
        intros (e' & [= <-] & ?). congruence. }
    destruct (IH w') as (k & Hk & Hi & Hs & Hlast). exists (S k). cbn [attempt]. rewrite E. cbn [fst snd].
    split_and!; [cbn; lia| |by rewrite Hs|by intros H; cbn; f_equal; apply Hlast].
    intros [|i] Hlt; cbn [attempt]; rewrite E; cbn; [by exists e|]. apply Hi. lia.
Qed.

(** The retry sender sends again only after transient errors, sleeping the configured
    delays in order, returns the first answer that is not one, and gives up on a transient
    error only when the delays are used up. *)
Theorem retries_stop_at_a_settled_answer s request w : ∃ k, k ≤ max_retries s ∧
  (∀ i, i < k → failed_transiently (attempt i request w).1) ∧
  send s request w = ((attempt k request w).1, take k (into_iter s), (attempt k request w).2) ∧
  (failed_transiently (attempt k request w).1 → k = max_retries s).
Proof. rewrite <-length_into_iter. apply send_loop_spec. Qed.

End Send.
End RpcRetry.
End RpcRetry.

(** ** The copy of [apps/jet/src/solana_rpc_utils.rs], the same text without a default
    strategy *)
Module JetRpc.
Section JetRpc.
Context `{HS : HttpStatus} `{RD : RetryDelays}.
Definition is_transient (e : RpcRetry.ErrorKind) : bool := RpcRetry.is_transient e.
Definition into_iter (s : RpcRetry.RetryRpcSenderStrategy) : list Duration := RpcRetry.into_iter s.
Definition retry_rpc_sender `{RS : !RpcSender Request Reply RpcRetry.ErrorKind W} (retry_strategy : RpcRetry.RetryRpcSenderStrategy)
  : RpcSender Request Reply RpcRetry.ErrorKind W := RpcRetry.retry_rpc_sender retry_strategy.
End JetRpc.
End JetRpc.
