(* ===== verification/Stake.v ===== *)
(** The stake services: [rpc/stake.rs] of [crates/tpu-client/src] (module
    [RpcStake]) and its older sibling [stake.rs] of [apps/jet/src] (module
    [JetStake]), which panics where the former keeps its snapshot. Both answer
    from a map that a task refetches once per epoch. *)
From S2P Require Import Prelude Types RpcRetry Driver.
From Stdlib Require Import Floats.SpecFloat.
Import RpcRetry.

(** The fields of [RpcVoteAccountInfo] and [RpcVoteAccountStatus] that are read. *)
Record RpcVoteAccountInfo := mk_vote { node_pubkey : string; activated_stake : N }.
Record RpcVoteAccountStatus := mk_votes { current : list RpcVoteAccountInfo; delinquent : list RpcVoteAccountInfo }.

Record StakeInfoMapInner := mk_inner { mapping : gmap Pubkey N; total_stake : N }.
Definition DEFAULT_STAKE_INFO_REFRESH_INTERVAL : Duration := from_secs 60.

Module RpcStake.
Section RpcStake.
Context `{HI : HashIter} `{HS : HttpStatus} `{PF : PubkeyFromStr}.

Definition extract_node_stake_mapping (rpc_vote_account_status : RpcVoteAccountStatus) : gmap Pubkey N :=
  collect (omap (λ info, (λ pubkey, (pubkey, activated_stake info)) <$> pubkey_from_str (node_pubkey info))
    (current rpc_vote_account_status ++ delinquent rpc_vote_account_status)).
(** [stake_mappings.values().sum()]. *)
Definition values_sum (m : gmap Pubkey N) : N := u64_sum (map_iter m).*2.

Record RefreshStakeInfoMapTask := mk_task {
  last_refresh : N; interval : Duration; shared : StakeInfoMapInner; current_epoch : N
}.
#[export] Instance Task_settable : Settable RefreshStakeInfoMapTask := λ r,
  mk_task (last_refresh r) (interval r) (shared r) (current_epoch r).

(** What one refresh meets: the clock, and the answers of the two calls. *)
Record Replies := mk_replies {
  started : N; epoch_info : N + ErrorKind; vote_accounts : RpcVoteAccountStatus + ErrorKind; finished : N
}.

Definition refresh (force : bool) (r : Replies) (t : RefreshStakeInfoMapTask) : RefreshStakeInfoMapTask :=
  let t := t <| last_refresh := started r |> in
  match epoch_info r with
  | inr _ => t
  | inl epoch =>
      if (RpcStake.current_epoch t =? epoch)%N && negb force then t
      else
        let t := t <| current_epoch := epoch |> in
        let t := match vote_accounts r with
                 | inl resp =>
                     let stake_mappings := extract_node_stake_mapping resp in
                     t <| shared := mk_inner stake_mappings (values_sum stake_mappings) |>
                 | inr _ => t
                 end in
        t <| last_refresh := finished r |>
  end.

(** What the [select!] of [run] sees. *)
Inductive Event :=
  | SleepElapsed (r : Replies)
  | DropSignal
  | ManualRefresh (r : Replies)
  | Stop
  | CommandsClosed.
Definition next_refresh (t : RefreshStakeInfoMapTask) : N := (last_refresh t + interval t)%N.
(** One turn of the loop; [false] once it has left it. *)
Definition step (t : RefreshStakeInfoMapTask * bool) (e : Event) : RefreshStakeInfoMapTask * bool :=
  if t.2 then
    match e with
    | SleepElapsed r => (refresh false r t.1, true)
    | DropSignal => (t.1, false)
    | ManualRefresh r => (refresh true r t.1, true)
    | Stop => (t.1, false)
    | CommandsClosed => (t.1, false)
    end
  else t.
Definition run (t : RefreshStakeInfoMapTask) (l : list Event) : RefreshStakeInfoMapTask * bool := foldl step (t, true) l.

(** [build_validator_stake_info_service_inner]: the vote accounts come first. *)
Definition build_validator_stake_info_service_inner (refresh_interval : Duration) (now : N)
    (votes : RpcVoteAccountStatus + ErrorKind) (epoch : N + ErrorKind) : RefreshStakeInfoMapTask + ErrorKind :=
  match votes with
  | inr e => inr e
  | inl initial_value =>
      match epoch with
      | inr e => inr e
      | inl epoch =>
          let initial_stake_mappings := extract_node_stake_mapping initial_value in
          inl (mk_task now refresh_interval (mk_inner initial_stake_mappings (values_sum initial_stake_mappings)) epoch)
      end
  end.

(** The reader's side: [RpcValidatorStakeInfoService] holds the shared map. *)
#[export] Instance rpc_validator_stake_info_service : ValidatorStakeInfoService StakeInfoMapInner :=
  λ shared validator_identity, mapping shared !! validator_identity.
Definition get_total_stake (shared : StakeInfoMapInner) : N := total_stake shared.

(** ** What is served *)
Definition of_answer (v : RpcVoteAccountStatus) : StakeInfoMapInner :=
  mk_inner (extract_node_stake_mapping v) (values_sum (extract_node_stake_mapping v)).

(** Reference: the answer in use after a history, with the last epoch heard of.
    A refetch that fails leaves the answer in use. *)
Definition served_step (acc : N * RpcVoteAccountStatus) (e : Event) : N * RpcVoteAccountStatus :=
  let fetch r := match vote_accounts r with inl v => v | inr _ => acc.2 end in
  match e with
  | SleepElapsed r => match epoch_info r with
                      | inl epoch => (epoch, if decide (epoch = acc.1) then acc.2 else fetch r)
                      | inr _ => acc
                      end
  | ManualRefresh r => match epoch_info r with inl epoch => (epoch, fetch r) | inr _ => acc end
  | _ => acc
  end.
Definition served (v : RpcVoteAccountStatus) (epoch : N) (l : list Event) : N * RpcVoteAccountStatus :=
  foldl served_step (epoch, v) l.
Definition runs_on (e : Event) : Prop := match e with SleepElapsed _ | ManualRefresh _ => True | _ => False end.

Definition refresh_event (force : bool) (r : Replies) : Event := if force then ManualRefresh r else SleepElapsed r.

Lemma refresh_served force r t v : shared t = of_answer v →
  shared (refresh force r t) = of_answer (served_step (current_epoch t, v) (refresh_event force r)).2 ∧
  current_epoch (refresh force r t) = (served_step (current_epoch t, v) (refresh_event force r)).1.
Proof.
  intros Ht. unfold refresh. upd_simpl.
  destruct force; cbn [refresh_event served_step fst snd]; (destruct (epoch_info r) as [epoch|e]; [|by upd_simpl]);
    destruct (N.eqb_spec (current_epoch t) epoch) as [E|E]; cbn [andb negb fst snd];
    rewrite ?decide_True, ?decide_False by congruence; try destruct (vote_accounts r); by upd_simpl.
Qed.

Lemma run_served t v l : shared t = of_answer v → Forall runs_on l →
  (run t l).2 = true ∧ shared (run t l).1 = of_answer (served v (current_epoch t) l).2 ∧
  current_epoch (run t l).1 = (served v (current_epoch t) l).1.
Proof.
  unfold run. intros Ht Hl. revert t v Ht. induction Hl as [|e l He _ IH]; intros t v Ht; [done|].
  cbn [foldl served]. unfold served. cbn [foldl].
  assert (∃ force r, e = refresh_event force r) as (force & r & ->).
  { destruct e as [r| |r| |]; try done; [by exists false, r|by exists true, r]. }
  destruct (refresh_served force r t v Ht) as [H1 H2].
  replace (step (t, true) _) with (refresh force r t, true) by (by destruct force).
  destruct (IH _ _ H1) as (H3 & H4 & H5). unfold served in *. rewrite H2 in *.
  by rewrite <-surjective_pairing in *.
Qed.

(** The stake of an identity in an answer: that of its last vote account. *)
Definition stake_of (id : Pubkey) (v : RpcVoteAccountStatus) : option N :=
  last (omap (λ a, if decide (pubkey_from_str (node_pubkey a) = Some id) then Some (activated_stake a) else None)
    (current v ++ delinquent v)).

Lemma lookup_extract id v : extract_node_stake_mapping v !! id = stake_of id v.
Proof.
  unfold extract_node_stake_mapping, stake_of. rewrite lookup_collect. f_equal.
  generalize (current v ++ delinquent v) as l. intros l. induction l as [|a l IH]; [done|].
  destruct (pubkey_from_str (node_pubkey a)) as [k|] eqn:E; cbn; rewrite E; cbn.
  - destruct (decide (k = id)) as [->|Hne]; [by rewrite decide_True, IH|].
    by rewrite decide_False, IH by congruence.
  - by rewrite decide_False, IH.
Qed.

(** At every moment the stake service answers from the vote accounts it fetched last: the
    stake of an identity is that of its last vote account there, the total is the sum of
    the mapping, and failed requests leave all of it in use. *)
Theorem stake_service_serves_the_last_fetch refresh_interval now v epoch t l
    (Hbuild : build_validator_stake_info_service_inner refresh_interval now (inl v) (inl epoch) = inl t)
    (Hl : Forall runs_on l) :
  let '(last_epoch, answer) := served v epoch l in
  (run t l).2 = true ∧ current_epoch (run t l).1 = last_epoch ∧
  (∀ id, get_stake_info (shared (run t l).1) id = stake_of id answer) ∧
  get_total_stake (shared (run t l).1) = values_sum (mapping (shared (run t l).1)).
Proof.
  injection Hbuild as <-. fold (of_answer v).
  destruct (run_served (mk_task now refresh_interval (of_answer v) epoch) v l eq_refl Hl) as (H1 & H2 & H3).
  cbn [RpcStake.current_epoch] in H2, H3. destruct (served v epoch l) as [e answer]. split_and!; [done|done| |by rewrite H2].
  intros id. unfold get_stake_info, rpc_validator_stake_info_service. rewrite H2. apply lookup_extract.
Qed.

(** A fetch that fails when the epoch changes is not repeated: the stakes of the
    previous epoch are served until the epoch after. *)
Theorem missed_epoch_stays_stale t r l e (Hepoch : epoch_info r = inl e) (Hvotes : ∃ err, vote_accounts r = inr err)
    (Hl : Forall (λ ev, ∃ r, ev = SleepElapsed r ∧ (epoch_info r = inl e ∨ ∃ err, epoch_info r = inr err)) l) :
  shared (run t (SleepElapsed r :: l)).1 = shared t.
Proof.
  unfold run. cbn [foldl step fst snd].
  assert (shared (refresh false r t) = shared t ∧ current_epoch (refresh false r t) = e) as [Hs He].
  { unfold refresh. upd_simpl. destruct Hvotes as [err ->]. rewrite Hepoch.
    destruct (N.eqb_spec (current_epoch t) e); cbn [andb negb]; by upd_simpl. }
  revert Hs He. generalize (refresh false r t) as t'. induction Hl as [|ev l (r' & -> & Hr) _ IH]; intros t' Hs He; [done|].
  cbn [foldl step fst snd]. apply IH; unfold refresh; upd_simpl; destruct Hr as [->|[err ->]]; upd_simpl; try done;
    rewrite He, N.eqb_refl; cbn [andb negb]; by upd_simpl.
Qed.
End RpcStake.
End RpcStake.

(** ** The service of [apps/jet/src]

    The parsing of every identity and every permanent error must succeed:
    otherwise the task panics ([None]). *)
Module JetStake.
Section JetStake.
Context `{HI : HashIter} `{HS : HttpStatus} `{PF : PubkeyFromStr}.
Import RpcStake.

(** Constants of [solana_quic_definitions]. *)
Class QuicLimits := {
  QUIC_MAX_STAKED_CONCURRENT_STREAMS : N;
  QUIC_MAX_UNSTAKED_CONCURRENT_STREAMS : N;
  QUIC_MIN_STAKED_CONCURRENT_STREAMS : N;
  QUIC_TOTAL_STAKED_CONCURRENT_STREAMS : N
}.
Context `{QL : QuicLimits}.
Inductive ConnectionPeerType := Unstaked | Staked (stake : N).

(** *** [f64]: binary64, rounded to nearest, ties to even *)
Definition f64_of_Z (z : Z) : spec_float := binary_normalize 53 1024 z 0 false.
Definition u64_as_f64 (n : N) : spec_float := f64_of_Z (Z.of_N n).
Definition f64_mul : spec_float → spec_float → spec_float := SFmul 53 1024.
Definition f64_div : spec_float → spec_float → spec_float := SFdiv 53 1024.
(** The integer part towards minus infinity of a finite number. *)
Definition f64_floor_Z (s : bool) (m : positive) (e : Z) : Z :=
  let m := cond_Zopp s (Zpos m) in if (0 <=? e)%Z then (m * 2 ^ e)%Z else (m / 2 ^ (- e))%Z.
Definition f64_floor (x : spec_float) : spec_float :=
  match x with S754_finite s m e => f64_of_Z (f64_floor_Z s m e) | x => x end.
(** [as u64], [as usize]: truncated, saturating, 0 for NaN. *)
Definition f64_as_u64 (x : spec_float) : N :=
  match x with
  | S754_finite false m e => N.min (Z.to_N (f64_floor_Z false m e)) u64_max
  | S754_infinity false => u64_max
  | _ => 0
  end.

(** [usize::clamp], which panics when the bounds are reversed. *)
Definition clamp (x lo hi : N) : option N :=
  if (hi <? lo)%N then None else Some (if (x <? lo)%N then lo else if (hi <? x)%N then hi else x).
Definition compute_max_allowed_uni_streams (peer_type : ConnectionPeerType) (total_stake : N) : option N :=
  match peer_type with
  | Staked peer_stake =>
      if (total_stake =? 0)%N || (total_stake <? peer_stake)%N then Some QUIC_MIN_STAKED_CONCURRENT_STREAMS
      else
        let delta := u64_as_f64 (u64_sub QUIC_TOTAL_STAKED_CONCURRENT_STREAMS QUIC_MIN_STAKED_CONCURRENT_STREAMS) in
        clamp (u64_add (f64_as_u64 (f64_mul (f64_div (u64_as_f64 peer_stake) (u64_as_f64 total_stake)) delta))
                 QUIC_MIN_STAKED_CONCURRENT_STREAMS)
          QUIC_MIN_STAKED_CONCURRENT_STREAMS QUIC_MAX_STAKED_CONCURRENT_STREAMS
  | Unstaked => Some QUIC_MAX_UNSTAKED_CONCURRENT_STREAMS
  end.
Definition stake_to_per100ms_limit (stake total_stake : N) : N :=
  if (stake =? 0)%N || (total_stake =? 0)%N || (total_stake <? stake)%N then 10
  else f64_as_u64 (f64_floor (f64_div (f64_mul (f64_of_Z 160000) (u64_as_f64 stake)) (u64_as_f64 total_stake))).
Definition stake_to_max_stream (stake total_stake : N) : option N :=
  if (stake =? 0)%N then Some QUIC_MAX_UNSTAKED_CONCURRENT_STREAMS
  else compute_max_allowed_uni_streams (Staked stake) total_stake.

Definition extract_node_stake_mapping (rpc_vote_account_status : RpcVoteAccountStatus) : option (gmap Pubkey N) :=
  collect <$> mapM (λ info, (λ pubkey, (pubkey, activated_stake info)) <$> pubkey_from_str (node_pubkey info))
    (current rpc_vote_account_status ++ delinquent rpc_vote_account_status).

Record ValidatorStakeLimits := mk_limits { max_streams : N; per100ms_limit : N }.
Definition unstaked : ValidatorStakeLimits := mk_limits QUIC_MAX_UNSTAKED_CONCURRENT_STREAMS 10.

Definition get_stake_info (shared : StakeInfoMapInner) (id : Pubkey) : option N := mapping shared !! id.
Definition get_stake_info_with_total_stake (shared : StakeInfoMapInner) (id : Pubkey) : option (N * N) :=
  (λ stake, (stake, total_stake shared)) <$> mapping shared !! id.
(** The outer [option] is the panic of [clamp]. *)
Definition get_stake_limits (shared : StakeInfoMapInner) (id : Pubkey) : option ValidatorStakeLimits :=
  match mapping shared !! id with
  | Some stake =>
      max_streams ← stake_to_max_stream stake (total_stake shared);
      Some (mk_limits max_streams (stake_to_per100ms_limit stake (total_stake shared)))
  | None => Some unstaked
  end.
Definition get_total_stake (shared : StakeInfoMapInner) : N := total_stake shared.
Definition constant (entries : list (Pubkey * N)) : StakeInfoMapInner := mk_inner (collect entries) (values_sum (collect entries)).
Definition empty : StakeInfoMapInner := constant [].

Definition refresh (force : bool) (r : Replies) (t : RefreshStakeInfoMapTask) : option RefreshStakeInfoMapTask :=
  let t := t <| last_refresh := started r |> in
  match epoch_info r with
  | inr err => if is_transient err then Some t else None
  | inl epoch =>
      if (RpcStake.current_epoch t =? epoch)%N && negb force then Some t
      else
        let t := t <| RpcStake.current_epoch := epoch |> in
        t ← match vote_accounts r with
            | inl resp =>
                stake_mappings ← extract_node_stake_mapping resp;
                Some (t <| shared := mk_inner stake_mappings (values_sum stake_mappings) |>)
            | inr err => if is_transient err then Some t else None
            end;
        Some (t <| last_refresh := finished r |>)
  end.

(** The task: running, stopped or panicked, with the shared map it leaves.
    [DropSignal] is the cancellation token. *)
Inductive TaskState := Running (t : RefreshStakeInfoMapTask) | Stopped (snapshot : StakeInfoMapInner) | Panicked (snapshot : StakeInfoMapInner).
Definition continue (t : RefreshStakeInfoMapTask) (o : option RefreshStakeInfoMapTask) : TaskState :=
  match o with Some t => Running t | None => Panicked (shared t) end.
Definition step (s : TaskState) (e : Event) : TaskState :=
  match s with
  | Running t =>
      match e with
      | SleepElapsed r => continue t (refresh false r t)
      | DropSignal => Stopped (shared t)
      | ManualRefresh r => continue t (refresh true r t)
      | Stop => Stopped (shared t)
      | CommandsClosed => Stopped (shared t)
      end
  | s => s
  end.
Definition run (t : RefreshStakeInfoMapTask) (l : list Event) : TaskState := foldl step (Running t) l.
Definition served_map (s : TaskState) : StakeInfoMapInner :=
  match s with Running t => shared t | Stopped snapshot => snapshot | Panicked snapshot => snapshot end.
Definition spawn_cache_stake_info_map (interval : Duration) (now : N)
    (votes : RpcVoteAccountStatus + ErrorKind) (epoch : N + ErrorKind) : option RefreshStakeInfoMapTask :=
  match votes, epoch with
  | inl initial_value, inl epoch =>
      initial_stake_mappings ← extract_node_stake_mapping initial_value;
      Some (mk_task now interval (mk_inner initial_stake_mappings (values_sum initial_stake_mappings)) epoch)
  | _, _ => None
  end.

Lemma extract_agrees v m : extract_node_stake_mapping v = Some m → RpcStake.extract_node_stake_mapping v = m.
Proof.
  unfold extract_node_stake_mapping, RpcStake.extract_node_stake_mapping. intros (l & Hl & ->)%fmap_Some.
  f_equal. revert l Hl. generalize (current v ++ delinquent v) as accounts.
  induction accounts as [|a accounts IH]; intros l; [by intros [= <-]|].
  cbn. destruct (pubkey_from_str (node_pubkey a)) as [k|]; [|done]. cbn.
  destruct (mapM _ accounts) as [l'|] eqn:E; [|done]. intros [= <-]. by rewrite (IH l').
Qed.

(** What makes a refresh panic. *)
Definition panics (force : bool) (r : Replies) (t : RefreshStakeInfoMapTask) : Prop :=
  (∃ err, epoch_info r = inr err ∧ is_transient err = false) ∨
  (∃ epoch, epoch_info r = inl epoch ∧ (force = true ∨ RpcStake.current_epoch t ≠ epoch) ∧
    ((∃ err, vote_accounts r = inr err ∧ is_transient err = false) ∨
     (∃ v, vote_accounts r = inl v ∧ extract_node_stake_mapping v = None))).

(** Where the newer service keeps its snapshot, this one panics; otherwise they
    refresh alike. *)
Theorem refresh_agrees_or_panics force r t :
  (∀ t', refresh force r t = Some t' → t' = RpcStake.refresh force r t) ∧
  (refresh force r t = None ↔ panics force r t).
Proof.
  unfold refresh, RpcStake.refresh, panics. upd_simpl. destruct (epoch_info r) as [epoch|e].
  2:{ destruct (is_transient e) eqn:E.
      - split; [by intros ? [= <-]|]. split; [done|]. intros [(? & [= <-] & ?)|(? & ? & _)]; congruence.
      - split; [done|]. split; [|done]. left. by exists e. }
  assert ((RpcStake.current_epoch t =? epoch)%N && negb force = false ↔ force = true ∨ RpcStake.current_epoch t ≠ epoch) as Hskip.
  { rewrite andb_false_iff, negb_false_iff, N.eqb_neq. tauto. }
  destruct (_ && _).
  { split; [by intros ? [= <-]|]. split; [done|]. intros [(? & ? & _)|(? & [= <-] & H & _)]; [done|]. by apply Hskip in H. }
  assert (force = true ∨ RpcStake.current_epoch t ≠ epoch) as Hgo by (by apply Hskip).
  destruct (vote_accounts r) as [v|e].
  - destruct (extract_node_stake_mapping v) as [m|] eqn:Em; cbn [mbind option_bind].
    + split; [intros ? [= <-]; by rewrite (extract_agrees v m Em)|].
      split; [done|]. intros [(? & ? & _)|(? & _ & _ & [(? & ? & _)|(? & [= <-] & ?)])]; congruence.
    + split; [done|]. split; [|done]. right. exists epoch. split_and!; [done..|]. right. by exists v.
  - destruct (is_transient e) eqn:Et; cbn [mbind option_bind].
    + split; [by intros ? [= <-]|]. split; [done|].
      intros [(? & ? & _)|(? & _ & _ & [(? & [= <-] & ?)|(? & ? & _)])]; congruence.
    + split; [done|]. split; [|done]. right. exists epoch. split_and!; [done..|]. left. by exists e.
Qed.

(** The stake map of jet, fed by the same replies as the stake service of tpu-client,
    serves the same stakes until one of its requests fails permanently, when it panics. *)
Theorem tasks_serve_alike t l :
  match run t l with
  | Panicked _ => True
  | Running t' => RpcStake.run t l = (t', true)
  | Stopped snapshot => (RpcStake.run t l).2 = false ∧ shared (RpcStake.run t l).1 = snapshot
  end.
Proof.
  unfold run, RpcStake.run. revert t.
  induction l as [|e l IH]; intros t; [done|]. cbn [foldl]. unfold step at 2, RpcStake.step at 2 4 6. cbn [fst snd].
  destruct e as [r| |r| |]; rewrite ?foldl_stuck by (by intros []); try done.
  - destruct (refresh false r t) as [t'|] eqn:E; cbn [continue]; [|by rewrite foldl_stuck].
    apply refresh_agrees_or_panics in E as ->. apply IH.
  - destruct (refresh true r t) as [t'|] eqn:E; cbn [continue]; [|by rewrite foldl_stuck].
    apply refresh_agrees_or_panics in E as ->. apply IH.
Qed.

(** The number of streams is within the protocol's limits. *)
Theorem streams_within_limits stake total n : stake_to_max_stream stake total = Some n →
  n = QUIC_MAX_UNSTAKED_CONCURRENT_STREAMS ∨ n = QUIC_MIN_STAKED_CONCURRENT_STREAMS ∨
  (QUIC_MIN_STAKED_CONCURRENT_STREAMS ≤ n ≤ QUIC_MAX_STAKED_CONCURRENT_STREAMS)%N.
Proof.
  unfold stake_to_max_stream, compute_max_allowed_uni_streams, clamp.
  destruct (stake =? 0)%N; [by intros [= <-]; left|]. destruct (_ || _); [by intros [= <-]; right; left|].
  set (x := u64_add _ _). destruct (N.ltb_spec QUIC_MAX_STAKED_CONCURRENT_STREAMS QUIC_MIN_STAKED_CONCURRENT_STREAMS); [done|].
  intros [= <-]. right; right. destruct (N.ltb_spec x QUIC_MIN_STAKED_CONCURRENT_STREAMS); [lia|].
  destruct (N.ltb_spec QUIC_MAX_STAKED_CONCURRENT_STREAMS x); lia.
Qed.
End JetStake.
End JetStake.

(** ** Concrete runs *)
Section Demo.
#[local] Instance demo_iter : HashIter := elements_iter.
#[local] Instance demo_status : HttpStatus :=
  {| StatusCode := N; is_server_error := λ s, (500 <=? s)%N && (s <? 600)%N; is_too_many_requests := N.eqb 429 |}.
#[local] Instance demo_parse : PubkeyFromStr := λ s,
  if String.eqb s "a" then Some 1%N else if String.eqb s "b" then Some 2%N else None.
#[local] Instance demo_limits : JetStake.QuicLimits :=
  {| JetStake.QUIC_MAX_STAKED_CONCURRENT_STREAMS := 512; JetStake.QUIC_MAX_UNSTAKED_CONCURRENT_STREAMS := 128;
     JetStake.QUIC_MIN_STAKED_CONCURRENT_STREAMS := 128; JetStake.QUIC_TOTAL_STAKED_CONCURRENT_STREAMS := 100000 |}.
Import RpcStake.

Definition demo_votes (a b : N) : RpcVoteAccountStatus := mk_votes [mk_vote "a" a; mk_vote "?" 9] [mk_vote "b" b].
Definition demo_event (epoch a b : N) : Event := SleepElapsed (mk_replies 0 (inl epoch) (inl (demo_votes a b)) 1).

(** The same epoch, then the next one. *)
Lemma stake_service_serves_the_last_fetch_witness :
  get_stake_info (shared (run (mk_task 0 60 (of_answer (demo_votes 100 1000)) 7)
    [demo_event 7 1 1; demo_event 8 150 1000]).1) 1%N = Some 150%N.
Proof.
  pose proof (stake_service_serves_the_last_fetch 60 0 (demo_votes 100 1000) 7 _
    [demo_event 7 1 1; demo_event 8 150 1000] eq_refl ltac:(repeat constructor)) as H.
  cbv beta iota zeta delta [served foldl served_step demo_event] in H.
  exact (proj1 (proj2 (proj2 H)) 1%N).
Defined.

(** Two vote accounts of one identity: the stake is the last one's, not the sum. *)
Example stakes_of_an_identity_are_not_summed :
  stake_of 1%N (mk_votes [mk_vote "a" 100; mk_vote "a" 20] []) = Some 20%N.
Proof. vm_compute. reflexivity. Qed.

Example per100ms_limits : JetStake.stake_to_per100ms_limit 1 3 = 53333%N ∧
  JetStake.stake_to_per100ms_limit 400000000000000000 400000000000000000 = 160000%N.
Proof. split; vm_compute; reflexivity. Qed.

Example max_streams_of_one_percent : JetStake.stake_to_max_stream 1 100 = Some 512%N ∧
  JetStake.stake_to_max_stream 1 1000 = Some 227%N.
Proof. split; vm_compute; reflexivity. Qed.
End Demo.
