(* ===== verification/TpuInfo.v ===== *)
(** The TPU address service ([rpc/tpu_info.rs] of [crates/tpu-client/src]): a map
    from leaders to their QUIC sockets, patched after each poll of the cluster
    nodes with the difference to the last one. *)
From S2P Require Import Prelude Types RpcRetry.
Import RpcRetry.

Module TpuInfo.
Definition DEFAULT_REFRESH_INTERVAL : Duration := from_secs 10.
Definition DEFAULT_MAX_RETRY_ATTEMPTS : N := 3.

Record RpcTpuQuicContactInfo := mk_info { info_tpu_quic : option SocketAddr; info_tpu_forwards_quic : option SocketAddr }.
#[export] Instance info_eq_dec : EqDecision RpcTpuQuicContactInfo.
Proof. solve_decision. Defined.
Definition from_contact (c : RpcContactInfo) : RpcTpuQuicContactInfo :=
  mk_info (contact_tpu_quic c) (contact_tpu_forwards_quic c).
Abbreviation Topology := (gmap Pubkey RpcTpuQuicContactInfo).

Inductive Diff := Upsert (pubkey : Pubkey) (contact_info : RpcTpuQuicContactInfo) | Remove (pubkey : Pubkey).

Record Config := mk_config { refresh_interval : Duration; max_retry_attempts : N }.
Definition default_config : Config := mk_config DEFAULT_REFRESH_INTERVAL DEFAULT_MAX_RETRY_ATTEMPTS.

(** The shared map is what the service reads. *)
#[export] Instance rpc_cluster_tpu_service : LeaderTpuInfoService Topology := {
  get_quic_tpu_socket_addr shared leader_pubkey := shared !! leader_pubkey ≫= info_tpu_quic;
  get_quic_tpu_fwd_socket_addr shared leader_pubkey := shared !! leader_pubkey ≫= info_tpu_forwards_quic
}.
Definition get_current_topology_mapping (shared : Topology) : Topology := shared.

Section TpuInfo.
Context `{HI : HashIter} `{HS : HttpStatus} `{PF : PubkeyFromStr} (config : Config).

(** The entries of the answer, with [to_remove] losing the identities met. *)
Fixpoint detect_entries (current : Topology) (to_remove : gset Pubkey) (new : list RpcContactInfo) : list Diff * gset Pubkey :=
  match new with
  | [] => ([], to_remove)
  | node :: new =>
      match pubkey_from_str (pubkey node) with
      | None => detect_entries current to_remove new
      | Some pubkey =>
          let contact_info := from_contact node in
          let '(ret, to_remove) := detect_entries current (to_remove ∖ {[pubkey]}) new in
          match current !! pubkey with
          | Some existing_info =>
              if decide (existing_info ≠ contact_info) then (Upsert pubkey contact_info :: ret, to_remove) else (ret, to_remove)
          | None => (Upsert pubkey contact_info :: ret, to_remove)
          end
      end
  end.
Definition detect_tpu_contact_info_diff (current : Topology) (new : list RpcContactInfo) : list Diff :=
  let '(ret, to_remove) := detect_entries current (dom current) new in
  ret ++ (Remove <$> hash_iter to_remove).

Definition apply_diff (current : Topology) (diff : Diff) : Topology :=
  match diff with
  | Upsert pubkey contact_info => <[pubkey := contact_info]> current
  | Remove pubkey => delete pubkey current
  end.
Definition apply_diff_patch (current : Topology) (diffs : list Diff) : Topology := foldl apply_diff current diffs.

(** [initial_topology_mapping] of [rpc_cluster_tpu_info_service]. *)
Definition initial_topology_mapping (nodes : list RpcContactInfo) : Topology :=
  collect (omap (λ node, (λ pubkey, (pubkey, from_contact node)) <$> pubkey_from_str (pubkey node)) nodes).

(** The refresh task; a failed poll only differs in what it reports. *)
Inductive Report := WillRetry | KeepingSnapshot.
Record Refresh := mk_refresh { shared : Topology; consecutive_fetch_errors : N; reports : list Report }.
Inductive Event := Tick (nodes : list RpcContactInfo + ErrorKind) | Cancelled.
Definition on_tick (nodes : list RpcContactInfo + ErrorKind) (t : Refresh) : Refresh :=
  match nodes with
  | inl nodes =>
      let diff := detect_tpu_contact_info_diff (shared t) nodes in
      mk_refresh (if decide (diff = []) then shared t else apply_diff_patch (shared t) diff) 0 (reports t)
  | inr e =>
      let errors := u64_add (consecutive_fetch_errors t) 1 in
      mk_refresh (shared t) errors
        (reports t ++ [if is_transient e && (errors <? max_retry_attempts config)%N then WillRetry else KeepingSnapshot])
  end.
Definition step (t : Refresh * bool) (e : Event) : Refresh * bool :=
  if t.2 then match e with Tick nodes => (on_tick nodes t.1, true) | Cancelled => (t.1, false) end else t.
Definition cluster_info_refresh_loop (t : Refresh) (l : list Event) : Refresh * bool := foldl step (t, true) l.
Definition rpc_cluster_tpu_info_service (nodes : list RpcContactInfo + ErrorKind) : Refresh + ErrorKind :=
  match nodes with
  | inl nodes => inl (mk_refresh (initial_topology_mapping nodes) 0 [])
  | inr e => inr e
  end.

(** ** What a patch does to one identity *)
Definition parsed (node : RpcContactInfo) : option (Pubkey * RpcTpuQuicContactInfo) :=
  (λ pubkey, (pubkey, from_contact node)) <$> pubkey_from_str (pubkey node).
(** The entries of [k] in an answer. *)
Definition infos (k : Pubkey) (nodes : list RpcContactInfo) : list RpcTpuQuicContactInfo :=
  omap (λ p, if decide (p.1 = k) then Some p.2 else None) (omap parsed nodes).
(** No identity has two different entries. *)
Definition consistent (nodes : list RpcContactInfo) : Prop :=
  ∀ k i j, i ∈ infos k nodes → j ∈ infos k nodes → i = j.

Definition effect (k : Pubkey) (d : Diff) : option (option RpcTpuQuicContactInfo) :=
  match d with
  | Upsert p i => if decide (p = k) then Some (Some i) else None
  | Remove p => if decide (p = k) then Some None else None
  end.

Lemma lookup_patch k m diffs : apply_diff_patch m diffs !! k = default (m !! k) (last (omap (effect k) diffs)).
Proof.
  unfold apply_diff_patch. induction diffs as [|d diffs IH] using rev_ind; [done|].
  rewrite foldl_app, omap_app. cbn [foldl]. destruct d as [p i|p]; cbn [apply_diff omap list_omap effect];
    destruct (decide (p = k)) as [->|Hne]; rewrite ?app_nil_r, ?last_snoc by done; cbn [default].
  - apply lookup_insert_eq.
  - by rewrite lookup_insert_ne.
  - apply lookup_delete_eq.
  - by rewrite lookup_delete_ne.
Qed.

Definition changed (current : Topology) (p : Pubkey * RpcTpuQuicContactInfo) : option Diff :=
  if decide (current !! p.1 = Some p.2) then None else Some (Upsert p.1 p.2).

Lemma detect_entries_eq current R new :
  detect_entries current R new = (omap (changed current) (omap parsed new), R ∖ list_to_set (omap parsed new).*1).
Proof.
  revert R. induction new as [|node new IH]; intros R; cbn [detect_entries omap list_omap].
  { cbn. f_equal. set_solver. }
  assert (parsed node = (λ pubkey, (pubkey, from_contact node)) <$> pubkey_from_str (pubkey node)) as -> by done.
  destruct (pubkey_from_str (pubkey node)) as [k|]; cbn [fmap option_fmap option_map]; [|apply IH].
  rewrite IH. cbn [omap list_omap fmap list_fmap list_to_set fst].
  replace (R ∖ {[k]} ∖ list_to_set (omap parsed new).*1) with (R ∖ ({[k]} ∪ list_to_set (omap parsed new).*1)) by set_solver.
  assert (changed current (k, from_contact node) =
    if decide (current !! k = Some (from_contact node)) then None else Some (Upsert k (from_contact node))) as -> by done.
  destruct (current !! k) as [i|]; [|by rewrite decide_False].
  destruct (decide (i ≠ from_contact node)) as [Hi|Hi].
  - by rewrite decide_False by congruence.
  - apply dec_stable in Hi as ->. by rewrite decide_True.
Qed.

Lemma omap_effect_changed current k (l : list (Pubkey * RpcTpuQuicContactInfo)) :
  omap (effect k) (omap (changed current) l) =
  Some <$> filter (λ i, current !! k ≠ Some i) (omap (λ p, if decide (p.1 = k) then Some p.2 else None) l).
Proof.
  induction l as [|[p i] l IH]; [done|]. cbn [omap list_omap fst snd]. unfold changed at 1. cbn [fst snd].
  destruct (decide (p = k)) as [->|Hne].
  - rewrite filter_cons. destruct (decide (current !! k = Some i)) as [E|E].
    + rewrite (decide_False (P := current !! k ≠ Some i)) by (by rewrite E; intros []). exact IH.
    + rewrite (decide_True (P := current !! k ≠ Some i)) by done. cbn [omap list_omap effect fmap list_fmap].
      rewrite decide_True by done. by rewrite IH.
  - case_decide; [exact IH|]. cbn [omap list_omap effect]. rewrite decide_False by done. exact IH.
Qed.

Lemma omap_effect_remove k (l : list Pubkey) : NoDup l →
  omap (effect k) (Remove <$> l) = if decide (k ∈ l) then [None] else [].
Proof.
  induction 1 as [|x l Hx Hl IH]; [done|]. cbn [fmap list_fmap omap list_omap effect]. rewrite IH.
  destruct (decide (x = k)) as [->|Hne].
  - rewrite decide_False, decide_True; [done|by left|done].
  - destruct (decide (k ∈ l)); [rewrite decide_True|rewrite decide_False]; set_solver.
Qed.

Lemma infos_nil k new : infos k new = [] ↔ k ∉ (omap parsed new).*1.
Proof.
  unfold infos. induction (omap parsed new) as [|[p i] l IH]; [by split; [intros _ ?%elem_of_nil|]|].
  cbn [omap list_omap fmap list_fmap fst snd]. case_decide; set_solver.
Qed.

(** A patched identity: gone if the answer does not name it, otherwise the last
    of its entries that differs from the one in place. *)
Lemma lookup_refreshed current new k :
  apply_diff_patch current (detect_tpu_contact_info_diff current new) !! k =
  match infos k new with
  | [] => None
  | l => default (current !! k) (Some <$> last (filter (λ i, current !! k ≠ Some i) l))
  end.
Proof.
  rewrite lookup_patch. unfold detect_tpu_contact_info_diff. rewrite detect_entries_eq, omap_app, omap_effect_changed.
  rewrite omap_effect_remove by apply NoDup_hash_iter. fold (infos k new).
  pose proof (infos_nil k new) as Hnil. destruct (infos k new) as [|i l].
  - cbn [filter list_filter fmap list_fmap app]. assert (k ∉ (omap parsed new).*1) as Hk by (by apply Hnil).
    case_decide as Hd; rewrite elem_of_hash_iter in Hd; [done|]. cbn.
    destruct (current !! k) eqn:E; [|done]. exfalso. apply Hd. apply elem_of_difference. split; [by apply elem_of_dom_2 in E|].
    by rewrite elem_of_list_to_set.
  - rewrite decide_False; [by rewrite app_nil_r, fmap_last|].
    rewrite elem_of_hash_iter, elem_of_difference, elem_of_list_to_set. intros [_ Hk]. by apply Hnil in Hk.
Qed.

Lemma lookup_initial nodes k : initial_topology_mapping nodes !! k = last (infos k nodes).
Proof. apply lookup_collect. Qed.

(** Patching amounts to starting afresh from the new answer. *)
Theorem patch_brings_the_new_topology current new (Hnew : consistent new) :
  apply_diff_patch current (detect_tpu_contact_info_diff current new) = initial_topology_mapping new.
Proof.
  apply map_eq. intros k. rewrite lookup_refreshed, lookup_initial. specialize (Hnew k).
  destruct (infos k new) as [|i l] eqn:E; [done|].
  assert (last (i :: l) = Some i) as Hlast.
  { destruct (last_is_Some (i :: l)) as [_ [j Hj]]; [done|]. rewrite Hj. f_equal.
    apply Hnew; [by apply last_Some_elem_of|by left]. }
  rewrite Hlast. destruct (last (filter _ _)) as [j|] eqn:Ej; cbn.
  - f_equal. apply last_Some_elem_of, list_elem_of_filter in Ej as [_ Ej]. apply Hnew; [done|by left].
  - apply last_None in Ej. destruct (decide (current !! k = Some i)) as [|Hne]; [done|].
    rewrite filter_cons, decide_True in Ej by done. done.
Qed.

Lemma refreshed_shared t nodes : consistent nodes →
  shared (on_tick (inl nodes) t) = initial_topology_mapping nodes.
Proof.
  intros H. cbn [on_tick shared]. rewrite <-(patch_brings_the_new_topology (shared t) nodes H).
  by case_decide as E; [rewrite E|].
Qed.

(** The last answer of a history of polls that starts from [nodes]. *)
Definition answer_of (e : Event) : option (list RpcContactInfo) :=
  match e with Tick (inl nodes) => Some nodes | _ => None end.
Definition last_answer (nodes : list RpcContactInfo) (l : list Event) : list RpcContactInfo :=
  default nodes (last (omap answer_of l)).
Definition polls (e : Event) : Prop :=
  match e with Tick (inl nodes) => consistent nodes | Tick (inr _) => True | Cancelled => False end.

(** After any sequence of polls, failed or not, the shared topology, patched incrementally,
    is the one built from scratch on the last answer, every address lookup agrees with that
    answer, and the refresh task still runs. *)
Theorem tpu_service_follows_the_cluster nodes t l
    (Hstart : rpc_cluster_tpu_info_service (inl nodes) = inl t) (Hl : Forall polls l) :
  let '(t', running) := cluster_info_refresh_loop t l in
  running = true ∧ shared t' = initial_topology_mapping (last_answer nodes l) ∧
  ∀ k, get_quic_tpu_socket_addr (shared t') k = last (infos k (last_answer nodes l)) ≫= info_tpu_quic ∧
       get_quic_tpu_fwd_socket_addr (shared t') k = last (infos k (last_answer nodes l)) ≫= info_tpu_forwards_quic.
Proof.
  injection Hstart as <-. unfold cluster_info_refresh_loop.
  cut ((foldl step (mk_refresh (initial_topology_mapping nodes) 0 [], true) l).2 = true ∧
    shared (foldl step (mk_refresh (initial_topology_mapping nodes) 0 [], true) l).1 =
      initial_topology_mapping (last_answer nodes l)).
  { destruct (foldl _ _ l) as [t' r]. intros [H1 H2]. split_and!; [done|done|]. intros k.
    cbn [fst] in H2. cbn. by rewrite H2, lookup_initial. }
  induction l as [|e l IH] using rev_ind; [done|]. apply Forall_app in Hl as [Hl He]. rewrite Forall_singleton in He.
  destruct (IH Hl) as [H1 H2]. rewrite foldl_app. cbn [foldl]. destruct (foldl _ _ l) as [t' r]. cbn [fst snd] in H1, H2. subst r.
  unfold last_answer. rewrite omap_app. destruct e as [[nodes'|err]|]; cbn [polls] in He; [| |done].
  - split; [done|]. cbn [step fst snd omap list_omap answer_of]. rewrite last_snoc. by apply refreshed_shared.
  - cbn [step fst snd omap list_omap answer_of]. by rewrite app_nil_r.
Qed.

(** No number of failures ends the polling: [max_retry_attempts] only changes what
    is reported. *)
Theorem failures_never_stop_the_polling t errors :
  let '(t', running) := cluster_info_refresh_loop t ((λ e, Tick (inr e)) <$> errors) in
  running = true ∧ shared t' = shared t ∧ length (reports t') = length (reports t) + length errors.
Proof.
  unfold cluster_info_refresh_loop. revert t. induction errors as [|e errors IH]; intros t; cbn [fmap list_fmap foldl].
  { split_and!; [done..|cbn; lia]. }
  cbn [step fst snd]. specialize (IH (on_tick (inr e) t)). destruct (foldl _ _ _) as [t' r].
  destruct IH as (H1 & H2 & H3). split_and!; [done|done|]. rewrite H3. cbn. rewrite length_app. cbn. lia.
Qed.
End TpuInfo.

(** ** Concrete runs *)
Section Demo.
#[local] Instance demo_iter : HashIter := elements_iter.
#[local] Instance demo_status : HttpStatus :=
  {| StatusCode := N; is_server_error := λ s, (500 <=? s)%N && (s <? 600)%N; is_too_many_requests := N.eqb 429 |}.
#[local] Instance demo_parse : PubkeyFromStr := λ s,
  if String.eqb s "a" then Some 1%N else if String.eqb s "b" then Some 2%N else None.

Definition demo_node (s : string) (addr : SocketAddr) : RpcContactInfo := mk_contact s (Some addr) None 0.
(** A node moves, one leaves, a poll fails. *)
Definition demo_polls : list Event :=
  [Tick (inl [demo_node "?" 5; demo_node "a" 12]); Tick (inr Io)].

Lemma tpu_service_follows_the_cluster_witness :
  let t := mk_refresh (initial_topology_mapping [demo_node "a" 11; demo_node "b" 20]) 0 [] in
  let final := (cluster_info_refresh_loop default_config t demo_polls).1 in
  get_quic_tpu_socket_addr (shared final) 1%N = Some 12%N ∧ get_quic_tpu_socket_addr (shared final) 2%N = None.
Proof.
  cbn zeta.
  assert (Forall polls demo_polls) as Hp.
  { repeat constructor. intros k i j. cbn. destruct (decide (1%N = k)); intros Hi Hj.
    - apply list_elem_of_singleton in Hi, Hj. congruence.
    - by apply elem_of_nil in Hi. }
  pose proof (tpu_service_follows_the_cluster default_config [demo_node "a" 11; demo_node "b" 20] _ demo_polls eq_refl Hp) as H.
  destruct (cluster_info_refresh_loop _ _ _) as [t' r]. destruct H as (_ & _ & H).
  split; [exact (proj1 (H 1%N))|exact (proj1 (H 2%N))].
Defined.

(** Two entries for one identity, the last one being the one in place: the patch
    installs the other, a fresh start would not. *)
Example inconsistent_answers_diverge :
  let new := [demo_node "a" 7; demo_node "a" 11] in
  let current := initial_topology_mapping [demo_node "a" 11] in
  apply_diff_patch current (detect_tpu_contact_info_diff current new) !! 1%N = Some (mk_info (Some 7%N) None) ∧
  initial_topology_mapping new !! 1%N = Some (mk_info (Some 11%N) None).
Proof. split; vm_compute; reflexivity. Qed.
End Demo.
End TpuInfo.
