(* ===== verification/ClusterTpu.v ===== *)
(** The leader and address lookups of [apps/jet/src/cluster_tpu_info.rs]: a shared
    record that two tasks keep up to date, one from the slot updates of the gRPC
    stream and the leader schedules of the RPC, the other from its cluster nodes. *)
From S2P Require Import Prelude Types RpcRetry Commitment Runtime Retry Fanout Driver.
Import RpcRetry Commitment.

(** [solana_epoch_schedule::EpochSchedule]. *)
Class EpochSchedule := {
  get_epoch : N → N;
  get_epoch_and_slot_index : N → N * N;
  get_first_slot_in_epoch : N → N
}.
(** A slot is its index past the first slot of its epoch. *)
Class EpochScheduleLaws `{EpochSchedule} : Prop :=
  slot_of_index : ∀ s epoch index, get_epoch_and_slot_index s = (epoch, index) →
    (get_first_slot_in_epoch epoch + index = s)%N.

Module ClusterTpu.
(** Asserted to be 4 by [ClusterTpuInfo::new]. *)
Definition NUM_CONSECUTIVE_LEADER_SLOTS : N := 4.
Definition LEADER_SCHEDULE_RETENTION_SLOTS : N := 42.

Record TpuInfo := mk_tpu { leader : Pubkey; slots : list N; quic : option SocketAddr; quic_forwards : option SocketAddr }.

Record ClusterTpuInfoInner := mk_inner {
  latest_seen_slot : N; leader_schedule : gmap N Pubkey; cluster_nodes : gmap Pubkey RpcContactInfo
}.
#[export] Instance Inner_settable : Settable ClusterTpuInfoInner := λ r,
  mk_inner (latest_seen_slot r) (leader_schedule r) (cluster_nodes r).
Definition default_inner : ClusterTpuInfoInner := mk_inner 0 ∅ ∅.

Section ClusterTpu.
Context `{HI : HashIter} `{HS : HttpStatus} `{PF : PubkeyFromStr} `{ES : EpochSchedule}.

(** ** Readers *)
Definition get_tpu_info (inner : ClusterTpuInfoInner) (leader_slot : N) : option TpuInfo :=
  leader ← leader_schedule inner !! leader_slot;
  tpu_info ← cluster_nodes inner !! leader;
  let '(epoch, index) := get_epoch_and_slot_index leader_slot in
  let slot := u64_sub (u64_add (get_first_slot_in_epoch epoch) index) (index `mod` NUM_CONSECUTIVE_LEADER_SLOTS) in
  Some (mk_tpu leader [slot; u64_add slot 1; u64_add slot 2; u64_add slot 3]
    (contact_tpu_quic tpu_info) (contact_tpu_forwards_quic tpu_info)).
(** The slot of the [i]-th window from the latest slot. *)
Definition window_slot (inner : ClusterTpuInfoInner) (i : nat) : N :=
  u64_add (latest_seen_slot inner) (u64_mul (N.of_nat i) NUM_CONSECUTIVE_LEADER_SLOTS).
Definition get_leader_tpus (inner : ClusterTpuInfoInner) (leader_forward_count : nat) : list TpuInfo :=
  omap (λ i, get_tpu_info inner (window_slot inner i)) (seq 0 (S leader_forward_count)).

#[export] Instance cluster_leader_schedule : UpcomingLeaderSchedule ClusterTpuInfoInner := {
  leader_lookahead inner n := leader <$> get_leader_tpus inner n;
  get_current_slot inner := latest_seen_slot inner
}.
#[export] Instance cluster_predictor : UpcomingLeaderPredictor ClusterTpuInfoInner :=
  λ inner n, leader <$> get_leader_tpus inner n.
#[export] Instance cluster_tpu_service : LeaderTpuInfoService ClusterTpuInfoInner := {
  get_quic_tpu_socket_addr inner leader_pubkey := cluster_nodes inner !! leader_pubkey ≫= contact_tpu_quic;
  get_quic_tpu_fwd_socket_addr inner leader_pubkey := cluster_nodes inner !! leader_pubkey ≫= contact_tpu_forwards_quic
}.

(** ** [update_cluster_nodes]

    The nodes it last stored, and its backoff. A turn starts with a tick of the
    backoff; [backoff] is what the tick leaves. *)
Record NodesTask := mk_nodes { old_cluster : gmap Pubkey RpcContactInfo; nodes_backoff : IncrementalBackoff }.
Definition parse_nodes (nodes : list RpcContactInfo) : gmap Pubkey RpcContactInfo :=
  collect (omap (λ info, (λ pubkey, (pubkey, info)) <$> pubkey_from_str (pubkey info)) nodes).
Definition nodes_reply (backoff : IncrementalBackoff) (reply : list RpcContactInfo + ErrorKind) (t : NodesTask) (inner : ClusterTpuInfoInner)
    : NodesTask * ClusterTpuInfoInner :=
  match reply with
  | inl nodes =>
      let backoff := reset backoff in
      let nodes := parse_nodes nodes in
      if decide (old_cluster t ≠ nodes) then (mk_nodes nodes backoff, inner <| cluster_nodes := nodes |>)
      else (mk_nodes (old_cluster t) backoff, inner)
  | inr _ => (mk_nodes (old_cluster t) (init backoff), inner)
  end.

(** ** [update_latest_slot_and_leader_schedule]

    Its receiver's buffer, and whether it is fetching a schedule. *)
Record SlotsTask := mk_slots {
  slots_rx : list SlotUpdateWithStatus; max_slot : N; fetching : bool; schedule_backoff : IncrementalBackoff
}.
#[export] Instance Slots_settable : Settable SlotsTask := λ r,
  mk_slots (slots_rx r) (max_slot r) (fetching r) (schedule_backoff r).

Definition is_relevant (u : SlotUpdateWithStatus) : bool :=
  match slot_status u with SlotConfirmed | SlotFinalized => false | _ => true end.
(** The highest slot among the updates drained after the first. *)
Definition drain_max (new_latest_slot : N) (drained : list SlotUpdateWithStatus) : N :=
  foldl (λ m u, if is_relevant u then N.max m (update_slot u) else m) new_latest_slot drained.

(** [recv], then [drained] updates more with [try_recv], which stops at an empty
    buffer or at an error. *)
Definition on_recv (drained : nat) (t : SlotsTask) (inner : ClusterTpuInfoInner) : SlotsTask * ClusterTpuInfoInner :=
  match slots_rx t with
  | [] => (t, inner)
  | u :: rest =>
      if negb (is_relevant u) then (t <| slots_rx := rest |>, inner)
      else
        let new_latest_slot := drain_max (update_slot u) (take drained rest) in
        let t := t <| slots_rx := drop drained rest |> in
        if (new_latest_slot <=? max_slot t)%N then (t, inner)
        else
          let t := t <| max_slot := N.max (max_slot t) new_latest_slot |> in
          let inner := inner <| latest_seen_slot := max_slot t |> in
          if decide (is_Some (leader_schedule inner !! max_slot t)) then (t, inner)
          else (t <| schedule_backoff ::= reset |> <| fetching := true |>, inner)
  end.

(** [RpcLeaderSchedule]: the slot indices of each identity. *)
Definition RpcLeaderSchedule : Type := gmap string (list N).
(** The insertions of an answer, in the order of the map. *)
Definition schedule_entries (epoch_start_slot : N) (leader_schedule : RpcLeaderSchedule) : list (N * Pubkey) :=
  '(pubkey_str, slot_indices) ← map_iter leader_schedule;
  match pubkey_from_str pubkey_str with
  | Some pubkey => (λ slot_index, (u64_add epoch_start_slot slot_index, pubkey)) <$> slot_indices
  | None => []
  end.
Definition retained (max_slot : N) (m : gmap N Pubkey) : gmap N Pubkey :=
  filter (λ p, (max_slot < u64_add p.1 LEADER_SCHEDULE_RETENTION_SLOTS)%N) m.
Definition update_schedule (max_slot : N) (reply : RpcLeaderSchedule) (m : gmap N Pubkey) : gmap N Pubkey :=
  foldl (λ m p, <[p.1 := p.2]> m) (retained max_slot m)
    (schedule_entries (get_first_slot_in_epoch (get_epoch max_slot)) reply).
Definition schedule_reply (backoff : IncrementalBackoff) (reply : option RpcLeaderSchedule + ErrorKind) (t : SlotsTask) (inner : ClusterTpuInfoInner)
    : SlotsTask * ClusterTpuInfoInner :=
  match reply with
  | inl (Some leader_schedule) =>
      (t <| schedule_backoff := backoff |> <| fetching := false |>, inner <| ClusterTpu.leader_schedule ::= update_schedule (max_slot t) leader_schedule |>)
  | inl None | inr _ => (t <| schedule_backoff := init backoff |>, inner)
  end.

(** ** Both tasks over the shared record

    [ClusterTpuInfo::new] runs them in one [select!]: the end of either ends
    both. A closed or lagging receiver ends the slots task; a panicking backoff
    ends everything. *)
Record ClusterTpuInfo := mk_cluster {
  inner : ClusterTpuInfoInner; nodes_task : NodesTask; slots_task : SlotsTask; running : bool
}.
Inductive Event :=
  | Publish (u : SlotUpdateWithStatus)
  | Recv (drained : nat)
  | RecvError
  | ScheduleReply (reply : option RpcLeaderSchedule + ErrorKind)
  | NodesReply (reply : list RpcContactInfo + ErrorKind)
  | Cancelled.
Definition step (c : ClusterTpuInfo) (e : Event) : ClusterTpuInfo :=
  let slots f := let '(t, i) := f (slots_task c) (inner c) in mk_cluster i (nodes_task c) t (running c) in
  if negb (running c) then c
  else match e with
       | Publish u => mk_cluster (inner c) (nodes_task c) ((slots_task c) <| slots_rx ::= λ l, l ++ [u] |>) (running c)
       | Recv drained => if fetching (slots_task c) then c else slots (on_recv drained)
       | RecvError => if fetching (slots_task c) then c else mk_cluster (inner c) (nodes_task c) (slots_task c) false
       | ScheduleReply reply =>
           if fetching (slots_task c) then
             match maybe_tick (schedule_backoff (slots_task c)) with
             | Some (_, backoff) => slots (schedule_reply backoff reply)
             | None => mk_cluster (inner c) (nodes_task c) (slots_task c) false
             end
           else c
       | NodesReply reply =>
           match maybe_tick (nodes_backoff (nodes_task c)) with
           | Some (_, backoff) =>
               let '(t, i) := nodes_reply backoff reply (nodes_task c) (inner c) in mk_cluster i t (slots_task c) (running c)
           | None => mk_cluster (inner c) (nodes_task c) (slots_task c) false
           end
       | Cancelled => mk_cluster (inner c) (nodes_task c) (slots_task c) false
       end.
Definition start : ClusterTpuInfo :=
  mk_cluster default_inner (mk_nodes ∅ default_backoff) (mk_slots [] 0 false default_backoff) true.
Definition run (l : list Event) : ClusterTpuInfo := foldl step start l.

(** [ClusterTpuInfoInner::get_epoch_schedule]: the delays slept before each try,
    up to the first answer. *)
Fixpoint get_epoch_schedule {A} (backoff : IncrementalBackoff) (replies : list (A + ErrorKind)) : list (option Duration) * option A :=
  match replies with
  | [] => ([], None)
  | reply :: replies =>
      match maybe_tick backoff with
      | None => ([], None)
      | Some (delay, backoff) =>
          match reply with
          | inl epoch_schedule => ([delay], Some epoch_schedule)
          | inr _ => let '(l, r) := get_epoch_schedule (init backoff) replies in (delay :: l, r)
          end
      end
  end.

(** ** The shared record follows its inputs *)
Definition published (l : list Event) : list SlotUpdateWithStatus := omap (λ e, match e with Publish u => Some u | _ => None end) l.
Definition nodes_answers (l : list Event) : list (list RpcContactInfo) :=
  omap (λ e, match e with NodesReply (inl nodes) => Some nodes | _ => None end) l.
Definition highest (l : list SlotUpdateWithStatus) : N :=
  foldr N.max 0%N (update_slot <$> filter (λ u, is_relevant u = true) l).
(** The schedule entry [(s, p)] was in an answer for the epoch of a slot seen. *)
Definition answered (l : list Event) (s : N) (p : Pubkey) : Prop := ∃ m reply,
  ScheduleReply (inl (Some reply)) ∈ l ∧ (m ≤ highest (published l))%N ∧
  (s, p) ∈ schedule_entries (get_first_slot_in_epoch (get_epoch m)) reply.

Lemma highest_app l k : highest (l ++ k) = N.max (highest l) (highest k).
Proof.
  unfold highest. rewrite filter_app, fmap_app. induction (update_slot <$> filter _ l) as [|x xs IH]; cbn; lia.
Qed.

Lemma drain_max_eq n l : drain_max n l = N.max n (highest l).
Proof.
  unfold drain_max, highest. revert n. induction l as [|u l IH]; intros n; cbn [foldl]; [cbn; lia|].
  rewrite IH, filter_cons. destruct (is_relevant u) eqn:E.
  - rewrite decide_True by done. cbn. lia.
  - by rewrite decide_False.
Qed.

Lemma lookup_update_schedule max_slot reply m s p :
  update_schedule max_slot reply m !! s = Some p →
  (s, p) ∈ schedule_entries (get_first_slot_in_epoch (get_epoch max_slot)) reply ∨
  m !! s = Some p ∧ (max_slot < u64_add s LEADER_SCHEDULE_RETENTION_SLOTS)%N.
Proof.
  unfold update_schedule. induction (schedule_entries _ _) as [|[s' p'] l IH] using rev_ind.
  - cbn. intros [? ?]%map_lookup_filter_Some. by right.
  - rewrite foldl_app. cbn [foldl fst snd]. intros [[-> ->]|[Hne H]]%lookup_insert_Some; [set_solver|].
    destruct (IH H); [set_solver|by right].
Qed.

(** The invariant of a running history; [consumed] is what the slots task has read. *)
Record tracks (l : list Event) (consumed : list SlotUpdateWithStatus) (c : ClusterTpuInfo) : Prop := {
  tracks_published : published l = consumed ++ slots_rx (slots_task c);
  tracks_max : max_slot (slots_task c) = highest consumed;
  tracks_latest : latest_seen_slot (inner c) = max_slot (slots_task c);
  tracks_nodes : cluster_nodes (inner c) = default ∅ (parse_nodes <$> last (nodes_answers l));
  tracks_old : old_cluster (nodes_task c) = cluster_nodes (inner c);
  tracks_schedule : ∀ s p, leader_schedule (inner c) !! s = Some p → answered l s p
}.

Lemma highest_cons u l : highest (u :: l) = if is_relevant u then N.max (update_slot u) (highest l) else highest l.
Proof.
  unfold highest. rewrite filter_cons. destruct (is_relevant u) eqn:E; [by rewrite decide_True|by rewrite decide_False].
Qed.

(** An event that brings no input of its own only extends the history. *)
Lemma tracks_extend l consumed c e : published [e] = [] → nodes_answers [e] = [] →
  tracks l consumed c → tracks (l ++ [e]) consumed c.
Proof.
  intros Hp Hn [H1 H2 H3 H4 H5 H6].
  assert (published (l ++ [e]) = published l) as Hpub by (unfold published in *; by rewrite omap_app, Hp, app_nil_r).
  assert (nodes_answers (l ++ [e]) = nodes_answers l) as Hans by (unfold nodes_answers in *; by rewrite omap_app, Hn, app_nil_r).
  split; rewrite ?Hpub, ?Hans; try done.
  intros s p (m & r & ? & ? & ?)%H6. exists m, r. rewrite Hpub. split_and!; [set_solver|done|done].
Qed.

Lemma tracks_recv l consumed c k : tracks l consumed c →
  let '(t, i) := on_recv k (slots_task c) (inner c) in ∃ consumed', tracks l consumed' (mk_cluster i (nodes_task c) t (running c)).
Proof.
  intros [H1 H2 H3 H4 H5 H6]. unfold on_recv.
  destruct (slots_rx (slots_task c)) as [|u rest] eqn:Erx.
  { exists consumed. split; cbn [slots_task inner nodes_task]; by rewrite ?Erx. }
  destruct (is_relevant u) eqn:Eu; cbn [negb].
  2:{ exists (consumed ++ [u]). split; cbn [slots_task inner nodes_task]; upd_simpl; try done.
      - by rewrite H1, <-app_assoc.
      - rewrite highest_app, highest_cons, Eu, H2. cbn. lia. }
  assert (published l = (consumed ++ u :: take k rest) ++ drop k rest) as Hcons.
  { by rewrite H1, <-app_assoc; cbn; rewrite take_drop. }
  assert (highest (consumed ++ u :: take k rest) = N.max (max_slot (slots_task c)) (drain_max (update_slot u) (take k rest))) as Hmax.
  { by rewrite highest_app, drain_max_eq, H2, highest_cons, Eu. }
  upd_simpl. destruct (N.leb_spec (drain_max (update_slot u) (take k rest)) (max_slot (slots_task c))).
  { exists (consumed ++ u :: take k rest). split; cbn [slots_task inner nodes_task]; upd_simpl; rewrite ?Hmax; try done. lia. }
  case_decide; exists (consumed ++ u :: take k rest); split; cbn [slots_task inner nodes_task]; upd_simpl; by rewrite ?Hmax.
Qed.

Lemma tracks_schedule_reply l consumed c b reply : tracks l consumed c → ScheduleReply reply ∈ l →
  let '(t, i) := schedule_reply b reply (slots_task c) (inner c) in tracks l consumed (mk_cluster i (nodes_task c) t (running c)).
Proof.
  intros [H1 H2 H3 H4 H5 H6] Hin.
  destruct reply as [[schedule|]|e]; cbn [schedule_reply]; split; cbn [slots_task inner nodes_task]; upd_simpl; try done.
  intros s p [?|[? _]]%lookup_update_schedule; [|by apply H6].
  exists (max_slot (slots_task c)), schedule. split_and!; [done| |done].
  rewrite H2, H1, highest_app. lia.
Qed.

Lemma tracks_nodes_reply l consumed c b reply : tracks l consumed c →
  let '(t, i) := nodes_reply b reply (nodes_task c) (inner c) in
  tracks (l ++ [NodesReply reply]) consumed (mk_cluster i t (slots_task c) (running c)).
Proof.
  intros T. destruct reply as [nodes|e]; cbn [nodes_reply].
  - destruct T as [H1 H2 H3 H4 H5 H6].
    assert (published (l ++ [NodesReply (inl nodes)]) = published l) as Hpub by (unfold published; rewrite omap_app; apply app_nil_r).
    assert (last (nodes_answers (l ++ [NodesReply (inl nodes)])) = Some nodes) as Hn
      by (unfold nodes_answers; rewrite omap_app; apply last_snoc).
    assert (∀ s p, leader_schedule (inner c) !! s = Some p → answered (l ++ [NodesReply (inl nodes)]) s p) as Hs.
    { intros s p (m & r & ? & ? & ?)%H6. exists m, r. rewrite Hpub. split_and!; [set_solver|done|done]. }
    destruct (decide (old_cluster (nodes_task c) ≠ parse_nodes nodes)) as [Hd|Hd%dec_stable];
      split; cbn [slots_task inner nodes_task old_cluster]; upd_simpl; rewrite ?Hpub, ?Hn; try done.
    cbn. congruence.
  - by apply (tracks_extend l consumed c (NodesReply (inr e)) eq_refl eq_refl) in T as [H1 H2 H3 H4 H5 H6].
Qed.

Lemma run_tracks l : running (run l) = true → ∃ consumed, tracks l consumed (run l).
Proof.
  unfold run. induction l as [|e l IH] using rev_ind.
  { exists []. by split. }
  rewrite foldl_app. cbn [foldl]. set (c := foldl step start l) in *. unfold step. destruct (running c) eqn:Hr; cbn [negb]; [|congruence].
  destruct (IH eq_refl) as [consumed T]. destruct e as [u|k| |reply|reply|]; [..|done].
  - intros _. exists consumed. destruct T as [H1 H2 H3 H4 H5 H6].
    assert (published (l ++ [Publish u]) = published l ++ [u]) as Hpub by (unfold published; by rewrite omap_app).
    assert (nodes_answers (l ++ [Publish u]) = nodes_answers l) as Hn by (unfold nodes_answers; rewrite omap_app; apply app_nil_r).
    split; cbn [slots_task inner nodes_task]; upd_simpl; rewrite ?Hpub, ?Hn; try done.
    + by rewrite H1, app_assoc.
    + intros s p (m & r & ? & ? & ?)%H6. exists m, r. rewrite Hpub, highest_app. split_and!; [set_solver|lia|done].
  - intros _. apply (tracks_extend l consumed c (Recv k) eq_refl eq_refl) in T.
    destruct (fetching (slots_task c)); [by exists consumed|].
    pose proof (tracks_recv _ _ _ k T) as Ht. rewrite Hr in Ht. by destruct (on_recv _ _ _).
  - destruct (fetching (slots_task c)); [|done]. intros _. exists consumed.
    by apply (tracks_extend l consumed c RecvError eq_refl eq_refl).
  - intros _. exists consumed. apply (tracks_extend l consumed c (ScheduleReply reply) eq_refl eq_refl) in T.
    destruct (fetching (slots_task c)); [|done]. destruct (maybe_tick _) as [[d b]|]; [|by destruct T].
    pose proof (tracks_schedule_reply _ _ _ b reply T ltac:(set_solver)) as Ht. rewrite Hr in Ht. by destruct (schedule_reply _ _ _ _).
  - destruct (maybe_tick _) as [[d b]|]; [|done]. intros _. exists consumed.
    pose proof (tracks_nodes_reply _ _ _ b reply T) as Ht. rewrite Hr in Ht. by destruct (nodes_reply _ _ _ _).
Qed.

(** Through every interleaving of slot updates, schedule replies and node replies, while
    its tasks run, the cluster information has the highest slot consumed of the stream, the
    nodes of the last answer, and only schedule entries that an answer gave for the epoch
    of a slot seen. *)
Theorem cluster_info_follows_its_inputs l (Hrunning : running (run l) = true) : ∃ consumed,
  published l = consumed ++ slots_rx (slots_task (run l)) ∧
  latest_seen_slot (inner (run l)) = highest consumed ∧
  cluster_nodes (inner (run l)) = default ∅ (parse_nodes <$> last (nodes_answers l)) ∧
  ∀ s p, leader_schedule (inner (run l)) !! s = Some p → answered l s p.
Proof.
  destruct (run_tracks l Hrunning) as [consumed [H1 H2 H3 H4 _ H6]]. exists consumed. split_and!; [done| |done|done].
  by rewrite H3.
Qed.

(** ** The windows ahead *)
Lemma window_slot_small inner i n : (i ≤ n) → (latest_seen_slot inner + 4 * (N.of_nat n + 1) < u64_modulus)%N →
  window_slot inner i = (latest_seen_slot inner + 4 * N.of_nat i)%N.
Proof.
  intros Hi Hs. unfold window_slot, NUM_CONSECUTIVE_LEADER_SLOTS. rewrite u64_mul_small, u64_add_small; lia.
Qed.

(** The four slots around a slot of a known leader. *)
Lemma get_tpu_info_spec `{!EpochScheduleLaws} inner s t : (s + 4 < u64_modulus)%N → get_tpu_info inner s = Some t →
  leader_schedule inner !! s = Some (leader t) ∧ s ∈ slots t ∧
  quic t = get_quic_tpu_socket_addr inner (leader t) ∧ quic_forwards t = get_quic_tpu_fwd_socket_addr inner (leader t).
Proof.
  intros Hs. unfold get_tpu_info. destruct (leader_schedule inner !! s) as [p|]; [|done]. cbn [mbind option_bind].
  destruct (cluster_nodes inner !! p) as [c|] eqn:Ec; [|done]. cbn [mbind option_bind].
  destruct (get_epoch_and_slot_index s) as [e x] eqn:Ee. apply slot_of_index in Ee. intros [= <-]. cbn.
  rewrite Ec. split_and!; [done| |done|done].
  unfold NUM_CONSECUTIVE_LEADER_SLOTS. pose proof (N.mod_lt x 4 ltac:(done)) as Hr. pose proof (N.Div0.mod_le x 4) as Hx.
  rewrite (u64_add_small (get_first_slot_in_epoch e) x), Ee by lia. revert Hr Hx. generalize (x `mod` 4)%N as r. intros r Hr Hx.
  rewrite u64_sub_small by lia. rewrite !u64_add_small by lia.
  assert (s = s - r ∨ s = s - r + 1 ∨ s = s - r + 2 ∨ s = s - r + 3)%N by lia. set_solver.
Qed.

Lemma lookahead_eq inner n : leader_lookahead inner n = leader <$> get_leader_tpus inner n.
Proof. done. Qed.

(** The TPUs looked up for a look-ahead are those of the leaders of the current slot and of
    every fourth slot after it, each with the addresses its node published and the slot it
    was found at, and no leader of a known node is left out. *)
Theorem leader_tpus_cover_the_windows `{!EpochScheduleLaws} inner n
    (Hsmall : (latest_seen_slot inner + 4 * (N.of_nat n + 1) < u64_modulus)%N) :
  let slot i := (latest_seen_slot inner + 4 * N.of_nat i)%N in
  (∀ t, t ∈ get_leader_tpus inner n → ∃ i, i ≤ n ∧
     leader_schedule inner !! slot i = Some (leader t) ∧ slot i ∈ slots t ∧
     quic t = get_quic_tpu_socket_addr inner (leader t) ∧ quic_forwards t = get_quic_tpu_fwd_socket_addr inner (leader t)) ∧
  (∀ i p, i ≤ n → leader_schedule inner !! slot i = Some p → is_Some (cluster_nodes inner !! p) → p ∈ leader_lookahead inner n) ∧
  length (leader_lookahead inner n) ≤ S n.
Proof.
  cbn zeta. rewrite lookahead_eq. unfold get_leader_tpus. split_and!.
  - intros t (i & Hi & Ht)%list_elem_of_omap. apply elem_of_seq in Hi. rewrite (window_slot_small _ i n) in Ht by lia.
    exists i. split; [lia|]. apply get_tpu_info_spec; [lia|done].
  - intros i p Hi Hp [c Hc]. apply list_elem_of_fmap.
    assert (∃ t, get_tpu_info inner (window_slot inner i) = Some t ∧ leader t = p) as (t & Ht & <-).
    { rewrite (window_slot_small _ i n) by lia. unfold get_tpu_info. rewrite Hp. cbn [mbind option_bind]. rewrite Hc. cbn [mbind option_bind].
      destruct (get_epoch_and_slot_index _). by eexists. }
    exists t. split; [done|]. apply list_elem_of_omap. exists i. split; [apply elem_of_seq; lia|done].
  - rewrite length_fmap. etrans; [apply length_omap_le|]. by rewrite length_seq.
Qed.

(** With a known leader in every window, asking for [n] gives [n + 1]. *)
Theorem lookahead_is_one_longer inner n
    (Hknown : ∀ i, i ≤ n → is_Some (get_tpu_info inner (window_slot inner i))) :
  length (leader_lookahead inner n) = S n.
Proof.
  rewrite lookahead_eq, length_fmap. unfold get_leader_tpus. rewrite length_omap_is_Some; [apply length_seq|].
  apply Forall_forall. intros i Hi. apply elem_of_seq in Hi. apply Hknown. lia.
Qed.
End ClusterTpu.

(** ** Concrete runs: epochs of 32 slots, two leaders *)
Section Demo.
#[local] Instance demo_iter : HashIter := elements_iter.
#[local] Instance demo_status : HttpStatus :=
  {| StatusCode := N; is_server_error := λ s, (500 <=? s)%N && (s <? 600)%N; is_too_many_requests := N.eqb 429 |}.
#[local] Instance demo_parse : PubkeyFromStr := λ s,
  if String.eqb s "a" then Some 1%N else if String.eqb s "b" then Some 2%N else None.
#[local] Instance demo_epochs : EpochSchedule :=
  {| get_epoch := λ s, (s / 32)%N; get_epoch_and_slot_index := λ s, (s / 32, s `mod` 32)%N;
     get_first_slot_in_epoch := λ e, (32 * e)%N |}.
#[local] Instance demo_epochs_laws : EpochScheduleLaws.
Proof. intros s e x [= <- <-]. cbn. symmetry. apply N.Div0.div_mod. Qed.

Definition demo_reply : RpcLeaderSchedule := {[ "a" := [0; 1; 2; 3]%N; "b" := [4; 5; 6; 7]%N ]}.
(** A confirmed slot is ignored; slot 34 asks for the schedule of the second epoch. *)
Definition demo_events : list Event :=
  [NodesReply (inl [mk_contact "a" (Some 11%N) None 0; mk_contact "b" (Some 22%N) (Some 23%N) 0]);
   Publish (mk_update 50 SlotConfirmed); Publish (mk_update 34 SlotProcessed); Publish (mk_update 33 SlotProcessed);
   Recv 0; Recv 5; ScheduleReply (inl None); ScheduleReply (inl (Some demo_reply))].
Definition demo_inner : ClusterTpuInfoInner := inner (run demo_events).

Lemma cluster_info_follows_its_inputs_witness : ∃ consumed,
  published demo_events = consumed ++ slots_rx (slots_task (run demo_events)) ∧
  latest_seen_slot demo_inner = highest consumed ∧ latest_seen_slot demo_inner = 34%N.
Proof.
  destruct (cluster_info_follows_its_inputs demo_events) as (consumed & H1 & H2 & _); [vm_compute; reflexivity|].
  exists consumed. split; [exact H1|]. split; [exact H2|vm_compute; reflexivity].
Defined.

Lemma leader_tpus_cover_the_windows_witness :
  leader_lookahead demo_inner 1 = [1%N; 2%N] ∧
  ∃ i, i ≤ 1 ∧ leader_schedule demo_inner !! (latest_seen_slot demo_inner + 4 * N.of_nat i)%N = Some 2%N.
Proof.
  split; [vm_compute; reflexivity|].
  assert (mk_tpu 2 [36; 37; 38; 39]%N (Some 22%N) (Some 23%N) ∈ get_leader_tpus demo_inner 1) as Hin by (vm_compute; right; left).
  destruct (proj1 (leader_tpus_cover_the_windows demo_inner 1 eq_refl) _ Hin) as (i & Hi & Hl & _).
  exists i. split; [exact Hi|exact Hl].
Defined.

(** A fan-out of one reaches two leaders. *)
Example fanout_of_one_asks_for_two : leader_lookahead demo_inner 1 = [1%N; 2%N].
Proof. vm_compute. reflexivity. Qed.

(** The last window of an epoch has no successor until the next epoch starts. *)
Example the_next_epoch_is_not_looked_ahead :
  leader_lookahead (demo_inner <| latest_seen_slot := 38%N |>) 1 = [2%N].
Proof. vm_compute. reflexivity. Qed.

(** A lagging receiver ends both tasks. *)
Example a_lagging_receiver_stops_everything l : run ([RecvError] ++ l) = run [RecvError].
Proof. unfold run. rewrite foldl_app. by apply foldl_stuck. Qed.
End Demo.
End ClusterTpu.
