(* ===== verification/Payload.v ===== *)
(** The payloads exchanged with the gateway ([payload.rs] of [apps/jet/src]): a
    transaction with its configuration, in the legacy JSON format or in the
    structured one. *)
From S2P Require Import Prelude Types RpcRetry.
From Stdlib Require Import Strings.Byte.

(** [VersionedTransaction] and its [bincode] format, with errors as [None]. *)
Class TransactionCodec := {
  VersionedTransaction : Type;
  serialize : VersionedTransaction → option (list byte);
  deserialize : list byte → option VersionedTransaction
}.
(** [bs58], [base64] and [Pubkey::to_string]. *)
Class TextCodecs := {
  bs58_encode : list byte → string;
  bs58_decode : string → option (list byte);
  base64_encode : list byte → string;
  base64_decode : string → option (list byte);
  pubkey_to_string : Pubkey → string
}.

Module Payload.

Inductive UiTransactionEncoding := Binary | Base64 | Base58 | Json | JsonParsed.
#[export] Instance Encoding_eq_dec : EqDecision UiTransactionEncoding.
Proof. solve_decision. Defined.

(** [RpcSendTransactionConfig]; the commitment of the preflight is only copied. *)
Record RpcSendTransactionConfig := mk_rpc_config {
  skip_preflight : bool;
  preflight_commitment : option N;
  encoding : option UiTransactionEncoding;
  max_retries : option N;
  min_context_slot : option N
}.
Definition default_rpc_config : RpcSendTransactionConfig := mk_rpc_config false None None None None.
Record JetRpcSendTransactionConfig := mk_jet_config { config : RpcSendTransactionConfig; forwarding_policies : list Pubkey }.
Definition default_jet_config : JetRpcSendTransactionConfig := mk_jet_config default_rpc_config [].

Inductive PayloadError :=
  | EmptyPayload | LegacyDeserialize | Base58Decode | Base64Decode | UnsupportedEncoding
  | BincodeError | InvalidPubkey | ProtoConversionError.
Definition variant_name (e : PayloadError) : string :=
  match e with
  | EmptyPayload => "EmptyPayload"
  | LegacyDeserialize => "LegacyDeserialize"
  | Base58Decode => "Base58Decode"
  | Base64Decode => "Base64Decode"
  | UnsupportedEncoding => "UnsupportedEncoding"
  | BincodeError => "BincodeError"
  | InvalidPubkey => "InvalidPubkey"
  | ProtoConversionError => "ProtoConversionError"
  end.

Record LegacyPayload := mk_legacy { transaction : string; legacy_config : RpcSendTransactionConfig; timestamp : option N }.
(** The messages of [jet.proto]. *)
Record TransactionConfig := mk_proto_config {
  proto_max_retries : option N; proto_forwarding_policies : list string; proto_skip_preflight : bool
}.
Record TransactionWrapper := mk_wrapper {
  wrapper_transaction : list byte; wrapper_config : option TransactionConfig; wrapper_timestamp : option N
}.
Inductive ProtoPayload := PLegacyPayload (bytes : list byte) | PNewPayload (wrapper : TransactionWrapper).
Record SubscribeTransaction := mk_subscribe { subscribe_payload : option ProtoPayload }.
Record PublishTransaction := mk_publish { publish_payload : option ProtoPayload }.

Inductive TransactionPayload := Legacy (l : LegacyPayload) | New (w : TransactionWrapper).

(** [From<TransactionWrapper> + From<Vec<u8>>]. *)
Class ProtoMessage (T : Type) := { from_wrapper : TransactionWrapper → T; from_bytes : list byte → T }.
#[export] Instance publish_message : ProtoMessage PublishTransaction := {
  from_wrapper wrapper := mk_publish (Some (PNewPayload wrapper));
  from_bytes bytes := mk_publish (Some (PLegacyPayload bytes))
}.
#[export] Instance subscribe_message : ProtoMessage SubscribeTransaction := {
  from_wrapper wrapper := mk_subscribe (Some (PNewPayload wrapper));
  from_bytes bytes := mk_subscribe (Some (PLegacyPayload bytes))
}.

(** [serde_json] on a [LegacyPayload]. *)
Class LegacyJson := {
  json_to_vec : LegacyPayload → option (list byte);
  json_from_slice : list byte → option LegacyPayload
}.

Definition Result (A : Type) : Type := A + PayloadError.
Definition ok_or {A} (e : PayloadError) (o : option A) : Result A := match o with Some a => inl a | None => inr e end.
#[export] Instance Result_ret : MRet Result := λ A a, inl a.
#[export] Instance Result_bind : MBind Result := λ A B f r, match r with inl a => f a | inr e => inr e end.

Section Payload.
Context `{TC : TransactionCodec} `{TX : TextCodecs} `{LJ : LegacyJson} `{PF : PubkeyFromStr}.

(** [deserialize_forwarding_policies], also what [JetRpcSendTransactionConfig::new] does. *)
Definition deserialize_forwarding_policies (vec : list string) : list Pubkey := omap pubkey_from_str vec.
Definition new_jet_config (config : option RpcSendTransactionConfig) (forwarding_policies : option (list string)) : JetRpcSendTransactionConfig :=
  mk_jet_config (default default_rpc_config config) (omap pubkey_from_str (default [] forwarding_policies)).

Definition encode_transaction (tx : VersionedTransaction) (encoding : UiTransactionEncoding) : Result string :=
  tx_bytes ← ok_or BincodeError (serialize tx);
  match encoding with
  | Base58 => mret (bs58_encode tx_bytes)
  | Base64 => mret (base64_encode tx_bytes)
  | _ => inr UnsupportedEncoding
  end.
Definition decode_transaction (tx_string : string) (encoding : UiTransactionEncoding) : Result (list byte) :=
  match encoding with
  | Base58 => ok_or Base58Decode (bs58_decode tx_string)
  | Base64 => ok_or Base64Decode (base64_decode tx_string)
  | _ => inr UnsupportedEncoding
  end.

(** [now] is [ms_since_epoch()]. *)
Definition to_legacy (now : N) (tx : VersionedTransaction) (config_with_forwarding : JetRpcSendTransactionConfig) : Result TransactionPayload :=
  let encoding := default Base58 (encoding (config config_with_forwarding)) in
  match encoding with
  | Base64 | Base58 =>
      tx_str ← encode_transaction tx encoding;
      mret (Legacy (mk_legacy tx_str (config config_with_forwarding) (Some now)))
  | _ => inr UnsupportedEncoding
  end.

(** [usize as u32], and back. *)
Definition usize_as_u32 (r : N) : N := r `mod` 2 ^ 32.
Definition try_from_transaction (now : N) (tx : VersionedTransaction) (cfg : JetRpcSendTransactionConfig) : Result TransactionPayload :=
  match encoding (config cfg) with
  | Some (Binary | Json | JsonParsed) => inr UnsupportedEncoding
  | _ =>
      tx_bytes ← ok_or BincodeError (serialize tx);
      mret (New (mk_wrapper tx_bytes
        (Some (mk_proto_config (usize_as_u32 <$> max_retries (config cfg)) (pubkey_to_string <$> forwarding_policies cfg)
                 (skip_preflight (config cfg))))
        (Some now)))
  end.
Definition create (now : N) (tx : VersionedTransaction) (cfg : JetRpcSendTransactionConfig) (use_legacy : bool) : Result TransactionPayload :=
  if use_legacy then to_legacy now tx cfg else try_from_transaction now tx cfg.

Definition to_proto `{ProtoMessage T} (p : TransactionPayload) : Result T :=
  match p with
  | Legacy legacy => bytes ← ok_or LegacyDeserialize (json_to_vec legacy); mret (from_bytes bytes)
  | New wrapper => mret (from_wrapper wrapper)
  end.
Definition try_from_subscribe (tx : SubscribeTransaction) : Result TransactionPayload :=
  match subscribe_payload tx with
  | Some (PLegacyPayload bytes) => legacy ← ok_or LegacyDeserialize (json_from_slice bytes); mret (Legacy legacy)
  | Some (PNewPayload wrapper) => mret (New wrapper)
  | None => inr EmptyPayload
  end.
Definition try_from_result (result : Result SubscribeTransaction) : Result TransactionPayload :=
  match result with inl tx => try_from_subscribe tx | inr err => inr err end.

Definition jet_config_of_proto (c : TransactionConfig) : Result JetRpcSendTransactionConfig :=
  mret (new_jet_config (Some (mk_rpc_config (proto_skip_preflight c) None None (proto_max_retries c) None))
    (Some (proto_forwarding_policies c))).
Definition decode (payload : TransactionPayload) : Result (VersionedTransaction * option JetRpcSendTransactionConfig) :=
  match payload with
  | Legacy legacy =>
      let encoding := default Base58 (encoding (legacy_config legacy)) in
      tx_bytes ← decode_transaction (transaction legacy) encoding;
      tx ← ok_or BincodeError (deserialize tx_bytes);
      mret (tx, Some (new_jet_config (Some (legacy_config legacy)) None))
  | New wrapper =>
      tx ← ok_or BincodeError (deserialize (wrapper_transaction wrapper));
      match wrapper_config wrapper with
      | Some proto_config => config ← jet_config_of_proto proto_config; mret (tx, Some config)
      | None => mret (tx, None)
      end
  end.

(** ** From one end to the other *)

(** What the receiver gets of what the sender was given. *)
Definition transmit (now : N) (tx : VersionedTransaction) (cfg : JetRpcSendTransactionConfig) (use_legacy : bool)
    : Result (VersionedTransaction * option JetRpcSendTransactionConfig) :=
  payload ← create now tx cfg use_legacy;
  message ← to_proto (T := SubscribeTransaction) payload;
  payload ← try_from_subscribe message;
  decode payload.
(** The part of the configuration that each format carries. *)
Definition carried (cfg : JetRpcSendTransactionConfig) (use_legacy : bool) : JetRpcSendTransactionConfig :=
  if use_legacy then mk_jet_config (config cfg) []
  else mk_jet_config (mk_rpc_config (skip_preflight (config cfg)) None None (usize_as_u32 <$> max_retries (config cfg)) None)
         (forwarding_policies cfg).
Definition supported (e : option UiTransactionEncoding) : bool :=
  match e with Some (Binary | Json | JsonParsed) => false | _ => true end.
End Payload.

(** Each decoder inverts its encoder. *)
Class CodecLaws `{TC : TransactionCodec} `{TX : TextCodecs} `{LJ : LegacyJson} `{PF : PubkeyFromStr} : Prop := {
  deserialize_serialize : ∀ tx b, serialize tx = Some b → deserialize b = Some tx;
  bs58_roundtrip : ∀ b, bs58_decode (bs58_encode b) = Some b;
  base64_roundtrip : ∀ b, base64_decode (base64_encode b) = Some b;
  pubkey_roundtrip : ∀ k, pubkey_from_str (pubkey_to_string k) = Some k;
  json_roundtrip : ∀ l b, json_to_vec l = Some b → json_from_slice b = Some l
}.

Section Laws.
Context `{CL : CodecLaws}.

Lemma policies_roundtrip (l : list Pubkey) : omap pubkey_from_str (pubkey_to_string <$> l) = l.
Proof. induction l as [|k l IH]; [done|]. cbn. rewrite pubkey_roundtrip. by f_equal. Qed.

Lemma decode_encode tx e s b : encode_transaction tx e = inl s → serialize tx = Some b → decode_transaction s e = inl b.
Proof.
  intros He Hb. unfold encode_transaction in He. rewrite Hb in He. unfold decode_transaction.
  destruct e; cbn in He; try done; injection He as <-; by rewrite ?bs58_roundtrip, ?base64_roundtrip.
Qed.

Lemma encode_supported tx e : supported (Some e) = true →
  encode_transaction tx e = match serialize tx with Some b => inl (if decide (e = Base58) then bs58_encode b else base64_encode b) | None => inr BincodeError end.
Proof. unfold encode_transaction. by destruct e, (serialize tx). Qed.

(** A payload is made exactly when the encoding is supported and the transaction
    serializes. *)
Lemma create_spec now tx cfg use_legacy :
  match create now tx cfg use_legacy with
  | inl _ => supported (encoding (config cfg)) = true ∧ is_Some (serialize tx)
  | inr UnsupportedEncoding => supported (encoding (config cfg)) = false
  | inr BincodeError => supported (encoding (config cfg)) = true ∧ serialize tx = None
  | inr _ => False
  end.
Proof.
  unfold create, to_legacy, try_from_transaction, encode_transaction.
  destruct use_legacy, (encoding (config cfg)) as [[]|], (serialize tx); cbn; eauto.
Qed.

(** What a payload turns into on the other side. *)
Lemma decode_message now tx cfg use_legacy payload (message : SubscribeTransaction) :
  create now tx cfg use_legacy = inl payload → to_proto payload = inl message →
  (try_from_subscribe message ≫= decode) = inl (tx, Some (carried cfg use_legacy)).
Proof.
  intros Hc. pose proof (create_spec now tx cfg use_legacy) as Hs. rewrite Hc in Hs. destruct Hs as [Hs [b Eb]].
  unfold create in Hc. destruct use_legacy.
  - unfold to_legacy in Hc. set (e := default Base58 (encoding (config cfg))) in Hc.
    assert (supported (Some e) = true) as He by (subst e; by destruct (encoding (config cfg))).
    assert (∀ (A : Type) (x y : A), match e with Base64 | Base58 => x | _ => y end = x) as Hm by (intros; by destruct e).
    rewrite Hm in Hc. rewrite (encode_supported tx e He), Eb in Hc. cbn in Hc. injection Hc as <-.
    cbn. destruct (json_to_vec _) as [j|] eqn:Ej; cbn; [|done]. intros [= <-]. apply json_roundtrip in Ej. cbn. rewrite Ej. cbn. fold e.
    erewrite (decode_encode tx e) by (rewrite ?encode_supported, ?Eb; done). cbn. by rewrite (deserialize_serialize tx b Eb).
  - unfold try_from_transaction in Hc.
    assert (∀ (A : Type) (x y : A), match encoding (config cfg) with Some (Binary | Json | JsonParsed) => x | _ => y end = y) as Hm
      by (intros; by destruct (encoding (config cfg)) as [[]|]).
    rewrite Hm, Eb in Hc. cbn in Hc. injection Hc as <-. intros [= <-]. cbn. rewrite (deserialize_serialize tx b Eb). cbn.
    unfold new_jet_config, carried. cbn. by rewrite policies_roundtrip.
Qed.

(** C32: A transaction put into a payload, sent as a protobuf message in the new or the
    legacy format and decoded on the other side is the same transaction with the part of
    its configuration that the format carries; each error has the one cause it names. *)
Theorem payloads_roundtrip now tx cfg use_legacy :
  match transmit now tx cfg use_legacy with
  | inl r => r = (tx, Some (carried cfg use_legacy)) ∧ supported (encoding (config cfg)) = true ∧ is_Some (serialize tx)
  | inr UnsupportedEncoding => supported (encoding (config cfg)) = false
  | inr BincodeError => supported (encoding (config cfg)) = true ∧ serialize tx = None
  | inr LegacyDeserialize => use_legacy = true ∧ supported (encoding (config cfg)) = true ∧ ∃ l, json_to_vec l = None
  | inr _ => False
  end.
Proof.
  unfold transmit. pose proof (create_spec now tx cfg use_legacy) as Hs.
  destruct (create now tx cfg use_legacy) as [payload|e] eqn:Ec; [|by destruct e]. cbn [mbind Result_bind].
  destruct (to_proto payload) as [message|e] eqn:Ep.
  - cbn [mbind Result_bind]. pose proof (decode_message _ _ _ _ _ _ Ec Ep) as Hd. unfold mbind, Result_bind in Hd |- *. rewrite Hd. tauto.
  - cbn [mbind Result_bind]. destruct payload as [legacy|wrapper]; [|done]. cbn in Ep.
    destruct (json_to_vec legacy) as [j|] eqn:Ej; [done|]. cbn in Ep. injection Ep as <-. split_and!; [|tauto|eauto].
    destruct use_legacy; [done|]. unfold create, try_from_transaction in Ec.
    destruct (encoding (config cfg)) as [[]|], (serialize tx); discriminate.
Qed.
End Laws.

(** ** Concrete codecs *)
Section Demo.
#[local] Instance demo_codec : TransactionCodec := {| VersionedTransaction := list byte; serialize := Some; deserialize := Some |}.
#[local] Instance demo_text : TextCodecs := {|
  bs58_encode := String.string_of_list_byte; bs58_decode := λ s, Some (String.list_byte_of_string s);
  base64_encode := String.string_of_list_byte; base64_decode := λ s, Some (String.list_byte_of_string s);
  pubkey_to_string := λ k, String.string_of_list_byte (replicate (N.to_nat k) x61) |}.
#[local] Instance demo_parse : PubkeyFromStr := λ s, Some (N.of_nat (String.length s)).
Definition demo_config : JetRpcSendTransactionConfig := mk_jet_config (mk_rpc_config true None None (Some (2 ^ 32 + 3)%N) (Some 9%N)) [4%N; 2%N].
Definition demo_tx : @VersionedTransaction demo_codec := [x01; x02].
(** A JSON format for the one legacy payload of the example. *)
Definition demo_legacy : LegacyPayload := mk_legacy (String.string_of_list_byte demo_tx) (config demo_config) (Some 77%N).
#[export] Instance rpc_config_eq_dec : EqDecision RpcSendTransactionConfig.
Proof. solve_decision. Defined.
#[export] Instance legacy_eq_dec : EqDecision LegacyPayload.
Proof. solve_decision. Defined.
#[local] Instance demo_json : LegacyJson := {|
  json_to_vec := λ l, if decide (l = demo_legacy) then Some [x7b] else None;
  json_from_slice := λ b, if decide (b = [x7b]) then Some demo_legacy else None |}.

Lemma string_of_bytes_length n : String.length (String.string_of_list_byte (replicate n x61)) = n.
Proof. induction n as [|n IH]; [done|]. cbn. by f_equal. Qed.

#[local] Instance demo_laws : CodecLaws.
Proof.
  split.
  - by intros tx b [= ->].
  - intros b. change (Some (String.list_byte_of_string (String.string_of_list_byte b)) = Some b). by rewrite String.list_byte_of_string_of_list_byte.
  - intros b. change (Some (String.list_byte_of_string (String.string_of_list_byte b)) = Some b). by rewrite String.list_byte_of_string_of_list_byte.
  - intros k. change (Some (N.of_nat (String.length (String.string_of_list_byte (replicate (N.to_nat k) x61)))) = Some k). by rewrite string_of_bytes_length, N2Nat.id.
  - intros l b. cbn. case_decide; [|done]. by intros [= <-]; subst.
Qed.

(** Both formats; the new one loses the context slot and truncates the retries. *)
Lemma payloads_roundtrip_witness :
  transmit 77 demo_tx demo_config true = inl (demo_tx, Some (mk_jet_config (config demo_config) [])) ∧
  transmit 77 demo_tx demo_config false =
    inl (demo_tx, Some (mk_jet_config (mk_rpc_config true None None (Some 3%N) None) [4%N; 2%N])).
Proof.
  pose proof (payloads_roundtrip 77 demo_tx demo_config true) as H1.
  pose proof (payloads_roundtrip 77 demo_tx demo_config false) as H2.
  destruct (transmit 77 demo_tx demo_config true) as [r1|[]] eqn:E1; [|discriminate E1..].
  destruct (transmit 77 demo_tx demo_config false) as [r2|[]] eqn:E2; [|discriminate E2..].
  destruct H1 as [-> _]. destruct H2 as [-> _]. split; reflexivity.
Defined.
End Demo.
End Payload.
