(* ===== verification/Text.v ===== *)
(** The operations of Rust's [str] that the intake uses, on UTF-8 bytes:
    [String::from_utf8], [trim], [split(',')], [starts_with] and
    [parse::<usize>]. *)
From S2P Require Import Prelude Types.
From Stdlib Require Import Strings.Byte.

Module Text.
Abbreviation bytes := (list byte).
Definition byte_N (b : byte) : N := to_N b.
Definition in_range (lo hi : N) (b : byte) : bool := (lo <=? byte_N b)%N && (byte_N b <=? hi)%N.
Definition is_cont : byte → bool := in_range 128 191.

(** ** Well-formed UTF-8

    The length of the character at the head, with its leading constraints: no
    overlong form, no surrogate, nothing past U+10FFFF. *)
Definition char_len (s : bytes) : option nat :=
  match s with
  | b0 :: rest =>
      let n := byte_N b0 in
      if (n <? 128)%N then Some 1
      else if in_range 194 223 b0 then
        match rest with b1 :: _ => if is_cont b1 then Some 2 else None | _ => None end
      else if in_range 224 239 b0 then
        match rest with
        | b1 :: b2 :: _ =>
            if is_cont b1 && is_cont b2 && ((224 <? n) || (160 <=? byte_N b1))%N && (negb (n =? 237) || (byte_N b1 <=? 159))%N
            then Some 3 else None
        | _ => None
        end
      else if in_range 240 244 b0 then
        match rest with
        | b1 :: b2 :: b3 :: _ =>
            if is_cont b1 && is_cont b2 && is_cont b3 && ((240 <? n) || (144 <=? byte_N b1))%N && (negb (n =? 244) || (byte_N b1 <=? 143))%N
            then Some 4 else None
        | _ => None
        end
      else None
  | [] => None
  end.
(** A string has at most as many characters as bytes, which is the fuel. *)
Fixpoint valid_utf8_fuel (fuel : nat) (s : bytes) : bool :=
  match s, fuel with
  | [], _ => true
  | _, 0 => false
  | _, S fuel => match char_len s with Some n => valid_utf8_fuel fuel (drop n s) | None => false end
  end.
Definition valid_utf8 (s : bytes) : bool := valid_utf8_fuel (length s) s.
Definition from_utf8 (s : bytes) : option bytes := if valid_utf8 s then Some s else None.

(** ** [trim]: the characters with the property White_Space *)
Definition spaces : list bytes :=
  ([x09] :: [x0a] :: [x0b] :: [x0c] :: [x0d] :: [x20] :: [xc2; x85] :: [xc2; xa0] :: [xe1; x9a; x80] :: [xe2; x80; xa8] :: [xe2; x80; xa9]
    :: [xe2; x80; xaf] :: [xe2; x81; x9f] :: [xe3; x80; x80] ::
    ((λ b, [xe2; x80; b]) <$> [x80; x81; x82; x83; x84; x85; x86; x87; x88; x89; x8a])).
Fixpoint strip_prefix (p s : bytes) : option bytes :=
  match p, s with
  | [], s => Some s
  | b :: p, c :: s => if decide (b = c) then strip_prefix p s else None
  | _, [] => None
  end.
(** The first of [ps] that is a prefix, removed. *)
Definition strip_one (ps : list bytes) (s : bytes) : option bytes := head (omap (λ p, strip_prefix p s) ps).
(** Each turn removes a byte at least: the length is the fuel. *)
Fixpoint strip_fuel (ps : list bytes) (fuel : nat) (s : bytes) : bytes :=
  match fuel with
  | 0 => s
  | S fuel => match strip_one ps s with Some s => strip_fuel ps fuel s | None => s end
  end.
Definition trim_start (s : bytes) : bytes := strip_fuel spaces (length s) s.
Definition trim_end (s : bytes) : bytes := reverse (strip_fuel (reverse <$> spaces) (length s) (reverse s)).
Definition trim (s : bytes) : bytes := trim_end (trim_start s).

(** ** [split(',')] *)
Fixpoint split (sep : byte) (s : bytes) : list bytes :=
  match s with
  | [] => [[]]
  | c :: s => if decide (c = sep) then [] :: split sep s
              else match split sep s with [] => [[c]] | w :: ws => (c :: w) :: ws end
  end.
Fixpoint join (sep : byte) (ws : list bytes) : bytes :=
  match ws with
  | [] => []
  | [w] => w
  | w :: ws => w ++ sep :: join sep ws
  end.
Definition starts_with (p s : bytes) : bool := match strip_prefix p s with Some _ => true | None => false end.

(** ** [parse::<usize>]: an optional [+], digits, and a value that fits *)
Definition digit (b : byte) : option N := if in_range 48 57 b then Some (byte_N b - 48)%N else None.
Fixpoint parse_digits (acc : N) (s : bytes) : option N :=
  match s with
  | [] => Some acc
  | b :: s =>
      d ← digit b;
      let acc := (acc * 10 + d)%N in
      if (acc <? u64_modulus)%N then parse_digits acc s else None
  end.
Definition parse_usize (s : bytes) : option N :=
  match s with
  | [] => None
  | x2b :: [] => None
  | x2b :: s => parse_digits 0 s
  | s => parse_digits 0 s
  end.

(** ** Laws *)
Lemma strip_prefix_Some p s t : strip_prefix p s = Some t ↔ s = p ++ t.
Proof.
  revert s. induction p as [|b p IH]; intros s; cbn; [naive_solver|].
  destruct s as [|c s]; [naive_solver|]. case_decide as E; [subst; rewrite IH; naive_solver|naive_solver].
Qed.

Lemma strip_one_Some ps s t : strip_one ps s = Some t → ∃ p, p ∈ ps ∧ s = p ++ t.
Proof.
  unfold strip_one. intros H. assert (t ∈ omap (λ p, strip_prefix p s) ps) as Hin by (destruct (omap _ _); [done|injection H as ->; left]).
  apply list_elem_of_omap in Hin as (p & Hp & Ht). apply strip_prefix_Some in Ht. eauto.
Qed.

Lemma strip_one_None ps s : strip_one ps s = None → ∀ p t, p ∈ ps → s ≠ p ++ t.
Proof.
  unfold strip_one. intros H p t Hp E. apply strip_prefix_Some in E.
  assert (t ∈ omap (λ p, strip_prefix p s) ps) as Hin by (apply list_elem_of_omap; eauto).
  destruct (omap _ _); [by apply elem_of_nil in Hin|done].
Qed.

(** The fuel suffices: what is left starts with none of [ps]. *)
Lemma strip_fuel_clean ps fuel s p t : (∀ p, p ∈ ps → p ≠ []) → length s ≤ fuel → p ∈ ps → strip_fuel ps fuel s ≠ p ++ t.
Proof.
  intros Hne. revert s. induction fuel as [|fuel IH]; intros s Hlen Hp; cbn.
  - destruct s; [|cbn in Hlen; lia]. intros E. apply (Hne p Hp). by destruct p.
  - destruct (strip_one ps s) as [s'|] eqn:E; [|by apply strip_one_None with (1 := E)].
    apply strip_one_Some in E as (q & Hq & ->). apply IH; [|done]. rewrite length_app in Hlen.
    pose proof (Hne q Hq). destruct q; [done|cbn in Hlen; lia].
Qed.

Lemma strip_fuel_suffix ps fuel s : ∃ k, s = k ++ strip_fuel ps fuel s.
Proof.
  revert s. induction fuel as [|fuel IH]; intros s; cbn; [by exists []|].
  destruct (strip_one ps s) as [s'|] eqn:E; [|by exists []]. apply strip_one_Some in E as (q & _ & ->).
  destruct (IH s') as [k Hk]. exists (q ++ k). by rewrite <-app_assoc, <-Hk.
Qed.

Lemma spaces_nonempty p : p ∈ spaces → p ≠ [].
Proof. intros Hp ->. revert Hp. apply (bool_decide_unpack _). by vm_compute. Qed.

(** [trim] keeps a part of the string, without white space at its ends. *)
Lemma trim_spec s : (∃ k l, s = k ++ trim s ++ l) ∧ (∀ p t, p ∈ spaces → trim s ≠ t ++ p) ∧ (∀ p t, p ∈ spaces → trim_start s ≠ p ++ t).
Proof.
  unfold trim. split_and!.
  - destruct (strip_fuel_suffix spaces (length s) s) as [k Hk]. fold (trim_start s) in Hk.
    destruct (strip_fuel_suffix (reverse <$> spaces) (length (trim_start s)) (reverse (trim_start s))) as [l Hl].
    exists k, (reverse l). rewrite Hk at 1. f_equal. unfold trim_end. rewrite <-reverse_app, <-Hl. by rewrite reverse_involutive.
  - intros p t Hp. unfold trim_end. intros E. apply (f_equal (@reverse byte)) in E. rewrite reverse_involutive, reverse_app in E.
    revert E. apply strip_fuel_clean.
    + intros q (r & -> & Hr)%list_elem_of_fmap. apply spaces_nonempty in Hr. intros E. apply Hr.
      apply (f_equal (@reverse byte)) in E. by rewrite reverse_involutive in E.
    + by rewrite length_reverse.
    + by apply list_elem_of_fmap_2.
  - intros p t Hp. by apply strip_fuel_clean; [exact spaces_nonempty|..].
Qed.

Lemma split_nonempty sep s : split sep s ≠ [].
Proof. destruct s as [|c s]; cbn; [done|]. case_decide; [done|]. by destruct (split sep s). Qed.

(** Splitting loses nothing, and no piece has the separator. *)
Lemma join_split sep s : join sep (split sep s) = s ∧ Forall (λ w, sep ∉ w) (split sep s).
Proof.
  induction s as [|c s [IH1 IH2]]; [split; [done|constructor; [by apply not_elem_of_nil|constructor]]|].
  cbn. pose proof (split_nonempty sep s). case_decide as E.
  - subst c. split; [|constructor; [apply not_elem_of_nil|done]]. destruct (split sep s) eqn:Es; [done|]. cbn. by rewrite <-IH1.
  - destruct (split sep s) as [|w ws]; [done|]. apply Forall_cons in IH2 as [Hw Hws]. split.
    + destruct ws; cbn in *; by rewrite IH1.
    + constructor; [|done]. rewrite not_elem_of_cons. by split.
Qed.

Lemma parse_digits_bound acc s n : (acc < u64_modulus)%N → parse_digits acc s = Some n → (n < u64_modulus)%N.
Proof.
  revert acc. induction s as [|b s IH]; intros acc Ha; cbn; [by intros [= <-]|].
  destruct (digit b) as [d|]; [|done]. cbn. destruct (N.ltb_spec (acc * 10 + d) u64_modulus); [|done]. by apply IH.
Qed.

Lemma parse_usize_bound s n : parse_usize s = Some n → (n < u64_modulus)%N.
Proof.
  assert (∀ s, parse_digits 0 s = Some n → (n < u64_modulus)%N) as H by (intros ?; by apply parse_digits_bound).
  unfold parse_usize. destruct s as [|b s]; [done|]. destruct b; try apply H. destruct s; [done|apply H].
Qed.
End Text.
