(* ===== verification/Intake.v ===== *)
(** The ways into the proxy ([transaction_handler.rs], [solana.rs],
    [http_tx_handler.rs], [rpc_solana_like] of [rpc.rs] and
    [GrpcTransactionHandler] of [grpc_jet.rs], all of [apps/jet/src]): each
    checks a transaction and hands a [SendTransactionRequest] to the scheduler. *)
From S2P Require Import Prelude Types RpcRetry Commitment Rooted Blockhash Retry Payload Text.
From Stdlib Require Import Strings.Byte.
Import Payload Text.

(** What is read of a [VersionedTransaction], its size-limited deserialization,
    [Signature::to_string] and [UiTransactionEncoding::into_binary_encoding]. *)
Inductive TransactionBinaryEncoding := BinBase58 | BinBase64.
Class TransactionView `{TransactionCodec} := {
  signatures : VersionedTransaction → list Signature;
  message_blockhash : VersionedTransaction → N;
  sanitize : VersionedTransaction → bool;
  deserialize_limited : N → list byte → option VersionedTransaction;
  signature_to_string : Signature → string;
  into_binary_encoding : UiTransactionEncoding → option TransactionBinaryEncoding
}.
(** A sanitized transaction has the signatures its header asks for, one at least. *)
Class TransactionLaws `{TransactionView} : Prop :=
  sanitized_is_signed : ∀ tx, sanitize tx = true → signatures tx ≠ [].

Module Intake.
Definition PACKET_DATA_SIZE : N := 1232.
Definition MAX_BASE58_SIZE : N := 1683.
Definition MAX_BASE64_SIZE : N := 1644.

Inductive TransactionHandlerError :=
  | InvalidTransaction | SerializationFailed | PreflightNotSupported | InvalidParams | HandlerUnsupportedEncoding.
Definition variant_name (e : TransactionHandlerError) : string :=
  match e with
  | InvalidTransaction => "InvalidTransaction"
  | SerializationFailed => "SerializationFailed"
  | PreflightNotSupported => "PreflightNotSupported"
  | InvalidParams => "InvalidParams"
  | HandlerUnsupportedEncoding => "UnsupportedEncoding"
  end.

(** The sink is an unbounded channel; [None] once its receiver is gone, when
    sending panics. *)
Definition Sink : Type := option (list Retry.SendTransactionRequest).
Inductive Outcome (A E : Type) := Ok (a : A) | Err (e : E) | Panic.
#[global] Arguments Ok {A E} _.
#[global] Arguments Err {A E} _.
#[global] Arguments Panic {A E}.

Section Intake.
Context `{TV : TransactionView} `{TX : TextCodecs} `{LJ : LegacyJson} `{PF : PubkeyFromStr}.
(** [form_urlencoded::parse]. *)
Context (form_urlencoded : bytes → list (bytes * bytes)).

(** ** [TransactionHandler] *)
Definition request (signature : Signature) (tx : VersionedTransaction) (wire : list byte) (max_retries : option N) (policies : list Pubkey)
    : Retry.SendTransactionRequest :=
  Retry.mk_request signature (message_blockhash tx) wire (N.to_nat <$> max_retries) policies.
Definition send {E} (r : Retry.SendTransactionRequest) (sink : Sink) : Outcome string E * Sink :=
  match sink with
  | Some l => (Ok (signature_to_string (Retry.signature r)), Some (l ++ [r]))
  | None => (Panic, None)
  end.
Definition too_large (wire : list byte) : bool := (PACKET_DATA_SIZE <? N.of_nat (length wire))%N.

Definition handle_versioned_transaction (tx : VersionedTransaction) (cfg : JetRpcSendTransactionConfig) (sink : Sink)
    : Outcome string TransactionHandlerError * Sink :=
  if negb (skip_preflight (config cfg)) then (Err PreflightNotSupported, sink)
  else if negb (sanitize tx) then (Err InvalidTransaction, sink)
  else match signatures tx with
       | [] => (Panic, sink)
       | signature :: _ =>
           match serialize tx with
           | None => (Err SerializationFailed, sink)
           | Some wire =>
               if too_large wire then (Err InvalidTransaction, sink)
               else send (request signature tx wire (max_retries (config cfg)) (forwarding_policies cfg)) sink
           end
       end.

Definition handle_raw_transaction (wire : list byte) (cfg : JetRpcSendTransactionConfig) (sink : Sink)
    : Outcome string TransactionHandlerError * Sink :=
  if too_large wire then (Err InvalidTransaction, sink)
  else match deserialize wire with
       | None => (Err InvalidParams, sink)
       | Some tx =>
           if negb (sanitize tx) then (Err InvalidTransaction, sink)
           else match signatures tx with
                | [] => (Panic, sink)
                | signature :: _ =>
                    send (request signature tx wire (max_retries (config cfg)) (forwarding_policies cfg)) sink
                end
       end.

(** [solana::decode_and_deserialize], whose errors are all [invalid_params]. *)
Definition decode_and_deserialize (encoded : string) (encoding : TransactionBinaryEncoding) : option (list byte * VersionedTransaction) :=
  wire_output ←
    match encoding with
    | BinBase58 => if (MAX_BASE58_SIZE <? N.of_nat (String.length encoded))%N then None else bs58_decode encoded
    | BinBase64 => if (MAX_BASE64_SIZE <? N.of_nat (String.length encoded))%N then None else base64_decode encoded
    end;
  if too_large wire_output then None
  else output ← deserialize_limited PACKET_DATA_SIZE wire_output; Some (wire_output, output).

Definition prepare_transaction (data : string) (cfg : RpcSendTransactionConfig) : (list byte * VersionedTransaction) + TransactionHandlerError :=
  match into_binary_encoding (default Base58 (encoding cfg)) with
  | None => inr HandlerUnsupportedEncoding
  | Some e =>
      match decode_and_deserialize data e with
      | None => inr InvalidParams
      | Some (wire, tx) =>
          if negb (skip_preflight cfg) then inr PreflightNotSupported
          else if negb (sanitize tx) then inr InvalidTransaction
          else inl (wire, tx)
      end
  end.
Definition handle_transaction (data : string) (cfg : option JetRpcSendTransactionConfig) (sink : Sink)
    : Outcome string TransactionHandlerError * Sink :=
  let cfg := default default_jet_config cfg in
  match prepare_transaction data (config cfg) with
  | inr e => (Err e, sink)
  | inl (wire, tx) =>
      match signatures tx with
      | [] => (Panic, sink)
      | signature :: _ => send (request signature tx wire (max_retries (config cfg)) (forwarding_policies cfg)) sink
      end
  end.

(** ** [rpc_solana_like]: errors carry a code, [INVALID_PARAMS_CODE] or
    [INTERNAL_ERROR_CODE] with the handler's error. *)
Inductive RpcErrorObject := InvalidParamsCode | InternalErrorCode (e : TransactionHandlerError).
Definition map_err {A E F} (f : E → F) (r : Outcome A E * Sink) : Outcome A F * Sink :=
  (match r.1 with Ok a => Ok a | Err e => Err (f e) | Panic => Panic end, r.2).
Definition handle_internal_transaction (tx : VersionedTransaction) (cfg : JetRpcSendTransactionConfig) (sink : Sink)
    : Outcome string RpcErrorObject * Sink :=
  map_err InternalErrorCode (handle_versioned_transaction tx cfg sink).
Definition send_transaction (data : string) (cfg : option JetRpcSendTransactionConfig) (sink : Sink)
    : Outcome string RpcErrorObject * Sink :=
  let cfg := default default_jet_config cfg in
  match into_binary_encoding (default Base58 (encoding (config cfg))) with
  | None => (Err InvalidParamsCode, sink)
  | Some e =>
      match decode_and_deserialize data e with
      | None => (Err InvalidParamsCode, sink)
      | Some (_, tx) => handle_internal_transaction tx cfg sink
      end
  end.

(** ** [GrpcTransactionHandler] *)
Inductive GrpcHandlerError := PayloadParseError (e : PayloadError) | DecodeError (e : PayloadError) | SendError (e : RpcErrorObject).
Definition grpc_handle_transaction (transaction : SubscribeTransaction) (sink : Sink) : Outcome unit GrpcHandlerError * Sink :=
  match try_from_subscribe transaction with
  | inr e => (Err (PayloadParseError e), sink)
  | inl payload =>
      match decode payload with
      | inr e => (Err (DecodeError e), sink)
      | inl (tx, config_option) =>
          let '(r, sink) := handle_internal_transaction tx (default default_jet_config config_option) sink in
          (match r with Ok _ => Ok tt | Err e => Err (SendError e) | Panic => Panic end, sink)
      end
  end.

(** ** [HttpTransactionHandler] *)
Definition API_TX_PATH : bytes := String.list_byte_of_string "/api/v1/transactions".
Inductive ResponseMode := NoBody | SignatureBody.
Record RequestParams := mk_params {
  params_encoding : UiTransactionEncoding; encoding_explicit : bool; params_max_retries : option N;
  params_forwarding_policies : list Pubkey; response : ResponseMode
}.
(** The request: [HeaderValue::to_str] fails on the inner [None]; the body is
    [None] when reading it fails. *)
Record HttpRequest := mk_http {
  is_post : bool; path : bytes; query : option bytes; policies_header : option (option bytes);
  content_type : option (option bytes); body : option bytes
}.
Inductive HttpBody := TextBody (s : string) | ErrorBody (e : TransactionHandlerError) | EmptyBody.
Definition HttpResponse : Type := N * HttpBody.

Definition parse_forwarding_policies (value : bytes) : list Pubkey :=
  omap (λ v, pubkey_from_str (String.string_of_list_byte v)) (filter (λ v, v ≠ []) (trim <$> split x2c value)).
Definition apply_headers (policies_header : option (option bytes)) (p : RequestParams) : RequestParams + string :=
  match policies_header with
  | Some (Some value) =>
      inl (mk_params (params_encoding p) (encoding_explicit p) (params_max_retries p) (parse_forwarding_policies value) (response p))
  | Some None => inr "invalid solana-forwardingpolicies header: must be valid UTF-8"
  | None => inl p
  end.
Definition default_params : RequestParams := mk_params Base58 false None [] NoBody.
Definition text (s : string) : bytes := String.list_byte_of_string s.
(** One query parameter. *)
Definition apply_parameter (p : RequestParams) (key value : bytes) : RequestParams + string :=
  if decide (key = text "encoding") then
    if decide (value = text "base64") then
      inl (mk_params Base64 true (params_max_retries p) (params_forwarding_policies p) (response p))
    else if decide (value = text "base58") then
      inl (mk_params Base58 true (params_max_retries p) (params_forwarding_policies p) (response p))
    else inr "unsupported encoding: must be 'base64' or 'base58'"
  else if decide (key = text "response") then
    if decide (value = text "signature") then
      inl (mk_params (params_encoding p) (encoding_explicit p) (params_max_retries p) (params_forwarding_policies p) SignatureBody)
    else if decide (value = text "none") then
      inl (mk_params (params_encoding p) (encoding_explicit p) (params_max_retries p) (params_forwarding_policies p) NoBody)
    else inr "unsupported response mode: must be 'signature' or 'none'"
  else if decide (key = text "max_retries") then
    if decide (value = []) then inl p
    else inl (mk_params (params_encoding p) (encoding_explicit p) (parse_usize value) (params_forwarding_policies p) (response p))
  else inl p.
Fixpoint apply_parameters (p : RequestParams) (l : list (bytes * bytes)) : RequestParams + string :=
  match l with
  | [] => inl p
  | (key, value) :: l => match apply_parameter p key value with inl p => apply_parameters p l | inr e => inr e end
  end.
Definition parse (query : option bytes) (policies_header : option (option bytes)) : RequestParams + string :=
  match query with
  | None => apply_headers policies_header default_params
  | Some query =>
      match apply_parameters default_params (form_urlencoded query) with
      | inl p => apply_headers policies_header p
      | inr e => inr e
      end
  end.

Definition http_config (max_retries : option N) (encoding : option UiTransactionEncoding) (policies : list Pubkey) : JetRpcSendTransactionConfig :=
  mk_jet_config (mk_rpc_config true None encoding max_retries None) policies.
Definition is_raw (r : HttpRequest) : bool :=
  match content_type r with Some (Some ct) => starts_with (text "application/octet-stream") ct | _ => false end.
Definition respond (mode : ResponseMode) (r : Outcome string TransactionHandlerError * Sink) : option HttpResponse * Sink :=
  (match r.1 with
   | Ok signature => Some (200%N, match mode with SignatureBody => TextBody signature | NoBody => EmptyBody end)
   | Err e => Some (400%N, ErrorBody e)
   | Panic => None
   end, r.2).

(** The response, or [None] when the handler panics. *)
Definition handle_request (req : HttpRequest) (sink : Sink) : option HttpResponse * Sink :=
  if negb (is_post req) then (Some (405%N, TextBody "method not allowed, use POST"), sink)
  else match parse (query req) (policies_header req) with
  | inr msg => (Some (400%N, TextBody msg), sink)
  | inl params =>
      if is_raw req && encoding_explicit params then
        (Some (400%N, TextBody "encoding parameter cannot be used with application/octet-stream content type"), sink)
      else match body req with
      | None => (Some (400%N, TextBody "failed to read request body"), sink)
      | Some [] => (Some (400%N, TextBody "empty transaction body"), sink)
      | Some body =>
          if is_raw req then
            respond (response params)
              (handle_raw_transaction body (http_config (params_max_retries params) None (params_forwarding_policies params)) sink)
          else match from_utf8 body with
          | None => (Some (400%N, TextBody "request body must be valid UTF-8"), sink)
          | Some s =>
              match trim s with
              | [] => (Some (400%N, TextBody "empty transaction body"), sink)
              | data =>
                  respond (response params) (handle_transaction (String.string_of_list_byte data)
                    (Some (http_config (params_max_retries params) (Some (params_encoding params)) (params_forwarding_policies params))) sink)
              end
          end
      end
  end.
(** [HttpTxMiddleware::call]: [None] for what goes to the inner service. *)
Definition middleware (req : HttpRequest) (sink : Sink) : option (option HttpResponse * Sink) :=
  if decide (path req = API_TX_PATH) then Some (handle_request req sink) else None.

(** ** What is enqueued *)
Definition valid_request (r : Retry.SendTransactionRequest) : Prop := ∃ tx,
  sanitize tx = true ∧ head (signatures tx) = Some (Retry.signature r) ∧ Retry.recent_blockhash r = message_blockhash tx ∧
  (N.of_nat (length (Retry.wire_transaction r)) ≤ PACKET_DATA_SIZE)%N ∧
  (serialize tx = Some (Retry.wire_transaction r) ∨ deserialize (Retry.wire_transaction r) = Some tx ∨
   deserialize_limited PACKET_DATA_SIZE (Retry.wire_transaction r) = Some tx).

(** A handler enqueued one valid request and said so, or did nothing and refused. *)
Definition all_or_nothing {A E} (l : list Retry.SendTransactionRequest) (r : Outcome A E * Sink) : Prop :=
  (∃ a req, r = (Ok a, Some (l ++ [req])) ∧ valid_request req) ∨ (∃ e, r = (Err e, Some l)).

Lemma refused {A E} l (e : E) : all_or_nothing (A := A) l (Err e, Some l).
Proof. right. by exists e. Qed.

Lemma too_large_false wire : too_large wire = false → (N.of_nat (length wire) ≤ PACKET_DATA_SIZE)%N.
Proof. unfold too_large. by intros ?%N.ltb_ge. Qed.

Section Laws.
Context `{!TransactionLaws}.

Lemma versioned_spec tx cfg l : all_or_nothing l (handle_versioned_transaction tx cfg (Some l)).
Proof.
  unfold handle_versioned_transaction. destruct (negb _); [apply refused|]. destruct (sanitize tx) eqn:Hs; [|apply refused]. cbn [negb].
  destruct (signatures tx) as [|sig sigs] eqn:Hsig; [by apply sanitized_is_signed in Hs|].
  destruct (serialize tx) as [wire|] eqn:Hw; [|apply refused]. destruct (too_large wire) eqn:Hl; [apply refused|].
  left. do 2 eexists. split; [done|]. exists tx. split_and!; [done|by rewrite Hsig|done|by apply too_large_false|by auto].
Qed.

Lemma raw_spec wire cfg l : all_or_nothing l (handle_raw_transaction wire cfg (Some l)).
Proof.
  unfold handle_raw_transaction. destruct (too_large wire) eqn:Hl; [apply refused|].
  destruct (deserialize wire) as [tx|] eqn:Hd; [|apply refused]. destruct (sanitize tx) eqn:Hs; [|apply refused]. cbn [negb].
  destruct (signatures tx) as [|sig sigs] eqn:Hsig; [by apply sanitized_is_signed in Hs|].
  left. do 2 eexists. split; [done|]. exists tx. split_and!; [done|by rewrite Hsig|done|by apply too_large_false|by auto].
Qed.

Lemma decoded_is_small data e wire tx : decode_and_deserialize data e = Some (wire, tx) →
  too_large wire = false ∧ deserialize_limited PACKET_DATA_SIZE wire = Some tx.
Proof.
  unfold decode_and_deserialize. intros (w & _ & Hb)%bind_Some. destruct (too_large w) eqn:E; [done|].
  apply bind_Some in Hb as (t & Ht & [= -> ->]). done.
Qed.

Lemma transaction_spec data cfg l : all_or_nothing l (handle_transaction data cfg (Some l)).
Proof.
  unfold handle_transaction, prepare_transaction. destruct (into_binary_encoding _) as [e|]; [|apply refused].
  destruct (decode_and_deserialize data e) as [[wire tx]|] eqn:Hd; [|apply refused].
  apply decoded_is_small in Hd as [Hl%too_large_false Hd]. destruct (negb _); [apply refused|].
  destruct (sanitize tx) eqn:Hs; [|apply refused]. cbn [negb].
  destruct (signatures tx) as [|sig sigs] eqn:Hsig; [by apply sanitized_is_signed in Hs|].
  left. do 2 eexists. split; [done|]. exists tx. split_and!; [done|by rewrite Hsig|done|done|by auto].
Qed.

Lemma map_err_spec {A E F} (f : E → F) l (r : Outcome A E * Sink) : all_or_nothing l r → all_or_nothing l (map_err f r).
Proof. intros [(a & req & -> & ?)|[e ->]]; [left; by exists a, req|apply refused]. Qed.

Lemma rpc_spec data cfg l : all_or_nothing l (send_transaction data cfg (Some l)).
Proof.
  unfold send_transaction. destruct (into_binary_encoding _); [|apply refused].
  destruct (decode_and_deserialize _ _) as [[w tx]|]; [|apply refused]. apply map_err_spec, versioned_spec.
Qed.

Lemma grpc_spec msg l : all_or_nothing l (grpc_handle_transaction msg (Some l)).
Proof.
  unfold grpc_handle_transaction. destruct (try_from_subscribe msg) as [p|e]; [|apply refused].
  destruct (decode p) as [[tx cfg]|e]; [|apply refused].
  unfold handle_internal_transaction.
  destruct (map_err_spec InternalErrorCode l _ (versioned_spec tx (default default_jet_config cfg) l)) as [(a & req & E & Hv)|[e E]].
  - left. exists tt, req. rewrite E. done.
  - rewrite E. apply refused.
Qed.

(** An HTTP response is 200 exactly when a request was enqueued. *)
Definition http_all_or_nothing (l : list Retry.SendTransactionRequest) (r : option HttpResponse * Sink) : Prop :=
  (∃ b req, r = (Some (200%N, b), Some (l ++ [req])) ∧ valid_request req) ∨
  (∃ status b, r = (Some (status, b), Some l) ∧ (400 ≤ status)%N).

Lemma respond_spec mode l r : all_or_nothing l r → http_all_or_nothing l (respond mode r).
Proof. intros [(a & req & -> & ?)|[e ->]]; [left; eauto|right; by eexists _, _]. Qed.

Lemma http_spec req l : http_all_or_nothing l (handle_request req (Some l)).
Proof.
  assert (∀ status b, (400 ≤ status)%N → http_all_or_nothing l (Some (status, b), Some l)) as Hr by (right; eauto).
  unfold handle_request. destruct (negb _); [by apply Hr|]. destruct (parse _ _) as [p|]; [|by apply Hr].
  destruct (_ && _); [by apply Hr|]. destruct (body req) as [[|b body]|]; [by apply Hr| |by apply Hr].
  destruct (is_raw req); [apply respond_spec, raw_spec|]. destruct (from_utf8 _) as [s|]; [|by apply Hr].
  destruct (trim s); [by apply Hr|]. apply respond_spec, transaction_spec.
Qed.

(** ** All entries at once *)
Inductive Submission :=
  | SubmitRpc (data : string) (cfg : option JetRpcSendTransactionConfig)
  | SubmitGrpc (msg : SubscribeTransaction)
  | SubmitHttp (req : HttpRequest).
(** Whether it was accepted; [None] for a panic. *)
Definition accepted_outcome {A E} (r : Outcome A E * Sink) : option bool * Sink :=
  (match r.1 with Ok _ => Some true | Err _ => Some false | Panic => None end, r.2).
Definition submit (s : Submission) (sink : Sink) : option bool * Sink :=
  match s with
  | SubmitRpc data cfg => accepted_outcome (send_transaction data cfg sink)
  | SubmitGrpc msg => accepted_outcome (grpc_handle_transaction msg sink)
  | SubmitHttp req => let '(r, sink) := handle_request req sink in ((λ r, (r.1 =? 200)%N) <$> r, sink)
  end.
Fixpoint submit_all (l : list Submission) (sink : Sink) : list (option bool) * Sink :=
  match l with
  | [] => ([], sink)
  | s :: l => let '(r, sink) := submit s sink in let '(rs, sink) := submit_all l sink in (r :: rs, sink)
  end.

Lemma submit_spec s l : (submit s (Some l) = (Some false, Some l)) ∨
  ∃ req, submit s (Some l) = (Some true, Some (l ++ [req])) ∧ valid_request req.
Proof.
  assert (∀ A E (r : Outcome A E * Sink), all_or_nothing l r → accepted_outcome r = (Some false, Some l) ∨
    ∃ req, accepted_outcome r = (Some true, Some (l ++ [req])) ∧ valid_request req) as Hall.
  { intros A E r [(a & req & -> & ?)|[e ->]]; [right; by exists req|by left]. }
  destruct s as [data cfg|msg|req]; cbn [submit]; [apply Hall, rpc_spec|apply Hall, grpc_spec|].
  destruct (http_spec req l) as [(b & r & -> & ?)|(status & b & -> & Hs)]; cbn; [right; by exists r|left].
  destruct (N.eqb_spec status 200); [lia|done].
Qed.

(** C33: Over any sequence of submissions through RPC, gRPC and HTTP, with the sink open,
    no submission panics and the sink receives one request per accepted submission, in
    order, each of a sanitized transaction with its first signature, its blockhash and a
    wire form within the packet size; a refused one enqueues nothing. *)
Theorem intake_enqueues_what_it_accepts l queued :
  let '(results, sink) := submit_all l (Some queued) in
  ∃ new, sink = Some (queued ++ new) ∧ Forall valid_request new ∧ Forall is_Some results ∧
    length new = length (filter (λ r, r = Some true) results).
Proof.
  revert queued. induction l as [|s l IH]; intros queued; cbn [submit_all].
  { exists []. rewrite app_nil_r. by repeat constructor. }
  destruct (submit_spec s queued) as [->|(req & -> & Hv)].
  - specialize (IH queued). destruct (submit_all l (Some queued)) as [rs sink]. destruct IH as (new & -> & ? & ? & ?).
    exists new. split_and!; [done|done|constructor; [by eexists|done]|]. rewrite filter_cons, decide_False by congruence. done.
  - specialize (IH (queued ++ [req])). destruct (submit_all l _) as [rs sink]. destruct IH as (new & -> & ? & ? & ?).
    exists (req :: new). split_and!; [by rewrite <-app_assoc|by constructor|constructor; [by eexists|done]|].
    rewrite filter_cons, decide_True by done. cbn. by f_equal.
Qed.
End Laws.

(** Handling a gateway message that a payload was turned into is handling the original
    transaction under the configuration its format carries: same request enqueued, same
    refusal or panic. *)
Theorem gateway_message_is_the_transaction `{!CodecLaws} now tx cfg use_legacy payload (message : SubscribeTransaction) sink
    (Hcreate : create now tx cfg use_legacy = inl payload) (Hproto : to_proto payload = inl message) :
  let '(r, sink') := handle_versioned_transaction tx (carried cfg use_legacy) sink in
  grpc_handle_transaction message sink =
    (match r with Ok _ => Ok tt | Err e => Err (SendError (InternalErrorCode e)) | Panic => Panic end, sink').
Proof.
  pose proof (decode_message _ _ _ _ _ _ Hcreate Hproto) as Hd. unfold grpc_handle_transaction.
  destruct (try_from_subscribe message) as [p|e]; cbn [mbind Result_bind] in Hd; [|done]. rewrite Hd. cbn [default from_option id].
  unfold handle_internal_transaction, map_err.
  destruct (handle_versioned_transaction tx (carried cfg use_legacy) sink) as [r sink']. by destruct r.
Qed.
End Intake.

(** ** Concrete submissions *)
Section Demo.
#[local] Existing Instances demo_codec demo_text demo_parse demo_json demo_laws.
#[local] Instance demo_view : TransactionView := {|
  signatures := λ tx : @VersionedTransaction demo_codec, match tx with b :: _ => [to_N b] | [] => [] end;
  message_blockhash := λ _, 5%N;
  sanitize := λ tx : @VersionedTransaction demo_codec, match tx with [] => false | _ => true end;
  deserialize_limited := λ n b, if decide (length b ≤ N.to_nat n) then Some (b : @VersionedTransaction demo_codec) else None;
  signature_to_string := λ _, "signature"%string;
  into_binary_encoding := λ e, match e with Base58 | Binary => Some BinBase58 | Base64 => Some BinBase64 | _ => None end |}.
#[local] Instance demo_tx_laws : TransactionLaws.
Proof. intros [|b tx]; done. Qed.
(** No query in these requests. *)
Definition demo_form (_ : bytes) : list (bytes * bytes) := [].

Definition demo_http (post : bool) (ct : option (option bytes)) (b : bytes) : HttpRequest :=
  mk_http post API_TX_PATH None (Some (Some (text "aaaa, ,aa"))) ct (Some b).
Definition demo_submissions : list Submission :=
  [SubmitHttp (demo_http true (Some (Some (text "application/octet-stream"))) [x01; x02]);
   SubmitHttp (demo_http false None [x01]);
   SubmitHttp (demo_http true None (text "  payload  "));
   SubmitHttp (demo_http true None [xff; x01]);
   SubmitRpc "payload" (Some (http_config None (Some Json) []))].

Lemma intake_enqueues_what_it_accepts_witness : ∃ new,
  (submit_all demo_form demo_submissions (Some [])).2 = Some ([] ++ new) ∧ length new = 2.
Proof.
  pose proof (intake_enqueues_what_it_accepts demo_form demo_submissions []) as Hi.
  assert ((submit_all demo_form demo_submissions (Some [])).1 = [Some true; Some false; Some true; Some false; Some false]) as Hr
    by (vm_compute; reflexivity).
  destruct (submit_all demo_form demo_submissions (Some [])) as [results sink]. cbn in Hr. subst results.
  destruct Hi as (new & -> & _ & _ & Hn). exists new. split; [reflexivity|exact Hn].
Defined.

Definition demo_payload : TransactionPayload :=
  New (mk_wrapper demo_tx (Some (mk_proto_config (Some 3%N) (pubkey_to_string <$> [4%N; 2%N]) true)) (Some 77%N)).
Lemma gateway_message_is_the_transaction_witness :
  grpc_handle_transaction (from_wrapper (mk_wrapper demo_tx (Some (mk_proto_config (Some 3%N) (pubkey_to_string <$> [4%N; 2%N]) true)) (Some 77%N)))
    (Some []) = (Ok tt, Some [Retry.mk_request 1 5 [x01; x02] (Some 3) [4%N; 2%N]]).
Proof.
  exact (gateway_message_is_the_transaction 77 demo_tx demo_config false demo_payload _ (Some []) eq_refl eq_refl).
Defined.
End Demo.
End Intake.
