(* ===== verification/Prom.v ===== *)
(** The labels that the proxy adds to its metrics ([inject_job_label] of
    [apps/jet/src/util/prom.rs]), as a function on the text of the metrics, and the
    same on metrics as data. *)
From S2P Require Import Prelude Types Text.
From Stdlib Require Import Strings.Byte.
Import Text.

Module Prom.

(** ** Strings *)

(** [strip_suffix('\r')] of a line that had its line feed. *)
Definition strip_cr (w : bytes) : bytes := match last w with Some x0d => removelast w | _ => w end.
(** [lines]: the last piece is a line only if it is not empty, and keeps its [\r]. *)
Definition lines (s : bytes) : list bytes :=
  let pieces := split x0a s in
  (strip_cr <$> removelast pieces) ++ match last pieces with Some [] | None => [] | Some w => [w] end.
Definition find (b : byte) (s : bytes) : option nat := fst <$> list_find (λ c, c = b) s.

(** ** [inject_job_label] *)
Definition label (kv : bytes * bytes) : bytes := kv.1 ++ [x3d; x22] ++ kv.2 ++ [x22].
Definition injected (labels : list (bytes * bytes)) : bytes := join x2c (label <$> labels).

Definition inject_line (injected line : bytes) : bytes :=
  if starts_with [x23] line then line
  else match find x7b line with
       | Some pos => take (pos + 1) line ++ injected ++ [x2c] ++ drop (pos + 1) line
       | None =>
           match find x20 line with
           | Some pos => take pos line ++ [x7b] ++ injected ++ [x7d] ++ drop pos line
           | None => line
           end
       end.
Definition inject_job_label (metrics : bytes) (labels : list (bytes * bytes)) : bytes :=
  match injected labels with
  | [] => metrics
  | injected => join x0a (inject_line injected <$> lines metrics)
  end.

(** ** Metrics as data

    A line of the text format: a comment, or a sample with its labels and what
    follows them. *)
Inductive Line := Comment (text : bytes) | Sample (name : bytes) (labels : list (bytes * bytes)) (value : bytes).
Definition render_line (l : Line) : bytes :=
  match l with
  | Comment text => x23 :: text
  | Sample name [] value => name ++ [x20] ++ value
  | Sample name labels value => name ++ [x7b] ++ join x2c (label <$> labels) ++ [x7d; x20] ++ value
  end.
Definition render_text (ls : list Line) : bytes := mjoin ((λ l, render_line l ++ [x0a]) <$> ls).
Definition add_labels (labels : list (bytes * bytes)) (l : Line) : Line :=
  match l with Comment text => Comment text | Sample name old value => Sample name (labels ++ old) value end.

(** One line of text, whose name and value do not look like labels. *)
Definition well_formed (l : Line) : Prop :=
  x0a ∉ render_line l ∧ last (render_line l) ≠ Some x0d ∧
  match l with
  | Comment _ => True
  | Sample name _ value => head name ≠ Some x23 ∧ name ≠ [] ∧ x7b ∉ name ∧ x20 ∉ name ∧ x7b ∉ value
  end.

(** ** Laws *)
Lemma mjoin_cons {A} (w : list A) ws : mjoin (w :: ws) = w ++ mjoin ws.
Proof. done. Qed.
Lemma split_line w s : x0a ∉ w → split x0a (w ++ x0a :: s) = w :: split x0a s.
Proof.
  induction w as [|b w IH]; [done|]. intros [Hb Hw]%not_elem_of_cons. cbn. rewrite decide_False by done. by rewrite IH.
Qed.

Lemma lines_text ws : Forall (λ w, x0a ∉ w ∧ last w ≠ Some x0d) ws → lines (mjoin ((λ w, w ++ [x0a]) <$> ws)) = ws.
Proof.
  intros Hws. unfold lines. cbv zeta.
  assert (split x0a (mjoin ((λ w, w ++ [x0a]) <$> ws)) = ws ++ [[]]) as ->.
  { induction Hws as [|w ws [Hw _] _ IH]; [done|]. rewrite fmap_cons, mjoin_cons, <-app_assoc. cbn [app].
    by rewrite split_line, IH. }
  rewrite last_snoc, removelast_last, app_nil_r.
  induction Hws as [|w ws [_ Hw] _ IH]; [done|]. cbn [fmap list_fmap]. rewrite IH. f_equal.
  unfold strip_cr. destruct (last w) as [[]|]; try done.
Qed.

Lemma find_app b k s : b ∉ k → find b (k ++ b :: s) = Some (length k).
Proof.
  intros Hb. unfold find. rewrite list_find_app_r.
  - cbn. by rewrite decide_True by done.
  - apply list_find_None, Forall_forall. intros x Hx ->. done.
Qed.
Lemma find_None b s : b ∉ s → find b s = None.
Proof.
  intros Hb. unfold find. rewrite fmap_None. apply list_find_None, Forall_forall. intros x Hx ->. done.
Qed.

Lemma join_app sep l1 l2 : l1 ≠ [] → l2 ≠ [] → join sep (l1 ++ l2) = join sep l1 ++ sep :: join sep l2.
Proof.
  intros H1 H2. induction l1 as [|w l1 IH]; [done|]. destruct l1 as [|w' l1].
  - cbn. by destruct l2.
  - change (join sep ((w :: w' :: l1) ++ l2)) with (w ++ sep :: join sep ((w' :: l1) ++ l2)). rewrite IH by done.
    change (join sep (w :: w' :: l1)) with (w ++ sep :: join sep (w' :: l1)). by rewrite <-app_assoc.
Qed.

Lemma inject_line_spec labels l : labels ≠ [] → well_formed l →
  inject_line (injected labels) (render_line l) = render_line (add_labels labels l).
Proof.
  intros Hl (_ & _ & Hw). destruct l as [text|name old value]; [done|]. destruct Hw as (Hc & Hn & Hb & Hs & Hv).
  unfold inject_line.
  assert (∀ s, starts_with [x23] (name ++ s) = false) as Hh.
  { destruct name as [|c name]; [done|]. intros s. unfold starts_with. cbn. case_decide; [|done]. by subst c. }
  destruct old as [|kv old]; cbn [render_line add_labels].
  - rewrite Hh, app_nil_r. rewrite find_None by set_solver. cbn [app]. rewrite find_app by done.
    rewrite take_app_length, drop_app_length. by destruct labels as [|kv labels].
  - rewrite Hh. cbn [app]. rewrite find_app by done.
    change (name ++ x7b :: ?s) with (name ++ [x7b] ++ s).
    replace (length name + 1) with (length (name ++ [x7b])) by (rewrite length_app; done).
    rewrite (app_assoc name [x7b]), take_app_length, drop_app_length.
    destruct labels as [|kv' labels]; [done|]. cbn [app]. unfold injected.
    change (kv' :: labels ++ kv :: old) with ((kv' :: labels) ++ (kv :: old)). rewrite fmap_app, join_app by done.
    by rewrite <-!app_assoc.
Qed.

Lemma injected_nonempty labels : labels ≠ [] → injected labels ≠ [].
Proof.
  destruct labels as [|[k v] labels]; [done|]. intros _ H. unfold injected in H.
  assert (∃ s, join x2c (label <$> (k, v) :: labels) = k ++ s ∧ s ≠ []) as (s & Hs & Hne).
  { rewrite fmap_cons. unfold label at 1. cbn [fst snd]. destruct (label <$> labels) as [|w ws]; cbn [join].
    - eexists. split; [done|]. done.
    - rewrite <-app_assoc. eexists. split; [done|]. done. }
  rewrite Hs in H. apply app_eq_nil in H as [_ H]. done.
Qed.
Lemma join_terminated sep ws : ws ≠ [] → join sep ws ++ [sep] = mjoin ((λ w, w ++ [sep]) <$> ws).
Proof.
  induction ws as [|w [|w' ws] IH]; [done| |].
  - intros _. cbn. by rewrite app_nil_r.
  - intros _. change (join sep (w :: w' :: ws)) with (w ++ sep :: join sep (w' :: ws)).
    rewrite fmap_cons, mjoin_cons, <-IH by done. by rewrite <-!app_assoc.
Qed.

Lemma render_text_lines ls : render_text ls = mjoin ((λ w, w ++ [x0a]) <$> (render_line <$> ls)).
Proof. unfold render_text. by rewrite <-list_fmap_compose. Qed.

Lemma injected_text labels ls : labels ≠ [] → Forall well_formed ls →
  inject_job_label (render_text ls) labels = join x0a (render_line <$> (add_labels labels <$> ls)).
Proof.
  intros Hl Hls. unfold inject_job_label. pose proof (injected_nonempty labels Hl) as Hi.
  destruct (injected labels) as [|b i] eqn:Ei; [done|]. rewrite <-Ei. f_equal.
  rewrite render_text_lines, lines_text by (apply Forall_fmap; eapply Forall_impl; [exact Hls|]; by intros l (? & ? & _)).
  rewrite <-!list_fmap_compose. apply list_fmap_ext. intros k l Hk. cbn.
  apply inject_line_spec; [done|]. by eapply Forall_lookup_1.
Qed.
Lemma text_is_labelled labels ls : labels ≠ [] → Forall well_formed ls → ls ≠ [] →
  inject_job_label (render_text ls) labels ++ [x0a] = render_text (add_labels labels <$> ls).
Proof. intros Hl Hls Hne. rewrite injected_text, render_text_lines by done. apply join_terminated. by destruct ls. Qed.

(** On the text of well-formed metrics the labels are added in front of those of each
    sample, comments and values are untouched, and the result is the text of the labelled
    metrics without the line feed that ends its last line. *)
Theorem labels_are_injected labels ls (Hl : labels ≠ []) (Hls : Forall well_formed ls) :
  inject_job_label (render_text ls) labels = join x0a (render_line <$> (add_labels labels <$> ls)) ∧
  (ls ≠ [] → inject_job_label (render_text ls) labels ++ [x0a] = render_text (add_labels labels <$> ls)).
Proof. split; [by apply injected_text|]. intros Hne. by apply text_is_labelled. Qed.

(** [name] and [1], with the labels of the scrape handler. *)
Definition demo_labels : list (bytes * bytes) := [([x6a; x6f; x62], [x6a; x65; x74])].
Definition demo_metrics : list Line :=
  [Comment [x20; x61]; Sample [x61] [] [x31]; Sample [x62] [([x63], [x64])] [x32]].
Lemma labels_are_injected_witness :
  inject_job_label (render_text demo_metrics) demo_labels ++ [x0a] = render_text (add_labels demo_labels <$> demo_metrics).
Proof.
  apply (labels_are_injected demo_labels demo_metrics); [discriminate| |discriminate].
  repeat constructor; first [by apply (bool_decide_unpack _)|discriminate].
Defined.
End Prom.
