(* ===== verification/Metrics.v ===== *)
(** The tasks that publish the metrics of the proxy: the stake of its identity
    ([keep_stake_metrics_up_to_date_task] of [bin/jet.rs]), the push to a gateway
    ([spawn_push_prometheus_metrics], there too) and the scrape server
    ([serve_prometheus_metric] of [util/prom.rs]); all of [apps/jet/src]. *)
From S2P Require Import Prelude Types RpcRetry Stake Text Prom.
From Stdlib Require Import Strings.Byte.
Import Text.

Module Metrics.

(** ** The stake of the identity *)
Section StakeMetrics.
Context `{QL : JetStake.QuicLimits}.

(** [cluster_identity_stake], by kind. *)
Record StakeGauges := mk_gauges { jet : N; total : N; max_permit_per100ms : N; max_streams : N }.

(** What the top of the loop sets; [None] when [clamp] panics. *)
Definition stake_gauges (stake_info_map : StakeInfoMapInner) (current_identity : Pubkey) : option StakeGauges :=
  let '(stake, total_stake) := default (0, 0)%N (JetStake.get_stake_info_with_total_stake stake_info_map current_identity) in
  let max_pps := JetStake.stake_to_per100ms_limit stake total_stake in
  max_streams ← JetStake.stake_to_max_stream stake total_stake;
  Some (mk_gauges stake total_stake max_pps max_streams).

(** The task waits for the token, its timer or a new identity; the last event is the
    end of the sender of identities. *)
Inductive StakeEvent := Cancelled | Elapsed | IdentityChanged | ObserverClosed.
Inductive StakeTask := Showing (g : StakeGauges) | TaskEnded (g : StakeGauges) | TaskPanicked.
Definition show (stake_info_map : StakeInfoMapInner) (current_identity : Pubkey) : StakeTask :=
  from_option Showing TaskPanicked (stake_gauges stake_info_map current_identity).
(** With the identity and the stakes that the next iteration reads. *)
Definition stake_step (s : StakeTask) (e : StakeEvent * StakeInfoMapInner * Pubkey) : StakeTask :=
  match s with
  | Showing g =>
      match e with
      | (Cancelled, _, _) => TaskEnded g
      | (ObserverClosed, _, _) => TaskPanicked
      | (_, stake_info_map, current_identity) => show stake_info_map current_identity
      end
  | s => s
  end.

(** The gauges show the limits that the gateway of the cluster would give the identity. *)
Theorem gauges_are_the_limits m id g (Hg : stake_gauges m id = Some g) :
  JetStake.get_stake_limits m id = Some (JetStake.mk_limits (max_streams g) (max_permit_per100ms g)) ∧
  jet g = default 0%N (JetStake.get_stake_info m id).
Proof.
  revert Hg. unfold stake_gauges, JetStake.get_stake_info_with_total_stake, JetStake.get_stake_limits, JetStake.get_stake_info.
  destruct (Stake.mapping m !! id) as [stake|]; cbn -[JetStake.stake_to_max_stream JetStake.stake_to_per100ms_limit].
  - destruct (JetStake.stake_to_max_stream _ _) as [n|]; cbn; [|done]. by intros [= <-].
  - cbn. by intros [= <-].
Qed.

(** As long as the task runs, what it shows is of the stakes and the identity it read
    last. *)
Theorem shown_stakes_are_the_last_read m0 id0 l g
  (Hrun : foldl stake_step (show m0 id0) l = Showing g) :
  let '(m, id) := default (m0, id0) (last ((λ e : StakeEvent * StakeInfoMapInner * Pubkey, (e.1.2, e.2)) <$> l)) in
  stake_gauges m id = Some g.
Proof.
  revert Hrun. destruct l as [|[[e m] id] l _] using rev_ind; cbn [foldl fmap list_fmap last default from_option].
  - unfold show. destruct (stake_gauges m0 id0) as [g'|] eqn:E; cbn; [|done]. by intros [= <-].
  - rewrite foldl_app, fmap_app. change (?f <$> [?x]) with [f x]. rewrite last_snoc. cbn. unfold stake_step at 1. destruct (foldl _ _ l); [|done..].
    assert (show m id = Showing g → stake_gauges m id = Some g) as Hs
      by (unfold show; destruct (stake_gauges m id); [by intros [= <-]|done]).
    by destruct e.
Qed.
End StakeMetrics.

(** ** Publishing *)
Section Publish.
Context (pubkey_to_bytes : Pubkey → bytes).
(** [TextEncoder], on what is registered; [collect_to_text]. *)
Context (encode_to_string : option bytes).
Definition bytes_of (s : string) : bytes := String.list_byte_of_string s.

Definition collect_to_text (encoded : option bytes) : bytes := default [] encoded.
Definition metrics_handler (encoded : option bytes) : bytes :=
  Prom.inject_job_label (collect_to_text encoded) [(bytes_of "job", bytes_of "jet")].

(** One turn of the push task: the timer, with what is encoded, the identity and
    whether the request succeeds; or the token. *)
Inductive PushEvent := Tick (encoded : option bytes) (current_identity : Pubkey) (sent : bool) | PushCancelled.
Definition labels_to_inject (current_identity : Pubkey) : list (bytes * bytes) :=
  [(bytes_of "job", bytes_of "jet"); (bytes_of "instance", pubkey_to_bytes current_identity)].
(** The bodies posted until the task is cancelled. *)
Fixpoint push (l : list PushEvent) : list bytes :=
  match l with
  | Tick encoded current_identity sent :: l =>
      Prom.inject_job_label (collect_to_text encoded) (labels_to_inject current_identity) :: push l
  | PushCancelled :: _ | [] => []
  end.

(** The scrape server: a connection is served by a task of its own, and asks as often
    as it likes; [None] is a panic, when the address is taken or [accept] fails. *)
Inductive ScrapeEvent := Accepted (requests : list (option bytes)) | AcceptFailed | ScrapeCancelled.
Fixpoint accept_loop (l : list ScrapeEvent) : option (list (list bytes)) :=
  match l with
  | Accepted requests :: l => (metrics_handler <$> requests ::.) <$> accept_loop l
  | AcceptFailed :: _ => None
  | ScrapeCancelled :: _ | [] => Some []
  end.
Definition serve_prometheus_metric (bound : bool) (l : list ScrapeEvent) : option (list (list bytes)) :=
  if bound then accept_loop l else None.

(** What is pushed is one body a tick, failed or not, each the metrics of that time with
    the job and the identity of that time on every sample. *)
Theorem pushed_metrics_are_labelled (ticks : list (list Prom.Line * Pubkey * bool)) rest
  (Hwf : Forall (λ t, Forall Prom.well_formed t.1.1 ∧ t.1.1 ≠ []) ticks) :
  (λ body, body ++ [x0a]) <$>
    push (((λ t : list Prom.Line * Pubkey * bool, Tick (Some (Prom.render_text t.1.1)) t.1.2 t.2) <$> ticks) ++ PushCancelled :: rest) =
  (λ t : list Prom.Line * Pubkey * bool, Prom.render_text (Prom.add_labels (labels_to_inject t.1.2) <$> t.1.1)) <$> ticks.
Proof.
  induction Hwf as [|[[ls id] sent] ticks [Hls Hne] _ IH]; [done|]. cbn [fmap list_fmap app push collect_to_text default from_option fst snd].
  f_equal; [|exact IH]. by apply Prom.text_is_labelled.
Qed.
End Publish.
End Metrics.
