(* ===== verification/EndToEnd.v ===== *)
(** The proxy from its entries to its QUIC gateway, as [run_jet] of
    [apps/jet/src/bin/jet.rs] joins the parts: submissions ([Intake]) go through an
    unbounded channel to a scheduler ([Scheduling]), whose own channel feeds the
    fan-out in front of the gateway ([Forwarding]). *)
From S2P Require Import Prelude Types RpcRetry Commitment Blockhash Rooted Payload Text Intake Runtime Driver Retry Scheduling Fanout JetTypes JetWorker JetGateway JetInv JetSafe JetSystem JetResponses JetDemo Forwarding.
Import Retry Fanout JetTypes JetGateway Forwarding.

Module EndToEnd.

(** ** What a send task still sends *)
Section Tasks.
Context `{HI : HashIter} {Ch : Type} `{MC : Mpsc Ch TpuSenderTxn} `{ED : ErrorDisplay}.
Context `{SI : ValidatorStakeInfoService Stake} `{TI : LeaderTpuInfoService Tpu}.
Context `{ES : !ConnectionEvictionStrategy Strategy} `{LP : UpcomingLeaderPredictor Pred}.
Context `{LS : UpcomingLeaderSchedule L} `{PS : TransactionPolicyStore P}.
Context (fanout_config : FanoutConfig) (extra_fwd : list Pubkey) (has_lewis : bool).
Abbreviation Fw := (@Forwarding.Forwarding Ch).
Abbreviation fw_step := (@Forwarding.step HI Ch MC ED Stake SI Tpu TI Strategy ES Pred LP L LS P PS fanout_config extra_fwd has_lewis).
Abbreviation poll := (@Fanout.poll Ch MC L LS P PS fanout_config extra_fwd has_lewis).
Abbreviation poll_label := (@Forwarding.poll_label P PS extra_fwd).

(** The transaction of a task that still runs. *)
Definition task_transaction (t : SendTask) : option SendTransactionRequest :=
  match t with NotStarted tx | Visiting tx _ _ _ _ => Some tx | Finished _ _ => None end.

(** The most leaders the fan-out asks for, and the copies of one submission. *)
Definition max_fanout : nat := match fanout_config with Custom count => count `max` 1 | SmartFanout => 2 end.
Definition width : nat := S max_fanout + length extra_fwd.

Definition left_to_send (sig : Signature) (t : SendTask) : nat :=
  match t with
  | NotStarted tx => if decide (signature tx = sig) then width else 0
  | Visiting tx _ _ leaders extras => if decide (signature tx = sig) then length leaders + length extras else 0
  | Finished _ _ => 0
  end.
Definition all_left_to_send (sig : Signature) (f : @TransactionFanout Ch) : nat :=
  map_sum (left_to_send sig) (transaction_send_set f).
Definition tasks_from (l : list SendTransactionRequest) (f : @TransactionFanout Ch) : Prop :=
  ∀ id t tx, transaction_send_set f !! id = Some t → task_transaction t = Some tx → tx ∈ l.

Lemma fanout_count_max slot : fanout_count fanout_config slot ≤ max_fanout.
Proof. unfold fanout_count, max_fanout. destruct fanout_config; [done|]. destruct (_ <? _)%N; lia. Qed.

(** What an iteration leaves of a task, whatever the channel does. *)
Lemma poll_cases service store t c t' c' k (Hp : poll service store t c = Some (t', c', k)) :
  match t with
  | NotStarted tx => let slot := get_current_slot service in
      t' = Visiting tx slot [] (leader_lookahead service (fanout_count fanout_config slot)) extra_fwd
  | Visiting tx slot visited (dest :: leaders) extras => t' = Finished (signature tx) false ∨
      t' = Visiting tx slot (visited ++ [(dest, is_allowed store (policies tx) dest)]) leaders extras
  | Visiting tx slot visited [] (_ :: extras) => t' = Finished (signature tx) false ∨ t' = Visiting tx slot visited [] extras
  | Visiting tx _ _ [] [] => t' = Finished (signature tx) true
  | Finished _ _ => False
  end.
Proof.
  revert Hp. unfold Fanout.poll. destruct t as [tx|tx slot visited [|dest leaders] extras|sg ok]; [..|done].
  - by intros [= <- _ _].
  - destruct extras as [|e extras]; [by intros [= <- _ _]|]. case_decide; [intros [= <- _ _]; auto|].
    destruct (Fanout.send _ _) as [[[|] c1]|]; cbn; try done; intros [= <- _ _]; auto.
  - destruct (is_allowed store (policies tx) dest); [|intros [= <- _ _]; auto].
    destruct (Fanout.send _ _) as [[[|] c1]|]; cbn; try done; intros [= <- _ _]; auto.
Qed.

Lemma poll_transaction service store t c t' c' k : poll service store t c = Some (t', c', k) →
  ∀ tx, task_transaction t' = Some tx → task_transaction t = Some tx.
Proof.
  intros Hp tx'. apply poll_cases in Hp. destruct t as [tx|tx slot visited [|dest leaders] [|e extras]|sg ok]; cbn in Hp |- *;
    [by subst|by subst| | | |done]; by destruct Hp as [->| ->].
Qed.

Lemma next_send_transaction store t txn : next_send store t = Some txn →
  ∃ tx dest, task_transaction t = Some tx ∧ txn = gateway_txn tx dest.
Proof.
  unfold next_send. destruct t as [tx|tx slot visited [|dest leaders] [|e extras]|sg ok]; try done;
    case_match; try done; intros [= <-]; cbn [task_transaction]; eauto.
Qed.

Lemma forwards_one sig store t tx : task_transaction t = Some tx →
  forwarded_in sig (poll_label store t) ≤ if decide (signature tx = sig) then 1 else 0.
Proof.
  intros Ht. destruct (label_forwards extra_fwd sig store t) as (-> & _).
  destruct (next_send store t) as [txn|] eqn:En; cbn; [|lia].
  apply next_send_transaction in En as (tx' & dest & Ht' & ->). assert (tx' = tx) as -> by congruence.
  unfold txn_is. cbn. case_decide; lia.
Qed.

(** An iteration that forwards a copy has one less to forward. *)
Lemma poll_left service store t c t' c' k sig
  (Hwide : ∀ n, length (leader_lookahead service n) ≤ S n) :
  poll service store t c = Some (t', c', k) →
  left_to_send sig t' + forwarded_in sig (poll_label store t) ≤ left_to_send sig t.
Proof.
  intros Hp. apply poll_cases in Hp. pose proof (forwards_one sig store t) as Hone.
  destruct t as [tx|tx slot visited [|dest leaders] extras|sg ok]; [| | |done].
  - pose proof (fanout_count_max (get_current_slot service)).
    specialize (Hwide (fanout_count fanout_config (get_current_slot service))).
    cbn in Hp. subst t'. cbn [left_to_send]. unfold width. change (forwarded_in sig _) with 0. case_decide; lia.
  - destruct extras as [|e extras]; [subst t'; destruct (label_forwards extra_fwd sig store (Visiting tx slot visited [] [])) as (-> & _); cbn; lia|]. specialize (Hone tx eq_refl).
    cbn [left_to_send length]. destruct Hp as [->| ->]; cbn [left_to_send length]; case_decide; lia.
  - specialize (Hone tx eq_refl). cbn [left_to_send length].
    destruct Hp as [->| ->]; cbn [left_to_send length]; case_decide; lia.
Qed.

(** ** What a step of the fan-out does to the tasks *)
Inductive tasks_step : gmap N SendTask → Label → gmap N SendTask → Prop :=
  | ts_same l m : (∀ sig, forwarded_in sig l = 0) → tasks_step m l m
  | ts_spawn id tx m : tasks_step m (Submitted tx) (<[id := NotStarted tx]> m)
  | ts_poll id service store t c t' c' k m :
      m !! id = Some t → poll service store t c = Some (t', c', k) → tasks_step m (poll_label store t) (<[id := t']> m)
  | ts_join id m : tasks_step m Quiet (delete id m).
Definition submitted (l : Label) : option SendTransactionRequest :=
  match l with Submitted tx => Some tx | _ => None end.

Lemma step_tasks E s l s' : fw_step E s l s' → tasks_step (transaction_send_set (fan s)) l (transaction_send_set (fan s')).
Proof.
  destruct 1 as [tx f' s Hev|id service store t f' s Ht Hev|id f' s Hev|service r f' s Hr Hev|tx f' gw' s Hr Hev _|l gw' s _ _]; upd_simpl.
  - injection Hev as <-. unfold fwd_tx. case_decide; upd_simpl; by constructor.
  - destruct (poll_frame _ _ _ id service store t (fan s) f' Ht Hev) as (t' & c' & k & Hp & _ & -> & _). by eapply ts_poll.
  - destruct (join_frame _ _ _ id (fan s) f' Hev) as (k & ok & _ & _ & -> & _). constructor.
  - injection Hev as <-. unfold handle_gateway_response. upd_simpl. by constructor.
  - injection Hev as <-. upd_simpl. by constructor.
  - by constructor.
Qed.

Lemma tasks_step_from k m l m' : tasks_step m l m' →
  (∀ id t tx, m !! id = Some t → task_transaction t = Some tx → tx ∈ k) →
  (∀ id t tx, m' !! id = Some t → task_transaction t = Some tx → tx ∈ k ++ option_list (submitted l)) ∧
  (∀ txn, l = Forwarded txn → ∃ tx dest, tx ∈ k ∧ txn = gateway_txn tx dest).
Proof.
  destruct 1 as [l m Hl|id tx m|id service store t c t' c' x m Ht Hp|id m]; intros Hk.
  - split; [intros; apply elem_of_app; left; eauto|]. intros txn ->.
    specialize (Hl (tx_sig txn)). cbn in Hl. unfold txn_is in Hl. by rewrite decide_True in Hl.
  - split; [|done]. intros id' t tx' [[? <-]|[? ?]]%lookup_insert_Some Ht; apply elem_of_app; [right|left; eauto].
    injection Ht as <-. by left.
  - split.
    + intros id' t0 tx' [[? <-]|[? ?]]%lookup_insert_Some Ht'; apply elem_of_app; left; [|by eauto].
      eapply Hk; [exact Ht|]. by eapply poll_transaction.
    + intros txn. unfold Forwarding.poll_label. destruct (next_send store t) as [txn'|] eqn:En; [|by destruct (gives_up _ t)].
      intros [= <-]. apply next_send_transaction in En as (tx & dest & Hx & ->). eauto.
  - split; [|done]. intros id' t tx [_ ?]%lookup_delete_Some Ht. apply elem_of_app. left. eauto.
Qed.

Lemma tasks_step_left sig m l m' (Hwide : ∀ service n, length (leader_lookahead service n) ≤ S n) : tasks_step m l m' →
  map_sum (left_to_send sig) m' + forwarded_in sig l ≤
  map_sum (left_to_send sig) m + width * count_signature sig (option_list (submitted l)).
Proof.
  destruct 1 as [l m Hl|id tx m|id service store t c t' c' k m Ht Hp|id m].
  - rewrite Hl. lia.
  - pose proof (map_sum_insert (left_to_send sig) m id (NotStarted tx)) as H.
    change (option_list (submitted (Submitted tx))) with [tx].
    unfold count_signature. rewrite filter_cons, filter_nil. cbn [left_to_send] in H. cbn [forwarded_in].
    case_decide; cbn [length] in *; lia.
  - apply (poll_left _ _ _ _ _ _ _ sig (Hwide service)) in Hp.
    pose proof (map_sum_insert (left_to_send sig) m id t') as H. rewrite Ht in H. cbn [from_option] in H. lia.
  - pose proof (map_sum_delete_opt (left_to_send sig) m id). cbn [forwarded_in]. lia.
Qed.
End Tasks.

(** ** The whole proxy *)
Section Proxy.
Context `{TV : TransactionView} `{TX : TextCodecs} `{LJ : Payload.LegacyJson} `{PF : PubkeyFromStr} `{!TransactionLaws}.
Context (form_urlencoded : Text.bytes → list (Text.bytes * Text.bytes)).
Context `{TS : TransactionScheduler Sch Ev} `{!SchedulerLaws Sch Ev}.
Context `{HI : HashIter} {Ch : Type} `{MC : Mpsc Ch TpuSenderTxn} `{ED : ErrorDisplay}.
Context `{SI : ValidatorStakeInfoService Stake} `{TI : LeaderTpuInfoService Tpu}.
Context `{ES : !ConnectionEvictionStrategy Strategy} `{LP : UpcomingLeaderPredictor Pred}.
Context `{LS : UpcomingLeaderSchedule L} `{PS : TransactionPolicyStore P}.
Context (fanout_config : FanoutConfig) (extra_fwd : list Pubkey) (has_lewis : bool).
Abbreviation Fw := (@Forwarding.Forwarding Ch).
Abbreviation fw_step := (@Forwarding.step HI Ch MC ED Stake SI Tpu TI Strategy ES Pred LP L LS P PS fanout_config extra_fwd has_lewis).
Abbreviation submit := (Intake.submit form_urlencoded).

(** The requests accepted and how many of them the scheduler read; the scheduler, and
    how much of what it sent the fan-out read; the fan-out and the gateway. *)
Record Proxy := mk_proxy {
  sink : list SendTransactionRequest; taken : nat; sched : Sch; passed : nat; fw : Fw
}.
#[local] Instance Proxy_settable : Settable Proxy := λ r, mk_proxy (sink r) (taken r) (sched r) (passed r) (fw r).

Inductive ProxyLabel :=
  | Entered (sub : Intake.Submission) (accepted : bool)
  | Turned (e : Ev)
  | Inside (l : Label).

Inductive proxy_step E : Proxy → ProxyLabel → Proxy → Prop :=
  | px_enter sub ok l s :
      submit sub (Some (sink s)) = (Some ok, Some l) → proxy_step E s (Entered sub ok) (s <| sink := l |>)
  | px_read e t x s :
      sched_source e = Some t → sink s !! taken s = Some t → sched_step (sched s) e = Some x →
      proxy_step E s (Turned e) (s <| sched := x |> <| taken ::= S |>)
  | px_turn e x s :
      sched_source e = None → sched_step (sched s) e = Some x → proxy_step E s (Turned e) (s <| sched := x |>)
  | px_pass t f s :
      sched_sent (sched s) !! passed s = Some t → fw_step E (fw s) (Submitted t) f →
      proxy_step E s (Inside (Submitted t)) (s <| fw := f |> <| passed ::= S |>)
  | px_inside l f s :
      submitted l = None → fw_step E (fw s) l f → proxy_step E s (Inside l) (s <| fw := f |>).

Inductive proxy_trace E : Proxy → list ProxyLabel → Proxy → Prop :=
  | pt_nil s : proxy_trace E s [] s
  | pt_cons s l s1 ls s2 : proxy_step E s l s1 → proxy_trace E s1 ls s2 → proxy_trace E s (l :: ls) s2.

(** [run_jet]: every part new, every channel empty. *)
Definition proxy_started (s : Proxy) : Prop :=
  sink s = [] ∧ taken s = 0 ∧ sched_started (sched s) ∧ passed s = 0 ∧ Forwarding.started (fw s).

Definition turn (l : ProxyLabel) : option Ev := match l with Turned e => Some e | _ => None end.
Definition inside (l : ProxyLabel) : option Label := match l with Inside l => Some l | _ => None end.
Definition passed_on (ls : list ProxyLabel) : list SendTransactionRequest := omap (λ l, inside l ≫= submitted) ls.
Definition copies (sig : Signature) (ls : list ProxyLabel) : nat := over (forwarded_in sig) (omap inside ls).

(** Of a run from [s0]: the parts agree on what went through the channels between them. *)
Record history (s0 : Proxy) (ls : list ProxyLabel) (s : Proxy) : Prop := {
  hi_sink : Forall Intake.valid_request (sink s);
  hi_taken : omap sched_source (omap turn ls) = take (taken s) (sink s);
  hi_taken_le : taken s ≤ length (sink s);
  hi_sched : sched_run (sched s0) (omap turn ls) = Some (sched s);
  hi_passed : passed_on ls = take (passed s) (sched_sent (sched s));
  hi_passed_le : passed s ≤ length (sched_sent (sched s));
  hi_tasks id t tx : transaction_send_set (fan (fw s)) !! id = Some t → task_transaction t = Some tx → tx ∈ passed_on ls;
  hi_forwarded txn : Inside (Forwarded txn) ∈ ls → ∃ tx dest, tx ∈ passed_on ls ∧ txn = gateway_txn tx dest;
  hi_copies sig : (∀ service n, length (leader_lookahead service n) ≤ S n) →
    all_left_to_send fanout_config extra_fwd sig (fan (fw s)) + copies sig ls ≤
    width fanout_config extra_fwd * count_signature sig (passed_on ls)
}.

Lemma history_started s : proxy_started s → history s [] s.
Proof.
  intros (E1 & E2 & H3 & E4 & (n & c & _ & E5)). split; rewrite ?E1, ?E2, ?E4, ?E5.
  - constructor.
  - done.
  - done.
  - done.
  - done.
  - lia.
  - intros id t tx. cbn. by rewrite lookup_empty.
  - by intros txn ?%elem_of_nil.
  - intros sig _. unfold all_left_to_send. cbn. rewrite map_sum_empty. lia.
Qed.

Lemma passed_on_snoc ls l : passed_on (ls ++ [l]) = passed_on ls ++ option_list (inside l ≫= submitted).
Proof. unfold passed_on. rewrite omap_app. by destruct l as [| |[]]. Qed.
Lemma over_app f (l k : list Label) : over f (l ++ k) = over f l + over f k.
Proof. induction l as [|a l IH]; [done|]. cbn. unfold over in IH. rewrite IH. unfold over. lia. Qed.
Lemma copies_snoc sig ls l : copies sig (ls ++ [l]) = copies sig ls + from_option (forwarded_in sig) 0 (inside l).
Proof.
  unfold copies. rewrite omap_app, over_app. destruct l; cbn; lia.
Qed.

(** The fan-out's part of the history, kept by a step that passes nothing on inside. *)
Lemma history_fan s0 ls s l f E k : history s0 ls s → l = Inside k → fw_step E (fw s) k f →
  (∀ id t tx, transaction_send_set (fan f) !! id = Some t → task_transaction t = Some tx → tx ∈ passed_on (ls ++ [l])) ∧
  (∀ txn, Inside (Forwarded txn) ∈ ls ++ [l] → ∃ tx dest, tx ∈ passed_on (ls ++ [l]) ∧ txn = gateway_txn tx dest) ∧
  (∀ sig, (∀ service n, length (leader_lookahead service n) ≤ S n) →
    all_left_to_send fanout_config extra_fwd sig (fan f) + copies sig (ls ++ [l]) ≤
    width fanout_config extra_fwd * count_signature sig (passed_on (ls ++ [l]))).
Proof.
  intros Hh -> Hs. apply step_tasks in Hs. rewrite passed_on_snoc. cbn [inside mbind option_bind].
  destruct (tasks_step_from _ _ _ (passed_on ls) _ _ _ Hs (hi_tasks _ _ _ Hh)) as [H1 H2]. split_and!.
  - exact H1.
  - intros txn [Hin|Hin]%elem_of_app.
    + destruct (hi_forwarded _ _ _ Hh txn Hin) as (tx & dest & ? & ?). exists tx, dest. split; [|done]. apply elem_of_app. auto.
    + apply list_elem_of_singleton in Hin as [= <-]. destruct (H2 txn eq_refl) as (tx & dest & ? & ?).
      exists tx, dest. split; [|done]. apply elem_of_app. auto.
  - intros sig Hwide. rewrite copies_snoc, count_signature_app. cbn [inside from_option].
    pose proof (hi_copies _ _ _ Hh sig Hwide). apply (tasks_step_left _ _ _ sig) in Hs; [|done].
    unfold all_left_to_send in *. lia.
Qed.
(** A step outside the fan-out keeps its part. *)
Lemma history_outside s0 ls s l sink' taken' sched' : history s0 ls s → inside l = None →
  let s' := mk_proxy sink' taken' sched' (passed s) (fw s) in
  Forall Intake.valid_request sink' → omap sched_source (omap turn (ls ++ [l])) = take taken' sink' →
  taken' ≤ length sink' → sched_run (sched s0) (omap turn (ls ++ [l])) = Some sched' →
  (∃ k, sched_sent sched' = sched_sent (sched s) ++ k) → history s0 (ls ++ [l]) s'.
Proof.
  cbn zeta. intros Hh Hl Hv Ht Hle Hr [k Hk].
  assert (passed_on (ls ++ [l]) = passed_on ls) as Ep by (rewrite passed_on_snoc, Hl; apply app_nil_r).
  split; cbn [sink taken sched passed fw]; rewrite ?Ep; try done.
  - rewrite Hk, take_app_le by apply (hi_passed_le _ _ _ Hh). apply Hh.
  - rewrite Hk, length_app. pose proof (hi_passed_le _ _ _ Hh). lia.
  - apply Hh.
  - intros txn [Hin|Hin%list_elem_of_singleton]%elem_of_app; [by apply (hi_forwarded _ _ _ Hh)|by subst l].
  - intros sig Hwide. rewrite copies_snoc, Hl. cbn [from_option]. pose proof (hi_copies _ _ _ Hh sig Hwide). lia.
Qed.

Lemma history_step E s0 ls s l s' : history s0 ls s → proxy_step E s l s' → history s0 (ls ++ [l]) s'.
Proof.
  intros Hh Hs. pose proof Hh as [Hv Ht Htle Hr Hp Hple _ _ _].
  destruct Hs as [sub ok l s Hsub|e t x s He Hk Hx|e x s He Hx|t f s Hk Hf|l f s Hl Hf].
  - apply (history_outside s0 ls s); [done|done|..]; rewrite ?omap_app; cbn [omap list_omap turn]; rewrite ?app_nil_r; [..|exact Hr|].
    + destruct (Intake.submit_spec form_urlencoded sub (sink s)) as [Hq|(req & Hq & Hreq)]; rewrite Hq in Hsub;
        injection Hsub as _ <-; [done|]. apply Forall_app. by repeat constructor.
    + destruct (Intake.submit_spec form_urlencoded sub (sink s)) as [Hq|(req & Hq & Hreq)]; rewrite Hq in Hsub;
        injection Hsub as _ <-; [done|]. by rewrite take_app_le.
    + destruct (Intake.submit_spec form_urlencoded sub (sink s)) as [Hq|(req & Hq & Hreq)]; rewrite Hq in Hsub;
        injection Hsub as _ <-; [done|]. rewrite length_app. lia.
    + exists []. by rewrite app_nil_r.
  - apply (history_outside s0 ls s); [done|done|exact Hv|..]; rewrite ?omap_app; cbn [omap list_omap turn].
    + rewrite He, Ht. symmetry. by apply take_S_r.
    + by apply lookup_lt_Some in Hk.
    + by rewrite sched_run_snoc, Hr.
    + by apply (sched_appends _ e).
  - apply (history_outside s0 ls s); [done|done|exact Hv|..]; rewrite ?omap_app; cbn [omap list_omap turn]; [..|done| |].
    + by rewrite He, app_nil_r.
    + by rewrite sched_run_snoc, Hr.
    + by apply (sched_appends _ e).
  - destruct (history_fan s0 ls s (Inside (Submitted t)) f E _ Hh eq_refl Hf) as (H1 & H2 & H3).
    split; try done; upd_simpl; rewrite ?omap_app; cbn [omap list_omap turn]; rewrite ?app_nil_r; try done.
    + rewrite passed_on_snoc, Hp. symmetry. by apply take_S_r.
    + by apply lookup_lt_Some in Hk.
  - destruct (history_fan s0 ls s (Inside l) f E _ Hh eq_refl Hf) as (H1 & H2 & H3).
    split; try done; upd_simpl; rewrite ?omap_app; cbn [omap list_omap turn]; rewrite ?app_nil_r; try done.
    rewrite passed_on_snoc, Hp. cbn. by rewrite Hl, app_nil_r.
Qed.

Lemma history_trace E s0 ls s : proxy_started s0 → proxy_trace E s0 ls s → history s0 ls s.
Proof.
  intros Hs%history_started Ht.
  assert (∀ s1 ls s2, proxy_trace E s1 ls s2 → ∀ pre, history s0 pre s1 → history s0 (pre ++ ls) s2) as Hgo.
  { clear Ht. induction 1 as [s1|s1 l s2 ks s3 Hx _ IH]; intros pre Hh; [by rewrite app_nil_r|].
    apply (history_step _ _ _ _ _ _ Hh) in Hx. apply IH in Hx. by rewrite <-app_assoc in Hx. }
  exact (Hgo _ _ _ Ht [] Hs).
Qed.

(** What is passed on came in, and no more of it than the scheduler allows. *)
Lemma passed_on_accepted s0 ls s tx : proxy_started s0 → history s0 ls s → tx ∈ passed_on ls → tx ∈ take (taken s) (sink s).
Proof.
  intros (_ & _ & Hs & _) [Hv Ht _ Hr Hp _ _ _ _] Hin. rewrite Hp in Hin. rewrite <-Ht.
  eapply sched_honest; [exact Hs|exact Hr|]. by eapply subseteq_take.
Qed.

Lemma passed_on_bounded s0 ls s sig : proxy_started s0 → history s0 ls s →
  count_signature sig (passed_on ls) ≤ total_allowance sched_allowance sig (sink s).
Proof.
  intros (_ & _ & Hs & _) [Hv Ht _ Hr Hp _ _ _ _].
  pose proof (sched_bounded _ _ _ sig Hs Hr) as Hb. rewrite Ht in Hb. rewrite Hp.
  rewrite <-(take_drop (passed s) (sched_sent (sched s))), count_signature_app in Hb.
  rewrite <-(take_drop (taken s) (sink s)) at 1. rewrite total_allowance_app. lia.
Qed.

(** C18: Only what was asked for is sent: in every run of the proxy, from its RPC, gRPC and
    HTTP entries through either scheduler to the gateway, each copy handed to the gateway
    is of an accepted submission that the scheduler read: a sanitized transaction with its
    own first signature, its blockhash and a wire form within the packet size. *)
Theorem only_accepted_transactions_are_forwarded E s0 ls s txn (Hs : proxy_started s0) (Hrun : proxy_trace E s0 ls s)
  (Hin : Inside (Forwarded txn) ∈ ls) :
  ∃ t dest, t ∈ take (taken s) (sink s) ∧ Intake.valid_request t ∧ txn = gateway_txn t dest.
Proof.
  pose proof (history_trace _ _ _ _ Hs Hrun) as Hh. destruct (hi_forwarded _ _ _ Hh txn Hin) as (t & dest & Ht & ->).
  apply (passed_on_accepted _ _ _ _ Hs Hh) in Ht. exists t, dest. split_and!; [done| |done].
  pose proof (hi_sink _ _ _ Hh) as Hv. rewrite Forall_forall in Hv. apply Hv. by eapply subseteq_take.
Qed.

(** C19: The proxy does not amplify without bound: the copies of a signature it hands to
    the gateway are at most the fan-out width (the leaders asked for, one more for a window
    that straddles, the extra peers) times what the scheduler allows the accepted
    submissions of that signature: one send each, or as many as the retries asked for,
    capped. *)
Theorem traffic_is_bounded E s0 ls s sig (Hwide : ∀ service n, length (leader_lookahead service n) ≤ S n)
  (Hs : proxy_started s0) (Hrun : proxy_trace E s0 ls s) :
  copies sig ls ≤ width fanout_config extra_fwd * total_allowance sched_allowance sig (sink s).
Proof.
  pose proof (history_trace _ _ _ _ Hs Hrun) as Hh. pose proof (hi_copies _ _ _ Hh sig Hwide).
  pose proof (passed_on_bounded _ _ _ sig Hs Hh).
  apply Nat.le_trans with (m := width fanout_config extra_fwd * count_signature sig (passed_on ls)); [lia|].
  by apply Nat.mul_le_mono_l.
Qed.
End Proxy.
End EndToEnd.

(** ** A run: an HTTP submission reaches the channel of the gateway. *)
Module EndToEndDemo.
Import JetDemo ForwardingDemo EndToEnd.
#[local] Existing Instances Payload.demo_codec Payload.demo_text Payload.demo_parse Payload.demo_json Intake.demo_view Intake.demo_tx_laws.
#[local] Existing Instances elements_iter Blockhash.blockhash_queue leaders.
Abbreviation Rooted := Rooted.RootedTransactionsState.
Abbreviation Sched := (@Retry.Scheduler Rooted).
Abbreviation SchedEvent := (@Retry.Event (gmap N Commitment.BlockMetaWithCommitment) Rooted).
#[local] Instance demo_scheduler : TransactionScheduler Sched SchedEvent := resending Retry.cfg true.
#[local] Instance demo_scheduler_laws : SchedulerLaws Sched SchedEvent := resending_laws Retry.cfg true.
Abbreviation Px := (@Proxy Sched Ch).
Abbreviation px_step := (@proxy_step _ _ _ _ _ Intake.demo_form Sched SchedEvent _ _ Ch _ _ _ _ _ _ _ _ _ _ unit _ unit _ SmartFanout [] false).

Abbreviation px_trace := (@proxy_trace _ _ _ _ _ Intake.demo_form Sched SchedEvent _ _ Ch _ _ _ _ _ _ _ _ _ _ unit _ unit _ SmartFanout [] false).

Inductive ProxyCommand := Enter (sub : Intake.Submission) | Turn (now : N) | Pass | Inner (cmd : Command).
Definition px_next (cmd : ProxyCommand) (s : Px) : option (ProxyLabel * Px) :=
  match cmd with
  | Enter sub =>
      match Intake.submit Intake.demo_form sub (Some (sink s)) with
      | (Some ok, Some l) => Some (Entered sub ok, mk_proxy l (taken s) (sched s) (passed s) (fw s))
      | _ => None
      end
  | Turn now =>
      t ← sink s !! taken s;
      let e : SchedEvent := Source Retry.demo_queue t now in
      x ← sched_step (sched s) e; Some (Turned e, mk_proxy (sink s) (S (taken s)) x (passed s) (fw s))
  | Pass =>
      t ← sched_sent (sched s) !! passed s;
      f ← fan_event (Incoming t) (fw s);
      Some (Inside (Submitted t), mk_proxy (sink s) (taken s) (sched s) (S (passed s)) (mk f (gw (fw s)) (heard (fw s))))
  | Inner cmd =>
      '(l, f) ← next cmd (fw s);
      match submitted l with None => Some (Inside l, mk_proxy (sink s) (taken s) (sched s) (passed s) f) | Some _ => None end
  end.

Lemma px_next_step cmd s l s' : px_next cmd s = Some (l, s') → px_step (only []) s l s'.
Proof.
  destruct cmd as [sub|now| |cmd]; cbn [px_next].
  - destruct (Intake.submit _ _ _) as [[ok|] [k|]] eqn:E; try done. intros [= <- <-]. by apply px_enter.
  - destruct (sink s !! taken s) as [t|] eqn:Et; [|done]. cbn [mbind option_bind].
    destruct (sched_step _ _) as [x|] eqn:Ex; [|done]. intros [= <- <-]. by eapply px_read.
  - destruct (sched_sent _ !! passed s) as [t|] eqn:Et; [|done]. cbn [mbind option_bind].
    destruct (fan_event _ _) as [f|] eqn:Ef; [|done]. intros [= <- <-]. apply fan_event_some in Ef.
    eapply px_pass; [exact Et|]. by apply (fw_submit _ _ _ _ t f (fw s)).
  - destruct (next cmd (fw s)) as [[k f]|] eqn:En; [|done]. cbn [mbind option_bind].
    destruct (submitted k) eqn:Ek; [done|]. intros [= <- <-]. apply next_step in En. by apply px_inside.
Qed.

Fixpoint px_play (cmds : list ProxyCommand) (s : Px) : option (list ProxyLabel * Px) :=
  match cmds with
  | [] => Some ([], s)
  | cmd :: cmds => '(l, s) ← px_next cmd s; '(ls, s) ← px_play cmds s; Some (l :: ls, s)
  end.
Lemma px_play_steps cmds s ls s' : px_play cmds s = Some (ls, s') → px_trace (only []) s ls s'.
Proof.
  revert s ls. induction cmds as [|cmd cmds IH]; intros s ls; cbn [px_play]; [intros [= <- <-]; constructor|].
  destruct (px_next cmd s) as [[l s1]|] eqn:En; [|done]. cbn [mbind option_bind].
  destruct (px_play cmds s1) as [[ls1 s2]|] eqn:Ep; [|done]. cbn. intros [= <- <-].
  econstructor; [by eapply px_next_step|by apply IH].
Qed.

Definition px_start : Px := mk_proxy [] 0 Retry.demo_new 0 start.
Lemma px_start_started : proxy_started px_start.
Proof. split_and!; [done|done| |done|apply start_started]. by exists Rooted.new. Qed.

(** Two bytes posted raw are signature 1; leader 1 is sent its copy. *)
Definition posted : Intake.Submission :=
  Intake.SubmitHttp (Intake.demo_http true (Some (Some (Intake.text "application/octet-stream"))) [Byte.x01; Byte.x02]).
Definition px_run : option (list ProxyLabel * Px) :=
  px_play [Enter posted; Turn 0; Pass; Inner (PollTask 0); Inner (PollTask 0); Inner (Prepare 1); Inner (Accept 2)] px_start.
Definition px_copy : TpuSenderTxn := from_bytes 1 1 [Byte.x01; Byte.x02].

Lemma only_accepted_transactions_are_forwarded_witness : ∃ ls s, px_run = Some (ls, s) ∧
  Inside (Forwarded px_copy) ∈ ls ∧
  ∃ t dest, t ∈ take (taken s) (sink s) ∧ Intake.valid_request t ∧ px_copy = gateway_txn t dest.
Proof.
  destruct px_run as [[ls s]|] eqn:E; [|vm_compute in E; discriminate E]. exists ls, s. split; [reflexivity|].
  assert (Inside (Forwarded px_copy) ∈ ls) as Hin
    by (vm_compute in E; injection E as <- _; apply list_elem_of_lookup; exists 4; reflexivity).
  split; [exact Hin|].
  exact (only_accepted_transactions_are_forwarded Intake.demo_form SmartFanout [] false (only []) px_start ls s px_copy
    px_start_started (px_play_steps _ _ _ _ E) Hin).
Defined.

Lemma traffic_is_bounded_witness : ∃ ls s, px_run = Some (ls, s) ∧ copies 1%N ls = 1 ∧
  1 ≤ width SmartFanout [] * total_allowance sched_allowance 1%N (sink s).
Proof.
  destruct px_run as [[ls s]|] eqn:E; [|vm_compute in E; discriminate E]. exists ls, s. split; [reflexivity|].
  assert (copies 1%N ls = 1) as H1 by (vm_compute in E; injection E as <- _; reflexivity).
  split; [exact H1|]. rewrite <-H1.
  refine (traffic_is_bounded Intake.demo_form SmartFanout [] false (only []) px_start ls s 1%N _
    px_start_started (px_play_steps _ _ _ _ E)).
  intros [] n. cbn [leader_lookahead leaders]. rewrite length_take. lia.
Defined.
End EndToEndDemo.
