(* ===== verification/Challenge.v ===== *)
(** Proving the possession of a key ([pubkey_challenger.rs] of [apps/jet/src]): a
    challenge signed by the challenger, its answer, and the one-time tokens that
    an accepted answer is worth. *)
From S2P Require Import Prelude Types Payload.
From Stdlib Require Import Strings.Byte.

#[export] Instance byte_countable : Countable byte :=
  inj_countable Byte.to_N Byte.of_N Byte.of_to_N.

(** [Signer] and [Signature::verify]. *)
Class Signer (S : Type) := {
  sign_message : S → list byte → Signature;
  signer_pubkey : S → Pubkey
}.
Class Verify := verify : Signature → Pubkey → list byte → bool.
(** A signature is verified by the key of its signer. *)
Class SignerLaws (S : Type) `{Signer S} `{Verify} : Prop :=
  verify_sign : ∀ (s : S) m, verify (sign_message s m) (signer_pubkey s) m = true.

Module Challenge.

Inductive VerifyAnswerError := InvalidChallengeFormat | InvalidChallenge | InvalidChallengeeSignature | ChallengeExpired.
Inductive OneTimeAuthTokenClaimError := NotFound | PubkeyMismatch.

Record SigChallenge := mk_challenge { pubkey_to_verify : Pubkey; timestamp : N; nonce : list byte }.
Record SignedSigChallenge := mk_signed { challenge_signature : Signature; serialized : list byte }.
(** [OneTimeAuthToken]: its [pubkey] and its [nonce]. *)
Abbreviation OneTimeAuthToken := (Pubkey * list byte)%type.
Definition pubkey (t : OneTimeAuthToken) : Pubkey := t.1.

(** [bincode] on the two structures. *)
Class ChallengeCodec := {
  serialize_challenge : SigChallenge → list byte;
  deserialize_challenge : list byte → option SigChallenge;
  serialize_signed : SignedSigChallenge → list byte;
  deserialize_signed : list byte → option SignedSigChallenge
}.
Class ChallengeLaws `{ChallengeCodec} `{TextCodecs} : Prop := {
  challenge_roundtrip : ∀ c, deserialize_challenge (serialize_challenge c) = Some c;
  signed_roundtrip : ∀ c, deserialize_signed (serialize_signed c) = Some c;
  challenge_bs58_roundtrip : ∀ b, bs58_decode (bs58_encode b) = Some b
}.

(** ** [InMemoryTokenStore] *)
Abbreviation Store := (gmap (Pubkey * list byte) (Pubkey * Instant)).
(** [deadline.elapsed() == Duration::ZERO], which saturates. *)
Definition live (now : Instant) (p : OneTimeAuthToken * (Pubkey * Instant)) : Prop := (now ≤ p.2.2)%N.
#[export] Instance live_dec now p : Decision (live now p) := decide (now ≤ p.2.2)%N.
Definition collect_expired (now : Instant) (inner : Store) : Store := filter (live now) inner.

(** [nonce] is the fresh UUID; [None] is the panic of a collision. *)
Definition generate_new (pubkey : Pubkey) (ttl : Duration) (nonce : list byte) (now : Instant) (inner : Store)
    : option OneTimeAuthToken * Store :=
  let token := (pubkey, nonce) in
  let expire_at := (now + ttl)%N in
  match inner !! token with
  | Some old => (None, <[token := (pubkey, expire_at)]> inner)
  | None => (Some token, collect_expired now (<[token := (pubkey, expire_at)]> inner))
  end.
Definition claim (token : OneTimeAuthToken) (now : Instant) (inner : Store) : (unit + OneTimeAuthTokenClaimError) * Store :=
  match inner !! token with
  | Some (actual_bound_pubkey, deadline) =>
      let inner := delete token inner in
      if (deadline <? now)%N then (inr NotFound, inner)
      else if decide (actual_bound_pubkey ≠ pubkey token) then (inr PubkeyMismatch, inner)
      else (inl tt, collect_expired now inner)
  | None => (inr NotFound, inner)
  end.

Lemma collected_Some now inner t x : inner !! t = Some x → (now ≤ x.2)%N → collect_expired now inner !! t = Some x.
Proof. intros Ht Hx. by apply map_lookup_filter_Some. Qed.
Lemma collected_None now inner t : inner !! t = None → collect_expired now inner !! t = None.
Proof. intros Ht. apply map_lookup_filter_None. by left. Qed.

Lemma claim_live t now inner d : inner !! t = Some (pubkey t, d) → (now ≤ d)%N →
  claim t now inner = (inl tt, collect_expired now (delete t inner)).
Proof.
  intros Ht Hd. unfold claim. rewrite Ht. destruct (N.ltb_spec d now); [lia|]. by rewrite decide_False by (intros E; by apply E).
Qed.
Lemma claim_gone t now inner : inner !! t = None → claim t now inner = (inr NotFound, inner).
Proof. intros Ht. unfold claim. by rewrite Ht. Qed.

(** ** [SigChallenger] *)
Section SigChallenger.
Context {K : Type} `{SG : Signer K} `{VF : Verify} `{TX : TextCodecs} `{CC : ChallengeCodec}.
Context (challenge_signer : K) (one_time_auth_token_ttl : Duration).

Definition append_nonce_and_sign (signer : K) (challenge nonce : list byte) : Signature :=
  sign_message signer (challenge ++ nonce).

(** [now] is the system time, in nanoseconds since the epoch. *)
Definition create_challenge (pubkey_to_verify : Pubkey) (nonce : list byte) (now : N) : string :=
  let since_epoch := (now / 1000000000)%N in
  let challenge := mk_challenge pubkey_to_verify since_epoch nonce in
  let ser_challenge := serialize_challenge challenge in
  let signature := sign_message challenge_signer ser_challenge in
  bs58_encode (serialize_signed (mk_signed signature ser_challenge)).

Inductive Verdict := Accepted (token : OneTimeAuthToken) | Rejected (e : VerifyAnswerError) | VerifyPanic.
(** [token_nonce] is the UUID of the token that may be generated; the store reads
    its own clock. *)
Definition verify_answer (pubkey_to_verify : Pubkey) (challenge : string) (challengee_signature : Signature)
    (challengee_nonce : list byte) (now : N) (token_nonce : list byte) (instant : Instant) (store : Store) : Verdict * Store :=
  match bs58_decode challenge with
  | None => (Rejected InvalidChallengeFormat, store)
  | Some bincoded_challenge =>
      match deserialize_signed bincoded_challenge with
      | None => (Rejected InvalidChallengeFormat, store)
      | Some sig_challenge =>
          match deserialize_challenge (serialized sig_challenge) with
          | None => (Rejected InvalidChallengeFormat, store)
          | Some sig_challenge_payload =>
              if negb (verify (challenge_signature sig_challenge) (signer_pubkey challenge_signer) (serialized sig_challenge))
              then (Rejected InvalidChallenge, store)
              else
                let challenge_created_at := (timestamp sig_challenge_payload * 1000000000)%N in
                if (now <? challenge_created_at)%N then (VerifyPanic, store)
                else if (one_time_auth_token_ttl <? now - challenge_created_at)%N then (Rejected ChallengeExpired, store)
                else
                  let expected_challengee_message := String.list_byte_of_string challenge ++ challengee_nonce in
                  if negb (verify challengee_signature (Challenge.pubkey_to_verify sig_challenge_payload) expected_challengee_message)
                  then (Rejected InvalidChallengeeSignature, store)
                  else match generate_new pubkey_to_verify one_time_auth_token_ttl token_nonce instant store with
                       | (Some token, store) => (Accepted token, store)
                       | (None, store) => (VerifyPanic, store)
                       end
          end
      end
  end.
Definition use_one_time_auth_token (token : OneTimeAuthToken) (now : Instant) (store : Store) : bool * Store :=
  let '(r, store) := claim token now store in (match r with inl _ => true | inr _ => false end, store).

(** ** A challenge and its answer *)
Section Laws.
Context `{!ChallengeLaws} `{!SignerLaws K}.

(** Any key that answers a challenge of its own gets a token for the key it names. *)
Lemma answer_accepted (client : K) named nonce created cnonce now token_nonce instant store
    (Htime : (created ≤ now ≤ created / 1000000000 * 1000000000 + one_time_auth_token_ttl)%N)
    (Hfresh : store !! (named, token_nonce) = None) :
  let challenge := create_challenge (signer_pubkey client) nonce created in
  let answer := append_nonce_and_sign client (String.list_byte_of_string challenge) cnonce in
  verify_answer named challenge answer cnonce now token_nonce instant store =
    (Accepted (named, token_nonce),
     collect_expired instant (<[(named, token_nonce) := (named, (instant + one_time_auth_token_ttl)%N)]> store)).
Proof.
  cbn zeta. unfold verify_answer, append_nonce_and_sign. set (challenge := create_challenge _ _ _).
  assert (bs58_decode challenge = Some (serialize_signed
    (mk_signed (sign_message challenge_signer (serialize_challenge (mk_challenge (signer_pubkey client) (created / 1000000000) nonce)))
       (serialize_challenge (mk_challenge (signer_pubkey client) (created / 1000000000) nonce))))) as -> by apply challenge_bs58_roundtrip.
  rewrite signed_roundtrip. cbn [serialized challenge_signature]. rewrite challenge_roundtrip, verify_sign.
  cbn [negb timestamp Challenge.pubkey_to_verify]. pose proof (N.Div0.mul_div_le created 1000000000) as Hdiv.
  destruct (N.ltb_spec now (created / 1000000000 * 1000000000)); [lia|].
  destruct (N.ltb_spec one_time_auth_token_ttl (now - created / 1000000000 * 1000000000)); [lia|].
  rewrite verify_sign. cbn [negb]. unfold generate_new. by rewrite Hfresh.
Qed.

(** A challenge answered with a signature of its key, before it expires, is worth one
    token, and using the token succeeds once. *)
Theorem answered_challenge_is_worth_one_token (client : K) nonce created cnonce now token_nonce instant store
    (Htime : (created ≤ now ≤ created / 1000000000 * 1000000000 + one_time_auth_token_ttl)%N)
    (Hfresh : store !! (signer_pubkey client, token_nonce) = None) later (Hlater : (instant ≤ later ≤ instant + one_time_auth_token_ttl)%N) :
  let challenge := create_challenge (signer_pubkey client) nonce created in
  let answer := append_nonce_and_sign client (String.list_byte_of_string challenge) cnonce in
  let '(verdict, store) := verify_answer (signer_pubkey client) challenge answer cnonce now token_nonce instant store in
  ∃ token, verdict = Accepted token ∧ pubkey token = signer_pubkey client ∧
    let '(first, store) := use_one_time_auth_token token later store in
    first = true ∧ ∀ again, (use_one_time_auth_token token again store).1 = false.
Proof.
  cbn zeta. rewrite answer_accepted by done. eexists. split; [done|]. split; [done|].
  unfold use_one_time_auth_token.
  rewrite (claim_live _ _ _ (instant + one_time_auth_token_ttl)).
  - split; [done|]. intros again. rewrite claim_gone; [done|]. apply collected_None, lookup_delete_eq.
  - apply collected_Some; [apply lookup_insert_eq|cbn; lia].
  - lia.
Qed.

(** The answer is checked against the key of the challenge and the token is made
    for the key of the request: the owner of any key gets a token for every key. *)
Theorem a_challenge_answers_for_every_key (attacker : K) victim nonce created cnonce now token_nonce instant store
    (Htime : (created ≤ now ≤ created / 1000000000 * 1000000000 + one_time_auth_token_ttl)%N)
    (Hfresh : store !! (victim, token_nonce) = None) :
  let challenge := create_challenge (signer_pubkey attacker) nonce created in
  let answer := append_nonce_and_sign attacker (String.list_byte_of_string challenge) cnonce in
  (verify_answer victim challenge answer cnonce now token_nonce instant store).1 = Accepted (victim, token_nonce).
Proof. cbn zeta. by rewrite answer_accepted. Qed.
End Laws.
End SigChallenger.

(** ** Histories of the store *)
Inductive Op := Generate (pubkey : Pubkey) (ttl : Duration) (nonce : list byte) (now : Instant) | Claim (token : OneTimeAuthToken) (now : Instant).
(** The tokens generated and the tokens claimed with success. *)
Record History := mk_history { inner : Store; generated : list OneTimeAuthToken; claimed : list OneTimeAuthToken; panicked : bool }.
Definition apply_op (h : History) (op : Op) : History :=
  match op with
  | Generate pubkey ttl nonce now =>
      match generate_new pubkey ttl nonce now (inner h) with
      | (Some token, inner) => mk_history inner (token :: generated h) (claimed h) (panicked h)
      | (None, inner) => mk_history inner (generated h) (claimed h) true
      end
  | Claim token now =>
      match claim token now (inner h) with
      | (inl _, inner) => mk_history inner (generated h) (token :: claimed h) (panicked h)
      | (inr _, inner) => mk_history inner (generated h) (claimed h) (panicked h)
      end
  end.
Definition run (l : list Op) : History := foldl apply_op (mk_history ∅ [] [] false) l.

Definition occurrences (t : OneTimeAuthToken) (l : list OneTimeAuthToken) : nat := length (filter (λ u, u = t) l).
Definition stored (t : OneTimeAuthToken) (m : Store) : nat := if decide (is_Some (m !! t)) then 1 else 0.

(** Tokens are bound to their own key, and each stored or claimed one was generated. *)
Record sound (h : History) : Prop := {
  sound_bound : ∀ t p d, inner h !! t = Some (p, d) → p = pubkey t;
  sound_count : ∀ t, occurrences t (claimed h) + stored t (inner h) ≤ occurrences t (generated h)
}.

Lemma stored_filter t now m : stored t (collect_expired now m) ≤ stored t m.
Proof.
  unfold stored, collect_expired. case_decide as H; [|lia]. rewrite decide_True; [done|].
  destruct H as [x [Hx _]%map_lookup_filter_Some]. eauto.
Qed.

Lemma occurrences_cons t u l : occurrences t (u :: l) = (if decide (u = t) then 1 else 0) + occurrences t l.
Proof. unfold occurrences. rewrite filter_cons. by case_decide. Qed.

Lemma stored_insert t u x m : m !! u = None → stored t (<[u := x]> m) = (if decide (u = t) then 1 else 0) + stored t m.
Proof.
  intros Hu. unfold stored. destruct (decide (u = t)) as [->|Hne].
  - rewrite lookup_insert_eq, Hu. rewrite decide_True by eauto. by rewrite decide_False by (by intros []).
  - by rewrite lookup_insert_ne.
Qed.

Lemma stored_delete t u m : is_Some (m !! u) → stored t m = (if decide (u = t) then 1 else 0) + stored t (delete u m).
Proof.
  intros Hu. unfold stored. destruct (decide (u = t)) as [->|Hne].
  - rewrite lookup_delete_eq, decide_True by done. by rewrite decide_False by (by intros []).
  - by rewrite lookup_delete_ne.
Qed.

Lemma tokens_sound_step h op : sound h → panicked (apply_op h op) = false → sound (apply_op h op).
Proof.
  intros [H1 H2]. destruct op as [k ttl nonce now|u now]; cbn [apply_op].
  - unfold generate_new. destruct (inner h !! (k, nonce)) eqn:E; [done|]. intros _. split; cbn [inner generated claimed].
    + intros t p d [[[<- [= <- <-]]|[_ Ht]]%lookup_insert_Some _]%map_lookup_filter_Some; [done|by apply H1 in Ht].
    + intros t. rewrite occurrences_cons. pose proof (stored_filter t now (<[(k, nonce) := (k, (now + ttl)%N)]> (inner h))) as Hf.
      rewrite (stored_insert t _ _ _ E) in Hf. specialize (H2 t). lia.
  - unfold claim. destruct (inner h !! u) as [[p d]|] eqn:E; [|by split].
    assert (∀ t p d, delete u (inner h) !! t = Some (p, d) → p = pubkey t) as Hd by (intros t p' d' [_ Ht]%lookup_delete_Some; by apply H1 in Ht).
    assert (∀ t, stored t (inner h) = (if decide (u = t) then 1 else 0) + stored t (delete u (inner h))) as Hs
      by (intros t; apply stored_delete; eauto).
    destruct (d <? now)%N; [|case_decide]; intros _; split; cbn [inner generated claimed]; try done.
    + intros t. specialize (H2 t). rewrite Hs in H2. lia.
    + intros t. specialize (H2 t). rewrite Hs in H2. lia.
    + intros t q e [Ht _]%map_lookup_filter_Some. by apply Hd in Ht.
    + intros t. rewrite occurrences_cons. pose proof (stored_filter t now (delete u (inner h))). specialize (H2 t). rewrite Hs in H2. lia.
Qed.

Lemma panicked_mono h op : panicked h = true → panicked (apply_op h op) = true.
Proof. destruct op; cbn [apply_op]; [destruct (generate_new _ _ _ _ _) as [[|] ?]|destruct (claim _ _ _) as [[|] ?]]; done. Qed.

(** Over any history of generations, claims and clock readings, no token is claimed more
    often than it was generated, and a claim never finds the token of another key. *)
Theorem tokens_are_claimed_once l (Hok : panicked (run l) = false) :
  (∀ t, occurrences t (claimed (run l)) ≤ occurrences t (generated (run l))) ∧
  ∀ t now, (claim t now (inner (run l))).1 ≠ inr PubkeyMismatch.
Proof.
  assert (sound (run l)) as [H1 H2].
  { unfold run in *. induction l as [|op l IH] using rev_ind.
    - split; cbn; [intros t p d Ht; by rewrite lookup_empty in Ht|done].
    - rewrite foldl_app in *. cbn [foldl] in *. apply tokens_sound_step; [|done]. apply IH.
      destruct (panicked (foldl _ _ l)) eqn:E; [|done]. by rewrite (panicked_mono _ op E) in Hok. }
  split; [intros t; specialize (H2 t); lia|]. intros t now. unfold claim. destruct (inner (run l) !! t) as [[p d]|] eqn:E; [|done].
  apply H1 in E as ->. destruct (d <? now)%N; [done|]. by rewrite decide_False by (intros Hn; by apply Hn).
Qed.

(** ** Concrete runs *)
Section Demo.
(** Keys are numbers, and a signature names its signer. *)
#[local] Instance demo_signer : Signer N := { sign_message s _ := s; signer_pubkey s := s }.
#[local] Instance demo_verify : Verify := λ signature key _, (signature =? key)%N.
#[local] Instance demo_signer_laws : SignerLaws N.
Proof. intros s m. apply N.eqb_refl. Qed.
#[local] Existing Instance Payload.demo_text.

(** Numbers in unary. *)
Definition put_N (n : N) (rest : list byte) : list byte := replicate (N.to_nat n) x61 ++ x62 :: rest.
Fixpoint get_N (n : N) (b : list byte) : option (N * list byte) :=
  match b with
  | x61 :: b => get_N (n + 1) b
  | x62 :: b => Some (n, b)
  | _ => None
  end.
Lemma get_put n m rest : get_N m (put_N n rest) = Some ((m + n)%N, rest).
Proof.
  unfold put_N. rewrite <-(N2Nat.id n) at 2. generalize (N.to_nat n) as k. intros k. revert m.
  induction k as [|k IH]; intros m; cbn [replicate app get_N]; [by rewrite N.add_0_r|]. rewrite IH. do 2 f_equal. lia.
Qed.
#[local] Instance demo_challenge_codec : ChallengeCodec := {|
  serialize_challenge c := put_N (pubkey_to_verify c) (put_N (timestamp c) (nonce c));
  deserialize_challenge b := '(k, b) ← get_N 0 b; '(t, b) ← get_N 0 b; Some (mk_challenge k t b);
  serialize_signed c := put_N (challenge_signature c) (serialized c);
  deserialize_signed b := '(s, b) ← get_N 0 b; Some (mk_signed s b) |}.
#[local] Instance demo_challenge_laws : ChallengeLaws.
Proof.
  split.
  - intros [k t n]. cbn [deserialize_challenge serialize_challenge demo_challenge_codec pubkey_to_verify timestamp nonce].
    rewrite get_put. cbn [mbind option_bind]. by rewrite get_put.
  - intros [k b]. cbn [deserialize_signed serialize_signed demo_challenge_codec challenge_signature serialized]. by rewrite get_put.
  - intros b. change (Some (String.list_byte_of_string (String.string_of_list_byte b)) = Some b).
    by rewrite String.list_byte_of_string_of_list_byte.
Qed.

Lemma answered_challenge_is_worth_one_token_witness :
  let challenge := create_challenge 7%N 3%N [x01] 2500000000 in
  let '(verdict, store) := verify_answer 7%N (from_secs 60) 3 challenge (append_nonce_and_sign 3%N (String.list_byte_of_string challenge) [x02])
    [x02] 4000000000 [x09] 10 ∅ in
  ∃ token, verdict = Accepted token ∧ pubkey token = 3%N.
Proof.
  cbn zeta.
  pose proof (answered_challenge_is_worth_one_token 7%N (from_secs 60) 3%N [x01] 2500000000 [x02] 4000000000 [x09] 10 ∅
    ltac:(split; intros E; discriminate E) eq_refl 12 ltac:(split; intros E; discriminate E)) as H.
  cbn zeta in H. destruct (verify_answer _ _ _ _ _ _ _ _ _ _) as [verdict store].
  destruct H as (token & H1 & H2 & _). exists token. split; [exact H1|exact H2].
Defined.

(** Two claims of one token, and one of a token that expired. *)
Definition demo_ops : list Op :=
  [Generate 1 60 [x01] 0; Generate 2 5 [x02] 0; Claim (1%N, [x01]) 10; Claim (1%N, [x01]) 10; Claim (2%N, [x02]) 10].
Lemma tokens_are_claimed_once_witness :
  claimed (run demo_ops) = [(1%N, [x01])] ∧
  occurrences (1%N, [x01]) (claimed (run demo_ops)) ≤ occurrences (1%N, [x01]) (generated (run demo_ops)).
Proof. split; [vm_compute; reflexivity|]. exact (proj1 (tokens_are_claimed_once demo_ops eq_refl) (1%N, [x01])). Defined.
End Demo.
End Challenge.
