(* ===== verification/Lewis.v ===== *)
(** Event reporting ([grpc_lewis.rs] of [apps/jet/src]): the handler that turns
    sends and skips into events of a bounded channel, and the client that forwards
    them in batches over a gRPC stream. *)
From S2P Require Import Prelude Types Runtime Commitment Payload JetTypes Fanout.
From Stdlib Require Import Strings.Byte.
Import Commitment Fanout.

Module Lewis.

Inductive LewisClientError :=
  | EndpointError | ConnectionError | StreamSendError | StreamFlushError | StreamTerminated | AckError
  | MaxReconnectAttemptsExceeded.

(** [EventJet], without the three fields that are always empty. *)
Record Event := mk_event {
  jet_id : string; sig : Signature; slot : N; ts : Z; validator : string; tpu_addr : string; error : string;
  skipped : bool; shield_policies : list string
}.

(** [ConfigLewisEvents]: the fields that the client reads. *)
Record Config := mk_config {
  batch_size_threshold : nat; stream_timeout : Duration; max_reconnect_attempts : nat;
  reconnect_initial_interval : Duration; reconnect_max_interval : Duration
}.

Section Handler.
Context {Ch : Type} `{MC : Mpsc Ch Event} `{TX : TextCodecs}.
(** [SocketAddr::to_string] and [TxDropReason::to_string]. *)
Context (addr_to_string : SocketAddr → string) (drop_reason_to_string : GwDropReason → string).

(** [LewisEventHandler], with the counter of dropped events. *)
Record LewisEventHandler := mk_handler { tx : Ch; handler_jet_id : string; dropped : nat }.

(** [now] is the time since the epoch in milliseconds, as an [i64]. *)
Definition build_event (h : LewisEventHandler) (now : Z) (signature : Signature) (validator : Pubkey) (tpu_addr : option SocketAddr)
    (slot : N) (error : option string) (skipped : bool) (shield_policies : list string) : Event :=
  mk_event (handler_jet_id h) signature slot now (pubkey_to_string validator) (default "" (addr_to_string <$> tpu_addr))
    (default "" error) skipped shield_policies.
Definition emit (event : Event) (h : LewisEventHandler) : LewisEventHandler :=
  match try_send event (tx h) with
  | (SendOk, tx) => mk_handler tx (handler_jet_id h) (dropped h)
  | (_, tx) => mk_handler tx (handler_jet_id h) (S (dropped h))
  end.
Definition handle_skip (now : Z) (signature : Signature) (validator : Pubkey) (slot : N) (policies : list Pubkey)
    (h : LewisEventHandler) : LewisEventHandler :=
  emit (build_event h now signature validator None slot None true (pubkey_to_string <$> policies)) h.
Definition handle_gateway_response (now : Z) (response : GatewayResponse) (slot : N) (h : LewisEventHandler) : LewisEventHandler :=
  match response with
  | GwTxSent peer addr tx_sig => emit (build_event h now tx_sig peer (Some addr) slot None false []) h
  | GwTxFailed peer addr tx_sig failure_reason =>
      emit (build_event h now tx_sig peer (Some addr) slot (Some failure_reason) false []) h
  | GwTxDrop peer drop_reason dropped_txs =>
      let drop_reason_str := drop_reason_to_string drop_reason in
      foldl (λ h p, emit (build_event h now (tx_sig p.1) peer None slot (Some drop_reason_str) false []) h) h dropped_txs
  end.
(** The calls that the fan-out makes. *)
Definition handle (now : Z) (c : LewisCall) (h : LewisEventHandler) : LewisEventHandler :=
  match c with
  | HandleSkip s dest slot policies => handle_skip now s dest slot policies h
  | HandleResponse r slot => handle_gateway_response now r slot h
  end.

(** The signatures that a call reports. *)
Definition reported (c : LewisCall) : list Signature :=
  match c with
  | HandleSkip s _ _ _ => [s]
  | HandleResponse (GwTxSent _ _ s) _ => [s]
  | HandleResponse (GwTxFailed _ _ s _) _ => [s]
  | HandleResponse (GwTxDrop _ _ l) _ => (λ p : TpuSenderTxn * nat, tx_sig p.1) <$> l
  end.

(** [l] went through the handler: some of it is queued, in order, the rest counted. *)
Definition emitted (l : list Signature) (h h' : LewisEventHandler) : Prop := ∃ kept,
  sig <$> buffered (tx h') = (sig <$> buffered (tx h)) ++ kept ∧ kept `sublist_of` l ∧
  dropped h' + length kept = dropped h + length l ∧
  (length (buffered (tx h)) + length l ≤ capacity (tx h) → rx_closed (tx h) = false → kept = l) ∧
  capacity (tx h') = capacity (tx h) ∧ rx_closed (tx h') = rx_closed (tx h) ∧ handler_jet_id h' = handler_jet_id h.

Lemma emit_emitted e h : emitted [sig e] h (emit e h).
Proof.
  unfold emit. pose proof (try_send_spec e (tx h)) as Hs. pose proof (try_send_meta e (tx h)) as [Hm1 Hm2].
  destruct (try_send e (tx h)) as [[] c]; cbn [fst snd tx dropped handler_jet_id] in *.
  - destruct Hs as (Hs & _ & _). exists [sig e]. cbn. split_and!; [by rewrite Hs, fmap_app|done|lia|done|done|done|done].
  - destruct Hs as (-> & Hfull & _). exists []. cbn. split_and!; [by rewrite app_nil_r|apply sublist_nil_l|lia|lia|done|done|done].
  - destruct Hs as (-> & Hclosed). exists []. cbn. split_and!; [by rewrite app_nil_r|apply sublist_nil_l|lia|congruence|done|done|done].
Qed.

Lemma emitted_nil h : emitted [] h h.
Proof. exists []. cbn. by rewrite app_nil_r. Qed.

Lemma reported_app l1 l2 h1 h2 h3 : emitted l1 h1 h2 → emitted l2 h2 h3 → emitted (l1 ++ l2) h1 h3.
Proof.
  intros (k1 & A1 & A2 & A3 & A4 & A5 & A6 & A7) (k2 & B1 & B2 & B3 & B4 & B5 & B6 & B7). exists (k1 ++ k2). split_and!.
  - by rewrite B1, A1, app_assoc.
  - by apply sublist_app.
  - rewrite !length_app. lia.
  - intros Hroom Hopen. rewrite length_app in Hroom. rewrite A4 by (done || lia).
    apply (f_equal length) in A1. rewrite length_app, !length_fmap in A1. pose proof (sublist_length _ _ A2).
    rewrite B4; [done|lia|congruence].
  - congruence.
  - congruence.
  - congruence.
Qed.

(** Whatever the calls, each event the handler builds is queued, in order, or counted as
    dropped; all are queued when there is room and the client listens. *)
Theorem events_are_queued_or_counted now calls h :
  emitted (c ← calls; reported c) h (foldl (λ h c, handle now c h) h calls).
Proof.
  revert h. induction calls as [|c calls IH]; intros h; [apply emitted_nil|]. cbn [foldl].
  eapply reported_app; [|apply IH]. destruct c as [s dest sl policies|[peer addr s|peer addr s reason|peer reason l] sl]; cbn [handle handle_gateway_response reported].
  - apply (emit_emitted (build_event h now s dest None sl None true (pubkey_to_string <$> policies))).
  - apply (emit_emitted (build_event h now s peer (Some addr) sl None false [])).
  - apply (emit_emitted (build_event h now s peer (Some addr) sl (Some reason) false [])).
  - revert h. induction l as [|p l IHl]; intros h; [apply emitted_nil|]. cbn [foldl fmap list_fmap].
    eapply (reported_app [tx_sig p.1]); [|apply IHl].
    apply (emit_emitted (build_event h now (tx_sig p.1) peer None sl (Some (drop_reason_to_string reason)) false [])).
Qed.
End Handler.

(** ** The client *)
Section Client.
Context (config : Config).

(** The batch and what went into the gRPC stream. *)
Record Stream := mk_stream { batch : list Event; sent : list Event; received : list Event }.
(** How many events the stream still takes ([None]: all), and whether it flushes. *)
Record Link := mk_link { room : option nat; flushes : bool }.

Definition StreamResult : Type := unit + LewisClientError.
(** [send_batch]: the batch is drained even when a send fails. *)
Definition send_batch (link : Link) (s : Stream) : StreamResult * Stream :=
  match batch s with
  | [] => (inl tt, s)
  | l =>
      let fits := match room link with Some n => n | None => length l end in
      if decide (fits < length l) then (inr StreamSendError, mk_stream [] (sent s ++ take fits l) (received s))
      else (if flushes link then inl tt else inr StreamFlushError, mk_stream [] (sent s ++ l) (received s))
  end.

(** What the [select!] sees; each event with whether the deadline has passed at the
    top of the loop, and the state of the link. *)
Inductive Select := Cancelled | Received (e : option Event) | FlushTick | Response (ok : bool).
(** How the loop ends: with a result, or at the final flush. *)
Inductive Exit := Returned (r : StreamResult) | Broke.
Definition on_select (link : Link) (e : Select) (s : Stream) : option Exit * Stream :=
  match e with
  | Cancelled => (Some Broke, s)
  | Received None => (Some Broke, s)
  | Received (Some event) =>
      let s := mk_stream (batch s ++ [event]) (sent s) (received s ++ [event]) in
      if decide (batch_size_threshold config ≤ length (batch s)) then
        match send_batch link s with (inl _, s) => (None, s) | (inr err, s) => (Some (Returned (inr err)), s) end
      else (None, s)
  | FlushTick => match send_batch link s with (inl _, s) => (None, s) | (inr err, s) => (Some (Returned (inr err)), s) end
  | Response true => let '(r, s) := send_batch link s in (Some (Returned r), s)
  | Response false => (Some (Returned (inr AckError)), s)
  end.
Fixpoint stream_loop (l : list (bool * Link * Select)) (s : Stream) : option Exit * Stream :=
  match l with
  | [] => (None, s)
  | (deadline_passed, link, e) :: l =>
      if (0 <? stream_timeout config)%N && deadline_passed then (Some Broke, s)
      else match on_select link e s with
           | (None, s) => stream_loop l s
           | r => r
           end
  end.
(** The final acknowledgment: received, an error, or a timeout. *)
Inductive Ack := AckOk | AckFailed | AckTimeout.
(** [connect_and_stream]; [None] while it runs. *)
Definition connect_and_stream (connected : bool) (l : list (bool * Link * Select)) (final : Link) (ack : Ack) (s : Stream)
    : option StreamResult * Stream :=
  if negb connected then (Some (inr ConnectionError), s)
  else
    match stream_loop l (mk_stream [] (sent s) (received s)) with
    | (None, s) => (None, s)
    | (Some (Returned r), s) => (Some r, s)
    | (Some Broke, s) =>
        match send_batch final s with
        | (inr err, s) => (Some (inr err), s)
        | (inl _, s) => (Some match ack with AckOk => inl tt | AckFailed => inr AckError | AckTimeout => inl tt end, s)
        end
    end.

(** [run_lewis_client]: the outcome of each connection, and whether the token is
    cancelled before it. Also returned: the delays slept, and whether the rest of
    the events is drained. *)
Record Run := mk_run { result : option StreamResult; delays : list (option Duration); connections : nat }.
Fixpoint client_loop (attempt : nat) (backoff : IncrementalBackoff) (l : list (bool * StreamResult)) : option Run :=
  match l with
  | [] => Some (mk_run None [] 0)
  | (cancelled, outcome) :: l =>
      let backoff := if decide (attempt = 0) then init backoff else backoff in
      if cancelled : bool then Some (mk_run (Some (inl tt)) [] 0)
      else match outcome with
           | inl _ => Some (mk_run (Some (inl tt)) [] 1)
           | inr e =>
               let attempt := S attempt in
               if decide (max_reconnect_attempts config ≤ attempt) then Some (mk_run (Some (inr MaxReconnectAttemptsExceeded)) [] 1)
               else '(delay, backoff) ← maybe_tick backoff;
                    r ← client_loop attempt backoff l;
                    Some (mk_run (result r) (delay :: delays r) (S (connections r)))
           end
  end.
Definition run_lewis_client (l : list (bool * StreamResult)) : option Run :=
  client_loop 0 (new_backoff (reconnect_initial_interval config) (reconnect_max_interval config)) l.

(** *** What is sent *)
Record ordered (s : Stream) : Prop := {
  ordered_eq : received s = sent s ++ batch s;
  ordered_short : length (batch s) < batch_size_threshold config ∨ batch s = []
}.

Lemma send_batch_ok link s s' : received s = sent s ++ batch s → send_batch link s = (inl tt, s') →
  received s' = sent s' ∧ batch s' = [] ∧ received s' = received s.
Proof.
  intros Hs. unfold send_batch. destruct (batch s) as [|e l] eqn:E; [intros [= <-]; by rewrite app_nil_r in Hs|].
  case_decide; [done|]. destruct (flushes link); [|done]. intros [= <-]. done.
Qed.
Lemma send_batch_prefix link s : received s = sent s ++ batch s → sent (send_batch link s).2 `prefix_of` received (send_batch link s).2.
Proof.
  intros Hs. unfold send_batch. destruct (batch s) as [|e l] eqn:E; cbn.
  - rewrite Hs, app_nil_r. done.
  - case_decide; cbn; rewrite Hs; [|done]. apply prefix_app. eexists. symmetry. apply take_drop.
Qed.

Lemma on_select_ordered link e s : ordered s →
  match on_select link e s with
  | (None, s') | (Some Broke, s') => ordered s'
  | (Some (Returned (inl _)), s') => received s' = sent s'
  | (Some (Returned (inr _)), s') => sent s' `prefix_of` received s'
  end.
Proof.
  intros [Heq Hshort]. destruct e as [|[e|]| |ok]; cbn [on_select]; [by split| |by split|..].
  - set (s1 := mk_stream _ _ _). assert (received s1 = sent s1 ++ batch s1) as H1 by (cbn; by rewrite Heq, app_assoc).
    case_decide as Hd; [|split; [done|left; cbn in *; lia]].
    destruct (send_batch link s1) as [[[]|err] s2] eqn:E.
    + apply send_batch_ok in E as (H2 & H3 & _); [|done]. split; [by rewrite H3, app_nil_r|by right].
    + pose proof (send_batch_prefix link s1 H1) as Hp. by rewrite E in Hp.
  - destruct (send_batch link s) as [[[]|err] s2] eqn:E.
    + apply send_batch_ok in E as (H2 & H3 & _); [|done]. split; [by rewrite H3, app_nil_r|by right].
    + pose proof (send_batch_prefix link s Heq) as Hp. by rewrite E in Hp.
  - destruct ok; [|by rewrite Heq; apply prefix_app_r].
    destruct (send_batch link s) as [[[]|err] s2] eqn:E.
    + by apply send_batch_ok in E as (? & _).
    + pose proof (send_batch_prefix link s Heq) as Hp. by rewrite E in Hp.
Qed.

Lemma stream_loop_ordered l s : ordered s →
  match stream_loop l s with
  | (None, s') | (Some Broke, s') => ordered s'
  | (Some (Returned (inl _)), s') => received s' = sent s'
  | (Some (Returned (inr _)), s') => sent s' `prefix_of` received s'
  end.
Proof.
  revert s. induction l as [|[[deadline link] e] l IH]; intros s Hs; [done|]. cbn [stream_loop].
  destruct (_ && deadline); [done|]. pose proof (on_select_ordered link e s Hs) as Ho.
  destruct (on_select link e s) as [[[[]|]|] s']; [done..|by apply IH].
Qed.

(** The Lewis client sends the events of its channel in order and without gaps: what went
    into the stream is a prefix of what was received, all of it when the connection ends
    well, and while it runs only a batch below the threshold waits. *)
Theorem stream_sends_in_order connected l final ack s (Hs : received s = sent s) :
  let '(r, s') := connect_and_stream connected l final ack s in
  sent s' `prefix_of` received s' ∧ (r = Some (inl tt) → sent s' = received s') ∧
  (r = None → received s' = sent s' ++ batch s' ∧ (length (batch s') < batch_size_threshold config ∨ batch s' = [])).
Proof.
  unfold connect_and_stream. destruct connected; cbn [negb]; [|by rewrite Hs].
  pose proof (stream_loop_ordered l (mk_stream [] (sent s) (received s))) as Ho.
  destruct (stream_loop _ _) as [[[[[]|err]|]|] s'].
  - rewrite Ho; [done|]. split; [cbn; by rewrite app_nil_r|by right].
  - split_and!; [|done|done]. apply Ho. split; [cbn; by rewrite app_nil_r|by right].
  - destruct Ho as [Heq Hshort]; [split; [cbn; by rewrite app_nil_r|by right]|].
    destruct (send_batch final s') as [[[]|err] s2] eqn:E.
    + apply send_batch_ok in E as (H2 & _ & _); [|done]. by rewrite H2; destruct ack.
    + pose proof (send_batch_prefix final s' Heq) as Hp. rewrite E in Hp. done.
  - destruct Ho as [Heq Hshort]; [split; [cbn; by rewrite app_nil_r|by right]|].
    split_and!; [rewrite Heq; by apply prefix_app_r|done|done].
Qed.

(** The client connects at most as often as configured, at least once, and sleeps
    between connections only. *)
Lemma client_loop_bounded attempt b l r : attempt < max_reconnect_attempts config →
  client_loop attempt b l = Some r → connections r + attempt ≤ max_reconnect_attempts config ∧ length (delays r) ≤ connections r.
Proof.
  revert attempt b r. induction l as [|[c o] l IH]; intros attempt b r Ha; cbn [client_loop].
  { intros [= <-]. cbn. lia. }
  destruct c; [intros [= <-]; cbn; lia|]. destruct o as [|e]; [intros [= <-]; cbn; lia|].
  destruct (decide (max_reconnect_attempts config ≤ S attempt)); [intros [= <-]; cbn; lia|].
  destruct (maybe_tick _) as [[d b2]|]; cbn [mbind option_bind]; [|done].
  destruct (client_loop (S attempt) b2 l) as [r'|] eqn:Hr; cbn [mbind option_bind]; [|done].
  intros [= <-]. apply IH in Hr; cbn; lia.
Qed.

Theorem connections_are_bounded l r (Hr : run_lewis_client l = Some r) :
  connections r ≤ max 1 (max_reconnect_attempts config) ∧ length (delays r) ≤ connections r.
Proof.
  unfold run_lewis_client in Hr. destruct (decide (0 < max_reconnect_attempts config)).
  - apply client_loop_bounded in Hr; lia.
  - destruct l as [|[c o] l]; cbn in Hr; [injection Hr as <-; cbn; lia|].
    destruct c; [injection Hr as <-; cbn; lia|]. destruct o; [injection Hr as <-; cbn; lia|].
    rewrite decide_True in Hr by lia. injection Hr as <-. cbn. lia.
Qed.

(** A stream that reaches its timeout ends the client for good, as if it had been
    told to stop: the next events go nowhere. *)
Theorem a_timeout_ends_the_client link e l rest ack (Htimeout : (0 < stream_timeout config)%N) (Hack : ack ≠ AckFailed) :
  let '(r, _) := connect_and_stream true ((true, link, e) :: l) link ack (mk_stream [] [] []) in
  r = Some (inl tt) ∧ result <$> run_lewis_client ((false, inl tt) :: rest) = Some (Some (inl tt)).
Proof.
  cbn. apply N.ltb_lt in Htimeout. rewrite Htimeout. cbn. by destruct ack.
Qed.
End Client.

(** ** Concrete runs *)
Definition demo_event (s : Signature) : Event := mk_event "jet" s 9 0 "peer" "" "" false [].
Definition demo_config : Config := mk_config 2 (from_secs 300) 3 (from_millis 100) (from_secs 30).
Definition open_link : Link := mk_link None true.
(** Two events fill a batch, a third waits for the final flush. *)
Definition demo_stream : list (bool * Link * Select) :=
  [(false, open_link, Received (Some (demo_event 1))); (false, open_link, Received (Some (demo_event 2)));
   (false, open_link, Received (Some (demo_event 3))); (false, open_link, Cancelled)].

Lemma stream_sends_in_order_witness :
  let '(r, s) := connect_and_stream demo_config true demo_stream open_link AckOk (mk_stream [] [] []) in
  r = Some (inl tt) ∧ sent s = received s.
Proof.
  pose proof (stream_sends_in_order demo_config true demo_stream open_link AckOk (mk_stream [] [] []) eq_refl) as H.
  assert ((connect_and_stream demo_config true demo_stream open_link AckOk (mk_stream [] [] [])).1 = Some (inl tt)) as Hr
    by (vm_compute; reflexivity).
  destruct (connect_and_stream _ _ _ _ _ _) as [r s]. split; [exact Hr|]. apply H. exact Hr.
Defined.

(** With the default timeout the reporting stops after five minutes, for ever. *)
Example the_timeout_stops_the_reporting :
  (connect_and_stream demo_config true [(true, open_link, Received (Some (demo_event 1)))] open_link AckTimeout (mk_stream [] [] [])).1 =
    Some (inl tt) ∧
  result <$> run_lewis_client demo_config [(false, inl tt); (false, inl tt)] = Some (Some (inl tt)).
Proof. split; vm_compute; reflexivity. Qed.
End Lewis.
