(* ===== verification/Config.v ===== *)
(** The configuration of the proxy ([apps/jet/src/config.rs]), as far as it
    decides anything: the defaults of missing entries, and the entries that a
    function reads. YAML, durations and keypair files are serde's. *)
From S2P Require Import Prelude Types Commitment RpcRetry Lewis JetTypes.
Import Commitment.

Module Config.

(** [Option::<String>] parsed: a missing entry stays missing, a malformed one is
    refused ([deserialize_maybe_pubkey], [deserialize_maybe_keypair],
    [deserialize_maybe_program_id]). *)
Definition deserialize_maybe {A B} (parse : A → option B) (entry : option A) : option (option B) :=
  match entry with None => Some None | Some a => Some <$> parse a end.

(** [deser_pubkey_vec]. *)
Definition deser_pubkey_vec (parse : string → option Pubkey) (strings : list string) : option (list Pubkey) :=
  mapM parse strings.

(** Zero falls back to the stake-based size. *)
Definition deserialize_maybe_nonzero_u64 (entry : option N) : option N :=
  n ← entry; if decide (n = 0%N) then None else Some n.

(** ** Listen addresses *)
Inductive Value := SocketAddrValue (addr : SocketAddr) | Port (port : N) | Env (env : string).
#[export] Instance Value_eq_dec : EqDecision Value.
Proof. solve_decision. Defined.

(** The environment, the parsers of addresses and of [u16]s, and the address
    [0.0.0.0:port]. *)
Class ListenContext := {
  env_var : string → option string;
  parse_addr : string → option SocketAddr;
  parse_port : string → option N;
  unspecified : N → SocketAddr
}.

Section Listen.
Context `{LC : ListenContext}.

Definition resolve (value : Value) : option SocketAddr :=
  match value with
  | SocketAddrValue addr => Some addr
  | Port port => Some (unspecified port)
  | Env env =>
      value ← env_var env;
      match parse_addr value with
      | Some addr => Some addr
      | None => unspecified <$> parse_port value
      end
  end.

(** The values are collected in a [HashSet] first. *)
Definition deserialize_listen (values : list Value) : option (list SocketAddr) :=
  addrs ← mapM resolve (remove_dups values);
  if decide (length addrs = 1) then Some addrs else None.

(** A listen entry is accepted exactly when it names one value, however often, that
    resolves: two spellings of the same address are refused. *)
Theorem listen_takes_one_value values addrs :
  deserialize_listen values = Some addrs ↔
  ∃ v a, values ≠ [] ∧ Forall (λ v', v' = v) values ∧ resolve v = Some a ∧ addrs = [a].
Proof.
  unfold deserialize_listen. split.
  - destruct (mapM resolve (remove_dups values)) as [l|] eqn:E; [|done]. cbn [mbind option_bind].
    case_decide as Hl; [|done]. intros [= ->]. apply mapM_Some_1 in E.
    destruct addrs as [|a [|]]; [done| |done]. pose proof (Forall2_length _ _ _ E) as Hlen.
    assert (∀ v, v ∈ remove_dups values ↔ v ∈ values) as Hin by (intros; apply elem_of_remove_dups).
    destruct (remove_dups values) as [|v [|]]; [done| |done]. exists v, a.
    apply Forall2_cons in E as [Hv _]. split_and!; [|apply Forall_forall|done|done].
    + intros ->. specialize (Hin v). set_solver.
    + intros v' Hv'%Hin. by apply list_elem_of_singleton in Hv'.
  - intros (v & a & Hne & Hall & Hv & ->).
    assert (remove_dups values = [v]) as ->; [|cbn; by rewrite Hv].
    assert (∀ w, w ∈ remove_dups values → w = v) as Hin.
    { intros w. rewrite elem_of_remove_dups. rewrite Forall_forall in Hall. apply Hall. }
    pose proof (NoDup_remove_dups values) as Hnd.
    assert (remove_dups values ≠ []) as Hne2.
    { destruct values as [|w l]; [done|]. intros E. assert (w ∈ remove_dups (w :: l)) as Hw by (apply elem_of_remove_dups; left).
      rewrite E in Hw. set_solver. }
    destruct (remove_dups values) as [|x [|y l]]; [done|by rewrite (Hin x) by left|].
    exfalso. apply NoDup_cons in Hnd as [Hx _]. apply Hx. rewrite (Hin x), (Hin y) by set_solver. left.
Qed.
End Listen.

(** ** Upstream *)
Section Upstream.
Context `{RD : RetryDelays}.

Inductive RpcErrorStrategy :=
  | FixedStrategy (interval : Duration) (retries : nat)
  | ExponentialStrategy (base : Duration) (factor : Factor) (retries : nat)
  | Fail.
Definition default_retries : nat := 3.
Definition default_rpc_retry : RpcErrorStrategy := FixedStrategy (from_millis 100) 3.

Definition default_rpc : string := "http://127.0.0.1:8899".
Definition default_cluster_nodes_update_interval : Duration := from_secs 30.
Definition default_stake_update_interval : Duration := from_secs 30.
Definition default_endpoint : string := "http://127.0.0.1:10000".

Record ConfigUpstreamGrpc := { grpc_endpoint : string; grpc_x_token : option string }.
Record ConfigUpstream := {
  grpc : ConfigUpstreamGrpc;
  rpc : string;
  rpc_on_error : RpcErrorStrategy;
  cluster_nodes_update_interval : Duration;
  stake_update_interval : Duration
}.
Record UpstreamEntries := {
  e_endpoint : option string;
  e_x_token : option string;
  e_rpc : option string;
  e_rpc_on_error : option RpcErrorStrategy;
  e_cluster_nodes_update_interval : option Duration;
  e_stake_update_interval : option Duration
}.
Definition deserialize_upstream (e : UpstreamEntries) : ConfigUpstream := {|
  grpc := {| grpc_endpoint := default default_endpoint (e_endpoint e); grpc_x_token := e_x_token e |};
  rpc := default default_rpc (e_rpc e);
  rpc_on_error := default default_rpc_retry (e_rpc_on_error e);
  cluster_nodes_update_interval := default default_cluster_nodes_update_interval (e_cluster_nodes_update_interval e);
  stake_update_interval := default default_stake_update_interval (e_stake_update_interval e)
|}.
End Upstream.

(** ** The send service *)
Record ConfigSendTransactionService := {
  default_max_retries : option nat;
  service_max_retries : nat;
  stop_send_on_commitment : CommitmentLevel;
  leader_forward_count : option nat;
  retry_rate : Duration;
  relay_only_mode : bool;
  extra_fanout : list Pubkey
}.
Record SendServiceEntries := {
  e_default_max_retries : option nat;
  e_service_max_retries : option nat;
  e_stop_send_on_commitment : option CommitmentLevel;
  e_leader_forward_count : option (option nat);
  e_retry_rate : option Duration;
  e_relay_only_mode : option bool;
  e_extra_fanout : option (list string)
}.
Definition default_service_max_retries : nat := N.to_nat u64_max.
Definition deserialize_send_service (parse : string → option Pubkey) (e : SendServiceEntries)
    : option ConfigSendTransactionService :=
  extra ← deser_pubkey_vec parse (default [] (e_extra_fanout e));
  Some {|
    default_max_retries := e_default_max_retries e;
    service_max_retries := default default_service_max_retries (e_service_max_retries e);
    stop_send_on_commitment := default Confirmed (e_stop_send_on_commitment e);
    leader_forward_count := default None (e_leader_forward_count e);
    retry_rate := default (from_millis 1000) (e_retry_rate e);
    relay_only_mode := default false (e_relay_only_mode e);
    extra_fanout := extra
  |}.

(** ** Lewis events *)
Record LewisEntries := {
  e_batch_size_threshold : option nat;
  e_stream_timeout : option Duration;
  e_max_reconnect_attempts : option nat;
  e_reconnect_initial_interval : option Duration;
  e_reconnect_max_interval : option Duration
}.
(** The entries that the client and the handler read. *)
Definition deserialize_lewis (e : LewisEntries) : Lewis.Config :=
  Lewis.mk_config (default 512 (e_batch_size_threshold e)) (default (from_secs 300) (e_stream_timeout e))
    (default 3 (e_max_reconnect_attempts e)) (default (from_millis 1000) (e_reconnect_initial_interval e))
    (default (from_secs 30) (e_reconnect_max_interval e)).

(** ** QUIC *)
Record ConfigQuic := {
  tpu_sender : JetTypes.QuicGatewayConfig;
  connection_idle_eviction_grace : Duration
}.
(** The entries of the gateway are flattened into those of [quic]. *)
Definition deserialize_quic (VALIDATOR_PORT_RANGE : N * N) (QUIC_MAX_TIMEOUT : Duration)
    (gateway : JetTypes.PartialConfig) (grace : option Duration) : option ConfigQuic :=
  tpu_sender ← JetTypes.deserialize VALIDATOR_PORT_RANGE QUIC_MAX_TIMEOUT gateway;
  Some {| tpu_sender := tpu_sender;
          connection_idle_eviction_grace := default JetTypes.DEFAULT_LEADER_DURATION grace |}.

(** Predictions are on unless the file turns them off: only an explicit null disables the
    look-ahead. *)
Theorem prediction_is_on_by_default range timeout gateway grace q
  (Hq : deserialize_quic range timeout gateway grace = Some q) :
  JetTypes.leader_prediction_lookahead (tpu_sender q) = None ↔
  JetTypes.f_leader_prediction_lookahead gateway = Some None.
Proof.
  revert Hq. unfold deserialize_quic, JetTypes.deserialize.
  destruct (JetTypes.non_zero (default _ (JetTypes.f_num_endpoints gateway))) as [ne|]; [|done].
  destruct (JetTypes.non_zero (default _ (JetTypes.f_max_send_attempt gateway))) as [ms|]; [|done].
  cbn [mbind option_bind].
  destruct (JetTypes.f_leader_prediction_lookahead gateway) as [[n|]|]; cbn [mbind option_bind].
  - unfold JetTypes.non_zero. case_decide; [done|]. cbn. by intros [= <-].
  - cbn. by intros [= <-].
  - cbn. by intros [= <-].
Qed.

Definition demo_gateway : JetTypes.PartialConfig := JetTypes.mk_partial None None None None None None None None None None None None None None.
Lemma prediction_is_on_by_default_witness : ∃ q,
  deserialize_quic (8000, 10000)%N (from_secs 30) demo_gateway None = Some q ∧
  JetTypes.leader_prediction_lookahead (tpu_sender q) ≠ None.
Proof.
  destruct (deserialize_quic (8000, 10000)%N (from_secs 30) demo_gateway None) as [q|] eqn:E; [|discriminate E].
  exists q. split; [reflexivity|]. intros H.
  apply (prediction_is_on_by_default (8000, 10000)%N (from_secs 30) demo_gateway None q E) in H. discriminate H.
Defined.
End Config.
