(* ===== verification/JetMain.v ===== *)
(** The main program of the proxy ([run_jet] of
    [apps/jet/src/bin/jet.rs]): what the configuration starts, and the end of the
    process, which the first task to end brings about. *)
From S2P Require Import Prelude Types RpcRetry Retry Fanout JetTypes Lewis Config.

Import RpcRetry.

Module JetMain.

(** ** Wiring *)
Section Wiring.
Context `{RD : RetryDelays}.

(** [ConfigJet], the entries that decide what is started. *)
Record ConfigJet := {
  upstream : Config.ConfigUpstream;
  jet_gateway_endpoints : option (list string);
  send_transaction_service : Config.ConfigSendTransactionService;
  quic : Config.ConfigQuic;
  lewis_events : option Lewis.Config;
  has_prometheus : bool
}.

Definition retry_strategy (config : ConfigJet) : option RetryRpcSenderStrategy :=
  match Config.rpc_on_error (upstream config) with
  | Config.FixedStrategy interval retries => Some (FixedDelay interval retries)
  | Config.ExponentialStrategy base factor retries => Some (ExponentialBackoff base factor retries)
  | Config.Fail => None
  end.

(** The scheduler that resends, unless the proxy only relays. *)
Definition scheduler (MAX_PROCESSING_AGE : N) (config : ConfigJet) : option Retry.TransactionRetrySchedulerConfig :=
  let service := send_transaction_service config in
  if Config.relay_only_mode service then None
  else Some (Retry.mk_config (Config.retry_rate service) (Config.stop_send_on_commitment service)
               (default (Config.service_max_retries service) (Config.default_max_retries service)) MAX_PROCESSING_AGE).

Definition fanout_config (config : ConfigJet) : Fanout.FanoutConfig :=
  match Config.leader_forward_count (send_transaction_service config) with
  | Some count => Fanout.Custom count
  | None => Fanout.SmartFanout
  end.

(** Whether the gateway predicts the upcoming leaders or is given the ignorant
    predictor. *)
Definition connection_predictor (config : ConfigJet) : bool :=
  bool_decide (is_Some (JetTypes.leader_prediction_lookahead (Config.tpu_sender (quic config)))).

Definition jet_gw_listener (config : ConfigJet) : bool :=
  match jet_gateway_endpoints config with Some (_ :: _) => true | _ => false end.

(** The services of the group, as they are spawned; [scrape]: an address for the metrics
    was given on the command line. *)
Definition service_names (config : ConfigJet) (scrape : bool) : list string :=
  ["quic_gateway"; "transaction_fanout"; "stake_refresh_task"; "stake_info_metrics_update"] ++
  match lewis_events config with Some _ => ["lewis_client"] | None => [] end ++
  ["geyser"; "blockhash_queue"; "cluster_tpu_info"; "rooted_tx_receiver"] ++
  (if jet_gw_listener config then ["jet_gw_listener"] else []) ++
  (if has_prometheus config then ["prometheus_push_gw"] else []) ++
  (if scrape then ["prometheus_scrape_http_server"] else []).

(** A transaction that does not say how often to retry is never retried, whatever the
    configuration calls its default: the entry only caps what others ask for. *)
Lemma default_max_retries_is_a_cap age config s t (Hs : scheduler age config = Some s) :
  Retry.retries_of s t =
    default 0 (Retry.max_retries t) `min`
    default (Config.service_max_retries (send_transaction_service config))
      (Config.default_max_retries (send_transaction_service config)).
Proof. revert Hs. unfold scheduler. destruct (Config.relay_only_mode _); [done|]. by intros [= <-]. Qed.
End Wiring.

(** ** The tasks of the group

    What a poll of a task sees of the process: whether the token is cancelled, and whether
    SIGINT was delivered. [Service] is the future of another component: what it is ready
    with is its own. *)
Inductive TaskBody := Service | Sigint.
(** [sigint.recv().await]: the token is there to see, and is not looked at. *)
Definition sigint_task (cancelled signalled : bool) : option bool :=
  if signalled then Some true else None.
Definition poll (body : TaskBody) (cancelled signalled : bool) (ready : option bool) : option bool :=
  match body with
  | Service => ready
  | Sigint => sigint_task cancelled signalled
  end.
Abbreviation TaskGroup := (list (string * TaskBody)).
Definition with_sigint (services : list string) : TaskGroup :=
  ((λ name, (name, Service)) <$> services) ++ [("SIGINT"%string, Sigint)].
Definition task_group `{RD : RetryDelays} (config : ConfigJet) (scrape : bool) : TaskGroup :=
  with_sigint (service_names config scrape).

(** ** The end of the process *)

(** A task of the group: [Ended] until [join_next_with_id] returns it. *)
Inductive Task := Running | Ended (ok : bool) | Joined | Aborted.
#[export] Instance Task_eq_dec : EqDecision Task.
Proof. solve_decision. Defined.
(** [JoinSet::abort_all] has no effect on what has ended. *)
Definition abort (t : Task) : Task := match t with Running => Aborted | t => t end.
Definition is_joined (t : Task) : bool := match t with Joined => true | _ => false end.

(** Waiting for the first task, joining the others, or returned. *)
Inductive Phase := Waiting | Draining (shutdown_deadline : Instant) | Exited (timed_out : bool).

(** [jet_cancellation_token] is [cancelled]; the RPC servers are [serving] until
    their [shutdown]; [late] holds the names of the last warning; [signalled]: a SIGINT
    came since the handler was installed. *)
Record Main := mk_main {
  group : TaskGroup;
  tasks : list Task;
  phase : Phase;
  cancelled : bool;
  signalled : bool;
  serving : bool;
  first : option string;
  late : list string
}.
#[local] Instance Main_settable : Settable Main := λ m,
  mk_main (group m) (tasks m) (phase m) (cancelled m) (signalled m) (serving m) (first m) (late m).
Definition names (m : Main) : list string := (group m).*1.
Definition start (group : TaskGroup) : Main :=
  mk_main group (replicate (length group) Running) Waiting false false true None [].

Definition SHUTDOWN_DURATION : Duration := from_secs 10.

(** [tg.len()]: the tasks not yet joined. *)
Definition remaining (l : list Task) : list nat := filter (λ i, is_joined <$> l !! i ≠ Some true) (seq 0 (length l)).
(** What is left in [tg_name_map]. *)
Definition remaining_names (m : Main) : list string := omap (λ i, names m !! i) (remaining (tasks m)).

Definition exit (timed_out : bool) (m : Main) : Main :=
  m <| late := remaining_names m |> <| tasks ::= fmap abort |> <| phase := Exited timed_out |>.

Definition join (i : nat) (m : Main) : Main := m <| tasks ::= <[i := Joined]> |>.

(** The first result: everything else is told to stop. *)
Definition shut_down (now : Instant) (i : nat) (m : Main) : Main :=
  (join i m)
    <| cancelled := true |> <| first := names m !! i |> <| serving := false |>
    <| phase := Draining (now + SHUTDOWN_DURATION)%N |>.

(** A later result. *)
Definition drain_one (i : nat) (m : Main) : Main :=
  let m := join i m in
  if decide (remaining (tasks m) = []) then exit false m else m.

(** SIGINT is delivered; the runtime polls a task, with what a service would be ready
    with; the others are the wake-ups of the main task, with what it found ready. An event
    that cannot happen changes nothing. *)
Inductive Event :=
  | Signal
  | Poll (i : nat) (ready : option bool)
  | JoinNext (now : Instant) (i : nat)
  | DeadlineReached (now : Instant).
#[export] Instance Event_eq_dec : EqDecision Event.
Proof. solve_decision. Defined.
Definition poll_task (i : nat) (ready : option bool) (m : Main) : Main :=
  match tasks m !! i, group m !! i with
  | Some Running, Some (_, body) =>
      match poll body (cancelled m) (signalled m) ready with
      | Some ok => m <| tasks ::= <[i := Ended ok]> |>
      | None => m
      end
  | _, _ => m
  end.
Definition step (m : Main) (e : Event) : Main :=
  match e with
  | Signal => m <| signalled := true |>
  | Poll i ready => poll_task i ready m
  | JoinNext now i =>
      match tasks m !! i, phase m with
      | Some (Ended _), Waiting => shut_down now i m
      | Some (Ended _), Draining _ => drain_one i m
      | _, _ => m
      end
  | DeadlineReached now =>
      match phase m with
      | Draining shutdown_deadline => if (shutdown_deadline <=? now)%N then exit true m else m
      | _ => m
      end
  end.
Definition run (group : TaskGroup) (l : list Event) : Main := foldl step (start group) l.

(** The first task of the group was joined at [t]. *)
Definition first_joined (group : TaskGroup) (l : list Event) (t : Instant) : Prop :=
  ∃ past i rest, l = past ++ JoinNext t i :: rest ∧
    Joined ∉ tasks (run group past) ∧ tasks (run group (past ++ [JoinNext t i])) !! i = Some Joined.

(** ** Remaining tasks *)
Lemma elem_of_remaining i l : i ∈ remaining l ↔ ∃ t, l !! i = Some t ∧ t ≠ Joined.
Proof.
  unfold remaining. rewrite list_elem_of_filter, elem_of_seq. split.
  - intros [Hj Hi]. destruct (lookup_lt_is_Some_2 l i) as [t Ht]; [lia|]. exists t. split; [done|].
    intros ->. by rewrite Ht in Hj.
  - intros (t & Ht & Hne). pose proof (lookup_lt_Some _ _ _ Ht). rewrite Ht. split; [by destruct t|lia].
Qed.

Lemma remaining_join i l t : l !! i = Some t → t ≠ Joined →
  remaining l ≡ₚ i :: remaining (<[i := Joined]> l).
Proof.
  intros Ht Hne. apply NoDup_Permutation.
  - apply NoDup_filter, NoDup_seq.
  - constructor; [|apply NoDup_filter, NoDup_seq]. rewrite elem_of_remaining, list_lookup_insert_eq.
    + naive_solver.
    + by eapply lookup_lt_Some.
  - intros j. rewrite elem_of_cons, !elem_of_remaining. destruct (decide (j = i)) as [->|Hj]; [naive_solver|].
    rewrite list_lookup_insert_ne by done. naive_solver.
Qed.

Lemma remaining_nil l : remaining l = [] ↔ Forall (λ t, t = Joined) l.
Proof.
  rewrite Forall_lookup. split.
  - intros Hr i t Ht. destruct (decide (t = Joined)) as [|Hne]; [done|].
    assert (i ∈ remaining l) as Hi by (apply elem_of_remaining; eauto). rewrite Hr in Hi. by apply elem_of_nil in Hi.
  - intros Hl. apply elem_of_nil_inv. intros i (t & Ht & Hne)%elem_of_remaining. by apply Hne, (Hl i).
Qed.

(** ** Orderly *)
Definition untouched (t : Task) : Prop := match t with Running | Ended _ => True | _ => False end.
Definition not_aborted (t : Task) : Prop := t ≠ Aborted.
Definition stopped (t : Task) : Prop := t ≠ Running.

Definition in_phase (m : Main) : Prop :=
  match phase m with
  | Waiting => Forall untouched (tasks m) ∧ first m = None
  | Draining _ => Forall not_aborted (tasks m) ∧ (length (names m) ≠ 1 → remaining (tasks m) ≠ []) ∧
      ∃ i, tasks m !! i = Some Joined ∧ first m = names m !! i
  | Exited timed_out => Forall stopped (tasks m) ∧ late m = remaining_names m ∧
      (timed_out = false → Forall (λ t, t = Joined) (tasks m))
  end.
Record orderly (m : Main) : Prop := {
  one_name_each : length (tasks m) = length (names m);
  cancelled_since : cancelled m = true ↔ phase m ≠ Waiting;
  served_until : serving m = negb (cancelled m);
  orderly_phase : in_phase m
}.

Lemma remaining_abort l : remaining (abort <$> l) = remaining l.
Proof.
  unfold remaining. rewrite length_fmap. apply list_filter_iff. intros i. rewrite list_lookup_fmap.
  by destruct (l !! i) as [[]|].
Qed.

Lemma filter_all {A} (P : A → Prop) `{∀ x, Decision (P x)} l : Forall P l → filter P l = l.
Proof. induction 1; [done|]. rewrite filter_cons_True by done. by f_equal. Qed.

Lemma length_remaining_untouched l : Forall untouched l → length (remaining l) = length l.
Proof.
  intros Hl. unfold remaining. rewrite <-(length_seq (length l) 0) at 2. f_equal.
  apply filter_all. apply Forall_forall. intros i [_ Hi]%elem_of_seq. destruct (lookup_lt_is_Some_2 l i) as [t Ht]; [lia|].
  rewrite Ht. pose proof (Forall_lookup_1 _ _ _ _ Hl Ht). by destruct t.
Qed.

Lemma orderly_exit timed_out m : length (tasks m) = length (names m) → cancelled m = true → serving m = negb (cancelled m) →
  (timed_out = false → remaining (tasks m) = []) → orderly (exit timed_out m).
Proof.
  intros Hlen Hc Hs Hr. split; unfold exit; upd_simpl; [by rewrite length_fmap|done|done|].
  unfold in_phase. upd_simpl. split_and!.
  - apply Forall_fmap, Forall_forall. intros [] _; done.
  - unfold remaining_names. upd_simpl. by rewrite remaining_abort.
  - intros ->. rewrite <-remaining_nil, remaining_abort. auto.
Qed.

Lemma poll_task_cases i ready m :
  poll_task i ready m = m ∨ ∃ ok, tasks m !! i = Some Running ∧ poll_task i ready m = m <| tasks ::= <[i := Ended ok]> |>.
Proof.
  unfold poll_task. destruct (tasks m !! i) as [[]|] eqn:Ei; try by left.
  destruct (group m !! i) as [[name body]|]; [|by left]. case_match; [right; eauto|by left].
Qed.

Lemma orderly_signal m : orderly m → orderly (m <| signalled := true |>).
Proof. intros [Hlen Hc Hs Hp]. by split. Qed.

Lemma orderly_poll m i ready : orderly m → orderly (poll_task i ready m).
Proof.
  intros Ho. destruct (poll_task_cases i ready m) as [-> |(ok & Ei & ->)]; [done|]. destruct Ho as [Hlen Hc Hs Hp].
  split; upd_simpl; [by rewrite length_insert|done|done|].
  unfold in_phase in *. upd_simpl. destruct (phase m) as [|dl|to].
  - destruct Hp as [Hf Hn]. split; [|done]. by apply Forall_insert.
  - destruct Hp as (Hf & Hr & j & Hj & Hn). split_and!; [by apply Forall_insert| |].
    + intros _ Hnil%remaining_nil. assert (Ended ok = Joined); [|done].
      apply (Forall_lookup_1 _ _ i _ Hnil). apply list_lookup_insert_eq. by eapply lookup_lt_Some.
    + exists j. split; [|done]. rewrite list_lookup_insert_ne; [done|congruence].
  - destruct Hp as (Hf & _). pose proof (Forall_lookup_1 _ _ _ _ Hf Ei). done.
Qed.

Lemma orderly_shut_down m now i ok : orderly m → phase m = Waiting → tasks m !! i = Some (Ended ok) → orderly (shut_down now i m).
Proof.
  intros [Hlen Hc Hs Hp] Eph Ei. unfold in_phase in Hp. rewrite Eph in Hp. destruct Hp as [Hf Hn].
  split; unfold shut_down, join; upd_simpl; [by rewrite length_insert|done|done|].
  unfold in_phase. upd_simpl. split_and!.
  - apply Forall_insert; [|done]. eapply Forall_impl; [exact Hf|]. by intros [].
  - intros Hne Hnil. pose proof (length_remaining_untouched _ Hf) as Hl.
    rewrite (remaining_join i _ _ Ei) in Hl by done. rewrite Hnil in Hl. cbn in Hl. lia.
  - exists i. split; [|done]. apply list_lookup_insert_eq. by eapply lookup_lt_Some.
Qed.

Lemma orderly_drain_one m dl i ok : orderly m → phase m = Draining dl → tasks m !! i = Some (Ended ok) → orderly (drain_one i m).
Proof.
  intros [Hlen Hc Hs Hp] Eph Ei. unfold in_phase in Hp. rewrite Eph in Hp. destruct Hp as (Hf & Hr & j & Hj & Hn).
  rewrite Eph in Hc. unfold drain_one. cbv zeta. case_decide as Hd.
  - apply orderly_exit; unfold join in *; upd_simpl; [by rewrite length_insert|naive_solver|done|done].
  - split; unfold join in *; upd_simpl; [by rewrite length_insert|rewrite Eph; naive_solver|done|].
    unfold in_phase. upd_simpl. rewrite Eph. split_and!; [by apply Forall_insert|done|].
    exists j. split; [|done]. rewrite list_lookup_insert_ne; [done|congruence].
Qed.

Lemma orderly_step m e : orderly m → orderly (step m e).
Proof.
  intros Ho. destruct e as [|i ready|now i|now]; [by apply orderly_signal|by apply orderly_poll|..]; cbn [step].
  - destruct (tasks m !! i) as [[|ok| |]|] eqn:Ei; try done.
    destruct (phase m) as [|dl|to] eqn:Eph; [by eapply orderly_shut_down|by eapply orderly_drain_one|done].
  - destruct (phase m) as [|dl|to] eqn:Eph; [done| |done]. case_match; [|done].
    destruct Ho as [Hlen Hc Hs _]. apply orderly_exit; [done|rewrite Eph in Hc; naive_solver|done|done].
Qed.

Lemma orderly_start g : orderly (start g).
Proof.
  split; [cbn; unfold names; by rewrite length_replicate, length_fmap|done|done|]. split; [|done]. by apply Forall_replicate.
Qed.

Lemma run_snoc g l e : run g (l ++ [e]) = step (run g l) e.
Proof. unfold run. by rewrite foldl_app. Qed.

Lemma orderly_run g l : orderly (run g l).
Proof. induction l as [|e l IH] using rev_ind; [apply orderly_start|]. rewrite run_snoc. by apply orderly_step. Qed.

Lemma group_step m e : group (step m e) = group m.
Proof.
  destruct e as [|i ready|now i|now]; cbn [step]; [done| |..].
  - by destruct (poll_task_cases i ready m) as [-> |(ok & _ & ->)].
  - unfold shut_down, drain_one, exit, join. repeat case_match; cbv zeta; upd_simpl; by repeat case_decide.
  - unfold exit. by repeat case_match.
Qed.
Lemma group_run g l : group (run g l) = g.
Proof. induction l as [|e l IH] using rev_ind; [done|]. by rewrite run_snoc, group_step. Qed.
Lemma names_run g l : names (run g l) = g.*1.
Proof. unfold names. by rewrite group_run. Qed.

(** From the first end of a task on, and not before, the token is cancelled and the RPC
    servers are down; no task is aborted before the exit, where none is left running and a
    warning names those not joined. *)
Theorem shutdown_is_orderly g l :
  let m := run g l in
  (cancelled m = true ↔ phase m ≠ Waiting) ∧ serving m = negb (cancelled m) ∧
  (∀ i, tasks m !! i = Some Joined → cancelled m = true) ∧
  (∀ i, tasks m !! i = Some Aborted → ∃ name, g.*1 !! i = Some name ∧ name ∈ late m ∧ phase m = Exited true) ∧
  (∀ timed_out, phase m = Exited timed_out → Forall stopped (tasks m) ∧ late m = omap (λ i, g.*1 !! i) (remaining (tasks m))).
Proof.
  cbv zeta. destruct (orderly_run g l) as [Hlen Hc Hs Hp]. pose proof (names_run g l) as Hn.
  unfold in_phase in Hp. split; [done|]. split; [done|]. split_and!.
  - intros i Hi. apply Hc. intros Hw. rewrite Hw in Hp. destruct Hp as [Hf _].
    pose proof (Forall_lookup_1 _ _ _ _ Hf Hi). done.
  - intros i Hi. destruct (phase (run g l)) as [|dl|to].
    + destruct Hp as [Hf _]. pose proof (Forall_lookup_1 _ _ _ _ Hf Hi). done.
    + destruct Hp as [Hf _]. pose proof (Forall_lookup_1 _ _ _ _ Hf Hi). done.
    + destruct Hp as (_ & Hl & Hj). destruct (lookup_lt_is_Some_2 g.*1 i) as [name Hname].
      { rewrite <-Hn, <-Hlen. by eapply lookup_lt_Some. }
      exists name. split; [done|]. split.
      * rewrite Hl. unfold remaining_names. rewrite Hn. apply list_elem_of_omap. exists i. split; [|done].
        apply elem_of_remaining. eauto.
      * destruct to; [done|]. pose proof (Forall_lookup_1 _ _ _ _ (Hj eq_refl) Hi). done.
  - intros to Ht. rewrite Ht in Hp. destruct Hp as (Hf & Hl & _). split; [done|]. rewrite Hl. unfold remaining_names. by rewrite Hn.
Qed.

(** ** Its end *)
Lemma first_joined_snoc g l e t : first_joined g l t → first_joined g (l ++ [e]) t.
Proof. intros (past & i & rest & -> & Hp). exists past, i, (rest ++ [e]). by rewrite <-app_assoc. Qed.

Lemma first_join g l now i ok : phase (run g l) = Waiting → tasks (run g l) !! i = Some (Ended ok) →
  first_joined g (l ++ [JoinNext now i]) now.
Proof.
  intros Hw Hi. exists l, i, []. split; [done|]. split.
  - pose proof (orderly_phase _ (orderly_run g l)) as Hp. unfold in_phase in Hp. rewrite Hw in Hp.
    intros Hj. destruct Hp as [Hf _]. rewrite Forall_forall in Hf. by apply Hf in Hj.
  - rewrite run_snoc. cbn [step]. rewrite Hi, Hw. unfold shut_down, join. upd_simpl.
    apply list_lookup_insert_eq. by eapply lookup_lt_Some.
Qed.

(** A deadline, once set, is kept until the exit. *)
Lemma deadline_kept m e dl : phase m = Draining dl → phase (step m e) = Draining dl ∨
  phase (step m e) = Exited false ∨ ∃ now, e = DeadlineReached now ∧ (dl ≤ now)%N ∧ phase (step m e) = Exited true.
Proof.
  intros Hp. destruct e as [|i ready|now i|now]; cbn [step]; [by left| |..].
  - left. by destruct (poll_task_cases i ready m) as [-> |(ok & _ & ->)].
  - destruct (tasks m !! i) as [[]|]; rewrite ?Hp; try by left.
    unfold drain_one, exit, join. cbv zeta. case_decide; upd_simpl; [by right; left|by left].
  - rewrite Hp. destruct (dl <=? now)%N eqn:E; [|by left]. right; right. exists now. apply N.leb_le in E.
    unfold exit. by upd_simpl.
Qed.

Lemma exited_step m e to : phase m = Exited to → phase (step m e) = Exited to.
Proof.
  intros Hp. destruct e as [|i ready|now i|now]; cbn [step]; [done| |..].
  - by destruct (poll_task_cases i ready m) as [-> |(ok & _ & ->)].
  - destruct (tasks m !! i) as [[]|]; by rewrite ?Hp.
  - by rewrite Hp.
Qed.

Lemma waiting_step g l e : phase (run g l) = Waiting →
  phase (run g (l ++ [e])) = Waiting ∨
  ∃ now, phase (run g (l ++ [e])) = Draining (now + SHUTDOWN_DURATION) ∧ first_joined g (l ++ [e]) now.
Proof.
  intros Hp. rewrite run_snoc. destruct e as [|i ready|now i|now]; cbn [step]; [by left| |..].
  - left. by destruct (poll_task_cases i ready (run g l)) as [-> |(ok & _ & ->)].
  - destruct (tasks (run g l) !! i) as [[|ok| |]|] eqn:Ei; rewrite ?Hp; try by left.
    right. exists now. split; [done|]. by eapply first_join.
  - rewrite Hp. by left.
Qed.

(** Every deadline is that of the first join. *)
Lemma draining_since g l dl : phase (run g l) = Draining dl → ∃ t, first_joined g l t ∧ dl = (t + SHUTDOWN_DURATION)%N.
Proof.
  revert dl. induction l as [|e l IH] using rev_ind; intros dl Hd; [done|]. destruct (phase (run g l)) as [|dl'|to] eqn:Hp.
  - destruct (waiting_step g l e Hp) as [E|(now & E & Hf)]; rewrite E in Hd; [done|]. injection Hd as <-. eauto.
  - rewrite run_snoc in Hd. destruct (deadline_kept _ e _ Hp) as [E|[E|(now & _ & _ & E)]]; rewrite E in Hd; try done.
    injection Hd as <-. destruct (IH _ eq_refl) as (t & Hf & ->). exists t. split; [by apply first_joined_snoc|done].
  - rewrite run_snoc, (exited_step _ e _ Hp) in Hd. done.
Qed.

Lemma draining_goes_on l m dl : phase m = Draining dl →
  phase (foldl step m l) = Draining dl ∨ phase (foldl step m l) = Exited false ∨
  phase (foldl step m l) = Exited true ∧ ∃ now, DeadlineReached now ∈ l ∧ (dl ≤ now)%N.
Proof.
  intros Hp. induction l as [|e l IH] using rev_ind; [by left|]. rewrite foldl_app. cbn [foldl].
  destruct IH as [E|[E|(E & now & Hin & Hle)]].
  - destruct (deadline_kept _ e _ E) as [E'|[E'|(now & -> & Hle & E')]]; [by left|by right; left|].
    right; right. split; [done|]. exists now. set_solver.
  - right; left. by apply exited_step.
  - right; right. split; [by apply exited_step|]. exists now. set_solver.
Qed.

Lemma joins_end now order : ∀ m dl, phase m = Draining dl → order ≠ [] → order ≡ₚ remaining (tasks m) →
  Forall (λ i, ∃ ok, tasks m !! i = Some (Ended ok)) order →
  let m' := foldl step m (JoinNext now <$> order) in
  phase m' = Exited false ∧ Forall (λ t, t = Joined) (tasks m') ∧ late m' = [].
Proof.
  induction order as [|i order IH]; intros m dl Hp Hne Ho Hall; [done|].
  apply Forall_cons in Hall as [[ok Hi] Hall]. cbn [fmap list_fmap foldl step]. rewrite Hi, Hp.
  pose proof (remaining_join i _ _ Hi ltac:(done)) as Hj. rewrite Hj in Ho. apply (inj _) in Ho.
  unfold drain_one. cbv zeta. destruct order as [|i' order].
  - apply Permutation_nil_l in Ho. symmetry in Ho. unfold join. upd_simpl. rewrite decide_True by done.
    unfold exit. cbn [fmap list_fmap foldl]. upd_simpl. split; [done|]. split.
    + apply remaining_nil. by rewrite remaining_abort.
    + unfold remaining_names. upd_simpl. by rewrite Ho.
  - rewrite decide_False.
    2: { unfold join. upd_simpl. intros E. rewrite E in Ho. by apply Permutation_nil_r in Ho. }
    apply (IH _ dl); [done|done|done|]. unfold join. upd_simpl.
    assert (i ∉ i' :: order) as Hni.
    { rewrite Ho, elem_of_remaining, list_lookup_insert_eq by (by eapply lookup_lt_Some). naive_solver. }
    apply Forall_forall. intros k Hk. rewrite Forall_forall in Hall. destruct (Hall k Hk) as [okk Hok].
    exists okk. rewrite list_lookup_insert_ne; [done|]. intros ->. done.
Qed.

Lemma draining_has_tasks `{RD : RetryDelays} config scrape l dl :
  phase (run (task_group config scrape) l) = Draining dl → remaining (tasks (run (task_group config scrape) l)) ≠ [].
Proof.
  intros Hd. destruct (orderly_run (task_group config scrape) l) as [_ _ _ Hp]. unfold in_phase in Hp. rewrite Hd in Hp.
  destruct Hp as (_ & Hr & _). apply Hr. rewrite names_run. unfold task_group, with_sigint, service_names.
  rewrite length_fmap, !length_app, length_fmap, !length_app. cbn. lia.
Qed.

(** C38: Whatever the proxy started, a shutdown under way ends. Its deadline is ten seconds
    after the first task was joined, and stays: whatever happens in between, the process
    has exited once that deadline is noticed, and the exit that aborts tasks never comes
    before it. If all that remain have ended, joining them, in whatever order, ends it at
    once, with every task joined and no warning. *)
Theorem shutdown_ends `{RD : RetryDelays} config scrape l dl
  (Hd : phase (run (task_group config scrape) l) = Draining dl) :
  let m := run (task_group config scrape) l in
  (∃ t, first_joined (task_group config scrape) l t ∧ dl = (t + SHUTDOWN_DURATION)%N) ∧
  (∀ now order, order ≡ₚ remaining (tasks m) → Forall (λ i, ∃ ok, tasks m !! i = Some (Ended ok)) order →
     let m' := foldl step m (JoinNext now <$> order) in
     phase m' = Exited false ∧ Forall (λ t, t = Joined) (tasks m') ∧ late m' = []) ∧
  (∀ rest now, (dl ≤ now)%N → ∃ timed_out, phase (foldl step m (rest ++ [DeadlineReached now])) = Exited timed_out) ∧
  (∀ rest, phase (foldl step m rest) = Exited true → ∃ now, DeadlineReached now ∈ rest ∧ (dl ≤ now)%N).
Proof.
  cbv zeta. split_and!.
  - by apply draining_since.
  - intros now order Ho Hall. apply (joins_end now order _ dl Hd); [|done..]. intros ->.
    apply (draining_has_tasks config scrape l dl Hd). by apply Permutation_nil_l in Ho.
  - intros rest now Hnow. rewrite foldl_app. cbn [foldl].
    destruct (draining_goes_on rest _ dl Hd) as [E|[E|[E _]]]; [|by eexists; apply exited_step..].
    exists true. cbn [step]. rewrite E. apply N.leb_le in Hnow. rewrite Hnow. unfold exit. by upd_simpl.
  - intros rest Hx. by destruct (draining_goes_on rest _ dl Hd) as [E|[E|[_ E]]]; [congruence..|].
Qed.

(** ** The task of the signal *)

(** The task [i] awaits a signal that has not come: it is neither ended nor joined. *)
Record awaits (i : nat) (m : Main) : Prop := {
  aw_body : group m !! i = Some ("SIGINT"%string, Sigint);
  aw_signal : signalled m = false;
  aw_task : tasks m !! i = Some Running ∨ tasks m !! i = Some Aborted ∧ phase m = Exited true
}.

Lemma joined_other i j (m : Main) ok : tasks m !! j = Some (Ended ok) → tasks m !! i = Some Running →
  tasks (join j m) !! i = Some Running.
Proof. intros Ej Hi. unfold join. upd_simpl. rewrite list_lookup_insert_ne; [done|congruence]. Qed.

Lemma awaits_step i m e : e ≠ Signal → awaits i m → awaits i (step m e).
Proof.
  intros He [Hb Hs Ht].
  assert (∀ m', group m' = group m → signalled m' = signalled m →
    tasks m' !! i = Some Running ∨ tasks m' !! i = Some Aborted ∧ phase m' = Exited true → awaits i m') as Hk
    by (intros m' E1 E2 Ht'; split; [by rewrite E1|by rewrite E2|done]).
  apply Hk; [apply group_step|..].
  - destruct e as [|j ready|now j|now]; cbn [step]; [done| |..].
    + by destruct (poll_task_cases j ready m) as [-> |(ok & _ & ->)].
    + unfold shut_down, drain_one, exit, join. repeat case_match; cbv zeta; upd_simpl; by repeat case_decide.
    + unfold exit. by repeat case_match.
  - destruct e as [|j ready|now j|now]; cbn [step]; [done| |..].
    + destruct (decide (j = i)) as [->|Hne].
      * unfold poll_task. destruct Ht as [Hi|[Hi Hp]]; rewrite Hi; [|by right]. rewrite Hb. cbn [poll]. unfold sigint_task.
        rewrite Hs. by left.
      * destruct (poll_task_cases j ready m) as [-> |(ok & _ & ->)]; [done|]. upd_simpl. by rewrite list_lookup_insert_ne.
    + destruct (tasks m !! j) as [[|ok| |]|] eqn:Ej; try exact Ht.
      destruct (phase m) as [|dl|to] eqn:Eph; [| |by rewrite Eph]; destruct Ht as [Hi|[_ Hp]]; [|congruence| |congruence].
      * left. by apply (joined_other i j m ok).
      * left. pose proof (joined_other i j m ok Ej Hi) as Hi'. unfold drain_one. cbv zeta. rewrite decide_False; [done|].
        intros Hnil%remaining_nil. by pose proof (Forall_lookup_1 _ _ _ _ Hnil Hi').
    + destruct (phase m) as [|dl|to] eqn:Eph; [by rewrite Eph| |by rewrite Eph]. case_match; [|by rewrite Eph].
      destruct Ht as [Hi|[_ Hp]]; [|congruence]. right. unfold exit. upd_simpl. by rewrite list_lookup_fmap, Hi.
Qed.

Lemma exit_took_the_deadline g l : phase (run g l) = Exited true →
  ∃ t now, first_joined g l t ∧ DeadlineReached now ∈ l ∧ (t + SHUTDOWN_DURATION ≤ now)%N.
Proof.
  induction l as [|e l IH] using rev_ind; [done|]. intros Hx. destruct (phase (run g l)) as [|dl|to] eqn:Hp.
  - destruct (waiting_step g l e Hp) as [E|(now & E & _)]; congruence.
  - destruct (draining_since g l dl Hp) as (t & Hf & ->). rewrite run_snoc in Hx.
    destruct (deadline_kept _ e _ Hp) as [E|[E|(now & -> & Hle & _)]]; [congruence..|].
    exists t, now. split; [by apply first_joined_snoc|]. set_solver.
  - rewrite run_snoc, (exited_step _ e _ Hp) in Hx. injection Hx as ->.
    destruct (IH eq_refl) as (t & now & Hf & Hin & Hle). exists t, now. split; [by apply first_joined_snoc|]. set_solver.
Qed.

Lemma awaits_run services l : Signal ∉ l → awaits (length services) (run (with_sigint services) l).
Proof.
  induction l as [|e l IH] using rev_ind; intros Hl.
  - unfold with_sigint. split; cbn.
    + rewrite lookup_app_r by (by rewrite length_fmap). by rewrite length_fmap, Nat.sub_diag.
    + done.
    + left. apply lookup_replicate. split; [done|]. rewrite length_app, length_fmap. cbn. lia.
  - rewrite run_snoc. apply awaits_step; [intros ->|apply IH]; set_solver.
Qed.

(** C39: A defect: a shutdown waits for SIGINT. The task that awaits the signal does not
    look at the token, so that in any run without the signal, whatever the services do and
    however often the task is polled, the process only exits at the deadline, at least ten
    seconds after the first task was joined, and with a warning that names the task. *)
Theorem shutdown_waits_for_sigint `{RD : RetryDelays} config scrape l timed_out
  (Hl : Signal ∉ l) (He : phase (run (task_group config scrape) l) = Exited timed_out) :
  timed_out = true ∧ "SIGINT"%string ∈ late (run (task_group config scrape) l) ∧
  ∃ t now, first_joined (task_group config scrape) l t ∧ DeadlineReached now ∈ l ∧ (t + SHUTDOWN_DURATION ≤ now)%N.
Proof.
  destruct (awaits_run (service_names config scrape) l Hl) as [Hb _ Hs]. fold (task_group config scrape) in *.
  destruct (orderly_run (task_group config scrape) l) as [_ _ _ Hp]. unfold in_phase in Hp. rewrite He in Hp.
  destruct Hp as (Hf & Hlate & _). destruct Hs as [Hs|[Hs Hx]]; [by pose proof (Forall_lookup_1 _ _ _ _ Hf Hs)|].
  rewrite He in Hx. injection Hx as ->. split; [done|]. split; [|by apply exit_took_the_deadline].
  rewrite Hlate. unfold remaining_names. apply list_elem_of_omap. eexists. split; [apply elem_of_remaining; eauto|].
  unfold names. by rewrite list_lookup_fmap, Hb.
Qed.

(** ** A run *)

#[local] Instance no_delays : RetryDelays := {| Factor := unit; fixed_from_millis := λ ms _, from_millis ms; exponential_from_millis_with_factor := λ ms _ _, from_millis ms |}.
Definition demo_config : option ConfigJet :=
  service ← Config.deserialize_send_service (λ _, None) (Config.Build_SendServiceEntries None (Some 5) None None None None None);
  quic ← Config.deserialize_quic (8000, 10000)%N (from_secs 30) Config.demo_gateway None;
  Some {| upstream := Config.deserialize_upstream (Config.Build_UpstreamEntries None None None None None None);
          jet_gateway_endpoints := None; send_transaction_service := service; quic := quic;
          lewis_events := None; has_prometheus := false |}.
(** The geyser task fails; every other service stops within a second, and the task of the
    signal is polled again after the cancellation. *)
Definition demo_end : list Event :=
  [Poll 4 (Some false); JoinNext (from_secs 100) 4] ++ ((λ i, Poll i (Some true)) <$> [0; 1; 2; 3; 5; 6; 7; 8]) ++
  (JoinNext (from_secs 101) <$> [7; 6; 5; 3; 2; 1; 0]).

Definition demo_group : TaskGroup :=
  with_sigint ["quic_gateway"; "transaction_fanout"; "stake_refresh_task"; "stake_info_metrics_update"; "geyser";
    "blockhash_queue"; "cluster_tpu_info"; "rooted_tx_receiver"]%string.

Lemma shutdown_waits_for_sigint_witness : ∃ config,
  demo_config = Some config ∧ "SIGINT"%string ∈ late (run (task_group config false) (demo_end ++ [DeadlineReached (from_secs 110)])).
Proof.
  destruct demo_config as [config|] eqn:E; [|discriminate E]. exists config. split; [reflexivity|].
  assert (task_group config false = demo_group) as Hn by (injection E as <-; reflexivity).
  apply (shutdown_waits_for_sigint config false _ true).
  - apply (bool_decide_unpack _). vm_compute. exact I.
  - rewrite Hn. vm_compute; reflexivity.
Defined.

(** With the signal, the same shutdown ends without the deadline. *)
Lemma shutdown_ends_witness : ∃ config,
  demo_config = Some config ∧
  (∃ timed_out, phase (foldl step (run (task_group config false) demo_end) ([Poll 8 (Some true)] ++ [DeadlineReached (from_secs 110)]))
    = Exited timed_out) ∧
  phase (foldl step (run (task_group config false) (Signal :: demo_end)) (JoinNext (from_secs 102) <$> [8])) = Exited false.
Proof.
  destruct demo_config as [config|] eqn:E; [|discriminate E]. exists config. split; [reflexivity|].
  assert (task_group config false = demo_group) as Hn by (injection E as <-; reflexivity).
  assert (∀ l, phase (run demo_group l) = Draining (from_secs 110) → phase (run (task_group config false) l) = Draining (from_secs 110))
    as Hd by (intros; by rewrite Hn).
  split.
  - apply (shutdown_ends config false demo_end (from_secs 110)); [apply Hd; vm_compute; reflexivity|reflexivity].
  - apply (shutdown_ends config false (Signal :: demo_end) (from_secs 110)); [apply Hd; vm_compute; reflexivity|..].
    + rewrite Hn. vm_compute. reflexivity.
    + repeat constructor. exists true. rewrite Hn. vm_compute. reflexivity.
Defined.
End JetMain.
