(* ===== verification/Lite.v ===== *)
(** The lighter proxy ([bin/lite-jet.rs] of [apps/jet/src]): the entries ([Intake]) in
    front of the library's sender ([Sender]), without scheduler, fan-out tasks or policies. *)
From S2P Require Import Prelude Types RpcRetry Commitment Rooted Blockhash Retry Payload Text Intake Runtime Slot Schedule Managed Sender JetMain.
Import Retry.

Module Lite.

(** ** What [run_jet] starts

    The process then ends as that of the proxy does, by the machine of [JetMain]. *)
Definition service_names (jet_gw_listener scrape : bool) : list string :=
  ["yellowstone_tpu_sender_related_objects"; "tpu_sender_loop"; "stake_refresh_task"; "geyser"; "blockhash_queue"] ++
  (if jet_gw_listener then ["jet_gw_listener"] else []) ++
  (if scrape then ["prometheus_scrape_http_server"] else []).
Definition main (jet_gw_listener scrape : bool) : JetMain.Main := JetMain.start (JetMain.with_sigint (service_names jet_gw_listener scrape)).
Definition main_step (m : JetMain.Main) (e : JetMain.Event) : JetMain.Main := JetMain.step m e.

(** ** The loop *)
Section Lite.
Context `{TV : TransactionView} `{TX : TextCodecs} `{LJ : Payload.LegacyJson} `{PF : PubkeyFromStr} `{!TransactionLaws}.
Context (form_urlencoded : Text.bytes → list (Text.bytes * Text.bytes)).
Context {Ch : Type} `{MC : Mpsc Ch TpuSenderTxn} `{TI : LeaderTpuInfoService Tpu} (DEFAULT_SLOTS_PER_EPOCH : N).
Abbreviation YellowstoneTpuSender := (@Sender.YellowstoneTpuSender Tpu).
Abbreviation send_txn := (Sender.send_txn_fanout (Ch := Ch) DEFAULT_SLOTS_PER_EPOCH).

(** [tpu_sender_loop], after [recv]: [true] when it goes on. A failed send is logged. *)
Definition on_request (is_cancelled : bool) (tpu_sender : YellowstoneTpuSender) (request : SendTransactionRequest) (c : Ch)
    : bool * Ch :=
  if is_cancelled then (false, c)
  else let '(_, c) := send_txn tpu_sender (signature request) (wire_transaction request) c in (true, c).

(** What was accepted, how much of it the loop took, whether the loop runs, the channel of
    the driver, and what the driver took from it. *)
Record Lite := mk_lite { sink : list SendTransactionRequest; taken : nat; running : bool; driver : Ch; received : list TpuSenderTxn }.
#[local] Instance Lite_settable : Settable Lite := λ r, mk_lite (sink r) (taken r) (running r) (driver r) (received r).
Definition new (capacity : nat) : Lite := mk_lite [] 0 true (channel capacity) [].

(** A submission; a turn of the loop, with what the sender knows then and whether the
    token is cancelled; the driver takes a transaction; the last sender of the channel of
    requests is gone. *)
Inductive Event := Submit (s : Intake.Submission) | Turn (is_cancelled : bool) (tpu_sender : YellowstoneTpuSender) | Take | InletClosed.
Definition step (l : Lite) (e : Event) : Lite :=
  match e with
  | Submit s =>
      (** Without a receiver the sink panics. *)
      if running l then
        match (Intake.submit form_urlencoded s (Some (sink l))).2 with Some k => l <| sink := k |> | None => l end
      else l
  | Turn is_cancelled tpu_sender =>
      match sink l !! taken l with
      | Some request =>
          if running l then
            let '(goes_on, c) := on_request is_cancelled tpu_sender request (driver l) in
            l <| taken ::= S |> <| running := goes_on |> <| driver := c |>
          else l
      | None => l
      end
  | Take =>
      let '(t, c) := try_recv (driver l) in l <| driver := c |> <| received ::= λ k, k ++ option_list t |>
  | InletClosed => if decide (taken l = length (sink l)) then l <| running := false |> else l
  end.
Definition run (capacity : nat) (es : list Event) : Lite := foldl step (new capacity) es.

(** The copies of a request. *)
Definition copies_of (request : SendTransactionRequest) (l : list TpuSenderTxn) : Prop := ∃ leaders,
  l = (λ leader, from_bytes (signature request) leader (wire_transaction request)) <$> leaders.
Definition delivered (l : Lite) : Prop := ∃ sends,
  received l ++ buffered (driver l) = mjoin sends ∧ Forall2 copies_of (take (taken l) (sink l)) sends.

Lemma on_request_copies b s r c : ∃ k, copies_of r k ∧ buffered (on_request b s r c).2 = buffered c ++ k.
Proof.
  unfold on_request. destruct b; [exists []; split; [by exists []|by rewrite app_nil_r]|].
  pose proof (Sender.fanout_appends DEFAULT_SLOTS_PER_EPOCH s (signature r) (wire_transaction r) c) as Hsend.
  destruct (send_txn _ _ _ _) as [res c']. destruct Hsend as (leaders & Hb & _). eexists. split; [by exists leaders|done].
Qed.

Lemma mjoin_snoc {A} (ls : list (list A)) k : mjoin (ls ++ [k]) = mjoin ls ++ k.
Proof. induction ls as [|x ls IH]; cbn; [apply app_nil_r|]. change (x ++ mjoin (ls ++ [k]) = (x ++ mjoin ls) ++ k). by rewrite IH, app_assoc. Qed.

Record lite_inv (l : Lite) : Prop := {
  li_sink : Forall Intake.valid_request (sink l);
  li_taken : taken l ≤ length (sink l);
  li_delivered : delivered l
}.
Lemma lite_inv_step l e : lite_inv l → lite_inv (step l e).
Proof.
  intros [Hv Ht Hd]. destruct e as [s|b s| |]; cbn [step].
  - destruct (running l); [|by split].
    destruct (Intake.submit_spec form_urlencoded s (sink l)) as [->|(req & -> & Hreq)]; cbn [snd]; [by split; upd_simpl|].
    split; upd_simpl; [apply Forall_app; by repeat constructor|rewrite length_app; lia|].
    unfold delivered in *. upd_simpl. by rewrite take_app_le.
  - destruct (sink l !! taken l) as [r|] eqn:Er; [|by split]. destruct (running l); [|by split].
    destruct (on_request_copies b s r (driver l)) as (k & Hk & Hb). destruct (on_request b s r (driver l)) as [g c].
    cbn [snd] in Hb. split; upd_simpl; [done|by apply lookup_lt_Some in Er|].
    destruct Hd as (sends & E & Hf). exists (sends ++ [k]). upd_simpl. split.
    + by rewrite Hb, app_assoc, E, mjoin_snoc.
    + rewrite (take_S_r _ _ _ Er). apply Forall2_app; [done|by repeat constructor].
  - pose proof (try_recv_spec (driver l)) as [H1 H2]. destruct (try_recv (driver l)) as [t c]. cbn [fst snd] in *.
    split; upd_simpl; [done|done|]. destruct Hd as (sends & E & Hf). exists sends. upd_simpl. split; [|done].
    rewrite <-E, H1, H2. destruct (buffered (driver l)) as [|x q]; cbn; by rewrite <-?app_assoc.
  - case_decide; [|by split]. by split; upd_simpl.
Qed.

(** Whatever the order of submissions, turns and cancellation, what reaches the driver is, request
    by request in the order they were accepted, copies of accepted valid requests. *)
Theorem lite_sends_what_it_accepted capacity es : let l := run capacity es in
  Forall Intake.valid_request (sink l) ∧ delivered l.
Proof.
  assert (lite_inv (run capacity es)) as [? _ ?]; [|done]. unfold run. induction es as [|e es IH] using rev_ind.
  - split; [constructor|cbn; lia|]. exists []. cbn. by rewrite buffered_channel.
  - rewrite foldl_app. by apply lite_inv_step.
Qed.

(** The token is looked at when a request comes: a cancelled loop without requests keeps
    waiting, and the request that wakes it is lost, though its submission was accepted. *)
Theorem cancelled_loop_swallows_a_request l s (Hrun : running l = true) :
  (∀ r, sink l !! taken l = Some r → let l' := step l (Turn true s) in
    taken l' = S (taken l) ∧ running l' = false ∧ buffered (driver l') = buffered (driver l) ∧ received l' = received l) ∧
  (sink l !! taken l = None → step l (Turn true s) = l).
Proof. split; cbn [step]; [intros r ->|by intros ->]. by rewrite Hrun. Qed.
End Lite.
End Lite.
