(* ===== verification/Supervision.v ===== *)
(** The overseer of the background tasks of the Yellowstone sender
    ([YellowstoneTpuDependencies] and [yellowstone_tpu_deps_overseer_inner] of
    [yellowstone_grpc/sender.rs] in [crates/tpu-client/src]): the end of one task,
    or of the sender, ends them all, and the overseer returns last. *)
From S2P Require Import Prelude Types.

Module Supervision.

(** A spawned task: its abort takes effect at a later point, [TaskEnds]. *)
Inductive Task := Running | Aborting | Ended (ok : bool).
Definition abort (t : Task) : Task := match t with Running => Aborting | t => t end.
Definition is_ended (t : Task) : bool := match t with Ended _ => true | _ => false end.
#[export] Instance Task_eq_dec : EqDecision Task.
Proof. solve_decision. Defined.

(** [YellowstoneTpuDependencies]: names and handles; the abort handles are those
    of the same tasks. *)
Record Dependencies := mk_deps { handle_names : list string; handles : list Task }.
Definition default_dependencies : Dependencies := mk_deps [] [].
Definition push (name : string) (handle : Task) (d : Dependencies) : Dependencies :=
  mk_deps (handle_names d ++ [name]) (handles d ++ [handle]).

(** Where the overseer is: in the [select!], awaiting the first task after the
    shutdown, joining the others, or returned; [Dropped] when its future is. *)
Inductive Phase := Selecting | ShuttingDown | Joining (rest : list nat) | Returned | Dropped.
Record Overseer := mk_overseer { names : list string; tasks : list Task; phase : Phase; logs : list (bool * string) }.
Definition abort_all (l : list Task) : list Task := abort <$> l.

Definition into_overseer (d : Dependencies) : Overseer :=
  mk_overseer (handle_names d) (handles d) (match handles d with [] => Returned | _ => Selecting end) [].

(** [TaskEnds] is the runtime's; the others are polls of the overseer, each with
    what it found ready. *)
Inductive Event := TaskEnds (i : nat) (ok : bool) | ShutdownCancelled | FirstReady (i : nat) | JoinReady | DropOverseer.
Definition others (i : nat) (n : nat) : list nat := filter (λ j, j ≠ i) (seq 0 n).
Definition step (o : Overseer) (e : Event) : Overseer :=
  match e with
  | TaskEnds i ok =>
      match tasks o !! i with
      | Some (Running | Aborting) => mk_overseer (names o) (<[i := Ended ok]> (tasks o)) (phase o) (logs o)
      | _ => o
      end
  | ShutdownCancelled =>
      match phase o with Selecting => mk_overseer (names o) (abort_all (tasks o)) ShuttingDown (logs o) | _ => o end
  | FirstReady i =>
      match tasks o !! i, phase o with
      | Some (Ended ok), Selecting =>
          mk_overseer (names o) (abort_all (tasks o)) (Joining (others i (length (tasks o))))
            (logs o ++ [(ok, default "unknown"%string (names o !! i))])
      | Some (Ended _), ShuttingDown => mk_overseer (names o) (abort_all (tasks o)) (Joining (others i (length (tasks o)))) (logs o)
      | _, _ => o
      end
  | JoinReady =>
      match phase o with
      | Joining [] => mk_overseer (names o) (tasks o) Returned (logs o)
      | Joining (i :: rest) =>
          match tasks o !! i with
          | Some (Ended _) => mk_overseer (names o) (tasks o) (Joining rest) (logs o)
          | _ => o
          end
      | _ => o
      end
  | DropOverseer =>
      match phase o with Returned | Dropped => o | _ => mk_overseer (names o) (abort_all (tasks o)) Dropped (logs o) end
  end.
Definition run (d : Dependencies) (l : list Event) : Overseer := foldl step (into_overseer d) l.

(** Outside the [select!] no task is left alone; the tasks not awaited any more
    have ended. *)
Record supervised (o : Overseer) : Prop := {
  supervised_aborted : phase o ≠ Selecting → Forall (λ t, t ≠ Running) (tasks o);
  supervised_joining : ∀ rest, phase o = Joining rest → ∀ i, i < length (tasks o) → i ∉ rest → ∃ ok, tasks o !! i = Some (Ended ok);
  supervised_returned : phase o = Returned → Forall (λ t, is_ended t = true) (tasks o)
}.

Lemma abort_all_stopped l : Forall (λ t, t ≠ Running) (abort_all l).
Proof. apply Forall_fmap, Forall_true. by intros []. Qed.
Lemma lookup_abort_all l i ok : l !! i = Some (Ended ok) → abort_all l !! i = Some (Ended ok).
Proof. intros H. unfold abort_all. by rewrite list_lookup_fmap, H. Qed.

Lemma supervised_end o i ok : supervised o →
  supervised (mk_overseer (names o) (<[i := Ended ok]> (tasks o)) (phase o) (logs o)).
Proof.
  intros [H1 H2 H3]. split; cbn [phase tasks].
  - intros Hp. by apply Forall_insert; [apply H1|].
  - intros rest Hr j Hj Hin. rewrite length_insert in Hj. destruct (decide (i = j)) as [->|Hne].
    + exists ok. by apply list_lookup_insert_eq.
    + rewrite list_lookup_insert_ne by done. by eapply H2.
  - intros Hp. by apply Forall_insert; [apply H3|].
Qed.

Lemma supervised_first o i ok l : tasks o !! i = Some (Ended ok) →
  supervised (mk_overseer (names o) (abort_all (tasks o)) (Joining (others i (length (tasks o)))) l).
Proof.
  intros Ei. split; cbn [phase tasks]; [intros _; apply abort_all_stopped| |done].
  intros rest [= <-] j Hj Hin. unfold abort_all in Hj. rewrite length_fmap in Hj.
  destruct (decide (j = i)) as [->|Hne]; [exists ok; by apply lookup_abort_all|].
  exfalso. apply Hin. unfold others. apply list_elem_of_filter. split; [done|apply elem_of_seq; lia].
Qed.

Lemma supervised_stop o p l : p = ShuttingDown ∨ p = Dropped → supervised (mk_overseer (names o) (abort_all (tasks o)) p l).
Proof. intros [-> | ->]; (split; cbn [phase tasks]; [intros _; apply abort_all_stopped|intros; discriminate|intros; discriminate]). Qed.

Lemma supervised_join o : supervised o → supervised (step o JoinReady).
Proof.
  intros H. pose proof H as [H1 H2 H3]. cbn [step]. destruct (phase o) as [| |[|i rest]| |] eqn:Ep; try done.
  - split; cbn [phase tasks]; [by auto|done|]. intros _. apply Forall_lookup. intros i t Hi.
    destruct (H2 [] eq_refl i) as [ok Hok]; [by eapply lookup_lt_Some|apply not_elem_of_nil|]. by simplify_eq.
  - destruct (tasks o !! i) as [[| |ok]|] eqn:Ei; try done. split; cbn [phase tasks]; [by auto| |done].
    intros rest' [= <-] j Hj Hin. destruct (decide (j = i)) as [->|Hne]; [by exists ok|].
    apply (H2 _ eq_refl j Hj). by rewrite not_elem_of_cons.
Qed.

Lemma supervised_step o e : supervised o → supervised (step o e).
Proof.
  intros H. destruct e as [i ok| |i| |]; [..|cbn [step]; destruct (phase o); try done; apply supervised_stop; by right].
  - cbn [step]. destruct (tasks o !! i) as [[| |]|]; try done; by apply supervised_end.
  - cbn [step]. destruct (phase o); try done. apply supervised_stop. by left.
  - cbn [step]. destruct (tasks o !! i) as [[| |ok]|] eqn:Ei; try done.
    destruct (phase o); try done; by eapply supervised_first.
  - by apply supervised_join.
Qed.

(** When the overseer returns, every task has ended; from the first end or the shutdown on,
    none is left without an abort. *)
Theorem overseer_returns_last d l :
  let o := run d l in
  (phase o = Returned → Forall (λ t, is_ended t = true) (tasks o)) ∧
  (phase o ≠ Selecting → Forall (λ t, t ≠ Running) (tasks o)).
Proof.
  cbn zeta. assert (supervised (run d l)) as [H1 _ H3]; [|done].
  unfold run. induction l as [|e l IH] using rev_ind; [|rewrite foldl_app; by apply supervised_step].
  unfold into_overseer. cbn [foldl]. destruct (handles d) eqn:E; split; cbn [phase tasks]; rewrite ?E; try done; by constructor.
Qed.

(** From any point the overseer has work only as long as some task has not ended:
    a turn on an ended set of tasks brings it to its end. *)
Definition finish (o : Overseer) : list Event := FirstReady 0 :: replicate (length (tasks o)) JoinReady.

Lemma joins_return o rest : phase o = Joining rest → Forall (λ t, is_ended t = true) (tasks o) → Forall (λ i, i < length (tasks o)) rest →
  phase (foldl step o (replicate (S (length rest)) JoinReady)) = Returned.
Proof.
  revert o. induction rest as [|i rest IH]; intros o Hp Ht Hr; cbn [length replicate foldl step]; rewrite Hp; [done|].
  apply Forall_cons in Hr as [Hi Hr]. apply lookup_lt_is_Some in Hi as [t Hi]. rewrite Hi.
  pose proof (Forall_lookup_1 _ _ _ _ Ht Hi) as He. destruct t; [done..|]. by apply (IH (mk_overseer _ _ (Joining rest) _)).
Qed.

Lemma filter_keeps {A} (P : A → Prop) `{!∀ x, Decision (P x)} l : Forall P l → filter P l = l.
Proof. induction 1 as [|x l Hx _ IH]; [done|]. by rewrite filter_cons, decide_True, IH by done. Qed.

Lemma others_spec i n : i < n → length (others i n) = pred n ∧ Forall (λ j, j < n) (others i n).
Proof.
  intros Hi. split.
  - unfold others. replace n with (i + S (n - S i)) by lia. rewrite seq_app, filter_app. cbn [seq]. rewrite filter_cons, decide_False by lia.
    rewrite !filter_keeps, length_app, !length_seq; [lia|..]; apply Forall_forall; intros j Hj%elem_of_seq; lia.
  - apply Forall_forall. intros j [_ Hj%elem_of_seq]%list_elem_of_filter. lia.
Qed.

(** Once all tasks have ended, the overseer returns after one poll of the select and one
    for each other task. *)
Theorem ended_tasks_end_the_overseer d l (Hend : Forall (λ t, is_ended t = true) (tasks (run d l)))
    (Hphase : phase (run d l) = Selecting ∨ phase (run d l) = ShuttingDown) (Hsome : tasks (run d l) ≠ []) :
  phase (run d (l ++ finish (run d l))) = Returned.
Proof.
  unfold run at 1. rewrite foldl_app. fold (run d l). set (o := run d l) in *. unfold finish. cbn [foldl].
  destruct (tasks o) as [|t ts] eqn:Et; [done|]. apply Forall_cons in Hend as [Ht Hts]. destruct t as [| |ok]; [done..|].
  assert (∃ logs, step o (FirstReady 0) = mk_overseer (names o) (abort_all (Ended ok :: ts)) (Joining (others 0 (S (length ts)))) logs) as [lg ->].
  { cbn [step]. rewrite Et. cbn [lookup list_lookup length]. destruct Hphase as [-> | ->]; by eexists. }
  destruct (others_spec 0 (S (length ts))) as [Hlen Hlt]; [lia|]. cbn [pred] in Hlen. cbn [length].
  rewrite <-Hlen at 2. apply joins_return; cbn [phase tasks]; [done|..].
  - constructor; [done|]. apply Forall_fmap. eapply Forall_impl; [exact Hts|]. by intros [].
  - unfold abort_all. by rewrite length_fmap.
Qed.

Definition demo_dependencies : Dependencies := push "slots" Running (push "stakes" Running default_dependencies).
Definition demo_events : list Event := [TaskEnds 0 true; TaskEnds 1 false].
Lemma ended_tasks_end_the_overseer_witness :
  phase (run demo_dependencies (demo_events ++ finish (run demo_dependencies demo_events))) = Returned.
Proof.
  apply (ended_tasks_end_the_overseer demo_dependencies demo_events); [repeat constructor|left; reflexivity|discriminate].
Defined.
End Supervision.
