(* ===== verification/Construct.v ===== *)
(** How a Yellowstone sender comes and goes
    ([create_yellowstone_tpu_sender_inner] and
    [create_yellowstone_tpu_sender_with_clients] of [yellowstone_grpc/sender.rs] in
    [crates/tpu-client/src]): its services are started one after the other, each
    leaving a task behind, and a construction that fails or is dropped midway
    aborts those started; the clones of a finished sender share a token that the
    last one cancels. *)
From S2P Require Import Prelude Types Supervision.
Import Supervision.

Module Construct.

(** The errors of the clients, and those of the leader schedule, are opaque. *)
Inductive CreateTpuSenderError :=
  | RpcClientError (e : N)
  | LeaderScheduleError (e : N)
  | YellowstoneGrpcError (e : N)
  | YellowstoneGrpcBuilderError (e : N)
  | GeyserSubscriptionEnded.

(** What an [await] of the construction meets: the service has spawned its task,
    has failed, or the future is dropped while it waits. *)
Inductive Outcome := Spawned | Failed (e : N) | DroppedHere.
(** [atomic_slot_tracker] can also end without a slot. *)
Inductive SlotOutcome := Tracker (o : Outcome) | NoSlot.

(** Where a construction is: still going with the tasks it guards, or over, with
    its error ([None] when it was dropped) and its tasks. *)
Inductive Construction :=
  | Going (d : Dependencies)
  | Over (error : option CreateTpuSenderError) (ts : list Task).

(** Leaving the function drops [dependencies], whose guard aborts every task. *)
Definition leave (error : option CreateTpuSenderError) (d : Dependencies) : Construction :=
  Over error (abort_all (handles d)).

Definition await_service (name : string) (convert : N → CreateTpuSenderError) (o : Outcome) (c : Construction) : Construction :=
  match c with
  | Going d =>
      match o with
      | Spawned => Going (push name Running d)
      | Failed e => leave (Some (convert e)) d
      | DroppedHere => leave None d
      end
  | _ => c
  end.

Definition await_slot_tracker (o : SlotOutcome) (c : Construction) : Construction :=
  match o, c with
  | Tracker o, _ => await_service "slot-tracker" YellowstoneGrpcError o c
  | NoSlot, Going d => leave (Some GeyserSubscriptionEnded) d
  | NoSlot, _ => c
  end.

(** The four services, in order; the outcomes past the first that stops the
    construction are never looked at. *)
Record Services := { tpu_info : Outcome; managed_schedule : Outcome; stake_info : Outcome; slot_tracker : SlotOutcome }.
Definition start_services (s : Services) : Construction :=
  await_slot_tracker (slot_tracker s)
    (await_service "stake-info-service" RpcClientError (stake_info s)
       (await_service "managed-leader-schedule" LeaderScheduleError (managed_schedule s)
          (await_service "tpu-info-service" RpcClientError (tpu_info s) (Going default_dependencies)))).

(** [create_yellowstone_tpu_sender_inner] first builds and connects the clients:
    nothing is spawned yet. *)
Record Endpoints := { builder : option N; connect : Outcome; services : Services }.
Definition create_yellowstone_tpu_sender_inner (e : Endpoints) : Construction :=
  match builder e, connect e with
  | Some err, _ => Over (Some (YellowstoneGrpcBuilderError err)) []
  | None, Failed err => Over (Some (YellowstoneGrpcBuilderError err)) []
  | None, DroppedHere => Over None []
  | None, Spawned => start_services (services e)
  end.

(** ** The life of a sender *)

(** The sender's clones hold the lifecycle; [shutdown] is its token. *)
Record Sender := mk_sender { clones : nat; shutdown : bool; overseer : Overseer }.
Definition new_yellowstone_tpu_sender (d : Dependencies) : Sender := mk_sender 1 false (into_overseer d).

Inductive SenderEvent := CloneSender | DropSender | Oversee (e : Event).
(** The overseer sees the shutdown only once the token is cancelled. *)
Definition on_event (s : Sender) (e : SenderEvent) : Sender :=
  match e with
  | CloneSender => match clones s with 0 => s | S n => mk_sender (S (S n)) (shutdown s) (overseer s) end
  | DropSender =>
      match clones s with
      | 0 => s
      | S 0 => mk_sender 0 true (overseer s)
      | S n => mk_sender n (shutdown s) (overseer s)
      end
  | Oversee ShutdownCancelled =>
      if shutdown s then mk_sender (clones s) true (step (overseer s) ShutdownCancelled) else s
  | Oversee e => mk_sender (clones s) (shutdown s) (step (overseer s) e)
  end.
Definition live (d : Dependencies) (l : list SenderEvent) : Sender := foldl on_event (new_yellowstone_tpu_sender d) l.

(** ** Construction *)
Definition spawns (o : Outcome) : bool := match o with Spawned => true | _ => false end.
Definition all_spawn (s : Services) : bool :=
  spawns (tpu_info s) && spawns (managed_schedule s) && spawns (stake_info s) &&
  match slot_tracker s with Tracker o => spawns o | NoSlot => false end.
(** The number of tasks a construction leaves behind. *)
Definition started_before_stop (s : Services) : nat :=
  if spawns (tpu_info s) then
    if spawns (managed_schedule s) then
      if spawns (stake_info s) then
        match slot_tracker s with Tracker Spawned => 4 | _ => 3 end
      else 2
    else 1
  else 0.

Lemma start_services_going s d : start_services s = Going d →
  handles d = replicate 4 Running ∧ phase (into_overseer d) = Selecting.
Proof.
  destruct s as [t m st sl]. unfold start_services. cbn [tpu_info managed_schedule stake_info slot_tracker].
  destruct t, m, st, sl as [[]|]; cbn; naive_solver.
Qed.

(** A construction either ends with the four services running under the overseer, or leaves
    no task running: each one it started is aborted, and the error is that of the first
    service that failed. *)
Theorem construction_leaves_no_orphans s :
  match start_services s with
  | Going d =>
      all_spawn s = true ∧ handles d = replicate 4 Running ∧
      handle_names d = ["tpu-info-service"; "managed-leader-schedule"; "stake-info-service"; "slot-tracker"]%string ∧
      phase (into_overseer d) = Selecting
  | Over error ts =>
      all_spawn s = false ∧ ts = replicate (started_before_stop s) Aborting ∧
      (error = None ↔ match started_before_stop s with
                      | 0 => tpu_info s = DroppedHere
                      | 1 => managed_schedule s = DroppedHere
                      | 2 => stake_info s = DroppedHere
                      | _ => slot_tracker s = Tracker DroppedHere
                      end)
  end.
Proof.
  destruct s as [t m st sl]. unfold start_services, all_spawn, started_before_stop. cbn [tpu_info managed_schedule stake_info slot_tracker].
  destruct t, m, st, sl as [[]|]; cbn; naive_solver.
Qed.

(** ** Lifetime *)
Definition unprovoked (e : SenderEvent) : Prop :=
  match e with Oversee (TaskEnds _ _) | Oversee DropOverseer => False | _ => True end.

Definition alive (d : Dependencies) (s : Sender) : Prop :=
  tasks (overseer s) = handles d ∧ phase (overseer s) = Selecting ∧ (shutdown s = true ↔ clones s = 0) ∨
  (clones s = 0 ∧ shutdown s = true ∧ Forall (λ t, t = Aborting) (tasks (overseer s)) ∧
   phase (overseer s) = ShuttingDown).

Lemma alive_step d s e : Forall (λ t, t = Running) (handles d) → unprovoked e → alive d s → alive d (on_event s e).
Proof.
  intros Hd He Ha. destruct s as [n sh o]. unfold alive in *. cbn [clones shutdown overseer] in *.
  assert (∀ i, match tasks o !! i with Some (Ended _) => False | _ => True end) as Hno.
  { intros i. destruct (tasks o !! i) as [t|] eqn:Et; [|done].
    assert (t = Running ∨ t = Aborting) as [-> | ->]; [|done..].
    destruct Ha as [(Ht & _)|(_ & _ & Hf & _)].
    - left. rewrite Ht in Et. by eapply (Forall_lookup_1 (λ t, t = Running)).
    - right. by eapply (Forall_lookup_1 (λ t, t = Aborting)). }
  destruct e as [| |[i ok| |i| |]]; try done; cbn [on_event clones shutdown overseer].
  - destruct n as [|n]; [done|]. cbn. naive_solver.
  - destruct n as [|[|n]]; cbn; naive_solver.
  - destruct sh; [|done]. cbn [clones shutdown overseer]. right.
    destruct Ha as [(Ht & Hp & Hn)|(Hn & _ & Hf & Hp)]; cbn [step]; rewrite Hp; [|done].
    cbn [tasks phase]. split_and!; [naive_solver|done| |done]. rewrite Ht. apply Forall_fmap.
    eapply Forall_impl; [exact Hd|]. by intros t ->.
  - cbn [step]. specialize (Hno i). destruct (tasks o !! i) as [[| |]|]; done.
  - cbn [step]. destruct (phase o) as [| |[|j rest]| |] eqn:Ep; try done; naive_solver.
Qed.

(** C37: As long as no service of a constructed Yellowstone sender ends on its own and its
    overseer is kept, the four services run exactly while a clone of the sender exists:
    none is aborted before, and once the last clone is gone the next poll of the overseer
    aborts them all. *)
Theorem services_live_as_long_as_a_sender s d l (Hs : start_services s = Going d) (Hl : Forall unprovoked l) :
  let x := live d l in
  (clones x ≠ 0 → shutdown x = false ∧ tasks (overseer x) = replicate 4 Running) ∧
  (clones x = 0 → shutdown x = true ∧
     Forall (λ t, t = Aborting) (tasks (overseer (on_event x (Oversee ShutdownCancelled))))).
Proof.
  cbv zeta. destruct (start_services_going s d Hs) as [Hh Hp].
  assert (Forall (λ t, t = Running) (handles d)) as Hd by (rewrite Hh; by repeat constructor).
  assert (alive d (live d l)) as Ha.
  { unfold live. induction l as [|e l IH] using rev_ind.
    - left. cbn. rewrite Hh. naive_solver.
    - apply Forall_app in Hl as [Hl [He _]%Forall_cons]. rewrite foldl_app. apply alive_step; auto. }
  revert Ha. generalize (live d l). intros [n sh o]. unfold alive. cbn [clones shutdown overseer on_event].
  intros [(Ht & Hph & Hn)|(Hn & Hsh & Hf & Hph)]; (split; [intros Hne|intros H0]).
  - split; [|by rewrite Ht]. destruct sh; [|done]. naive_solver.
  - destruct Hn as [_ Hn]. specialize (Hn H0). subst sh. split; [done|]. cbn [step overseer]. rewrite Hph. cbn [tasks].
    rewrite Ht. apply Forall_fmap. eapply Forall_impl; [exact Hd|]. by intros t ->.
  - done.
  - split; [done|]. subst sh. cbn [step overseer]. by rewrite Hph.
Qed.

Definition demo_services : Services := {|
  tpu_info := Spawned; managed_schedule := Spawned; stake_info := Spawned; slot_tracker := Tracker Spawned |}.
Definition demo_life : list SenderEvent := [CloneSender; DropSender; DropSender].
Lemma services_live_as_long_as_a_sender_witness : ∃ d, start_services demo_services = Going d ∧
  shutdown (live d demo_life) = true ∧
  Forall (λ t, t = Aborting) (tasks (overseer (on_event (live d demo_life) (Oversee ShutdownCancelled)))).
Proof.
  destruct (start_services demo_services) as [d|err ts] eqn:E; [|discriminate E]. exists d. split; [reflexivity|].
  apply (services_live_as_long_as_a_sender demo_services d demo_life E); [repeat constructor|].
  injection E as <-. reflexivity.
Defined.
End Construct.
