(* ===== verification/Identity.v ===== *)
(** The identity of the proxy: the admin RPC ([rpc_admin] of [rpc.rs]), the group
    that hands a new identity to its members ([identity.rs]), and the members, the
    QUIC gateway ([quic_client/jet_intg.rs], with the identity handling of
    [quic_client/core.rs]) and the listener of [jet_gateway.rs]; all of
    [apps/jet/src]. A key pair is known by its public key. *)
From S2P Require Import Prelude Types.

Module Identity.

(** ** The data *)

(** [tokio::sync::Barrier]: how many tasks it waits for, and how many came. *)
Record Barrier := mk_barrier { parties : nat; arrived : nat }.
Definition opened (bs : gmap nat Barrier) (b : nat) : bool :=
  match bs !! b with Some x => parties x <=? arrived x | None => false end.
Definition arrive (x : Barrier) : Barrier := mk_barrier (parties x) (S (arrived x)).

(** The command that a member gets: [MultiStepIdentitySynchronizationCommand], or
    [IdentitySyncCommand]. *)
Record Command := mk_command { new_identity : Pubkey; barrier : nat }.
#[export] Instance Command_eq_dec : EqDecision Command.
Proof. solve_decision. Defined.

(** The members: the gateway behind a bounded channel, the listener behind an
    unbounded one, with the identity it may connect with. *)
Inductive Kind := QuicGateway (capacity : nat) | GatewayListener (expected_identity : option Pubkey).
(** A member's channel, its identity, the barrier it waits at, whether its receiver
    is gone, and the identity under which the listener's server runs. *)
Record Member := mk_member {
  kind : Kind; commands : list Command; current_identity : Pubkey; pausing : option nat; stopped : bool; serving : option Pubkey
}.
#[export] Instance Member_settable : Settable Member := λ r,
  mk_member (kind r) (commands r) (current_identity r) (pausing r) (stopped r) (serving r).

(** [JetIdentitySyncGroup]; its members by their index. *)
Record Group := mk_group { identity : Pubkey; members : list nat; watcher : Pubkey }.

(** An update in progress: [sync_identity] between its await points. *)
Record Sync := mk_sync { request : nat; next_identity : Pubkey; sync_barrier : nat; taken : list nat; todo : list nat; waiting_at_barrier : bool }.
Inductive LockedOp := Get | Update (identity : Pubkey).
Inductive Reply := Identity (k : Pubkey) | LatestSlot (slot : N) | Updated | InvalidParams | Panicked.

(** The admin server over the group: who waits for the mutex, in order, and who
    holds it. *)
Record Server := mk_server {
  group : Group; table : list Member; barriers : gmap nat Barrier; waiting : list (nat * LockedOp);
  holder : option Sync; replies : list (nat * Reply); next_barrier : nat
}.
#[export] Instance Server_settable : Settable Server := λ r,
  mk_server (group r) (table r) (barriers r) (waiting r) (holder r) (replies r) (next_barrier r).
Definition reply (id : nat) (r : Reply) (s : Server) : Server := s <| replies ::= λ l, l ++ [(id, r)] |>.

(** ** The admin RPC *)
Section Admin.
Context (allowed_identity : option Pubkey).

(** What a client asks; the keypair read from its file, or from its bytes, when
    that succeeds; the fresh keypair of a reset. *)
Inductive Request :=
  | GetLatestSlot (latest_seen_slot : N) | GetIdentity
  | SetIdentity (keypair_file : option Pubkey) (require_tower : bool)
  | SetIdentityFromBytes (identity_keypair : option Pubkey) (require_tower : bool)
  | ResetIdentity (random_identity : Pubkey).

Definition lock (id : nat) (op : LockedOp) (s : Server) : Server := s <| waiting ::= λ l, l ++ [(id, op)] |>.
Definition set_keypair (id : nat) (k : Pubkey) (s : Server) : Server :=
  match allowed_identity with
  | Some allow_ident => if decide (allow_ident ≠ k) then reply id InvalidParams s else lock id (Update k) s
  | None => lock id (Update k) s
  end.
Definition set_identity (id : nat) (keypair : option Pubkey) (require_tower : bool) (s : Server) : Server :=
  if require_tower then reply id InvalidParams s
  else match keypair with None => reply id InvalidParams s | Some k => set_keypair id k s end.
Definition handle_request (id : nat) (r : Request) (s : Server) : Server :=
  match r with
  | GetLatestSlot slot => reply id (LatestSlot slot) s
  | GetIdentity => lock id Get s
  | SetIdentity keypair tower => set_identity id keypair tower s
  | SetIdentityFromBytes keypair tower => set_identity id keypair tower s
  | ResetIdentity k => lock id (Update k) s
  end.

(** ** The members *)

(** What [pause_for_identity_update] does with its channel. *)
Inductive Pause := Sent (m : Member) | Full | Disconnected.
Definition pause_for_identity_update (c : Command) (m : Member) : Pause :=
  if stopped m then Disconnected
  else match kind m with
       | QuicGateway capacity =>
           if decide (length (commands m) < capacity) then Sent (m <| commands ::= λ l, l ++ [c] |>) else Full
       | GatewayListener _ => Sent (m <| commands ::= λ l, l ++ [c] |>)
       end.

(** The top of the listener's loop: the server runs under the current identity,
    unless another one is expected. *)
Definition start_serving (m : Member) : option Pubkey :=
  match kind m with
  | GatewayListener (Some expected_identity) =>
      if decide (current_identity m ≠ expected_identity) then None else Some (current_identity m)
  | GatewayListener None => Some (current_identity m)
  | QuicGateway _ => None
  end.
Definition spawn_member (k : Kind) (initial_identity : Pubkey) : Member :=
  let m := mk_member k [] initial_identity None false None in m <| serving := start_serving m |>.

(** A member takes its next command, adopts the identity and comes to the barrier;
    once this is open it goes on. *)
Definition member_step (i : nat) (s : Server) : Server :=
  match table s !! i with
  | Some m =>
      if stopped m then s
      else match pausing m with
           | Some b => if opened (barriers s) b
                       then s <| table ::= <[i := m <| pausing := None |> <| serving := start_serving m |>]> |> else s
           | None =>
               match commands m with
               | [] => s
               | c :: l =>
                   let m := m <| commands := l |> <| current_identity := new_identity c |> <| pausing := Some (barrier c) |>
                              <| serving := None |> in
                   s <| table ::= <[i := m]> |> <| barriers ::= alter arrive (barrier c) |>
               end
           end
  | None => s
  end.
(** A member ends where it can: outside the barrier. *)
Definition stop_member (i : nat) (s : Server) : Server :=
  match table s !! i with
  | Some m => match pausing m with
              | None => s <| table ::= <[i := m <| commands := [] |> <| stopped := true |> <| serving := None |>]> |>
              | Some _ => s
              end
  | None => s
  end.

(** ** The mutex and [sync_identity] *)
Definition sync_identity (id : nat) (k : Pubkey) (s : Server) : Server :=
  let b := next_barrier s in
  s <| barriers ::= <[b := mk_barrier (length (members (group s)) + 1) 0]> |> <| next_barrier ::= S |>
    <| holder := Some (mk_sync id k b (members (group s)) (members (group s)) false) |>
    <| group := mk_group (identity (group s)) [] (watcher (group s)) |>.
(** One poll of the request that has the mutex, or of the next one for it. *)
Definition caller_step (s : Server) : Server :=
  match holder s with
  | None =>
      match waiting s with
      | [] => s
      | (id, Get) :: l => reply id (Identity (identity (group s))) (s <| waiting := l |>)
      | (id, Update k) :: l => sync_identity id k (s <| waiting := l |>)
      end
  | Some y =>
      match todo y with
      | i :: l =>
          match table s !! i with
          | Some m =>
              match pause_for_identity_update (mk_command (next_identity y) (sync_barrier y)) m with
              | Sent m => s <| table ::= <[i := m]> |>
                            <| holder := Some (mk_sync (request y) (next_identity y) (sync_barrier y) (taken y) l false) |>
              | Full => s
              | Disconnected => reply (request y) Panicked (s <| holder := None |>)
              end
          | None => s
          end
      | [] =>
          if waiting_at_barrier y then
            if opened (barriers s) (sync_barrier y) then
              reply (request y) Updated
                (s <| group := mk_group (next_identity y) (taken y) (next_identity y) |> <| holder := None |>)
            else s
          else s <| barriers ::= alter arrive (sync_barrier y) |>
                 <| holder := Some (mk_sync (request y) (next_identity y) (sync_barrier y) (taken y) [] true) |>
      end
  end.

(** The server drops the future of a request: it leaves the queue, or releases the
    mutex. *)
Definition drop_request (id : nat) (s : Server) : Server :=
  let s := s <| waiting ::= filter (λ p, p.1 ≠ id) |> in
  match holder s with
  | Some y => if decide (request y = id) then s <| holder := None |> else s
  | None => s
  end.

Inductive Event := Ask (id : nat) (r : Request) | Caller | Poll (i : nat) | Stop (i : nat) | DropRequest (id : nat).
Definition step (s : Server) (e : Event) : Server :=
  match e with
  | Ask id r => handle_request id r s
  | Caller => caller_step s
  | Poll i => member_step i s
  | Stop i => stop_member i s
  | DropRequest id => drop_request id s
  end.
Definition start (kinds : list Kind) (initial_identity : Pubkey) : Server :=
  mk_server (mk_group initial_identity (seq 0 (length kinds)) initial_identity) ((λ k, spawn_member k initial_identity) <$> kinds)
    ∅ [] None [] 0.
Definition run (kinds : list Kind) (initial_identity : Pubkey) (l : list Event) : Server :=
  foldl step (start kinds initial_identity) l.
End Admin.
(** ** Agreement *)

(** Nobody stops and no request is dropped. *)
Definition faultless (e : Event) : Prop := match e with Stop _ | DropRequest _ => False | _ => True end.

(** Not waiting, or waiting at a barrier that is open. *)
Definition at_rest (bs : gmap nat Barrier) (m : Member) : Prop := ∀ b, pausing m = Some b → opened bs b = true.
(** A member that no update has reached. *)
Definition settled (bs : gmap nat Barrier) (k : Pubkey) (m : Member) : Prop :=
  stopped m = false ∧ commands m = [] ∧ current_identity m = k ∧ at_rest bs m.
(** A member that the update [y] has reached: its command is still in the channel,
    or it has come to the barrier. *)
Definition informed (bs : gmap nat Barrier) (old : Pubkey) (y : Sync) (m : Member) : Prop :=
  stopped m = false ∧
  ((commands m = [mk_command (next_identity y) (sync_barrier y)] ∧ current_identity m = old ∧ at_rest bs m) ∨
   (commands m = [] ∧ current_identity m = next_identity y ∧
    (pausing m = Some (sync_barrier y) ∨ pausing m = None ∧ opened bs (sync_barrier y) = true))).
Definition adopted (l : list Member) : nat := length (filter (λ m, commands m = []) l).
Definition reached (s : Server) (y : Sync) : nat := length (table s) - length (todo y).

Record in_update (s : Server) (y : Sync) : Prop := {
  up_taken : taken y = seq 0 (length (table s));
  up_todo : todo y = seq (reached s y) (length (todo y)) ∧ length (todo y) ≤ length (table s);
  up_flag : waiting_at_barrier y = true → todo y = [];
  up_barrier : barriers s !! sync_barrier y =
    Some (mk_barrier (length (table s) + 1) (adopted (take (reached s y) (table s)) + (if waiting_at_barrier y then 1 else 0)));
  up_new : ∀ i m, table s !! i = Some m → i < reached s y → informed (barriers s) (identity (group s)) y m;
  up_old : ∀ i m, table s !! i = Some m → reached s y ≤ i → settled (barriers s) (identity (group s)) m
}.
Record agreed (s : Server) : Prop := {
  ag_watcher : watcher (group s) = identity (group s);
  ag_fresh : ∀ b, is_Some (barriers s !! b) → b < next_barrier s;
  ag_idle : holder s = None → members (group s) = seq 0 (length (table s)) ∧
              ∀ i m, table s !! i = Some m → settled (barriers s) (identity (group s)) m;
  ag_update : ∀ y, holder s = Some y → members (group s) = [] ∧ in_update s y
}.

Lemma opened_arrive bs b b' : opened bs b' = true → opened (alter arrive b bs) b' = true.
Proof.
  unfold opened. rewrite lookup_alter. case_decide as E; [subst b'|done].
  destruct (bs !! b); [|done]. cbn. rewrite !Nat.leb_le. lia.
Qed.
Lemma opened_insert bs b b' x : bs !! b = None → opened bs b' = true → opened (<[b := x]> bs) b' = true.
Proof. intros Hb. unfold opened. rewrite lookup_insert. case_decide as E; [subst b'; by rewrite Hb|done]. Qed.

Section Mono.
Context (bs bs' : gmap nat Barrier) (Hmono : ∀ b, opened bs b = true → opened bs' b = true).
Lemma settled_mono k m : settled bs k m → settled bs' k m.
Proof using Hmono. intros (? & ? & ? & H). split_and!; [done..|]. intros b Hb. by apply Hmono, H. Qed.
Lemma informed_mono old y m : informed bs old y m → informed bs' old y m.
Proof using Hmono.
  intros (? & [(? & ? & H)|(? & ? & H)]); (split; [done|]); [left|right]; split_and!; try done.
  - intros b Hb. by apply Hmono, H.
  - destruct H as [?|[? ?]]; [by left|right]. by auto.
Qed.
End Mono.

Lemma adopted_insert l i m m' : l !! i = Some m →
  adopted (<[i := m']> l) + (if decide (commands m = []) then 1 else 0) = adopted l + (if decide (commands m' = []) then 1 else 0).
Proof.
  intros Hi. rewrite insert_take_drop by (by eapply lookup_lt_Some). rewrite <-(take_drop_middle l i m Hi) at 3.
  unfold adopted. rewrite !filter_app, !filter_cons, !length_app. do 2 case_decide; cbn; lia.
Qed.
Lemma adopted_le l : adopted l ≤ length l.
Proof. apply length_filter. Qed.
Lemma adopted_full l i m : adopted l = length l → l !! i = Some m → commands m = [].
Proof.
  intros Hl Hi. destruct (decide (commands m = [])) as [|Hm]; [done|]. exfalso.
  assert (adopted l < length l) as Hlt; [|lia]. unfold adopted. eapply length_filter_lt; [by eapply list_elem_of_lookup_2|done].
Qed.

Lemma agreed_frame s s' : group s' = group s → table s' = table s → barriers s' = barriers s → holder s' = holder s →
  next_barrier s' = next_barrier s → agreed s → agreed s'.
Proof.
  intros Hg Ht Hb Hh Hn [H1 H2 H3 H4]. split; rewrite ?Hg, ?Ht, ?Hb, ?Hh, ?Hn; try done.
  intros y Hy. destruct (H4 y Hy) as [? [U1 U2 U3 U4 U5 U6]]. split; [done|].
  split; unfold reached in *; rewrite ?Hg, ?Ht, ?Hb; done.
Qed.

(** Once the barrier of an update is open, everybody has come to it. *)
Lemma opened_everyone s y : in_update s y → opened (barriers s) (sync_barrier y) = true →
  todo y = [] ∧ waiting_at_barrier y = true ∧ ∀ i m, table s !! i = Some m → commands m = [] ∧ current_identity m = next_identity y.
Proof.
  intros [U1 [U2 U2'] U3 U4 U5 U6] Ho. unfold opened in Ho. rewrite U4 in Ho. cbn in Ho. apply Nat.leb_le in Ho.
  pose proof (adopted_le (take (reached s y) (table s))) as Ha. rewrite length_take in Ha.
  destruct (waiting_at_barrier y) eqn:Ew; [|unfold reached in *; lia]. pose proof (U3 eq_refl) as Et.
  split_and!; [done..|]. intros i m Hi. assert (reached s y = length (table s)) as Er by (unfold reached; rewrite Et; cbn; lia).
  rewrite Er in *. rewrite take_ge in * by lia.
  pose proof (adopted_full (table s) i m ltac:(lia) Hi) as Hc. split; [done|].
  destruct (U5 i m Hi) as (_ & [(Hc' & _)|(_ & Hk & _)]); [by eapply lookup_lt_Some|congruence|done].
Qed.

Lemma sync_agreed id k s : agreed s → holder s = None → agreed (sync_identity id k s).
Proof.
  intros [H1 H2 H3 H4] Hh. destruct (H3 Hh) as [Hm Hs]. assert (barriers s !! next_barrier s = None) as Hf.
  { apply eq_None_not_Some. intros [x Hx]. specialize (H2 (next_barrier s) ltac:(eauto)). lia. }
  unfold sync_identity. split; upd_simpl; cbn [identity members watcher]; [done| |done|].
  - intros b [x [[<- _]|[_ Hx]]%lookup_insert_Some]; [lia|]. specialize (H2 b ltac:(eauto)). lia.
  - intros y [= <-]. split; [done|]. rewrite Hm, length_seq.
    split; unfold reached; upd_simpl; cbn [taken todo sync_barrier waiting_at_barrier identity]; rewrite ?length_seq, ?Nat.sub_diag, ?take_0; try done.
    + by rewrite lookup_insert_eq.
    + intros i m _ Hlt. lia.
    + intros i m Hi _. eapply settled_mono; [|by apply (Hs i)]. intros b. by apply opened_insert.
Qed.

Lemma seq_cons_inv a n i l : i :: l = seq a n → i = a ∧ l = seq (S a) (length l) ∧ n = S (length l).
Proof. destruct n as [|n]; [done|]. cbn. intros [= -> ->]. by rewrite length_seq. Qed.

Lemma notify_agreed s y i l m c : agreed s → holder s = Some y → todo y = i :: l → table s !! i = Some m →
  c = mk_command (next_identity y) (sync_barrier y) →
  agreed (s <| table ::= <[i := m <| commands ::= λ l, l ++ [c] |>]> |>
            <| holder := Some (mk_sync (request y) (next_identity y) (sync_barrier y) (taken y) l false) |>).
Proof.
  intros [H1 H2 H3 H4] Hy Ht Hi ->. destruct (H4 y Hy) as [Hm [U1 [U2 U2'] U3 U4 U5 U6]].
  rewrite Ht in U2. apply seq_cons_inv in U2 as (Ei & El & _). rewrite Ht in U2'. cbn in U2'.
  assert (waiting_at_barrier y = false) as Hw.
  { destruct (waiting_at_barrier y); [|done]. rewrite U3 in Ht by done. done. }
  assert (reached s y = length (table s) - S (length l)) as Er by (unfold reached; by rewrite Ht).
  rewrite Hw in U4.
  set (m' := m <| commands ::= _ |>). pose proof (U6 i m Hi ltac:(lia)) as (S1 & S2 & S3 & S4).
  split; upd_simpl; try done. intros z [= <-]. split; [done|].
  split; unfold reached; upd_simpl; cbn [taken todo sync_barrier waiting_at_barrier next_identity]; rewrite ?length_insert; try done.
  - split; [|lia]. rewrite El at 1. f_equal. lia.
  - rewrite U4, Er. do 2 f_equal. replace (length (table s) - length l) with (S i) by lia.
    replace (length (table s) - S (length l)) with i by lia.
    assert (<[i := m']> (table s) !! i = Some m') as Hi' by (apply list_lookup_insert_eq; by eapply lookup_lt_Some).
    rewrite (take_S_r _ _ _ Hi'), take_insert_ge by lia. unfold adopted. rewrite filter_app, length_app, filter_cons, decide_False; [cbn; lia|].
    subst m'. upd_simpl. by rewrite S2.
  - intros j n Hj Hlt. destruct (decide (i = j)) as [<-|Hne].
    + rewrite list_lookup_insert_eq in Hj by (by eapply lookup_lt_Some). injection Hj as <-. subst m'.
      split; upd_simpl; [done|]. left. upd_simpl. rewrite S2. split_and!; [done..|]. intros b. upd_simpl. apply S4.
    + rewrite list_lookup_insert_ne in Hj by done. apply (U5 j n Hj). lia.
  - intros j n Hj Hge. rewrite list_lookup_insert_ne in Hj by lia. apply (U6 j n Hj). lia.
Qed.

Lemma wait_agreed s y : agreed s → holder s = Some y → todo y = [] → waiting_at_barrier y = false →
  agreed (s <| barriers ::= alter arrive (sync_barrier y) |>
            <| holder := Some (mk_sync (request y) (next_identity y) (sync_barrier y) (taken y) [] true) |>).
Proof.
  intros [H1 H2 H3 H4] Hy Ht Hw. destruct (H4 y Hy) as [Hm [U1 [U2 U2'] U3 U4 U5 U6]].
  split; upd_simpl; [done| |done|].
  - intros b Hb. apply H2. by rewrite lookup_alter_is_Some in Hb.
  - intros z [= <-]. split; [done|].
    split; unfold reached in *; upd_simpl; cbn [taken todo sync_barrier waiting_at_barrier next_identity]; rewrite ?Ht in *; try done.
    + rewrite lookup_alter_eq, U4, Hw. cbn. unfold arrive. cbn. do 2 f_equal. lia.
    + intros i m Hi Hlt. eapply informed_mono; [|by apply (U5 i m)]. intros b. apply opened_arrive.
    + intros i m Hi Hge. eapply settled_mono; [|by apply (U6 i m)]. intros b. apply opened_arrive.
Qed.

Lemma finish_agreed s y : agreed s → holder s = Some y → opened (barriers s) (sync_barrier y) = true →
  agreed (s <| group := mk_group (next_identity y) (taken y) (next_identity y) |> <| holder := None |>).
Proof.
  intros [H1 H2 H3 H4] Hy Ho. destruct (H4 y Hy) as [Hm U]. pose proof (opened_everyone s y U Ho) as (Ht & _ & He).
  destruct U as [U1 [U2 U2'] U3 U4 U5 U6]. split; upd_simpl; cbn [identity members watcher]; try done.
  intros _. split; [done|]. intros i m Hi. destruct (He i m Hi) as [Hc Hk].
  destruct (U5 i m Hi) as (Hs & [(Hc' & _)|(_ & _ & Hp)]); [|congruence|].
  { unfold reached. rewrite Ht. apply lookup_lt_Some in Hi. cbn. lia. }
  split_and!; [done..|]. intros b Hb. destruct Hp as [Hp|[Hp _]]; congruence.
Qed.

Lemma caller_agreed s : agreed s → agreed (caller_step s).
Proof.
  intros H. unfold caller_step. destruct (holder s) as [y|] eqn:Eh.
  - destruct (todo y) as [|i l] eqn:Et.
    + destruct (waiting_at_barrier y) eqn:Ew.
      * destruct (opened _ _) eqn:Eo; [|done]. eapply agreed_frame; [..|by eapply finish_agreed]; done.
      * by apply wait_agreed.
    + destruct (table s !! i) as [m|] eqn:Ei; [|done]. destruct (ag_update s H y Eh) as [_ U].
      assert (stopped m = false) as Hs.
      { destruct (decide (i < reached s y)); [by destruct (up_new s y U i m Ei)|destruct (up_old s y U i m Ei); [lia|done]]. }
      unfold pause_for_identity_update. rewrite Hs.
      destruct (kind m) as [cap|e]; [case_decide; [|done]|]; by eapply notify_agreed.
  - destruct (waiting s) as [|[id [|k]] l]; [done| |].
    + by eapply agreed_frame; [..|exact H].
    + apply sync_agreed; [by eapply agreed_frame; [..|exact H]|done].
Qed.

Lemma resume_agreed s i m b : agreed s → table s !! i = Some m → pausing m = Some b → opened (barriers s) b = true →
  agreed (s <| table ::= <[i := m <| pausing := None |> <| serving := start_serving m |>]> |>).
Proof.
  intros [H1 H2 H3 H4] Hi Hp Ho. set (m' := m <| pausing := None |> <| serving := start_serving m |>).
  assert (∀ k, settled (barriers s) k m → settled (barriers s) k m') as Hs.
  { intros k (? & ? & ? & ?). subst m'. unfold settled, at_rest. by upd_simpl. }
  split; upd_simpl; rewrite ?length_insert; try done.
  - intros Hh. destruct (H3 Hh) as [? Hall]. split; [done|]. intros j n [(-> & <- & ?)|(? & Hj)]%list_lookup_insert_Some; eauto.
  - intros y Hy. destruct (H4 y Hy) as [? [U1 U2 U3 U4 U5 U6]]. split; [done|].
    split; unfold reached in *; upd_simpl; rewrite ?length_insert; try done.
    + rewrite U4. do 3 f_equal. rewrite take_insert. case_decide as Hlt; [|done].
      pose proof (adopted_insert (take (length (table s) - length (todo y)) (table s)) i m m' ltac:(by rewrite lookup_take_lt)) as Ha.
      subst m'. upd_simpl_all. lia.
    + intros j n [(-> & <- & ?)|(? & Hj)]%list_lookup_insert_Some Hlt; [|by eauto].
      destruct (U5 j m Hi Hlt) as (? & [(? & ? & ?)|(? & ? & [?|[? ?]])]); subst m'; split; upd_simpl; try done.
      * left. upd_simpl. split_and!; [done..|]. intros b'. by upd_simpl.
      * right. upd_simpl. split_and!; [done..|]. right. split; [done|]. congruence.
      * congruence.
    + intros j n [(-> & <- & ?)|(? & Hj)]%list_lookup_insert_Some Hlt; eauto.
Qed.

Lemma consume_agreed s i m c l : agreed s → table s !! i = Some m → pausing m = None → commands m = c :: l →
  agreed (s <| table ::= <[i := m <| commands := l |> <| current_identity := new_identity c |> <| pausing := Some (barrier c) |>
                                 <| serving := None |>]> |> <| barriers ::= alter arrive (barrier c) |>).
Proof.
  intros [H1 H2 H3 H4] Hi Hp Hc. set (m' := m <| commands := l |> <| current_identity := _ |> <| pausing := _ |> <| serving := _ |>).
  destruct (holder s) as [y|] eqn:Hh; [|destruct (H3 eq_refl) as [_ Hall]; destruct (Hall i m Hi) as (_ & ? & _); congruence].
  destruct (H4 y eq_refl) as [Hm [U1 U2 U3 U4 U5 U6]].
  assert (i < reached s y) as Hlt by (apply not_le; intros Hge; destruct (U6 i m Hi Hge) as (_ & ? & _); congruence).
  destruct (U5 i m Hi Hlt) as (Hs & [(Hc' & Hk & Hr)|(? & _)]); [|congruence]. rewrite Hc in Hc'. injection Hc' as -> ->.
  assert (commands m' = [] ∧ pausing m' = Some (sync_barrier y) ∧ current_identity m' = next_identity y ∧ stopped m' = false) as (M1 & M2 & M3 & M4)
    by (subst m'; by upd_simpl).
  assert (∀ b, opened (barriers s) b = true → opened (alter arrive (sync_barrier y) (barriers s)) b = true) as Hmono by (intros; by apply opened_arrive).
  cbn [barrier]. split; upd_simpl; rewrite ?length_insert; try done.
  - intros b Hb. apply H2. by rewrite lookup_alter_is_Some in Hb.
  - congruence.
  - intros z Hz. rewrite Hh in Hz. injection Hz as <-. split; [done|]. split; unfold reached in *; upd_simpl; rewrite ?length_insert; try done.
    + rewrite lookup_alter_eq, U4. cbn. unfold arrive. cbn. do 2 f_equal. rewrite take_insert_lt by done.
      pose proof (adopted_insert (take (length (table s) - length (todo y)) (table s)) i m m' ltac:(by rewrite lookup_take_lt)) as Ha.
      rewrite decide_False, decide_True in Ha by (done || by rewrite Hc). lia.
    + intros j n [(-> & <- & ?)|(? & Hj)]%list_lookup_insert_Some Hj'.
      * split; [done|]. right. by auto.
      * eapply informed_mono; [exact Hmono|]. by apply (U5 j n).
    + intros j n [(-> & <- & ?)|(? & Hj)]%list_lookup_insert_Some Hj'; [lia|].
      eapply settled_mono; [exact Hmono|]. by apply (U6 j n).
Qed.

Lemma member_agreed s i : agreed s → agreed (member_step i s).
Proof.
  intros H. unfold member_step. destruct (table s !! i) as [m|] eqn:Ei; [|done]. destruct (stopped m); [done|].
  destruct (pausing m) as [b|] eqn:Ep; [destruct (opened _ _) eqn:Eo; [by eapply resume_agreed|done]|].
  destruct (commands m) as [|c l] eqn:Ec; [done|by eapply consume_agreed].
Qed.

Lemma request_frame allowed id r s :
  let s' := handle_request allowed id r s in
  group s' = group s ∧ table s' = table s ∧ barriers s' = barriers s ∧ holder s' = holder s ∧ next_barrier s' = next_barrier s.
Proof.
  assert (∀ k, let s' := set_keypair allowed id k s in
    group s' = group s ∧ table s' = table s ∧ barriers s' = barriers s ∧ holder s' = holder s ∧ next_barrier s' = next_barrier s) as Hk.
  { intros k. unfold set_keypair, lock, reply. destruct allowed; [case_decide|]; by upd_simpl. }
  assert (∀ k tower, let s' := set_identity allowed id k tower s in
    group s' = group s ∧ table s' = table s ∧ barriers s' = barriers s ∧ holder s' = holder s ∧ next_barrier s' = next_barrier s) as Hset.
  { intros [k|] [|]; unfold set_identity; try apply Hk; unfold reply; by upd_simpl. }
  destruct r; cbn [handle_request]; try apply Hset; unfold lock, reply; by upd_simpl.
Qed.

Lemma start_agreed kinds k : agreed (start kinds k).
Proof.
  split; cbn; [done| |intros _|done].
  - intros b [x Hx]. by rewrite lookup_empty in Hx.
  - split; [by rewrite length_fmap|]. intros i m Hi. rewrite list_lookup_fmap in Hi. destruct (kinds !! i) as [kd|]; [|done].
    injection Hi as <-. unfold spawn_member, settled, at_rest. upd_simpl. done.
Qed.

Lemma run_agreed allowed kinds k l : Forall faultless l → agreed (run allowed kinds k l).
Proof.
  unfold run. induction l as [|e l IH] using rev_ind; intros Hl; [apply start_agreed|].
  apply Forall_app in Hl as [Hl He]. rewrite Forall_singleton in He. rewrite foldl_app. cbn [foldl]. specialize (IH Hl).
  destruct e as [id r| |i|i|id]; [|by apply caller_agreed|by apply member_agreed|destruct He|destruct He].
  cbn [step]. destruct (request_frame allowed id r (foldl (step allowed) (start kinds k) l)) as (? & ? & ? & ? & ?).
  eapply agreed_frame; [..|exact IH]; done.
Qed.

(** While an update is under way the members that run are all still under the old
    identity, or all under the new one. *)
Lemma running_members s y : in_update s y →
  (∀ i m, table s !! i = Some m → pausing m = None → current_identity m = identity (group s)) ∨
  (∀ i m, table s !! i = Some m → commands m = [] ∧ current_identity m = next_identity y).
Proof.
  intros U. destruct (opened (barriers s) (sync_barrier y)) eqn:Eo; [right; by apply opened_everyone|left].
  intros i m Hi Hp. destruct (decide (i < reached s y)) as [Hlt|Hge].
  - destruct (up_new s y U i m Hi Hlt) as (_ & [(_ & ? & _)|(_ & _ & [?|[_ ?]])]); [done|congruence..].
  - by destruct (up_old s y U i m Hi ltac:(lia)) as (_ & _ & ? & _).
Qed.

(** C34: In every history of requests, polls of the mutex holder and polls of the members,
    as long as none stops and no request is dropped, two members that run never run under
    different identities; between updates all members have the identity of the group and of
    its watcher, during one each has the old or the new. *)
Theorem members_never_disagree allowed kinds k l (Hl : Forall faultless l) :
  let s := run allowed kinds k l in
  (∀ i j m n, table s !! i = Some m → table s !! j = Some n → pausing m = None → pausing n = None →
     current_identity m = current_identity n) ∧
  watcher (group s) = identity (group s) ∧
  (holder s = None → ∀ i m, table s !! i = Some m → commands m = [] ∧ current_identity m = identity (group s)) ∧
  (∀ y, holder s = Some y → ∀ i m, table s !! i = Some m →
     current_identity m = identity (group s) ∨ current_identity m = next_identity y).
Proof.
  intros s. pose proof (run_agreed allowed kinds k l Hl) as H. fold s in H. pose proof H as [H1 _ H3 H4].
  assert (holder s = None → ∀ i m, table s !! i = Some m → commands m = [] ∧ current_identity m = identity (group s)) as Hidle.
  { intros Hh i m Hi. destruct (H3 Hh) as [_ Hall]. by destruct (Hall i m Hi) as (_ & ? & ? & _). }
  split_and!; [|done|done|].
  - intros i j m n Hi Hj Hm Hn. destruct (holder s) as [y|] eqn:Hh.
    + destruct (H4 y eq_refl) as [_ U]. destruct (running_members s y U) as [Hr|Hr]; [|by destruct (Hr i m Hi) as [_ ->], (Hr j n Hj) as [_ ->]].
      by rewrite (Hr i m Hi Hm), (Hr j n Hj Hn).
    + destruct (Hidle eq_refl i m Hi) as [_ ->]. by destruct (Hidle eq_refl j n Hj) as [_ ->].
  - intros y Hh i m Hi. destruct (H4 y Hh) as [_ U]. destruct (decide (i < reached s y)) as [Hlt|Hge].
    + destruct (up_new s y U i m Hi Hlt) as (_ & [(_ & ? & _)|(_ & ? & _)]); auto.
    + destruct (up_old s y U i m Hi ltac:(lia)) as (_ & _ & ? & _). auto.
Qed.

(** ** Every request is answered *)

(** The identity that a request asks for, when it is accepted. *)
Definition allowed_keypair (allowed : option Pubkey) (keypair : option Pubkey) (tower : bool) : option Pubkey :=
  k ← keypair; if tower || match allowed with Some a => bool_decide (a ≠ k) | None => false end then None else Some k.
Definition accepted (allowed : option Pubkey) (r : Request) : option Pubkey :=
  match r with
  | GetLatestSlot _ | GetIdentity => None
  | SetIdentity keypair tower | SetIdentityFromBytes keypair tower => allowed_keypair allowed keypair tower
  | ResetIdentity k => Some k
  end.
Definition last_accepted (allowed : option Pubkey) (l : list Event) : option Pubkey :=
  last (omap (λ e, match e with Ask _ r => accepted allowed r | _ => None end) l).
(** The identity that the server is heading for. *)
Definition update_of (p : nat * LockedOp) : option Pubkey := match p.2 with Get => None | Update k => Some k end.
Definition target (s : Server) : Pubkey :=
  default (match holder s with Some y => next_identity y | None => identity (group s) end) (last (omap update_of (waiting s))).
(** The requests that are answered, or in the queue, or being served. *)
Definition known (s : Server) : list nat := (replies s).*1 ++ (waiting s).*1 ++ match holder s with Some y => [request y] | None => [] end.

(** What is left to do. *)
Definition op_cost (n : nat) (p : nat * LockedOp) : nat := match p.2 with Get => 1 | Update _ => 4 * n + 4 end.
Definition member_cost (m : Member) : nat := 2 * length (commands m) + (if pausing m is Some _ then 1 else 0).
Definition cost (s : Server) : nat :=
  sum_list_with (op_cost (length (table s))) (waiting s) + sum_list_with member_cost (table s) +
  match holder s with Some y => 4 * length (todo y) + (if waiting_at_barrier y then 1 else 2) | None => 0 end.

Definition has_room (k : Kind) : Prop := match k with QuicGateway capacity => 0 < capacity | GatewayListener _ => True end.

Lemma sum_insert (f : Member → nat) l i m m' : l !! i = Some m →
  sum_list_with f (<[i := m']> l) + f m = sum_list_with f l + f m'.
Proof.
  intros Hi. rewrite insert_take_drop by (by eapply lookup_lt_Some). rewrite <-(take_drop_middle l i m Hi) at 3.
  rewrite !sum_list_with_app. cbn. lia.
Qed.

Lemma last_omap_snoc {A B} (f : A → option B) l x d : default d (last (omap f (l ++ [x]))) = default (default d (last (omap f l))) (f x).
Proof. rewrite omap_app. cbn. destruct (f x); cbn; [by rewrite last_snoc|by rewrite app_nil_r]. Qed.

Lemma target_request allowed id r s : target (handle_request allowed id r s) = default (target s) (accepted allowed r).
Proof.
  unfold target. destruct (request_frame allowed id r s) as (-> & _ & _ & -> & _).
  assert (∀ k, waiting (set_keypair allowed id k s) = waiting s ++ match allowed_keypair allowed (Some k) false with Some k => [(id, Update k)] | None => [] end) as Hk.
  { intros k. unfold set_keypair, allowed_keypair, lock, reply. cbn. destruct allowed as [a|]; [|by upd_simpl].
    destruct (decide (a = k)) as [->|Hne].
    - rewrite decide_False, bool_decide_eq_false_2 by (intros E; by apply E). by upd_simpl.
    - rewrite decide_True, bool_decide_eq_true_2 by done. upd_simpl. by rewrite app_nil_r. }
  assert (∀ kp tower, waiting (set_identity allowed id kp tower s) =
    waiting s ++ match allowed_keypair allowed kp tower with Some k => [(id, Update k)] | None => [] end) as Hset.
  { intros [k|] [|]; unfold set_identity; try apply Hk; unfold reply, allowed_keypair; cbn; upd_simpl; by rewrite app_nil_r. }
  assert (∀ o d, default d (last (omap update_of (waiting s ++ match o with Some k => [(id, Update k)] | None => [] end))) =
    default (default d (last (omap update_of (waiting s)))) o) as Ho.
  { intros [k|] d; [by rewrite last_omap_snoc|by rewrite app_nil_r]. }
  destruct r as [slot| |kp tower|kp tower|k]; cbn [handle_request accepted]; rewrite ?Hset; try apply Ho.
  - unfold reply. by upd_simpl.
  - unfold lock. upd_simpl. by rewrite last_omap_snoc.
  - unfold lock. upd_simpl. by rewrite last_omap_snoc.
Qed.

Lemma known_request allowed id r s : known (handle_request allowed id r s) ≡ₚ id :: known s.
Proof.
  unfold known. destruct (request_frame allowed id r s) as (_ & _ & _ & -> & _).
  assert (∀ x, let s' := reply id x s in (replies s').*1 ++ (waiting s').*1 ++ match holder s with Some y => [request y] | None => [] end ≡ₚ
    id :: (replies s).*1 ++ (waiting s).*1 ++ match holder s with Some y => [request y] | None => [] end) as Hr.
  { intros x. cbn zeta. unfold reply. upd_simpl. rewrite fmap_app, <-app_assoc. symmetry. apply Permutation_middle. }
  assert (∀ x, let s' := lock id x s in (replies s').*1 ++ (waiting s').*1 ++ match holder s with Some y => [request y] | None => [] end ≡ₚ
    id :: (replies s).*1 ++ (waiting s).*1 ++ match holder s with Some y => [request y] | None => [] end) as Hw.
  { intros x. cbn zeta. unfold lock. upd_simpl. rewrite fmap_app, <-app_assoc, !(app_assoc (replies s).*1). symmetry. apply Permutation_middle. }
  cbn zeta in Hr, Hw.
  assert (∀ kp tower, ∃ x, set_identity allowed id kp tower s = reply id x s ∨ ∃ y, set_identity allowed id kp tower s = lock id y s) as Hset.
  { intros kp tower. exists InvalidParams. unfold set_identity, set_keypair. destruct tower, kp as [k|]; eauto.
    destruct allowed; [case_decide|]; eauto. }
  destruct r as [slot| |kp tower|kp tower|k]; cbn [handle_request]; try apply Hr; try apply Hw;
    destruct (Hset kp tower) as (x & [->|[y ->]]); try apply Hr; apply Hw.
Qed.

Lemma caller_target s : agreed s → target (caller_step s) = target s ∧ known (caller_step s) ≡ₚ known s.
Proof.
  intros H. unfold target, known, caller_step. destruct (holder s) as [y|] eqn:Eh.
  - destruct (todo y) as [|i l] eqn:Et.
    + destruct (waiting_at_barrier y) eqn:Ew; [destruct (opened _ _) eqn:Eo|]; unfold reply; upd_simpl; rewrite ?Eh; try done.
      split; [done|]. rewrite fmap_app, app_nil_r. cbn. rewrite <-app_assoc. f_equiv. apply Permutation_app_comm.
    + destruct (table s !! i) as [m|] eqn:Ei; [|by rewrite Eh]. destruct (ag_update s H y Eh) as [_ U].
      assert (stopped m = false) as Hs.
      { destruct (decide (i < reached s y)); [by destruct (up_new s y U i m Ei)|destruct (up_old s y U i m Ei); [lia|done]]. }
      unfold pause_for_identity_update. rewrite Hs.
      destruct (kind m) as [cap|e]; [case_decide|]; upd_simpl; rewrite ?Eh; done.
  - destruct (waiting s) as [|[id [|k]] l] eqn:Ew; [by rewrite Eh, Ew| |].
    + unfold reply. upd_simpl. rewrite Eh. split; [done|]. rewrite fmap_app. cbn. by rewrite <-app_assoc.
    + unfold sync_identity. upd_simpl. cbn. split.
      * rewrite last_cons. by destruct (last _).
      * by rewrite app_nil_r, <-Permutation_cons_append.
Qed.

Lemma member_target s i : target (member_step i s) = target s ∧ known (member_step i s) = known s ∧ waiting (member_step i s) = waiting s.
Proof.
  unfold target, known, member_step. destruct (table s !! i) as [m|]; [|done]. destruct (stopped m); [done|].
  destruct (pausing m) as [b|]; [destruct (opened _ _)|destruct (commands m)]; by upd_simpl.
Qed.

Lemma run_target allowed kinds k l : Forall faultless l →
  target (run allowed kinds k l) = default k (last_accepted allowed l) ∧
  ∀ id r, Ask id r ∈ l → id ∈ known (run allowed kinds k l).
Proof.
  induction l as [|e l IH] using rev_ind; intros Hl; [split; [done|by intros ? ? ?%elem_of_nil]|].
  apply Forall_app in Hl as [Hl He]. rewrite Forall_singleton in He. destruct (IH Hl) as [IH1 IH2].
  pose proof (run_agreed allowed kinds k l Hl) as Ha. unfold run in *. rewrite foldl_app. cbn [foldl].
  set (s := foldl _ _ l) in *. unfold last_accepted in *. rewrite last_omap_snoc, <-IH1.
  destruct e as [id r| |i|i|id]; [..|destruct He|destruct He]; cbn [step].
  - split; [apply target_request|]. intros id' r' [Hin|[= <- <-]%list_elem_of_singleton]%elem_of_app; rewrite known_request; set_solver.
  - destruct (caller_target s Ha) as [-> Hk]. split; [done|]. intros id r [Hin|[= ]%list_elem_of_singleton]%elem_of_app. rewrite Hk. eauto.
  - destruct (member_target s i) as (-> & -> & _). split; [done|]. intros id r [Hin|[= ]%list_elem_of_singleton]%elem_of_app. eauto.
Qed.

Lemma kind_step s e allowed : kind <$> table (step allowed s e) = kind <$> table s.
Proof.
  assert (∀ i m m', table s !! i = Some m → kind m' = kind m → kind <$> <[i := m']> (table s) = kind <$> table s) as Hins.
  { intros i m m' Hi Hk. rewrite list_fmap_insert, Hk. apply list_insert_id. by rewrite list_lookup_fmap, Hi. }
  destruct e as [id r| |i|i|id]; cbn [step].
  - by destruct (request_frame allowed id r s) as (_ & -> & _).
  - unfold caller_step, sync_identity, reply. destruct (holder s) as [y|]; [|by destruct (waiting s) as [|[? [|?]] ?]].
    destruct (todo y) as [|i l]; [by repeat case_match|]. destruct (table s !! i) as [m|] eqn:Ei; [|done].
    unfold pause_for_identity_update. destruct (stopped m); [done|].
    destruct (kind m) as [c|o] eqn:Ek; [case_decide; [|done]|]; upd_simpl; eapply Hins; try done; by upd_simpl.
  - unfold member_step. destruct (table s !! i) as [m|] eqn:Ei; [|done]. destruct (stopped m); [done|].
    destruct (pausing m); [destruct (opened _ _); [|done]|destruct (commands m); [done|]]; upd_simpl; eapply Hins; try done; by upd_simpl.
  - unfold stop_member. destruct (table s !! i) as [m|] eqn:Ei; [|done]. destruct (pausing m); [done|]. upd_simpl.
    eapply Hins; try done; by upd_simpl.
  - unfold drop_request. upd_simpl. destruct (holder s) as [y|] eqn:Eh; cbn; [case_decide|]; by upd_simpl.
Qed.

Definition progress (e : Event) : Prop := match e with Caller | Poll _ => True | _ => False end.

(** At a closed barrier that the caller has come to, some member is missing. *)
Lemma unopened_member s y : in_update s y → todo y = [] → waiting_at_barrier y = true → opened (barriers s) (sync_barrier y) = false →
  ∃ i m, table s !! i = Some m ∧ commands m ≠ [].
Proof.
  intros U Et Ew Eo. destruct (decide (Forall (λ m, commands m = []) (table s))) as [Hall|Hex].
  - exfalso. unfold opened in Eo. rewrite (up_barrier s y U), Ew in Eo. cbn in Eo.
    unfold reached in Eo. rewrite Et in Eo. cbn in Eo. rewrite Nat.sub_0_r, take_ge in Eo by done.
    assert (adopted (table s) = length (table s)) as Ha.
    { unfold adopted. clear -Hall. induction Hall as [|m l Hm _ IHl]; [done|]. rewrite filter_cons, decide_True by done. cbn. by f_equal. }
    rewrite Ha in Eo. apply Nat.leb_gt in Eo. lia.
  - apply not_Forall_Exists, Exists_exists in Hex as (m & [i Hi]%list_elem_of_lookup & Hm); [|apply _]. eauto.
Qed.

Lemma poll_cost s i m : table s !! i = Some m → stopped m = false → commands m ≠ [] → at_rest (barriers s) m →
  cost (member_step i s) < cost s.
Proof.
  intros Hi Hs Hc Hr. unfold member_step. rewrite Hi, Hs.
  destruct (pausing m) as [b|] eqn:Ep; [rewrite (Hr b Ep)|destruct (commands m) as [|c l] eqn:Ec; [done|]].
  - pose proof (sum_insert member_cost (table s) i m (m <| pausing := None |> <| serving := start_serving m |>) Hi) as Hsum.
    unfold member_cost at 2 4 in Hsum. upd_simpl_in Hsum. rewrite Ep in Hsum.
    unfold cost. upd_simpl. rewrite length_insert. cbn in Hsum. lia.
  - set (m' := m <| commands := l |> <| current_identity := _ |> <| pausing := _ |> <| serving := _ |>).
    pose proof (sum_insert member_cost (table s) i m m' Hi) as Hsum.
    unfold member_cost at 2 4 in Hsum. subst m'. upd_simpl_in Hsum. rewrite Ep, Ec in Hsum.
    unfold cost. upd_simpl. rewrite length_insert. cbn [length] in Hsum. lia.
Qed.

(** As long as there is something to do, some poll does some of it. *)
Lemma progress_step allowed s : agreed s → Forall has_room (kind <$> table s) → holder s ≠ None ∨ waiting s ≠ [] →
  ∃ e, progress e ∧ cost (step allowed s e) < cost s.
Proof.
  intros H Hroom Hbusy. destruct (holder s) as [y|] eqn:Eh.
  - destruct (ag_update s H y Eh) as [_ U]. destruct (todo y) as [|i l] eqn:Et.
    + destruct (waiting_at_barrier y) eqn:Ew; [destruct (opened (barriers s) (sync_barrier y)) eqn:Eo|].
      * exists Caller. split; [done|]. cbn [step]. unfold caller_step, cost, reply. rewrite Eh, Et, Ew, Eo. upd_simpl. cbn. lia.
      * destruct (unopened_member s y U Et Ew Eo) as (i & m & Hi & Hc). exists (Poll i). split; [done|].
        destruct (up_new s y U i m Hi) as (Hs & [(_ & _ & Hr)|(? & _)]); [unfold reached; rewrite Et; apply lookup_lt_Some in Hi; cbn; lia| |done].
        cbn [step]. by apply poll_cost with m.
      * exists Caller. split; [done|]. cbn [step]. unfold caller_step, cost. rewrite Eh, Et, Ew. upd_simpl. cbn. lia.
    + pose proof (up_todo s y U) as [Hseq Hlen]. rewrite Et in Hseq. apply seq_cons_inv in Hseq as (Ei & _ & _).
      rewrite Et in Hlen. cbn in Hlen. assert (reached s y = length (table s) - S (length l)) as Er by (unfold reached; by rewrite Et).
      destruct (lookup_lt_is_Some_2 (table s) i) as [m Hi]; [lia|]. destruct (up_old s y U i m Hi) as (Hs & Hc & _ & _); [lia|].
      exists Caller. split; [done|]. cbn [step]. unfold caller_step. rewrite Eh, Et, Hi. unfold pause_for_identity_update. rewrite Hs, Hc.
      assert (waiting_at_barrier y = false) as Hw by (destruct (waiting_at_barrier y) eqn:Ew; [by rewrite (up_flag s y U Ew) in Et|done]).
      set (c := mk_command _ _). pose proof (sum_insert member_cost (table s) i m (m <| commands ::= λ l, l ++ [c] |>) Hi) as Hsum.
      unfold member_cost at 2 4 in Hsum. upd_simpl_in Hsum. rewrite Hc in Hsum. cbn [length app] in Hsum.
      assert (Forall has_room (kind <$> table s)) as Hk by done. rewrite Forall_fmap, Forall_lookup in Hk. specialize (Hk i m Hi). cbn in Hk.
      destruct (kind m) as [cap|o]; cbn [has_room] in Hk; [rewrite decide_True by (cbn; lia)|];
        unfold cost; upd_simpl; rewrite Eh, Et, Hw, length_insert; cbn [length todo waiting_at_barrier]; lia.
  - destruct Hbusy as [?|Hbusy]; [done|]. destruct (waiting s) as [|[id op] l] eqn:Ew; [done|].
    exists Caller. split; [done|]. cbn [step]. unfold caller_step, cost. rewrite Eh, Ew.
    destruct op as [|k]; unfold reply, sync_identity; upd_simpl; [rewrite Eh; cbn; lia|]. cbn [todo waiting_at_barrier].
    destruct (ag_idle s H Eh) as [-> _]. rewrite length_seq. cbn. lia.
Qed.

Lemma run_kinds allowed kinds k l : kind <$> table (run allowed kinds k l) = kinds.
Proof.
  unfold run. induction l as [|e l IH] using rev_ind; [|by rewrite foldl_app; cbn [foldl]; rewrite kind_step].
  cbn. rewrite <-list_fmap_compose. rewrite <-(list_fmap_id kinds) at 2. by apply list_fmap_ext.
Qed.

Lemma settles allowed kinds k l : Forall faultless l → Forall has_room kinds → ∃ l', Forall progress l' ∧
  length l' ≤ cost (run allowed kinds k l) ∧ holder (run allowed kinds k (l ++ l')) = None ∧ waiting (run allowed kinds k (l ++ l')) = [].
Proof.
  remember (cost (run allowed kinds k l)) as n eqn:En. revert l En. induction (lt_wf n) as [n _ IH]. intros l -> Hl Hroom.
  destruct (decide (holder (run allowed kinds k l) = None ∧ waiting (run allowed kinds k l) = [])) as [[H1 H2]|Hbusy].
  { exists []. rewrite app_nil_r. split_and!; [done|cbn; lia|done..]. }
  destruct (progress_step allowed (run allowed kinds k l)) as (e & He & Hlt); [by apply run_agreed|by rewrite run_kinds| |].
  { destruct (holder _), (waiting _); tauto || (by left) || (by right). }
  assert (run allowed kinds k (l ++ [e]) = step allowed (run allowed kinds k l) e) as Er by (unfold run; by rewrite foldl_app).
  rewrite <-Er in Hlt. destruct (IH _ Hlt (l ++ [e]) eq_refl) as (l' & H1 & H2 & H3 & H4); [|done|].
  { apply Forall_app. split; [done|]. apply Forall_singleton. by destruct e. }
  exists (e :: l'). rewrite <-app_assoc in H3, H4. split_and!; [by constructor|cbn; lia|done..].
Qed.

(** C35: From every such history, with room in the channels, a bounded number of polls
    answers every request asked, and ends with the group, its watcher and every member
    under the identity of the last accepted request. *)
Theorem updates_complete allowed kinds k l (Hl : Forall faultless l) (Hroom : Forall has_room kinds) : ∃ l',
  Forall progress l' ∧ length l' ≤ cost (run allowed kinds k l) ∧
  let s := run allowed kinds k (l ++ l') in
  let final := default k (last_accepted allowed l) in
  holder s = None ∧ waiting s = [] ∧ (∀ id r, Ask id r ∈ l → id ∈ (replies s).*1) ∧
  identity (group s) = final ∧ watcher (group s) = final ∧
  ∀ i m, table s !! i = Some m → commands m = [] ∧ current_identity m = final.
Proof.
  destruct (settles allowed kinds k l Hl Hroom) as (l' & Hp & Hlen & Hh & Hw). exists l'. split; [done|]. split; [done|]. cbn zeta.
  assert (Forall faultless (l ++ l')) as Hl'.
  { apply Forall_app. split; [done|]. eapply Forall_impl; [exact Hp|]. by intros []. }
  assert (last_accepted allowed (l ++ l') = last_accepted allowed l) as El.
  { unfold last_accepted. rewrite omap_app. replace (omap _ l') with (@nil Pubkey); [by rewrite app_nil_r|].
    symmetry. clear -Hp. induction Hp as [|e l' He _ IHl]; [done|]. cbn. by destruct e. }
  destruct (run_target allowed kinds k (l ++ l') Hl') as [Ht Hk]. rewrite El in Ht. unfold target in Ht. rewrite Hh, Hw in Ht. cbn in Ht.
  destruct (run_agreed allowed kinds k (l ++ l') Hl') as [H1 _ H3 _]. destruct (H3 Hh) as [_ Hall].
  split_and!; [done|done| |done|congruence|].
  - intros id r Hin. specialize (Hk id r (proj2 (elem_of_app _ _ _) (or_introl Hin))). unfold known in Hk. rewrite Hw, Hh in Hk. cbn in Hk.
    by rewrite app_nil_r in Hk.
  - intros i m Hi. destruct (Hall i m Hi) as (_ & ? & ? & _). split; congruence.
Qed.

(** ** What holds in every history, stops and dropped requests included *)

(** The server of a listener runs under its current identity, the expected one if
    there is one, and not while the listener waits at the barrier. *)
Definition serves_well (m : Member) : Prop := ∀ k, serving m = Some k →
  k = current_identity m ∧ pausing m = None ∧ stopped m = false ∧
  match kind m with GatewayListener (Some e) => k = e | GatewayListener None => True | QuicGateway _ => False end.

Lemma start_serving_well m : pausing m = None → stopped m = false → serving m = start_serving m → serves_well m.
Proof.
  intros Hp Hs Hm k Hk. rewrite Hm in Hk. unfold start_serving in Hk.
  destruct (kind m) as [c|[e|]]; [done| |by simplify_eq].
  case_decide as Hd; [done|]. by simplify_eq.
Qed.

Lemma serves_step allowed s e : Forall serves_well (table s) → Forall serves_well (table (step allowed s e)).
Proof.
  intros H. assert (∀ i m m', table s !! i = Some m → serves_well m' → Forall serves_well (<[i := m']> (table s))) as Hins.
  { intros i m m' _ Hm'. by apply Forall_insert. }
  destruct e as [id r| |i|i|id]; cbn [step].
  - by destruct (request_frame allowed id r s) as (_ & -> & _).
  - unfold caller_step, sync_identity, reply. destruct (holder s) as [y|]; [|by destruct (waiting s) as [|[? [|?]] ?]].
    destruct (todo y) as [|i l]; [by repeat case_match|]. destruct (table s !! i) as [m|] eqn:Ei; [|done].
    unfold pause_for_identity_update. destruct (stopped m) eqn:Es; [done|].
    pose proof (Forall_lookup_1 _ _ _ _ H Ei) as Hm. assert (serves_well (m <| commands ::= λ l, l ++ [mk_command (next_identity y) (sync_barrier y)] |>)) as Hm'
      by (unfold serves_well in *; by upd_simpl).
    destruct (kind m) as [c|o] eqn:Ek; [case_decide; [|done]|]; upd_simpl; by eapply Hins.
  - unfold member_step. destruct (table s !! i) as [m|] eqn:Ei; [|done]. destruct (stopped m) eqn:Es; [done|].
    destruct (pausing m); [destruct (opened _ _); [|done]|destruct (commands m); [done|]]; upd_simpl; (eapply Hins; [exact Ei|]).
    + apply start_serving_well; by upd_simpl.
    + intros k. by upd_simpl.
  - unfold stop_member. destruct (table s !! i) as [m|] eqn:Ei; [|done]. destruct (pausing m); [done|]. upd_simpl.
    eapply Hins; [exact Ei|]. intros k. by upd_simpl.
  - unfold drop_request. upd_simpl. destruct (holder s) as [y|] eqn:Eh; cbn; [case_decide|]; by upd_simpl.
Qed.

(** In every history, stops and dropped requests included, the listener only serves under
    its current identity, the expected one if there is one, and not while it waits at the
    barrier. *)
Theorem listener_serves_the_expected_identity allowed kinds k l : Forall serves_well (table (run allowed kinds k l)).
Proof.
  unfold run. induction l as [|e l IH] using rev_ind; [|rewrite foldl_app; by apply serves_step].
  cbn. apply Forall_fmap, Forall_true. intros kd. apply start_serving_well; unfold spawn_member; by upd_simpl.
Qed.

(** A group without members, with no update that has any. *)
Definition stranded (s : Server) : Prop :=
  members (group s) = [] ∧ ∀ y, holder s = Some y → taken y = [] ∧ todo y = [].

Lemma stranded_step allowed s e : stranded s → stranded (step allowed s e).
Proof.
  intros [H1 H2]. destruct e as [id r| |i|i|id]; cbn [step].
  - unfold stranded. by destruct (request_frame allowed id r s) as (-> & _ & _ & -> & _).
  - unfold caller_step. destruct (holder s) as [y|] eqn:Eh.
    + destruct (H2 y eq_refl) as [E1 E2]. rewrite E2.
      destruct (waiting_at_barrier y); [destruct (opened _ _)|]; unfold reply, stranded; upd_simpl; rewrite ?Eh; cbn; try done.
      split; [done|]. by intros z [= <-].
    + destruct (waiting s) as [|[id [|k]] l]; unfold reply, sync_identity, stranded; upd_simpl; cbn; rewrite ?Eh; try done.
      split; [done|]. rewrite H1. by intros z [= <-].
  - unfold member_step. destruct (table s !! i) as [m|]; [|done]. destruct (stopped m); [done|].
    destruct (pausing m); [destruct (opened _ _)|destruct (commands m)]; unfold stranded; by upd_simpl.
  - unfold stop_member. destruct (table s !! i) as [m|]; [|done]. destruct (pausing m); unfold stranded; by upd_simpl.
  - unfold drop_request, stranded. upd_simpl. destruct (holder s) as [y|] eqn:Eh; cbn; [case_decide|]; upd_simpl; rewrite ?Eh; done.
Qed.

(** When the request of an update in flight is dropped, the group has lost its members for
    good: every later update is answered without reaching any. *)
Theorem a_dropped_update_strands_the_members allowed kinds k l l' y
    (Hy : holder (run allowed kinds k l) = Some y) (Hl : Forall faultless l) :
  stranded (run allowed kinds k (l ++ DropRequest (request y) :: l')).
Proof.
  unfold run. rewrite foldl_app. cbn [foldl]. fold (run allowed kinds k l).
  destruct (ag_update _ (run_agreed allowed kinds k l Hl) y Hy) as [Hm _].
  assert (stranded (step allowed (run allowed kinds k l) (DropRequest (request y)))) as Hs.
  { cbn [step]. unfold drop_request, stranded. upd_simpl. rewrite Hy. rewrite decide_True by done. by upd_simpl. }
  revert Hs. generalize (step allowed (run allowed kinds k l) (DropRequest (request y))).
  induction l' as [|e l' IH]; intros s Hs; [done|]. cbn [foldl]. by apply IH, stranded_step.
Qed.

(** ** A gateway and a listener *)
Definition demo_kinds : list Kind := [QuicGateway 10; GatewayListener (Some 7%N)].
Definition demo_events : list Event :=
  [Ask 0 (SetIdentity (Some 7%N) false); Ask 1 (SetIdentityFromBytes (Some 8%N) false); Ask 2 GetIdentity; Caller; Caller; Poll 0].

Lemma demo_faultless : Forall faultless demo_events.
Proof. repeat constructor. Qed.
Lemma demo_room : Forall has_room demo_kinds.
Proof. repeat constructor. Qed.

Lemma members_never_disagree_witness :
  watcher (group (run (Some 7%N) demo_kinds 0%N demo_events)) = 0%N ∧
  current_identity <$> table (run (Some 7%N) demo_kinds 0%N demo_events) = [7; 0]%N.
Proof.
  split; [|reflexivity].
  exact (eq_trans (proj1 (proj2 (members_never_disagree (Some 7%N) demo_kinds 0%N demo_events demo_faultless))) eq_refl).
Defined.

Lemma updates_complete_witness : ∃ l', Forall progress l' ∧
  identity (group (run (Some 7%N) demo_kinds 0%N (demo_events ++ l'))) = 7%N.
Proof.
  destruct (updates_complete (Some 7%N) demo_kinds 0%N demo_events demo_faultless demo_room) as (l' & H1 & _ & _ & _ & _ & H2 & _).
  exists l'. split; [exact H1|exact H2].
Defined.

(** After a dropped request the next one is answered at once, and nobody hears of it. *)
Example the_group_forgets_its_members :
  let s := run None demo_kinds 0%N
    [Ask 0 (ResetIdentity 1%N); Caller; DropRequest 0; Ask 1 (ResetIdentity 2%N); Caller; Caller; Caller; Poll 0; Poll 1] in
  replies s = [(1, Updated)] ∧ identity (group s) = 2%N ∧ current_identity <$> table s = [0; 0]%N.
Proof. split_and!; reflexivity. Qed.

(** A listener that has stopped makes the update panic, with the mutex released and
    the members lost. *)
Example a_stopped_listener_breaks_the_group :
  let s := run None demo_kinds 0%N
    [Stop 1; Ask 0 (ResetIdentity 1%N); Caller; Caller; Caller; Poll 0; Ask 1 GetIdentity; Caller] in
  replies s = [(0, Panicked); (1, Identity 0%N)] ∧ members (group s) = [] ∧ pausing <$> table s = [Some 0; None].
Proof. split_and!; reflexivity. Qed.
End Identity.
