(* ===== verification/Admin.v ===== *)
(** The administration commands of the proxy's binary ([run_cmd_admin] and [main2] of
    [apps/jet/src/bin/jet.rs]): a client of the admin RPC, as the program of its calls,
    which any server can answer. *)
From S2P Require Import Prelude Types Identity.
Import Identity.

Module Admin.

Inductive ArgsCommandAdmin := CmdGetIdentity | CmdSetIdentity (identity : option string) | CmdResetIdentityKeypair.

(** The files as the command meets them: [canonicalize], [open] of a path, and the key
    read from what was opened, or from the standard input. *)
Class Files := {
  canonicalize : string → option string;
  open_file : string → bool;
  read_keypair : option string → option Pubkey
}.
Inductive AdminError := ClientError | CallError | PathError | OpenError | KeypairError | NotUpdated (new prev : Pubkey).
Inductive AdminOutcome := Printed (identity : Pubkey) | UpdatedTo (identity : Pubkey) | ResetDone | AdminFailed (e : AdminError) | AdminPanicked.

(** A call and what follows its answer; [None] is an error of the call. *)
Inductive Program := Return (o : AdminOutcome) | Call (r : Request) (next : option Reply → Program).

Definition get_identity (next : Pubkey → Program) : Program :=
  Call GetIdentity (λ a, match a with Some (Identity k) => next k | _ => Return (AdminFailed CallError) end).
Definition update (r : Request) (next : Program) : Program :=
  Call r (λ a, match a with Some Updated => next | _ => Return (AdminFailed CallError) end).

Section Command.
Context `{FS : Files}.

(** The reader of the key, and the key. *)
Definition read_identity (identity : option string) : Pubkey + AdminError :=
  match identity with
  | Some identity_path =>
      match canonicalize identity_path with
      | None => inr PathError
      | Some canonical_path =>
          if open_file canonical_path
          then match read_keypair (Some canonical_path) with Some k => inl k | None => inr KeypairError end
          else inr OpenError
      end
  | None => match read_keypair None with Some k => inl k | None => inr KeypairError end
  end.

(** [bind]: the addresses of the admin server in the configuration, indexed without a check;
    [client_built]: whether the client accepts the first. *)
Definition run_cmd_admin (bind : list SocketAddr) (client_built : SocketAddr → bool) (admin_cmd : ArgsCommandAdmin)
    (random_identity : Pubkey) : Program :=
  match bind with
  | [] => Return AdminPanicked
  | addr :: _ =>
  if client_built addr then
    match admin_cmd with
    | CmdGetIdentity => get_identity (λ identity, Return (Printed identity))
    | CmdSetIdentity identity =>
        get_identity (λ identity_prev,
          match read_identity identity with
          | inr e => Return (AdminFailed e)
          | inl keypair =>
              update (SetIdentityFromBytes (Some keypair) false)
                (get_identity (λ identity,
                   if decide (identity ≠ identity_prev) then Return (UpdatedTo identity)
                   else Return (AdminFailed (NotUpdated identity identity_prev))))
          end)
    | CmdResetIdentityKeypair => update (ResetIdentity random_identity) (Return ResetDone)
    end
  else Return (AdminFailed ClientError)
  end.

(** [main2]: a checked configuration runs nothing. *)
Inductive MainAction := Checked | ConfigError | TracingError | RunAdmin (cmd : ArgsCommandAdmin) | RunJet (prometheus : option SocketAddr).
Definition main2 (config_loads check tracing : bool) (command : option ArgsCommandAdmin) (prometheus : option SocketAddr) : MainAction :=
  if config_loads then
    if check then Checked
    else if negb tracing then TracingError
    else match command with Some cmd => RunAdmin cmd | None => RunJet prometheus end
  else ConfigError.

(** ** Against a server *)
Class AdminServer (Srv : Type) := serves : Srv → Request → option Reply → Srv → Prop.
Inductive exec `{AdminServer Srv} : Srv → Program → AdminOutcome → Srv → Prop :=
  | ex_return s o : exec s (Return o) o s
  | ex_call s r a s1 next o s2 : serves s r a s1 → exec s1 (next a) o s2 → exec s (Call r next) o s2.

(** What the admin RPC promises to a client that is alone. *)
Definition accepts (allowed : option Pubkey) (k : Pubkey) : bool :=
  match allowed with Some a => bool_decide (a = k) | None => true end.
Class AdminServerLaws (Srv : Type) `{AdminServer Srv} (allowed : option Pubkey) (current : Srv → Pubkey) : Prop := {
  serves_get s a s' : serves s GetIdentity a s' → a = Some (Identity (current s)) ∧ current s' = current s;
  serves_set s k a s' : serves s (SetIdentityFromBytes (Some k) false) a s' →
    if accepts allowed k then a = Some Updated ∧ current s' = k else a = Some InvalidParams ∧ current s' = current s;
  serves_reset s k a s' : serves s (ResetIdentity k) a s' → a = Some Updated ∧ current s' = k
}.

(** A program ends when every request is served. *)
Lemma exec_total `{AdminServer Srv} (ok : Srv → Prop) (Hserve : ∀ s r, ok s → ∃ a s', serves s r a s' ∧ ok s') p :
  ∀ s, ok s → ∃ o s', exec s p o s'.
Proof.
  induction p as [o|r next IH]; intros s Hs; [exists o, s; constructor|].
  destruct (Hserve s r Hs) as (a & s1 & Ha & H1). destruct (IH a s1 H1) as (o & s2 & Hx).
  exists o, s2. by econstructor.
Qed.

Section Alone.
Context `{SL : AdminServerLaws Srv allowed current}.
Context (bind : list SocketAddr) (client_built : SocketAddr → bool) (Hclient : client_built <$> head bind = Some true).

Lemma exec_return s o o' s' : exec s (Return o) o' s' → o' = o ∧ s' = s.
Proof. by inversion 1. Qed.
Lemma exec_call s r next o s' : exec s (Call r next) o s' → ∃ a s1, serves s r a s1 ∧ exec s1 (next a) o s'.
Proof. inversion 1; subst. eauto. Qed.
Lemma exec_get s next o s' : exec s (get_identity next) o s' → ∃ s1, current s1 = current s ∧ exec s1 (next (current s)) o s'.
Proof. intros (a & s1 & [-> E]%serves_get & Hn)%exec_call. eauto. Qed.

(** What the command says of a change of identity, on every branch: nothing is changed
    before the key was read, a refusal changes nothing, and setting the identity in use
    is carried out and reported as a failure. *)
Theorem set_identity_reports s path random o s' (Hrun : exec s (run_cmd_admin bind client_built (CmdSetIdentity path) random) o s') :
  match read_identity path with
  | inr e => o = AdminFailed e ∧ current s' = current s
  | inl k =>
      if accepts allowed k then
        current s' = k ∧ o = (if decide (k = current s) then AdminFailed (NotUpdated k k) else UpdatedTo k)
      else o = AdminFailed CallError ∧ current s' = current s
  end.
Proof.
  unfold run_cmd_admin in Hrun. destruct bind as [|addr rest]; [done|]. injection Hclient as Hc. rewrite Hc in Hrun. apply exec_get in Hrun as (s1 & E1 & Hrun).
  destruct (read_identity path) as [k|e]; [|apply exec_return in Hrun as [-> ->]; done].
  unfold update in Hrun. apply exec_call in Hrun as (a & s2 & Hset%serves_set & Hrun).
  destruct (accepts allowed k); destruct Hset as [-> E2]; [|apply exec_return in Hrun as [-> ->]; split; congruence].
  apply exec_get in Hrun as (s3 & E3 & Hrun). rewrite E2 in *. destruct (decide (k = current s)) as [Hk|Hk].
  - rewrite decide_False in Hrun by tauto. apply exec_return in Hrun as [-> ->]. split; [done|]. by rewrite <-Hk.
  - rewrite decide_True in Hrun by done. by apply exec_return in Hrun as [-> ->].
Qed.
Theorem reset_identity_reports s random o s' (Hrun : exec s (run_cmd_admin bind client_built CmdResetIdentityKeypair random) o s') :
  o = ResetDone ∧ current s' = random.
Proof.
  unfold run_cmd_admin in Hrun. destruct bind as [|addr rest]; [done|]. injection Hclient as Hc. rewrite Hc in Hrun. unfold update in Hrun. apply exec_call in Hrun as (a & s1 & [-> E]%serves_reset & Hrun).
  by apply exec_return in Hrun as [-> ->].
Qed.
End Alone.
End Command.

(** ** The server of [rpc.rs] over the identity group

    Its state is its history; it serves a request when nothing else is under way, until
    nothing is. *)
Section Server.
Context (allowed : option Pubkey) (kinds : list Kind) (initial : Pubkey) (Hroom : Forall has_room kinds).
Abbreviation run := (Identity.run allowed kinds initial).
Abbreviation step := (Identity.step allowed).

Definition idle (s : Server) : Prop := holder s = None ∧ waiting s = [].
Definition current_of (l : list Event) : Pubkey := identity (group (run l)).
#[export] Instance identity_server : AdminServer (list Event) := λ l r a l',
  Forall faultless l ∧ idle (run l) ∧ ∃ id turns, id ∉ (replies (run l)).*1 ∧ Forall progress turns ∧
    l' = l ++ Ask id r :: turns ∧ idle (run l') ∧ ∃ rep, a = Some rep ∧ (id, rep) ∈ replies (run l').

(** One request under way, from the answers [rs] and the identity [k0]. *)
Definition answered (op : LockedOp) (id : nat) (k0 : Pubkey) (rs : list (nat * Reply)) (s : Server) : Prop :=
  match op with
  | Get => identity (group s) = k0 ∧ replies s = rs ++ [(id, Identity k0)]
  | Update k => identity (group s) = k ∧ replies s = rs ++ [(id, Updated)]
  end.
Inductive in_service (op : LockedOp) (id : nat) (k0 : Pubkey) (rs : list (nat * Reply)) (s : Server) : Prop :=
  | sv_waiting : holder s = None → waiting s = [(id, op)] → identity (group s) = k0 → replies s = rs → in_service op id k0 rs s
  | sv_updating y : op = Update (next_identity y) → holder s = Some y → request y = id → waiting s = [] → replies s = rs →
      in_service op id k0 rs s
  | sv_done : idle s → answered op id k0 rs s → in_service op id k0 rs s.

Lemma member_frame i s : holder (member_step i s) = holder s ∧ waiting (member_step i s) = waiting s ∧
  group (member_step i s) = group s ∧ replies (member_step i s) = replies s.
Proof. unfold member_step. repeat case_match; by split_and!; upd_simpl. Qed.
Lemma caller_idle s : idle s → caller_step s = s.
Proof. unfold caller_step. by intros [-> ->]. Qed.
Lemma nobody_stopped s y i m : in_update s y → table s !! i = Some m → stopped m = false.
Proof.
  intros [_ _ _ _ Hnew Hold] Hm. destruct (decide (i < reached s y)) as [Hi|Hi].
  - by destruct (Hnew i m Hm Hi) as [? _].
  - destruct (Hold i m Hm) as [? _]; [lia|done].
Qed.

Lemma service_caller op id k0 rs s : agreed s → in_service op id k0 rs s → in_service op id k0 rs (caller_step s).
Proof.
  intros Hag [Hh Hw Hk Hr|y Hop Hh Hid Hw Hr|Hi Ha]; [| |rewrite caller_idle by done; by apply sv_done].
  - unfold caller_step. rewrite Hh, Hw. destruct op as [|k].
    + apply sv_done; [|split]; unfold reply, idle; upd_simpl; [done|done|by rewrite Hr, Hk].
    + unfold sync_identity. eapply sv_updating; upd_simpl; [|done|done|done|done]. done.
  - destruct (ag_update _ Hag y Hh) as [_ Hup]. unfold caller_step. rewrite Hh. destruct (todo y) as [|i l] eqn:Et.
    + destruct (waiting_at_barrier y).
      * destruct (opened _ _); [|by eapply sv_updating]. subst op. apply sv_done; [by unfold idle, reply; upd_simpl|].
        unfold reply. split; upd_simpl; [done|by rewrite Hr, Hid].
      * eapply sv_updating; upd_simpl; [|done|done|done|done]. done.
    + destruct (table s !! i) as [m|] eqn:Em; [|by eapply sv_updating].
      pose proof (nobody_stopped s y i m Hup Em) as Hs. unfold pause_for_identity_update. rewrite Hs.
      destruct (kind m) as [capacity|]; [case_decide; [|by eapply sv_updating]|];
        (eapply sv_updating; upd_simpl; [|done|done|done|done]; done).
Qed.

Lemma service_turns op id k0 rs turns : Forall progress turns → ∀ l, Forall faultless l →
  in_service op id k0 rs (run l) → in_service op id k0 rs (run (l ++ turns)).
Proof.
  induction 1 as [|e turns He _ IH]; intros l Hl Hs; [by rewrite app_nil_r|].
  change (e :: turns) with ([e] ++ turns). rewrite app_assoc. apply IH.
  - apply Forall_app. split; [done|]. apply Forall_singleton. by destruct e.
  - pose proof (run_agreed allowed kinds initial l Hl) as Hag. unfold Identity.run in *. rewrite foldl_app. cbn [foldl].
    destruct e as [| |i| |]; try done; cbn [Identity.step]; [by apply service_caller|].
    destruct (member_frame i (foldl step (start kinds initial) l)) as (E1 & E2 & E3 & E4).
    destruct Hs as [Hh Hw Hk Hr|y Hop Hh Hid Hw Hr|[Hh Hw] Ha].
    + by apply sv_waiting; congruence.
    + eapply sv_updating; [exact Hop|by rewrite E1|done|congruence..].
    + apply sv_done; [split; congruence|]. unfold answered in *. destruct op; by rewrite E3, E4.
Qed.

(** An operation that waits for the lock is done, and answered, once the server is idle. *)
Lemma served_operation l id r op a turns : Forall faultless l → idle (run l) → id ∉ (replies (run l)).*1 →
  handle_request allowed id r (run l) = lock id op (run l) → Forall progress turns →
  idle (run (l ++ Ask id r :: turns)) → (id, a) ∈ replies (run (l ++ Ask id r :: turns)) →
  match op with
  | Get => a = Identity (current_of l) ∧ current_of (l ++ Ask id r :: turns) = current_of l
  | Update k => a = Updated ∧ current_of (l ++ Ask id r :: turns) = k
  end.
Proof.
  intros Hl [Hh Hw] Hid Hreq Hp Hidle Ha.
  assert (run (l ++ [Ask id r]) = lock id op (run l)) as Er by (rewrite <-Hreq; unfold Identity.run; by rewrite foldl_app).
  assert (in_service op id (current_of l) (replies (run l)) (run (l ++ [Ask id r]))) as Hs.
  { rewrite Er. unfold lock. apply sv_waiting; upd_simpl; [done|by rewrite Hw|done|done]. }
  apply (service_turns _ _ _ _ turns Hp) in Hs; [|apply Forall_app; split; [done|by repeat constructor]].
  rewrite <-app_assoc in Hs. cbn [app] in Hs. unfold current_of.
  destruct Hidle as [Hh' Hw']. destruct Hs as [? Hx _ _|y _ Hx _ _ _|_ Hans]; [congruence..|].
  assert (∀ rep, replies (run (l ++ Ask id r :: turns)) = replies (run l) ++ [(id, rep)] → a = rep) as Hone.
  { intros rep E. rewrite E in Ha. apply elem_of_app in Ha as [Ha|Ha%list_elem_of_singleton]; [|by injection Ha].
    destruct Hid. apply list_elem_of_fmap. by exists (id, a). }
  destruct op; destruct Hans as [-> E]; split; auto.
Qed.

Lemma idle_turns turns : Forall progress turns → ∀ s, idle s →
  let s' := foldl step s turns in idle s' ∧ group s' = group s ∧ replies s' = replies s.
Proof.
  induction 1 as [|e turns He _ IH]; intros s Hs; [done|]. cbn [foldl].
  assert (idle (step s e) ∧ group (step s e) = group s ∧ replies (step s e) = replies s) as (H1 & H2 & H3).
  { destruct e as [| |i| |]; try done; cbn [Identity.step]; [by rewrite caller_idle|].
    destruct (member_frame i s) as (E1 & E2 & -> & ->). destruct Hs. split; [split; congruence|done]. }
  destruct (IH _ H1) as (? & -> & ->). by rewrite H2, H3.
Qed.

(** A request answered at once. *)
Lemma served_at_once l id r rep a turns : idle (run l) → id ∉ (replies (run l)).*1 →
  handle_request allowed id r (run l) = reply id rep (run l) → Forall progress turns →
  (id, a) ∈ replies (run (l ++ Ask id r :: turns)) → a = rep ∧ current_of (l ++ Ask id r :: turns) = current_of l.
Proof.
  intros [Hh Hw] Hid Hreq Hp Ha. unfold current_of.
  assert (run (l ++ Ask id r :: turns) = foldl step (reply id rep (run l)) turns) as Er
    by (rewrite <-Hreq; unfold Identity.run; by rewrite foldl_app).
  rewrite Er in *. destruct (idle_turns turns Hp (reply id rep (run l))) as (_ & E2 & E3); [by unfold idle, reply; upd_simpl|].
  rewrite E2. rewrite E3 in Ha. unfold reply in Ha |- *. upd_simpl_in Ha. upd_simpl. split; [|done].
  apply elem_of_app in Ha as [Ha|Ha%list_elem_of_singleton]; [|by injection Ha].
  destruct Hid. apply list_elem_of_fmap. by exists (id, a).
Qed.

#[export] Instance identity_server_laws : AdminServerLaws (list Event) allowed current_of.
Proof.
  split.
  - intros l a l' (Hl & Hi & id & turns & Hid & Hp & -> & Hi' & rep & -> & Hrep).
    destruct (served_operation l id GetIdentity Get rep turns Hl Hi Hid eq_refl Hp Hi' Hrep) as [-> ?]. done.
  - intros l k a l' (Hl & Hi & id & turns & Hid & Hp & -> & Hi' & rep & -> & Hrep).
    destruct (accepts allowed k) eqn:Eacc.
    + destruct (served_operation l id (SetIdentityFromBytes (Some k) false) (Update k) rep turns Hl Hi Hid) as [-> ?]; [|done..].
      unfold accepts in Eacc. cbn. unfold set_identity, set_keypair. cbn. destruct allowed as [b|]; [|done].
      apply bool_decide_eq_true in Eacc as ->. by rewrite decide_False by tauto.
    + destruct (served_at_once l id (SetIdentityFromBytes (Some k) false) InvalidParams rep turns Hi Hid) as [-> ?]; [|done..].
      unfold accepts in Eacc. cbn. unfold set_identity, set_keypair. cbn. destruct allowed as [b|]; [|done].
      apply bool_decide_eq_false in Eacc. by rewrite decide_True by done.
  - intros l k a l' (Hl & Hi & id & turns & Hid & Hp & -> & Hi' & rep & -> & Hrep).
    destruct (served_operation l id (ResetIdentity k) (Update k) rep turns Hl Hi Hid eq_refl Hp Hi' Hrep) as [-> ?]. done.
Qed.

(** Every request is served. *)
Lemma identity_server_serves l r : Forall faultless l → idle (run l) →
  ∃ a l', serves l r a l' ∧ Forall faultless l' ∧ idle (run l').
Proof using Hroom.
  intros Hl Hi. set (id := fresh ((replies (run l)).*1)).
  assert (id ∉ (replies (run l)).*1) as Hid by apply infinite_is_fresh.
  assert (Forall faultless (l ++ [Ask id r])) as Hl1 by (apply Forall_app; split; [done|by repeat constructor]).
  destruct (settles allowed kinds initial _ Hl1 Hroom) as (turns & Hp & _ & Hh & Hw).
  rewrite <-app_assoc in Hh, Hw. cbn [app] in Hh, Hw.
  assert (Forall faultless (l ++ Ask id r :: turns)) as Hl2.
  { apply Forall_app. split; [done|]. constructor; [done|]. eapply Forall_impl; [exact Hp|]. by intros []. }
  destruct (run_target allowed kinds initial _ Hl2) as [_ Hk].
  specialize (Hk id r). unfold known in Hk. rewrite Hh, Hw in Hk. cbn in Hk. rewrite app_nil_r in Hk.
  assert (id ∈ (replies (run (l ++ Ask id r :: turns))).*1) as Hin by (apply Hk; set_solver).
  apply list_elem_of_fmap in Hin as ([id' rep] & Hid' & Hin). cbn in Hid'. subst id'.
  exists (Some rep), (l ++ Ask id r :: turns). split_and!; [|done|done].
  split_and!; [done|done|]. exists id, turns. split_and!; [done|done|done|done|by exists rep].
Qed.
End Server.

(** The command against the proxy's server: for the proxy at rest it ends, and says what
    [set_identity_reports] says. *)
Theorem set_identity_against_the_proxy `{Files} allowed kinds initial bind client_built l path random
  (Hclient : client_built <$> head bind = Some true) (Hroom : Forall has_room kinds)
  (Hl : Forall faultless l) (Hidle : idle (run allowed kinds initial l)) :
  let current l := identity (group (run allowed kinds initial l)) in
  ∃ o l', exec (H := identity_server allowed kinds initial) l (run_cmd_admin bind client_built (CmdSetIdentity path) random) o l' ∧
    match read_identity path with
    | inr e => o = AdminFailed e ∧ current l' = current l
    | inl k => if accepts allowed k
               then current l' = k ∧ o = (if decide (k = current l) then AdminFailed (NotUpdated k k) else UpdatedTo k)
               else o = AdminFailed CallError ∧ current l' = current l
    end.
Proof.
  cbn zeta. assert (∃ o l', exec (H := identity_server allowed kinds initial) l (run_cmd_admin bind client_built (CmdSetIdentity path) random) o l')
    as (o & l' & Hex); [|exists o, l'; split; [done|]; exact (set_identity_reports (SL := identity_server_laws allowed kinds initial) bind client_built Hclient l path random o l' Hex)].
  apply (exec_total (H := identity_server allowed kinds initial)
    (λ l, Forall faultless l ∧ idle (run allowed kinds initial l))); [|done].
  intros k r [Hk Hi]. destruct (identity_server_serves allowed kinds initial Hroom k r Hk Hi) as (a & k' & ? & ? & ?). eauto.
Qed.
End Admin.
