(* ===== verification/Features.v ===== *)
(** Feature flags ([feature_flags.rs] of [apps/jet/src]): the names of the
    configuration, and the numbers of the gateway's protocol. *)
From S2P Require Import Prelude.

(** [Feature] of the protocol, with its numbers. *)
Inductive Feature := FeatureUnspecified | FeatureTransactionPayloadV2 | FeatureYellowstoneShield.
Definition feature_number (f : Feature) : Z :=
  match f with FeatureUnspecified => 0 | FeatureTransactionPayloadV2 => 1 | FeatureYellowstoneShield => 2 end.

Module Features.

Inductive FeatureFlag := TransactionPayloadV2 | YellowstoneShield.
#[export] Instance FeatureFlag_eq_dec : EqDecision FeatureFlag.
Proof. solve_decision. Defined.
#[export] Instance FeatureFlag_countable : Countable FeatureFlag :=
  inj_countable (λ f, match f with TransactionPayloadV2 => true | YellowstoneShield => false end)
    (λ b : bool, Some (if b then TransactionPayloadV2 else YellowstoneShield)) (λ f, match f with TransactionPayloadV2 | YellowstoneShield => eq_refl end).

Definition to_proto_feature (f : FeatureFlag) : Feature :=
  match f with
  | TransactionPayloadV2 => FeatureTransactionPayloadV2
  | YellowstoneShield => FeatureYellowstoneShield
  end.
Definition from_str (feature_str : string) : FeatureFlag + string :=
  if decide (feature_str = "transaction_payload_v2"%string) then inl TransactionPayloadV2
  else if decide (feature_str = "yellowstone_shield"%string) then inl YellowstoneShield
  else inr feature_str.
Definition try_from (feature : Feature) : FeatureFlag + Feature :=
  match feature with
  | FeatureTransactionPayloadV2 => inl TransactionPayloadV2
  | FeatureYellowstoneShield => inl YellowstoneShield
  | unknown => inr unknown
  end.

(** Deserialization: the first string that is no flag is an error. *)
Fixpoint deserialize_flags (l : list string) : gset FeatureFlag + string :=
  match l with
  | [] => inl ∅
  | s :: l =>
      match from_str s, deserialize_flags l with
      | inr e, _ => inr e
      | inl f, inl fs => inl ({[f]} ∪ fs)
      | inl _, inr e => inr e
      end
  end.

Section FeatureSet.
Context `{HI : HashIter} (enabled : gset FeatureFlag).
Definition is_feature_enabled (feature : Feature) : bool :=
  match try_from feature with inl feature_flag => bool_decide (feature_flag ∈ enabled) | inr _ => false end.
Definition enabled_features : list Z := (λ f, feature_number (to_proto_feature f)) <$> hash_iter enabled.
Definition is_empty : bool := bool_decide (enabled = ∅).

(** What is announced to the gateway is what is enabled, by name or by number. *)
Theorem announced_features_are_the_enabled_ones feature :
  feature_number feature ∈ enabled_features ↔ is_feature_enabled feature = true.
Proof.
  unfold enabled_features, is_feature_enabled. rewrite list_elem_of_fmap. split.
  - intros (f & E & Hf). apply elem_of_hash_iter in Hf.
    destruct f, feature; try discriminate E; cbn; by apply bool_decide_eq_true.
  - destruct feature; cbn; [done|..]; intros H%bool_decide_eq_true; eexists; (split; [|by apply elem_of_hash_iter]); done.
Qed.
End FeatureSet.

(** The names of the flags of a configuration are accepted exactly when each is
    known, and then are the flags enabled. *)
Theorem configured_flags_are_enabled l fs : deserialize_flags l = inl fs ↔
  Forall (λ s, s = "transaction_payload_v2"%string ∨ s = "yellowstone_shield"%string) l ∧
  fs = list_to_set (omap (λ s, match from_str s with inl f => Some f | inr _ => None end) l).
Proof.
  revert fs. induction l as [|s l IH]; intros fs; cbn [deserialize_flags].
  { split; [intros [= <-]; by split|]. by intros [_ ->]. }
  cbn [omap list_omap]. unfold from_str at 1 2. rewrite Forall_cons. destruct (decide (s = _)) as [->|H1]; [|destruct (decide (s = _)) as [->|H2]].
  3: { split; [done|]. by intros [[[?|?] _] _]. }
  all: destruct (deserialize_flags l) as [fs'|e]; cbn [list_to_set].
  - destruct (IH fs') as [[IH1 ->] _]; [done|]. split; [intros [= <-]; by auto|]. by intros [_ ->].
  - split; [done|]. intros [[_ Hl] _]. destruct (IH (list_to_set (omap (λ s, match from_str s with inl f => Some f | inr _ => None end) l))) as [_ IH']. by discriminate IH'.
  - destruct (IH fs') as [[IH1 ->] _]; [done|]. split; [intros [= <-]; by auto|]. by intros [_ ->].
  - split; [done|]. intros [[_ Hl] _]. destruct (IH (list_to_set (omap (λ s, match from_str s with inl f => Some f | inr _ => None end) l))) as [_ IH']. by discriminate IH'.
Qed.
End Features.
