(* ===== verification/Gateway.v ===== *)
(** The client of the jet-gateway ([grpc_jet.rs] of [apps/jet/src]): how it
    authenticates and opens a subscription, the loop that serves it, and the loop
    that reconnects. *)
From S2P Require Import Prelude Types RpcRetry Commitment Stake Retry Payload Intake Challenge Features.
From Stdlib Require Import Strings.Byte.
Import Commitment Payload Intake Features.

Module Gateway.

(** ** The protocol *)
Inductive RequestMessage :=
  | ReqPing (id : N) | ReqPong (id : N) | UpdateLimit (messages_per100ms : N) | Init (supported_features : list Z).
(** [SubscribeRequest] and [SubscribeResponse]: their [message]. *)
Abbreviation SubscribeRequest := (option RequestMessage).
Inductive ResponseMessage := RespPing (id : N) | RespPong (id : N) | RespTransaction (t : SubscribeTransaction).
Abbreviation SubscribeResponse := (option ResponseMessage).

Inductive AuthRequest :=
  | BeginAuth (pubkey_to_verify : Pubkey)
  | CompleteAuth (challenge : string) (pubkey_to_verify : Pubkey) (signature : Signature) (nonce : list byte).
Inductive AuthResponse := BeginAuthResp (challenge : string) | CompleteAuthResp (success : bool) (one_time_auth_token : string).

(** ** Authentication *)
Inductive AuthError := Unreachable | CallFailed | UnexpectedResponse | FailedToAuthenticate.

(** [bincode] on a token. *)
Class TokenCodec := {
  serialize_token : Challenge.OneTimeAuthToken → list byte;
  deserialize_token : list byte → option Challenge.OneTimeAuthToken
}.

Section Auth.
Context {K W : Type} `{SG : Signer K} `{TX : TextCodecs} `{TC : TokenCodec}.
(** [client.auth], on a server with a state. *)
Context (auth : AuthRequest → W → (option AuthResponse + unit) * W).

(** [nonce] is the fresh UUID, [connected] whether the endpoint answers. *)
Definition get_jet_gw_subscribe_auth_token (signer : K) (connected : bool) (nonce : list byte) (w : W)
    : Outcome Challenge.OneTimeAuthToken AuthError * W :=
  if negb connected then (Err Unreachable, w)
  else
    let '(resp, w) := auth (BeginAuth (signer_pubkey signer)) w in
    match resp with
    | inr _ => (Err CallFailed, w)
    | inl (Some (BeginAuthResp challenge)) =>
        let signed_challenge := Challenge.append_nonce_and_sign signer (String.list_byte_of_string challenge) nonce in
        let '(resp, w) := auth (CompleteAuth challenge (signer_pubkey signer) signed_challenge nonce) w in
        match resp with
        | inr _ => (Err CallFailed, w)
        | inl (Some (CompleteAuthResp success one_time_auth_token)) =>
            if success : bool then
              match bs58_decode one_time_auth_token with
              | None => (Panic, w)
              | Some otak => match deserialize_token otak with None => (Panic, w) | Some otak => (Ok otak, w) end
              end
            else (Err FailedToAuthenticate, w)
        | inl _ => (Err UnexpectedResponse, w)
        end
    | inl _ => (Err UnexpectedResponse, w)
    end.
End Auth.

(** ** Opening the subscription *)
Section Subscribe.
Context `{HI : HashIter} (features : gset Features.FeatureFlag).

(** The messages before the stream: [open] says whether the server still reads
    them, for each of the two sends. Also returned: whether the server is taken for
    a legacy one. [None] is a failed subscription. *)
Definition handshake (open : bool * bool) : option (list SubscribeRequest * bool) :=
  let '(sent, is_legacy_server) :=
    if Features.is_empty features then ([], true)
    else if open.1 then ([Some (Init (Features.enabled_features features))], false) else ([], true) in
  if open.2 then Some (sent ++ [Some (UpdateLimit 100)], is_legacy_server) else None.

(** The task that forwards what the loop sends, while the server reads it. *)
Fixpoint forward (l : list (SubscribeRequest * bool)) : list SubscribeRequest :=
  match l with
  | [] => []
  | (msg, open) :: l =>
      match msg with
      | Some _ => if open : bool then msg :: forward l else []
      | None => forward l
      end
  end.

(** [grpc_connect]: the results of the endpoints in the order they come; the first
    that succeeds is taken. *)
Fixpoint grpc_connect {A E} (last_err : option E) (results : list (A + E)) : Outcome A E :=
  match results with
  | [] => match last_err with Some e => Err e | None => Panic end
  | inl a :: _ => Ok a
  | inr e :: results => grpc_connect (Some e) results
  end.
End Subscribe.

(** ** The loop over a subscription *)
Definition MAX_SEND_TRANSACTIONS : nat := 10.

(** A spawned [handle_transaction]; what it returned, once it has run. *)
Inductive Task := Spawned (t : SubscribeTransaction) | Finished | Panicked.
(** The tasks (they outlive a connection), what went into the sink, what came from
    the stream, the transactions handled, and the two counters. *)
Record Session := mk_session {
  tasks : list Task; sent : list SubscribeRequest; received : list ResponseMessage;
  handled : list SubscribeTransaction; tx_sink : Sink; successes : nat; errors : nat
}.
#[export] Instance Session_settable : Settable Session := λ r,
  mk_session (tasks r) (sent r) (received r) (handled r) (tx_sink r) (successes r) (errors r).

Inductive StreamError := StreamFinished | ReceiveFailed | NoMessage | SendFailed.
(** How the loop ends: with an error, after which it reconnects, or a panic. *)
Inductive LoopEnd := Disconnected (e : StreamError) | LoopPanic.

(** What the [select!] sees, with whether the sink still takes messages; [Run] is
    the runtime, polling a task. *)
Inductive Event :=
  | LimitTick (stake_info : StakeInfoMapInner) (open : bool)
  | StreamItem (item : option (SubscribeResponse + unit)) (open : bool)
  | JoinNext (i : nat)
  | Run (i : nat).

Section Loop.
Context `{TV : TransactionView} `{TX : TextCodecs} `{LJ : LegacyJson} `{PF : PubkeyFromStr} `{QL : JetStake.QuicLimits}.
Context (my_identity : Pubkey) (configured_max_messages_per100ms : option N).

Definition messages_per100ms (limits : JetStake.ValidatorStakeLimits) : N :=
  match configured_max_messages_per100ms with
  | Some proposed => if (proposed <=? JetStake.per100ms_limit limits)%N then proposed else JetStake.per100ms_limit limits
  | None => JetStake.per100ms_limit limits
  end.
Definition send_message (m : RequestMessage) (open : bool) (s : Session) : option LoopEnd * Session :=
  if open then (None, s <| sent ::= λ l, l ++ [Some m] |>) else (Some (Disconnected SendFailed), s).
Definition on_message (m : ResponseMessage) (open : bool) (s : Session) : option LoopEnd * Session :=
  let s := s <| received ::= λ l, l ++ [m] |> in
  match m with
  | RespPing id => send_message (ReqPong id) open s
  | RespPong _ => (None, s)
  | RespTransaction t => (None, s <| tasks ::= λ l, l ++ [Spawned t] |>)
  end.
(** A task runs to its end: [handle_transaction] does not wait for anything. *)
Definition run_task (t : SubscribeTransaction) (s : Session) : Task * Session :=
  let '(r, sink) := grpc_handle_transaction t (tx_sink s) in
  let s := s <| tx_sink := sink |> <| handled ::= λ l, l ++ [t] |> in
  match r with
  | Ok _ => (Finished, s <| successes ::= S |>)
  | Err _ => (Finished, s <| errors ::= S |>)
  | Panic => (Panicked, s)
  end.
Definition on_event (e : Event) (s : Session) : option LoopEnd * Session :=
  match e with
  | LimitTick stake_info open =>
      match JetStake.get_stake_limits stake_info my_identity with
      | Some limits => send_message (UpdateLimit (messages_per100ms limits)) open s
      | None => (Some LoopPanic, s)
      end
  | StreamItem item open =>
      if decide (length (tasks s) < MAX_SEND_TRANSACTIONS) then
        match item with
        | None => (Some (Disconnected StreamFinished), s)
        | Some (inr _) => (Some (Disconnected ReceiveFailed), s)
        | Some (inl None) => (Some (Disconnected NoMessage), s)
        | Some (inl (Some m)) => on_message m open s
        end
      else (None, s)
  | JoinNext i =>
      match tasks s !! i with
      | Some Finished => (None, s <| tasks ::= delete i |> <| successes ::= S |>)
      | Some Panicked => (Some LoopPanic, s <| tasks ::= delete i |>)
      | _ => (None, s)
      end
  | Run i =>
      match tasks s !! i with
      | Some (Spawned t) => let '(t, s) := run_task t s in (None, s <| tasks ::= <[i := t]> |>)
      | _ => (None, s)
      end
  end.
Fixpoint serve (l : list Event) (s : Session) : option LoopEnd * Session :=
  match l with
  | [] => (None, s)
  | e :: l => match on_event e s with (None, s) => serve l s | r => r end
  end.

(** A subscription, opened and then served: what opens it, and how it ends. The tasks of
    earlier ones are [left]; what is sent, received and counted starts anew. *)
Definition subscription `{HI : HashIter} (features : gset Features.FeatureFlag) (open : bool * bool) (left : list Task)
    (sink : Sink) (l : list Event) : option (list SubscribeRequest * (option LoopEnd * Session)) :=
  '(opening, _) ← handshake features open;
  Some (opening, serve l (mk_session left [] [] [] sink 0 0)).
End Loop.

(** ** The reconnection loop *)
Definition MAX_QUICK_DISCONNECTS : nat := 3.
Record Client := mk_client { backoff : IncrementalBackoff; quick_disconnects : nat; consecutive_failed_connects : N; pauses : list Duration }.
(** A turn of the loop: whether the last connection is more than five seconds old
    at its top, and what becomes of the connection: it fails, with an error that
    mentions features or not, or it ends, within two seconds or not. *)
Inductive Connection := ConnectFailed (mentions_features : bool) | SessionEnded (quick : bool).
Record Turn := mk_turn { long_ago : bool; connection : Connection }.
Inductive GaveUp := TooManyFailures | FeaturesNotSupported | DelayOverflow.

Section Client.
Context (maximum_subscribe_attempts : option N).
Definition max_resubscribe_attempts : N := default (2 ^ 64 - 2)%N maximum_subscribe_attempts.

Definition turn (t : Turn) (c : Client) : Client + GaveUp :=
  match maybe_tick (backoff c) with
  | None => inr DelayOverflow
  | Some (delay, b) =>
      let pauses := pauses c ++ match delay with Some d => [d] | None => [] end in
      let quick := if long_ago t then 0 else quick_disconnects c in
      match connection t with
      | ConnectFailed mentions_features =>
          let failed := (consecutive_failed_connects c + 1)%N in
          if (max_resubscribe_attempts <=? failed)%N then inr TooManyFailures
          else if mentions_features then inr FeaturesNotSupported
          else inl (mk_client (init b) quick failed pauses)
      | SessionEnded quickly =>
          let b := reset b in
          if negb quickly then inl (mk_client b quick 0 pauses)
          else if decide (MAX_QUICK_DISCONNECTS ≤ S quick) then inl (mk_client b 0 0 (pauses ++ [from_millis 5000]))
          else inl (mk_client b (S quick) 0 pauses)
      end
  end.
Fixpoint grpc_subscribe (l : list Turn) (c : Client) : Client + GaveUp :=
  match l with
  | [] => inl c
  | t :: l => match turn t c with inl c => grpc_subscribe l c | inr g => inr g end
  end.
Definition new_client : Client := mk_client default_backoff 0 0 [].
End Client.
(** ** Authentication *)
Section AuthSpec.
Context {K : Type} `{SG : Signer K} `{VF : Verify} `{TX : TextCodecs} `{CC : Challenge.ChallengeCodec} `{TC : TokenCodec}.
Context (challenge_signer : K) (ttl : Duration) (nonce token_nonce : list byte) (created now : N) (instant : Instant).
Context (Htoken : ∀ t, deserialize_token (serialize_token t) = Some t).

(** A server that answers with the challenger of [Challenge]. *)
Definition challenger_auth (r : AuthRequest) (store : Challenge.Store) : (option AuthResponse + unit) * Challenge.Store :=
  match r with
  | BeginAuth k => (inl (Some (BeginAuthResp (Challenge.create_challenge challenge_signer k nonce created))), store)
  | CompleteAuth challenge k signature cnonce =>
      match Challenge.verify_answer challenge_signer ttl k challenge signature cnonce now token_nonce instant store with
      | (Challenge.Accepted token, store) => (inl (Some (CompleteAuthResp true (bs58_encode (serialize_token token)))), store)
      | (Challenge.Rejected _, store) => (inl (Some (CompleteAuthResp false "")), store)
      | (Challenge.VerifyPanic, store) => (inr tt, store)
      end
  end.

(** Against a server that answers with the challenger of this repository, the client gets a
    token for its own key, and the token can be used. *)
Theorem client_authenticates_with_the_challenger `{!Challenge.ChallengeLaws} `{!SignerLaws K} (client : K) cnonce store
    (Htime : (created ≤ now ≤ created / 1000000000 * 1000000000 + ttl)%N)
    (Hfresh : store !! (signer_pubkey client, token_nonce) = None) :
  let '(r, store) := get_jet_gw_subscribe_auth_token challenger_auth client true cnonce store in
  r = Ok (signer_pubkey client, token_nonce) ∧
  (Challenge.use_one_time_auth_token (signer_pubkey client, token_nonce) instant store).1 = true.
Proof using Htoken.
  unfold get_jet_gw_subscribe_auth_token. cbn [negb challenger_auth]. rewrite Challenge.answer_accepted by done.
  rewrite Challenge.challenge_bs58_roundtrip, Htoken. split; [done|]. unfold Challenge.use_one_time_auth_token.
  rewrite (Challenge.claim_live _ _ _ (instant + ttl)%N); [done| |lia].
  apply Challenge.collected_Some; [apply lookup_insert_eq|cbn; lia].
Qed.
End AuthSpec.

(** ** The subscription *)

(** Sending fails only once the server no longer reads, and then for good: the
    second message cannot pass where the first did not. So no server is ever taken
    for a legacy one because it refused the features. *)
Theorem the_fallback_is_never_taken `{HI : HashIter} features open l legacy (Hclosed : open.2 = true → open.1 = true)
    (H : handshake features open = Some (l, legacy)) :
  legacy = Features.is_empty features ∧
  l = (if legacy then [] else [Some (Init (Features.enabled_features features))]) ++ [Some (UpdateLimit 100)].
Proof.
  unfold handshake in H. destruct (Features.is_empty features), open as [[] []]; cbn in *; try discriminate H; simplify_eq; try done.
  by specialize (Hclosed eq_refl).
Qed.

(** The first endpoint that connects is taken; the error is that of the last one; no
    endpoint at all is a panic. *)
Theorem the_first_connection_is_taken {A E} (results : list (A + E)) :
  match grpc_connect None results with
  | Ok a => ∃ l1 l2, results = l1 ++ inl a :: l2 ∧ Forall (λ r, ∃ e, r = inr e) l1
  | Err e => last results = Some (inr e) ∧ Forall (λ r, ∃ e, r = inr e) results
  | Panic => results = []
  end.
Proof.
  enough (∀ o, match grpc_connect o results with
    | Ok a => ∃ l1 l2, results = l1 ++ inl a :: l2 ∧ Forall (λ r, ∃ e, r = inr e) l1
    | Err e => Forall (λ r, ∃ e, r = inr e) results ∧ (last results = Some (inr e) ∨ results = [] ∧ o = Some e)
    | Panic => results = [] ∧ o = None end) as H.
  { specialize (H None). destruct (grpc_connect None results); [done| |by destruct H]. by destruct H as [? [?|[_ ?]]]. }
  induction results as [|[a|e] results IH]; intros o; cbn [grpc_connect].
  - destruct o; [split; [done|by right]|done].
  - by exists [], results.
  - specialize (IH (Some e)). destruct (grpc_connect (Some e) results) as [a|e'|].
    + destruct IH as (l1 & l2 & -> & Hl). exists (inr e :: l1), l2. split; [done|]. constructor; [by eexists|done].
    + destruct IH as [Hl [Hlast|[-> [= ->]]]]; (split; [constructor; [by eexists|done]|left]); [|done].
      destruct results; [done|]. by rewrite last_cons_cons.
    + by destruct IH.
Qed.

(** ** What a subscription sends and handles *)
Definition ping_of (m : ResponseMessage) : option N := match m with RespPing id => Some id | _ => None end.
Definition pong_of (m : SubscribeRequest) : option N := match m with Some (ReqPong id) => Some id | _ => None end.
Definition limit_of (m : SubscribeRequest) : option N := match m with Some (UpdateLimit n) => Some n | _ => None end.
Definition transaction_of (m : ResponseMessage) : option SubscribeTransaction := match m with RespTransaction t => Some t | _ => None end.
Definition spawned (t : Task) : option SubscribeTransaction := match t with Spawned t => Some t | _ => None end.

Section Session.
Context `{TV : TransactionView} `{TX : TextCodecs} `{LJ : LegacyJson} `{PF : PubkeyFromStr} `{QL : JetStake.QuicLimits}.
Context (me : Pubkey) (configured : option N) (queued : list Retry.SendTransactionRequest) (left : list Task).
Abbreviation serve := (serve me configured).
Abbreviation on_event := (on_event me configured).

(** What the limit may be: the configured one, clipped by the stake. *)
Definition allowed_limit (l : list Event) (n : N) : Prop := ∃ stake_info open limits,
  LimitTick stake_info open ∈ l ∧ JetStake.get_stake_limits stake_info me = Some limits ∧
  n = match configured with Some p => N.min p (JetStake.per100ms_limit limits) | None => JetStake.per100ms_limit limits end.

(** The loop's state after the events [past]. *)
Record on_track `{!TransactionLaws} (past : list Event) (s : Session) : Prop := {
  ot_tasks : length (tasks s) ≤ MAX_SEND_TRANSACTIONS;
  ot_limits : Forall (allowed_limit past) (omap limit_of (sent s));
  ot_transactions : omap spawned left ++ omap transaction_of (received s) ≡ₚ handled s ++ omap spawned (tasks s);
  ot_sink : ∃ new, tx_sink s = Some (queued ++ new) ∧ Forall valid_request new ∧ length new + errors s = length (handled s);
  ot_live : Panicked ∉ tasks s
}.

Lemma allowed_limit_mono past past' n : past ⊆ past' → allowed_limit past n → allowed_limit past' n.
Proof. intros Hs (x & o & lim & ? & ?). exists x, o, lim. split; [by apply Hs|done]. Qed.

Lemma on_track_send `{!TransactionLaws} past m open s : on_track past s →
  match m with UpdateLimit n => allowed_limit past n | _ => True end →
  on_track past (send_message m open s).2.
Proof.
  intros [H1 H2 H3 H4 H5] Hm. unfold send_message. destruct open; [|by split]. split; cbn [snd]; upd_simpl; try done.
  rewrite omap_app. apply Forall_app. split; [done|]. destruct m; cbn; by repeat constructor.
Qed.

Lemma on_track_message `{!TransactionLaws} past m open s : on_track past s → length (tasks s) < MAX_SEND_TRANSACTIONS →
  on_track past (on_message m open s).2.
Proof.
  intros [H1 H2 H3 H4 H5] Hlen. assert (∀ id, m = RespPing id ∨ m = RespPong id → on_track past (s <| received ::= λ l, l ++ [m] |>)) as Hother.
  { intros id Hm. split; upd_simpl; try done. rewrite omap_app. destruct Hm as [-> | ->]; cbn; by rewrite app_nil_r. }
  destruct m as [id|id|t]; cbn [on_message snd].
  - apply on_track_send; [|done]. eapply Hother. by left.
  - eapply Hother. by right.
  - split; upd_simpl; try done.
    + rewrite length_app. cbn. lia.
    + rewrite !omap_app, app_assoc, H3. cbn. by rewrite app_assoc.
    + rewrite not_elem_of_app, list_elem_of_singleton. done.
Qed.

Lemma spawned_insert l i t t' : l !! i = Some (Spawned t) → spawned t' = None → t :: omap spawned (<[i := t']> l) ≡ₚ omap spawned l.
Proof.
  intros Hi Ht. rewrite insert_take_drop by (by eapply lookup_lt_Some). rewrite <-(take_drop_middle l i _ Hi) at 3.
  rewrite !omap_app. cbn. rewrite Ht. apply Permutation_middle.
Qed.

Lemma on_track_run `{!TransactionLaws} past i t s : on_track past s → tasks s !! i = Some (Spawned t) →
  on_track past (let '(t, s) := run_task t s in s <| tasks ::= <[i := t]> |>).
Proof.
  intros [H1 H2 H3 (new & H4 & H5 & H6) H7] Hi. unfold run_task. rewrite H4.
  assert (∀ t', t' = Finished → Panicked ∉ <[i := t']> (tasks s)) as Hlive.
  { intros t' -> [j [(_ & [=] & _)|(_ & Hj)]%list_lookup_insert_Some]%list_elem_of_lookup. apply H7. by eapply list_elem_of_lookup_2. }
  pose proof (spawned_insert (tasks s) i t Finished Hi eq_refl) as Hp.
  destruct (grpc_spec t (queued ++ new)) as [(a & req & -> & Hv)|[e ->]]; split; upd_simpl; rewrite ?length_insert; try done; try (by apply Hlive).
  - rewrite H3, <-Hp. rewrite <-app_assoc. done.
  - exists (new ++ [req]). rewrite app_assoc. split; [done|]. rewrite Forall_app, !length_app. cbn. split; [by auto|lia].
  - rewrite H3, <-Hp. rewrite <-app_assoc. done.
  - exists new. split; [done|]. split; [done|]. rewrite length_app. cbn. lia.
Qed.

Lemma on_track_event `{!TransactionLaws} past e s : on_track past s →
  on_track (past ++ [e]) (on_event e s).2 ∧
  ((on_event e s).1 = Some LoopPanic → ∃ stake_info open, e = LimitTick stake_info open ∧ JetStake.get_stake_limits stake_info me = None).
Proof.
  intros Hs. assert (on_track (past ++ [e]) s) as Htr.
  { destruct Hs as [H1 H2 H3 H4 H5]. split; try done. eapply Forall_impl; [exact H2|]. intros n. apply allowed_limit_mono. set_solver. }
  clear Hs. destruct e as [stake_info open|item open|i|i]; cbn [on_event].
  - destruct (JetStake.get_stake_limits stake_info me) as [limits|] eqn:El; [|split; [done|by eauto]].
    split; [|unfold send_message; by destruct open]. apply on_track_send; [done|]. exists stake_info, open, limits.
    split; [set_solver|]. split; [done|]. unfold messages_per100ms. destruct configured as [p|]; [|done].
    destruct (N.leb_spec p (JetStake.per100ms_limit limits)); lia.
  - case_decide as Hlen; [|by split]. destruct item as [[[m|]|]|]; cbn [fst snd]; try (by split).
    split; [by apply on_track_message|]. destruct m; cbn; [unfold send_message; by destruct open|done..].
  - destruct (tasks s !! i) as [[t| |]|] eqn:Ei; cbn [fst snd]; try (by split).
    + split; [|done]. destruct Htr as [H1 H2 H3 H4 H5]. pose proof (delete_Permutation (tasks s) i _ Ei) as Hp.
      split; upd_simpl; try done.
      * pose proof (Permutation_length Hp) as Hl. cbn in Hl. lia.
      * rewrite H3. f_equiv. by rewrite Hp at 1.
      * intros Hin. apply H5. rewrite Hp. by right.
    + exfalso. apply (ot_live _ _ Htr). by eapply list_elem_of_lookup_2.
  - destruct (tasks s !! i) as [[t| |]|] eqn:Ei; try (by split).
    pose proof (on_track_run _ i t s Htr Ei) as Hr. by destruct (run_task t s).
Qed.

(** The pings answered are those received, but for the last one when the server no
    longer reads. *)
Definition answered (r : option LoopEnd) (s : Session) : Prop := ∃ rest,
  omap ping_of (received s) = omap pong_of (sent s) ++ rest ∧ (r ≠ Some (Disconnected SendFailed) → rest = []).

Lemma answered_event e s : answered None s → answered (on_event e s).1 (on_event e s).2.
Proof.
  intros (rest & Hs & Hr). rewrite Hr, app_nil_r in Hs by done. clear rest Hr.
  assert (∀ r, answered r s) as Hsame by (intros r; exists []; by rewrite app_nil_r).
  destruct e as [stake_info open|item open|i|i]; cbn [on_event].
  - destruct (JetStake.get_stake_limits stake_info me); [|apply Hsame]. unfold send_message. destruct open; [|apply Hsame].
    exists []. cbn [fst snd]. upd_simpl. rewrite omap_app. cbn. by rewrite !app_nil_r.
  - case_decide; [|apply Hsame]. destruct item as [[[[id|id|t]|]|]|]; cbn [fst snd on_message]; try apply Hsame.
    + unfold send_message. destruct open; cbn [fst snd].
      * exists []. upd_simpl. rewrite !omap_app, Hs. cbn. by rewrite app_nil_r.
      * exists [id]. upd_simpl. rewrite !omap_app, Hs. by split.
    + exists []. upd_simpl. rewrite !omap_app, Hs. cbn. by rewrite !app_nil_r.
    + exists []. upd_simpl. rewrite !omap_app, Hs. cbn. by rewrite !app_nil_r.
  - destruct (tasks s !! i) as [[t| |]|]; try apply Hsame; exists []; cbn [fst snd]; upd_simpl; by rewrite app_nil_r.
  - destruct (tasks s !! i) as [[t| |]|]; try apply Hsame. unfold run_task.
    destruct (grpc_handle_transaction t (tx_sink s)) as [[] sink]; exists []; cbn [fst snd]; upd_simpl; by rewrite app_nil_r.
Qed.

Lemma serve_on_track `{!TransactionLaws} past l s : on_track past s → answered None s →
  on_track (past ++ l) (serve l s).2 ∧ answered (serve l s).1 (serve l s).2 ∧
  ((serve l s).1 = Some LoopPanic → ∃ stake_info open, LimitTick stake_info open ∈ l ∧ JetStake.get_stake_limits stake_info me = None).
Proof.
  revert past s. induction l as [|e l IH]; intros past s Htr Ha; [rewrite app_nil_r; by split_and!|]. cbn [serve].
  pose proof (on_track_event past e s Htr) as [Ht Hp]. pose proof (answered_event e s Ha) as Ha'.
  destruct (on_event e s) as [[r|] s']; cbn [fst snd] in *.
  - split_and!; [|done|intros E; destruct (Hp E) as (x & o & -> & ?); exists x, o; set_solver].
    destruct Ht as [H1 H2 H3 H4 H5]. split; try done. eapply Forall_impl; [exact H2|]. intros n. apply allowed_limit_mono. set_solver.
  - destruct (IH (past ++ [e]) s' Ht Ha') as (I1 & I2 & I3). rewrite <-app_assoc in I1. split_and!; [done|done|].
    intros E. destruct (I3 E) as (x & o & ? & ?). exists x, o. set_solver.
Qed.

Lemma opening_limit `{HI : HashIter} features open opening legacy : handshake features open = Some (opening, legacy) →
  omap limit_of opening = [100%N].
Proof.
  unfold handshake. destruct (Features.is_empty features), open as [[] []]; cbn; intros Eo; by simplify_eq.
Qed.

(** C36: A gateway subscription, from its opening messages on and with the tasks earlier
    ones left behind (at most ten, none panicked), while the transaction sink stays open:
    it opens with the fixed limit of 100, and every limit it announces after that is the
    configured one clipped by the stake. Over any events at most ten tasks are in hand;
    each transaction received or left behind is handled once or still pending; the sink
    gets one valid request per transaction handled without error; pings are answered in
    order; and only a failing stake computation panics. (With the sink closed a transaction
    can panic too: closed_sink_panics.) *)
Theorem subscription_serves_the_stream `{HI : HashIter} `{!TransactionLaws} features open l opening r s
  (Hrun : subscription me configured features open left (Some queued) l = Some (opening, (r, s)))
  (Hleft : length left ≤ MAX_SEND_TRANSACTIONS ∧ Panicked ∉ left) :
  omap limit_of opening = [100%N] ∧
  Forall (allowed_limit l) (omap limit_of (sent s)) ∧
  length (tasks s) ≤ MAX_SEND_TRANSACTIONS ∧ Panicked ∉ tasks s ∧
  omap spawned left ++ omap transaction_of (received s) ≡ₚ handled s ++ omap spawned (tasks s) ∧
  (∃ new, tx_sink s = Some (queued ++ new) ∧ Forall valid_request new ∧ length new + errors s = length (handled s)) ∧
  (∃ rest, omap ping_of (received s) = omap pong_of (sent s) ++ rest ∧ (r ≠ Some (Disconnected SendFailed) → rest = [])) ∧
  (r = Some LoopPanic → ∃ stake_info open, LimitTick stake_info open ∈ l ∧ JetStake.get_stake_limits stake_info me = None).
Proof.
  unfold subscription in Hrun. destruct (handshake features open) as [[o legacy]|] eqn:Eh; [|done]. injection Hrun as -> Hrun.
  destruct (serve_on_track [] l (mk_session left [] [] [] (Some queued) 0 0)) as (H1 & H2 & H3).
  - split; cbn; [apply Hleft|done|by rewrite app_nil_r| |apply Hleft]. exists []. by rewrite app_nil_r.
  - by exists [].
  - rewrite Hrun in H1, H2, H3. cbn [fst snd app] in *. destruct H1. split_and!; try done. by eapply opening_limit.
Qed.
End Session.

(** ** When the client gives up *)
Definition failed (t : Turn) : Prop := match connection t with ConnectFailed _ => True | SessionEnded _ => False end.
#[export] Instance failed_dec t : Decision (failed t).
Proof. unfold failed. destruct (connection t); apply _. Defined.
Definition blames_features (t : Turn) : Prop := connection t = ConnectFailed true.
(** How many turns at the end of a history failed. *)
Definition trailing (l : list Turn) : nat := foldl (λ n t, if decide (failed t) then S n else 0) 0 l.

Lemma trailing_snoc l t : trailing (l ++ [t]) = if decide (failed t) then S (trailing l) else 0.
Proof. unfold trailing. by rewrite foldl_app. Qed.
Lemma trailing_max l1 l2 : Forall failed l2 → length l2 ≤ trailing (l1 ++ l2).
Proof.
  induction l2 as [|t l2 IH] using rev_ind; intros Hl; [cbn; lia|]. apply Forall_app in Hl as [Hl Ht]. rewrite Forall_singleton in Ht.
  rewrite app_assoc, trailing_snoc, decide_True, length_app by done. cbn. specialize (IH Hl). lia.
Qed.
Lemma trailing_run l : ∃ l1 l2, l = l1 ++ l2 ∧ Forall failed l2 ∧ length l2 = trailing l.
Proof.
  induction l as [|t l (l1 & l2 & -> & Hl & Hlen)] using rev_ind; [by exists [], []|].
  rewrite trailing_snoc. destruct (decide (failed t)) as [Ht|Ht].
  - exists l1, (l2 ++ [t]). rewrite app_assoc, length_app, Hlen. cbn. split_and!; [done|apply Forall_app; by auto|lia].
  - exists ((l1 ++ l2) ++ [t]), []. by rewrite app_nil_r.
Qed.

Section GiveUp.
Context (attempts : option N) (Hattempts : (1 ≤ max_resubscribe_attempts attempts)%N).

Lemma subscribe_snoc l t c : grpc_subscribe attempts (l ++ [t]) c =
  match grpc_subscribe attempts l c with inl c => turn attempts t c | inr g => inr g end.
Proof.
  revert c. induction l as [|t' l IH]; intros c; cbn [grpc_subscribe app]; [by destruct (turn attempts t c)|].
  by destruct (turn attempts t' c).
Qed.

Record keeps_trying (l : list Turn) (c : Client) : Prop := {
  kt_interval : initial_interval (backoff c) = from_millis 250;
  kt_failed : consecutive_failed_connects c = N.of_nat (trailing l);
  kt_windows : ∀ l1 l2 l3, l = l1 ++ l2 ++ l3 → Forall failed l2 → (N.of_nat (length l2) < max_resubscribe_attempts attempts)%N;
  kt_features : Forall (λ t, ¬ blames_features t) l
}.

Lemma turn_keeps l t c : keeps_trying l c →
  match turn attempts t c with
  | inl c' => keeps_trying (l ++ [t]) c'
  | inr TooManyFailures => max_resubscribe_attempts attempts = N.of_nat (trailing (l ++ [t]))
  | inr FeaturesNotSupported => blames_features t
  | inr DelayOverflow => False
  end.
Proof using Hattempts.
  intros [H1 H2 H3 H4]. unfold turn.
  destruct (maybe_tick_total (backoff c)) as [[delay b] Eb]; [rewrite H1; by vm_compute|]. rewrite Eb.
  assert (initial_interval b = from_millis 250) as Hb.
  { revert Eb. unfold maybe_tick. destruct (retries _); [|by intros [= <- <-]]. destruct (_ <? _)%N; [done|]. by intros [= <- <-]. }
  assert (∀ n, trailing (l ++ [t]) = n → (N.of_nat n < max_resubscribe_attempts attempts)%N →
    ∀ l1 l2 l3, l ++ [t] = l1 ++ l2 ++ l3 → Forall failed l2 → (N.of_nat (length l2) < max_resubscribe_attempts attempts)%N) as Hwin.
  { intros n Hn Hlt l1 l2 l3 El Hl. destruct l3 as [|t' l3 _] using rev_ind.
    - rewrite app_nil_r in El. pose proof (trailing_max l1 l2 Hl) as Hm. rewrite <-El, Hn in Hm. lia.
    - rewrite !app_assoc in El. apply app_inj_tail in El as [-> _]. eapply H3; [|exact Hl]. by rewrite app_assoc. }
  destruct (connection t) as [mentions|quick] eqn:Ec.
  - assert (failed t) as Hf by (unfold failed; by rewrite Ec).
    assert (trailing (l ++ [t]) = S (trailing l)) as Ht by (rewrite trailing_snoc; by rewrite decide_True).
    rewrite H2. destruct (N.leb_spec (max_resubscribe_attempts attempts) (N.of_nat (trailing l) + 1)) as [Hle|Hlt].
    + rewrite Ht. destruct (trailing_run l) as (l1 & l2 & E & Hl & Hlen). specialize (H3 l1 l2 []). rewrite app_nil_r, Hlen in H3.
      specialize (H3 E Hl). lia.
    + destruct mentions; [done|]. split; cbn [backoff consecutive_failed_connects]; [done|rewrite Ht; lia| |].
      * apply (Hwin _ Ht). lia.
      * apply Forall_app. split; [done|]. apply Forall_singleton. unfold blames_features. by rewrite Ec.
  - assert (¬ failed t) as Hf by (unfold failed; rewrite Ec; auto).
    assert (trailing (l ++ [t]) = 0) as Ht by (rewrite trailing_snoc; by rewrite decide_False).
    assert (∀ c', backoff c' = reset b → consecutive_failed_connects c' = 0%N → keeps_trying (l ++ [t]) c') as Hk.
    { intros c' Hc1 Hc2. split; [by rewrite Hc1|by rewrite Hc2, Ht|apply (Hwin _ Ht); lia|].
      apply Forall_app. split; [done|]. apply Forall_singleton. unfold blames_features. by rewrite Ec. }
    destruct (negb quick); [by apply Hk|]. case_decide; by apply Hk.
Qed.

(** The reconnection loop panics at the last of the configured number of consecutive
    failures, or at an error that mentions features, and for no other reason; otherwise it
    counts the failures since the last connection. *)
Theorem client_gives_up_after_the_last_attempt l :
  match grpc_subscribe attempts l new_client with
  | inl c => consecutive_failed_connects c = N.of_nat (trailing l) ∧ Forall (λ t, ¬ blames_features t) l ∧
      ∀ l1 l2 l3, l = l1 ++ l2 ++ l3 → Forall failed l2 → (N.of_nat (length l2) < max_resubscribe_attempts attempts)%N
  | inr TooManyFailures => ∃ l1 l2 l3, l = l1 ++ l2 ++ l3 ∧ Forall failed l2 ∧ N.of_nat (length l2) = max_resubscribe_attempts attempts
  | inr FeaturesNotSupported => Exists blames_features l
  | inr DelayOverflow => False
  end.
Proof using Hattempts.
  enough (match grpc_subscribe attempts l new_client with
    | inl c => keeps_trying l c
    | inr TooManyFailures => ∃ l1 l2 l3, l = l1 ++ l2 ++ l3 ∧ Forall failed l2 ∧ N.of_nat (length l2) = max_resubscribe_attempts attempts
    | inr FeaturesNotSupported => Exists blames_features l
    | inr DelayOverflow => False end) as H.
  { destruct (grpc_subscribe _ _ _) as [c|[]]; try done. by destruct H. }
  induction l as [|t l IH] using rev_ind.
  - split; cbn; [done|done| |done]. intros l1 l2 l3 E _. symmetry in E. apply app_nil in E as [_ [-> _]%app_nil]. cbn. lia.
  - rewrite subscribe_snoc. destruct (grpc_subscribe attempts l new_client) as [c|[]].
    + pose proof (turn_keeps l t c IH) as Ht. destruct (turn attempts t c) as [c'|[]]; [done| | |done].
      * destruct (trailing_run (l ++ [t])) as (l1 & l2 & E & Hl & Hlen). exists l1, l2, []. rewrite app_nil_r. split_and!; [done|done|congruence].
      * apply Exists_app. right. by constructor.
    + destruct IH as (l1 & l2 & l3 & -> & ? & ?). exists l1, l2, (l3 ++ [t]). by rewrite <-!app_assoc.
    + apply Exists_app. by left.
    + done.
Qed.
End GiveUp.

(** ** Concrete runs *)
Section Demo.
#[local] Existing Instances Payload.demo_codec Payload.demo_text Payload.demo_parse Payload.demo_json Intake.demo_view Intake.demo_tx_laws
  Challenge.demo_signer Challenge.demo_verify Challenge.demo_signer_laws Challenge.demo_challenge_codec Challenge.demo_challenge_laws
  Stake.demo_limits.
#[local] Instance demo_token_codec : TokenCodec := {|
  serialize_token t := Challenge.put_N t.1 t.2; deserialize_token b := Challenge.get_N 0 b |}.
Lemma demo_token_roundtrip t : deserialize_token (serialize_token t) = Some t.
Proof. destruct t as [k n]. cbn [deserialize_token serialize_token demo_token_codec fst snd]. by rewrite Challenge.get_put. Qed.

Lemma client_authenticates_with_the_challenger_witness :
  (get_jet_gw_subscribe_auth_token (challenger_auth 7%N (from_secs 60) [x01] [x09] 2500000000 4000000000 10) 3%N true [x02] ∅).1 =
  Ok (3%N, [x09]).
Proof.
  pose proof (client_authenticates_with_the_challenger 7%N (from_secs 60) [x01] [x09] 2500000000 4000000000 10 demo_token_roundtrip 3%N [x02] ∅
    ltac:(split; intros E; discriminate E) eq_refl) as H.
  destruct (get_jet_gw_subscribe_auth_token _ _ _ _ _) as [r store]. exact (proj1 H).
Defined.

Definition demo_transaction (b : list byte) : SubscribeTransaction :=
  mk_subscribe (Some (PNewPayload (mk_wrapper b (Some (mk_proto_config None [] true)) None))).
(** A ping, two transactions (the second is empty), and a ping at the end that the
    server does not see answered. *)
Definition demo_events : list Event :=
  [LimitTick (mk_inner ∅ 0) true; StreamItem (Some (inl (Some (RespPing 4)))) true;
   StreamItem (Some (inl (Some (RespTransaction (demo_transaction [x01]))))) true;
   StreamItem (Some (inl (Some (RespTransaction (demo_transaction []))))) true; Run 0; Run 1; JoinNext 0; JoinNext 0;
   StreamItem (Some (inl (Some (RespPing 5)))) false].

#[local] Existing Instance elements_iter.
Lemma subscription_serves_the_stream_witness : ∃ opening s,
  subscription 3 (Some 100%N) ∅ (true, true) [Spawned (demo_transaction [x02])] (Some []) demo_events =
    Some (opening, (Some (Disconnected SendFailed), s)) ∧
  omap limit_of opening = [100%N] ∧ length (tasks s) ≤ MAX_SEND_TRANSACTIONS.
Proof.
  destruct (subscription 3 (Some 100%N) ∅ (true, true) [Spawned (demo_transaction [x02])] (Some []) demo_events)
    as [[opening [r s]]|] eqn:E; [|vm_compute in E; discriminate E].
  assert ((λ x, x.2.1) <$> subscription 3 (Some 100%N) ∅ (true, true) [Spawned (demo_transaction [x02])] (Some []) demo_events =
    Some (Some (Disconnected SendFailed))) as Hr by (vm_compute; reflexivity).
  rewrite E in Hr. injection Hr as Hr. cbn in Hr.
  subst r. exists opening, s. split; [reflexivity|].
  destruct (subscription_serves_the_stream 3 (Some 100%N) [] [Spawned (demo_transaction [x02])] ∅ (true, true) demo_events opening
    (Some (Disconnected SendFailed)) s E) as (H1 & _ & H2 & _).
  - split; [apply (bool_decide_unpack _); vm_compute; exact I|]. intros Hin. apply list_elem_of_singleton in Hin. discriminate Hin.
  - split; [exact H1|exact H2].
Defined.

(** The scheduler's end of the sink is gone: the next transaction panics the client. *)
Theorem closed_sink_panics :
  let transaction := StreamItem (Some (inl (Some (RespTransaction (demo_transaction [x01]))))) true in
  (serve 3 None [transaction; Run 0; JoinNext 0] (mk_session [] [] [] [] None 0 0)).1 = Some LoopPanic.
Proof. vm_compute. reflexivity. Qed.

(** A transaction that was refused is also counted as a success, and one that was
    accepted twice: joining a task counts it again, and its result is always [Ok]. *)
Example joined_tasks_are_counted_again :
  let s := (serve 3 None (take 8 demo_events) (mk_session [] [] [] [] (Some []) 0 0)).2 in
  (length <$> tx_sink s = Some 1) ∧ successes s = 3 ∧ errors s = 1.
Proof. vm_compute. split_and!; reflexivity. Qed.

Definition demo_turns : list Turn :=
  [mk_turn false (ConnectFailed false); mk_turn false (SessionEnded true); mk_turn false (ConnectFailed false); mk_turn true (ConnectFailed false)].
Lemma client_gives_up_after_the_last_attempt_witness :
  grpc_subscribe (Some 2%N) demo_turns new_client = inr TooManyFailures ∧
  ∃ l1 l2 l3, demo_turns = l1 ++ l2 ++ l3 ∧ Forall failed l2 ∧ N.of_nat (length l2) = 2%N.
Proof.
  split; [vm_compute; reflexivity|].
  exact (client_gives_up_after_the_last_attempt (Some 2%N) ltac:(intros E; discriminate E) demo_turns).
Defined.
End Demo.
End Gateway.
