(* ===== verification/DriverInv.v ===== *)
(** The structural invariant of the driver: what ties its maps together.  It is
    stated on the maps themselves, one predicate per group, so that each
    handler's obligations are lemmas about finite maps. *)
From S2P Require Import Prelude Types StakedSet OrphanSet EvictionSet Eviction Runtime Worker Driver.
Import Driver.

(** ** Deleting several keys *)
Lemma lookup_delete_all {A} (l : list N) (m : gmap N A) k :
  foldl (λ m p, delete p m) m l !! k = if decide (k ∈ l) then None else m !! k.
Proof.
  revert m. induction l as [|p l IH]; intros m; cbn.
  - rewrite decide_False; [done|]. apply not_elem_of_nil.
  - rewrite IH. destruct (decide (k ∈ l)) as [Hk|Hk].
    + rewrite decide_True; [done|by right].
    + destruct (decide (k = p)) as [->|Hp].
      * rewrite lookup_delete_eq, decide_True; [done|by left].
      * rewrite lookup_delete_ne by done. rewrite decide_False; [done|].
        rewrite elem_of_cons. tauto.
Qed.

(** ** Connection attempts

    A task, its metadata, the peers multiplexed on it and its address are in
    one-to-one correspondence. *)
Record connecting_inv (tasks : gmap N ConnectingTask) (metas : gmap N ConnectingMeta)
    (peers addrs : gmap N N) (next ident : N) : Prop := {
  ci_task : ∀ id, is_Some (tasks !! id) ↔ is_Some (metas !! id);
  ci_fresh : ∀ id, is_Some (metas !! id) → (id < next)%N;
  ci_peer : ∀ p id, peers !! p = Some id ↔
    ∃ m, metas !! id = Some m ∧ p ∈ multiplexed_remote_peer_identity_vec m;
  ci_addr : ∀ a id, addrs !! a = Some id ↔
    ∃ m, metas !! id = Some m ∧ remote_peer_address m = a;
  ci_vec : ∀ id m, metas !! id = Some m →
    NoDup (multiplexed_remote_peer_identity_vec m) ∧ multiplexed_remote_peer_identity_vec m ≠ [];
  ci_ident : ∀ id m, metas !! id = Some m → current_client_identity m = ident
}.

Section Connecting.
Context (tasks : gmap N ConnectingTask) (metas : gmap N ConnectingMeta)
        (peers addrs : gmap N N) (next ident : N).
Hypothesis Hinv : connecting_inv tasks metas peers addrs next ident.

Lemma connecting_next next' : (next ≤ next')%N →
  connecting_inv tasks metas peers addrs next' ident.
Proof.
  intros Hle. destruct Hinv as [H1 H2 H3 H4 H5 H6]. split; try done.
  intros id Hid. apply H2 in Hid. lia.
Qed.

(** Forgetting the task [id]. *)
Lemma connecting_forget id m : metas !! id = Some m →
  connecting_inv (delete id tasks) (delete id metas)
    (foldl (λ m p, delete p m) peers (multiplexed_remote_peer_identity_vec m))
    (delete (remote_peer_address m) addrs) next ident.
Proof.
  intros Hm. destruct Hinv as [H1 H2 H3 H4 H5 H6]. split.
  - intros i. rewrite !lookup_delete. case_decide; [|done]. by rewrite !is_Some_alt.
  - intros i. rewrite lookup_delete_is_Some. naive_solver.
  - intros p i. rewrite lookup_delete_all. setoid_rewrite lookup_delete_Some.
    case_decide as Hp.
    + split; [done|]. intros (m' & (Hne & Hm') & Hin).
      assert (peers !! p = Some i) by (apply H3; eauto).
      assert (peers !! p = Some id) by (apply H3; eauto). congruence.
    + rewrite H3. naive_solver.
  - intros a i. rewrite lookup_delete_Some. setoid_rewrite lookup_delete_Some. rewrite H4.
    split; [naive_solver|]. intros (m' & (Hne & Hm') & <-). split; [|eauto].
    intros Ha. assert (addrs !! remote_peer_address m' = Some i) by (apply H4; eauto).
    assert (addrs !! remote_peer_address m' = Some id) by (apply H4; rewrite <-Ha; eauto).
    congruence.
  - intros i m' [_ Hm']%lookup_delete_Some. eauto.
  - intros i m' [_ Hm']%lookup_delete_Some. eauto.
Qed.

(** A peer joins an attempt already in flight to its address. *)
Lemma connecting_join id m p : metas !! id = Some m → peers !! p = None →
  connecting_inv tasks (<[id := push_peer p m]> metas) (<[p := id]> peers) addrs next ident.
Proof.
  intros Hm Hp. destruct Hinv as [H1 H2 H3 H4 H5 H6]. split.
  - intros i. rewrite H1. destruct (decide (i = id)) as [->|Hi].
    + rewrite lookup_insert_eq, Hm. split; eauto.
    + by rewrite lookup_insert_ne.
  - intros i. destruct (decide (i = id)) as [->|Hi]; [eauto|]. rewrite lookup_insert_ne by done. eauto.
  - intros q i. rewrite lookup_insert_Some, H3. setoid_rewrite lookup_insert_Some. split.
    + intros [[-> ->]|(Hq & m' & Hm' & Hin)].
      * eexists. split; [by left|]. cbn. set_solver.
      * destruct (decide (i = id)) as [->|Hi]; [|by exists m'; split; [right|]].
        exists (push_peer p m). split; [by left|]. cbn. assert (m' = m) as -> by congruence. set_solver.
    + intros (m' & [[<- <-]|[Hi Hm']] & Hin).
      * cbn in Hin. apply elem_of_app in Hin as [Hin|Hin%list_elem_of_singleton].
        -- right. split; [|eauto]. intros ->. assert (peers !! q = Some id) by (apply H3; eauto). congruence.
        -- subst. by left.
      * right. split; [|eauto]. intros ->. assert (peers !! q = Some i) by (apply H3; eauto). congruence.
  - intros a i. rewrite H4. destruct (decide (i = id)) as [->|Hi].
    + rewrite lookup_insert_eq, Hm. naive_solver.
    + by rewrite lookup_insert_ne.
  - intros i m' [[<- <-]|[Hi Hm']]%lookup_insert_Some; [|eauto]. cbn.
    destruct (H5 id m Hm) as [Hnd Hne]. split; [|by destruct (multiplexed_remote_peer_identity_vec m)].
    apply NoDup_app. split_and!; [done| |apply NoDup_singleton].
    intros q Hq ->%list_elem_of_singleton. assert (peers !! p = Some id) by (apply H3; eauto). congruence.
  - intros i m' [[<- <-]|[Hi Hm']]%lookup_insert_Some; [|eauto]. cbn. eauto.
Qed.

(** A new attempt, to an address without one. *)
Lemma connecting_spawn p a n task : peers !! p = None → addrs !! a = None →
  connecting_inv (<[next := task]> tasks)
    (<[next := {| current_client_identity := ident;
                  multiplexed_remote_peer_identity_vec := [p];
                  remote_peer_address := a; connection_attempt := n |}]> metas)
    (<[p := next]> peers) (<[a := next]> addrs) (N.succ next) ident.
Proof.
  intros Hp Ha. destruct Hinv as [H1 H2 H3 H4 H5 H6].
  assert (metas !! next = None) as Hnext.
  { destruct (metas !! next) eqn:E; [|done]. assert (next < next)%N by (apply H2; eauto). lia. }
  split.
  - intros i. destruct (decide (i = next)) as [->|Hi].
    + rewrite !lookup_insert_eq. split; eauto.
    + by rewrite !lookup_insert_ne.
  - intros i. destruct (decide (i = next)) as [->|Hi]; [lia|].
    rewrite lookup_insert_ne by done. intros Hi'%H2. lia.
  - intros q i. rewrite lookup_insert_Some, H3. setoid_rewrite lookup_insert_Some. split.
    + intros [[-> ->]|(Hq & m' & Hm' & Hin)].
      * eexists. split; [by left|]. cbn. set_solver.
      * exists m'. split; [|done]. right. split; [|done]. congruence.
    + intros (m' & [[<- <-]|[Hi Hm']] & Hin).
      * cbn in Hin. apply list_elem_of_singleton in Hin. subst. by left.
      * right. split; [|eauto]. intros ->. assert (peers !! q = Some i) by (apply H3; eauto). congruence.
  - intros b i. rewrite lookup_insert_Some, H4. setoid_rewrite lookup_insert_Some. split.
    + intros [[-> ->]|(Hb & m' & Hm' & Hin)].
      * eexists. split; [by left|]. done.
      * exists m'. split; [|done]. right. split; [|done]. congruence.
    + intros (m' & [[<- <-]|[Hi Hm']] & Hin).
      * cbn in Hin. subst. by left.
      * right. split; [|eauto]. intros ->.
        assert (addrs !! b = Some i) by (apply H4; eauto). congruence.
  - intros i m' [[<- <-]|[Hi Hm']]%lookup_insert_Some; [|eauto]. cbn.
    split; [apply NoDup_singleton|done].
  - intros i m' [[<- <-]|[Hi Hm']]%lookup_insert_Some; [|eauto]. done.
Qed.
End Connecting.

(** ** Workers

    A worker task, its metadata and its handle: each handle belongs to one
    task, which serves the same peer, address, channel and notification. *)
Record work_inv {RO : ResponseOutlet} (handles : gmap N TxWorkerSenderHandle) (metas : gmap N N)
    (workers : gmap N Worker.QuicTxSenderWorker) (chans : gset N) (next ident : N) : Prop := {
  wi_task : ∀ id, is_Some (workers !! id) ↔ is_Some (metas !! id);
  wi_fresh : ∀ id, is_Some (metas !! id) → (id < next)%N;
  wi_inj : ∀ id id' p, metas !! id = Some p → metas !! id' = Some p → id = id';
  wi_meta : ∀ id p, metas !! id = Some p → ∃ h w, handles !! p = Some h ∧ workers !! id = Some w ∧
    Worker.remote_peer w = p ∧ Worker.remote_peer_addr w = h_remote_peer_addr h ∧
    Worker.incoming_rx w = sender h ∧ Worker.cancel_notify w = h_cancel_notify h ∧
    Worker.current_client_identity w = ident;
  wi_handle : ∀ p h, handles !! p = Some h →
    (∃ id, metas !! id = Some p) ∧ (h_cancel_notify h < next)%N;
  wi_chan : ∀ c, c ∈ chans → (c < next)%N;
  wi_outlet : ∀ id w, workers !! id = Some w → Worker.output_tx w = response_outlet
}.

Section Work.
Context {RO : ResponseOutlet} (handles : gmap N TxWorkerSenderHandle) (metas : gmap N N)
        (workers : gmap N Worker.QuicTxSenderWorker) (chans : gset N) (next ident : N).
Hypothesis Hinv : work_inv handles metas workers chans next ident.

Lemma work_next next' chans' : (next ≤ next')%N → (∀ c, c ∈ chans' → c ∈ chans ∨ (c < next')%N) →
  work_inv handles metas workers chans' next' ident.
Proof.
  intros Hle Hch. destruct Hinv as [H1 H2 H3 H4 H5 H6 H7]. split; try done.
  - intros id Hid. apply H2 in Hid. lia.
  - intros p h Hp. apply H5 in Hp as [? ?]. split; [done|lia].
  - intros c [Hc%H6|Hc]%Hch; lia.
Qed.

Lemma work_forget id p : metas !! id = Some p →
  work_inv (delete p handles) (delete id metas) (delete id workers) chans next ident.
Proof.
  intros Hm. destruct Hinv as [H1 H2 H3 H4 H5 H6 H7]. split; try done.
  - intros i. rewrite !lookup_delete. case_decide; [|done]. by rewrite !is_Some_alt.
  - intros i [_ Hi]%lookup_delete_is_Some. eauto.
  - intros i i' q [_ ?]%lookup_delete_Some [_ ?]%lookup_delete_Some. eauto.
  - intros i q [Hi Hq]%lookup_delete_Some. destruct (H4 i q Hq) as (h & w & Hh & Hw & Hrest).
    exists h, w. rewrite !lookup_delete_ne; [done|done|]. intros ->. by apply Hi, (H3 _ _ q).
  - intros q h [Hq Hh]%lookup_delete_Some. destruct (H5 q h Hh) as [(i & Hi) ?]. split; [|done].
    exists i. rewrite lookup_delete_ne; [done|]. intros ->. congruence.
  - intros i w [_ ?]%lookup_delete_Some. eauto.
Qed.

Lemma work_install p chan cancel task h w :
  handles !! p = None → (next ≤ chan < next + 3)%N → (next ≤ cancel < next + 3)%N →
  (next ≤ task < next + 3)%N →
  Worker.remote_peer w = p → Worker.remote_peer_addr w = h_remote_peer_addr h →
  Worker.incoming_rx w = sender h → Worker.cancel_notify w = h_cancel_notify h →
  Worker.current_client_identity w = ident → h_cancel_notify h = cancel → Worker.output_tx w = response_outlet →
  work_inv (<[p := h]> handles) (<[task := p]> metas) (<[task := w]> workers)
    ({[chan]} ∪ chans) (next + 3)%N ident.
Proof.
  intros Hp Hchan Hcancel Htask W1 W2 W3 W4 W5 W6 W7.
  destruct Hinv as [H1 H2 H3 H4 H5 H6 H7].
  assert (metas !! task = None) as Hnew.
  { destruct (metas !! task) eqn:E; [|done]. assert (task < next)%N by eauto. lia. }
  assert (∀ i, metas !! i ≠ Some p) as Hnp.
  { intros i (h' & w' & Hh' & _)%H4. congruence. }
  split.
  - intros i. destruct (decide (i = task)) as [->|]; [rewrite !lookup_insert_eq; split; eauto|].
    by rewrite !lookup_insert_ne.
  - intros i. rewrite lookup_insert_is_Some. intros [->|[_ Hi%H2]]; lia.
  - intros i i' q [[<- <-]|[? ?]]%lookup_insert_Some [[<- ?]|[? ?]]%lookup_insert_Some;
      subst; naive_solver.
  - intros i q [[<- <-]|[Hi Hq]]%lookup_insert_Some.
    + exists h, w. by rewrite !lookup_insert_eq.
    + destruct (H4 i q Hq) as (h' & w' & Hh' & Hw' & Hrest). exists h', w'.
      rewrite !lookup_insert_ne; [done|done|]. intros ->. congruence.
  - intros q h' [[<- <-]|[Hq Hh']]%lookup_insert_Some.
    + split; [exists task; by rewrite lookup_insert_eq|lia].
    + destruct (H5 q h' Hh') as [(i & Hi) ?]. split; [|lia]. exists i.
      rewrite lookup_insert_ne; [done|]. intros ->. congruence.
  - intros c [->%elem_of_singleton|Hc%H6]%elem_of_union; lia.
  - intros i w' [[_ <-]|[_ ?]]%lookup_insert_Some; eauto.
Qed.
End Work.

(** ** Connections

    [X]: the addresses of connections that are, for the moment, neither used
    nor in the orphan set. *)
Record link_inv (X : gset N) (handles : gmap N TxWorkerSenderHandle)
    (conns : gmap N ActiveConnection) (pend : EvictionSet.ConnectionEvictionSet)
    (orphans : OrphanSet.OrphanConnectionSet) (staked staked_addr : StakedSet.StakedSortedSet N)
    : Prop := {
  li_addr : ∀ a c, conns !! a = Some c → Conn.remote_peer_addr c = a;
  li_handle : ∀ p h, handles !! p = Some h → ∃ c, conns !! h_remote_peer_addr h = Some c ∧
    Conn.connection_version c = h_connection_version h ∧
    is_Some (multiplexed_remote_peer_identity_with_stake c !! p);
  li_orphan : ∀ a v t, OrphanSet.member orphans a v t → ∃ c, conns !! a = Some c ∧
    Conn.connection_version c = v ∧ multiplexed_remote_peer_identity_with_stake c = ∅;
  li_idle : ∀ a c, conns !! a = Some c → multiplexed_remote_peer_identity_with_stake c = ∅ →
    a ∉ X → ∃ t, OrphanSet.member orphans a (Conn.connection_version c) t;
  li_pend : ∀ a v, EvictionSet.Evict a v ∈ EvictionSet.set pend → ∃ c, conns !! a = Some c ∧
    Conn.connection_version c = v ∧ multiplexed_remote_peer_identity_with_stake c ≠ ∅;
  li_stake : ∀ a c, conns !! a = Some c → a ∉ X →
    StakedSet.peer_stake_map staked_addr !! a =
      Some (group_stake (multiplexed_remote_peer_identity_with_stake c));
  li_staked : ∀ p, is_Some (handles !! p) → is_Some (StakedSet.peer_stake_map staked !! p);
  li_pend_wf : EvictionSet.wf pend;
  li_orphan_wf : OrphanSet.wf orphans;
  li_staked_wf : StakedSet.wf staked;
  li_staked_addr_wf : StakedSet.wf staked_addr
}.

Section Link.
Context (X : gset N) (handles : gmap N TxWorkerSenderHandle) (conns : gmap N ActiveConnection)
        (pend : EvictionSet.ConnectionEvictionSet) (orphans : OrphanSet.OrphanConnectionSet)
        (staked staked_addr : StakedSet.StakedSortedSet N).
Hypothesis Hinv : link_inv X handles conns pend orphans staked staked_addr.

Lemma link_connect a conn v : conns !! a = None →
  link_inv ({[a]} ∪ X) handles (<[a := Conn.mk a conn v ∅]> conns) pend orphans staked staked_addr.
Proof.
  intros Ha. destruct Hinv as [H1 H2 H3 H4 H5 H6 H7 H8 H9 H10 H11]. split; try done.
  - intros b c [[<- <-]|[_ ?]]%lookup_insert_Some; eauto.
  - intros p h (c & Hc & Hrest)%H2. exists c. rewrite lookup_insert_ne; [done|]. congruence.
  - intros b w t (c & Hc & Hrest)%H3. exists c. rewrite lookup_insert_ne; [done|]. congruence.
  - intros b c [[<- <-]|[_ Hc]]%lookup_insert_Some Hm Hb; [set_solver|]. apply H4; set_solver.
  - intros b w (c & Hc & Hrest)%H5. exists c. rewrite lookup_insert_ne; [done|]. congruence.
  - intros b c [[<- <-]|[_ Hc]]%lookup_insert_Some Hb; [set_solver|]. apply H6; set_solver.
Qed.

(** A worker of [p] starts on the connection [c]. *)
Lemma link_install p a c h stake :
  conns !! a = Some c → h_remote_peer_addr h = a →
  h_connection_version h = Conn.connection_version c →
  let c' := c <| multiplexed_remote_peer_identity_with_stake ::= <[p := stake]> |> in
  link_inv (X ∖ {[a]}) (<[p := h]> handles) (<[a := c']> conns) pend
    (OrphanSet.remove a (Conn.connection_version c) orphans).2
    (StakedSet.insert p stake staked).2
    (StakedSet.insert a (group_stake (multiplexed_remote_peer_identity_with_stake c')) staked_addr).2.
Proof.
  intros Ha Hha Hhv c'. destruct Hinv as [H1 H2 H3 H4 H5 H6 H7 H8 H9 H10 H11].
  assert (multiplexed_remote_peer_identity_with_stake c' ≠ ∅) as Hne by apply insert_non_empty.
  split.
  - intros b d [[<- <-]|[_ ?]]%lookup_insert_Some; [exact (H1 a c Ha)|eauto].
  - intros q k [[<- <-]|[Hq Hk]]%lookup_insert_Some.
    + exists c'. rewrite Hha, lookup_insert_eq. split_and!; [done..|].
      unfold c'. upd_simpl. rewrite lookup_insert_eq. eauto.
    + destruct (H2 q k Hk) as (d & Hd & Hv & Hm).
      destruct (decide (h_remote_peer_addr k = a)) as [Hka|Hka].
      * exists c'. rewrite Hka in *. simplify_eq. rewrite lookup_insert_eq. split_and!; [done..|].
        unfold c'. upd_simpl. by rewrite lookup_insert_ne.
      * exists d. by rewrite lookup_insert_ne.
  - intros b v t [Hm Hne']%OrphanSet.remove_member; [|done].
    apply H3 in Hm as (d & Hd & Hv & Hm). exists d. split; [|done].
    rewrite lookup_insert_ne; [done|]. intros <-. apply Hne'. split; congruence.
  - intros b d [[<- <-]|[Hb Hd]]%lookup_insert_Some Hm Hx; [done|].
    destruct (H4 b d Hd Hm) as [t Ht]; [set_solver|]. exists t.
    apply OrphanSet.remove_member; [done|]. split; [done|]. naive_solver.
  - intros b v (d & Hd & Hv & Hm)%H5. destruct (decide (b = a)) as [->|Hb].
    + exists c'. simplify_eq. by rewrite lookup_insert_eq.
    + exists d. by rewrite lookup_insert_ne.
  - intros b d Hd Hx. rewrite StakedSet.insert_abs.
    apply lookup_insert_Some in Hd as [[<- <-]|[Hb Hd]]; [by rewrite lookup_insert_eq|].
    rewrite lookup_insert_ne by done. apply H6; [done|set_solver].
  - intros q. rewrite StakedSet.insert_abs, !lookup_insert_is_Some.
    intros [?|[? ?]]; [by left|right; auto].
  - done.
  - by apply OrphanSet.orphan_remove_wf.
  - by apply StakedSet.staked_insert_wf.
  - by apply StakedSet.staked_insert_wf.
Qed.

(** An eviction is planned for a connection in use. *)
Lemma link_evict a c : conns !! a = Some c →
  multiplexed_remote_peer_identity_with_stake c ≠ ∅ →
  link_inv X handles conns
    (EvictionSet.insert (EvictionSet.Evict a (Conn.connection_version c)) pend).2
    orphans staked staked_addr.
Proof.
  intros Ha Hne. destruct Hinv as [H1 H2 H3 H4 H5 H6 H7 H8 H9 H10 H11]. split; try done.
  - intros b v. rewrite EvictionSet.insert_set. rewrite elem_of_union, elem_of_singleton.
    intros [[= -> ->]|?]; [by exists c|eauto].
  - by apply EvictionSet.eviction_insert_wf.
Qed.

(** The handle of [p] goes away, its place on the connection does not. *)
Lemma link_drop_handle p :
  link_inv X (delete p handles) conns pend orphans staked staked_addr.
Proof.
  destruct Hinv as [H1 H2 H3 H4 H5 H6 H7 H8 H9 H10 H11]. split; try done.
  - intros q k [_ ?]%lookup_delete_Some. eauto.
  - intros q [_ ?]%lookup_delete_is_Some. eauto.
Qed.

(** The worker of [p] leaves its connection: the connection stays in use ... *)
Lemma link_leave p h c :
  handles !! p = Some h → conns !! h_remote_peer_addr h = Some c →
  let a := h_remote_peer_addr h in
  let c' := c <| multiplexed_remote_peer_identity_with_stake ::= delete p |> in
  let g := multiplexed_remote_peer_identity_with_stake c' in
  g ≠ ∅ →
  link_inv X (delete p handles) (<[a := c']> conns) pend orphans (StakedSet.remove p staked).2
    (StakedSet.insert a (group_stake g) staked_addr).2.
Proof.
  intros Hp Ha a c' g Hg. destruct Hinv as [H1 H2 H3 H4 H5 H6 H7 H8 H9 H10 H11].
  destruct (H2 p h Hp) as (c0 & Hc0 & Hv0 & Hm0). fold a in Hc0, Ha. simplify_eq.
  split; try done.
  - intros b d [[<- <-]|[_ ?]]%lookup_insert_Some; [exact (H1 a c Ha)|eauto].
  - intros q k [Hq Hk]%lookup_delete_Some. destruct (H2 q k Hk) as (d & Hd & Hv & Hm).
    destruct (decide (h_remote_peer_addr k = a)) as [Hka|Hka].
    + exists c'. rewrite Hka in *. simplify_eq. rewrite lookup_insert_eq. split_and!; [done..|].
      unfold c'. upd_simpl. by rewrite lookup_delete_ne.
    + exists d. by rewrite lookup_insert_ne.
  - intros b v t Hm. destruct (H3 b v t Hm) as (d & Hd & Hv & Hmt). exists d.
    split; [|done]. rewrite lookup_insert_ne; [done|]. intros <-. simplify_eq.
    rewrite Hmt, lookup_empty in Hm0. by destruct Hm0.
  - intros b d [[<- <-]|[Hb Hd]]%lookup_insert_Some Hm Hx; [done|]. by apply H4.
  - intros b v (d & Hd & Hv & Hm)%H5. destruct (decide (b = a)) as [->|Hb].
    + exists c'. simplify_eq. by rewrite lookup_insert_eq.
    + exists d. by rewrite lookup_insert_ne.
  - intros b d Hd Hx. rewrite StakedSet.insert_abs.
    apply lookup_insert_Some in Hd as [[<- <-]|[Hb Hd]]; [by rewrite lookup_insert_eq|].
    rewrite lookup_insert_ne by done. by apply H6.
  - intros q. rewrite StakedSet.remove_abs, !lookup_delete_is_Some. naive_solver.
  - by apply StakedSet.staked_remove_wf.
  - by apply StakedSet.staked_insert_wf.
Qed.

(** ... or becomes an orphan ... *)
Lemma link_orphan p h c now :
  handles !! p = Some h → conns !! h_remote_peer_addr h = Some c →
  let a := h_remote_peer_addr h in
  let c' := c <| multiplexed_remote_peer_identity_with_stake ::= delete p |> in
  multiplexed_remote_peer_identity_with_stake c' = ∅ →
  EvictionSet.Evict a (h_connection_version h) ∉ EvictionSet.set pend →
  link_inv X (delete p handles) (<[a := c']> conns) pend
    (OrphanSet.insert {| OrphanSet.remote_peer_addr := a;
                         OrphanSet.connection_version := h_connection_version h |} now orphans)
    (StakedSet.remove p staked).2 (StakedSet.insert a (group_stake ∅) staked_addr).2.
Proof.
  intros Hp Ha a c' Hg Hnp. destruct Hinv as [H1 H2 H3 H4 H5 H6 H7 H8 H9 H10 H11].
  destruct (H2 p h Hp) as (c0 & Hc0 & Hv0 & Hm0). fold a in Hc0, Ha. simplify_eq.
  assert (∀ q k, delete p handles !! q = Some k → h_remote_peer_addr k ≠ a) as Hnone.
  { intros q k [Hq Hk]%lookup_delete_Some Hka. destruct (H2 q k Hk) as (d & Hd & _ & Hm).
    rewrite Hka in Hd. simplify_eq. assert (is_Some (multiplexed_remote_peer_identity_with_stake c' !! q)) as Hs.
    { unfold c'. upd_simpl. by rewrite lookup_delete_ne. }
    rewrite Hg, lookup_empty in Hs. by destruct Hs. }
  split; try done.
  - intros b d [[<- <-]|[_ ?]]%lookup_insert_Some; [exact (H1 a c Ha)|eauto].
  - intros q k Hk. pose proof (Hnone q k Hk) as Hne. apply lookup_delete_Some in Hk as [_ Hk].
    destruct (H2 q k Hk) as (d & Hd & Hrest). exists d. by rewrite lookup_insert_ne.
  - intros b v t [Hm|(_ & -> & -> & _)]%OrphanSet.insert_member; [| |done].
    + destruct (H3 b v t Hm) as (d & Hd & Hv & Hmt). exists d.
      split; [|done]. rewrite lookup_insert_ne; [done|]. intros <-. simplify_eq.
      rewrite Hmt, lookup_empty in Hm0. by destruct Hm0.
    + cbn. exists c'. by rewrite lookup_insert_eq.
  - intros b d Hd Hm Hx. setoid_rewrite OrphanSet.insert_member; [|done].
    apply lookup_insert_Some in Hd as [[<- <-]|[Hb Hd]].
    + exists now. right. split; [|done]. intros (t & Ht). cbn in Ht.
      destruct (H3 _ _ _ Ht) as (d & Hd & _ & Hmt). simplify_eq.
      rewrite Hmt, lookup_empty in Hm0. by destruct Hm0.
    + destruct (H4 b d Hd Hm Hx) as [t Ht]. exists t. by left.
  - intros b v Hbv. destruct (H5 b v Hbv) as (d & Hd & Hv & Hm).
    exists d. rewrite lookup_insert_ne; [done|]. intros <-. simplify_eq.
    rewrite Hv0 in Hbv. done.
  - intros b d Hd Hx. rewrite StakedSet.insert_abs.
    apply lookup_insert_Some in Hd as [[<- <-]|[Hb Hd]]; [by rewrite lookup_insert_eq, Hg|].
    rewrite lookup_insert_ne by done. by apply H6.
  - intros q. rewrite StakedSet.remove_abs, !lookup_delete_is_Some. naive_solver.
  - by apply OrphanSet.orphan_insert_wf.
  - by apply StakedSet.staked_remove_wf.
  - by apply StakedSet.staked_insert_wf.
Qed.

(** ... or was marked, and goes. *)
Lemma link_retire p h c stake :
  handles !! p = Some h → conns !! h_remote_peer_addr h = Some c →
  let a := h_remote_peer_addr h in
  delete p (multiplexed_remote_peer_identity_with_stake c) = ∅ →
  link_inv X (delete p handles) (delete a conns)
    (EvictionSet.remove (EvictionSet.Evict a (h_connection_version h)) pend).2 orphans
    (StakedSet.remove p staked).2 (StakedSet.remove a (StakedSet.insert a stake staked_addr).2).2.
Proof.
  intros Hp Ha a Hg. destruct Hinv as [H1 H2 H3 H4 H5 H6 H7 H8 H9 H10 H11].
  destruct (H2 p h Hp) as (c0 & Hc0 & Hv0 & Hm0). fold a in Hc0, Ha. simplify_eq.
  assert (∀ q k, delete p handles !! q = Some k → h_remote_peer_addr k ≠ a) as Hnone.
  { intros q k [Hq Hk]%lookup_delete_Some Hka. destruct (H2 q k Hk) as (d & Hd & _ & Hm).
    rewrite Hka in Hd. simplify_eq.
    rewrite <-(lookup_delete_ne _ p q), Hg, lookup_empty in Hm by done. by destruct Hm. }
  split; try done.
  - intros b d [_ ?]%lookup_delete_Some. eauto.
  - intros q k Hk. pose proof (Hnone q k Hk) as Hne. apply lookup_delete_Some in Hk as [_ Hk].
    destruct (H2 q k Hk) as (d & Hd & Hrest). exists d. by rewrite lookup_delete_ne.
  - intros b v t Hm. destruct (H3 b v t Hm) as (d & Hd & Hv & Hmt). exists d.
    split; [|done]. rewrite lookup_delete_ne; [done|]. intros <-. simplify_eq.
    rewrite Hmt, lookup_empty in Hm0. by destruct Hm0.
  - intros b d [Hb Hd]%lookup_delete_Some Hm Hx. by apply H4.
  - intros b v. rewrite EvictionSet.remove_set, elem_of_difference, elem_of_singleton.
    intros [Hbv Hne]. destruct (H5 b v Hbv) as (d & Hd & Hv & Hm). exists d. split; [|done].
    rewrite lookup_delete_ne; [done|]. intros <-. simplify_eq. congruence.
  - intros b d [Hb Hd]%lookup_delete_Some Hx.
    rewrite StakedSet.remove_abs, StakedSet.insert_abs, lookup_delete_ne, lookup_insert_ne by done.
    by apply H6.
  - intros q. rewrite StakedSet.remove_abs, !lookup_delete_is_Some. naive_solver.
  - by apply EvictionSet.eviction_remove_wf.
  - by apply StakedSet.staked_remove_wf.
  - by apply StakedSet.staked_remove_wf, StakedSet.staked_insert_wf.
Qed.

(** Orphans expire: they are popped together ... *)
Lemma link_pop infos orphans' t : OrphanSet.pop orphans = (Some infos, orphans') →
  OrphanSet.oldest orphans = Some t →
  link_inv (list_to_set (OrphanSet.remote_peer_addr <$> infos) ∪ X) handles conns pend orphans'
    staked staked_addr ∧
  NoDup (OrphanSet.remote_peer_addr <$> infos) ∧
  (∀ i, i ∈ infos → ∃ c, conns !! OrphanSet.remote_peer_addr i = Some c ∧
    Conn.connection_version c = OrphanSet.connection_version i ∧
    multiplexed_remote_peer_identity_with_stake c = ∅) ∧
  (∀ i v t, i ∈ infos → ¬ OrphanSet.member orphans' (OrphanSet.remote_peer_addr i) v t) ∧
  OrphanSet.curr_len orphans' < OrphanSet.curr_len orphans.
Proof.
  intros Hpop Ht. pose proof (OrphanSet.pop_spec orphans (li_orphan_wf _ _ _ _ _ _ _ Hinv)) as Hs.
  rewrite Hpop in Hs. destruct Hs as (t' & Ht' & Hne & Hnd & Hin & _ & Hmem & Hlen & Hwf).
  assert (t' = t) as -> by congruence. destruct Hinv as [H1 H2 H3 H4 H5 H6 H7 H8 H9 H10 H11].
  assert (∀ i, i ∈ infos → ∃ c, conns !! OrphanSet.remote_peer_addr i = Some c ∧
    Conn.connection_version c = OrphanSet.connection_version i ∧
    multiplexed_remote_peer_identity_with_stake c = ∅) as Hall.
  { intros [a v] Hi%Hin. by apply H3 in Hi. }
  split_and!.
  - split; try done.
    + intros a v t' [Hm _]%Hmem. eauto.
    + intros a c Hc Hm [Hx1 Hx]%not_elem_of_union. destruct (H4 a c Hc Hm Hx) as [t0 Ht0].
      exists t0. apply Hmem. split; [done|]. intros ->. apply Hx1.
      apply elem_of_list_to_set, list_elem_of_fmap.
      exists {| OrphanSet.remote_peer_addr := a;
                OrphanSet.connection_version := Conn.connection_version c |}.
      split; [done|]. by apply Hin.
    + intros a c Hc [_ Hx]%not_elem_of_union. by apply H6.
  - apply NoDup_fmap_2_strong; [|done]. intros [a v] [b w] Hi Hj; cbn. intros <-.
    apply Hall in Hi as (c & Hc & Hv & _). apply Hall in Hj as (c' & Hc' & Hv' & _).
    cbn in *. by simplify_eq.
  - done.
  - intros [a v] w t' Hi [Hm Hne']%Hmem. cbn in Hm. apply Hin in Hi.
    destruct (H3 _ _ _ Hm) as (c & Hc & Hv & _). destruct (H3 _ _ _ Hi) as (c' & Hc' & Hv' & _).
    simplify_eq. by destruct (OrphanSet.member_unique orphans a _ t' t H9 Hm Hi).
  - destruct infos; [done|]. cbn in Hlen. lia.
Qed.

(** ... and leave the connection map one by one. *)
Lemma link_close a c : conns !! a = Some c →
  multiplexed_remote_peer_identity_with_stake c = ∅ →
  (∀ v t, ¬ OrphanSet.member orphans a v t) →
  link_inv (X ∖ {[a]}) handles (delete a conns) pend orphans staked staked_addr.
Proof.
  intros Ha Hm Hx. destruct Hinv as [H1 H2 H3 H4 H5 H6 H7 H8 H9 H10 H11].
  split; try done.
  - intros b d [_ ?]%lookup_delete_Some. eauto.
  - intros p h Hp. destruct (H2 p h Hp) as (d & Hd & Hv & Hs). exists d.
    rewrite lookup_delete_ne; [done|]. intros Heq. rewrite <-Heq in Hd. simplify_eq.
    rewrite Hm, lookup_empty in Hs. by destruct Hs.
  - intros b v t Hb. destruct (H3 b v t Hb) as (d & Hd & Hrest). exists d.
    rewrite lookup_delete_ne; [done|]. intros <-. by apply (Hx v t).
  - intros b d [Hb Hd]%lookup_delete_Some Hmd Hbx. apply H4; set_solver.
  - intros b v (d & Hd & Hv & Hmd)%H5. exists d. rewrite lookup_delete_ne; [done|].
    intros <-. simplify_eq.
  - intros b d [Hb Hd]%lookup_delete_Some Hbx. apply H6; set_solver.
Qed.
End Link.
