(* ===== verification/DriverSafe.v ===== *)
(** The invariant of [TpuSenderDriver] ([Inv]) and its preservation by the
    handlers of [Driver.v], one lemma per handler; then the consequences the
    code relies on: the [assert!] of the orphan eviction cannot fail, and its
    loop ends. *)
From S2P Require Import Prelude Types StakedSet OrphanSet EvictionSet Eviction Runtime Worker Driver DriverInv.
Import Driver.

(** ** Connection attempts that wait for an eviction

    The blocked list holds exactly the attempts whose notification has not been
    posted: no waiter is lost, none is listed after it was released. *)
Record waiters_inv (tasks : gmap N ConnectingTask) (blocked : list WaitingEviction)
    (notified : gset N) (handles : gmap N TxWorkerSenderHandle) (next : N) : Prop := {
  wt_next : ∀ id t n, tasks !! id = Some t → wait_for_eviction t = Some n → (n < next)%N;
  wt_inj : ∀ id t id' t' n, tasks !! id = Some t → tasks !! id' = Some t' →
    wait_for_eviction t = Some n → wait_for_eviction t' = Some n → id = id';
  wt_list : ∀ w, w ∈ blocked → ∃ id t, tasks !! id = Some t ∧
    wait_for_eviction t = Some (notify w) ∧ ct_remote_peer_addr t = we_remote_peer_addr w ∧
    notify w ∉ notified;
  wt_wait : ∀ id t n, tasks !! id = Some t → wait_for_eviction t = Some n → n ∉ notified →
    n ∈ notify <$> blocked;
  wt_nodup : NoDup (notify <$> blocked);
  wt_cancel : ∀ p h id t, handles !! p = Some h → tasks !! id = Some t →
    wait_for_eviction t ≠ Some (h_cancel_notify h);
  wt_notified : ∀ n, n ∈ notified → (n < next)%N
}.

(** A finished attempt did not wait, or was released. *)
Definition released (notified : gset N) (t : ConnectingTask) : Prop :=
  match wait_for_eviction t with None => True | Some n => n ∈ notified end.

Section Waiters.
Context (tasks : gmap N ConnectingTask) (blocked : list WaitingEviction) (notified : gset N)
        (handles : gmap N TxWorkerSenderHandle) (next : N).
Hypothesis Hinv : waiters_inv tasks blocked notified handles next.

Lemma waiters_handles handles' next' : (next ≤ next')%N →
  (∀ p h, handles' !! p = Some h → handles !! p = Some h ∨ (next ≤ h_cancel_notify h)%N) →
  waiters_inv tasks blocked notified handles' next'.
Proof.
  intros Hle Hh. destruct Hinv as [H1 H2 H3 H4 H5 H6 H7]. split; try done.
  - intros id t n Ht Hn. pose proof (H1 id t n Ht Hn). lia.
  - intros p h id t [Hp|Hp]%Hh Ht Heq; [by eapply H6|]. pose proof (H1 id t _ Ht Heq). lia.
  - intros n Hn%H7. lia.
Qed.

Lemma waiters_forget id t : tasks !! id = Some t → released notified t →
  waiters_inv (delete id tasks) blocked notified handles next.
Proof.
  intros Ht Hr. destruct Hinv as [H1 H2 H3 H4 H5 H6 H7]. split; try done.
  - intros i t' n [_ ?]%lookup_delete_Some. eauto.
  - intros i t1 i' t2 n [_ ?]%lookup_delete_Some [_ ?]%lookup_delete_Some. eauto.
  - intros w Hw. destruct (H3 w Hw) as (i & t' & Hi & Hn & Ha & Hno). exists i, t'.
    split; [|done]. rewrite lookup_delete_ne; [done|]. intros <-. simplify_eq.
    unfold released in Hr. by rewrite Hn in Hr.
  - intros i t' n [_ ?]%lookup_delete_Some. eauto.
  - intros p h i t' Hp [_ ?]%lookup_delete_Some. eauto.
Qed.

Lemma waiters_spawn id t next' : tasks !! id = None → (next ≤ next')%N →
  wait_for_eviction t = None →
  waiters_inv (<[id := t]> tasks) blocked notified handles next'.
Proof.
  intros Hid Hle Hw. destruct Hinv as [H1 H2 H3 H4 H5 H6 H7].
  assert (∀ i t' n, <[id := t]> tasks !! i = Some t' → wait_for_eviction t' = Some n →
    tasks !! i = Some t') as Hold.
  { intros i t' n [[<- <-]|[_ ?]]%lookup_insert_Some Hn; [congruence|done]. }
  split; try done.
  - intros i t' n Ht Hn. pose proof (H1 i t' n (Hold _ _ _ Ht Hn) Hn). lia.
  - intros i t1 i' t2 n Ht1 Ht2 Hn1 Hn2. eapply H2; eauto.
  - intros w Hin. destruct (H3 w Hin) as (i & t' & Hi & Hrest). exists i, t'.
    rewrite lookup_insert_ne; [done|]. congruence.
  - intros i t' n Ht Hn. eapply H4; eauto.
  - intros p h i t' Hp Ht Heq. by apply (H6 p h i t' Hp (Hold _ _ _ Ht Heq)).
  - intros n Hn%H7. lia.
Qed.

Lemma waiters_spawn_blocked id t next' a : tasks !! id = None → (next < next')%N →
  (∀ p h, handles !! p = Some h → (h_cancel_notify h < next)%N) →
  wait_for_eviction t = Some next → ct_remote_peer_addr t = a →
  waiters_inv (<[id := t]> tasks)
    (blocked ++ [{| we_remote_peer_addr := a; notify := next |}]) notified handles next'.
Proof.
  intros Hid Hle Hc Hw Hta. destruct Hinv as [H1 H2 H3 H4 H5 H6 H7].
  assert (next ∉ notified) as Hnn by (intros Hn%H7; lia).
  split; try done.
  - intros i t' n [[<- <-]|[_ Ht]]%lookup_insert_Some Hn; [simplify_eq; lia|].
    pose proof (H1 i t' n Ht Hn). lia.
  - intros i t1 i' t2 n [[<- <-]|[_ Ht1]]%lookup_insert_Some
      [[<- <-]|[_ Ht2]]%lookup_insert_Some Hn1 Hn2; try done.
    + pose proof (H1 _ _ _ Ht2 Hn2). simplify_eq; lia.
    + pose proof (H1 _ _ _ Ht1 Hn1). simplify_eq; lia.
    + eapply H2; eauto.
  - intros w [Hin| ->%list_elem_of_singleton]%elem_of_app.
    + destruct (H3 w Hin) as (i & t' & Hi & Hrest). exists i, t'.
      rewrite lookup_insert_ne; [done|]. congruence.
    + exists id, t. by rewrite lookup_insert_eq.
  - intros i t' n [[<- <-]|[_ Ht]]%lookup_insert_Some Hn Hno; rewrite fmap_app; apply elem_of_app.
    + right. cbn. simplify_eq. by apply list_elem_of_singleton.
    + left. eauto.
  - rewrite fmap_app. apply NoDup_app. split_and!; [done| |apply NoDup_singleton].
    intros n (w & -> & Hin)%list_elem_of_fmap. cbn. intros Heq%list_elem_of_singleton.
    destruct (H3 w Hin) as (i & t' & Hi & Hn & _). pose proof (H1 i t' _ Hi Hn). lia.
  - intros p h i t' Hp [[<- <-]|[_ Ht]]%lookup_insert_Some; [|eauto].
    rewrite Hw. pose proof (Hc p h Hp). intros [= Heq]. lia.
  - intros n Hn%H7. lia.
Qed.

(** Posting the notification of the first in line takes it out of the list;
    posting a worker's does not concern the attempts. *)
Lemma waiters_notify w blocked' : blocked = w :: blocked' →
  waiters_inv tasks blocked' ({[notify w]} ∪ notified) handles next.
Proof.
  intros ->. destruct Hinv as [H1 H2 H3 H4 H5 H6 H7]. cbn in H5.
  apply NoDup_cons in H5 as [Hnw Hnd]. split; try done.
  - intros w' Hin. destruct (H3 w') as (i & t' & Hi & Hn & Ha & Hno); [by right|].
    exists i, t'. split_and!; [done..|]. rewrite elem_of_union, elem_of_singleton.
    intros [Heq|]; [|done]. apply Hnw, list_elem_of_fmap. eauto.
  - intros i t' n Ht Hn Hno. apply not_elem_of_union in Hno as [Hne%not_elem_of_singleton Hno].
    pose proof (H4 i t' n Ht Hn Hno) as [->|?]%elem_of_cons; done.
  - intros n [->%elem_of_singleton|?]%elem_of_union; [|eauto].
    destruct (H3 w) as (i & t' & Hi & Hn & _); [by left|]. eauto.
Qed.

Lemma waiters_cancel n : (n < next)%N →
  (∀ id t, tasks !! id = Some t → wait_for_eviction t ≠ Some n) →
  waiters_inv tasks blocked ({[n]} ∪ notified) handles next.
Proof.
  intros Hn Hnw. destruct Hinv as [H1 H2 H3 H4 H5 H6 H7]. split; try done.
  - intros w Hin. destruct (H3 w Hin) as (i & t' & Hi & Hnt & Ha & Hno). exists i, t'.
    split_and!; [done..|]. rewrite elem_of_union, elem_of_singleton.
    intros [Heq|]; [|done]. apply (Hnw i t' Hi). by rewrite Hnt, Heq.
  - intros i t' m Ht Hm Hno. apply not_elem_of_union in Hno as [_ Hno]. eauto.
  - intros m [->%elem_of_singleton|?]%elem_of_union; [done|eauto].
Qed.
End Waiters.

(** [drv] computes the projections of explicit driver states. *)
Ltac drv :=
  cbn [tx_worker_handle_map active_staked_sorted_remote_peer tx_worker_task_meta_map
    tx_worker_set tx_queues connecting_tasks connecting_meta connecting_remote_peers
    connecting_remote_peers_addr identity tasklet tasklet_meta last_peer_activity
    being_evicted_peers connecting_blocked_by_eviction_list next_leader_prediction_deadline
    connection_map Driver.connection_version endpoint_sequence pending_connection_eviction_set
    active_staked_sorted_remote_peer_addr orphan_connection_set rt
    next_id channels notified responses closed_connections watcher_cmds].

(** ** The invariant *)
Section Safe.
Context `{HI : HashIter} {RO : ResponseOutlet}.
Context {Ch : Type} `{MC : Mpsc Ch TpuSenderTxn}.
Context `{SI : ValidatorStakeInfoService Stake} `{TI : LeaderTpuInfoService Tpu}.
Context `{ES : !Eviction.ConnectionEvictionStrategy Strategy} `{LP : UpcomingLeaderPredictor Pred}.
Abbreviation TpuSenderDriver := (@TpuSenderDriver Ch).
Implicit Types (d : TpuSenderDriver) (X : gset N).
Abbreviation Env := (@Env Stake Tpu Strategy Pred).
Implicit Types (env : Env).

Record disjoint_inv (peers addrs : gmap N N) (handles : gmap N TxWorkerSenderHandle)
    (conns : gmap N ActiveConnection) : Prop := {
  dj_peer : ∀ p, is_Some (peers !! p) → handles !! p = None;
  dj_addr : ∀ a, is_Some (addrs !! a) → conns !! a = None
}.

(** A detached set of workers keeps the correspondence it had. *)
Definition detached_inv (gd : GracefulDrop) : Prop :=
  (∀ id, is_Some (gd_worker_set gd !! id) ↔ is_Some (gd_worker_meta gd !! id)) ∧
  ∀ id w, gd_worker_set gd !! id = Some w → Worker.output_tx w = response_outlet.
Definition tasklet_inv (tasklets : gmap N GracefulDrop) (next : N) : Prop :=
  ∀ tid gd, tasklets !! tid = Some gd → (tid < next)%N ∧ detached_inv gd.

Lemma tasklet_next tasklets next next' : tasklet_inv tasklets next → (next ≤ next')%N →
  tasklet_inv tasklets next'.
Proof. intros Ht Hle tid gd Hg. destruct (Ht tid gd Hg). split; [lia|done]. Qed.

Definition InvX X d : Prop :=
  connecting_inv (connecting_tasks d) (connecting_meta d) (connecting_remote_peers d)
    (connecting_remote_peers_addr d) (next_id (rt d)) (identity d) ∧
  work_inv (tx_worker_handle_map d) (tx_worker_task_meta_map d) (tx_worker_set d)
    (dom (channels (rt d))) (next_id (rt d)) (identity d) ∧
  link_inv X (tx_worker_handle_map d) (connection_map d) (pending_connection_eviction_set d)
    (orphan_connection_set d) (active_staked_sorted_remote_peer d)
    (active_staked_sorted_remote_peer_addr d) ∧
  waiters_inv (connecting_tasks d) (connecting_blocked_by_eviction_list d) (notified (rt d))
    (tx_worker_handle_map d) (next_id (rt d)) ∧
  disjoint_inv (connecting_remote_peers d) (connecting_remote_peers_addr d)
    (tx_worker_handle_map d) (connection_map d) ∧
  tasklet_inv (tasklet d) (next_id (rt d)).
Definition Inv d := InvX ∅ d.

(** *** Steps the invariant does not see *)
Lemma inv_call_back X r d : InvX X d → InvX X (call_back r d).
Proof. unfold call_back. by destruct (response_outlet). Qed.

Lemma inv_drop_peer X p reason d : InvX X d → InvX X (drop_peer_queued_tx p reason d).
Proof.
  intros H. unfold drop_peer_queued_tx. destruct (tx_queues d !! p); [|done].
  by apply inv_call_back.
Qed.

Lemma inv_unreachable X p d : InvX X d → InvX X (unreachable_peer p d).
Proof. apply inv_drop_peer. Qed.

Lemma inv_queue_tx X env p tx n d : InvX X d → InvX X (queue_tx_or_drop env p tx n d).2.
Proof.
  intros H. unfold queue_tx_or_drop. case_decide; cbn [snd]; [by apply inv_call_back|done].
Qed.

Lemma inv_for_each {A} X (f : A → TpuSenderDriver → TpuSenderDriver) l d :
  (∀ a d, a ∈ l → InvX X d → InvX X (f a d)) → InvX X d → InvX X (for_each_peer f l d).
Proof.
  unfold for_each_peer. revert d. induction l as [|a l IH]; intros d Hf Hd; cbn; [done|].
  apply IH; [|apply Hf; [left|done]]. intros b d' Hb. apply Hf. by right.
Qed.

Lemma inv_requeue X env p l d : InvX X d → InvX X (requeue env p l d).
Proof. intros H. apply inv_for_each; [|done]. intros [tx n] d' _. apply inv_queue_tx. Qed.

(** *** Installing a worker *)
Lemma install_worker_eq env p a d c :
  tx_worker_handle_map d !! p = None → connection_map d !! a = Some c →
  let stake := default 0%N (get_stake_info (stake_info_map env) p) in
  let c' := c <| multiplexed_remote_peer_identity_with_stake ::= <[p := stake]> |> in
  let total := group_stake (multiplexed_remote_peer_identity_with_stake c') in
  let chan := next_id (rt d) in
  install_worker env p a d =
    mk_driver (<[p := new_handle a c d]> (tx_worker_handle_map d))
      (StakedSet.insert p stake (active_staked_sorted_remote_peer d)).2
      (<[chan + 2 := p]> (tx_worker_task_meta_map d))%N
      (<[chan + 2 := new_worker env p a c d]> (tx_worker_set d))%N
      (delete p (tx_queues d)) (connecting_tasks d) (connecting_meta d)
      (connecting_remote_peers d) (connecting_remote_peers_addr d) (identity d) (tasklet d)
      (tasklet_meta d) (last_peer_activity d) (being_evicted_peers d)
      (connecting_blocked_by_eviction_list d) (next_leader_prediction_deadline d)
      (<[a := c']> (connection_map d)) (connection_version d) (endpoint_sequence d)
      (pending_connection_eviction_set d)
      (StakedSet.insert a total (active_staked_sorted_remote_peer_addr d)).2
      (OrphanSet.remove a (Conn.connection_version c) (orphan_connection_set d)).2
      (mk_rt (chan + 3)%N
         (<[chan := channel (transaction_sender_worker_channel_capacity (config env))]>
            (channels (rt d)))
         (notified (rt d)) (responses (rt d)) (closed_connections (rt d))
         (watcher_cmds (rt d) ++ [RegisterWatch p a])).
Proof.
  intros Hp Hc. cbv zeta. unfold install_worker. rewrite Hp, Hc.
  destruct d as [? ? ? ? ? ? ? ? ? ? ? ? ? ? ? ? cm ? ? ? ? ? []]. cbn [connection_map] in Hc.
  unfold register_worker.
  match goal with |- context [connection_map ?e !! a] => change (connection_map e) with cm end.
  rewrite Hc. reflexivity.
Qed.

Lemma inv_install X env p a c d :
  InvX X d → tx_worker_handle_map d !! p = None → connection_map d !! a = Some c →
  connecting_remote_peers d !! p = None → connecting_remote_peers_addr d !! a = None →
  InvX (X ∖ {[a]}) (install_worker env p a d).
Proof.
  intros (Hc & Hw & Hl & Hwt & Hd & Ht) Hp Ha Hpeer Haddr.
  rewrite (install_worker_eq env p a d c Hp Ha). unfold InvX; drv. split_and!.
  - eapply connecting_next; [done|lia].
  - rewrite dom_insert_L.
    apply (work_install _ _ _ _ _ _ Hw p _ (next_id (rt d) + 1)%N); try done; lia.
  - by apply link_install.
  - apply (waiters_handles _ _ _ _ _ Hwt); [lia|].
    intros q h [[<- <-]|[_ ?]]%lookup_insert_Some; [right; cbn; lia|by left].
  - destruct Hd as [D1 D2]. split.
    + intros q Hq. rewrite lookup_insert_ne; [by apply D1|]. intros <-. rewrite Hpeer in Hq. by destruct Hq.
    + intros b Hb. rewrite lookup_insert_ne; [by apply D2|]. intros <-. rewrite Haddr in Hb. by destruct Hb.
  - apply (tasklet_next _ _ _ Ht); lia.
Qed.

(** *** Starting a connection attempt *)
Lemma spawn_task_eq env p a n d :
  let full := negb (has_connection_capacity env d) in
  let next := next_id (rt d) in
  let id := if full then N.succ next else next in
  spawn_task env p a n d =
    mk_driver (tx_worker_handle_map d) (active_staked_sorted_remote_peer d)
      (tx_worker_task_meta_map d) (tx_worker_set d) (tx_queues d)
      (<[id := {| ct_remote_peer_identity := p; ct_remote_peer_addr := a;
                  connection_timeout := connecting_timeout (config env);
                  wait_for_eviction := if full then Some next else None;
                  endpoint := endpoint_sequence d |}]> (connecting_tasks d))
      (<[id := {| current_client_identity := identity d;
                  multiplexed_remote_peer_identity_vec := [p];
                  remote_peer_address := a; connection_attempt := n |}]> (connecting_meta d))
      (<[p := id]> (connecting_remote_peers d)) (<[a := id]> (connecting_remote_peers_addr d))
      (identity d) (tasklet d)
      (tasklet_meta d) (last_peer_activity d) (being_evicted_peers d)
      (if full then connecting_blocked_by_eviction_list d ++
                    [{| we_remote_peer_addr := a; notify := next |}]
       else connecting_blocked_by_eviction_list d) (next_leader_prediction_deadline d)
      (connection_map d) (connection_version d)
      ((endpoint_sequence d + 1) `mod` num_endpoints (config env))
      (pending_connection_eviction_set d) (active_staked_sorted_remote_peer_addr d)
      (orphan_connection_set d)
      (mk_rt (N.succ id) (channels (rt d)) (notified (rt d)) (responses (rt d))
         (closed_connections (rt d)) (watcher_cmds (rt d))).
Proof.
  cbv zeta. unfold spawn_task, wait_for_room.
  destruct (has_connection_capacity env d); by destruct d as [? ? ? ? ? ? ? ? ? ? ? ? ? ? ? ? ? ? ? ? ? ? []].
Qed.

Lemma inv_spawn_task X env p a n d :
  InvX X d → tx_worker_handle_map d !! p = None → connection_map d !! a = None →
  connecting_remote_peers d !! p = None → connecting_remote_peers_addr d !! a = None →
  InvX X (spawn_task env p a n d).
Proof.
  intros H Hp Ha Hpeer Haddr. pose proof H as (Hc & Hw & Hl & Hwt & Hd & Ht).
  assert (∀ id, disjoint_inv (<[p := id]> (connecting_remote_peers d))
    (<[a := id]> (connecting_remote_peers_addr d))
    (tx_worker_handle_map d) (connection_map d)) as Hd'.
  { intros id. destruct Hd as [D1 D2]. split.
    - intros q [<-|[_ ?]]%lookup_insert_is_Some; auto.
    - intros b [<-|[_ ?]]%lookup_insert_is_Some; auto. }
  assert (∀ id, (next_id (rt d) ≤ id)%N → connecting_tasks d !! id = None) as Hfresh.
  { intros id Hle. destruct (connecting_tasks d !! id) eqn:E; [|done].
    assert (id < next_id (rt d))%N; [|lia].
    apply (ci_fresh _ _ _ _ _ _ Hc), (ci_task _ _ _ _ _ _ Hc). eauto. }
  rewrite spawn_task_eq. destruct (negb (has_connection_capacity env d)); unfold InvX; drv; split_and!.
  - apply connecting_spawn; [|done..]. eapply connecting_next; [done|lia].
  - eapply work_next; [done|lia|naive_solver].
  - done.
  - eapply (waiters_spawn_blocked _ _ _ _ _ Hwt); [apply Hfresh; lia|lia| |done|done].
    intros q h Hq. by apply (wi_handle _ _ _ _ _ _ Hw) in Hq as [_ ?].
  - apply Hd'.
  - apply (tasklet_next _ _ _ Ht); lia.
  - by apply connecting_spawn.
  - eapply work_next; [done|lia|naive_solver].
  - done.
  - apply (waiters_spawn _ _ _ _ _ Hwt); [apply Hfresh; lia|lia|done].
  - apply Hd'.
  - apply (tasklet_next _ _ _ Ht); lia.
Qed.

Lemma inv_spawn_connecting env p n d : Inv d → Inv (spawn_connecting env p n d).
Proof.
  intros H. pose proof H as (Hc & Hw & Hl & Hwt & Hd & Ht).
  unfold spawn_connecting. cbn [spawn_connecting_fuel].
  destruct (decide (is_Some (connecting_remote_peers d !! p))) as [|Hpeer]; [done|].
  destruct (decide (p ∈ being_evicted_peers d)) as [|_]; [done|].
  destruct (decide (is_Some (tx_worker_handle_map d !! p))) as [|Hh]; [done|].
  rewrite <-eq_None_not_Some in Hpeer. rewrite <-eq_None_not_Some in Hh.
  destruct (get_quic_dest_addr env p) as [a|] eqn:Edest; [|by apply inv_unreachable].
  destruct (EvictionSet.contains_socket_addr a (pending_connection_eviction_set d)) eqn:Ep; [done|].
  destruct (decide (is_Some (connection_map d !! a))) as [[c Ha]|Ha].
  { unfold Inv. assert (∅ = ∅ ∖ {[a]} :> gset N) as -> by set_solver.
    apply (inv_install _ env p a c); try done.
    destruct (connecting_remote_peers_addr d !! a) eqn:E; [|done].
    by rewrite (dj_addr _ _ _ _ Hd a) in Ha by eauto. }
  rewrite <-eq_None_not_Some in Ha.
  destruct (connecting_remote_peers_addr d !! a) as [id|] eqn:Eaddr; [|by apply inv_spawn_task].
  apply (ci_addr _ _ _ _ _ _ Hc) in Eaddr as (m & Hm & Hma). rewrite Hm.
  unfold Inv, InvX. upd_simpl. split_and!; try done.
  - by apply connecting_join.
  - destruct Hd as [D1 D2]. split; [|done]. intros q [<-|[_ ?]]%lookup_insert_is_Some; auto.
Qed.

(** The recursion of [spawn_connecting] is never entered. *)
Lemma spawn_connecting_fuel_exact env p n d fuel : Inv d → 1 ≤ fuel →
  spawn_connecting_fuel fuel env p n d = spawn_connecting env p n d.
Proof.
  intros H Hle. pose proof H as (Hc & _). destruct fuel as [|fuel]; [lia|].
  unfold spawn_connecting. cbn [spawn_connecting_fuel].
  repeat case_decide; try done. destruct (get_quic_dest_addr env p) as [a|]; [|done].
  destruct (EvictionSet.contains_socket_addr a _); [done|]. case_decide; [done|].
  destruct (connecting_remote_peers_addr d !! a) as [id|] eqn:Eaddr; [|done].
  apply (ci_addr _ _ _ _ _ _ Hc) in Eaddr as (m & Hm & _). by rewrite Hm.
Qed.

Lemma inv_spawn_all env (f : N → nat) l d :
  Inv d → Inv (for_each_peer (λ p, spawn_connecting env p (f p)) l d).
Proof. intros H. apply inv_for_each; [|done]. intros p d' _. apply inv_spawn_connecting. Qed.
End Safe.
