(* ===== verification/DriverLoop.v ===== *)
(** Preservation of the driver's invariant by the remaining handlers, and by a
    whole iteration of the event loop; the failing [assert!] of the orphan
    eviction is unreachable and its loop ends. *)
From S2P Require Import Prelude Types StakedSet OrphanSet EvictionSet Eviction Runtime Worker Driver DriverInv DriverSafe.
Import Driver.

(** [ds d] exposes the fields of a driver state. *)
Ltac ds d := destruct d as [? ? ? ? ? ? ? ? ? ? ? ? ? ? ? ? ? ? ? ? ? ? [? ? ? ? ? ?]].

Section Loop.
Context `{HI : HashIter} {RO : ResponseOutlet}.
Context {Ch : Type} `{MC : Mpsc Ch TpuSenderTxn}.
Context `{SI : ValidatorStakeInfoService Stake} `{TI : LeaderTpuInfoService Tpu}.
Context `{ES : !Eviction.ConnectionEvictionStrategy Strategy} `{LP : UpcomingLeaderPredictor Pred}.
Abbreviation TpuSenderDriver := (@TpuSenderDriver Ch).
Implicit Types (d : TpuSenderDriver) (X : gset N).
Abbreviation Env := (@Env Stake Tpu Strategy Pred).
Implicit Types (env : Env).

(** ** Notifications *)
Lemma inv_notify_cancel X d p h : InvX X d → tx_worker_handle_map d !! p = Some h →
  InvX X (notify_one (h_cancel_notify h) d).
Proof.
  intros (Hc & Hw & Hl & Hwt & Hd & Ht) Hp. unfold notify_one, InvX. ds d. split_and!; try done.
  apply (waiters_cancel _ _ _ _ _ Hwt).
  - by apply (wi_handle _ _ _ _ _ _ Hw) in Hp as [_ ?].
  - intros id t Hid. by eapply (wt_cancel _ _ _ _ _ Hwt).
Qed.

Lemma inv_unblock X d : InvX X d → InvX X (unblock_eviction_waiting_connection d).
Proof.
  intros H. pose proof H as (Hc & Hw & Hl & Hwt & Hd & Ht).
  unfold unblock_eviction_waiting_connection.
  destruct (connecting_blocked_by_eviction_list d) as [|w l] eqn:El; [done|].
  unfold notify_one, InvX. ds d. split_and!; try done.
  by apply (waiters_notify _ _ _ _ _ Hwt).
Qed.

(** ** Evictions *)
Definition cancels d (ns : list N) : Prop :=
  ∀ n, n ∈ ns → ∃ p h, tx_worker_handle_map d !! p = Some h ∧ n = h_cancel_notify h.

Lemma cancels_snoc d ns p h : cancels d ns → tx_worker_handle_map d !! p = Some h →
  cancels d (ns ++ [h_cancel_notify h]).
Proof. intros Hns Hp n [?|Hn%list_elem_of_singleton]%elem_of_app; [auto|subst; eauto]. Qed.

Definition evicting X (handles : gmap N TxWorkerSenderHandle) (dh : TpuSenderDriver * list N) : Prop :=
  InvX X dh.1 ∧ tx_worker_handle_map dh.1 = handles ∧ cancels dh.1 dh.2.

Lemma evict_peer_inv X handles dh p : evicting X handles dh → evicting X handles (evict_peer dh p).
Proof.
  destruct dh as [d ns]. intros (H & Hh & Hns). cbn in H, Hh, Hns. unfold evict_peer.
  destruct (tx_worker_handle_map d !! p) as [h|] eqn:Ep; [|done].
  set (d1 := d <| being_evicted_peers ::= union {[p]} |>).
  assert (evicting X handles (d1, ns ++ [h_cancel_notify h])) as H1.
  { split_and!; [by ds d|by ds d|by apply (cancels_snoc d ns p)]. }
  replace (connection_map d1) with (connection_map d) by (by ds d).
  pose proof H as (_ & _ & Hl & _).
  destruct (li_handle _ _ _ _ _ _ _ Hl p h Ep) as (c & Hc & Hv & Hm). rewrite Hc.
  rewrite decide_False by (intros Hne; by apply Hne).
  rewrite (li_addr _ _ _ _ _ _ _ Hl _ _ Hc).
  set (d2 := d1 <| pending_connection_eviction_set ::= _ |>).
  assert (evicting X handles (d2, ns ++ [h_cancel_notify h])) as H2.
  { destruct H1 as (Hi & Hh1 & Hc1). cbn [fst snd] in Hi, Hh1, Hc1.
    pose proof Hi as (Kc & Kw & Kl & Kwt & Kd & Kt).
    split_and!; [|by rewrite <-Hh1; ds d|].
    - split_and!; [by ds d|by ds d| |by ds d|by ds d|by ds d].
      refine (link_evict X _ _ _ _ _ _ Kl _ c _ _); [by ds d|].
      intros He. rewrite He, lookup_empty in Hm. by destruct Hm.
    - by ds d. }
  clearbody d2. clear H1. generalize dependent d2. generalize (ns ++ [h_cancel_notify h]).
  generalize (hash_iter (dom (multiplexed_remote_peer_identity_with_stake c))).
  intros l. induction l as [|q l IH]; intros ns2 d2 H2; [done|]. cbn [foldl evict_multiplexed].
  destruct H2 as (Hi2 & Hh2 & Hc2). cbn [fst snd] in Hi2, Hh2, Hc2.
  set (d3 := d2 <| being_evicted_peers ::= union {[q]} |>).
  assert (InvX X d3 ∧ tx_worker_handle_map d3 = handles ∧ cancels d3 ns2) as (Hi3 & Hh3 & Hc3)
    by (split_and!; by ds d2).
  destruct (tx_worker_handle_map d3 !! q) eqn:Eq; apply IH; [|done].
  split_and!; [done..|]. by eapply cancels_snoc.
Qed.

Lemma inv_do_eviction env now d : Inv d → Inv (do_eviction_if_required env now d).
Proof.
  intros H. unfold do_eviction_if_required. destruct (decide _) as [|_]; [done|].
  assert (∀ l dh, evicting ∅ (tx_worker_handle_map d) dh →
    evicting ∅ (tx_worker_handle_map d) (foldl evict_peer dh l)) as Hfold.
  { intros l. induction l as [|p l IH]; intros dh Hdh; [done|]. cbn. by apply IH, evict_peer_inv. }
  specialize (Hfold (make_eviction_plan env now d) (d, [])).
  destruct (foldl evict_peer _ _) as [d' ns].
  destruct Hfold as (H' & Hh & Hns); [split_and!; [done|done|]; intros n Hn; by apply elem_of_nil in Hn|].
  cbn [fst snd] in *. clear H Hh. revert d' H' Hns. induction ns as [|n ns IH]; intros d' H' Hns; [done|].
  cbn. destruct (Hns n) as (p & h & Hp & ->); [left|]. apply IH.
  - by eapply inv_notify_cancel.
  - intros m Hm. destruct (Hns m) as (q & k & Hq & ->); [by right|]. exists q, k. by ds d'.
Qed.

(** A connection with peers gets marked by its handle ([addr_changed]). *)
Lemma inv_mark_handle X d p h : InvX X d → tx_worker_handle_map d !! p = Some h →
  InvX X (d <| pending_connection_eviction_set ::= λ s,
    (EvictionSet.insert (EvictionSet.Evict (h_remote_peer_addr h) (h_connection_version h)) s).2 |>).
Proof.
  intros (Hc & Hw & Hl & Hwt & Hd & Ht) Hp.
  destruct (li_handle _ _ _ _ _ _ _ Hl p h Hp) as (c & Ha & Hv & Hm).
  unfold InvX. ds d. split_and!; try done. rewrite <-Hv.
  apply (link_evict X _ _ _ _ _ _ Hl _ c Ha).
  intros He. rewrite He, lookup_empty in Hm. by destruct Hm.
Qed.

Lemma inv_addr_change env changed d : Inv d → Inv (handle_remote_peer_addr_change env changed d).
Proof.
  intros H. apply inv_for_each; [|done]. clear d H. intros p d _ H. unfold addr_changed.
  destruct (tx_worker_handle_map d !! p) as [h|] eqn:Ep; [|done].
  destruct (get_quic_dest_addr env p).
  - destruct (decide _); [by eapply inv_notify_cancel|done].
  - eapply inv_mark_handle; [by eapply inv_notify_cancel|]. by ds d.
Qed.

(** ** Connection results *)

Lemma forget_connecting_eq m id d :
  forget_connecting m id (d <| connecting_tasks ::= delete id |>) =
    mk_driver (tx_worker_handle_map d) (active_staked_sorted_remote_peer d)
      (tx_worker_task_meta_map d) (tx_worker_set d) (tx_queues d)
      (delete id (connecting_tasks d)) (delete id (connecting_meta d))
      (foldl (λ m p, delete p m) (connecting_remote_peers d) (multiplexed_remote_peer_identity_vec m))
      (delete (remote_peer_address m) (connecting_remote_peers_addr d))
      (identity d) (tasklet d) (tasklet_meta d) (last_peer_activity d) (being_evicted_peers d)
      (connecting_blocked_by_eviction_list d) (next_leader_prediction_deadline d)
      (connection_map d) (connection_version d) (endpoint_sequence d)
      (pending_connection_eviction_set d) (active_staked_sorted_remote_peer_addr d)
      (orphan_connection_set d) (rt d).
Proof. by ds d. Qed.

(** The attempt [id] has ended. *)
Lemma inv_forget X d id t m :
  InvX X d → connecting_tasks d !! id = Some t → released (notified (rt d)) t →
  connecting_meta d !! id = Some m →
  let d' := forget_connecting m id (d <| connecting_tasks ::= delete id |>) in
  InvX X d' ∧ identity d' = current_client_identity m ∧
  connection_map d' !! remote_peer_address m = None ∧
  connecting_remote_peers_addr d' !! remote_peer_address m = None ∧
  ∀ p, p ∈ multiplexed_remote_peer_identity_vec m →
    connecting_remote_peers d' !! p = None ∧ tx_worker_handle_map d' !! p = None.
Proof.
  intros (Hc & Hw & Hl & Hwt & Hd & Ht) Hid Hr Hm d'. unfold d'. rewrite forget_connecting_eq.
  destruct Hd as [D1 D2]. unfold InvX; drv. split_and!; try done.
  - by apply connecting_forget.
  - by eapply waiters_forget.
  - split.
    + intros p. rewrite lookup_delete_all. case_decide; [by intros [? ?]|apply D1].
    + intros a [_ Ha]%lookup_delete_is_Some. by apply D2.
  - symmetry. by apply (ci_ident _ _ _ _ _ _ Hc id).
  - apply D2. exists id. apply (ci_addr _ _ _ _ _ _ Hc). eauto.
  - by rewrite lookup_delete_eq.
  - intros p Hp. rewrite lookup_delete_all, decide_True by done. split; [done|].
    apply D1. exists id. apply (ci_peer _ _ _ _ _ _ Hc). eauto.
Qed.

Lemma install_worker_peers env p a d :
  connecting_remote_peers (install_worker env p a d) = connecting_remote_peers d ∧
  connecting_remote_peers_addr (install_worker env p a d) = connecting_remote_peers_addr d.
Proof.
  unfold install_worker. destruct (tx_worker_handle_map d !! p); [done|].
  destruct (connection_map d !! a).
  - unfold register_worker. destruct (connection_map (spawn_worker _ _ _ _ _) !! a).
    + by ds d.
    + unfold unreachable_peer, drop_peer_queued_tx, call_back.
      destruct (tx_queues _ !! p), (response_outlet); by ds d.
  - unfold unreachable_peer, drop_peer_queued_tx, call_back.
    destruct (tx_queues _ !! p), (response_outlet); by ds d.
Qed.

(** Once in use, the connection takes the other peers of the attempt. *)
Lemma inv_install_all env a l d : Inv d →
  (∀ p, p ∈ l → connecting_remote_peers d !! p = None) →
  Inv (for_each_peer (λ p, install_worker env p a) l d).
Proof.
  unfold for_each_peer. revert d. induction l as [|p l IH]; intros d H Hl; [done|]. cbn [foldl].
  destruct (install_worker_peers env p a d) as [Hp Ha]. apply IH.
  2:{ intros q Hq. rewrite Hp. apply Hl. by right. }
  destruct (tx_worker_handle_map d !! p) eqn:Eh; [unfold install_worker; by rewrite Eh|].
  destruct (connection_map d !! a) as [c|] eqn:Ec.
  - unfold Inv. assert (∅ = ∅ ∖ {[a]} :> gset N) as -> by set_solver.
    apply (inv_install _ env p a c); try done; [apply Hl; by left|].
    pose proof H as (_ & _ & _ & _ & Hd & _).
    destruct (connecting_remote_peers_addr d !! a) eqn:E; [|done].
    by rewrite (dj_addr _ _ _ _ Hd a) in Ec by eauto.
  - unfold install_worker. rewrite Eh, Ec. by apply inv_unreachable.
Qed.

Lemma inv_connected env d a conn v p l : Inv d → connection_map d !! a = None →
  connecting_remote_peers_addr d !! a = None →
  (∀ q, q ∈ p :: l → connecting_remote_peers d !! q = None) → tx_worker_handle_map d !! p = None →
  Inv (for_each_peer (λ p, install_worker env p a) (p :: l)
         (d <| connection_map ::= <[a := Conn.mk a conn v ∅]> |>)).
Proof.
  intros H Ha Haddr Hl Hp.
  assert (InvX {[a]} (d <| connection_map ::= <[a := Conn.mk a conn v ∅]> |>)) as H'.
  { destruct H as (Hc & Hw & Hk & Hwt & Hd & Ht). unfold InvX.
    pose proof (link_connect _ _ _ _ _ _ _ Hk a conn v Ha) as Hk'. rewrite union_empty_r_L in Hk'.
    upd_simpl. split_and!; try done. destruct Hd as [D1 D2]. split; [done|].
    intros b Hb. rewrite lookup_insert_ne; [by apply D2|]. intros <-.
    rewrite Haddr in Hb. by destruct Hb. }
  set (d' := d <| connection_map ::= _ |>) in *.
  assert (connecting_remote_peers d' = connecting_remote_peers d) as Ep by (by ds d).
  assert (connecting_remote_peers_addr d' = connecting_remote_peers_addr d) as Ea by (by ds d).
  assert (tx_worker_handle_map d' = tx_worker_handle_map d) as Eh by (by ds d).
  assert (connection_map d' !! a = Some (Conn.mk a conn v ∅)) as Ec
    by (unfold d'; upd_simpl; by rewrite lookup_insert_eq).
  clearbody d'. rewrite <-Ep in Hl. rewrite <-Ea in Haddr. rewrite <-Eh in Hp.
  change (for_each_peer _ (p :: l) d') with
    (for_each_peer (λ p, install_worker env p a) l (install_worker env p a d')).
  destruct (install_worker_peers env p a d') as [Hpeers _].
  apply inv_install_all.
  - unfold Inv. assert (∅ = {[a]} ∖ {[a]} :> gset N) as -> by set_solver.
    eapply (inv_install _ env p a); try done. apply Hl. by left.
  - intros q Hq. rewrite Hpeers. apply Hl. by right.
Qed.

(** The loop of the [JoinError] case takes the peers out one at a time. *)
Lemma inv_forget_each l d :
  Inv (d <| connecting_remote_peers ::= λ m, foldl (λ m p, delete p m) m l |>) →
  Inv (for_each_peer (λ p d, drop_peer_queued_tx p RemotePeerUnreachable
                               (d <| connecting_remote_peers ::= delete p |>)) l d).
Proof.
  unfold for_each_peer. revert d. induction l as [|p l IH]; intros d H; cbn [foldl]; [by ds d|].
  apply IH. unfold drop_peer_queued_tx, call_back.
  destruct (tx_queues _ !! p); [destruct (response_outlet)|]; by ds d.
Qed.

Lemma inv_connecting_result env r d : Inv d →
  (let id := match r with JoinOk id _ => id | JoinErr id => id end in
   ∃ t, connecting_tasks d !! id = Some t ∧ released (notified (rt d)) t) →
  Inv (handle_connecting_result env r d).
Proof.
  intros H (t & Htask & Hrel). pose proof H as (Hc & _).
  unfold handle_connecting_result. destruct r as [id res|id].
  - destruct (connecting_meta d !! id) as [m|] eqn:Em.
    2:{ exfalso. apply (eq_None_not_Some (connecting_meta d !! id)); [done|].
        apply (ci_task _ _ _ _ _ _ Hc). eauto. }
    replace (connecting_meta (d <| connecting_tasks ::= delete id |>) !! id) with (Some m) by (by ds d).
    destruct (inv_forget ∅ d id t m H Htask Hrel Em) as (H' & Hid & Hconn & Haddr & Hpeers).
    set (d' := forget_connecting _ _ _) in *. clearbody d'.
    destruct (ci_vec _ _ _ _ _ _ Hc id m Em) as [_ Hne].
    rewrite decide_False by (by rewrite Hid; intros []).
    assert (∀ f : N → TpuSenderDriver → TpuSenderDriver, (∀ p e, Inv e → Inv (f p e)) →
      Inv (for_each_peer f (multiplexed_remote_peer_identity_vec m) d')) as Heach.
    { intros f Hf. apply inv_for_each; [|done]. intros p e _. apply Hf. }
    destruct res as [conn|[[]|e|]]; cbn [next_connection_version].
    + destruct (multiplexed_remote_peer_identity_vec m) as [|p l]; [done|].
      apply inv_connected; try (by ds d').
      * intros q Hq. destruct (Hpeers q Hq) as [Hq' _]. by ds d'.
      * destruct (Hpeers p) as [_ Hp']; [left|]. by ds d'.
    + apply Heach. intros. by apply inv_unreachable.
    + apply Heach. intros. by apply inv_unreachable.
    + case_decide; apply Heach; intros p e' He'; [|by apply inv_unreachable].
      unfold reattempt. destruct (get_quic_dest_addr env p); [|by apply inv_unreachable].
      by apply inv_spawn_connecting.
    + apply Heach. intros. by apply inv_unreachable.
  - destruct (connecting_meta d !! id) as [m|] eqn:Em.
    2:{ exfalso. apply (eq_None_not_Some (connecting_meta d !! id)); [done|].
        apply (ci_task _ _ _ _ _ _ Hc). eauto. }
    replace (connecting_meta (d <| connecting_tasks ::= delete id |>) !! id) with (Some m) by (by ds d).
    destruct (inv_forget ∅ d id t m H Htask Hrel Em) as (H' & _).
    apply inv_forget_each. unfold forget_connecting in H'. by ds d.
Qed.

(** ** Worker results *)

(** The driver once the ended worker's task, metadata, stake and handle are
    gone, but its place on the connection is not. *)
Definition worker_gone (id p : N) d : TpuSenderDriver :=
  d <| tx_worker_set ::= delete id |> <| tx_worker_task_meta_map ::= delete id |>
    <| active_staked_sorted_remote_peer ::= λ s, (StakedSet.remove p s).2 |>
    <| tx_worker_handle_map ::= delete p |>.

Lemma worker_gone_eq id p d :
  worker_gone id p d =
    mk_driver (delete p (tx_worker_handle_map d))
      (StakedSet.remove p (active_staked_sorted_remote_peer d)).2
      (delete id (tx_worker_task_meta_map d)) (delete id (tx_worker_set d)) (tx_queues d)
      (connecting_tasks d) (connecting_meta d)
      (connecting_remote_peers d) (connecting_remote_peers_addr d)
      (identity d) (tasklet d) (tasklet_meta d) (last_peer_activity d) (being_evicted_peers d)
      (connecting_blocked_by_eviction_list d) (next_leader_prediction_deadline d)
      (connection_map d) (connection_version d) (endpoint_sequence d)
      (pending_connection_eviction_set d) (active_staked_sorted_remote_peer_addr d)
      (orphan_connection_set d) (rt d).
Proof. by ds d. Qed.

(** [remove_worker_from_active_connection] on a worker's own connection. *)
Definition leave_state d (a p : N) (c' : ActiveConnection)
    (conns : gmap N ActiveConnection) (blocked : list WaitingEviction)
    (pend : EvictionSet.ConnectionEvictionSet) (staked_addr : StakedSet.StakedSortedSet N)
    (orphans : OrphanSet.OrphanConnectionSet) (notified : gset N) : TpuSenderDriver :=
  mk_driver (tx_worker_handle_map d) (active_staked_sorted_remote_peer d)
    (tx_worker_task_meta_map d) (tx_worker_set d) (tx_queues d)
    (connecting_tasks d) (connecting_meta d)
    (connecting_remote_peers d) (connecting_remote_peers_addr d)
    (identity d) (tasklet d) (tasklet_meta d) (last_peer_activity d) (being_evicted_peers d)
    blocked (next_leader_prediction_deadline d)
    conns (connection_version d) (endpoint_sequence d) pend staked_addr orphans
    (mk_rt (next_id (rt d)) (channels (rt d)) notified (responses (rt d))
       (closed_connections (rt d)) (watcher_cmds (rt d))).

Lemma remove_worker_eq now a p v d c :
  connection_map d !! a = Some c → Conn.connection_version c = v →
  let c' := c <| multiplexed_remote_peer_identity_with_stake ::= delete p |> in
  let g := delete p (multiplexed_remote_peer_identity_with_stake c) in
  let conns := <[a := c']> (connection_map d) in
  let pend := pending_connection_eviction_set d in
  let blocked := connecting_blocked_by_eviction_list d in
  let staked_addr :=
    (StakedSet.insert a (group_stake g) (active_staked_sorted_remote_peer_addr d)).2 in
  remove_worker_from_active_connection now a p v d =
    if decide (g = ∅) then
      if EvictionSet.contains (EvictionSet.Evict a v) pend then
        leave_state d a p c' (delete a conns) (tail blocked)
          (EvictionSet.remove (EvictionSet.Evict a v) pend).2 (StakedSet.remove a staked_addr).2
          (orphan_connection_set d)
          (match blocked with [] => notified (rt d) | w :: _ => {[notify w]} ∪ notified (rt d) end)
      else
        leave_state d a p c' conns blocked pend staked_addr
          (OrphanSet.insert {| OrphanSet.remote_peer_addr := a; OrphanSet.connection_version := v |}
             now (orphan_connection_set d)) (notified (rt d))
    else leave_state d a p c' conns blocked pend staked_addr (orphan_connection_set d) (notified (rt d)).
Proof.
  intros Ha Hv. cbv zeta. unfold remove_worker_from_active_connection.
  rewrite Ha, decide_False by (intros Hne; by apply Hne).
  change (multiplexed_remote_peer_identity_with_stake (c <| multiplexed_remote_peer_identity_with_stake
    ::= delete p |>)) with (delete p (multiplexed_remote_peer_identity_with_stake c)).
  case_decide; [|by ds d]. destruct (EvictionSet.contains _ _); [|by ds d].
  unfold unblock_eviction_waiting_connection. ds d.
  match goal with |- context [mk_driver _ _ _ _ _ _ _ _ _ _ _ _ _ _ ?b] => by destruct b end.
Qed.

Lemma inv_worker_leaves X d id p h now :
  InvX X d → tx_worker_task_meta_map d !! id = Some p → tx_worker_handle_map d !! p = Some h →
  InvX X (remove_worker_from_active_connection now (h_remote_peer_addr h) p
            (h_connection_version h) (worker_gone id p d)).
Proof.
  intros (Hc & Hw & Hl & Hwt & Hd & Ht) Hid Hp. rewrite worker_gone_eq.
  destruct (li_handle _ _ _ _ _ _ _ Hl p h Hp) as (c & Ha & Hv & Hm).
  erewrite remove_worker_eq by done. drv.
  pose proof (work_forget _ _ _ _ _ _ Hw id p Hid) as Hw'.
  assert (waiters_inv (connecting_tasks d) (connecting_blocked_by_eviction_list d) (notified (rt d))
    (delete p (tx_worker_handle_map d)) (next_id (rt d))) as Hwt'.
  { apply (waiters_handles _ _ _ _ _ Hwt); [lia|]. intros q k [_ ?]%lookup_delete_Some. by left. }
  assert (∀ c', disjoint_inv (connecting_remote_peers d) (connecting_remote_peers_addr d)
    (delete p (tx_worker_handle_map d))
    (<[h_remote_peer_addr h := c']> (connection_map d))) as Hd'.
  { intros c'. destruct Hd as [D1 D2]. split.
    - intros q Hq. rewrite lookup_delete. case_decide; [done|by apply D1].
    - intros b Hb. rewrite lookup_insert_ne; [by apply D2|]. intros <-. by rewrite D2 in Ha. }
  case_decide as Hg; [destruct (EvictionSet.contains _ _) eqn:Em|];
    unfold leave_state, InvX; drv; split_and!; try done.
  - rewrite delete_insert_eq, Hg. by eapply link_retire.
  - destruct (connecting_blocked_by_eviction_list d) as [|w l]; [done|].
    by apply (waiters_notify _ _ _ _ _ Hwt').
  - rewrite delete_insert_eq. destruct (Hd' c) as [D1 D2]. split; [done|].
    intros b Hb. rewrite lookup_delete. case_decide; [done|]. by apply (dj_addr _ _ _ _ Hd).
  - rewrite Hg. apply link_orphan; try done.
    unfold EvictionSet.contains in Em. by apply bool_decide_eq_false in Em.
  - by apply link_leave.
Qed.

Lemma inv_drain X c d : InvX X d → InvX X (drain_channel c d).2.
Proof.
  intros (Hc & Hw & Hl & Hwt & Hd & Ht). unfold drain_channel, InvX. cbn [snd]. upd_simpl.
  split_and!; try done. eapply work_next; [done|lia|]. intros b. rewrite dom_delete_L. set_solver.
Qed.

Lemma inv_after_worker env now p e b d : Inv d → Inv (after_worker env now p e b d).
Proof.
  intros H. unfold after_worker. destruct (is_peer_unreachable e); [by apply inv_unreachable|].
  destruct b; [by apply inv_drop_peer|]. case_decide; [|done].
  apply inv_spawn_connecting. by ds d.
Qed.

(** The state on which the handler of an ended worker leaves the connection. *)
Definition worker_deregistered (p : N) d : TpuSenderDriver :=
  watch (DeregisterWatch p) (d <| being_evicted_peers ::= λ s, s ∖ {[p]} |>).

(** What the handler does, once the branches the invariant excludes are gone. *)
Lemma handle_worker_result_eq env now id completed d p h :
  Inv d → tx_worker_task_meta_map d !! id = Some p → tx_worker_handle_map d !! p = Some h →
  handle_worker_result env now (JoinOk id completed) d =
    let d1 := remove_worker_from_active_connection now (h_remote_peer_addr h) p
                (h_connection_version h) (worker_gone id p (worker_deregistered p d)) in
    let '(remaining, d2) := drain_channel (Worker.rx completed)
                              (d1 <| last_peer_activity ::= delete p |>) in
    let d3 := requeue env p (Worker.pending_tx completed)
                (requeue env p ((λ tx, (tx, 1)) <$> remaining) d2) in
    after_worker env now p (Worker.err completed) (bool_decide (p ∈ being_evicted_peers d)) d3.
Proof.
  intros (_ & _ & Hl & _) Hid Hp. destruct (li_handle _ _ _ _ _ _ _ Hl p h Hp) as (c & Ha & Hv & _).
  unfold handle_worker_result.
  replace (tx_worker_task_meta_map (d <| tx_worker_set ::= delete id |>) !! id) with (Some p) by (by ds d).
  set (dg := watch (DeregisterWatch p) (d <| tx_worker_set ::= delete id |>
      <| tx_worker_task_meta_map ::= delete id |>
      <| active_staked_sorted_remote_peer ::= λ s, (StakedSet.remove p s).2 |>)
    <| being_evicted_peers ::= λ s, s ∖ {[p]} |>).
  replace (tx_worker_handle_map dg !! p) with (Some h) by (by ds d).
  replace (connection_map (dg <| tx_worker_handle_map ::= delete p |>) !! h_remote_peer_addr h)
    with (Some c) by (by ds d).
  rewrite decide_True by done.
  replace (dg <| tx_worker_handle_map ::= delete p |>) with (worker_gone id p (worker_deregistered p d))
    by (by ds d).
  by replace (being_evicted_peers (watch (DeregisterWatch p) _)) with (being_evicted_peers d) by (by ds d).
Qed.

Lemma inv_worker_result env now r d : Inv d →
  (let id := match r with JoinOk id _ => id | JoinErr id => id end in is_Some (tx_worker_set d !! id)) →
  Inv (handle_worker_result env now r d).
Proof.
  intros H Hid. pose proof H as (Hc & Hw & Hl & Hwt & Hd & Ht).
  destruct r as [id completed|id]; cbn in Hid; apply (wi_task _ _ _ _ _ _ Hw) in Hid as [p Hid];
    pose proof Hid as (h & w & Hp & _)%(wi_meta _ _ _ _ _ _ Hw).
  - rewrite (handle_worker_result_eq env now id completed d p h H Hid Hp). cbv zeta.
    pose proof (inv_worker_leaves ∅ (worker_deregistered p d) id p h now) as Hlv.
    set (d1 := remove_worker_from_active_connection _ _ _ _ _) in *.
    assert (Inv d1) as H1 by (apply Hlv; by ds d). clearbody d1.
    pose proof (inv_drain ∅ (Worker.rx completed) (d1 <| last_peer_activity ::= delete p |>)) as H2.
    destruct (drain_channel _ _) as [remaining d2].
    apply inv_after_worker, inv_requeue, inv_requeue, H2. by ds d1.
  - unfold handle_worker_result.
    replace (tx_worker_task_meta_map (d <| tx_worker_set ::= delete id |>) !! id) with (Some p) by (by ds d).
    apply inv_unreachable. unfold Inv, InvX.
    pose proof (work_forget _ _ _ _ _ _ Hw id p Hid) as Hw'.
    pose proof (link_drop_handle _ _ _ _ _ _ _ Hl p) as Hl'.
    assert (waiters_inv (connecting_tasks d) (connecting_blocked_by_eviction_list d) (notified (rt d))
      (delete p (tx_worker_handle_map d)) (next_id (rt d))) as Hwt'.
    { apply (waiters_handles _ _ _ _ _ Hwt); [lia|]. intros q k [_ ?]%lookup_delete_Some. by left. }
    assert (disjoint_inv (connecting_remote_peers d) (connecting_remote_peers_addr d)
      (delete p (tx_worker_handle_map d)) (connection_map d)) as Hd'.
    { destruct Hd as [D1 D2]. split; [|done]. intros q Hq. rewrite lookup_delete.
      case_decide; [done|by apply D1]. }
    by ds d.
Qed.

(** ** Identity changes *)
Lemma inv_schedule_graceful_drop d : Inv d →
  work_inv (tx_worker_handle_map d) (tx_worker_task_meta_map d) (tx_worker_set d)
    (dom (channels (rt d))) (next_id (rt d)) (identity d) →
  tasklet_inv (<[next_id (rt d) := mk_gd (tx_worker_task_meta_map d) (tx_worker_set d) (tx_queues d)]>
    (tasklet d)) (N.succ (next_id (rt d))).
Proof.
  intros (_ & _ & _ & _ & _ & Ht) Hw tid gd [[<- <-]|[_ Hg]]%lookup_insert_Some.
  - split; [lia|]. split; [apply (wi_task _ _ _ _ _ _ Hw)|apply (wi_outlet _ _ _ _ _ _ Hw)].
  - destruct (Ht tid gd Hg). split; [lia|done].
Qed.

Lemma schedule_graceful_drop_eq d :
  schedule_graceful_drop_all_worker d =
    mk_driver ∅ (StakedSet.clear (active_staked_sorted_remote_peer d)) ∅ ∅ ∅ (connecting_tasks d)
       (connecting_meta d) (connecting_remote_peers d) (connecting_remote_peers_addr d) (identity d)
       (<[next_id (rt d) := mk_gd (tx_worker_task_meta_map d) (tx_worker_set d) (tx_queues d)]>
          (tasklet d))
       ({[next_id (rt d)]} ∪ tasklet_meta d) (last_peer_activity d) (being_evicted_peers d)
       (connecting_blocked_by_eviction_list d)
       (next_leader_prediction_deadline d) (connection_map d) (connection_version d)
       (endpoint_sequence d) (pending_connection_eviction_set d)
       (active_staked_sorted_remote_peer_addr d) (orphan_connection_set d)
       (mk_rt (N.succ (next_id (rt d))) (channels (rt d)) (notified (rt d)) (responses (rt d))
          (closed_connections (rt d)) (watcher_cmds (rt d))).
Proof. by ds d. Qed.

Lemma install_identity_eq k d :
  install_identity k d =
    (connecting_meta d,
     mk_driver ∅ (StakedSet.clear (active_staked_sorted_remote_peer d)) ∅ ∅ ∅ ∅ ∅ ∅ ∅ k
       (<[next_id (rt d) := mk_gd (tx_worker_task_meta_map d) (tx_worker_set d) (tx_queues d)]>
          (tasklet d))
       ({[next_id (rt d)]} ∪ tasklet_meta d) (last_peer_activity d) ∅ []
       (next_leader_prediction_deadline d) ∅ (connection_version d) (endpoint_sequence d)
       (EvictionSet.clear (pending_connection_eviction_set d))
       (StakedSet.clear (active_staked_sorted_remote_peer_addr d))
       (OrphanSet.clear (orphan_connection_set d))
       (mk_rt (N.succ (next_id (rt d))) (channels (rt d)) (notified (rt d)) (responses (rt d))
          (closed_connections (rt d)) (watcher_cmds (rt d)))).
Proof. by ds d. Qed.

Lemma link_empty X : link_inv X ∅ ∅ EvictionSet.empty OrphanSet.empty StakedSet.empty StakedSet.empty.
Proof.
  split; try (intros ? ?; by rewrite lookup_empty).
  - intros a v t (vs & Hvs & _). cbn in Hvs. by rewrite lookup_empty in Hvs.
  - intros p. rewrite lookup_empty. by intros [? ?].
  - apply EvictionSet.eviction_empty_wf.
  - apply OrphanSet.orphan_empty_wf.
  - apply StakedSet.staked_empty_wf.
  - apply StakedSet.staked_empty_wf.
Qed.

Lemma connecting_empty next ident : connecting_inv ∅ ∅ ∅ ∅ next ident.
Proof.
  split; try (intros *; rewrite !lookup_empty; done).
  - intros p id. setoid_rewrite lookup_empty. naive_solver.
  - intros a id. setoid_rewrite lookup_empty. naive_solver.
Qed.

Lemma work_empty chans next ident : (∀ c, c ∈ chans → (c < next)%N) →
  work_inv ∅ ∅ ∅ chans next ident.
Proof.
  intros Hc. split; try done; try (intros *; rewrite !lookup_empty; done).
Qed.

Lemma waiters_empty notified next : (∀ n, n ∈ notified → (n < next)%N) →
  waiters_inv ∅ [] notified ∅ next.
Proof.
  intros Hn. split; try done; try (intros *; rewrite !lookup_empty; done).
  - intros w Hw. by apply elem_of_nil in Hw.
  - constructor.
Qed.

Lemma disjoint_empty : disjoint_inv ∅ ∅ ∅ ∅.
Proof. by split; intros *; rewrite !lookup_empty. Qed.

Lemma inv_initial ident now : Inv (initial ident now : TpuSenderDriver).
Proof.
  unfold Inv, InvX, initial. drv. split_and!.
  - apply connecting_empty.
  - apply work_empty. intros c. rewrite dom_empty_L. set_solver.
  - apply link_empty.
  - apply waiters_empty. set_solver.
  - apply disjoint_empty.
  - intros tid gd. by rewrite lookup_empty.
Qed.

Lemma inv_install_identity k d : Inv d → Inv (install_identity k d).2.
Proof.
  intros H. pose proof H as (Hc & Hw & Hl & Hwt & Hd & Ht).
  rewrite install_identity_eq. unfold Inv, InvX. cbn [snd]. drv. split_and!.
  - apply connecting_empty.
  - apply work_empty. intros c Hin%(wi_chan _ _ _ _ _ _ Hw). lia.
  - apply link_empty.
  - apply waiters_empty. intros n Hn%(wt_notified _ _ _ _ _ Hwt). lia.
  - apply disjoint_empty.
  - by apply inv_schedule_graceful_drop.
Qed.

Lemma inv_update_identity env k d : Inv d → Inv (update_identity env k d).
Proof.
  intros H. unfold update_identity. pose proof (inv_install_identity k d H) as H'.
  destruct (install_identity k d) as [metas d']. unfold replay_connecting.
  apply inv_for_each; [|done]. intros m e _ He.
  apply inv_for_each; [|done]. intros p e' _. apply inv_spawn_connecting.
Qed.

(** ** Tasklets *)
Lemma inv_tasklet_result r d : Inv d → Inv (handle_tasklet_result r d).
Proof.
  intros (Hc & Hw & Hl & Hwt & Hd & Ht). unfold handle_tasklet_result, Inv, InvX. upd_simpl.
  split_and!; try done. intros tid gd [_ Hg]%lookup_delete_Some. by apply Ht.
Qed.

Lemma inv_set_tasklet d tid gd gd' : Inv d → tasklet d !! tid = Some gd →
  detached_inv gd' →
  Inv (d <| tasklet ::= <[tid := gd']> |>).
Proof.
  intros (Hc & Hw & Hl & Hwt & Hd & Ht) Hg Hg'. unfold Inv, InvX. upd_simpl.
  split_and!; try done. intros t g [[<- <-]|[_ Hg'']]%lookup_insert_Some; [|by apply Ht].
  split; [|done]. by destruct (Ht tid gd Hg).
Qed.

Lemma inv_graceful_drop_step tid r d : Inv d →
  (∃ gd, tasklet d !! tid = Some gd ∧
     is_Some (gd_worker_set gd !! match r with JoinOk id _ => id | JoinErr id => id end)) →
  Inv (graceful_drop_step tid r d).
Proof.
  intros H (gd & Hg & Hid). pose proof H as (_ & _ & _ & _ & _ & Ht).
  destruct (Ht tid gd Hg) as [_ [Hiff Hout]]. unfold graceful_drop_step. rewrite Hg.
  set (id := match r with JoinOk id _ => id | JoinErr id => id end) in *.
  apply Hiff in Hid as [p Hp]. upd_simpl. rewrite Hp.
  assert (∀ e : TpuSenderDriver, Inv e → tasklet e = tasklet d → Inv (e <| tasklet ::= <[tid :=
    gd <| gd_worker_set ::= delete id |> <| gd_worker_meta ::= delete id |> <| gd_queues ::= delete p |>]> |>))
    as Hset.
  { intros e He Hee. apply (inv_set_tasklet e tid gd); [done|by rewrite Hee|].
    unfold detached_inv. upd_simpl. split.
    - intros i. rewrite !lookup_delete_is_Some, Hiff. done.
    - intros i w [_ ?]%lookup_delete_Some. eauto. }
  destruct r as [i completed|i].
  - pose proof (inv_drain ∅ (Worker.rx completed) d H) as Hdr.
    destruct (drain_channel _ _) as [canceled d'] eqn:Ed. apply inv_call_back, Hset; [done|].
    injection Ed as _ <-. by ds d.
  - by apply inv_call_back, Hset.
Qed.

(** ** Leader prediction *)
Lemma inv_predict env now d : Inv d → Inv (try_predict_upcoming_leaders_if_necessary env now d).
Proof.
  intros H. unfold try_predict_upcoming_leaders_if_necessary.
  destruct (now <? _)%N; [done|]. destruct (leader_prediction_lookahead (config env)); [|by ds d].
  assert (∀ l (dv : TpuSenderDriver * gset N), Inv dv.1 → Inv (foldl (predict_leader env) dv l).1) as Hfold.
  { intros l. induction l as [|p l IH]; intros [e v] He; [done|]. cbn [foldl]. apply IH.
    unfold predict_leader. case_decide; [done|]. cbn.
    destruct (_ || _); [done|by apply inv_spawn_connecting]. }
  apply Hfold. by ds d.
Qed.

(** ** Incoming transactions *)
Lemma inv_accept env now tx d : Inv d → Inv (accept_tx env now tx d).
Proof.
  intros H. unfold accept_tx. set (d1 := d <| last_peer_activity ::= _ |>).
  assert (Inv d1) as H1 by (by ds d). clearbody d1.
  destruct (_ && _); [by apply inv_call_back|].
  destruct (tx_worker_handle_map d1 !! Txn.remote_peer tx) as [h|].
  - unfold try_send_to. destruct (channels (rt d1) !! sender h) as [c|] eqn:Ec; [|by apply inv_queue_tx].
    assert (∀ c', Inv (set_channel (sender h) c' d1)) as Hset.
    { intros c'. destruct H1 as (Hc & Hw & Hl & Hwt & Hd & Ht).
      unfold set_channel, Inv, InvX. upd_simpl. split_and!; try done.
      rewrite dom_insert_lookup_L by eauto. done. }
    destruct (try_send tx c) as [[] c']; [apply Hset|apply inv_call_back, Hset|apply inv_queue_tx, Hset].
  - pose proof (inv_queue_tx ∅ env (Txn.remote_peer tx) tx 1 d1 H1) as Hq.
    destruct (queue_tx_or_drop _ _ _ _ _) as [[] d2]; [by apply inv_spawn_connecting|done].
Qed.

(** ** Orphan connections *)
Lemma unblock_frame d :
  connection_map (unblock_eviction_waiting_connection d) = connection_map d ∧
  orphan_connection_set (unblock_eviction_waiting_connection d) = orphan_connection_set d.
Proof.
  unfold unblock_eviction_waiting_connection.
  destruct (connecting_blocked_by_eviction_list d); [done|by ds d].
Qed.

Lemma inv_close X d a c : InvX X d → connection_map d !! a = Some c →
  multiplexed_remote_peer_identity_with_stake c = ∅ →
  (∀ v t, ¬ OrphanSet.member (orphan_connection_set d) a v t) →
  InvX (X ∖ {[a]}) (close_connection (Conn.conn c) (d <| connection_map ::= delete a |>)).
Proof.
  intros (Hc & Hw & Hl & Hwt & [D1 D2] & Ht) Ha Hm Hno.
  pose proof (link_close _ _ _ _ _ _ _ Hl a c Ha Hm Hno) as Hl'.
  assert (disjoint_inv (connecting_remote_peers d) (connecting_remote_peers_addr d)
    (tx_worker_handle_map d) (delete a (connection_map d))) as Hd'.
  { split; [done|]. intros b Hb. rewrite lookup_delete. case_decide; [done|by apply D2]. }
  unfold close_connection, InvX. by ds d.
Qed.

Lemma inv_evict_orphans infos d :
  InvX (list_to_set (OrphanSet.remote_peer_addr <$> infos)) d →
  NoDup (OrphanSet.remote_peer_addr <$> infos) →
  (∀ i, i ∈ infos → ∃ c, connection_map d !! OrphanSet.remote_peer_addr i = Some c ∧
    Conn.connection_version c = OrphanSet.connection_version i ∧
    multiplexed_remote_peer_identity_with_stake c = ∅) →
  (∀ i v t, i ∈ infos →
    ¬ OrphanSet.member (orphan_connection_set d) (OrphanSet.remote_peer_addr i) v t) →
  ∃ d', evict_orphans infos d = Some d' ∧ Inv d' ∧
    orphan_connection_set d' = orphan_connection_set d ∧
    ∀ b, connection_map d' !! b =
      if decide (b ∈ OrphanSet.remote_peer_addr <$> infos) then None else connection_map d !! b.
Proof.
  revert d. induction infos as [|i infos IH]; intros d H Hnd Hall Hno.
  { exists d. split_and!; try done. }
  cbn in Hnd. apply NoDup_cons in Hnd as [Hi Hnd].
  destruct (Hall i) as (c & Hc & Hv & Hm); [left|]. cbn [evict_orphans]. unfold evict_orphan.
  rewrite Hc, decide_False, decide_False, decide_True by (done || by intros Hne; apply Hne).
  pose proof (inv_close _ _ _ c H Hc Hm) as H1.
  set (d1 := close_connection _ _) in *.
  assert (connection_map d1 = delete (OrphanSet.remote_peer_addr i) (connection_map d) ∧
          orphan_connection_set d1 = orphan_connection_set d) as [Ec Eo] by (by ds d).
  destruct (unblock_frame d1) as [Fc Fo]. cbn [mbind option_bind].
  destruct (IH (unblock_eviction_waiting_connection d1)) as (d' & -> & H' & Ho' & Hc').
  - apply inv_unblock.
    assert (list_to_set (OrphanSet.remote_peer_addr <$> infos) =
      list_to_set (OrphanSet.remote_peer_addr <$> i :: infos) ∖ {[OrphanSet.remote_peer_addr i]}
      :> gset N) as ->.
    { apply set_eq. intros b. cbn.
      rewrite elem_of_difference, elem_of_union, !elem_of_singleton, elem_of_list_to_set.
      split; [|tauto]. intros Hb. split; [by right|]. by intros ->. }
    apply H1. intros v t. apply Hno. left.
  - done.
  - intros j Hj. rewrite Fc, Ec, lookup_delete_ne; [apply Hall; by right|].
    intros Heq. apply Hi, list_elem_of_fmap. by exists j.
  - intros j v t Hj. rewrite Fo, Eo. apply Hno. by right.
  - exists d'. split_and!; [done|done|congruence|]. intros b. rewrite Hc', Fc, Ec. cbn.
    rewrite lookup_delete. repeat case_decide; set_solver.
Qed.

(** Enough fuel: the loop ends, without a failed assertion, and no expired
    orphan is left. *)
Lemma inv_try_evict_orphans fuel env now d : Inv d →
  OrphanSet.curr_len (orphan_connection_set d) < fuel →
  ∃ d', try_evict_orphan_fuel fuel env now d = Some d' ∧ Inv d' ∧
    ∀ t, OrphanSet.oldest (orphan_connection_set d') = Some t →
      (now < t + orphan_connection_ttl (config env))%N.
Proof.
  revert d. induction fuel as [|fuel IH]; intros d H Hf; [lia|]. cbn [try_evict_orphan_fuel].
  destruct (OrphanSet.oldest (orphan_connection_set d)) as [t|] eqn:Et.
  2:{ exists d. split_and!; [done..|]. congruence. }
  destruct (now <? _)%N eqn:Enow.
  { exists d. split_and!; [done..|]. intros t' ?. apply N.ltb_lt in Enow. by simplify_eq. }
  destruct (OrphanSet.pop (orphan_connection_set d)) as [[infos|] s] eqn:Ep.
  2:{ unfold OrphanSet.pop in Ep. by rewrite Et in Ep. }
  pose proof H as (Hc & Hw & Hl & Hwt & Hd & Ht).
  destruct (link_pop _ _ _ _ _ _ _ Hl infos s t Ep Et) as (Hl' & Hnd & Hall & Hno & Hlen).
  rewrite union_empty_r_L in Hl'.
  destruct (inv_evict_orphans infos (d <| orphan_connection_set := s |>)) as (d' & -> & H' & Ho & _).
  - unfold InvX. by ds d.
  - done.
  - intros i Hi. destruct (Hall i Hi) as (c & Hrest). exists c. by ds d.
  - intros i v t' Hi. replace (orphan_connection_set _) with s by (by ds d). by apply Hno.
  - cbn [mbind option_bind]. apply IH; [done|]. rewrite Ho.
    replace (orphan_connection_set (d <| _ := s |>)) with s by (by ds d). lia.
Qed.

(** ** The loop *)

(** What the runtime can deliver in a state: results of tasks that exist; a
    connection attempt that waits for an eviction ends only once notified. *)
Definition valid_event (ev : DriverEvent) d : Prop :=
  match ev with
  | EvWorker (JoinOk id completed) => ∃ w, tx_worker_set d !! id = Some w ∧
      Worker.rx completed = Worker.incoming_rx w ∧ Worker.pending_tx completed = Worker.tx_queue w
  | EvWorker (JoinErr id) => is_Some (tx_worker_set d !! id)
  | EvConnecting (JoinOk id _ | JoinErr id) =>
      ∃ t, connecting_tasks d !! id = Some t ∧ released (notified (rt d)) t
  | EvTasklet (JoinOk id _) => graceful_drop_done id d
  | _ => True
  end.

Lemma inv_before_select env now s : Inv (driver s) → Inv (driver (before_select env now s)).
Proof.
  intros H. unfold before_select, arm_timers.
  assert (Inv (try_predict_upcoming_leaders_if_necessary env now
    (do_eviction_if_required env now (driver s)))) as H' by (by apply inv_predict, inv_do_eviction).
  destruct s as [d t1 t2]. destruct (next_orphan_connection_expiration _ _); [|done].
  destruct (sleep_timer _); done.
Qed.

Lemma inv_select_branch env now ev s : Inv (driver s) → valid_event ev (driver s) →
  ∃ r, select_branch env now ev s = Some r ∧
    match r with inl s' => Inv (driver s') | inr d => d = driver s end.
Proof.
  intros H Hv. unfold select_branch. destruct ev as [tx| | | |c|r|r|r|changes].
  - eexists. split; [done|]. by apply inv_accept.
  - eexists. split; [done|]. done.
  - destruct (inv_try_evict_orphans (S (OrphanSet.curr_len (orphan_connection_set (driver s)))) env now
      (driver s) H (Nat.lt_succ_diag_r _)) as (d' & He & H' & _).
    unfold try_evict_orphan_connections. rewrite He. cbn. eexists. split; [done|]. done.
  - eexists. split; [done|]. done.
  - eexists. split; [done|]. destruct c; by apply inv_update_identity.
  - eexists. split; [done|]. apply inv_worker_result; [done|].
    destruct r; [destruct Hv as (w & Hw & _); cbn; eauto|done].
  - eexists. split; [done|]. apply inv_connecting_result; [done|]. by destruct r.
  - eexists. split; [done|]. by apply inv_tasklet_result.
  - eexists. split; [done|]. by apply inv_addr_change.
Qed.
End Loop.
