(* ===== verification/Connecting.v ===== *)
(** [ConnectingTask::run] of [crates/tpu-client/src/core.rs], one poll at a time: the
    task waits for its eviction, builds the configuration of the client, and gives the
    handshake until its timeout. [System] lets an attempt end with any result once it is
    released; the task does, and no later than its timeout. *)
From S2P Require Import Prelude Types Runtime Driver DriverInv DriverSafe DriverLoop.
Import Driver.

Module Connecting.

(** What the libraries answer: the TLS builder, the idle timeout that QUIC accepts, the
    QUIC configuration, and the endpoint. *)
Record Client := {
  protocol_versions : bool;
  client_auth_cert : bool;
  idle_timeout_fits : Duration → bool;
  quic_config : bool;
  connect_with : option ConnectError
}.

(** Between two polls; a handshake has a deadline. *)
Inductive Stage :=
  | Created
  | Waiting
  | Handshake (deadline : N)
  | Ended (result : N + ConnectingError).

(** From the configuration to the call of the endpoint; the [?]s in order. *)
Definition dial (client : Client) (max_idle_timeout : Duration) (now : N) (t : ConnectingTask) : Stage :=
  if negb (protocol_versions client) then Ended (inr CClientConfig)
  else if negb (client_auth_cert client) then Ended (inr CClientConfig)
  else if negb (idle_timeout_fits client max_idle_timeout) then Ended (inr CClientConfig)
  else if negb (quic_config client) then Ended (inr CClientConfig)
  else match connect_with client with
       | Some e => Ended (inr (CConnectError e))
       | None => Handshake (now + connection_timeout t)%N
       end.

(** [timeout(connection_timeout, connecting)]: the handshake is polled before the timer. *)
Definition poll_handshake (now : N) (handshake : option (N + ConnectionError)) (deadline : N) : Stage :=
  match handshake with
  | Some (inl conn) => Ended (inl conn)
  | Some (inr e) => Ended (inr (CConnectionError e))
  | None => if (deadline <=? now)%N then Ended (inr (CConnectionError TimedOut)) else Handshake deadline
  end.

(** One poll, with the notifications posted so far and what the handshake answers. *)
Definition start (client : Client) (max_idle_timeout : Duration) (now : N) (handshake : option (N + ConnectionError))
    (t : ConnectingTask) : Stage :=
  match dial client max_idle_timeout now t with
  | Handshake deadline => poll_handshake now handshake deadline
  | s => s
  end.
Definition poll (client : Client) (max_idle_timeout : Duration) (notified : gset N) (now : N)
    (handshake : option (N + ConnectionError)) (t : ConnectingTask) (s : Stage) : Stage :=
  match s with
  | Created | Waiting =>
      match wait_for_eviction t with
      | Some signal => if decide (signal ∈ notified) then start client max_idle_timeout now handshake t else Waiting
      | None => start client max_idle_timeout now handshake t
      end
  | Handshake deadline => poll_handshake now handshake deadline
  | Ended r => Ended r
  end.

(** A sequence of polls: what was posted, the time, and the answer of the handshake. *)
Record Poll := { p_notified : gset N; p_now : N; p_handshake : option (N + ConnectionError) }.
Definition polls (client : Client) (max_idle_timeout : Duration) (t : ConnectingTask) (l : list Poll) : Stage :=
  foldl (λ s p, poll client max_idle_timeout (p_notified p) (p_now p) (p_handshake p) t s) Created l.

Section Task.
Context (client : Client) (max_idle_timeout : Duration) (t : ConnectingTask).
Abbreviation poll := (Connecting.poll client max_idle_timeout).
Abbreviation polls := (Connecting.polls client max_idle_timeout t).

Definition deadline_by (now : N) (s : Stage) : Prop :=
  match s with Handshake deadline => (deadline ≤ now + connection_timeout t)%N | _ => True end.

Lemma poll_handshake_cases now h deadline :
  (∃ r, poll_handshake now h deadline = Ended r) ∨ (poll_handshake now h deadline = Handshake deadline ∧ (now < deadline)%N).
Proof.
  unfold poll_handshake. destruct h as [[?|?]|]; [by left; eexists..|].
  destruct (N.leb_spec deadline now); [by left; eexists|by right].
Qed.

Lemma start_cases now h : (∃ r, start client max_idle_timeout now h t = Ended r) ∨
  (start client max_idle_timeout now h t = Handshake (now + connection_timeout t)).
Proof.
  unfold start. destruct (dial _ _ now t) as [| |deadline|r] eqn:Ed; revert Ed; unfold dial;
    repeat case_match; try done; intros [= <-]; [|left; by eexists..].
  destruct (poll_handshake_cases now h (now + connection_timeout t)) as [?|[-> _]]; auto.
Qed.

(** The task has ended, or is past [Waiting], only if it was released. *)
Lemma polls_released l : match polls l with Created | Waiting => True | _ =>
  match wait_for_eviction t with Some n => ∃ p, p ∈ l ∧ n ∈ p_notified p | None => True end end.
Proof.
  induction l as [|p l IH] using rev_ind; [done|]. unfold Connecting.polls in *. rewrite foldl_app. cbn [foldl].
  destruct (wait_for_eviction t) as [n|] eqn:Ew; [|by repeat case_match].
  assert (∀ s : Stage, match s with Created | Waiting => True | _ => ∃ p, p ∈ l ∧ n ∈ p_notified p end →
    match poll (p_notified p) (p_now p) (p_handshake p) t s with
    | Created | Waiting => True | _ => ∃ q, q ∈ l ++ [p] ∧ n ∈ p_notified q end) as Hs; [|by apply Hs].
  assert ((∃ q, q ∈ l ∧ n ∈ p_notified q) → ∃ q, q ∈ l ++ [p] ∧ n ∈ p_notified q) as Hold
    by (intros (q & ? & ?); exists q; split; [set_solver|done]).
  intros s Hrel. unfold Connecting.poll. rewrite Ew. destruct s as [| |deadline|r]; [| |by apply Hold in Hrel; repeat case_match..];
    (case_decide as Hn; [|done]); assert (∃ q, q ∈ l ++ [p] ∧ n ∈ p_notified q) by (exists p; split; [set_solver|done]);
    by repeat case_match.
Qed.
End Task.

(** An attempt ends only as [System] lets it end: it exists and was released. *)
Theorem ended_attempt_is_a_valid_event `{MC : Mpsc Ch TpuSenderTxn} `{HI : HashIter} client idle t l r id (d : @TpuSenderDriver Ch)
  (Ht : connecting_tasks d !! id = Some t)
  (Hposted : Forall (λ p, p_notified p ⊆ notified (rt d)) l)
  (Hend : polls client idle t l = Ended r) : valid_event (EvConnecting (JoinOk id r)) d.
Proof.
  exists t. split; [done|]. pose proof (polls_released client idle t l) as H. rewrite Hend in H. unfold released.
  destruct (wait_for_eviction t) as [n|]; [|done]. destruct H as (p & Hp & Hn).
  rewrite Forall_forall in Hposted. by apply (Hposted p).
Qed.

(** An attempt ends: once a poll finds it released, any poll [connection_timeout] later
    finds it ended, whatever the handshake does. *)
Theorem attempt_ends_by_its_timeout client idle t l p k q
  (Hreleased : match wait_for_eviction t with Some n => n ∈ p_notified p | None => True end)
  (Hprev : ∀ deadline, polls client idle t l = Handshake deadline → (deadline ≤ p_now p + connection_timeout t)%N)
  (Hlate : (p_now p + connection_timeout t ≤ p_now q)%N) :
  ∃ r, polls client idle t (l ++ p :: k ++ [q]) = Ended r.
Proof.
  set (T := (p_now p + connection_timeout t)%N) in *.
  set (by_T := λ s : Stage, match s with Created | Waiting => False | Handshake deadline => (deadline ≤ T)%N | Ended _ => True end).
  assert (∀ n now h deadline, (deadline ≤ T)%N → by_T (poll client idle n now h t (Handshake deadline))) as Hkeep.
  { intros n now h deadline Hd. cbn [poll]. by destruct (poll_handshake_cases now h deadline) as [[r ->]|[-> _]]. }
  assert (by_T (poll client idle (p_notified p) (p_now p) (p_handshake p) t (polls client idle t l))) as Hp.
  { assert (by_T (start client idle (p_now p) (p_handshake p) t)) as Hs
      by (destruct (start_cases client idle t (p_now p) (p_handshake p)) as [[r ->]| ->]; cbn; [done|subst T; lia]).
    destruct (polls client idle t l) as [| |deadline|r] eqn:E; [| |apply Hkeep; by apply Hprev|done]; cbn [poll];
      (destruct (wait_for_eviction t); [by rewrite decide_True|done]). }
  unfold polls. rewrite foldl_app. cbn [foldl]. rewrite foldl_app. cbn [foldl]. fold (polls client idle t l).
  revert Hp. generalize (poll client idle (p_notified p) (p_now p) (p_handshake p) t (polls client idle t l)).
  induction k as [|a k IH]; intros s Hs; cbn [foldl].
  - destruct s as [| |deadline|r]; [done|done| |by exists r]. cbn [poll].
    destruct (poll_handshake_cases (p_now q) (p_handshake q) deadline) as [?|[_ Hlt]]; [done|]. cbn in Hs. lia.
  - apply IH. destruct s as [| |deadline|r]; [done|done|by apply Hkeep|done].
Qed.

(** An idle timeout that QUIC does not accept makes every attempt fail once it is
    released, with an error that is not retried. *)
Theorem unfit_idle_timeout_fails_every_attempt client idle t l p
  (Hunfit : idle_timeout_fits client idle = false)
  (Hreleased : match wait_for_eviction t with Some n => n ∈ p_notified p | None => True end) :
  polls client idle t (l ++ [p]) = Ended (inr CClientConfig).
Proof.
  assert (∀ now h, start client idle now h t = Ended (inr CClientConfig)) as Hs
    by (intros now h; unfold start, dial; rewrite Hunfit; by repeat case_match).
  assert (∀ l, match polls client idle t l with Created | Waiting => True | s => s = Ended (inr CClientConfig) end) as Hall.
  { clear l. induction l as [|a l IH] using rev_ind; [done|]. unfold polls in *. rewrite foldl_app. cbn [foldl].
    destruct (foldl _ Created l) as [| |deadline|r]; [| |done|done]; cbn [poll];
      (destruct (wait_for_eviction t); [case_decide; [|done]|]; by rewrite Hs). }
  specialize (Hall l). unfold polls in *. rewrite foldl_app. cbn [foldl].
  destruct (foldl _ Created l) as [| |deadline|r]; [| |done|done]; cbn [poll];
    (destruct (wait_for_eviction t); [rewrite decide_True by done|]; by rewrite Hs).
Qed.
End Connecting.
