(* ===== verification/System.v ===== *)
(** The driver with the tasks it spawned, as a transition system: iterations of
    the event loop (split where the code awaits), the steps of the workers, and
    the detached tasks. Every reachable state satisfies the driver's invariant,
    whatever the order of events, the answers of the services and the outcomes
    of the network. *)
From S2P Require Import Prelude Types StakedSet OrphanSet EvictionSet Eviction Runtime Worker Driver DriverInv DriverSafe DriverLoop.
Import Driver.

Section System.
Context `{HI : HashIter} {RO : ResponseOutlet}.
Context {Ch : Type} `{MC : Mpsc Ch TpuSenderTxn}.
Context `{SI : ValidatorStakeInfoService Stake} `{TI : LeaderTpuInfoService Tpu}.
Context `{ES : !Eviction.ConnectionEvictionStrategy Strategy} `{LP : UpcomingLeaderPredictor Pred}.
Abbreviation TpuSenderDriver := (@TpuSenderDriver Ch).
Abbreviation LoopState := (@LoopState Ch).
Abbreviation Runtime := (@Runtime Ch).
Implicit Types (d : TpuSenderDriver) (X : gset N) (s : LoopState).
Abbreviation Env := (@Env Stake Tpu Strategy Pred).
Implicit Types (env : Env).

(** What does not change while the driver runs. *)
Definition same_setup (cfg : TpuSenderConfig) env : Prop := config env = cfg.

(** ** Workers

    A worker drains its queue before it receives again. *)
Inductive worker_step (w : Worker.QuicTxSenderWorker) (r : Runtime)
    : Worker.QuicTxSenderWorker → Runtime → Prop :=
  | ws_recv (c c' : Ch) tx :
      Worker.tx_queue w = [] → channels r !! Worker.incoming_rx w = Some c →
      try_recv c = (Some tx, c') →
      worker_step w r (w <| Worker.tx_queue ::= λ q, q ++ [(tx, 1)] |>)
        (r <| channels ::= <[Worker.incoming_rx w := c']> |>)
  | ws_send tx n q result e w' rs :
      Worker.tx_queue w = (tx, n) :: q →
      Worker.process_tx result tx n (w <| Worker.tx_queue := q |>) = (e, w', rs) →
      worker_step w r w' (r <| responses ::= λ l, l ++ rs |>).

(** The result a finished worker hands back is its own. *)
Definition completed_of (w : Worker.QuicTxSenderWorker) (completed : Worker.TxSenderWorkerCompleted)
    : Prop :=
  Worker.rx completed = Worker.incoming_rx w ∧ Worker.pending_tx completed = Worker.tx_queue w.

Inductive task_step (d : TpuSenderDriver)
    : TpuSenderDriver → Prop :=
  | ts_worker id w w' r' :
      tx_worker_set d !! id = Some w → worker_step w (rt d) w' r' →
      task_step d (d <| tx_worker_set ::= <[id := w']> |> <| rt := r' |>)
  | ts_detached tid gd id w w' r' :
      tasklet d !! tid = Some gd → gd_worker_set gd !! id = Some w → worker_step w (rt d) w' r' →
      task_step d
        (d <| tasklet ::= <[tid := gd <| gd_worker_set ::= <[id := w']> |>]> |> <| rt := r' |>)
  | ts_drop tid gd id w completed :
      tasklet d !! tid = Some gd → gd_worker_set gd !! id = Some w → completed_of w completed →
      task_step d (graceful_drop_step tid (JoinOk id completed) d).

(** ** The system *)
Inductive Phase := Top | Waiting | Stopped.

(** A step carries the event it handles, with the state it is handled in. *)
Inductive step (cfg : TpuSenderConfig)
    : Phase * LoopState → option DriverEvent → Phase * LoopState → Prop :=
  | st_prepare env now s :
      same_setup cfg env →
      step cfg (Top, s) None (Waiting, before_select env now s)
  | st_branch env now ev s s' :
      same_setup cfg env → valid_event ev (driver s) →
      select_branch env now ev s = Some (inl s') →
      step cfg (Waiting, s) (Some ev) (Top, s')
  | st_stop env now ev s d :
      same_setup cfg env → valid_event ev (driver s) →
      select_branch env now ev s = Some (inr d) →
      step cfg (Waiting, s) (Some ev)
        (Stopped, s <| driver := schedule_graceful_drop_all_worker d |>)
  | st_task ph s d' :
      task_step (driver s) d' →
      step cfg (ph, s) None (ph, s <| driver := d' |>).

Definition start (ident now : N) : Phase * LoopState := (Top, mk_loop (initial ident now) None None).

(** Runs, with the events handled and the states they were handled in. *)
Inductive trace (cfg : TpuSenderConfig)
    : Phase * LoopState → list (TpuSenderDriver * DriverEvent) → Phase * LoopState → Prop :=
  | tr_nil c : trace cfg c [] c
  | tr_cons c ev c1 evs c2 :
      step cfg c ev c1 → trace cfg c1 evs c2 →
      trace cfg c (from_option (λ ev, [(driver c.2, ev)]) [] ev ++ evs) c2.

Definition reachable cfg ident now (c : Phase * LoopState) : Prop :=
  ∃ evs, trace cfg (start ident now) evs c.

(** ** The invariant holds in every reachable state *)
Lemma worker_step_frame w r w' r' : worker_step w r w' r' →
  Worker.remote_peer w' = Worker.remote_peer w ∧
  Worker.remote_peer_addr w' = Worker.remote_peer_addr w ∧
  Worker.incoming_rx w' = Worker.incoming_rx w ∧ Worker.cancel_notify w' = Worker.cancel_notify w ∧
  Worker.current_client_identity w' = Worker.current_client_identity w ∧
  Worker.output_tx w' = Worker.output_tx w ∧
  next_id r' = next_id r ∧ dom (channels r') = dom (channels r) ∧ notified r' = notified r.
Proof.
  intros [c c' tx _ Hc _|tx n q result e w2 rs _ Hp].
  - split_and!; try done. upd_simpl. apply dom_insert_lookup_L. eauto.
  - upd_simpl. revert Hp. unfold Worker.process_tx.
    destruct result; [case_decide|]; intros [= _ <- _]; done.
Qed.

Lemma inv_task_step d d' : Inv d → task_step d d' → Inv d'.
Proof.
  intros H Hs. pose proof H as (Hc & Hw & Hl & Hwt & Hd & Ht).
  destruct Hs as [id w w' r' Hid Hws|tid gd id w w' r' Hg Hid Hws|tid gd id w completed Hg Hid _].
  - apply worker_step_frame in Hws as (E1 & E2 & E3 & E4 & E5 & E6 & En & Ech & Eno).
    unfold Inv, InvX. upd_simpl. rewrite En, Ech, Eno. split_and!; try done.
    destruct Hw as [H1 H2 H3 H4 H5 H6 H7]. split; try done.
    + intros i. rewrite <-H1, lookup_insert_is_Some. destruct (decide (id = i)) as [<-|]; [|naive_solver].
      rewrite Hid. split; eauto.
    + intros i p Hi. destruct (H4 i p Hi) as (h & w0 & Hh & Hw0 & Hrest). exists h.
      destruct (decide (i = id)) as [->|Hne].
      * exists w'. rewrite lookup_insert_eq. assert (w0 = w) as -> by congruence.
        by rewrite E1, E2, E3, E4, E5.
      * exists w0. by rewrite lookup_insert_ne.
    + intros i w2 [[<- <-]|[_ ?]]%lookup_insert_Some; [rewrite E6|]; eauto.
  - apply worker_step_frame in Hws as (_ & _ & _ & _ & _ & E6 & En & Ech & Eno).
    unfold Inv, InvX. upd_simpl. rewrite En, Ech, Eno. split_and!; try done.
    intros t g [[<- <-]|[_ Hg']]%lookup_insert_Some; [|by apply Ht].
    destruct (Ht tid gd Hg) as [Hlt [Hiff Hout]]. split; [done|]. unfold detached_inv. upd_simpl.
    split; [|intros i w2 [[<- <-]|[_ ?]]%lookup_insert_Some; [rewrite E6|]; eauto]. intros i.
    rewrite <-Hiff, lookup_insert_is_Some. destruct (decide (id = i)) as [<-|]; [|naive_solver].
    rewrite Hid. split; eauto.
  - apply inv_graceful_drop_step; [done|]. exists gd. rewrite Hid. eauto.
Qed.

Lemma inv_stop d : Inv d → Inv (schedule_graceful_drop_all_worker d).
Proof.
  intros H. pose proof H as (Hc & Hw & Hl & Hwt & Hd & Ht).
  rewrite schedule_graceful_drop_eq.
  unfold Inv, InvX. drv. split_and!.
  - eapply connecting_next; [done|lia].
  - apply work_empty. intros c Hin%(wi_chan _ _ _ _ _ _ Hw). lia.
  - destruct Hl as [H1 H2 H3 H4 H5 H6 H7 H8 H9 H10 H11]. split; try done.
    all: try (intros ? ?; by rewrite lookup_empty). all: try apply StakedSet.staked_empty_wf.
    intros p. rewrite lookup_empty. by intros [? ?].
  - apply (waiters_handles _ _ _ _ _ Hwt); [lia|]. intros p h. by rewrite lookup_empty.
  - destruct Hd as [D1 D2]. by split.
  - by apply inv_schedule_graceful_drop.
Qed.

Lemma inv_step cfg c ev c' :
  Inv (driver c.2) → step cfg c ev c' → Inv (driver c'.2).
Proof.
  intros H Hs. destruct Hs as [env now s _|env now ev s s' _ Hv Hb|env now ev s d _ Hv Hb|ph s d' Ht];
    cbn [snd] in *.
  - by apply inv_before_select.
  - destruct (inv_select_branch env now ev s H Hv) as (r & Hr & Hr'). rewrite Hb in Hr.
    by injection Hr as <-.
  - destruct (inv_select_branch env now ev s H Hv) as (r & Hr & Hr'). rewrite Hb in Hr.
    injection Hr as <-. subst. upd_simpl. by apply inv_stop.
  - upd_simpl. by eapply inv_task_step.
Qed.

Lemma inv_trace cfg c evs c' :
  trace cfg c evs c' → Inv (driver c.2) → Inv (driver c'.2).
Proof. induction 1 as [|c ev c1 evs c2 Hs _ IH]; [done|]. intros H. by eapply IH, inv_step. Qed.

Lemma inv_start ident now : Inv (driver (start ident now).2).
Proof. unfold start. cbn [snd driver]. apply inv_initial. Qed.

Lemma reachable_inv cfg ident now c : reachable cfg ident now c → Inv (driver c.2).
Proof. intros [evs Htr]. eapply inv_trace; [done|apply inv_start]. Qed.
End System.
