(* ===== verification/Wiring.v ===== *)
(** Which connection a worker sends over. [connection_map] and the set of workers are
    changed by different handlers; in every reachable state of [System] each worker still
    holds the connection that the map has for its address. *)
From S2P Require Import Prelude Types StakedSet OrphanSet EvictionSet Eviction Runtime Worker Driver DriverInv DriverSafe DriverLoop System.
Import Driver.

Section Wiring.
Context `{HI : HashIter} {RO : ResponseOutlet}.
Context {Ch : Type} `{MC : Mpsc Ch TpuSenderTxn}.
Context `{SI : ValidatorStakeInfoService Stake} `{TI : LeaderTpuInfoService Tpu}.
Context `{ES : !Eviction.ConnectionEvictionStrategy Strategy} `{LP : UpcomingLeaderPredictor Pred}.
Abbreviation TpuSenderDriver := (@TpuSenderDriver Ch).
Implicit Types (d : TpuSenderDriver).
Abbreviation Env := (@Env Stake Tpu Strategy Pred).
Implicit Types (env : Env).
Abbreviation reachable := (@reachable HI RO Ch MC Stake SI Tpu TI Strategy ES Pred LP).

(** ** The two views of the wiring *)
Definition wires d : gmap N N := Conn.conn <$> connection_map d.
Definition lines d : gmap N (N * N) := (λ w, (Worker.remote_peer_addr w, Worker.connection w)) <$> tx_worker_set d.
Definition wired d : Prop := ∀ id a c, lines d !! id = Some (a, c) → wires d !! a = Some c.

(** Most steps keep both views, or drop workers and add connections. *)
Record grows d d' : Prop := { grows_lines : lines d' ⊆ lines d; grows_wires : wires d ⊆ wires d' }.
#[local] Instance grows_preorder : PreOrder grows.
Proof. split; [done|]. intros d1 d2 d3 [H1 H2] [H3 H4]. split; by etrans. Qed.

Lemma wired_grows d d' : grows d d' → wired d → wired d'.
Proof. intros [Hl Hw] H id a c Hid. eapply lookup_weaken; [|exact Hw]. eapply H, lookup_weaken; [exact Hid|exact Hl]. Qed.

Lemma wired_same d d' : connection_map d' = connection_map d → tx_worker_set d' = tx_worker_set d → wired d → wired d'.
Proof. intros Hc Hw. apply wired_grows. split; unfold wires, lines; [by rewrite Hw|by rewrite Hc]. Qed.

Lemma wired_for_each {A} (f : A → TpuSenderDriver → TpuSenderDriver) l d :
  (∀ a d, wired d → wired (f a d)) → wired d → wired (for_each_peer f l d).
Proof. intros Hf. unfold for_each_peer. revert d. induction l as [|a l IH]; intros d Hd; cbn; auto. Qed.

(** ** Steps that leave the wiring alone *)
Lemma wired_call_back r d : wired d → wired (call_back r d).
Proof. unfold call_back. by destruct response_outlet. Qed.
Lemma wired_drop_peer p reason d : wired d → wired (drop_peer_queued_tx p reason d).
Proof. intros H. unfold drop_peer_queued_tx. destruct (tx_queues d !! p); [by apply wired_call_back|done]. Qed.
Lemma wired_unreachable p d : wired d → wired (unreachable_peer p d).
Proof. apply wired_drop_peer. Qed.
Lemma wired_queue_tx env p tx n d : wired d → wired (queue_tx_or_drop env p tx n d).2.
Proof. intros H. unfold queue_tx_or_drop. case_decide; cbn [snd]; [by apply wired_call_back|done]. Qed.
Lemma wired_requeue env p l d : wired d → wired (requeue env p l d).
Proof. intros H. apply wired_for_each; [|done]. intros [tx n] d'. apply wired_queue_tx. Qed.
Lemma wired_unblock d : wired d → wired (unblock_eviction_waiting_connection d).
Proof. intros H. unfold unblock_eviction_waiting_connection. by destruct (connecting_blocked_by_eviction_list d). Qed.

(** ** Connecting *)

(** A new worker gets the connection of its address. *)
Lemma wired_install env p a d : wired d → wired (install_worker env p a d).
Proof.
  intros H. destruct (tx_worker_handle_map d !! p) eqn:Ep; [unfold install_worker; by rewrite Ep|].
  destruct (connection_map d !! a) as [c|] eqn:Ec; [|unfold install_worker; rewrite Ep, Ec; by apply wired_unreachable].
  rewrite (install_worker_eq env p a d c Ep Ec). intros id b x. unfold lines, wires. drv. rewrite !fmap_insert.
  rewrite (insert_id (Conn.conn <$> connection_map d)) by (by rewrite lookup_fmap, Ec).
  intros [[_ [= <- <-]]|[_ Hid]]%lookup_insert_Some; [by rewrite lookup_fmap, Ec|by apply (H id)].
Qed.

Lemma wired_spawn_connecting env p n d : wired d → wired (spawn_connecting env p n d).
Proof.
  unfold spawn_connecting. generalize 2. intros fuel. revert d. induction fuel as [|fuel IH]; intros d H; [done|].
  cbn [spawn_connecting_fuel]. do 3 (case_decide; [done|]).
  destruct (get_quic_dest_addr env p) as [a|]; [|by apply wired_unreachable].
  destruct (EvictionSet.contains_socket_addr a _); [done|]. case_decide; [by apply wired_install|].
  destruct (connecting_remote_peers_addr d !! a) as [id|]; [|by rewrite spawn_task_eq].
  destruct (connecting_meta d !! id); [done|by apply IH].
Qed.

Lemma wired_connect d a conn v : wired d → connection_map d !! a = None →
  wired (d <| connection_map ::= <[a := Conn.mk a conn v ∅]> |>).
Proof.
  intros H Ha. revert H. apply wired_grows. split; unfold lines, wires; upd_simpl; [done|]. rewrite fmap_insert.
  apply insert_subseteq. by rewrite lookup_fmap, Ha.
Qed.

Lemma wired_connecting_result env r d : Inv d → wired d →
  (let id := match r with JoinOk id _ => id | JoinErr id => id end in
   ∃ t, connecting_tasks d !! id = Some t ∧ released (notified (rt d)) t) →
  wired (handle_connecting_result env r d).
Proof.
  intros HI' H (t & Htask & Hrel). unfold handle_connecting_result. destruct r as [id res|id].
  - destruct (connecting_meta _ !! id) as [m|] eqn:Em; [|done].
    destruct (inv_forget ∅ d id t m HI' Htask Hrel Em) as (_ & _ & Hconn & _ & _).
    set (d' := forget_connecting _ _ _) in *.
    assert (wired d') as H' by (unfold d'; by rewrite forget_connecting_eq). clearbody d'.
    case_decide; [apply wired_for_each; [intros p e; apply wired_spawn_connecting|done]|].
    destruct res as [conn|[[]|e|]]; cbn [next_connection_version];
      try (apply wired_for_each; [intros q e'; apply wired_unreachable|done]).
    + apply wired_for_each; [intros q e'; apply wired_install|]. by apply wired_connect.
    + case_decide; (apply wired_for_each; [|done]); intros q e' He; [|by apply wired_unreachable].
      unfold reattempt. destruct (get_quic_dest_addr env q); [by apply wired_spawn_connecting|by apply wired_unreachable].
  - destruct (connecting_meta _ !! id) as [m|]; [|done]. apply wired_for_each; [|done]. intros p e He. by apply wired_drop_peer.
Qed.

(** ** Worker results *)

(** The connection under a worker has the worker's peer among its own. *)
Lemma connection_in_use d id w : Inv d → tx_worker_set d !! id = Some w →
  ∃ p c, tx_worker_task_meta_map d !! id = Some p ∧ connection_map d !! Worker.remote_peer_addr w = Some c ∧
    is_Some (multiplexed_remote_peer_identity_with_stake c !! p).
Proof.
  intros (_ & Hw & Hl & _) Hid. assert (is_Some (tx_worker_task_meta_map d !! id)) as [p Hp]
    by (apply (wi_task _ _ _ _ _ _ Hw); eauto).
  destruct (wi_meta _ _ _ _ _ _ Hw id p Hp) as (h & w' & Hh & Hw' & _ & Ha & _). simplify_eq.
  destruct (li_handle _ _ _ _ _ _ _ Hl p h Hh) as (c & Hc & _ & Hm). exists p, c. by rewrite Ha.
Qed.

Lemma lines_Some d id a x : lines d !! id = Some (a, x) ↔
  ∃ w, tx_worker_set d !! id = Some w ∧ Worker.remote_peer_addr w = a ∧ Worker.connection w = x.
Proof. unfold lines. rewrite lookup_fmap, fmap_Some. naive_solver. Qed.

(** The last worker of a connection takes it along; the others keep theirs. *)
Lemma wired_worker_leaves d id p h now : Inv d → wired d →
  tx_worker_task_meta_map d !! id = Some p → tx_worker_handle_map d !! p = Some h →
  wired (remove_worker_from_active_connection now (h_remote_peer_addr h) p (h_connection_version h)
           (worker_gone id p d)).
Proof.
  intros HI' H Hid Hp. pose proof HI' as (_ & Hw & Hl & _).
  destruct (li_handle _ _ _ _ _ _ _ Hl p h Hp) as (c & Ha & Hv & Hm).
  set (a := h_remote_peer_addr h) in *. rewrite worker_gone_eq.
  assert (∀ id' b x, delete id (lines d) !! id' = Some (b, x) → b = a →
    delete p (multiplexed_remote_peer_identity_with_stake c) ≠ ∅) as Hbusy.
  { intros id' b x [Hne Hl']%lookup_delete_Some -> Hg. apply lines_Some in Hl' as (w & Hw' & Hwa & _).
    destruct (connection_in_use d id' w HI' Hw') as (q & c' & Hq & Hc' & Hmq). rewrite Hwa in Hc'. simplify_eq.
    assert (delete p (multiplexed_remote_peer_identity_with_stake c) !! q = None) as Hn by (by rewrite Hg, lookup_empty).
    rewrite lookup_delete_ne in Hn by (intros ->; by apply Hne, (wi_inj _ _ _ _ _ _ Hw id id' q)).
    rewrite Hn in Hmq. by destruct Hmq. }
  assert (∀ c', Conn.conn c' = Conn.conn c → Conn.conn <$> <[a := c']> (connection_map d) = wires d) as Hsame.
  { intros c' Hc'. unfold wires. rewrite fmap_insert, Hc', insert_id; [done|]. by rewrite lookup_fmap, Ha. }
  assert (∀ id' b x, delete id (lines d) !! id' = Some (b, x) → wires d !! b = Some x) as Hkeep
    by (intros id' b x [_ Hl']%lookup_delete_Some; by eapply H).
  erewrite remove_worker_eq by done. unfold leave_state.
  case_decide as Hg; [destruct (EvictionSet.contains _ _)|];
    intros id' b x; unfold lines, wires; drv; rewrite fmap_delete; fold (lines d); intros Hl'.
  - rewrite fmap_delete, Hsame by done. rewrite lookup_delete_ne; [by eapply Hkeep|].
    intros <-. by apply (Hbusy id' a x).
  - rewrite Hsame by done. by eapply Hkeep.
  - rewrite Hsame by done. by eapply Hkeep.
Qed.

Lemma wired_drain c d : wired d → wired (drain_channel c d).2.
Proof. done. Qed.
Lemma wired_after_worker env now p e b d : wired d → wired (after_worker env now p e b d).
Proof.
  intros H. unfold after_worker. destruct (is_peer_unreachable e); [by apply wired_unreachable|].
  destruct b; [by apply wired_drop_peer|]. case_decide; [by apply wired_spawn_connecting|done].
Qed.
Lemma wired_forget_worker d id : wired d → wired (d <| tx_worker_set ::= delete id |>).
Proof. apply wired_grows. split; unfold lines, wires; upd_simpl; [rewrite fmap_delete; apply delete_subseteq|done]. Qed.

Lemma wired_worker_result env now r d : Inv d → wired d →
  (let id := match r with JoinOk id _ => id | JoinErr id => id end in is_Some (tx_worker_set d !! id)) →
  wired (handle_worker_result env now r d).
Proof.
  intros HI' H Hid. pose proof HI' as (_ & Hw & _).
  destruct r as [id completed|id]; cbn in Hid; apply (wi_task _ _ _ _ _ _ Hw) in Hid as [p Hid];
    pose proof Hid as (h & w & Hp & _)%(wi_meta _ _ _ _ _ _ Hw).
  - rewrite (handle_worker_result_eq env now id completed d p h HI' Hid Hp). cbv zeta.
    pose proof (wired_worker_leaves (worker_deregistered p d) id p h now) as Hlv.
    set (d1 := remove_worker_from_active_connection _ _ _ _ _) in *.
    assert (wired d1) as H1 by (apply Hlv; by ds d). clearbody d1. clear Hlv.
    pose proof (wired_drain (Worker.rx completed) (d1 <| last_peer_activity ::= delete p |>)) as H2.
    destruct (drain_channel _ _) as [remaining d2].
    apply wired_after_worker, wired_requeue, wired_requeue, H2. by ds d1.
  - unfold handle_worker_result.
    apply (wired_forget_worker d id) in H. revert H. generalize (d <| tx_worker_set ::= delete id |>). clear. intros d H.
    destruct (tx_worker_task_meta_map d !! id); [|done]. apply wired_unreachable. by ds d.
Qed.

(** ** Evictions *)

(** Only connections without workers are closed. *)
Record trims d d' : Prop := {
  trims_workers : tx_worker_set d' = tx_worker_set d;
  trims_map : ∀ a c, connection_map d !! a = Some c → multiplexed_remote_peer_identity_with_stake c ≠ ∅ →
    connection_map d' !! a = Some c
}.
#[local] Instance trims_preorder : PreOrder trims.
Proof. split; [done|]. intros d1 d2 d3 [H1 H2] [H3 H4]. split; [congruence|auto]. Qed.

Lemma wired_trims d d' : Inv d → trims d d' → wired d → wired d'.
Proof.
  intros HI' [Hw Hc] H id a x. replace (lines d') with (lines d) by (unfold lines; by rewrite Hw).
  intros Hl. pose proof (H id a x Hl) as Hx. apply lines_Some in Hl as (w & Hid & <- & _).
  destruct (connection_in_use d id w HI' Hid) as (p & c & _ & Ha & Hm). unfold wires in *. rewrite lookup_fmap in *.
  rewrite (Hc _ c Ha) by (intros E; rewrite E, lookup_empty in Hm; by destruct Hm). by rewrite Ha in Hx.
Qed.

Lemma evict_orphan_trims info d d' : evict_orphan info d = Some d' → trims d d'.
Proof.
  unfold evict_orphan. destruct (connection_map d !! _) as [c|] eqn:Ec; [|by intros [= <-]].
  repeat (case_decide; [by intros [= <-]|]). case_decide as Hm; [|done]. intros [= <-].
  unfold unblock_eviction_waiting_connection, close_connection.
  match goal with |- trims d (match ?l with _ => _ end) => destruct l end;
    (split; [by ds d|]; intros a c' Ha Hne;
     match goal with |- connection_map ?e !! _ = _ =>
       replace (connection_map e) with (delete (OrphanSet.remote_peer_addr info) (connection_map d)) by (by ds d) end;
     rewrite lookup_delete_ne; [done|congruence]).
Qed.

Lemma evict_orphans_trims infos d d' : evict_orphans infos d = Some d' → trims d d'.
Proof.
  revert d. induction infos as [|i infos IH]; intros d; cbn [evict_orphans]; [by intros [= <-]|].
  destruct (evict_orphan i d) as [d1|] eqn:E; [|done]. intros H. etrans; [by eapply evict_orphan_trims|by apply IH].
Qed.

Lemma try_evict_orphan_trims fuel env now d d' : try_evict_orphan_fuel fuel env now d = Some d' → trims d d'.
Proof.
  revert d. induction fuel as [|fuel IH]; intros d; cbn [try_evict_orphan_fuel]; [done|].
  destruct (OrphanSet.oldest _); [|by intros [= <-]]. destruct (now <? _)%N; [by intros [= <-]|].
  destruct (OrphanSet.pop _) as [[infos|] s]; [|by intros [= <-]].
  destruct (evict_orphans infos _) as [d1|] eqn:E; [|done]. intros H.
  etrans; [|by apply IH]. apply evict_orphans_trims in E as [E1 E2]. by split.
Qed.

Lemma evict_peer_same d ns p :
  connection_map (evict_peer (d, ns) p).1 = connection_map d ∧ tx_worker_set (evict_peer (d, ns) p).1 = tx_worker_set d.
Proof.
  unfold evict_peer. destruct (tx_worker_handle_map d !! p); [|done]. case_match; [|done]. case_decide; [done|].
  match goal with |- context [foldl evict_multiplexed (?e, ?n) ?l] =>
    assert (connection_map e = connection_map d ∧ tx_worker_set e = tx_worker_set d) as He by done;
    revert He; generalize e n l end.
  intros e n l. revert e n. induction l as [|q l IH]; intros e n [E1 E2]; [done|]. cbn [foldl evict_multiplexed].
  case_match; apply IH; by ds e.
Qed.

Lemma wired_do_eviction env now d : wired d → wired (do_eviction_if_required env now d).
Proof.
  intros H. unfold do_eviction_if_required. destruct (decide _) as [|_]; [done|].
  assert (∀ l ns e, wired e → wired (foldl evict_peer (e, ns) l).1) as Hfold.
  { intros l. induction l as [|p l IH]; intros ns e He; [done|]. cbn [foldl].
    destruct (evict_peer_same e ns p) as [E1 E2]. destruct (evict_peer (e, ns) p) as [e' ns']. by apply IH, (wired_same e). }
  specialize (Hfold (make_eviction_plan env now d) [] d H). destruct (foldl evict_peer _ _) as [e ns]. cbn [fst] in Hfold.
  revert e Hfold. induction ns as [|n ns IH]; intros e He; [done|]. by apply IH.
Qed.

Lemma wired_addr_change env changed d : wired d → wired (handle_remote_peer_addr_change env changed d).
Proof.
  intros H. apply wired_for_each; [|done]. clear d H. intros p d H. unfold addr_changed.
  destruct (tx_worker_handle_map d !! p); [|done]. destruct (get_quic_dest_addr env p); [by case_decide|done].
Qed.

(** ** Identities, predictions and transactions *)
Lemma wired_no_worker d : tx_worker_set d = ∅ → wired d.
Proof. intros E id a x. unfold lines. by rewrite E, fmap_empty, lookup_empty. Qed.

Lemma wired_update_identity env k d : wired (update_identity env k d).
Proof.
  unfold update_identity. rewrite install_identity_eq. unfold replay_connecting.
  apply wired_for_each; [|by apply wired_no_worker]. intros m e He.
  apply wired_for_each; [|done]. intros p e'. apply wired_spawn_connecting.
Qed.

Lemma wired_predict env now d : wired d → wired (try_predict_upcoming_leaders_if_necessary env now d).
Proof.
  intros H. unfold try_predict_upcoming_leaders_if_necessary. destruct (now <? _)%N; [done|].
  destruct (leader_prediction_lookahead (config env)); [|done].
  assert (∀ l (dv : TpuSenderDriver * gset N), wired dv.1 → wired (foldl (predict_leader env) dv l).1) as Hfold.
  { intros l. induction l as [|p l IH]; intros [e v] He; [done|]. cbn [foldl]. apply IH.
    unfold predict_leader. case_decide; [done|]. cbn. destruct (_ || _); [done|by apply wired_spawn_connecting]. }
  by apply Hfold.
Qed.

Lemma wired_accept env now tx d : wired d → wired (accept_tx env now tx d).
Proof.
  intros H. unfold accept_tx. set (d1 := d <| last_peer_activity ::= _ |>).
  assert (wired d1) as H1 by done. clearbody d1. destruct (_ && _); [by apply wired_call_back|].
  destruct (tx_worker_handle_map d1 !! Txn.remote_peer tx) as [h|].
  - unfold try_send_to. destruct (channels (rt d1) !! sender h) as [c|]; [|by apply wired_queue_tx].
    destruct (try_send tx c) as [[] c']; [done|by apply wired_call_back|by apply wired_queue_tx].
  - pose proof (wired_queue_tx env (Txn.remote_peer tx) tx 1 d1 H1) as Hq.
    destruct (queue_tx_or_drop _ _ _ _ _) as [[] d2]; [by apply wired_spawn_connecting|done].
Qed.

(** ** The system *)
Lemma worker_step_line w r w' r' : worker_step w r w' r' →
  (Worker.remote_peer_addr w', Worker.connection w') = (Worker.remote_peer_addr w, Worker.connection w).
Proof.
  intros Hs. destruct Hs as [c c' tx _ _ _|tx n q result e w2 rs _ Hp]; [done|]. revert Hp. unfold Worker.process_tx.
  destruct result; [case_decide|]; by intros [= _ <- _].
Qed.

Lemma wired_task_step d d' : wired d → task_step d d' → wired d'.
Proof.
  intros H Hs. destruct Hs as [id w w' r' Hid Hws|tid gd id w w' r' _ _ Hws|tid gd id w completed Hg _ _].
  - revert H. apply wired_grows. split; [|done]. unfold lines. upd_simpl.
    rewrite fmap_insert, (worker_step_line _ _ _ _ Hws), insert_id; [done|]. by rewrite lookup_fmap, Hid.
  - done.
  - revert H. apply wired_same; unfold graceful_drop_step; rewrite Hg; case_match; try done;
      unfold call_back, drain_channel; by destruct response_outlet.
Qed.

Lemma wired_select_branch env now ev s r : Inv (driver s) → wired (driver s) → valid_event ev (driver s) →
  select_branch env now ev s = Some (inl r) → wired (driver r).
Proof.
  intros HI' H Hv. unfold select_branch. destruct ev as [tx| | | |c|r'|r'|r'|changes].
  - intros [= <-]. by apply wired_accept.
  - done.
  - unfold try_evict_orphan_connections. destruct (try_evict_orphan_fuel _ _ _ _) as [d'|] eqn:E; [|done].
    intros [= <-]. apply (wired_trims (driver s)); [done| |done]. by eapply try_evict_orphan_trims.
  - by intros [= <-].
  - intros [= <-]. destruct c; apply wired_update_identity.
  - intros [= <-]. apply wired_worker_result; [done..|]. destruct r'; [destruct Hv as (w & Hw & _); cbn; eauto|done].
  - intros [= <-]. apply wired_connecting_result; [done..|]. by destruct r'.
  - by intros [= <-].
  - intros [= <-]. by apply wired_addr_change.
Qed.

Lemma wired_before_select env now s : wired (driver s) → wired (driver (before_select env now s)).
Proof.
  intros H. unfold before_select, arm_timers. apply (wired_do_eviction env now) in H. apply (wired_predict env now) in H.
  destruct s as [d t1 t2]. destruct (next_orphan_connection_expiration _ _); [|done]. by destruct (sleep_timer _).
Qed.

Lemma wired_step cfg c ev c' : Inv (driver c.2) → wired (driver c.2) → step cfg c ev c' → wired (driver c'.2).
Proof.
  intros HI' H Hs. destruct Hs as [env now s _|env now ev s s' _ Hv Hb|env now ev s d _ Hv Hb|ph s d' Ht]; cbn [snd] in *.
  - by apply wired_before_select.
  - by eapply wired_select_branch.
  - by apply wired_no_worker.
  - by eapply wired_task_step.
Qed.

Lemma wired_trace cfg c evs c' : trace cfg c evs c' → Inv (driver c.2) → wired (driver c.2) → wired (driver c'.2).
Proof.
  induction 1 as [|c ev c1 evs c2 Hs _ IH]; [done|]. intros HI' H. apply IH; [by eapply inv_step|by eapply wired_step].
Qed.

Lemma reachable_wired cfg ident now c : reachable cfg ident now c → wired (driver c.2).
Proof. intros [evs Htr]. eapply wired_trace; [done|apply inv_start|]. by apply wired_no_worker. Qed.

(** A worker sends over the connection that the map has for its address. *)
Lemma worker_connection cfg ident now c id w : reachable cfg ident now c → tx_worker_set (driver c.2) !! id = Some w →
  ∃ conn, connection_map (driver c.2) !! Worker.remote_peer_addr w = Some conn ∧ Worker.connection w = Conn.conn conn.
Proof.
  intros Hr Hid. pose proof (reachable_wired cfg ident now c Hr id (Worker.remote_peer_addr w) (Worker.connection w)) as H.
  unfold wires in H. rewrite lookup_fmap, fmap_Some in H. destruct H as (conn & ? & ?); [apply lines_Some; eauto|eauto].
Qed.
End Wiring.
