(* ===== verification/Conserve.v ===== *)
(** Conservation of transactions: every transaction the driver accepted is, by
    signature and with multiplicity, in exactly one place: a peer's queue, a
    worker's channel or queue, a detached set of workers, or a response given to
    the callback. *)
From S2P Require Import Prelude Types StakedSet OrphanSet EvictionSet Eviction Runtime Worker Driver DriverInv DriverSafe DriverLoop System.
Import Driver.

#[local] Arguments count_queue : simpl never.
#[local] Arguments count_txns : simpl never.
#[local] Arguments count_responses : simpl never.
#[local] Arguments map_sum : simpl never.

Section Conserve.
Context `{HI : HashIter} {RO : ResponseOutlet}.
Context {Ch : Type} `{MC : Mpsc Ch TpuSenderTxn}.
Context `{SI : ValidatorStakeInfoService Stake} `{TI : LeaderTpuInfoService Tpu}.
Context `{ES : !Eviction.ConnectionEvictionStrategy Strategy} `{LP : UpcomingLeaderPredictor Pred}.
Abbreviation TpuSenderDriver := (@TpuSenderDriver Ch).
Implicit Types (d : TpuSenderDriver) (sig : N).
Abbreviation Env := (@Env Stake Tpu Strategy Pred).
Implicit Types (env : Env).

Definition in_workers sig (m : gmap N Worker.QuicTxSenderWorker) : nat :=
  map_sum (λ w, count_queue sig (Worker.tx_queue w)) m.
Definition in_detached sig (gd : GracefulDrop) : nat :=
  in_queues sig (gd_queues gd) + in_workers sig (gd_worker_set gd).

Definition total sig d : nat :=
  in_queues sig (tx_queues d) + in_channels sig (channels (rt d)) +
  in_workers sig (tx_worker_set d) + map_sum (in_detached sig) (tasklet d) +
  count_responses sig (responses (rt d)).

Lemma total_initial sig ident now : total sig (initial ident now : TpuSenderDriver) = 0.
Proof.
  unfold total, initial, in_queues, in_channels, in_workers. drv. by rewrite !map_sum_empty.
Qed.

(** ** Handlers with a response outlet *)
Section Outlet.
Context (env : Env) (Hout : response_outlet = true).

Lemma total_call_back sig r d : total sig (call_back r d) = total sig d + count_response sig r.
Proof.
  unfold call_back. rewrite Hout. unfold total. upd_simpl. rewrite count_responses_app.
  change (count_responses sig [r]) with (count_response sig r + 0). lia.
Qed.

Lemma total_drop_peer sig p reason d : total sig (drop_peer_queued_tx p reason d) = total sig d.
Proof.
  unfold drop_peer_queued_tx. destruct (tx_queues d !! p) as [q|] eqn:Eq; [|done].
  rewrite total_call_back. unfold total. upd_simpl. cbn [count_response].
  pose proof (in_queues_delete sig (tx_queues d) p) as Hd. rewrite Eq in Hd. cbn in Hd. lia.
Qed.

Lemma total_unreachable sig p d : total sig (unreachable_peer p d) = total sig d.
Proof. apply total_drop_peer. Qed.

Lemma total_queue_tx sig p tx n d :
  total sig (queue_tx_or_drop env p tx n d).2 = total sig d + txn_is sig tx.
Proof.
  unfold queue_tx_or_drop, drop_single_tx. case_decide; cbn [snd].
  - rewrite total_call_back. change (count_response sig _) with (txn_is sig tx + 0). lia.
  - unfold total. upd_simpl. rewrite in_queues_put.
    change (count_queue sig _) with (txn_is sig tx + 0). lia.
Qed.

Lemma total_for_each {A} sig (f : A → TpuSenderDriver → TpuSenderDriver) l d :
  (∀ a d, a ∈ l → total sig (f a d) = total sig d) → total sig (for_each_peer f l d) = total sig d.
Proof.
  unfold for_each_peer. revert d. induction l as [|a l IH]; intros d Hf; cbn; [done|].
  rewrite IH by (intros; apply Hf; by right). apply Hf. by left.
Qed.

Lemma total_requeue sig p l d : total sig (requeue env p l d) = total sig d + count_queue sig l.
Proof.
  unfold requeue, for_each_peer. revert d. induction l as [|[tx n] l IH]; intros d; cbn [foldl]; [unfold count_queue; cbn; lia|].
  rewrite IH, total_queue_tx. change (count_queue sig (_ :: l)) with (txn_is sig tx + count_queue sig l).
  cbn [fst]. lia.
Qed.

(** The queue moves to the new worker; its channel is new and empty. *)
Lemma total_installed sig p a c d h1 h2 h3 h4 h5 h6 h7 h8 h9 h10 h11 h12 h13 h14 h15 h16 h17 h18 h19
    h20 h21 h22 h23 :
  work_inv (tx_worker_handle_map d) (tx_worker_task_meta_map d) (tx_worker_set d)
    (dom (channels (rt d))) (next_id (rt d)) (identity d) →
  total sig (mk_driver h1 h2 h3
    (<[next_id (rt d) + 2 := new_worker env p a c d]> (tx_worker_set d))%N
    (delete p (tx_queues d)) h4 h5 h6 h7 h8 (tasklet d) h9 h10 h11 h12 h13 h14 h15 h16 h17 h18 h19
    (mk_rt h20 (<[next_id (rt d) := channel (transaction_sender_worker_channel_capacity (config env))]>
          (channels (rt d))) h21 (responses (rt d)) h22 h23)) = total sig d.
Proof.
  intros Hw. unfold total. drv.
  pose proof (in_queues_delete sig (tx_queues d) p) as Hq.
  unfold in_workers, in_channels. rewrite !map_sum_insert_None.
  - rewrite buffered_channel. cbn [Worker.tx_queue new_worker].
    change (count_txns sig []) with 0. lia.
  - destruct (tx_worker_set d !! _) eqn:E; [|done].
    assert (next_id (rt d) + 2 < next_id (rt d))%N; [|lia].
    apply (wi_fresh _ _ _ _ _ _ Hw), (wi_task _ _ _ _ _ _ Hw). eauto.
  - apply not_elem_of_dom. intros Hin%(wi_chan _ _ _ _ _ _ Hw). lia.
Qed.

Lemma total_install sig p a d : Inv d → total sig (install_worker env p a d) = total sig d.
Proof.
  intros H. destruct (tx_worker_handle_map d !! p) eqn:Ep; [unfold install_worker; by rewrite Ep|].
  destruct (connection_map d !! a) as [c|] eqn:Ec.
  2:{ unfold install_worker. rewrite Ep, Ec. apply total_unreachable. }
  rewrite (install_worker_eq env p a d c Ep Ec). apply total_installed. by destruct H as (_ & Hw & _).
Qed.

Lemma total_spawn_connecting sig p n d : Inv d →
  total sig (spawn_connecting env p n d) = total sig d.
Proof.
  intros H. rewrite <-(spawn_connecting_fuel_exact env p n d 1) by done. cbn [spawn_connecting_fuel].
  repeat (destruct (decide _); [done|]).
  destruct (get_quic_dest_addr env p) as [a|]; [|apply total_unreachable].
  destruct (EvictionSet.contains_socket_addr _ _); [done|].
  destruct (decide _); [by apply total_install|].
  destruct (connecting_remote_peers_addr d !! a) as [id|].
  - destruct (connecting_meta d !! id); [by ds d|by ds d].
  - rewrite spawn_task_eq. by ds d.
Qed.

Lemma total_spawn_all {A} sig (f : A → TpuSenderDriver → TpuSenderDriver) l d :
  (∀ a d, Inv d → Inv (f a d) ∧ total sig (f a d) = total sig d) → Inv d →
  Inv (for_each_peer f l d) ∧ total sig (for_each_peer f l d) = total sig d.
Proof.
  intros Hf. unfold for_each_peer. revert d. induction l as [|a l IH]; intros d H; cbn; [done|].
  destruct (Hf a d H) as [Hi <-]. by apply IH.
Qed.

(** *** Evictions and notifications *)
Lemma total_notify sig n d : total sig (notify_one n d) = total sig d.
Proof. by ds d. Qed.

Lemma total_evict_peer sig dh p : total sig (evict_peer dh p).1 = total sig dh.1.
Proof.
  destruct dh as [d ns]. unfold evict_peer.
  destruct (tx_worker_handle_map d !! p) as [h|]; [|done].
  destruct (connection_map _ !! _) as [c|]; [|by ds d].
  case_decide; [by ds d|]. cbn [fst].
  enough (∀ l dh, total sig (foldl evict_multiplexed dh l).1 = total sig dh.1) as Hf
    by (rewrite Hf; by ds d).
  intros l. induction l as [|q l IH]; intros [e m]; cbn [foldl]; [done|].
  rewrite IH. unfold evict_multiplexed. destruct (tx_worker_handle_map _ !! _); by ds e.
Qed.

Lemma total_do_eviction sig now d : total sig (do_eviction_if_required env now d) = total sig d.
Proof.
  unfold do_eviction_if_required. destruct (decide _); [done|].
  assert (∀ l dh, total sig (foldl evict_peer dh l).1 = total sig dh.1) as Hf.
  { intros l. induction l as [|p l IH]; intros dh; cbn; [done|]. by rewrite IH, total_evict_peer. }
  specialize (Hf (make_eviction_plan env now d) (d, [])).
  destruct (foldl evict_peer _ _) as [d' ns]. cbn [fst] in Hf. rewrite <-Hf. clear Hf.
  revert d'. induction ns as [|m ns IH]; intros d'; cbn; [done|]. by rewrite IH, total_notify.
Qed.

Lemma total_predict sig now d : Inv d →
  total sig (try_predict_upcoming_leaders_if_necessary env now d) = total sig d.
Proof.
  intros H. unfold try_predict_upcoming_leaders_if_necessary.
  destruct (now <? _)%N; [done|]. destruct (leader_prediction_lookahead (config env)); [|by ds d].
  assert (∀ l (dv : TpuSenderDriver * gset N), Inv dv.1 →
    total sig (foldl (predict_leader env) dv l).1 = total sig dv.1) as Hfold.
  { intros l. induction l as [|p l IH]; intros [e v] He; [done|]. cbn [foldl].
    assert (Inv (predict_leader env (e, v) p).1 ∧
            total sig (predict_leader env (e, v) p).1 = total sig e) as [Hi Ht].
    { unfold predict_leader. case_decide; [done|]. cbn [fst].
      destruct (_ || _); [done|]. split; [by apply inv_spawn_connecting|by apply total_spawn_connecting]. }
    by rewrite IH, Ht. }
  rewrite Hfold; by ds d.
Qed.

(** *** Connection results *)
Lemma total_install_all sig a l d : Inv d →
  (∀ p, p ∈ l → connecting_remote_peers d !! p = None) →
  total sig (for_each_peer (λ p, install_worker env p a) l d) = total sig d.
Proof.
  unfold for_each_peer. revert d. induction l as [|p l IH]; intros d H Hl; [done|]. cbn [foldl].
  destruct (install_worker_peers env p a d) as [Hp _]. rewrite IH.
  - by apply total_install.
  - apply (inv_install_all env a [p] d H). intros q ->%list_elem_of_singleton. apply Hl. by left.
  - intros q Hq. rewrite Hp. apply Hl. by right.
Qed.

Lemma total_connected sig d a conn v l : Inv d → connection_map d !! a = None →
  connecting_remote_peers_addr d !! a = None →
  (∀ q, q ∈ l → connecting_remote_peers d !! q = None ∧ tx_worker_handle_map d !! q = None) →
  total sig (for_each_peer (λ p, install_worker env p a) l
    (d <| connection_map ::= <[a := Conn.mk a conn v ∅]> |>)) = total sig d.
Proof.
  intros H Ha Haddr Hl. destruct l as [|p l]; [by ds d|].
  set (d' := d <| connection_map ::= _ |>).
  assert (total sig (install_worker env p a d') = total sig d') as H1.
  { destruct (Hl p) as [Hp Hh]; [left|].
    assert (tx_worker_handle_map d' !! p = None) as Hh' by (by ds d).
    assert (connection_map d' !! a = Some (Conn.mk a conn v ∅)) as Hc'
      by (unfold d'; upd_simpl; by rewrite lookup_insert_eq).
    assert (work_inv (tx_worker_handle_map d') (tx_worker_task_meta_map d') (tx_worker_set d')
      (dom (channels (rt d'))) (next_id (rt d')) (identity d')) as Hw
      by (destruct H as (_ & Hw & _); by ds d).
    rewrite (install_worker_eq env p a d' _ Hh' Hc'). by apply total_installed. }
  change (for_each_peer _ (p :: l) d') with
    (for_each_peer (λ p, install_worker env p a) l (install_worker env p a d')).
  rewrite total_install_all.
  - rewrite H1. by ds d.
  - apply (inv_connected env d a conn v p []); try done.
    + intros q ->%list_elem_of_singleton. apply Hl. by left.
    + apply Hl. by left.
  - intros q Hq. destruct (install_worker_peers env p a d') as [-> _].
    destruct (Hl q) as [Hq' _]; [by right|]. by ds d.
Qed.

Lemma total_connecting_result sig r d : Inv d →
  (let id := match r with JoinOk id _ => id | JoinErr id => id end in
   ∃ t, connecting_tasks d !! id = Some t ∧ released (notified (rt d)) t) →
  total sig (handle_connecting_result env r d) = total sig d.
Proof.
  intros H (t & Htask & Hrel). unfold handle_connecting_result. destruct r as [id res|id].
  - destruct (connecting_meta (d <| connecting_tasks ::= delete id |>) !! id) as [m|] eqn:Em; [|by ds d].
    assert (connecting_meta d !! id = Some m) as Em' by (by ds d).
    destruct (inv_forget ∅ d id t m H Htask Hrel Em') as (H' & _ & Hconn & Haddr & Hpeers).
    assert (total sig (forget_connecting m id (d <| connecting_tasks ::= delete id |>)) = total sig d)
      as <- by (rewrite forget_connecting_eq; by ds d).
    set (d' := forget_connecting _ _ _) in *. clearbody d'.
    assert (∀ f : N → TpuSenderDriver → TpuSenderDriver,
      (∀ p e, Inv e → Inv (f p e) ∧ total sig (f p e) = total sig e) →
      total sig (for_each_peer f (multiplexed_remote_peer_identity_vec m) d') = total sig d') as Heach
      by (intros f Hf; by apply total_spawn_all).
    assert (∀ p n e, Inv e → Inv (spawn_connecting env p n e) ∧
      total sig (spawn_connecting env p n e) = total sig e) as Hspawn
      by (intros; split; [by apply inv_spawn_connecting|by apply total_spawn_connecting]).
    assert (∀ p e, Inv e → Inv (unreachable_peer p e) ∧
      total sig (unreachable_peer p e) = total sig e) as Hunr
      by (intros; split; [by apply inv_unreachable|by apply total_unreachable]).
    case_decide; [by apply Heach; auto|].
    destruct res as [conn|[[]|e|]]; cbn [next_connection_version]; try (by apply Heach; auto).
    + rewrite total_connected; by ds d'.
    + case_decide; apply Heach; intros p e' He'; [|by auto].
      unfold reattempt. destruct (get_quic_dest_addr env p); auto.
  - destruct (connecting_meta _ !! id) as [m|]; [|by ds d].
    rewrite total_for_each.
    + by ds d.
    + intros p e _. rewrite total_drop_peer. by ds e.
Qed.

(** *** Worker results *)
Lemma total_drain sig c d :
  total sig (drain_channel c d).2 + count_txns sig (drain_channel c d).1 = total sig d.
Proof.
  unfold drain_channel. cbn [fst snd]. unfold total. upd_simpl.
  assert (in_channels sig (delete c (channels (rt d))) +
    count_txns sig (from_option (λ c, (recv_all c).1) [] (channels (rt d) !! c)) =
    in_channels sig (channels (rt d))) as Hc; [|lia].
  unfold in_channels.
  pose proof (map_sum_delete_opt (λ c : Ch, count_txns sig (buffered c)) (channels (rt d)) c) as Hd.
  destruct (channels (rt d) !! c) as [ch|]; cbn [from_option] in *; [|done].
  by rewrite recv_all_buffered.
Qed.

Lemma total_after_worker sig now p e b d : Inv d →
  total sig (after_worker env now p e b d) = total sig d.
Proof.
  intros H. unfold after_worker. destruct (is_peer_unreachable e); [apply total_unreachable|].
  destruct b; [apply total_drop_peer|]. case_decide; [|done].
  rewrite total_spawn_connecting; by ds d.
Qed.

(** The handler of an ended worker: what the worker handed back and what
    was left in its channel is queued again, sent elsewhere or reported. *)
Lemma total_worker_result sig now id completed w d : Inv d →
  tx_worker_set d !! id = Some w → completed_of w completed →
  total sig (handle_worker_result env now (JoinOk id completed) d) = total sig d.
Proof.
  intros H Hid [Hrx Hpend]. pose proof H as (Hc & Hw & Hl & Hwt & Hd & Ht).
  destruct (tx_worker_task_meta_map d !! id) as [p|] eqn:Em.
  2:{ exfalso. apply (eq_None_not_Some (tx_worker_task_meta_map d !! id)); [done|].
      apply (wi_task _ _ _ _ _ _ Hw). eauto. }
  destruct (wi_meta _ _ _ _ _ _ Hw id p Em) as (h & _ & Hp & _).
  rewrite (handle_worker_result_eq env now id completed d p h H Em Hp). cbv zeta.
  destruct (li_handle _ _ _ _ _ _ _ Hl p h Hp) as (c & Ha & Hv & _).
  pose proof (inv_worker_leaves ∅ (worker_deregistered p d) id p h now) as Hlv.
  assert (total sig (remove_worker_from_active_connection now (h_remote_peer_addr h) p
            (h_connection_version h) (worker_gone id p (worker_deregistered p d)))
          + count_queue sig (Worker.tx_queue w) = total sig d) as Htot.
  { rewrite (remove_worker_eq _ _ _ _ _ c) by (first [done | by ds d]).
    transitivity (total sig (worker_gone id p d) + count_queue sig (Worker.tx_queue w)).
    - f_equal. case_decide; [destruct (EvictionSet.contains _ _)|]; by ds d.
    - unfold total, worker_gone. upd_simpl. unfold in_workers.
      rewrite (map_sum_delete _ (tx_worker_set d) id w Hid). lia. }
  set (d1 := remove_worker_from_active_connection _ _ _ _ _) in *.
  assert (Inv d1) as H1 by (apply Hlv; by ds d). clearbody d1.
  pose proof (inv_drain ∅ (Worker.rx completed) (d1 <| last_peer_activity ::= delete p |>)) as H2.
  pose proof (total_drain sig (Worker.rx completed) (d1 <| last_peer_activity ::= delete p |>)) as Hdr.
  destruct (drain_channel _ _) as [remaining d2]. cbn [fst snd] in *.
  rewrite total_after_worker.
  - rewrite !total_requeue, count_queue_attempt1, Hpend.
    assert (total sig (d1 <| last_peer_activity ::= delete p |>) = total sig d1) by (by ds d1). lia.
  - apply inv_requeue, inv_requeue, H2. by ds d1.
Qed.

(** *** Detached workers *)
Lemma total_graceful_drop_step sig tid gd id w completed d : Inv d →
  tasklet d !! tid = Some gd → gd_worker_set gd !! id = Some w → completed_of w completed →
  total sig (graceful_drop_step tid (JoinOk id completed) d) = total sig d.
Proof.
  intros H Hg Hid [Hrx Hpend]. pose proof H as (_ & _ & _ & _ & _ & Ht).
  destruct (Ht tid gd Hg) as [_ [Hiff _]]. destruct (proj1 (Hiff id)) as [p Hp]; [eauto|].
  unfold graceful_drop_step. rewrite Hg. upd_simpl. rewrite Hp.
  pose proof (total_drain sig (Worker.rx completed) d) as Hdr.
  assert (tasklet (drain_channel (Worker.rx completed) d).2 = tasklet d) as Htk
    by (unfold drain_channel; by ds d).
  destruct (drain_channel _ _) as [canceled d2]. cbn [fst snd] in *.
  rewrite total_call_back. cbn [count_response].
  rewrite !count_queue_app, count_queue_attempt1, Hpend.
  unfold total. upd_simpl.
  set (gd' := gd <| gd_worker_set ::= _ |> <| gd_worker_meta ::= _ |> <| gd_queues ::= _ |>).
  pose proof (map_sum_insert (in_detached sig) (tasklet d2) tid gd') as Hs.
  rewrite Htk, Hg in Hs. cbn [from_option] in Hs.
  assert (in_detached sig gd' + count_queue sig (default [] (gd_queues gd !! p)) +
    count_queue sig (Worker.tx_queue w) = in_detached sig gd) as Hgd.
  { unfold in_detached, gd'. upd_simpl. unfold in_workers.
    rewrite (map_sum_delete _ (gd_worker_set gd) id w Hid).
    pose proof (in_queues_delete sig (gd_queues gd) p). lia. }
  unfold total in Hdr. rewrite Htk in Hdr |- *. lia.
Qed.

(** *** Identity changes: everything moves to the detached set *)
Lemma tasklet_fresh d : Inv d → tasklet d !! next_id (rt d) = None.
Proof.
  intros (_ & _ & _ & _ & _ & Ht). destruct (tasklet d !! _) as [gd|] eqn:E; [|done].
  destruct (Ht _ _ E). lia.
Qed.

Lemma total_schedule_graceful_drop sig d : Inv d →
  total sig (schedule_graceful_drop_all_worker d) = total sig d.
Proof.
  intros H. pose proof (tasklet_fresh d H) as Hf. rewrite schedule_graceful_drop_eq.
  unfold total. drv. rewrite map_sum_insert_None by done.
  unfold in_queues at 1, in_workers at 1. rewrite !map_sum_empty.
  unfold in_detached at 1. cbn [gd_queues gd_worker_set]. lia.
Qed.

Lemma total_install_identity sig k d : Inv d → total sig (install_identity k d).2 = total sig d.
Proof.
  intros H. rewrite <-(total_schedule_graceful_drop sig d H). by ds d.
Qed.

Lemma total_update_identity sig k d : Inv d → total sig (update_identity env k d) = total sig d.
Proof.
  intros H. unfold update_identity. pose proof (inv_install_identity k d H) as H'.
  pose proof (total_install_identity sig k d H) as Ht.
  destruct (install_identity k d) as [metas d']. cbn [snd] in *. rewrite <-Ht. unfold replay_connecting.
  apply total_spawn_all; [|done]. intros m e He. apply total_spawn_all; [|done].
  intros p e' He'. split; [by apply inv_spawn_connecting|by apply total_spawn_connecting].
Qed.

(** *** Address changes, incoming transactions, orphans *)
Lemma total_addr_change sig changed d :
  total sig (handle_remote_peer_addr_change env changed d) = total sig d.
Proof.
  apply total_for_each. intros p e _. unfold addr_changed.
  destruct (tx_worker_handle_map e !! p); [|done].
  destruct (get_quic_dest_addr env p); [destruct (decide _)|]; by ds e.
Qed.

Lemma total_accept sig now tx d : Inv d →
  total sig (accept_tx env now tx d) = total sig d + txn_is sig tx.
Proof.
  intros H. unfold accept_tx. set (d1 := d <| last_peer_activity ::= _ |>).
  assert (Inv d1) as H1 by (by ds d).
  assert (total sig d1 = total sig d) as <- by (by ds d). clearbody d1.
  destruct (_ && _).
  { rewrite total_call_back. change (count_response sig _) with (txn_is sig tx + 0). lia. }
  destruct (tx_worker_handle_map d1 !! Txn.remote_peer tx) as [h|].
  - unfold try_send_to. destruct (channels (rt d1) !! sender h) as [c|] eqn:Ec; [|apply total_queue_tx].
    assert (∀ c', total sig (set_channel (sender h) c' d1) + count_txns sig (buffered c) =
                  total sig d1 + count_txns sig (buffered c')) as Hset.
    { intros c'. unfold set_channel, total. upd_simpl. unfold in_channels.
      pose proof (map_sum_insert (λ c : Ch, count_txns sig (buffered c)) (channels (rt d1)) (sender h) c') as Hs.
      rewrite Ec in Hs. cbn [from_option] in Hs. lia. }
    pose proof (try_send_spec tx c) as Hspec. destruct (try_send tx c) as [[] c'].
    + destruct Hspec as (Hb & _). specialize (Hset c'). rewrite Hb, count_txns_app in Hset.
      change (count_txns sig [tx]) with (txn_is sig tx + 0) in Hset. lia.
    + destruct Hspec as (-> & _). specialize (Hset c). rewrite total_call_back.
      change (count_response sig _) with (txn_is sig tx + 0). lia.
    + destruct Hspec as (-> & _). specialize (Hset c). rewrite total_queue_tx. lia.
  - pose proof (total_queue_tx sig (Txn.remote_peer tx) tx 1 d1) as Hq.
    pose proof (inv_queue_tx ∅ env (Txn.remote_peer tx) tx 1 d1 H1) as Hi.
    destruct (queue_tx_or_drop _ _ _ _ _) as [[] d2]; [|done].
    by rewrite total_spawn_connecting.
Qed.

Lemma total_evict_orphans sig infos d d' :
  evict_orphans infos d = Some d' → total sig d' = total sig d.
Proof.
  revert d. induction infos as [|i infos IH]; intros d; cbn [evict_orphans]; [by intros [= ->]|].
  destruct (evict_orphan i d) as [e|] eqn:Ee; cbn [mbind option_bind]; [|done].
  intros ->%IH. revert Ee. unfold evict_orphan.
  destruct (connection_map d !! _); [|by intros [= ->]].
  repeat case_decide; try done; intros [= <-]; try done.
  unfold unblock_eviction_waiting_connection. destruct (connecting_blocked_by_eviction_list _); by ds d.
Qed.

Lemma total_try_evict sig fuel now d d' :
  try_evict_orphan_fuel fuel env now d = Some d' → total sig d' = total sig d.
Proof.
  revert d. induction fuel as [|fuel IH]; intros d; cbn [try_evict_orphan_fuel]; [done|].
  destruct (OrphanSet.oldest _); [|by intros [= ->]]. destruct (now <? _)%N; [by intros [= ->]|].
  destruct (OrphanSet.pop _) as [[infos|] s]; [|intros [= <-]; by ds d].
  destruct (evict_orphans infos _) as [e|] eqn:Ee; cbn [mbind option_bind]; [|done].
  intros ->%IH. rewrite (total_evict_orphans _ _ _ _ Ee). by ds d.
Qed.
End Outlet.

(** ** Steps and runs *)
Context (Hout : response_outlet = true).

(** A worker's step moves one transaction: from the channel to the queue, or
    from the queue to a response or to its end. *)
Lemma worker_step_total sig w r w' r' : worker_step w r w' r' → Worker.output_tx w = true →
  count_queue sig (Worker.tx_queue w') + in_channels sig (channels r') + count_responses sig (responses r') =
  count_queue sig (Worker.tx_queue w) + in_channels sig (channels r) + count_responses sig (responses r).
Proof.
  intros [c c' tx Hq Hc Hr|tx n q result e w2 rs Hq Hp] Ho; upd_simpl.
  - pose proof (try_recv_spec c) as [Hhd Htl]. rewrite Hr in Hhd, Htl. cbn in Hhd, Htl.
    unfold in_channels.
    pose proof (map_sum_insert (λ c : Ch, count_txns sig (buffered c)) (channels r)
      (Worker.incoming_rx w) c') as Hs.
    rewrite Hc in Hs. cbn [from_option] in Hs.
    destruct (buffered c) as [|tx' l]; [done|]. cbn in Hhd, Htl. injection Hhd as ->. rewrite Htl in Hs.
    rewrite count_queue_app. change (count_queue sig [(tx', 1)]) with (txn_is sig tx' + 0).
    change (count_txns sig (tx' :: l)) with (txn_is sig tx' + count_txns sig l) in Hs. lia.
  - rewrite Hq. change (count_queue sig ((tx, n) :: q)) with (txn_is sig tx + count_queue sig q).
    apply Worker.process_tx_queue in Hp as [(-> & resp & -> & _ & Hresp)|(_ & -> & ->)]; upd_simpl.
    + unfold Worker.call_back. upd_simpl. rewrite Ho, count_responses_app.
      change (count_responses sig [resp]) with (count_response sig resp + 0). rewrite Hresp. lia.
    + rewrite count_queue_app, app_nil_r.
      change (count_queue sig [(tx, n + 1)]) with (txn_is sig tx + 0). lia.
Qed.

Lemma task_step_total sig d d' : Inv d → task_step d d' → total sig d' = total sig d.
Proof.
  intros H Hs. pose proof H as (_ & Hw & _ & _ & _ & Ht).
  destruct Hs as [id w w' r' Hid Hws|tid gd id w w' r' Hg Hid Hws|tid gd id w completed Hg Hid Hcomp].
  - apply (worker_step_total sig) in Hws; [|rewrite (wi_outlet _ _ _ _ _ _ Hw id w Hid); apply Hout].
    assert (tasklet (d <| tx_worker_set ::= <[id := w']> |> <| rt := r' |>) = tasklet d) as Et by done.
    unfold total. upd_simpl. unfold in_workers.
    pose proof (map_sum_insert (λ w, count_queue sig (Worker.tx_queue w)) (tx_worker_set d) id w') as Hs.
    rewrite Hid in Hs. cbn [from_option] in Hs. lia.
  - destruct (Ht tid gd Hg) as [_ [_ Hgo]].
    apply (worker_step_total sig) in Hws; [|rewrite (Hgo id w Hid); apply Hout].
    unfold total. upd_simpl.
    set (gd' := gd <| gd_worker_set ::= _ |>).
    pose proof (map_sum_insert (in_detached sig) (tasklet d) tid gd') as Hs.
    rewrite Hg in Hs. cbn [from_option] in Hs.
    pose proof (map_sum_insert (λ w, count_queue sig (Worker.tx_queue w)) (gd_worker_set gd) id w') as Hs2.
    rewrite Hid in Hs2. cbn [from_option] in Hs2.
    assert (in_detached sig gd' =
      in_queues sig (gd_queues gd) + in_workers sig (<[id := w']> (gd_worker_set gd))) as E' by done.
    assert (in_detached sig gd = in_queues sig (gd_queues gd) + in_workers sig (gd_worker_set gd))
      as E by done.
    unfold in_workers in E, E'. lia.
  - by eapply (total_graceful_drop_step Hout).
Qed.

(** What an event brings into the driver, and what its handling gives up: the
    queues left in a detached task when it is reaped. *)
Definition accepted sig (ev : DriverEvent) : nat :=
  match ev with EvTx tx => txn_is sig tx | _ => 0 end.
Definition lost sig d (ev : DriverEvent) : nat :=
  match ev with
  | EvTasklet (JoinOk id _) => from_option (λ gd, in_queues sig (gd_queues gd)) 0 (tasklet d !! id)
  | _ => 0
  end.

(** No worker and no detached task panics. *)
Definition no_panic (ev : DriverEvent) : Prop :=
  match ev with
  | EvWorker (JoinErr _) | EvTasklet (JoinErr _) => False
  | _ => True
  end.

Lemma total_before_select sig env now s : Inv (driver s) →
  total sig (driver (before_select env now s)) = total sig (driver s).
Proof.
  intros H. unfold before_select, arm_timers.
  assert (total sig (try_predict_upcoming_leaders_if_necessary env now
    (do_eviction_if_required env now (driver s))) = total sig (driver s)) as <-.
  { rewrite total_predict by (by apply inv_do_eviction || done). apply total_do_eviction. }
  destruct s as [d t1 t2]. destruct (next_orphan_connection_expiration _ _); [|done].
  destruct (sleep_timer _); done.
Qed.

Lemma total_select_branch sig env now ev s s' : Inv (driver s) → valid_event ev (driver s) →
  no_panic ev → select_branch env now ev s = Some (inl s') →
  total sig (driver s') + lost sig (driver s) ev = total sig (driver s) + accepted sig ev.
Proof.
  intros H Hv Hp. unfold select_branch.
  destruct ev as [tx| | | |c|r|r|r|changes]; cbn [lost accepted].
  - intros [= <-]. upd_simpl. rewrite total_accept by done. lia.
  - done.
  - destruct (try_evict_orphan_connections env now (driver s)) as [d'|] eqn:Ee; [|done].
    intros [= <-]. upd_simpl. unfold try_evict_orphan_connections in Ee.
    rewrite (total_try_evict _ _ _ _ _ _ Ee). lia.
  - intros [= <-]. upd_simpl. lia.
  - intros [= <-]. upd_simpl. destruct c; cbn [handle_cnc]; rewrite total_update_identity by done; lia.
  - destruct r as [id completed|]; [|done]. destruct Hv as (w & Hw & Hrx & Hpend).
    intros [= <-]. upd_simpl. rewrite (total_worker_result env Hout sig now id completed w); [lia|done..].
  - intros [= <-]. upd_simpl. rewrite total_connecting_result; [lia|done|done|by destruct r].
  - destruct r as [id res|]; [|done]. destruct Hv as (gd & Hg & He).
    intros [= <-]. upd_simpl. unfold handle_tasklet_result. rewrite Hg. cbn [from_option].
    unfold total. upd_simpl. rewrite (map_sum_delete _ (tasklet (driver s)) id gd Hg).
    assert (in_detached sig gd = in_queues sig (gd_queues gd)) as ->; [|lia].
    unfold in_detached, in_workers. rewrite He, map_sum_empty. lia.
  - intros [= <-]. upd_simpl. rewrite total_addr_change. lia.
Qed.

Definition sum_events (f : TpuSenderDriver → DriverEvent → nat)
    (evs : list (TpuSenderDriver * DriverEvent)) : nat := foldr (λ e n, f e.1 e.2 + n) 0 evs.

Lemma trace_total sig cfg c evs c' : trace cfg c evs c' → Inv (driver c.2) →
  Forall (λ e, no_panic e.2) evs →
  total sig (driver c'.2) + sum_events (lost sig) evs =
  total sig (driver c.2) + sum_events (λ _, accepted sig) evs.
Proof.
  induction 1 as [c|c ev c1 evs c2 Hs _ IH]; intros H Hp; [cbn; lia|].
  pose proof (inv_step _ _ _ _ H Hs) as H1.
  destruct Hs as [env now s _|env now ev s s' _ Hv Hb|env now ev s d _ Hv Hb|ph s d' Ht];
    cbn [snd from_option app] in *.
  - specialize (IH H1 Hp). rewrite total_before_select in IH by done. done.
  - apply Forall_cons in Hp as [Hp1 Hp]. specialize (IH H1 Hp).
    pose proof (total_select_branch sig env now ev s s' H Hv Hp1 Hb) as Ht.
    unfold sum_events in *. cbn [foldr fst snd]. lia.
  - apply Forall_cons in Hp as [Hp1 Hp]. specialize (IH H1 Hp). revert IH. upd_simpl.
    destruct (inv_select_branch env now ev s H Hv) as (r & Hr & Hd). rewrite Hb in Hr.
    injection Hr as <-. subst d. rewrite total_schedule_graceful_drop by done.
    assert (ev = EvInletClosed) as ->.
    { unfold select_branch in Hb. destruct ev; try done.
      by destruct (try_evict_orphan_connections _ _ _). }
    unfold sum_events. cbn [foldr fst snd lost accepted]. done.
  - specialize (IH H1 Hp). revert IH. upd_simpl. by rewrite (task_step_total sig (driver s) d').
Qed.
End Conserve.
