(* ===== verification/Demo.v ===== *)
(** A concrete driver, on which the theorems' witnesses run: three peers, room
    for one connection, list channels, constant services. *)
From S2P Require Import Prelude Types StakedSet OrphanSet EvictionSet Eviction Runtime Worker Driver DriverInv DriverSafe DriverLoop System.
From Stdlib Require Import Strings.Byte.
Import Driver.

Module Demo.
#[export] Existing Instance elements_iter.
#[export] Instance outlet : ResponseOutlet := true.
#[export] Instance stakes : ValidatorStakeInfoService unit := λ _ p, Some (p * 10)%N.
#[export] Instance tpu : LeaderTpuInfoService (N → option N) :=
  {| get_quic_tpu_socket_addr f p := f p; get_quic_tpu_fwd_socket_addr f p := f p |}.

Definition cfg : TpuSenderConfig := {|
  endpoint_port_range := (8000, 10000)%N; max_idle_timeout := QUIC_MAX_TIMEOUT;
  max_connection_attempts := 3; transaction_sender_worker_channel_capacity := 10;
  connecting_timeout := 5; tpu_port := Forwards; Types.max_concurrent_connection := 1;
  max_local_port_binding_attempts := 3; num_endpoints := 2; max_send_attempt := 3;
  remote_peer_addr_watch_interval := from_secs 5; send_timeout := from_secs 2;
  leader_prediction_lookahead := None; send_fanout_slots := 12; tpu_info_override := [];
  orphan_connection_ttl := 100; unsafe_allow_arbitrary_txn_size := false |}.

Abbreviation Ch := (ListChannel.t TpuSenderTxn).
Definition env_at (addr : N → option N) : Env := {|
  config := cfg; stake_info_map := tt; leader_tpu_info_service := addr;
  eviction_strategy := Eviction.default_strategy; leader_predictor := ignorant |}.
(** Peers 1 and 3 share an address. *)
Definition env : Env := env_at (λ p, if (p =? 3)%N then Some 1001%N else Some (1000 + p)%N).

Definition tx (sig peer : N) : TpuSenderTxn := from_bytes sig peer [x00].

Abbreviation Loop := (@LoopState Ch).
Definition begin : Loop := mk_loop (initial 7 0) None None.

(** One event, from the top of the loop; the state is kept if the event cannot
    be handled. *)
Definition event (now : N) (ev : DriverEvent) (s : Loop) : Loop :=
  match select_branch env now ev (before_select env now s) with
  | Some (inl s') => s'
  | _ => s
  end.

(** A worker sends the head of its queue, successfully. *)
Definition send (id : N) (s : Loop) : option Loop :=
  w ← tx_worker_set (driver s) !! id;
  match Worker.tx_queue w with
  | (t, n) :: q =>
      let '(_, w', rs) := Worker.process_tx None t n (w <| Worker.tx_queue := q |>) in
      let d := driver s in
      Some (s <| driver := d <| tx_worker_set ::= <[id := w']> |>
                             <| rt := (rt d) <| responses ::= λ l, l ++ rs |> |> |>)
  | [] => None
  end.
Definition send_ok (id : N) (s : Loop) : Loop := default s (send id s).

Definition completed (w : N) (queue : list (TpuSenderTxn * nat)) : Worker.TxSenderWorkerCompleted :=
  {| Worker.err := None; Worker.rx := w; Worker.pending_tx := queue; Worker.canceled := true |}.

(** Peer 1 gets a transaction (attempt 0), connects (channel 1, task 3) and
    sends; peer 2 gets one and has to wait for an eviction (notification 4,
    attempt 5); peer 1's worker is cancelled; the attempt is released. *)
Definition s1 := event 1 (EvTx (tx 11 1)) begin.
Definition s2 := event 2 (EvConnecting (JoinOk 0 (inl 50%N))) s1.
Definition s3 := send_ok 3 s2.
Definition s4 := event 3 (EvTx (tx 12 2)) s3.
Definition s5 := event 4 (EvTx (tx 13 1)) s4.
Definition s6 := event 5 (EvWorker (JoinOk 3 (completed 1 []))) s5.
Definition s7 := event 6 (EvConnecting (JoinOk 5 (inl 51%N))) s6.

Definition log1 (s : Loop) (now : N) (ev : DriverEvent) :=
  [(driver (before_select env now s), ev)].

Lemma event_trace c evs now ev s :
  trace cfg c evs (Top, s) → valid_event ev (driver (before_select env now s)) →
  select_branch env now ev (before_select env now s) = Some (inl (event now ev s)) →
  trace cfg c (evs ++ log1 s now ev) (Top, event now ev s).
Proof.
  intros Htr Hv Hb. assert (trace cfg (Top, s) (log1 s now ev) (Top, event now ev s)) as H1.
  { apply (tr_cons cfg (Top, s) None (Waiting, before_select env now s)); [by apply (st_prepare cfg env now)|].
    apply (tr_cons cfg (Waiting, before_select env now s) (Some ev) (Top, event now ev s) []); [|constructor].
    by apply (st_branch cfg env now ev). }
  remember (Top, s) as c1 eqn:E. induction Htr as [c|c ev' c' evs c2 Hs Htr IH]; subst; [done|].
  rewrite <-app_assoc. econstructor; [done|]. by apply IH.
Qed.

Lemma send_trace c evs id s :
  trace cfg c evs (Top, s) → is_Some (send id s) → trace cfg c evs (Top, send_ok id s).
Proof.
  intros Htr [s' Hs']. unfold send_ok. rewrite Hs'. cbn [default].
  assert (trace cfg (Top, s) [] (Top, s')) as H1.
  { apply (tr_cons cfg (Top, s) None (Top, s') []); [|constructor]. unfold send in Hs'.
    destruct (tx_worker_set (driver s) !! id) as [w|] eqn:Hid; cbn in Hs'; [|done].
    destruct (Worker.tx_queue w) as [|[t n] q] eqn:Hq; [done|].
    injection Hs' as <-. apply st_task. eapply ts_worker; [done|]. by eapply (ws_send w _ t n q None). }
  clear Hs'. remember (Top, s) as c1 eqn:E. induction Htr as [c|c ev' c' evs c2 Hs Htr IH]; subst; [done|].
  econstructor; [done|]. by apply IH.
Qed.

Definition log : list (TpuSenderDriver * DriverEvent) :=
  log1 begin 1 (EvTx (tx 11 1)) ++ log1 s1 2 (EvConnecting (JoinOk 0 (inl 50%N))).

Lemma trace3 : trace cfg (start 7 0) log (Top, s3).
Proof.
  apply send_trace; [|eexists; by vm_compute].
  apply event_trace; [|eexists; split; by vm_compute|by vm_compute].
  apply (event_trace _ []); [constructor|done|by vm_compute].
Qed.
End Demo.
