(* ===== verification/Guarantees.v ===== *)
(** What the driver guarantees in every reachable state, and about every run:
    the properties the rest of the client relies on. The proofs read off the
    invariant of [DriverSafe], the wiring of [Wiring] and the accounting of
    [Conserve]; [Witnesses] runs them on the concrete driver of [Demo]. *)
From S2P Require Import Prelude Types StakedSet OrphanSet EvictionSet Eviction Runtime Worker Driver DriverInv DriverSafe DriverLoop System Wiring Conserve Demo.
Import Driver.

Section Guarantees.
Context `{HI : HashIter} {RO : ResponseOutlet}.
Context {Ch : Type} `{MC : Mpsc Ch TpuSenderTxn}.
Context `{SI : ValidatorStakeInfoService Stake} `{TI : LeaderTpuInfoService Tpu}.
Context `{ES : !Eviction.ConnectionEvictionStrategy Strategy} `{LP : UpcomingLeaderPredictor Pred}.
Abbreviation TpuSenderDriver := (@TpuSenderDriver Ch).
Abbreviation LoopState := (@LoopState Ch).
Implicit Types (d : TpuSenderDriver) (s : LoopState) (sig : N).
Abbreviation Env := (@Env Stake Tpu Strategy Pred).
Implicit Types (env : Env).
Abbreviation reachable := (@reachable HI RO Ch MC Stake SI Tpu TI Strategy ES Pred LP).
Abbreviation trace := (@trace HI RO Ch MC Stake SI Tpu TI Strategy ES Pred LP).

(** C1: In every history of the driver loop, its workers and its connection tasks (with a
    response callback installed), each accepted transaction is exactly once in a queue, a
    channel or a worker, or was answered by exactly one response, or was still queued in a
    graceful-drop tasklet when that was reaped: nothing is duplicated and, as long as no
    task panics, nothing else disappears. *)
Theorem transactions_are_conserved cfg ident now evs c sig
  (Hcb : response_outlet = true)
  (Hrun : trace cfg (start ident now) evs c)
  (Hp : Forall (λ e, no_panic e.2) evs) :
  total sig (driver c.2) + sum_events (lost sig) evs = sum_events (λ _, accepted sig) evs.
Proof.
  rewrite (trace_total Hcb sig cfg _ _ _ Hrun (inv_start ident now) Hp).
  unfold start. cbn [snd driver]. by rewrite total_initial.
Qed.

(** C2: In every reachable state each installed worker has exactly one live task, with the
    handle's channel and cancel notification and under the current identity. The connection
    it sends over is the one that the connection map has for its address, in the version
    the handle was installed with; its peer is multiplexed on that connection and is not
    also connecting. *)
Theorem workers_are_connected cfg ident now c (Hr : reachable cfg ident now c) :
  let d := driver c.2 in
  ∀ p h, tx_worker_handle_map d !! p = Some h →
    connecting_remote_peers d !! p = None ∧
    ∃ conn id w, connection_map d !! h_remote_peer_addr h = Some conn ∧
      Conn.remote_peer_addr conn = h_remote_peer_addr h ∧
      Conn.connection_version conn = h_connection_version h ∧
      is_Some (multiplexed_remote_peer_identity_with_stake conn !! p) ∧
      tx_worker_task_meta_map d !! id = Some p ∧ tx_worker_set d !! id = Some w ∧
      Worker.connection w = Conn.conn conn ∧
      Worker.remote_peer w = p ∧ Worker.remote_peer_addr w = h_remote_peer_addr h ∧
      Worker.incoming_rx w = sender h ∧ Worker.cancel_notify w = h_cancel_notify h ∧
      Worker.current_client_identity w = identity d ∧
      ∀ id', tx_worker_task_meta_map d !! id' = Some p → id' = id.
Proof.
  intros d p h Hp. destruct (reachable_inv _ _ _ _ Hr) as (_ & Hw & Hl & _ & Hd & _). fold d in Hw, Hl, Hd. split.
  - destruct (connecting_remote_peers d !! p) eqn:E; [|done]. by rewrite (dj_peer _ _ _ _ Hd p) in Hp by eauto.
  - destruct (li_handle _ _ _ _ _ _ _ Hl p h Hp) as (conn & Hc & Hv & Hm).
    destruct (wi_handle _ _ _ _ _ _ Hw p h Hp) as [(id & Hid) _].
    destruct (wi_meta _ _ _ _ _ _ Hw id p Hid) as (h' & w & Hh' & Hiw & E1 & E2 & E3 & E4 & E5). simplify_eq.
    destruct (worker_connection cfg ident now c id w Hr Hiw) as (conn' & Hc' & Hx). fold d in Hc'. rewrite E2, Hc in Hc'.
    injection Hc' as <-. exists conn, id, w. split_and!; try done; [by apply (li_addr _ _ _ _ _ _ _ Hl)|].
    intros id' Hid'. by eapply (wi_inj _ _ _ _ _ _ Hw id' id).
Qed.

(** C4: In every reachable state the three indices of connection attempts agree: each
    running task has its metadata, each connecting peer and each connecting address points
    to the one attempt that lists it, no attempt targets an address that is already
    connected, and all attempts use the current identity. *)
Theorem attempts_are_unique cfg ident now c (Hr : reachable cfg ident now c) :
  let d := driver c.2 in
  (∀ id, is_Some (connecting_tasks d !! id) ↔ is_Some (connecting_meta d !! id)) ∧
  (∀ p id, connecting_remote_peers d !! p = Some id ↔
     ∃ m, connecting_meta d !! id = Some m ∧ p ∈ multiplexed_remote_peer_identity_vec m) ∧
  (∀ a id, connecting_remote_peers_addr d !! a = Some id ↔
     ∃ m, connecting_meta d !! id = Some m ∧ remote_peer_address m = a) ∧
  (∀ a, is_Some (connecting_remote_peers_addr d !! a) → connection_map d !! a = None) ∧
  (∀ id m, connecting_meta d !! id = Some m → current_client_identity m = identity d).
Proof.
  intros d. destruct (reachable_inv _ _ _ _ Hr) as (Hc & _ & _ & _ & Hd & _). fold d in Hc, Hd.
  split_and!; [apply Hc|apply Hc|apply Hc|apply Hd|apply Hc].
Qed.

(** In every reachable state the orphan set holds exactly the connections without workers,
    at their current version, and the pending evictions are connections in use; the two
    indices of the eviction set agree. *)
Theorem orphans_are_idle_connections cfg ident now c (Hr : reachable cfg ident now c) :
  let d := driver c.2 in
  (∀ a v, (∃ t, OrphanSet.member (orphan_connection_set d) a v t) ↔
     ∃ conn, connection_map d !! a = Some conn ∧ Conn.connection_version conn = v ∧
       multiplexed_remote_peer_identity_with_stake conn = ∅) ∧
  (∀ a v, EvictionSet.Evict a v ∈ EvictionSet.set (pending_connection_eviction_set d) →
     ∃ conn, connection_map d !! a = Some conn ∧ Conn.connection_version conn = v ∧
       multiplexed_remote_peer_identity_with_stake conn ≠ ∅) ∧
  (∀ a, EvictionSet.contains_socket_addr a (pending_connection_eviction_set d) = true ↔
     ∃ v, EvictionSet.Evict a v ∈ EvictionSet.set (pending_connection_eviction_set d)).
Proof.
  intros d. destruct (reachable_inv _ _ _ _ Hr) as (_ & _ & Hl & _). fold d in Hl. split_and!.
  - intros a v. split.
    + intros [t Ht]. by apply (li_orphan _ _ _ _ _ _ _ Hl a v t).
    + intros (conn & Hc & <- & Hm). apply (li_idle _ _ _ _ _ _ _ Hl a conn Hc Hm). set_solver.
  - apply (li_pend _ _ _ _ _ _ _ Hl).
  - intros a. apply EvictionSet.contains_socket_addr_spec, (li_pend_wf _ _ _ _ _ _ _ Hl).
Qed.

(** C3: In every reachable state the connection attempts blocked on an eviction are exactly
    those queued in connecting_blocked_by_eviction_list and not yet notified, each with its
    own notification: none waits without being in the queue. *)
Theorem no_waiter_is_lost cfg ident now c (Hr : reachable cfg ident now c) :
  let d := driver c.2 in
  NoDup (notify <$> connecting_blocked_by_eviction_list d) ∧
  (∀ n a, {| we_remote_peer_addr := a; notify := n |} ∈ connecting_blocked_by_eviction_list d ↔
     ∃ id t, connecting_tasks d !! id = Some t ∧ wait_for_eviction t = Some n ∧
       ct_remote_peer_addr t = a ∧ n ∉ notified (rt d)).
Proof.
  intros d. destruct (reachable_inv _ _ _ _ Hr) as (_ & _ & _ & Hwt & _). fold d in Hwt.
  split; [apply Hwt|]. intros n a. split.
  - intros Hin. by apply (wt_list _ _ _ _ _ Hwt) in Hin.
  - intros (id & t & Hid & Hn & <- & Hno).
    pose proof (wt_wait _ _ _ _ _ Hwt id t n Hid Hn Hno) as (w & -> & Hw)%list_elem_of_fmap.
    destruct (wt_list _ _ _ _ _ Hwt w Hw) as (id' & t' & Hid' & Hn' & Ha & _).
    assert (id' = id) as -> by (eapply (wt_inj _ _ _ _ _ Hwt); eauto).
    assert (t' = t) as -> by congruence. rewrite Ha. by destruct w.
Qed.

(** C5: From every reachable state each event that can occur is handled without hitting a
    missing-entry panic, and evicting the expired orphans terminates with every remaining
    orphan younger than the TTL. *)
Theorem the_loop_never_fails cfg ident now c env t ev (Hr : reachable cfg ident now c)
  (Hv : valid_event ev (driver c.2)) :
  is_Some (select_branch env t ev c.2) ∧
  ∃ d', try_evict_orphan_connections env t (driver c.2) = Some d' ∧
    (∀ k, OrphanSet.oldest (orphan_connection_set d') = Some k →
      (t < k + orphan_connection_ttl (config env))%N).
Proof.
  pose proof (reachable_inv _ _ _ _ Hr) as H. split.
  - destruct (inv_select_branch env t ev c.2 H Hv) as (r & -> & _). eauto.
  - destruct (inv_try_evict_orphans (S (OrphanSet.curr_len (orphan_connection_set (driver c.2)))) env t
      (driver c.2) H (Nat.lt_succ_diag_r _)) as (d' & He & _ & Hold). eauto.
Qed.

(** In every reachable state the address order lists each connection under the sum of the
    stakes of the peers now multiplexed on it, and the peer order lists each peer with a
    worker. *)
Theorem addresses_ordered_by_current_stake cfg ident now c (Hr : reachable cfg ident now c) :
  let d := driver c.2 in
  (∀ a conn, connection_map d !! a = Some conn →
     (group_stake (multiplexed_remote_peer_identity_with_stake conn), a) ∈
       StakedSet.iter (active_staked_sorted_remote_peer_addr d)) ∧
  (∀ p, is_Some (tx_worker_handle_map d !! p) →
     ∃ k, (k, p) ∈ StakedSet.iter (active_staked_sorted_remote_peer d)).
Proof.
  intros d. destruct (reachable_inv _ _ _ _ Hr) as (_ & _ & Hl & _). fold d in Hl. split.
  - intros a conn Hc. apply StakedSet.elem_of_iter; [apply Hl|].
    apply (li_stake _ _ _ _ _ _ _ Hl a conn Hc). set_solver.
  - intros p Hp. destruct (li_staked _ _ _ _ _ _ _ Hl p Hp) as [k Hk]. exists k.
    apply StakedSet.elem_of_iter; [apply Hl|done].
Qed.
End Guarantees.
