(* ===== verification/Routing.v ===== *)
(** Functional properties of the driver's handlers: where an incoming
    transaction goes, what a failed attempt, an identity change and an eviction
    do; and the behaviours of the code that its comments do not promise. *)
From S2P Require Import Prelude Types StakedSet OrphanSet EvictionSet Eviction Runtime Worker Driver DriverInv DriverSafe DriverLoop System Conserve Demo.
Import Driver.

Section Routing.
Context `{HI : HashIter} {RO : ResponseOutlet}.
Context {Ch : Type} `{MC : Mpsc Ch TpuSenderTxn}.
Context `{SI : ValidatorStakeInfoService Stake} `{TI : LeaderTpuInfoService Tpu}.
Context `{ES : !Eviction.ConnectionEvictionStrategy Strategy} `{LP : UpcomingLeaderPredictor Pred}.
Abbreviation TpuSenderDriver := (@TpuSenderDriver Ch).
Implicit Types (d : TpuSenderDriver) (sig : N).
Abbreviation Env := (@Env Stake Tpu Strategy Pred).
Implicit Types (env : Env).
Abbreviation reachable := (@reachable HI RO Ch MC Stake SI Tpu TI Strategy ES Pred LP).

(** ** Carriers: a worker, or an attempt in flight *)
Definition carried d (p : N) : Prop :=
  is_Some (tx_worker_handle_map d !! p) ∨ is_Some (connecting_remote_peers d !! p).

Lemma install_worker_handle env p a d c : connection_map d !! a = Some c →
  is_Some (tx_worker_handle_map (install_worker env p a d) !! p).
Proof.
  intros Hc. destruct (tx_worker_handle_map d !! p) eqn:Eh.
  - unfold install_worker. rewrite Eh. eauto.
  - rewrite (install_worker_eq env p a d c Eh Hc). drv. rewrite lookup_insert_eq. eauto.
Qed.

(** Neither the peer nor its address is being evicted. *)
Definition admissible d (p a : N) : Prop :=
  p ∉ being_evicted_peers d ∧ EvictionSet.contains_socket_addr a (pending_connection_eviction_set d) = false.

Lemma spawn_connecting_carries env p n d a : Inv d → get_quic_dest_addr env p = Some a →
  (carried d p ∨ admissible d p a) ∧ carried (spawn_connecting env p n d) p ∨
  (¬ carried d p ∧ ¬ admissible d p a) ∧ spawn_connecting env p n d = d.
Proof.
  intros H Ha. unfold carried, admissible. rewrite <-(spawn_connecting_fuel_exact env p n d 1) by done.
  cbn [spawn_connecting_fuel].
  destruct (decide (is_Some (connecting_remote_peers d !! p))); [by left; split; [left|]; right|].
  destruct (decide (p ∈ being_evicted_peers d)) as [Hev|Hev].
  { destruct (decide (is_Some (tx_worker_handle_map d !! p))); [by left; split; [left|]; left|]. right. tauto. }
  destruct (decide (is_Some (tx_worker_handle_map d !! p))); [by left; split; [left|]; left|]. rewrite Ha.
  destruct (EvictionSet.contains_socket_addr a (pending_connection_eviction_set d)) eqn:Hpend.
  { right. split; [|done]. split; [tauto|]. by intros [_ ?]. }
  left. split; [by right|]. destruct (decide (is_Some (connection_map d !! a))) as [[c Hc]|].
  - left. by eapply install_worker_handle.
  - pose proof H as (Hcon & _). destruct (connecting_remote_peers_addr d !! a) as [id|] eqn:Eid.
    + apply (ci_addr _ _ _ _ _ _ Hcon) in Eid as (m & -> & _). right. upd_simpl.
      rewrite lookup_insert_eq. eauto.
    + right. rewrite spawn_task_eq. drv. rewrite lookup_insert_eq. eauto.
Qed.

Lemma queue_tx_frame env p tx n d :
  let d' := (queue_tx_or_drop env p tx n d).2 in
  being_evicted_peers d' = being_evicted_peers d ∧
  pending_connection_eviction_set d' = pending_connection_eviction_set d ∧
  tx_worker_handle_map d' = tx_worker_handle_map d ∧
  connecting_remote_peers d' = connecting_remote_peers d.
Proof.
  unfold queue_tx_or_drop, drop_single_tx, call_back.
  case_decide; [destruct response_outlet|]; by ds d.
Qed.

(** C6: Once a transaction of valid size is accepted for a peer with a known address and
    room in its queue, the peer has a carrier (an installed worker or a connection attempt
    in flight) exactly when it already had one, or when neither the peer nor that address
    is being evicted. Otherwise the transaction stays in the queue of the peer, with
    nothing to carry it and without a response. *)
Theorem queued_transaction_is_carried cfg ident now0 c env now tx a (Hr : reachable cfg ident now0 c)
  (Hsize : transaction_data_size_is_valid (wire tx) = true)
  (Haddr : get_quic_dest_addr env (Txn.remote_peer tx) = Some a)
  (Hroom : from_option length 0 (tx_queues (driver c.2) !! Txn.remote_peer tx)
           < transaction_sender_worker_channel_capacity (config env)) :
  let d := driver c.2 in
  let d' := accept_tx env now tx d in
  let p := Txn.remote_peer tx in
  (carried d' p ↔ carried d p ∨ admissible d p a) ∧
  (¬ carried d' p → tx_queues d' !! p = Some (default [] (tx_queues d !! p) ++ [(tx, 1)]) ∧
     responses (rt d') = responses (rt d)).
Proof.
  pose proof (reachable_inv _ _ _ _ Hr) as H. cbv zeta. generalize dependent (driver c.2).
  intros d Hroom H. set (p := Txn.remote_peer tx) in *.
  unfold accept_tx. rewrite Hsize. cbn [negb andb]. fold p.
  set (d1 := d <| last_peer_activity ::= _ |>).
  assert (Inv d1) as H1 by (by ds d).
  destruct (tx_worker_handle_map d1 !! p) as [h|] eqn:Ep.
  - match goal with |- (carried ?e p ↔ _) ∧ _ => assert (carried e p) as Hc end.
    { left. unfold try_send_to. destruct (channels (rt d1) !! sender h) as [ch|].
      + destruct (try_send tx ch) as [[] ch']; [by exists h| |].
        * unfold call_back. destruct response_outlet; by exists h.
        * destruct (queue_tx_frame env p tx 1 (set_channel (sender h) ch' d1)) as (_ & _ & -> & _).
          by exists h.
      + destruct (queue_tx_frame env p tx 1 d1) as (_ & _ & -> & _). by exists h. }
    split; [|by intros []]. split; [|done]. intros _. left. left. by exists h.
  - assert (queue_tx_or_drop env p tx 1 d1 =
      (true, d1 <| tx_queues ::= λ q, <[p := default [] (q !! p) ++ [(tx, 1)]]> q |>)) as Hq.
    { unfold queue_tx_or_drop. rewrite decide_False; [done|].
      replace (tx_queues d1) with (tx_queues d) by done. lia. }
    pose proof (inv_queue_tx ∅ env p tx 1 d1 H1) as H2. rewrite Hq in H2 |- *. cbn [snd] in H2.
    set (d2 := d1 <| tx_queues ::= _ |>) in *.
    assert ((carried d2 p ↔ carried d p) ∧ (admissible d2 p a ↔ admissible d p a)) as [Ec Ea] by done.
    destruct (spawn_connecting_carries env p 1 d2 a H2 Haddr) as [[Hor Hc]|[[Hc Hadm] ->]].
    + split; [|by intros []]. rewrite <-Ec, <-Ea. tauto.
    + split; [rewrite <-Ec, <-Ea; tauto|]. intros _. unfold d2, d1. upd_simpl. by rewrite lookup_insert_eq.
Qed.

(** A peer's waiting queue never grows past the worker channel capacity: below it a
    transaction joins at the back with no response, at it the transaction is refused with
    one RateLimited drop, and other queues are untouched. *)
Theorem queue_is_bounded_fifo env p tx n d (Hcb : response_outlet = true)
  (Hbound : from_option length 0 (tx_queues d !! p)
            ≤ transaction_sender_worker_channel_capacity (config env)) :
  let '(queued, d') := queue_tx_or_drop env p tx n d in
  from_option length 0 (tx_queues d' !! p) ≤ transaction_sender_worker_channel_capacity (config env) ∧
  (∀ q, q ≠ p → tx_queues d' !! q = tx_queues d !! q) ∧
  if queued : bool
  then tx_queues d' !! p = Some (default [] (tx_queues d !! p) ++ [(tx, n)]) ∧
       responses (rt d') = responses (rt d)
  else tx_queues d' = tx_queues d ∧
       responses (rt d') = responses (rt d) ++ [TxDrop p RateLimited [(tx, n)]].
Proof.
  unfold queue_tx_or_drop, drop_single_tx, call_back. rewrite Hcb. case_decide as Hd.
  - by ds d.
  - upd_simpl. rewrite lookup_insert_eq. split_and!; try done.
    + cbn. rewrite length_app. destruct (tx_queues d !! p); cbn in *; lia.
    + intros q Hq. by rewrite lookup_insert_ne.
Qed.

(** ** Identity changes *)

(** Right after the driver's state was handed over: nothing but attempts. *)
Definition handed_over (k : N) (T : gmap N GracefulDrop) d : Prop :=
  identity d = k ∧ connection_map d = ∅ ∧ tx_worker_handle_map d = ∅ ∧ tx_worker_set d = ∅ ∧
  being_evicted_peers d = ∅ ∧ pending_connection_eviction_set d = EvictionSet.empty ∧ tasklet d = T.

Lemma spawn_handed_over k T env p n d : Inv d → handed_over k T d →
  let d' := spawn_connecting env p n d in
  handed_over k T d' ∧
  (∀ q, is_Some (connecting_remote_peers d !! q) → is_Some (connecting_remote_peers d' !! q)) ∧
  (is_Some (get_quic_dest_addr env p) → is_Some (connecting_remote_peers d' !! p)).
Proof.
  intros H Hk. pose proof Hk as (K1 & K2 & K3 & K4 & K5 & K6 & K7). cbv zeta.
  rewrite <-(spawn_connecting_fuel_exact env p n d 1) by done. cbn [spawn_connecting_fuel].
  destruct (decide (is_Some (connecting_remote_peers d !! p))); [done|].
  rewrite decide_False by (rewrite K5; set_solver).
  rewrite decide_False by (rewrite K3, lookup_empty; by intros [? ?]).
  destruct (get_quic_dest_addr env p) as [a|].
  2:{ unfold unreachable_peer, drop_peer_queued_tx, call_back.
      destruct (tx_queues d !! p); [|by split_and!; [done|done|intros [? ?]]].
      destruct response_outlet; split_and!; try (by intros [? ?]); unfold handed_over; by ds d. }
  assert (EvictionSet.contains_socket_addr a (pending_connection_eviction_set d) = false) as ->
    by (by rewrite K6).
  rewrite decide_False by (rewrite K2, lookup_empty; by intros [? ?]).
  assert (∀ id q, is_Some (connecting_remote_peers d !! q) →
    is_Some (<[p := id]> (connecting_remote_peers d) !! q)) as Hmono.
  { intros id q Hq. rewrite lookup_insert_is_Some. destruct (decide (p = q)); [by left|by right]. }
  assert (∀ id, is_Some (<[p := id]> (connecting_remote_peers d) !! p)) as Hp
    by (intros id; rewrite lookup_insert_eq; eauto).
  destruct (connecting_remote_peers_addr d !! a) as [id|] eqn:Eid.
  - pose proof H as (Hcon & _). apply (ci_addr _ _ _ _ _ _ Hcon) in Eid as (m & -> & _).
    unfold handed_over. upd_simpl. split_and!; auto.
  - rewrite spawn_task_eq. unfold handed_over. drv. split_and!; auto.
Qed.

Lemma spawn_all_handed_over {A} k T env (f : A → N) (g : A → nat) l d : Inv d → handed_over k T d →
  let d' := for_each_peer (λ x, spawn_connecting env (f x) (g x)) l d in
  Inv d' ∧ handed_over k T d' ∧
  (∀ q, is_Some (connecting_remote_peers d !! q) → is_Some (connecting_remote_peers d' !! q)) ∧
  (∀ x, x ∈ l → is_Some (get_quic_dest_addr env (f x)) → is_Some (connecting_remote_peers d' !! f x)).
Proof.
  unfold for_each_peer. revert d. induction l as [|x l IH]; intros d H Hk; cbn [foldl].
  { split_and!; try done. intros x Hx. by apply elem_of_nil in Hx. }
  destruct (spawn_handed_over k T env (f x) (g x) d H Hk) as (Hk1 & Hm1 & Hp1).
  destruct (IH _ (inv_spawn_connecting env (f x) (g x) d H) Hk1) as (H2 & Hk2 & Hm2 & Hp2).
  split_and!; [done|done|by auto|]. intros y [->|Hy]%elem_of_cons Ha; auto.
Qed.

(** The replay, as one pass over (peer, attempt) pairs. *)
Definition replayed (metas : list ConnectingMeta) : list (N * nat) :=
  m ← metas; (λ p, (p, connection_attempt m)) <$> multiplexed_remote_peer_identity_vec m.

Lemma replay_flat env metas d :
  replay_connecting env metas d =
  for_each_peer (λ x, spawn_connecting env x.1 x.2) (replayed (map_iter metas).*2) d.
Proof.
  unfold replay_connecting, replayed, for_each_peer. generalize ((map_iter metas).*2). intros l.
  revert d. induction l as [|m l IH]; intros d; [done|]. cbn [foldl mbind list_bind].
  rewrite IH, foldl_app. f_equal.
  generalize (multiplexed_remote_peer_identity_vec m). intros ps. revert d.
  induction ps as [|p ps IHp]; intros d; [done|]. cbn. by rewrite IHp.
Qed.

(** Changing the identity empties the connections, workers and eviction state, hands the
    workers with their tasks and queues to one graceful-drop tasklet, and restarts under
    the new identity the attempt of every peer that was connecting and still has an
    address. *)
Theorem identity_change_replays cfg ident now c env k (Hr : reachable cfg ident now c) :
  let d := driver c.2 in
  let d' := update_identity env k d in
  identity d' = k ∧ connection_map d' = ∅ ∧ tx_worker_handle_map d' = ∅ ∧ tx_worker_set d' = ∅ ∧
  being_evicted_peers d' = ∅ ∧ pending_connection_eviction_set d' = EvictionSet.empty ∧
  tasklet d' = <[next_id (rt d) := mk_gd (tx_worker_task_meta_map d) (tx_worker_set d) (tx_queues d)]>
                 (tasklet d) ∧
  (∀ id m, connecting_meta d' !! id = Some m → current_client_identity m = k) ∧
  (∀ p, is_Some (connecting_remote_peers d !! p) → is_Some (get_quic_dest_addr env p) →
     is_Some (connecting_remote_peers d' !! p)).
Proof.
  intros d d'. pose proof (reachable_inv _ _ _ _ Hr) as H. fold d in H.
  pose proof (inv_install_identity k d H) as H1. unfold d', update_identity. clear d'.
  rewrite install_identity_eq in *. cbn [snd] in H1. set (d1 := mk_driver _ _ _ _ _ _ _ _ _ _ _ _ _ _ _ _ _ _ _ _ _ _ _) in *.
  rewrite replay_flat.
  destruct (spawn_all_handed_over k (tasklet d1) env fst snd (replayed (map_iter (connecting_meta d)).*2)
    d1 H1) as (H2 & (K1 & K2 & K3 & K4 & K5 & K6 & K7) & _ & Hp).
  { unfold handed_over, d1. drv. split_and!; done. }
  split_and!; try done.
  - intros id m Hm. rewrite <-K1. destruct H2 as (Hc & _). by apply (ci_ident _ _ _ _ _ _ Hc id m Hm).
  - intros p [id Hid] Ha. destruct H as (Hc & _). apply (ci_peer _ _ _ _ _ _ Hc) in Hid as (m & Hm & Hin).
    apply (Hp (p, connection_attempt m)); [|done]. unfold replayed. apply list_elem_of_bind.
    exists m. split; apply list_elem_of_fmap; [by exists p|].
    exists (id, m). split; [done|]. by apply elem_of_map_iter.
Qed.

(** ** Failed attempts *)
Lemma unreachable_all l d : response_outlet = true → NoDup l →
  let d' := for_each_peer unreachable_peer l d in
  responses (rt d') = responses (rt d) ++
    omap (λ p, TxDrop p RemotePeerUnreachable <$> tx_queues d !! p) l ∧
  (∀ p, tx_queues d' !! p = if decide (p ∈ l) then None else tx_queues d !! p) ∧
  connecting_remote_peers d' = connecting_remote_peers d ∧
  connection_map d' = connection_map d ∧ tx_worker_handle_map d' = tx_worker_handle_map d.
Proof.
  intros Hcb Hnd. unfold for_each_peer. revert d. induction Hnd as [|p l Hp Hnd IH]; intros d; cbn [foldl].
  { cbn. split_and!; try done. by rewrite app_nil_r. }
  assert (responses (rt (unreachable_peer p d)) = responses (rt d) ++
            from_option (λ q, [TxDrop p RemotePeerUnreachable q]) [] (tx_queues d !! p) ∧
          tx_queues (unreachable_peer p d) = delete p (tx_queues d) ∧
          connecting_remote_peers (unreachable_peer p d) = connecting_remote_peers d ∧
          connection_map (unreachable_peer p d) = connection_map d ∧
          tx_worker_handle_map (unreachable_peer p d) = tx_worker_handle_map d) as (E1 & E2 & E3 & E4 & E5).
  { unfold unreachable_peer, drop_peer_queued_tx, call_back. rewrite Hcb.
    destruct (tx_queues d !! p) eqn:Eq; cbn [from_option]; [by ds d|].
    rewrite app_nil_r, delete_id by done. done. }
  destruct (IH (unreachable_peer p d)) as (F1 & F2 & F3 & F4 & F5). split_and!; try congruence.
  - rewrite F1, E1, E2, <-app_assoc. f_equal. cbn [omap list_omap].
    assert (omap (λ q, TxDrop q RemotePeerUnreachable <$> delete p (tx_queues d) !! q) l =
            omap (λ q, TxDrop q RemotePeerUnreachable <$> tx_queues d !! q) l) as ->.
    { clear -Hp. induction l as [|q l IHl]; [done|]. apply not_elem_of_cons in Hp as [Hq Hp].
      cbn. rewrite lookup_delete_ne by done. by rewrite IHl. }
    by destruct (tx_queues d !! p).
  - intros q. rewrite F2, E2, lookup_delete. repeat case_decide; set_solver.
Qed.

(** C7: A connection error at the attempt limit answers the queued transactions of every
    peer multiplexed on the attempt with one RemotePeerUnreachable drop per queue, and
    leaves no queue and no attempt for them. *)
Theorem last_attempt_gives_up cfg ident now c env id t m e
  (Hcb : response_outlet = true) (Hr : reachable cfg ident now c) :
  let d := driver c.2 in
  connecting_tasks d !! id = Some t → released (notified (rt d)) t →
  connecting_meta d !! id = Some m →
  max_connection_attempts (config env) ≤ connection_attempt m →
  let d' := handle_connecting_result env (JoinOk id (inr (CConnectionError e))) d in
  responses (rt d') = responses (rt d) ++
    omap (λ p, TxDrop p RemotePeerUnreachable <$> tx_queues d !! p)
      (multiplexed_remote_peer_identity_vec m) ∧
  ∀ p, p ∈ multiplexed_remote_peer_identity_vec m →
    tx_queues d' !! p = None ∧ connecting_remote_peers d' !! p = None.
Proof.
  intros d Hid Hrel Hm Hmax d'. pose proof (reachable_inv _ _ _ _ Hr) as H. fold d in H.
  pose proof H as (Hc & _). destruct (ci_vec _ _ _ _ _ _ Hc id m Hm) as [Hnd _].
  destruct (inv_forget ∅ d id t m H Hid Hrel Hm) as (_ & Hident & _ & _ & Hpeers).
  unfold d', handle_connecting_result. clear d'.
  replace (connecting_meta (d <| connecting_tasks ::= delete id |>) !! id) with (Some m) by (by ds d).
  set (d1 := forget_connecting _ _ _) in *.
  assert (responses (rt d1) = responses (rt d) ∧ tx_queues d1 = tx_queues d) as [E1 E2] by (by ds d).
  clearbody d1. rewrite decide_False by (by rewrite Hident; intros []).
  rewrite decide_False by lia.
  destruct (unreachable_all (multiplexed_remote_peer_identity_vec m) d1 Hcb Hnd) as (F1 & F2 & F3 & _).
  rewrite F1, E1, E2. split; [done|]. intros p Hp. rewrite F2, F3, decide_True by done.
  split; [done|]. by apply Hpeers.
Qed.

(** A connection error below the attempt limit starts a fresh attempt for its peer at the
    address now published, with the counter incremented, or reset to 1 when the address
    moved, and keeps the queued transactions. *)
Theorem failed_attempt_is_retried cfg ident now c env id t m e p a (Hr : reachable cfg ident now c) :
  let d := driver c.2 in
  connecting_tasks d !! id = Some t → released (notified (rt d)) t →
  connecting_meta d !! id = Some m → multiplexed_remote_peer_identity_vec m = [p] →
  connection_attempt m < max_connection_attempts (config env) →
  get_quic_dest_addr env p = Some a → p ∉ being_evicted_peers d →
  EvictionSet.contains_socket_addr a (pending_connection_eviction_set d) = false →
  connection_map d !! a = None →
  (connecting_remote_peers_addr d !! a = None ∨ a = remote_peer_address m) →
  let d' := handle_connecting_result env (JoinOk id (inr (CConnectionError e))) d in
  ∃ id', connecting_remote_peers d' !! p = Some id' ∧ is_Some (connecting_tasks d' !! id') ∧
    connecting_meta d' !! id' = Some {|
      current_client_identity := identity d;
      multiplexed_remote_peer_identity_vec := [p];
      remote_peer_address := a;
      connection_attempt := if decide (a = remote_peer_address m) then connection_attempt m + 1 else 1
    |} ∧
    tx_queues d' = tx_queues d.
Proof.
  intros d Hid Hrel Hm Hvec Hmax Ha Hev Hpend Hconn Haddr d'.
  pose proof (reachable_inv _ _ _ _ Hr) as H. fold d in H.
  destruct (inv_forget ∅ d id t m H Hid Hrel Hm) as (H1 & Hident & _ & Hfree & Hpeers).
  unfold d', handle_connecting_result. clear d'.
  replace (connecting_meta (d <| connecting_tasks ::= delete id |>) !! id) with (Some m) by (by ds d).
  set (d1 := forget_connecting _ _ _) in *.
  assert (being_evicted_peers d1 = being_evicted_peers d ∧ connection_map d1 = connection_map d ∧
    pending_connection_eviction_set d1 = pending_connection_eviction_set d ∧
    identity d1 = identity d ∧ tx_queues d1 = tx_queues d) as (E1 & E2 & E3 & E4 & E5) by (by ds d).
  assert (connecting_remote_peers_addr d1 !! a = None) as Haddr1.
  { destruct Haddr as [Haddr| ->]; [|done].
    unfold d1. rewrite forget_connecting_eq. drv. rewrite lookup_delete, Haddr. by case_decide. }
  clearbody d1. rewrite decide_False by (by rewrite Hident; intros []). rewrite decide_True by done.
  rewrite Hvec in *. unfold for_each_peer. cbn [foldl]. unfold reattempt. rewrite Ha.
  destruct (Hpeers p) as [Hp1 Hp2]; [left|].
  rewrite <-(spawn_connecting_fuel_exact env p _ d1 1) by done. cbn [spawn_connecting_fuel].
  rewrite decide_False by (rewrite Hp1; by intros [? ?]). rewrite decide_False by (by rewrite E1).
  rewrite decide_False by (rewrite Hp2; by intros [? ?]). rewrite Ha, E3, Hpend.
  rewrite decide_False by (rewrite E2, Hconn; by intros [? ?]). rewrite Haddr1, spawn_task_eq. drv.
  eexists. rewrite !lookup_insert_eq, E4, E5. eauto.
Qed.

(** ** Evictions *)
Lemma evict_multiplexed_all l d ns :
  let '(d', ns') := foldl evict_multiplexed (d, ns) l in
  being_evicted_peers d' = list_to_set l ∪ being_evicted_peers d ∧
  tx_worker_handle_map d' = tx_worker_handle_map d ∧
  pending_connection_eviction_set d' = pending_connection_eviction_set d ∧
  (∀ n, n ∈ ns → n ∈ ns') ∧
  (∀ q h, q ∈ l → tx_worker_handle_map d !! q = Some h → h_cancel_notify h ∈ ns').
Proof.
  revert d ns. induction l as [|q l IH]; intros d ns; cbn [foldl].
  { split_and!; try done; [set_solver|]. intros q h Hq. by apply elem_of_nil in Hq. }
  set (d1 := d <| being_evicted_peers ::= union {[q]} |>).
  assert (being_evicted_peers d1 = {[q]} ∪ being_evicted_peers d ∧
    tx_worker_handle_map d1 = tx_worker_handle_map d ∧
    pending_connection_eviction_set d1 = pending_connection_eviction_set d) as (E1 & E2 & E3) by (by ds d).
  cbn [evict_multiplexed]. fold d1. destruct (tx_worker_handle_map d1 !! q) as [h|] eqn:Eh.
  - specialize (IH d1 (ns ++ [h_cancel_notify h])). destruct (foldl _ _ l) as [d' ns'].
    destruct IH as (F1 & F2 & F3 & F4 & F5). rewrite F1, F2, F3, E1, E2, E3. split_and!; try done.
    + set_solver.
    + intros n Hn. apply F4, elem_of_app. by left.
    + intros r k [->|Hr]%elem_of_cons Hk; [|eapply F5; [done|by rewrite E2]].
      rewrite E2 in Eh. simplify_eq. apply F4, elem_of_app. right. by apply list_elem_of_singleton.
  - specialize (IH d1 ns). destruct (foldl _ _ l) as [d' ns'].
    destruct IH as (F1 & F2 & F3 & F4 & F5). rewrite F1, F2, F3, E1, E2, E3. split_and!; try done.
    + set_solver.
    + intros r k [->|Hr]%elem_of_cons Hk; [congruence|]. eapply F5; [done|by rewrite E2].
Qed.

(** Evicting a peer marks its connection as pending eviction, marks every peer multiplexed
    on that connection as being evicted, and cancels every worker that runs over it. *)
Theorem eviction_takes_the_whole_connection cfg ident now c p h conn ns
  (Hr : reachable cfg ident now c) :
  let d := driver c.2 in
  tx_worker_handle_map d !! p = Some h → connection_map d !! h_remote_peer_addr h = Some conn →
  let '(d', ns') := evict_peer (d, ns) p in
  EvictionSet.Evict (h_remote_peer_addr h) (h_connection_version h)
    ∈ EvictionSet.set (pending_connection_eviction_set d') ∧
  (∀ q, is_Some (multiplexed_remote_peer_identity_with_stake conn !! q) → q ∈ being_evicted_peers d') ∧
  (∀ q k, is_Some (multiplexed_remote_peer_identity_with_stake conn !! q) →
     tx_worker_handle_map d !! q = Some k → h_cancel_notify k ∈ ns') ∧
  (∀ q k, tx_worker_handle_map d !! q = Some k → h_remote_peer_addr k = h_remote_peer_addr h →
     h_cancel_notify k ∈ ns').
Proof.
  intros d Hp Hc. pose proof (reachable_inv _ _ _ _ Hr) as H. fold d in H. pose proof H as (_ & _ & Hl & _).
  destruct (li_handle _ _ _ _ _ _ _ Hl p h Hp) as (c' & Hc' & Hv & Hm). simplify_eq.
  unfold evict_peer. rewrite Hp.
  replace (connection_map (d <| being_evicted_peers ::= union {[p]} |>)) with (connection_map d) by (by ds d).
  rewrite Hc, decide_False by (by rewrite Hv; intros []).
  rewrite (li_addr _ _ _ _ _ _ _ Hl _ _ Hc), Hv.
  set (d1 := d <| being_evicted_peers ::= _ |> <| pending_connection_eviction_set ::= _ |>).
  assert (tx_worker_handle_map d1 = tx_worker_handle_map d) as E1 by (by ds d).
  assert (pending_connection_eviction_set d1 = (EvictionSet.insert (EvictionSet.Evict
    (h_remote_peer_addr h) (h_connection_version h)) (pending_connection_eviction_set d)).2) as E2 by (by ds d).
  pose proof (evict_multiplexed_all (hash_iter (dom (multiplexed_remote_peer_identity_with_stake conn)))
    d1 (ns ++ [h_cancel_notify h])) as Hf.
  destruct (foldl _ _ _) as [d' ns']. destruct Hf as (F1 & _ & F3 & _ & F5).
  assert (∀ q k, is_Some (multiplexed_remote_peer_identity_with_stake conn !! q) →
    tx_worker_handle_map d !! q = Some k → h_cancel_notify k ∈ ns') as Hall.
  { intros q k Hq Hk. apply (F5 q k); [|by rewrite E1]. by rewrite elem_of_hash_iter, elem_of_dom. }
  split_and!; [| |done|].
  - rewrite F3, E2, EvictionSet.insert_set. set_solver.
  - intros q Hq. rewrite F1. apply elem_of_union. left.
    by rewrite elem_of_list_to_set, elem_of_hash_iter, elem_of_dom.
  - intros q k Hk Hka. apply (Hall q k); [|done].
    destruct (li_handle _ _ _ _ _ _ _ Hl q k Hk) as (c2 & Hc2 & _ & Hm2). rewrite Hka in Hc2. by simplify_eq.
Qed.
End Routing.
