(* ===== verification/Divergences.v ===== *)
(** Runs of the driver that do not do what the code means to: each is a concrete
    run of the transition system of [System], checked by evaluation. *)
From S2P Require Import Prelude Types StakedSet OrphanSet EvictionSet Eviction Runtime Worker Driver DriverInv DriverSafe DriverLoop System Conserve Demo.
Import Driver.
Import Demo.

(** A run given by its events, from the start. *)
Fixpoint play (evs : list (N * DriverEvent)) (s : Demo.Loop) : Demo.Loop :=
  match evs with
  | [] => s
  | (now, ev) :: evs => play evs (event now ev s)
  end.

Fixpoint playable (evs : list (N * DriverEvent)) (s : Demo.Loop) : Prop :=
  match evs with
  | [] => True
  | (now, ev) :: evs =>
      valid_event ev (driver (before_select env now s)) ∧
      select_branch env now ev (before_select env now s) = Some (inl (event now ev s)) ∧
      playable evs (event now ev s)
  end.

Fixpoint play_log (evs : list (N * DriverEvent)) (s : Demo.Loop)
    : list (Driver.TpuSenderDriver * DriverEvent) :=
  match evs with
  | [] => []
  | (now, ev) :: evs => log1 s now ev ++ play_log evs (event now ev s)
  end.

Lemma play_trace evs s c l : trace cfg c l (Top, s) → playable evs s →
  trace cfg c (l ++ play_log evs s) (Top, play evs s).
Proof.
  revert s l. induction evs as [|[now ev] evs IH]; intros s l Htr Hp; cbn [play play_log].
  - by rewrite app_nil_r.
  - destruct Hp as (Hv & Hb & Hp). rewrite app_assoc. apply IH; [|done]. by apply event_trace.
Qed.

Lemma play_start evs : playable evs begin → trace cfg (start 7 0) (play_log evs begin) (Top, play evs begin).
Proof. intros Hp. apply (play_trace evs begin _ []); [constructor|done]. Qed.

(** Two peers get a transaction before either is connected: both attempts see
    room, and both connections are kept. *)
Definition overshoot : list (N * DriverEvent) :=
  [(1, EvTx (tx 11 1)); (2, EvTx (tx 12 2));
   (3, EvConnecting (JoinOk 0 (inl 50))); (4, EvConnecting (JoinOk 1 (inl 51)))]%N.

(** The capacity check counts established connections only: two attempts in flight together
    exceed [max_concurrent_connection]. *)
Theorem attempts_in_flight_are_not_counted :
  reachable cfg 7 0 (Top, play overshoot begin) ∧
  Driver.max_concurrent_connection env = 1 ∧ size (connection_map (driver (play overshoot begin))) = 2.
Proof.
  split; [|by vm_compute]. exists (play_log overshoot begin). apply play_start. cbn [playable overshoot].
  repeat split; try by vm_compute; eexists; split; by vm_compute.
Qed.

(** A transaction waits for its first connection; the identity changes. The
    queue goes to the detached task, which only reports the queues of peers that
    had a worker: the transaction is neither sent nor reported. *)
Definition identity_loss : list (N * DriverEvent) :=
  [(1, EvTx (tx 11 1)); (2, EvCommand (UpdateIdentity 8)); (3, EvTasklet (JoinOk 1 tt))]%N.

(** A transaction queued behind a connection attempt is lost by an identity change, with no
    response, while the attempt is restarted. *)
Theorem identity_change_loses_waiting_transactions :
  let log := play_log identity_loss begin in
  let d := driver (play identity_loss begin) in
  trace cfg (start 7 0) log (Top, play identity_loss begin) ∧ Forall (λ e, no_panic e.2) log ∧
  sum_events (λ _, accepted 11) log = 1 ∧ total 11 d = 0 ∧ responses (rt d) = [] ∧
  is_Some (connecting_remote_peers d !! 1%N).
Proof.
  cbv zeta. split_and!.
  - apply play_start. cbn [playable identity_loss].
    repeat split; try by vm_compute. eexists; split; by vm_compute.
  - repeat constructor.
  - by vm_compute.
  - by vm_compute.
  - by vm_compute.
  - eexists. by vm_compute.
Qed.

(** Peer 3 shares the address of peer 1, whose connection is being evicted for
    peer 2. Its transaction is queued, but no attempt is started while the
    address is marked, and none is started once the eviction is over. *)
Definition stranded : list (N * DriverEvent) :=
  [(1, EvTx (tx 11 1)); (2, EvConnecting (JoinOk 0 (inl 50))); (3, EvTx (tx 12 2));
   (4, EvTx (tx 13 3)); (5, EvWorker (JoinOk 3 (completed 1 [(tx 11 1, 1%nat)])));
   (6, EvConnecting (JoinOk 5 (inl 51)))]%N.

(** A transaction queued while its address is pending eviction stays queued after the
    eviction, with no worker and no attempt. *)
Theorem eviction_strands_queued_transactions :
  let d := driver (play stranded begin) in
  reachable cfg 7 0 (Top, play stranded begin) ∧
  tx_queues d !! 3%N = Some [(tx 13 3, 1)] ∧ tx_worker_handle_map d !! 3%N = None ∧
  connecting_remote_peers d !! 3%N = None ∧ being_evicted_peers d = ∅ ∧
  EvictionSet.set (pending_connection_eviction_set d) = ∅.
Proof.
  cbv zeta. split; [|by vm_compute]. exists (play_log stranded begin). apply play_start.
  cbn [playable stranded]. repeat split; try by vm_compute; eexists; split; by vm_compute.
Qed.
