(* ===== verification/Witnesses.v ===== *)
(** The theorems of the driver, the worker, the eviction strategy, the watcher
    and the identity updater, each applied to a concrete run or state. *)
From S2P Require Import Prelude Types StakedSet OrphanSet EvictionSet Eviction Runtime Worker Driver Watcher Updater DriverInv DriverSafe DriverLoop System Conserve Demo Guarantees Routing Divergences.
Import Driver.
Import Demo.

Definition c3 : Phase * Demo.Loop := (Top, s3).
Lemma demo_trace : trace cfg (start 7 0) log c3.
Proof. exact trace3. Qed.
Lemma demo_reachable : reachable cfg 7 0 c3.
Proof. exists log. exact demo_trace. Qed.

(** ** Guarantees *)
Lemma transactions_are_conserved_witness :
  total 11 (driver c3.2) + sum_events (lost 11) log = 1 ∧ total 11 (driver c3.2) = 1.
Proof.
  split; [|by vm_compute].
  pose proof (transactions_are_conserved cfg 7 0 log c3 11 eq_refl demo_trace ltac:(repeat constructor)) as H.
  vm_compute in H. vm_compute. exact H.
Defined.

Lemma workers_are_connected_witness : connecting_remote_peers (driver c3.2) !! 1%N = None ∧
  ∃ conn id w, connection_map (driver c3.2) !! 1001%N = Some conn ∧ tx_worker_set (driver c3.2) !! id = Some w ∧
    Worker.connection w = Conn.conn conn.
Proof.
  pose proof (workers_are_connected cfg 7 0 c3 demo_reachable) as H. cbv zeta in H.
  destruct (tx_worker_handle_map (driver c3.2) !! 1%N) as [h|] eqn:E; [|vm_compute in E; discriminate E].
  specialize (H 1%N h E) as (H & conn & id & w & Hc & _ & _ & _ & _ & Hw & Hx & _).
  vm_compute in E. injection E as <-. split; [exact H|]. exists conn, id, w. split; [exact Hc|]. split; [exact Hw|exact Hx].
Defined.

Lemma attempts_are_unique_witness : connecting_remote_peers_addr (driver c3.2) !! 1001%N = None.
Proof.
  pose proof (attempts_are_unique cfg 7 0 c3 demo_reachable) as H. cbv zeta in H.
  destruct H as (_ & _ & _ & H & _). specialize (H 1001%N).
  destruct (connecting_remote_peers_addr (driver c3.2) !! 1001%N) eqn:E; [|reflexivity].
  specialize (H (ex_intro _ _ eq_refl)). vm_compute in H. discriminate H.
Defined.

Lemma orphans_are_idle_connections_witness :
  ¬ ∃ t, OrphanSet.OrphanSet.member (orphan_connection_set (driver c3.2)) 1001%N 0%N t.
Proof.
  pose proof (orphans_are_idle_connections cfg 7 0 c3 demo_reachable) as H. cbv zeta in H.
  destruct H as (H & _). intros Ht. apply H in Ht as (conn & Hc & _ & Hm).
  vm_compute in Hc. injection Hc as <-. vm_compute in Hm. discriminate Hm.
Defined.

Lemma no_waiter_is_lost_witness : NoDup (notify <$> connecting_blocked_by_eviction_list (driver c3.2)).
Proof.
  pose proof (no_waiter_is_lost cfg 7 0 c3 demo_reachable) as H. cbv zeta in H.
  destruct H as (H & _). exact H.
Defined.

Lemma the_loop_never_fails_witness : is_Some (select_branch env 3 (EvTx (tx 12 2)) c3.2).
Proof.
  pose proof (the_loop_never_fails cfg 7 0 c3 env 3 (EvTx (tx 12 2)) demo_reachable I) as H.
  destruct H as [H _]. exact H.
Defined.

Lemma addresses_ordered_by_current_stake_witness :
  ∃ k, (k, 1%N) ∈ StakedSet.StakedSet.iter (active_staked_sorted_remote_peer (driver c3.2)).
Proof.
  pose proof (addresses_ordered_by_current_stake cfg 7 0 c3 demo_reachable) as H. cbv zeta in H.
  destruct H as [_ H]. specialize (H 1%N). apply H.
  destruct (tx_worker_handle_map (driver c3.2) !! 1%N) as [h|] eqn:E; [by exists h|vm_compute in E; discriminate E].
Defined.

(** ** Routing *)
Definition fails (id : N) : DriverEvent := EvConnecting (JoinOk id (inr (CConnectionError TimedOut))).
(** A first attempt; the same after two failures: the third and last. *)
Definition first_attempt : list (N * DriverEvent) := [(1%N, EvTx (tx 11 1))].
Definition third_attempt : list (N * DriverEvent) := [(1, EvTx (tx 11 1)); (2, fails 0); (3, fails 1)]%N.
Definition c1 : Phase * Demo.Loop := (Top, play first_attempt begin).
Definition c1' : Phase * Demo.Loop := (Top, play third_attempt begin).

Lemma first_attempt_reachable : reachable cfg 7 0 c1.
Proof. eexists. apply (play_start first_attempt). cbn [playable first_attempt]. repeat split; by vm_compute. Qed.

Lemma third_attempt_reachable : reachable cfg 7 0 c1'.
Proof.
  eexists. apply (play_start third_attempt). cbn [playable third_attempt].
  repeat split; try by vm_compute; eexists; split; by vm_compute.
Qed.

Lemma queued_transaction_is_carried_witness : carried (accept_tx env 3 (tx 12 2) (driver c3.2)) 2.
Proof.
  apply (queued_transaction_is_carried cfg 7 0 c3 env 3 (tx 12 2) 1002 demo_reachable);
    first [vm_compute; reflexivity|vm_compute; lia|idtac].
  right. split; [|vm_compute; reflexivity]. vm_compute. intros H. inversion H.
Defined.

Lemma queue_is_bounded_fifo_witness :
  ∃ d', queue_tx_or_drop env 1 (tx 11 1) 1 (initial (Ch := Demo.Ch) 7 0) = (true, d') ∧ responses (rt d') = [].
Proof.
  pose proof (queue_is_bounded_fifo env 1 (tx 11 1) 1 (initial (Ch := Demo.Ch) 7 0) eq_refl ltac:(vm_compute; lia)) as H.
  destruct (queue_tx_or_drop env 1 (tx 11 1) 1 (initial (Ch := Demo.Ch) 7 0)) as [[|] d'] eqn:E.
  - exists d'. split; [reflexivity|]. destruct H as (_ & _ & _ & H). rewrite H. reflexivity.
  - vm_compute in E. discriminate E.
Defined.

(** The identity changes while peer 1 has a worker, and while it connects. *)
Lemma identity_change_replays_witness :
  identity (update_identity env 8 (driver c3.2)) = 8%N ∧
  is_Some (connecting_remote_peers (update_identity env 8 (driver c1.2)) !! 1%N).
Proof.
  pose proof (identity_change_replays cfg 7 0 c3 env 8 demo_reachable) as H. cbv zeta in H.
  pose proof (identity_change_replays cfg 7 0 c1 env 8 first_attempt_reachable) as H'. cbv zeta in H'.
  destruct H as (H & _). split; [exact H|].
  destruct H' as (_ & _ & _ & _ & _ & _ & _ & _ & H'). apply H'; vm_compute; eexists; reflexivity.
Defined.

Definition attempt (id : N) (c : Phase * Demo.Loop) : option (ConnectingTask * ConnectingMeta) :=
  t ← connecting_tasks (driver c.2) !! id; m ← connecting_meta (driver c.2) !! id; Some (t, m).

Lemma last_attempt_gives_up_witness :
  tx_queues (handle_connecting_result env (JoinOk 2 (inr (CConnectionError TimedOut))) (driver c1'.2)) !! 1%N = None.
Proof.
  destruct (connecting_tasks (driver c1'.2) !! 2%N) as [t|] eqn:Et; [|vm_compute in Et; discriminate Et].
  destruct (connecting_meta (driver c1'.2) !! 2%N) as [m|] eqn:Em; [|vm_compute in Em; discriminate Em].
  pose proof (last_attempt_gives_up cfg 7 0 c1' env 2 t m TimedOut eq_refl third_attempt_reachable) as H. cbv zeta in H.
  specialize (H Et). vm_compute in Et. injection Et as <-. specialize (H I Em). vm_compute in Em. injection Em as <-.
  destruct (H ltac:(vm_compute; lia)) as (_ & Hp).
  destruct (Hp 1%N) as [Hq _]; [cbn; left|]. exact Hq.
Defined.

Lemma failed_attempt_is_retried_witness : ∃ id',
  connecting_remote_peers (handle_connecting_result env (JoinOk 0 (inr (CConnectionError TimedOut))) (driver c1.2)) !! 1%N = Some id'.
Proof.
  destruct (connecting_tasks (driver c1.2) !! 0%N) as [t|] eqn:Et; [|vm_compute in Et; discriminate Et].
  destruct (connecting_meta (driver c1.2) !! 0%N) as [m|] eqn:Em; [|vm_compute in Em; discriminate Em].
  pose proof (failed_attempt_is_retried cfg 7 0 c1 env 0 t m TimedOut 1 1001 first_attempt_reachable) as H. cbv zeta in H.
  specialize (H Et). vm_compute in Et. injection Et as <-. specialize (H I Em). vm_compute in Em. injection Em as <-.
  destruct H as (id' & H & _); [reflexivity|vm_compute; lia|reflexivity| |reflexivity|reflexivity|by right|by exists id'].
  vm_compute. intros H. inversion H.
Defined.

Lemma eviction_takes_the_whole_connection_witness :
  1%N ∈ being_evicted_peers (evict_peer (driver c3.2, []) 1%N).1.
Proof.
  destruct (tx_worker_handle_map (driver c3.2) !! 1%N) as [h|] eqn:Eh; [|vm_compute in Eh; discriminate Eh].
  destruct (connection_map (driver c3.2) !! h_remote_peer_addr h) as [conn|] eqn:Ec.
  - pose proof (eviction_takes_the_whole_connection cfg 7 0 c3 1 h conn [] demo_reachable) as H. cbv zeta in H.
    specialize (H Eh Ec). destruct (evict_peer (driver c3.2, []) 1%N) as [d' ns']. destruct H as (_ & H & _).
    apply (H 1%N). vm_compute in Eh. injection Eh as <-. vm_compute in Ec. injection Ec as <-. vm_compute. eexists. reflexivity.
  - vm_compute in Eh. injection Eh as <-. vm_compute in Ec. discriminate Ec.
Defined.

(** ** Worker *)
Definition demo_worker : Worker.Worker.QuicTxSenderWorker :=
  Worker.Worker.mk 1 1001 50 7 1 true [(tx 11 1, 1); (tx 12 1, 2)] 2 3 0.

Lemma queue_loop_terminates_witness : ∃ e w' rs j,
  Worker.Worker.try_process_tx_in_queue (Worker.Worker.queue_fuel demo_worker) (λ _, None) 0 demo_worker = Some (e, w', rs, j) ∧
  (e = None → Worker.Worker.tx_queue w' = []).
Proof.
  destruct (Worker.Worker.queue_loop_terminates (λ _, None) demo_worker (Worker.Worker.queue_fuel demo_worker) 0 ltac:(lia))
    as (e & w' & rs & j & H1 & _ & H2).
  exists e, w', rs, j. by split.
Defined.

Lemma queue_loop_accounts_witness : ∃ e w' rs j,
  Worker.Worker.try_process_tx_in_queue (Worker.Worker.queue_fuel demo_worker) (λ _, None) 0 demo_worker = Some (e, w', rs, j) ∧
  count_responses 11 rs + count_queue 11 (Worker.Worker.tx_queue w') = 1.
Proof.
  destruct (Worker.Worker.try_process_tx_in_queue (Worker.Worker.queue_fuel demo_worker) (λ _, None) 0 demo_worker)
    as [[[[e w'] rs] j]|] eqn:E; [|vm_compute in E; discriminate E].
  pose proof (Worker.Worker.queue_loop_accounts (λ _, None) demo_worker (Worker.Worker.queue_fuel demo_worker) 0 e w' rs j 11 eq_refl E) as H.
  exists e, w', rs, j. split; [reflexivity|]. rewrite Nat.add_comm, <-H. reflexivity.
Defined.

(** ** Eviction strategy: peers 1 and 2 are staked, peer 1 was just used *)
Definition demo_staked : StakedSet.StakedSet.StakedSortedSet N :=
  (StakedSet.StakedSet.insert 2%N 20%N (StakedSet.StakedSet.insert 1%N 10%N StakedSet.StakedSet.empty).2).2.
Definition demo_usage : gmap N N := {[1%N := 999%N]}.

Lemma stake_plan_eviction_correct_witness :
  length (Eviction.Eviction.stake_plan_eviction Eviction.Eviction.default_strategy 1000 demo_staked demo_usage ∅ 1) ≤ 1.
Proof.
  assert (StakedSet.StakedSet.wf demo_staked) as Hw.
  { apply StakedSet.StakedSet.staked_insert_wf, StakedSet.StakedSet.staked_insert_wf, StakedSet.StakedSet.staked_empty_wf. }
  exact (proj1 (Eviction.Eviction.stake_plan_eviction_correct Eviction.Eviction.default_strategy 1000 demo_staked demo_usage ∅ 1 Hw)).
Defined.

(** Peers 1 and 2 share address 7; the peer 3 is alone at address 8. *)
Definition demo_connections : gmap N ActiveConnection :=
  {[7%N := Conn.mk 7 50 0 {[1%N := 10%N; 2%N := 20%N]}; 8%N := Conn.mk 8 51 1 {[3%N := 40%N]}]}.
Definition demo_addresses : StakedSet.StakedSet.StakedSortedSet N :=
  (StakedSet.StakedSet.insert 8%N 40%N (StakedSet.StakedSet.insert 7%N 30%N StakedSet.StakedSet.empty).2).2.

Definition demo_addr_map : Eviction.Eviction.RemotePeerAddrMap :=
  Eviction.Eviction.Build_RemotePeerAddrMap (Eviction.Eviction.Quinn demo_connections) demo_addresses.
Lemma group_plan_correct_witness :
  Eviction.Eviction.stake_plan_eviction_with_addr_map Eviction.Eviction.default_strategy 1000000000 demo_staked ∅ ∅ 1 demo_addr_map = [2; 1]%N ∧
  ∃ addr g, Eviction.Eviction.get_peer_stake_mapping (Eviction.Eviction.Quinn demo_connections) addr = Some g ∧ is_Some (g !! 1%N).
Proof.
  split; [vm_compute; reflexivity|].
  destruct (Eviction.Eviction.group_plan_correct Eviction.Eviction.default_strategy 1000000000 demo_staked ∅ ∅ 1 demo_addr_map 1%N)
    as (_ & addr & g & Hg & Hin & _).
  - apply (bool_decide_unpack _). vm_compute. exact I.
  - by exists addr, g.
Defined.

(** ** Watcher: peer 1 was at address 5, and is not published any more *)
Definition demo_watcher : Watcher.Watcher.Watcher :=
  Watcher.Watcher.handle_cnc (RegisterWatch 1 5) Watcher.Watcher.new.

Lemma address_change_is_delivered_witness : ∃ w2 s w3,
  Watcher.Watcher.wake (Watcher.Watcher.update_peers_to_watch (λ _ : N, None : option N) Forwards demo_watcher) = Some w2 ∧
  Watcher.Watcher.take_changes w2 = Some (s, w3) ∧ 1%N ∈ s.
Proof.
  assert (Types.get_quic_dest_addr (λ _ : N, None : option N) 1%N Forwards ≠ Some 5%N) as Hm by (intros E; vm_compute in E; discriminate E).
  destruct (Watcher.Watcher.address_change_is_delivered (λ _ : N, None : option N) Forwards demo_watcher 1 5
    eq_refl Hm eq_refl) as (w2 & s & w3 & H1 & H2 & H3 & _).
  exists w2, s, w3. by split_and!.
Defined.

Lemma no_change_without_notification_witness :
  Watcher.Watcher.permit (Watcher.Watcher.update_peers_to_watch (λ _ : N, None : option N) Forwards
    (Watcher.Watcher.handle_cnc (RegisterWatch 1 5) Watcher.Watcher.new)) = true.
Proof.
  set (w0 := Watcher.Watcher.register_watch 1 5 Watcher.Watcher.new).
  assert (rtc (Watcher.Watcher.step (Tpu := N → option N)) Watcher.Watcher.new
    (Watcher.Watcher.update_peers_to_watch (λ _ : N, None : option N) Forwards
      (Watcher.Watcher.handle_cnc (RegisterWatch 1 5) Watcher.Watcher.new))) as Hr.
  { eapply rtc_l; [apply (Watcher.Watcher.st_register 1 5)|]. eapply rtc_l; [apply Watcher.Watcher.st_recv; reflexivity|].
    apply rtc_once, Watcher.Watcher.st_tick. }
  destruct (Watcher.Watcher.no_change_without_notification _ Hr) as [H|H]; [|exact H|vm_compute in H; discriminate H].
  apply (non_empty_inhabited_L 1%N), (bool_decide_unpack _). vm_compute. exact I.
Defined.

(** ** Identity updater: a barrier update reaches the driver *)
Definition demo_updater : Updater.Updater.Updater :=
  Updater.Updater.update_identity_with_confirmation_barrier 8 1 (Updater.Updater.new 7).
Lemma one_barrier_update_at_a_time_witness : Updater.Updater.permits demo_updater = 1.
Proof.
  assert (rtc Updater.Updater.step (Updater.Updater.new 7) demo_updater) as Hr by (apply rtc_once, Updater.Updater.st_barrier).
  destruct (Updater.Updater.one_barrier_update_at_a_time 7 demo_updater Hr) as (_ & H & _).
  apply H. reflexivity.
Defined.
